(* ===== verification/_CoqProject ===== *)
-Q . S2P
Prelude.v
GoStd.v
Config.v
Resp.v
KeyCodec.v
Db.v
StoreMeta.v
StoreStrings.v
StoreBits.v
StoreBitmaps.v
StoreKeys.v
StoreHash.v
StoreLists.v
StoreSets.v
StoreHll.v
Glob.v
StoreZSets.v
StoreSampling.v
Client.v
PubSub.v
ListNotify.v
Listener.v
Handler.v
Lua.v
Server.v
Trace.v
Lifecycle.v
Metrics.v
Cleanup.v
Leader.v
Footprint.v
Ops.v
CmdStrings.v
CmdKeys.v
CmdCollections.v
CmdZSets.v
CmdBlocking.v
CmdProps.v
Commands.v
Locks.v
Types.v
Blocking.v
Serve.v
StringRows.v
Cache.v
Startup.v
