(* ===== verification/Prelude.v ===== *)
(** * postkeys: a verification library

    postkeys is a server that speaks the Redis protocol and keeps its data in
    PostgreSQL. This library models its Go code as Gallina functions and
    proves what the parts promise, separately and put together.

    ** The program

    A client's bytes are parsed by internal/resp. internal/server runs one loop
    per connection (authentication, the pub/sub mode, MULTI/EXEC) and passes
    commands to internal/handler, whose dispatch finds the handler of a
    command; the handler checks its arguments and calls the interface
    [storage.Operations]. That interface has three implementations: [Store]
    (each call on its own), [TxStore] (inside an open transaction) and, in
    front of the first two, the string cache of internal/cache. Under them is
    internal/storage/querier.go, one method per operation, each a sequence of
    SQL statements. A background sweep deletes expired rows; internal/leader
    elects the instance that runs it; internal/pubsub carries published
    messages between instances and to subscribers.

    ** The files

    - Prelude, GoStd: bytes, 64-bit wrap-around, results; strconv, strings,
      utf8, base64, sort.
    - Config (config.go, storage.go, main.go): the environment, durations, the
      connection string and pool settings.
    - Resp (resp.go): values, reader, writer.
    - KeyCodec (querier.go): how keys become TEXT.
    - Db (storage.go and what it relies on of PostgreSQL): the seven tables,
      the monad [M] of statement sequences, transactions, retries ([withTx]).
    - StoreMeta, StoreStrings, StoreBits, StoreBitmaps, StoreKeys, StoreHash,
      StoreLists, StoreSets, StoreHll (with hyperloglog.go), StoreZSets,
      StoreSampling (querier.go): one definition per method of [queryOps].
    - Glob (hub.go, querier.go): the two pattern matchers.
    - Client (client.go), PubSub (hub.go), Handler (handler.go, keys.go,
      handler_pubsub.go), Server (server.go): connections, subscriptions, the
      commands without storage, MULTI/EXEC, the connection loop. Handler and
      Server are proved for any instance of the class [Handler.Operations].
    - Lua (lua.go): EVAL, EVALSHA, SCRIPT, for any interpreter; the script cache,
      the redis table, conversions, the transaction of a script.
    - Trace (server.go, tracing.go): the trace logs of commands and of queries.
    - Lifecycle (server.go, main.go): accepting, tracking, draining and closing
      connections and the shutdown sequence, goroutines interleaved as steps.
    - Metrics (metrics.go): what is counted, and the probes. Startup (main.go):
      the order in which the parts start, and how the shutdown ends them.
    - Listener (hub.go, notifier.go, invalidator.go, main.go): the loops around
      the LISTEN connections, as instances of one class, and [retryStartup].
    - Cleanup (storage.go): the expiry sweep. Leader (election.go, k8s.go): the
      election, many pods interleaved, as a step relation.
    - Footprint: which rows and locks an operation may touch, whatever fails.
    - Ops (interface.go, storage.go, transaction.go): the storage interface as
      a signature of operations, handlers as programs over it ([prog]), the
      implementations [tx_op] and [store_op], and the class [OpsImpl] of what
      they promise.
    - CmdStrings, CmdKeys, CmdCollections, CmdZSets, Commands
      (handler_ops.go): the handlers and the dispatch [ExecuteWithOps], which
      discharges the class [Handler.Operations].
    - Locks: advisory locks of several sessions, as a step relation over the
      lock requests that runs of the operations and of EXEC make.
    - Types (client.go, handler_ops.go, server.go): which values replies can be;
      postconditions of handlers ([gives]), and the class [TypedOps] of
      implementations whose replies fit the protocol.
    - Blocking (handler_ops.go), ListNotify (listnotify/notifier.go): see below.
    - CmdProps, Serve: theorems about handlers for any store, and about
      commands on the database, up to a whole session through the server.
    - StringRows, Cache (internal/cache): which operations change strings, and
      the cache in front of the store.

    ** State, effects, errors

    A computation [M A] takes an environment (the database's and Go's clock,
    and for every statement sent whether it fails, and if so whether it took
    effect although its answer was lost) and a state (tables, number of
    statements sent, transaction flags, locks requested) to a state and a
    result [Ok] or [Fail]. [runs now gonow m t t' r] is the fault-free
    case. Go errors are values of [goerror]; a run-time panic is an error whose
    text says so, and ends a handler. Nothing recovers from one, so the process
    ends: an open transaction is lost, and the reply stands for the lost
    connection ([Handler.crashed], [Commands.cmd_ops]). Integers are [Z] with the wrap-around of
    int64 written out where the code can overflow; floats are bit patterns.

    ** Parameters

    What the source leaves to others is an argument of the definitions:
    iteration orders of Go maps, the row order of UPDATE, random numbers,
    floating-point parsing, printing and arithmetic (the fields of
    [Ops.runtime]), the Lua interpreter ([Lua.lua_lib], with its laws [LuaOk]),
    what pgx returns and when contexts end ([Listener.input]), PostgreSQL's hashtext (Locks), the API server (Leader,
    with its documented behaviour as hypotheses). Where a theorem needs
    something of them it says so, and its witness gives an instance.

    ** Fuel

    The parser (Resp.read, fuel one more than the bytes left), the glob loop
    (Glob) and the terms of a duration (Config.parse_terms, fuel the length of
    the text, of which every term takes at least a byte) carry fuel;
    [Read_bounded], [globMatch_correct] and, for durations of whole numbers,
    [ParseDuration_sum] include that it suffices. Retries are bounded by the
    code; loops that never end are steps.

    ** What the theorems show

    - Wire format: writing and reading a value is the identity, any input ends
      in a value within the limits or an error.
    - Storage: each command's effect on an abstract value (string, bit
      sequence, map, sequence, set, ordered map of scores, set of elements
      seen), its answer on every branch, and that no other key changes; key
      names round-trip; expiry and deletion move all tables together (but for
      EXPIRE on a HyperLogLog).
    - Failure: [withTx] and EXEC retry exactly transient failures and then
      commit all or nothing; a command touches only its announced keys, so the
      locks EXEC takes up front cover it (scripts, which may write keys they do
      not declare, apart); the locks that operations and EXECs request, in the
      order in which they do, do not deadlock. A COMMIT whose answer is lost
      may have taken effect; the theorems say what holds then ([lost_commit],
      [answer_lost]).
    - Interfaces: store and transaction agree; the cache answers what the
      database would, within the limits its theorem states; the signature's implementations meet [OpsImpl].
    - Pub/sub: the two halves of the hub stay equal, a message reaches exactly
      its subscribers. Leader: at most one pod writes the lease.
    - Server: no command before authentication, the pub/sub mode, a whole
      session of SET and GET; the trace log does not tell the password.
    - Scripts: a script is atomic and locked like EXEC, EVALSHA is EVAL, replies
      survive the conversion to Lua and back, errors keep their text.
    - Types: the writer can write every reply, and a RESP2 client reads exactly
      the RESP2 values that were answered.
    - Startup: the listener comes last, outages only delay it, and the shutdown
      ends what was started, the list notifier apart.
    - Listeners and shutdown: notifications are handled in order and at most
      once, all of them while the connection holds; draining and stopping reach
      the tracked connections; the store is closed after the handlers ended.

    Lemmas whose names say so ([rename_same_key_deletes], ...) show behaviour
    that contradicts comments, documentation or Redis.

    ** Not modelled

    The Lua interpreter and the libraries opened in it (openSafeLibs), the
    Prometheus and pprof libraries, signals and the exit of the process, sockets,
    the wire protocol of PostgreSQL and the statements of the schema migration,
    goroutine scheduling below the level of a statement or a locked method. *)
From Stdlib Require Import ZArith Lia Ascii.
From stdpp Require Import gmap strings list sorting.

Declare Scope go_scope.
Delimit Scope go_scope with go.
Global Open Scope go_scope.

(** ** Bytes and strings

    A Go [[]byte] is a list of 8-bit characters, a Go [string] is Stdlib's
    [string]. The two conversions of the language, [[]byte(s)] and
    [string(b)], are [bytes_of] and [string_of]. *)
Abbreviation bytes := (list ascii).

Definition bytes_of (s : string) : bytes := String.list_ascii_of_string s.
Definition string_of (b : bytes) : string := String.string_of_list_ascii b.

Lemma string_of_bytes_of s : string_of (bytes_of s) = s.
Proof. apply String.string_of_list_ascii_of_string. Qed.

Lemma bytes_of_string_of b : bytes_of (string_of b) = b.
Proof. apply String.list_ascii_of_string_of_list_ascii. Qed.

#[export] Instance bytes_of_inj : Inj (=) (=) bytes_of.
Proof. intros x y E. by rewrite <-(string_of_bytes_of x), E, string_of_bytes_of. Qed.

#[export] Instance string_of_inj : Inj (=) (=) string_of.
Proof. intros x y E. by rewrite <-(bytes_of_string_of x), E, bytes_of_string_of. Qed.

Lemma bytes_of_app s t : bytes_of (s +:+ t) = bytes_of s ++ bytes_of t.
Proof. induction s as [|c s IH]; [done|]. change (c :: bytes_of (s +:+ t) = c :: (bytes_of s ++ bytes_of t)). by rewrite IH. Qed.

(** Go's [len(s)]. *)
Definition slen (s : string) : Z := Z.of_nat (length (bytes_of s)).
Definition blen (b : bytes) : Z := Z.of_nat (length b).

(** The numeric value of a byte, and the byte of an integer ([byte(z)],
    truncating). *)
Definition b2z (c : ascii) : Z := Z.of_N (N_of_ascii c).
Definition z2b (z : Z) : ascii := ascii_of_N (Z.to_N (z mod 256)).

Lemma b2z_range c : (0 <= b2z c < 256)%Z.
Proof. unfold b2z. pose proof (N_ascii_bounded c). lia. Qed.

Lemma z2b_b2z c : z2b (b2z c) = c.
Proof.
  unfold z2b. rewrite Z.mod_small by apply b2z_range.
  unfold b2z. by rewrite N2Z.id, ascii_N_embedding.
Qed.

Lemma b2z_z2b z : b2z (z2b z) = (z mod 256)%Z.
Proof.
  unfold z2b, b2z. pose proof (Z.mod_pos_bound z 256 ltac:(lia)).
  rewrite N_ascii_embedding by lia. lia.
Qed.

#[export] Instance b2z_inj : Inj (=) (=) b2z.
Proof. intros x y E. by rewrite <-(z2b_b2z x), E, z2b_b2z. Qed.

(** ** Machine integers

    A Go [int64]/[int] is an integer in [[-2^63, 2^63)]; its arithmetic wraps.
    A [uint64] is an integer in [[0, 2^64)]. *)
Definition wrap64 (z : Z) : Z := ((z + 2 ^ 63) mod 2 ^ 64 - 2 ^ 63)%Z.
Definition u64 (z : Z) : Z := (z mod 2 ^ 64)%Z.
Definition int64 (z : Z) : Prop := (- 2 ^ 63 <= z < 2 ^ 63)%Z.

#[export] Instance int64_dec z : Decision (int64 z).
Proof. unfold int64. apply _. Defined.

Lemma wrap64_id z : int64 z → wrap64 z = z.
Proof. unfold int64, wrap64. intros. rewrite Z.mod_small; lia. Qed.

Lemma wrap64_range z : int64 (wrap64 z).
Proof. unfold int64, wrap64. pose proof (Z.mod_pos_bound (z + 2^63) (2^64)). lia. Qed.

Lemma wrap64_le z : (- 2 ^ 63 <= z → wrap64 z <= z)%Z.
Proof. intros H. unfold wrap64. pose proof (Z.mod_le (z + 2 ^ 63) (2 ^ 64)). lia. Qed.

Lemma wrap64_wrap64 z : wrap64 (wrap64 z) = wrap64 z.
Proof. apply wrap64_id, wrap64_range. Qed.

Lemma wrap64_cong z : ∃ k, wrap64 z = (z + k * 2 ^ 64)%Z.
Proof.
  exists (- ((z + 2^63) / 2^64))%Z. unfold wrap64.
  rewrite (Z.mod_eq (z + 2^63)) by lia. lia.
Qed.

Lemma wrap64_eq_mod x y : (x mod 2 ^ 64 = y mod 2 ^ 64)%Z → wrap64 x = wrap64 y.
Proof.
  intros E. unfold wrap64. rewrite (Z.add_mod x), (Z.add_mod y), E by lia. done.
Qed.

Lemma wrap64_mod z : (wrap64 z mod 2 ^ 64 = z mod 2 ^ 64)%Z.
Proof. destruct (wrap64_cong z) as [k ->]. by rewrite Z.mod_add by lia. Qed.

(** ** Errors

    A Go [error] value: its text, and the SQLSTATE when the error chain holds
    a [*pgconn.PgError]. *)
Record goerror := GoError { err_text : string; err_code : option string }.

#[export] Instance goerror_eq_dec : EqDecision goerror.
Proof. solve_decision. Defined.

(** [fmt.Errorf] without a wrapped error. *)
Definition Errorf (msg : string) : goerror := GoError msg None.
(** [fmt.Errorf("prefix: %w", err)]. *)
Definition Wrapf (prefix : string) (e : goerror) : goerror :=
  GoError (prefix +:+ ": " +:+ err_text e) (err_code e).

(** The value of a fallible Go call: [(v, nil)] or [(_, err)]. *)
Inductive result (A : Type) : Type :=
| Ok (a : A)
| Fail (e : goerror).
Arguments Ok {_} _.
Arguments Fail {_} _.

#[export] Instance result_eq_dec {A} `{EqDecision A} : EqDecision (result A).
Proof. solve_decision. Defined.

#[export] Instance result_ret : MRet result := @Ok.
#[export] Instance result_bind : MBind result := λ _ _ f r,
  match r with Ok a => f a | Fail e => Fail e end.

(** ** Automation *)

(** Case analysis on the boolean test of the first [if] of the goal. *)
Ltac case_if :=
  match goal with
  | |- context [if ?b then _ else _] =>
      lazymatch type of b with
      | bool => let E := fresh "Hb" in destruct b eqn:E
      | _ => destruct b
      end
  end.

(** Boolean comparisons of [Z] and [nat] in hypotheses become propositions. *)
Ltac zify_bool :=
  repeat match goal with
  | H : (_ && _)%bool = true |- _ => apply andb_true_iff in H as [? ?]
  | H : (_ || _)%bool = false |- _ => apply orb_false_iff in H as [? ?]
  | H : (_ <? _)%Z = true |- _ => apply Z.ltb_lt in H
  | H : (_ <? _)%Z = false |- _ => apply Z.ltb_ge in H
  | H : (_ <=? _)%Z = true |- _ => apply Z.leb_le in H
  | H : (_ <=? _)%Z = false |- _ => apply Z.leb_gt in H
  | H : (_ =? _)%Z = true |- _ => apply Z.eqb_eq in H
  | H : (_ =? _)%Z = false |- _ => apply Z.eqb_neq in H
  | H : bool_decide _ = true |- _ => apply bool_decide_eq_true in H
  | H : bool_decide _ = false |- _ => apply bool_decide_eq_false in H
  end.

(** ** Generic lemmas on lists *)

Lemma take_drop_middle_Z {A} (l : list A) (n m : nat) :
  take n l ++ take m (drop n l) ++ drop (n + m) l = l.
Proof. by rewrite <-drop_drop, take_drop, take_drop. Qed.

(** ** Maps built by a loop

    [for x in l { m[g(x)] = h(x) }] with distinct keys. *)
Lemma foldl_insert_lookup {A V} (g : A → string) (h : A → V) (l : list A) (m : gmap string V) k v :
  NoDup (g <$> l) →
  (foldl (λ m x, <[g x := h x]> m) m l !! k = Some v) ↔
    (∃ x, x ∈ l ∧ g x = k ∧ h x = v) ∨ (¬ (k ∈ g <$> l) ∧ m !! k = Some v).
Proof.
  revert m. induction l as [|x0 l IH]; intros m; cbn.
  { intros _. split; [intros; right; split; [apply not_elem_of_nil|done]|].
    intros [(? & []%not_elem_of_nil & _)|[_ ?]]; done. }
  intros [Hk0 Hnd]%NoDup_cons. rewrite IH by done.
  setoid_rewrite elem_of_cons. destruct (decide (k = g x0)) as [->|Hne].
  - rewrite lookup_insert_eq. split.
    + intros [(x & ? & ? & ?)|[_ [= <-]]]; left; eauto 6.
    + intros [(x & [->|?] & ? & <-)|[Hn _]]; [by right|left; eauto|]. exfalso; auto.
  - rewrite lookup_insert_ne by done. split.
    + intros [(x & ? & ? & ?)|[? ?]]; [left; eauto 6|right; split; [by intros [?|?]|done]].
    + intros [(x & [->|?] & ? & ?)|[? ?]]; [done|left; eauto|right; split; [by eauto|done]].
Qed.

Lemma foldl_insert_lookup_empty {A V} (g : A → string) (h : A → V) (l : list A) k v :
  NoDup (g <$> l) →
  (foldl (λ m x, <[g x := h x]> m) (∅ : gmap string V) l !! k = Some v) ↔
    ∃ x, x ∈ l ∧ g x = k ∧ h x = v.
Proof.
  intros Hnd. rewrite foldl_insert_lookup by done. rewrite lookup_empty.
  split; [by intros [?|[_ ?]]|by left].
Qed.
