(* ===== verification/GoStd.v ===== *)
(** * The parts of Go's standard library the program relies on

    [strconv] (decimal integers), [strings] (prefix, suffix and substring
    tests), [unicode/utf8] (validity), [encoding/base64] (the standard
    alphabet with padding) and [sort]/[slices] on strings. Each function is
    executable and follows the documented behaviour of the Go 1.x library on
    every input; the lemmas are the facts the components use. *)
From stdpp Require Import gmap strings list sorting.
From Stdlib Require Import ZArith Lia Ascii.
From S2P Require Import Prelude.

(** ** strconv *)
Module Strconv.

Definition digit_val (c : ascii) : option Z :=
  let n := b2z c in
  if ((48 <=? n) && (n <=? 57))%Z then Some (n - 48)%Z else None.

Fixpoint parse_digits (acc : Z) (l : bytes) : option Z :=
  match l with
  | [] => Some acc
  | c :: l => match digit_val c with
              | Some d => parse_digits (acc * 10 + d)%Z l
              | None => None
              end
  end.

Definition parse_uint (l : bytes) : option Z :=
  match l with [] => None | _ => parse_digits 0 l end.

(** [strconv.ParseInt(s, 10, 64)]; [strconv.Atoi] accepts the same strings
    where [int] is 64 bits wide. [None] is the syntax or the range error. *)
Definition ParseInt (s : string) : option Z :=
  match bytes_of s with
  | "-"%char :: l =>
      match parse_uint l with
      | Some n => if (n <=? 2 ^ 63)%Z then Some (- n)%Z else None
      | None => None
      end
  | "+"%char :: l =>
      match parse_uint l with
      | Some n => if (n <? 2 ^ 63)%Z then Some n else None
      | None => None
      end
  | l =>
      match parse_uint l with
      | Some n => if (n <? 2 ^ 63)%Z then Some n else None
      | None => None
      end
  end.

Definition Atoi := ParseInt.

(** [strconv.ParseUint(s, 10, 64)]: no sign. *)
Definition ParseUint (s : string) : option Z :=
  match parse_uint (bytes_of s) with
  | Some n => if (n <? 2 ^ 64)%Z then Some n else None
  | None => None
  end.

(** Decimal digits of a non-negative integer, most significant first. [fuel]
    bounds the number of digits; [FormatInt] gives one per bit, plus one. *)
Fixpoint dec_digits (fuel : nat) (n : Z) (acc : bytes) : bytes :=
  match fuel with
  | O => acc
  | S f =>
      let acc' := z2b (48 + n mod 10) :: acc in
      if (n <? 10)%Z then acc' else dec_digits f (n / 10)%Z acc'
  end.

Definition format_uint (n : Z) : bytes :=
  dec_digits (S (Z.to_nat (Z.log2 n))) n [].

(** [strconv.FormatInt(n, 10)] and [strconv.Itoa]. *)
Definition FormatInt_bytes (n : Z) : bytes :=
  if (n <? 0)%Z then "-"%char :: format_uint (- n) else format_uint n.
Definition FormatInt (n : Z) : string := string_of (FormatInt_bytes n).
Definition Itoa := FormatInt.

Lemma parse_digits_ge l k n : parse_digits k l = Some n → (0 <= k)%Z → (k <= n)%Z.
Proof.
  revert k. induction l as [|c l IH]; intros k; simpl.
  - intros [= ->]. lia.
  - destruct (digit_val c) as [d|] eqn:Ed; [|done]. intros H Hk.
    unfold digit_val in Ed. case_match; [|done]. zify_bool. simplify_eq.
    specialize (IH _ H). lia.
Qed.

Lemma parse_uint_nonneg l n : parse_uint l = Some n → (0 <= n)%Z.
Proof. destruct l as [|c l]; [done|]. intros H. by eapply (parse_digits_ge _ 0). Qed.

Lemma ParseInt_range s n : ParseInt s = Some n → int64 n.
Proof.
  unfold ParseInt, int64. intros H.
  repeat case_match; simplify_eq; zify_bool;
    repeat match goal with E : parse_uint _ = Some _ |- _ => apply parse_uint_nonneg in E end; lia.
Qed.

Lemma digit_val_digit d : (0 <= d < 10)%Z → digit_val (z2b (48 + d)) = Some d.
Proof.
  intros ?. unfold digit_val. rewrite b2z_z2b, Z.mod_small by lia.
  case_match; [f_equal; lia|]. apply andb_false_iff in H0 as [|]; zify_bool; lia.
Qed.

Lemma parse_dec_digits fuel n acc k :
  (0 <= n)%Z → (n < 10 ^ Z.of_nat fuel)%Z →
  ∃ m, (0 <= m)%Z ∧
       parse_digits k (dec_digits fuel n acc) = parse_digits (k * 10 ^ m + n)%Z acc.
Proof.
  revert n acc k. induction fuel as [|f IH]; intros n acc k Hn Hf.
  - exists 0%Z. simpl in *. split; [lia|]. f_equal. lia.
  - simpl. pose proof (Z.mod_pos_bound n 10 ltac:(lia)) as Hm.
    pose proof (Z.div_mod n 10 ltac:(lia)) as Hdm.
    case_if; zify_bool.
    + exists 1%Z. split; [lia|]. cbn [parse_digits].
      rewrite digit_val_digit by lia. f_equal. rewrite Z.mod_small by lia. lia.
    + destruct (IH (n / 10)%Z (z2b (48 + n mod 10) :: acc) k) as (m & Hm0 & E).
      { apply Z.div_pos; lia. }
      { replace (Z.of_nat (S f)) with (Z.of_nat f + 1)%Z in Hf by lia.
        rewrite Z.pow_add_r in Hf by lia. apply Z.div_lt_upper_bound; lia. }
      exists (m + 1)%Z. split; [lia|]. rewrite E. cbn [parse_digits].
      rewrite digit_val_digit by lia. f_equal. rewrite Z.pow_add_r by lia. lia.
Qed.

Lemma log2_fuel n : (0 <= n)%Z → (n < 10 ^ Z.of_nat (S (Z.to_nat (Z.log2 n))))%Z.
Proof.
  intros. pose proof (Z.log2_nonneg n).
  replace (Z.of_nat (S (Z.to_nat (Z.log2 n)))) with (Z.succ (Z.log2 n)) by lia.
  destruct (decide (n = 0)%Z) as [->|]; [done|].
  pose proof (Z.log2_spec n ltac:(lia)) as [_ Hub].
  eapply Z.lt_le_trans; [exact Hub|]. apply Z.pow_le_mono_l. lia.
Qed.

Lemma dec_digits_cons fuel n acc : ∃ c l, dec_digits (S fuel) n acc = c :: l.
Proof.
  revert n acc. induction fuel as [|f IH]; intros n acc; cbn [dec_digits]; case_if; eauto.
Qed.

Lemma parse_format_uint n : (0 <= n)%Z → parse_uint (format_uint n) = Some n.
Proof.
  intros Hn. unfold format_uint.
  destruct (dec_digits_cons (Z.to_nat (Z.log2 n)) n []) as (c & l & E).
  unfold parse_uint. rewrite E, <-E.
  destruct (parse_dec_digits (S (Z.to_nat (Z.log2 n))) n [] 0 Hn (log2_fuel n Hn)) as (m & _ & ->).
  done.
Qed.

(** The characters [dec_digits] produces are decimal digits. *)
Definition is_digit (c : ascii) : Prop := (48 <= b2z c <= 57)%Z.

Lemma dec_digits_Forall fuel n acc :
  Forall is_digit acc → Forall is_digit (dec_digits fuel n acc).
Proof.
  revert n acc. induction fuel as [|f IH]; intros n acc Ha; [done|]. simpl.
  pose proof (Z.mod_pos_bound n 10 ltac:(lia)).
  assert (is_digit (z2b (48 + n mod 10))) as Hd.
  { unfold is_digit. rewrite b2z_z2b, Z.mod_small; lia. }
  case_if; [by constructor|]. apply IH. by constructor.
Qed.

Lemma format_uint_digits n : Forall is_digit (format_uint n).
Proof. apply dec_digits_Forall. constructor. Qed.

Lemma format_uint_cons n : ∃ c l, format_uint n = c :: l ∧ is_digit c.
Proof.
  destruct (dec_digits_cons (Z.to_nat (Z.log2 n)) n []) as (c & l & E).
  exists c, l. split; [exact E|]. pose proof (format_uint_digits n) as H.
  unfold format_uint in H. rewrite E in H. by inversion H.
Qed.

(** Round trip: [ParseInt(FormatInt(n)) = n] on every [int64]. *)
Lemma ParseInt_FormatInt n : int64 n → ParseInt (FormatInt n) = Some n.
Proof.
  unfold int64. intros Hn. unfold ParseInt, FormatInt.
  rewrite bytes_of_string_of. unfold FormatInt_bytes.
  case_if; zify_bool.
  - rewrite parse_format_uint by lia. case_if; zify_bool; [f_equal; lia|lia].
  - destruct (format_uint_cons n) as (c & l & E & Hc). rewrite E.
    assert (c ≠ "-"%char) as Hm by (intros ->; destruct Hc as [Hc _]; by apply Hc).
    assert (c ≠ "+"%char) as Hp by (intros ->; destruct Hc as [Hc _]; by apply Hc).
    assert (match parse_uint (c :: l) with
            | Some n => if (n <? 2 ^ 63)%Z then Some n else None
            | None => None end = Some n) as Hr.
    { rewrite <-E, parse_format_uint by lia. case_if; zify_bool; [done|lia]. }
    destruct c as [[] [] [] [] [] [] [] []]; congruence || exact Hr.
Qed.

(** Formatted integers contain neither CR nor LF. *)
Lemma FormatInt_no_newline n c :
  c ∈ FormatInt_bytes n → c ≠ "010"%char ∧ c ≠ "013"%char.
Proof.
  intros Hin. assert (c = "-"%char ∨ is_digit c) as [->|Hd]; [|done|].
  { revert Hin. unfold FormatInt_bytes. case_if; [intros [->|Hin]%elem_of_cons; [by left|]|intros Hin];
      right; eapply Forall_forall; [apply format_uint_digits|exact Hin|apply format_uint_digits|exact Hin]. }
  destruct Hd as [Hd _]. split; intros ->; by apply Hd.
Qed.

End Strconv.

(** ** strings *)
Module Strings.

Fixpoint has_prefix (s p : bytes) : bool :=
  match p, s with
  | [], _ => true
  | c :: p, d :: s => bool_decide (c = d) && has_prefix s p
  | _ :: _, [] => false
  end.
Definition has_suffix (s p : bytes) : bool := has_prefix (rev s) (rev p).

Fixpoint contains (s sub : bytes) : bool :=
  has_prefix s sub || match s with [] => false | _ :: s => contains s sub end.

(** [strings.HasPrefix], [strings.HasSuffix], [strings.Contains]. *)
Definition HasPrefix (s p : string) : bool := has_prefix (bytes_of s) (bytes_of p).
Definition HasSuffix (s p : string) : bool := has_suffix (bytes_of s) (bytes_of p).
Definition Contains (s sub : string) : bool := contains (bytes_of s) (bytes_of sub).

(** [strings.ContainsRune(s, 0)]: a rune below [utf8.RuneSelf] is searched
    for as a byte. *)
Definition ContainsNUL (s : string) : bool := bool_decide ("000"%char ∈ bytes_of s).

(** [strings.TrimPrefix], [strings.TrimSuffix]. *)
Definition TrimPrefix (s p : string) : string :=
  if HasPrefix s p then string_of (drop (length (bytes_of p)) (bytes_of s)) else s.
Definition TrimSuffix (s p : string) : string :=
  if HasSuffix s p
  then string_of (take (length (bytes_of s) - length (bytes_of p)) (bytes_of s)) else s.

(** [strings.ReplaceAll(s, old, new)] for one-byte [old] and [new]. *)
Definition ReplaceByte (old new : ascii) (s : string) : string :=
  string_of ((λ c, if bool_decide (c = old) then new else c) <$> bytes_of s).

(** [strings.ToUpper], up to the case of runes outside ASCII. Two of them have
    an ASCII upper case, U+0131 (bytes C4 B1) and U+017F (bytes C5 BF); every
    other one maps to a rune outside ASCII and is left alone here, since the
    code only compares the result with ASCII names. *)
Definition upper (c : ascii) : ascii :=
  if ((97 <=? b2z c) && (b2z c <=? 122))%Z then z2b (b2z c - 32) else c.
Fixpoint to_upper (l : bytes) : bytes :=
  match l with
  | [] => []
  | c :: ((d :: r) as rest) =>
      if ((b2z c =? 196) && (b2z d =? 177))%Z then "I"%char :: to_upper r
      else if ((b2z c =? 197) && (b2z d =? 191))%Z then "S"%char :: to_upper r
      else upper c :: to_upper rest
  | [c] => [upper c]
  end.
Definition ToUpper (s : string) : string := string_of (to_upper (bytes_of s)).

(** [strings.ToLower], up to the case of runes outside ASCII: U+0130 (bytes
    C4 B0) and U+212A (bytes E2 84 AA) have an ASCII lower case, the others are
    left alone. *)
Definition lower (c : ascii) : ascii :=
  if ((65 <=? b2z c) && (b2z c <=? 90))%Z then z2b (b2z c + 32) else c.
Fixpoint to_lower (l : bytes) : bytes :=
  match l with
  | [] => []
  | c :: rest =>
      match rest with
      | d :: r =>
          if ((b2z c =? 196) && (b2z d =? 176))%Z then "i"%char :: to_lower r
          else match r with
               | e :: r' => if ((b2z c =? 226) && (b2z d =? 132) && (b2z e =? 170))%Z
                            then "k"%char :: to_lower r' else lower c :: to_lower rest
               | [] => lower c :: to_lower rest
               end
      | [] => [lower c]
      end
  end.
Definition ToLower (s : string) : string := string_of (to_lower (bytes_of s)).

(** [strings.SplitN(s, sep, 2)] for a one-byte separator. *)
Fixpoint split2 (sep : ascii) (l : bytes) : option (bytes * bytes) :=
  match l with
  | [] => None
  | c :: l =>
      if bool_decide (c = sep) then Some ([], l)
      else match split2 sep l with Some (a, b) => Some (c :: a, b) | None => None end
  end.
Definition SplitN2 (s : string) (sep : ascii) : list string :=
  match split2 sep (bytes_of s) with
  | Some (a, b) => [string_of a; string_of b]
  | None => [s]
  end.

(** [strings.TrimSpace]: the white space of Unicode, by its encodings. *)
Definition space_runes : list bytes :=
  map (λ n, [z2b n]) [9; 10; 11; 12; 13; 32]%Z.
Definition wide_space_runes : list bytes :=
  map (map z2b)
    ([[194; 133]; [194; 160]; [225; 154; 128]; [226; 128; 168]; [226; 128; 169]; [226; 128; 175]; [226; 129; 159];
      [227; 128; 128]] ++ map (λ n, [226; 128; n]) [128; 129; 130; 131; 132; 133; 134; 135; 136; 137; 138])%Z.
Definition strip_one (runes : list bytes) (l : bytes) : option bytes :=
  match filter (λ r, has_prefix l r = true) runes with
  | r :: _ => Some (drop (length r) l)
  | [] => None
  end.
Fixpoint trim_left (fuel : nat) (runes : list bytes) (l : bytes) : bytes :=
  match fuel, strip_one runes l with
  | S fuel, Some l => trim_left fuel runes l
  | _, _ => l
  end.
Definition trim_space (l : bytes) : bytes :=
  let runes := space_runes ++ wide_space_runes in
  let l := trim_left (length l) runes l in
  rev (trim_left (length l) (map (@rev ascii) runes) (rev l)).
Definition TrimSpace (s : string) : string := string_of (trim_space (bytes_of s)).

(** [strings.Split(s, sep)] for a one-byte separator. *)
Fixpoint split_bytes (sep : ascii) (l : bytes) : list bytes :=
  match l with
  | [] => [[]]
  | c :: l =>
      if bool_decide (c = sep) then [] :: split_bytes sep l
      else match split_bytes sep l with
           | p :: ps => (c :: p) :: ps
           | [] => [[c]]
           end
  end.
Definition Split (s : string) (sep : ascii) : list string := string_of <$> split_bytes sep (bytes_of s).

(** [strings.Join] *)
Fixpoint Join (l : list string) (sep : string) : string :=
  match l with
  | [] => ""
  | [s] => s
  | s :: l => s +:+ sep +:+ Join l sep
  end.

Lemma split2_app sep l r : sep ∉ l → split2 sep (l ++ sep :: r) = Some (l, r).
Proof.
  induction l as [|c l IH]; intros H; cbn [split2 app]; [by rewrite bool_decide_true|].
  rewrite bool_decide_false by (intros ->; apply H; by left).
  rewrite IH; [done|]. intros ?. apply H. by right.
Qed.

Lemma has_prefix_app p s : has_prefix (p ++ s) p = true.
Proof. induction p as [|c p IH]; simpl; [by destruct s|]. by rewrite bool_decide_true, IH. Qed.

Lemma has_prefix_spec s p : has_prefix s p = true ↔ ∃ r, s = p ++ r.
Proof.
  split; [|intros [r ->]; apply has_prefix_app].
  revert s. induction p as [|c p IH]; intros s; [by exists s|].
  destruct s as [|d s]; [done|]. simpl. intros H. zify_bool. subst.
  destruct (IH s) as [r ->]; [done|]. by exists r.
Qed.

Lemma has_prefix_length s p : has_prefix s p = true → length p ≤ length s.
Proof. intros [r ->]%has_prefix_spec. rewrite length_app. lia. Qed.

Lemma has_suffix_spec s p : has_suffix s p = true ↔ ∃ r, s = r ++ p.
Proof.
  unfold has_suffix. rewrite has_prefix_spec. split; intros [r E].
  - exists (rev r). by rewrite <-(rev_involutive s), E, rev_app_distr, rev_involutive.
  - exists (rev r). by rewrite E, rev_app_distr.
Qed.

Lemma contains_spec s sub : contains s sub = true ↔ ∃ l r, s = l ++ sub ++ r.
Proof.
  split.
  - induction s as [|c s IH]; cbn [contains]; rewrite orb_true_iff.
    + intros [[r E]%has_prefix_spec|]; [|done]. by exists [], r.
    + intros [[r E]%has_prefix_spec|(l & r & ->)%IH]; [by exists [], r|by exists (c :: l), r].
  - intros (l & r & ->). induction l as [|c l IH].
    + change ([] ++ sub ++ r) with (sub ++ r).
      destruct (sub ++ r) eqn:E; cbn [contains]; by rewrite <-E, has_prefix_app.
    + cbn [app contains]. by rewrite IH, orb_true_r.
Qed.

End Strings.

(** ** unicode/utf8 *)
Module Utf8.

Definition cont (lo hi : Z) (c : ascii) : bool := ((lo <=? b2z c) && (b2z c <=? hi))%Z.

(** [utf8.Valid]: well-formed UTF-8 without surrogates and overlong forms. *)
Fixpoint valid (l : bytes) : bool :=
  match l with
  | [] => true
  | c :: l1 =>
      let n := b2z c in
      if (n <? 128)%Z then valid l1
      else match l1 with
      | [] => false
      | c1 :: l2 =>
          if ((194 <=? n) && (n <=? 223))%Z then cont 128 191 c1 && valid l2
          else match l2 with
          | [] => false
          | c2 :: l3 =>
              if (n =? 224)%Z then cont 160 191 c1 && cont 128 191 c2 && valid l3
              else if (n =? 237)%Z then cont 128 159 c1 && cont 128 191 c2 && valid l3
              else if ((225 <=? n) && (n <=? 239))%Z
                   then cont 128 191 c1 && cont 128 191 c2 && valid l3
              else match l3 with
              | [] => false
              | c3 :: l4 =>
                  if (n =? 240)%Z
                  then cont 144 191 c1 && cont 128 191 c2 && cont 128 191 c3 && valid l4
                  else if ((241 <=? n) && (n <=? 243))%Z
                  then cont 128 191 c1 && cont 128 191 c2 && cont 128 191 c3 && valid l4
                  else if (n =? 244)%Z
                  then cont 128 143 c1 && cont 128 191 c2 && cont 128 191 c3 && valid l4
                  else false
              end
          end
      end
  end.

(** [utf8.ValidString]. *)
Definition ValidString (s : string) : bool := valid (bytes_of s).

Lemma valid_ascii l : Forall (λ c, b2z c < 128)%Z l → valid l = true.
Proof.
  induction 1 as [|c l Hc _ IH]; [done|]. simpl. case_if; zify_bool; [done|lia].
Qed.

End Utf8.

(** ** encoding/base64, the standard alphabet with padding *)
Module Base64.

Definition enc6 (v : Z) : ascii :=
  if (v <? 26)%Z then z2b (65 + v)
  else if (v <? 52)%Z then z2b (71 + v)
  else if (v <? 62)%Z then z2b (v - 4)
  else if (v =? 62)%Z then "+"%char else "/"%char.

Definition dec6 (c : ascii) : option Z :=
  let n := b2z c in
  if ((65 <=? n) && (n <=? 90))%Z then Some (n - 65)%Z
  else if ((97 <=? n) && (n <=? 122))%Z then Some (n - 71)%Z
  else if ((48 <=? n) && (n <=? 57))%Z then Some (n + 4)%Z
  else if (n =? 43)%Z then Some 62%Z
  else if (n =? 47)%Z then Some 63%Z
  else None.

Definition pad : ascii := "="%char.

Fixpoint encode (l : bytes) : bytes :=
  match l with
  | [] => []
  | [a] => let a := b2z a in
      [enc6 (a / 4); enc6 (a mod 4 * 16); pad; pad]
  | [a; b] => let a := b2z a in let b := b2z b in
      [enc6 (a / 4); enc6 (a mod 4 * 16 + b / 16); enc6 (b mod 16 * 4); pad]
  | a :: b :: c :: l => let a := b2z a in let b := b2z b in let c := b2z c in
      enc6 (a / 4) :: enc6 (a mod 4 * 16 + b / 16)
        :: enc6 (b mod 16 * 4 + c / 64) :: enc6 (c mod 64) :: encode l
  end.

(** The decoder skips CR and LF, wants complete quanta, allows padding only
    at the end and does not check the unused low bits before it. *)
Definition is_newline (c : ascii) : bool :=
  bool_decide (c = "010"%char) || bool_decide (c = "013"%char).

Fixpoint decode_quanta (l : bytes) : option bytes :=
  match l with
  | [] => Some []
  | c0 :: c1 :: c2 :: c3 :: l =>
      match dec6 c0, dec6 c1 with
      | Some v0, Some v1 =>
          if bool_decide (c2 = pad) then
            if bool_decide (c3 = pad ∧ l = []) then Some [z2b (v0 * 4 + v1 / 16)] else None
          else match dec6 c2 with
          | None => None
          | Some v2 =>
              if bool_decide (c3 = pad) then
                if bool_decide (l = [])
                then Some [z2b (v0 * 4 + v1 / 16); z2b (v1 * 16 + v2 / 4)] else None
              else match dec6 c3, decode_quanta l with
              | Some v3, Some r =>
                  Some (z2b (v0 * 4 + v1 / 16) :: z2b (v1 * 16 + v2 / 4)
                          :: z2b (v2 * 64 + v3) :: r)
              | _, _ => None
              end
          end
      | _, _ => None
      end
  | _ => None
  end.

Definition decode (l : bytes) : option bytes :=
  decode_quanta (List.filter (λ c, negb (is_newline c)) l).

(** [base64.StdEncoding.EncodeToString] and [DecodeString]. *)
Definition EncodeToString (b : bytes) : string := string_of (encode b).
Definition DecodeString (s : string) : option bytes := decode (bytes_of s).

Lemma dec6_enc6 v : (0 <= v < 64)%Z → dec6 (enc6 v) = Some v.
Proof.
  intros Hv.
  assert (forallb (λ n, bool_decide (dec6 (enc6 (Z.of_nat n)) = Some (Z.of_nat n))) (seq 0 64)
          = true) as H by (vm_compute; reflexivity).
  rewrite forallb_forall in H. specialize (H (Z.to_nat v)).
  rewrite Z2Nat.id in H by lia. eapply bool_decide_eq_true, H, in_seq. lia.
Qed.

(** Base64 characters are printable ASCII, from ['+'] up. *)
Definition printable (c : ascii) : Prop := (43 <= b2z c < 128)%Z.

Lemma enc6_printable v : (0 <= v)%Z → printable (enc6 v).
Proof.
  intros ?. unfold printable, enc6.
  repeat case_if; zify_bool; rewrite ?b2z_z2b; try (rewrite Z.mod_small by lia; lia); done.
Qed.

Lemma enc6_not_pad v : (0 <= v < 64)%Z → enc6 v ≠ pad.
Proof. intros Hv E. pose proof (dec6_enc6 v Hv) as H. rewrite E in H. done. Qed.

Lemma bytes_ind3 (P : bytes → Prop) :
  P [] → (∀ a, P [a]) → (∀ a b, P [a; b]) →
  (∀ a b c l, P l → P (a :: b :: c :: l)) → ∀ l, P l.
Proof.
  intros H0 H1 H2 H3. fix IH 1.
  intros [|a [|b [|c l]]]; [exact H0|exact (H1 a)|exact (H2 a b)|exact (H3 a b c l (IH l))].
Qed.

Lemma encode_printable l : Forall printable (encode l).
Proof.
  induction l as [|a|a b|a b c l IH] using bytes_ind3; cbn [encode];
    pose proof b2z_range as R; repeat (constructor; try done);
    try (apply enc6_printable;
         try pose proof (R a); try pose proof (R b); try pose proof (R c);
         Z.div_mod_to_equations; lia).
Qed.

Lemma encode_length l : (3 * blen (encode l) <= 4 * blen l + 8)%Z.
Proof.
  unfold blen. induction l as [|a|a b|a b c l IH] using bytes_ind3; cbn [encode length]; lia.
Qed.

Lemma quantum0 a b : (0 <= a < 256 → 0 <= b < 256 → a / 4 * 4 + (a mod 4 * 16 + b / 16) / 16 = a)%Z.
Proof. intros. Z.div_mod_to_equations; lia. Qed.
Lemma quantum1 a b c :
  (0 <= a < 256 → 0 <= b < 256 → 0 <= c < 256 →
   ((a mod 4 * 16 + b / 16) * 16 + (b mod 16 * 4 + c / 64) / 4) mod 256 = b)%Z.
Proof. intros. Z.div_mod_to_equations; lia. Qed.
Lemma quantum2 b c :
  (0 <= b < 256 → 0 <= c < 256 → ((b mod 16 * 4 + c / 64) * 64 + c mod 64) mod 256 = c)%Z.
Proof. intros. Z.div_mod_to_equations; lia. Qed.

Lemma z2b_eq z c : (z mod 256 = b2z c)%Z → z2b z = c.
Proof. intros E. apply (inj b2z). by rewrite b2z_z2b. Qed.

Lemma decode_quanta_encode l : decode_quanta (encode l) = Some l.
Proof.
  pose proof b2z_range as R.
  induction l as [|a|a b|a b c l IH] using bytes_ind3; cbn [encode decode_quanta]; [done|..];
    try pose proof (R a); try pose proof (R b); try pose proof (R c);
    rewrite !dec6_enc6 by (Z.div_mod_to_equations; lia).
  - rewrite !bool_decide_true by done. do 2 f_equal. apply z2b_eq.
    pose proof (quantum0 (b2z a) 0) as Q. rewrite Z.div_0_l, Z.add_0_r in Q by lia.
    rewrite Q, Z.mod_small; lia.
  - rewrite bool_decide_false by (apply enc6_not_pad; Z.div_mod_to_equations; lia).
    rewrite !bool_decide_true by done. f_equal. f_equal; [|f_equal]; apply z2b_eq.
    + rewrite quantum0, Z.mod_small; lia.
    + pose proof (quantum1 (b2z a) (b2z b) 0) as Q.
      rewrite (Z.div_0_l 64), Z.add_0_r in Q by lia. apply Q; lia.
  - rewrite !bool_decide_false by (apply enc6_not_pad; Z.div_mod_to_equations; lia).
    rewrite IH. f_equal. f_equal; [|f_equal; [|f_equal]]; apply z2b_eq.
    + rewrite quantum0, Z.mod_small; lia.
    + apply quantum1; lia.
    + apply quantum2; lia.
Qed.

Lemma filter_newline_printable l :
  Forall printable l → List.filter (λ c, negb (is_newline c)) l = l.
Proof.
  induction 1 as [|c l Hc _ IH]; [done|]. simpl.
  assert (is_newline c = false) as ->.
  { unfold is_newline. rewrite orb_false_iff, !bool_decide_eq_false.
    destruct Hc as [Hc _]. split; intros ->; by apply Hc. }
  simpl. by rewrite IH.
Qed.

(** Round trip of the standard encoding, for every byte string. *)
Lemma DecodeString_EncodeToString b : DecodeString (EncodeToString b) = Some b.
Proof.
  unfold DecodeString, EncodeToString, decode. rewrite bytes_of_string_of.
  rewrite filter_newline_printable by apply encode_printable.
  apply decode_quanta_encode.
Qed.

(** A base64 text decodes to no more bytes than it has characters. *)
Lemma decode_quanta_length : ∀ l b, decode_quanta l = Some b → length b ≤ length l.
Proof.
  fix IH 1. intros [|c0 [|c1 [|c2 [|c3 l]]]] b H; cbn [decode_quanta] in H; try done.
  { by injection H as <-. }
  specialize (IH l). repeat case_match; simplify_eq; simpl; try lia.
  specialize (IH _ eq_refl). lia.
Qed.

Lemma DecodeString_length s b : DecodeString s = Some b → length b ≤ length (bytes_of s).
Proof.
  unfold DecodeString, decode. intros H%decode_quanta_length. etrans; [exact H|].
  apply filter_length_le.
Qed.

End Base64.

(** ** sort and slices on strings *)
Module Sort.

(** [sort.Strings]: the bytewise order. *)
Definition Strings (l : list string) : list string := merge_sort String.le l.

(** [slices.Compact]: keeps the first of each run of equal elements. *)
Fixpoint Compact (l : list string) : list string :=
  match l with
  | [] => []
  | x :: l' => match l' with
               | [] => [x]
               | y :: _ => if bool_decide (x = y) then Compact l' else x :: Compact l'
               end
  end.

Lemma Strings_Permutation l : Strings l ≡ₚ l.
Proof. apply merge_sort_Permutation. Qed.

Lemma Strings_sorted l : StronglySorted String.le (Strings l).
Proof. apply (StronglySorted_merge_sort _). Qed.

Lemma Compact_cons2 x y l :
  Compact (x :: y :: l) =
    if bool_decide (x = y) then Compact (y :: l) else x :: Compact (y :: l).
Proof. done. Qed.

Lemma elem_of_Compact x l : x ∈ Compact l ↔ x ∈ l.
Proof.
  induction l as [|y [|z l] IH]; [done|done|]. rewrite Compact_cons2, (elem_of_cons (z :: l)).
  case_if; zify_bool; [subst|]; rewrite ?(elem_of_cons (Compact _)), IH; [|done].
  rewrite elem_of_cons. split; [by right|]. intros [->|]; [by left|done].
Qed.

(** Strict bytewise order. *)
Definition slt (x y : string) : Prop := String.le x y ∧ x ≠ y.

Lemma Compact_strict l : StronglySorted String.le l → StronglySorted slt (Compact l).
Proof.
  induction 1 as [|x [|y l] Hs IH Hx]; [constructor|constructor; constructor|].
  rewrite Compact_cons2. case_if; zify_bool; [done|]. constructor; [done|].
  rewrite Forall_forall. intros z Hz. rewrite elem_of_Compact in Hz. split.
  - rewrite Forall_forall in Hx. by apply Hx.
  - intros ->. apply elem_of_cons in Hz as [->|Hz]; [done|].
    inversion Hs as [|? ? ? Hy]; subst. inversion Hx as [|? ? Hzy _]; subst.
    rewrite Forall_forall in Hy. specialize (Hy _ Hz).
    by apply Hb, (anti_symm String.le).
Qed.

End Sort.
