(* ===== verification/Config.v ===== *)
(** * Configuration: internal/config/config.go, cmd/server/main.go, storage.New

    The configuration is read from environment variables, [getenv] here, with
    a default for every variable that is unset, empty or malformed. From it
    main.go takes the patterns of the cache, and storage.New the connection
    string and the settings of the pool. *)
From stdpp Require Import gmap strings list sorting.
From Stdlib Require Import ZArith Lia Ascii.
From S2P Require Import Prelude GoStd.

(** ** time.ParseDuration *)
Module Time.
Local Open Scope Z_scope.

Definition Nanosecond : Z := 1.
Definition Microsecond : Z := 1000 * Nanosecond.
Definition Millisecond : Z := 1000 * Microsecond.
Definition Second : Z := 1000 * Millisecond.
Definition Minute : Z := 60 * Second.
Definition Hour : Z := 60 * Minute.

(** The two letters for micro are U+00B5 and U+03BC. *)
Definition unitMap : list (bytes * Z) :=
  [(bytes_of "ns", Nanosecond); (bytes_of "us", Microsecond);
   (map z2b [194; 181] ++ bytes_of "s", Microsecond); (map z2b [206; 188] ++ bytes_of "s", Microsecond);
   (bytes_of "ms", Millisecond); (bytes_of "s", Second); (bytes_of "m", Minute); (bytes_of "h", Hour)].
Fixpoint find_unit (u : bytes) (m : list (bytes * Z)) : option Z :=
  match m with
  | [] => None
  | (name, unit) :: m => if bool_decide (u = name) then Some unit else find_unit u m
  end.

(** [leadingInt]: the digits in front, [None] when they overflow. *)
Fixpoint leadingInt (x : Z) (l : bytes) : option (Z * bytes) :=
  match l with
  | [] => Some (x, [])
  | c :: rest =>
      match Strconv.digit_val c with
      | None => Some (x, l)
      | Some d =>
          if 2 ^ 63 / 10 <? x then None
          else let x := x * 10 + d in if 2 ^ 63 <? x then None else leadingInt x rest
      end
  end.
(** [leadingFraction]: digits beyond what fits are skipped. The scale is a
    power of ten. *)
Fixpoint leadingFraction (x scale : Z) (overflow : bool) (l : bytes) : Z * Z * bytes :=
  match l with
  | [] => (x, scale, [])
  | c :: rest =>
      match Strconv.digit_val c with
      | None => (x, scale, l)
      | Some d =>
          if overflow || ((2 ^ 63 - 1) / 10 <? x) || (2 ^ 63 <? x * 10 + d) then leadingFraction x scale true rest
          else leadingFraction (x * 10 + d) (scale * 10) false rest
      end
  end.

Definition is_unit_char (c : ascii) : bool :=
  match Strconv.digit_val c with Some _ => false | None => bool_decide (c ≠ "."%char) end.
Fixpoint take_unit (l : bytes) : bytes :=
  match l with c :: l => if is_unit_char c then c :: take_unit l else [] | [] => [] end.

Section Parse.
(** [uint64(float64(f) * (float64(unit) / scale))] *)
Context (fraction : Z → Z → Z → Z).

(** One number with its unit: its nanoseconds and the rest. *)
Definition parse_term (l : bytes) : option (Z * bytes) :=
  match leadingInt 0 l with
  | None => None
  | Some (v, l1) =>
      let pre := bool_decide (length l1 ≠ length l) in
      let '(f, scale, l2, post) :=
        match l1 with
        | c :: l1' =>
            if bool_decide (c = "."%char) then
              let '(f, scale, l2) := leadingFraction 0 1 false l1' in
              (f, scale, l2, bool_decide (length l2 ≠ length l1'))
            else (0, 1, l1, false)
        | [] => (0, 1, l1, false)
        end in
      if negb pre && negb post then None
      else
        let u := take_unit l2 in
        if bool_decide (u = []) then None
        else match find_unit u unitMap with
        | None => None
        | Some unit =>
            if 2 ^ 63 / unit <? v then None
            else
              let v := v * unit in
              let v := if 0 <? f then u64 (v + fraction f unit scale) else v in
              if (0 <? f) && (2 ^ 63 <? v) then None else Some (v, drop (length u) l2)
        end
  end.
Fixpoint parse_terms (fuel : nat) (d : Z) (l : bytes) : option Z :=
  match l, fuel with
  | [], _ => Some d
  | c :: _, S fuel =>
      if bool_decide (c = "."%char) || bool_decide (is_Some (Strconv.digit_val c)) then
        match parse_term l with
        | None => None
        | Some (v, rest) => let d := u64 (d + v) in if 2 ^ 63 <? d then None else parse_terms fuel d rest
        end
      else None
  | _ :: _, O => None
  end.
Definition ParseDuration (s : string) : option Z :=
  let '(neg, l) := match bytes_of s with
                   | (c :: l') as l =>
                       if bool_decide (c = "-"%char) then (true, l')
                       else if bool_decide (c = "+"%char) then (false, l') else (false, l)
                   | [] => (false, [])
                   end in
  if bool_decide (l = bytes_of "0") then Some 0
  else if bool_decide (l = []) then None
  else match parse_terms (length l) 0 l with
  | None => None
  | Some d => if neg then Some (wrap64 (- d)) else if 2 ^ 63 - 1 <? d then None else Some d
  end.

End Parse.

Definition no_fraction (_ _ _ : Z) : Z := 0.
Example ParseDuration_examples :
  ParseDuration no_fraction "1h30m" = Some (90 * Minute) ∧ ParseDuration no_fraction "250ms" = Some (250 * Millisecond) ∧
  ParseDuration no_fraction "-3s" = Some (-3 * Second) ∧ ParseDuration no_fraction "0" = Some 0 ∧
  ParseDuration no_fraction "10" = None ∧ ParseDuration no_fraction "s" = None ∧
  ParseDuration no_fraction "9223372036854775808ns" = None ∧ ParseDuration no_fraction "" = None.
Proof. vm_compute. split_and!; reflexivity. Qed.

(** *** Durations as they are written *)

(** A duration given as numbers with units, like 1h30m. *)
Definition term_text (t : Z * (bytes * Z)) : bytes := Strconv.format_uint t.1 ++ t.2.1.
Definition term_value (t : Z * (bytes * Z)) : Z := t.1 * t.2.2.
Definition duration_text (ts : list (Z * (bytes * Z))) : string := string_of (flat_map term_text ts).
Definition duration_value (ts : list (Z * (bytes * Z))) : Z := foldr (λ t n, term_value t + n) 0 ts.
Definition term_ok (t : Z * (bytes * Z)) : Prop := 0 <= t.1 ∧ t.2 ∈ unitMap.

Lemma digit_val_is_digit c : Strconv.is_digit c → Strconv.digit_val c = Some (b2z c - 48).
Proof.
  unfold Strconv.is_digit, Strconv.digit_val. intros [? ?].
  by rewrite (proj2 (Z.leb_le _ _)), (proj2 (Z.leb_le _ _)) by lia.
Qed.

(** Reading digits up to something that is none. *)
Lemma leadingInt_digits ds x rest n :
  Forall Strconv.is_digit ds → 0 <= x →
  match rest with c :: _ => Strconv.digit_val c = None | [] => True end →
  Strconv.parse_digits x ds = Some n → n <= 2 ^ 63 → leadingInt x (ds ++ rest) = Some (n, rest).
Proof.
  intros Hds. revert x. induction Hds as [|c ds Hc Hds IH]; intros x Hx Hrest Hp Hn.
  { cbn in Hp. injection Hp as ->. destruct rest as [|c rest]; [done|]. cbn. by rewrite Hrest. }
  cbn [Strconv.parse_digits] in Hp. cbn [app leadingInt]. rewrite digit_val_is_digit in * by done.
  assert (x * 10 + (b2z c - 48) <= n) as Hle.
  { destruct Hc. eapply Strconv.parse_digits_ge; [exact Hp|lia]. }
  destruct Hc. rewrite (proj2 (Z.ltb_ge _ _)) by (apply Z.div_le_lower_bound; lia).
  rewrite (proj2 (Z.ltb_ge _ _)) by lia. apply IH; [lia|done..].
Qed.

Lemma unit_facts u n : (u, n) ∈ unitMap →
  1 <= n ∧ find_unit u unitMap = Some n ∧ Forall (λ c, is_unit_char c = true) u ∧ u ≠ [] ∧
  match u with c :: _ => Strconv.digit_val c = None ∧ c ≠ "."%char | [] => True end.
Proof.
  intros H. repeat (apply elem_of_cons in H as [[= -> ->]|H]; [vm_compute; split_and!; done || (repeat constructor; done)|]).
  by apply not_elem_of_nil in H.
Qed.

Lemma take_unit_app u rest :
  Forall (λ c, is_unit_char c = true) u →
  match rest with c :: _ => is_unit_char c = false | [] => True end → take_unit (u ++ rest) = u.
Proof.
  induction 1 as [|c u Hc _ IH]; intros Hr; cbn; [destruct rest; cbn; [done|by rewrite Hr]|]. by rewrite Hc, IH.
Qed.

Definition starts_digit (l : bytes) : Prop := match l with c :: _ => Strconv.is_digit c | [] => True end.

Lemma parse_term_ok fraction t rest :
  term_ok t → starts_digit rest → term_value t < 2 ^ 63 →
  parse_term fraction (term_text t ++ rest) = Some (term_value t, rest).
Proof.
  destruct t as [n [u unit]]. unfold term_ok, term_value, term_text. cbn [fst snd]. intros [Hn Hu] Hr Hv.
  destruct (unit_facts u unit Hu) as (H1 & Hfind & Hchars & Hne & Hhead).
  unfold parse_term. rewrite <-app_assoc.
  rewrite (leadingInt_digits (Strconv.format_uint n) 0 (u ++ rest) n);
    [|apply Strconv.format_uint_digits|lia|destruct u; [done|apply Hhead]| |nia].
  2: { pose proof (Strconv.parse_format_uint n Hn) as E. unfold Strconv.parse_uint in E.
       destruct (Strconv.format_uint_cons n) as (c & l & El & _). by rewrite El in E |- *. }
  destruct u as [|c u]; [done|]. destruct Hhead as [_ Hc]. cbn [app].
  rewrite (bool_decide_false (c = _)) by done.
  destruct (Strconv.format_uint_cons n) as (d & l & El & _).
  rewrite (bool_decide_true (length _ ≠ length _)) by (rewrite El; cbn; rewrite !length_app; cbn; rewrite !length_app; lia).
  cbn [negb andb]. change (c :: u ++ rest) with ((c :: u) ++ rest).
  rewrite take_unit_app; [|done|].
  2: { destruct rest as [|r rest]; [done|]. unfold is_unit_char. by rewrite digit_val_is_digit. }
  rewrite (bool_decide_false (c :: u = [])), Hfind by done.
  rewrite (proj2 (Z.ltb_ge _ n)) by (apply Z.div_le_lower_bound; nia).
  cbn [andb Z.ltb Z.compare]. by rewrite drop_app_length.
Qed.

Lemma term_text_cons t : ∃ c l, term_text t = c :: l.
Proof.
  destruct t as [n [u unit]]. change (term_text (n, (u, unit))) with (Strconv.format_uint n ++ u).
  destruct (Strconv.format_uint_cons n) as (d & l & -> & _). by eexists _, _.
Qed.

Lemma text_starts_digit ts : starts_digit (flat_map term_text ts).
Proof.
  destruct ts as [|[n [u unit]] ts]; [done|].
  change (starts_digit ((Strconv.format_uint n ++ u) ++ flat_map term_text ts)).
  destruct (Strconv.format_uint_cons n) as (d & l & -> & Hd). exact Hd.
Qed.

Lemma term_value_nonneg t : term_ok t → 0 <= term_value t.
Proof. destruct t as [n [u unit]]. intros [Hn Hu]. apply unit_facts in Hu as [H1 _]. cbn in *. unfold term_value. cbn. nia. Qed.
Lemma duration_value_nonneg ts : Forall term_ok ts → 0 <= duration_value ts.
Proof. induction 1 as [|t ts Ht _ IH]; cbn; [lia|]. pose proof (term_value_nonneg t Ht). fold (duration_value ts). lia. Qed.

Lemma parse_terms_ok fraction fuel d ts :
  Forall term_ok ts → (length (flat_map term_text ts) <= fuel)%nat → 0 <= d → d + duration_value ts < 2 ^ 63 →
  parse_terms fraction fuel d (flat_map term_text ts) = Some (d + duration_value ts).
Proof.
  intros Hts. revert fuel d. induction Hts as [|t ts Ht Hts IH]; intros fuel d Hf Hd Hv.
  { cbn. destruct fuel; cbn; f_equal; lia. }
  pose proof (term_value_nonneg t Ht). pose proof (duration_value_nonneg ts Hts).
  cbn [duration_value foldr] in Hv |- *. fold (duration_value ts) in Hv |- *.
  cbn [flat_map] in Hf |- *. pose proof (parse_term_ok fraction t (flat_map term_text ts) Ht (text_starts_digit ts)) as Hp.
  pose proof (text_starts_digit (t :: ts)) as Hs. cbn [flat_map] in Hs.
  destruct (term_text t ++ flat_map term_text ts) as [|c l] eqn:E.
  { exfalso. destruct (term_text_cons t) as (d0 & l0 & E0). by rewrite E0 in E. }
  destruct fuel as [|fuel]; [cbn in Hf; lia|]. cbn [parse_terms].
  rewrite (bool_decide_true (is_Some _)), orb_true_r by (rewrite digit_val_is_digit by exact Hs; by eexists).
  rewrite Hp by lia. unfold u64. rewrite Z.mod_small by lia. rewrite (proj2 (Z.ltb_ge _ _)) by lia.
  rewrite IH; [f_equal; lia| |lia|lia].
  destruct (term_text_cons t) as (d0 & l0 & E0). rewrite E0 in E.
  apply (f_equal length) in E. rewrite length_app in E. cbn [length] in E, Hf. lia.
Qed.

(** What is written as numbers with units is read as their sum, in
    nanoseconds; a single number whose nanoseconds do not fit is refused. *)
Lemma ParseDuration_sum fraction ts :
  Forall term_ok ts → ts ≠ [] → duration_value ts < 2 ^ 63 →
  ParseDuration fraction (duration_text ts) = Some (duration_value ts).
Proof.
  intros Hts Hne Hv. unfold ParseDuration, duration_text. rewrite bytes_of_string_of.
  pose proof (parse_terms_ok fraction (length (flat_map term_text ts)) 0 ts Hts ltac:(lia) ltac:(lia) Hv) as Hp.
  assert (∃ c l, flat_map term_text ts = c :: l ∧ Strconv.is_digit c ∧ l ≠ []) as (c & l & E & Hc & Hl).
  { destruct ts as [|[n [u unit]] ts]; [done|]. inversion Hts as [|? ? [Hn Hu] _]; subst.
    apply unit_facts in Hu as (_ & _ & _ & Hu & _). destruct (Strconv.format_uint_cons n) as (d & l & El & Hd).
    change (flat_map term_text ((n, (u, unit)) :: ts)) with ((Strconv.format_uint n ++ u) ++ flat_map term_text ts).
    rewrite El. exists d, ((l ++ u) ++ flat_map term_text ts). split_and!; [done..|].
    destruct l, u; done. }
  rewrite E in Hp |- *. assert (c ≠ "-"%char ∧ c ≠ "+"%char) as [Hm Hpl].
  { destruct Hc as [Hc _]. split; intros ->; by apply Hc. }
  cbn [Z.add] in Hp. rewrite !bool_decide_false by done. rewrite (bool_decide_false (c :: l = _)).
  2: { intros [= _ ->]. done. }
  rewrite Hp. rewrite (proj2 (Z.ltb_ge _ _)) by lia. done.
Qed.

End Time.

(** ** internal/config *)
Module Config.
Import Time.
Local Open Scope Z_scope.

Record Config := MkConfig {
  RedisAddr : string;
  RedisPassword : string;
  MetricsAddr : string;
  PGHost : string;
  PGPort : Z;
  PGUser : string;
  PGPassword : string;
  PGDatabase : string;
  PGSSLMode : string;
  PGMaxConns : Z;
  PGMinConns : Z;
  PGMaxConnLifetime : Z;
  PGMaxConnIdleTime : Z;
  PGHealthCheckPeriod : Z;
  PGPingTimeout : Z;
  CacheEnabled : bool;
  CacheTTL : Z;
  CacheMaxSize : Z;
  CacheDistributedInvalidation : bool;
  CacheExcludePatterns : string;
  CacheIncludePatterns : string;
  Debug : bool;
  SQLTraceLevel : Z;
  TraceLevel : Z;
  EnablePprof : bool;
  LeaderElectionEnabled : bool;
  PodName : string;
  PodNamespace : string;
  BlockingPollInterval : Z
}.

(** [strconv.ParseBool] *)
Definition ParseBool (s : string) : option bool :=
  if bool_decide (s ∈ ["1"; "t"; "T"; "true"; "TRUE"; "True"]) then Some true
  else if bool_decide (s ∈ ["0"; "f"; "F"; "false"; "FALSE"; "False"]) then Some false
  else None.

Section Load.
(** [os.Getenv], the empty string for a variable that is not set, and the
    floating-point part of [time.ParseDuration]. *)
Context (getenv : string → string) (fraction : Z → Z → Z → Z).

Definition getEnv (key defaultValue : string) : string :=
  let value := getenv key in if bool_decide (value ≠ "") then value else defaultValue.
Definition getEnvInt (key : string) (defaultValue : Z) : Z :=
  let value := getenv key in
  if bool_decide (value ≠ "") then default defaultValue (Strconv.Atoi value) else defaultValue.
Definition getEnvBool (key : string) (defaultValue : bool) : bool :=
  let value := getenv key in
  if bool_decide (value ≠ "") then default defaultValue (ParseBool value) else defaultValue.
Definition getEnvDuration (key : string) (defaultValue : Z) : Z :=
  let value := getenv key in
  if bool_decide (value ≠ "") then default defaultValue (ParseDuration fraction value) else defaultValue.

Definition Load : Config := {|
  RedisAddr := getEnv "REDIS_ADDR" ":6379";
  RedisPassword := getEnv "REDIS_PASSWORD" "";
  MetricsAddr := getEnv "METRICS_ADDR" ":9090";
  PGHost := getEnv "PG_HOST" "localhost";
  PGPort := getEnvInt "PG_PORT" 5432;
  PGUser := getEnv "PG_USER" "postgres";
  PGPassword := getEnv "PG_PASSWORD" "postgres";
  PGDatabase := getEnv "PG_DATABASE" "postkeys";
  PGSSLMode := getEnv "PG_SSLMODE" "disable";
  PGMaxConns := getEnvInt "PG_MAX_CONNS" 10;
  PGMinConns := getEnvInt "PG_MIN_CONNS" 2;
  PGMaxConnLifetime := getEnvDuration "PG_MAX_CONN_LIFETIME" (30 * Minute);
  PGMaxConnIdleTime := getEnvDuration "PG_MAX_CONN_IDLE_TIME" (5 * Minute);
  PGHealthCheckPeriod := getEnvDuration "PG_HEALTH_CHECK_PERIOD" (1 * Minute);
  PGPingTimeout := getEnvDuration "PG_PING_TIMEOUT" (5 * Second);
  CacheEnabled := getEnvBool "CACHE_ENABLED" false;
  CacheTTL := getEnvDuration "CACHE_TTL" (250 * Millisecond);
  CacheMaxSize := getEnvInt "CACHE_MAX_SIZE" 10000;
  CacheDistributedInvalidation := getEnvBool "CACHE_DISTRIBUTED_INVALIDATION" false;
  CacheExcludePatterns := getEnv "CACHE_EXCLUDE_PATTERNS" "";
  CacheIncludePatterns := getEnv "CACHE_INCLUDE_PATTERNS" "";
  Debug := bool_decide (getEnv "DEBUG" "" = "1");
  SQLTraceLevel := getEnvInt "SQLTRACE" 0;
  TraceLevel := getEnvInt "TRACE" 0;
  EnablePprof := getEnvBool "ENABLE_PPROF" false;
  LeaderElectionEnabled := getEnvBool "LEADER_ELECTION_ENABLED" false;
  PodName := getEnv "POD_NAME" "";
  PodNamespace := getEnv "POD_NAMESPACE" "";
  BlockingPollInterval := getEnvDuration "BLOCKING_POLL_INTERVAL" (100 * Millisecond)
|}.

End Load.

(** [parsePatterns] of main.go: the non-empty trimmed pieces between commas. *)
Definition parsePatterns (s : string) : list string :=
  if bool_decide (s = "") then []
  else filter (λ p, p ≠ "") (Strings.TrimSpace <$> Strings.Split s ",").

Example parsePatterns_example : parsePatterns " pubsub:* ,,lock:*, " = ["pubsub:*"; "lock:*"].
Proof. vm_compute. reflexivity. Qed.

(** ** storage.New *)

(** The connection string. The values are not quoted. *)
Definition connStr (cfg : Config) : string :=
  "user=" +:+ PGUser cfg +:+ " password=" +:+ PGPassword cfg +:+ " host=" +:+ PGHost cfg +:+
  " port=" +:+ Strconv.Itoa (PGPort cfg) +:+ " dbname=" +:+ PGDatabase cfg +:+ " sslmode=" +:+ PGSSLMode cfg.

(** The pool settings that [pgxpool.ParseConfig] gives and [New] overrides.
    [int32] drops the high bits. *)
Record poolConfig := MkPool {
  MaxConns : Z; MinConns : Z; MaxConnLifetime : Z; MaxConnIdleTime : Z; HealthCheckPeriod : Z; PingTimeout : Z
}.
Definition wrap32 (z : Z) : Z := (z + 2 ^ 31) mod 2 ^ 32 - 2 ^ 31.
Definition over (v : Z) (conv : Z → Z) (old : Z) : Z := if 0 <? v then conv v else old.
Definition New_pool (cfg : Config) (p : poolConfig) : poolConfig := {|
  MaxConns := over (PGMaxConns cfg) wrap32 (MaxConns p);
  MinConns := over (PGMinConns cfg) wrap32 (MinConns p);
  MaxConnLifetime := over (PGMaxConnLifetime cfg) id (MaxConnLifetime p);
  MaxConnIdleTime := over (PGMaxConnIdleTime cfg) id (MaxConnIdleTime p);
  HealthCheckPeriod := over (PGHealthCheckPeriod cfg) id (HealthCheckPeriod p);
  PingTimeout := over (PGPingTimeout cfg) id (PingTimeout p)
|}.

(** ** Properties *)

(** With no variable set, the defaults. *)
Lemma Load_defaults fraction :
  let c := Load (λ _, "") fraction in
  RedisAddr c = ":6379" ∧ RedisPassword c = "" ∧ PGMaxConns c = 10 ∧ PGMaxConnLifetime c = 1800 * Second ∧
  CacheEnabled c = false ∧ CacheTTL c = 250000000 ∧ TraceLevel c = 0 ∧ BlockingPollInterval c = 100000000 ∧
  connStr c = "user=postgres password=postgres host=localhost port=5432 dbname=postkeys sslmode=disable".
Proof. vm_compute. split_and!; reflexivity. Qed.

(** A value that a variable can spell is read back; whatever is malformed or
    out of range gives the default, without any sign. *)
Theorem config_values getenv fraction key ts n :
  Forall term_ok ts → ts ≠ [] → duration_value ts < 2 ^ 63 → int64 n →
  (getenv key = duration_text ts → ∀ d, getEnvDuration getenv fraction key d = duration_value ts) ∧
  (getenv key = Strconv.Itoa n → ∀ d, getEnvInt getenv key d = n) ∧
  (∀ d, getEnvDuration getenv fraction key d = d ∨
        ParseDuration fraction (getenv key) = Some (getEnvDuration getenv fraction key d)) ∧
  (∀ d, getEnvInt getenv key d = d ∨ Strconv.Atoi (getenv key) = Some (getEnvInt getenv key d)).
Proof.
  intros Hts Hne Hv Hn. unfold getEnvDuration, getEnvInt. split_and!.
  - intros E d. rewrite E. pose proof (ParseDuration_sum fraction ts Hts Hne Hv) as Hp. rewrite Hp.
    rewrite bool_decide_true; [done|]. intros E0. by rewrite E0 in Hp.
  - intros E d. rewrite E. pose proof (Strconv.ParseInt_FormatInt n Hn) as Hp.
    rewrite bool_decide_true; [|intros E0; unfold Strconv.Itoa in E0; by rewrite E0 in Hp].
    unfold Strconv.Atoi, Strconv.Itoa. by rewrite Hp.
  - intros d. case_bool_decide; [|by left]. destruct (ParseDuration fraction (getenv key)); [by right|by left].
  - intros d. case_bool_decide; [|by left]. destruct (Strconv.Atoi (getenv key)); [by right|by left].
Qed.

(** Two configurations with the same connection string: a password with a
    space in it reaches into the settings that follow. *)
Definition with_pg (password host : string) (c : Config) : Config :=
  MkConfig (RedisAddr c) (RedisPassword c) (MetricsAddr c) host (PGPort c) (PGUser c) password (PGDatabase c) (PGSSLMode c)
    (PGMaxConns c) (PGMinConns c) (PGMaxConnLifetime c) (PGMaxConnIdleTime c) (PGHealthCheckPeriod c) (PGPingTimeout c)
    (CacheEnabled c) (CacheTTL c) (CacheMaxSize c) (CacheDistributedInvalidation c) (CacheExcludePatterns c)
    (CacheIncludePatterns c) (Debug c) (SQLTraceLevel c) (TraceLevel c) (EnablePprof c) (LeaderElectionEnabled c)
    (PodName c) (PodNamespace c) (BlockingPollInterval c).
Lemma connStr_not_quoted c (password host host' : string) :
  connStr (with_pg (password +:+ " host=" +:+ host) host' c) = connStr (with_pg password (host +:+ " host=" +:+ host') c).
Proof. unfold connStr, with_pg. cbn. apply (inj bytes_of). by rewrite !bytes_of_app, <-!app_assoc. Qed.

(** A number of connections beyond 32 bits is cut, here to one. *)
Lemma pool_size_wraps fraction p :
  MaxConns (New_pool (Load (λ k, if bool_decide (k = "PG_MAX_CONNS") then "4294967297" else "") fraction) p) = 1.
Proof. vm_compute. reflexivity. Qed.

End Config.
