(* ===== verification/Resp.v ===== *)
(** * The RESP wire protocol: internal/resp/resp.go

    [Value] with its [Type] tags, the reader (a parser over the bytes the
    connection still has to deliver), the writer (the bytes appended to the
    output buffer) and the reply constructors.

    The reader's state is the rest of the byte stream, whose end stands for
    the end of the connection; every reader function returns its result and
    the rest, on errors too. [Read] and [readArray] call each other, so the
    parser carries fuel; [read_fuel_enough] shows that one more unit than the
    number of bytes left always suffices. *)
From stdpp Require Import list strings.
From Stdlib Require Import ZArith Lia Ascii.
From S2P Require Import Prelude GoStd.

Module Resp.

Definition MaxBulkLen : Z := (512 * 1024 * 1024)%Z.
Definition MaxArrayLen : Z := Z.shiftl 1 20.

(** [type Type byte] and its constants. *)
Definition Ty := ascii.
Definition SimpleString : Ty := "+"%char.
Definition Error : Ty := "-"%char.
Definition Integer : Ty := ":"%char.
Definition BulkString : Ty := "$"%char.
Definition Array : Ty := "*"%char.
Definition Null : Ty := "_"%char.
Definition Boolean : Ty := "#"%char.
Definition Double : Ty := ","%char.
Definition BigNumber : Ty := "("%char.
Definition BulkError : Ty := "!"%char.
Definition VerbatimStr : Ty := "="%char.
Definition Map : Ty := "%"%char.
Definition Set_ : Ty := "~"%char.
Definition Push : Ty := ">"%char.

(** [MapData] lists the entries of the Go map in the order in which one
    [range] over it delivers them. *)
Inductive Value := MkValue {
  vType : Ty;
  vStr : string;
  vNum : Z;
  vBulk : string;
  vArray : list Value;
  vMapData : list (string * string);
  vNull : bool
}.

(** Composite literals of the source: the fields left out are zero values. *)
Definition VStr (t : Ty) (s : string) : Value := MkValue t s 0 "" [] [] false.
Definition VInt (n : Z) : Value := MkValue Integer "" n "" [] [] false.
Definition VBulk (s : string) : Value := MkValue BulkString "" 0 s [] [] false.
Definition VArr (t : Ty) (l : list Value) : Value := MkValue t "" 0 "" l [] false.
Definition VNullOf (t : Ty) : Value := MkValue t "" 0 "" [] [] true.

Definition OK : Value := VStr SimpleString "OK".
Definition Err (msg : string) : Value :=
  if Strings.HasPrefix msg "ERR " then VStr Error msg else VStr Error ("ERR " +:+ msg).
Definition ErrCustom (msg : string) : Value := VStr Error msg.
Definition ErrWrongType : Value :=
  VStr Error "WRONGTYPE Operation against a key holding the wrong kind of value".
Definition ErrWrongArgs (cmd : string) : Value :=
  VStr Error ("ERR wrong number of arguments for '" +:+ cmd +:+ "' command").
Definition NullBulk : Value := VNullOf BulkString.
Definition NullArray : Value := VNullOf Array.
Definition Int (n : Z) : Value := VInt n.
Definition Bulk (s : string) : Value := VBulk s.
Definition Arr (values : list Value) : Value := VArr Array values.
Definition MapVal (m : list (string * string)) : Value :=
  MkValue Map "" 0 "" [] m false.

(** ** Reader *)

Inductive rerror :=
| EOF
| UnexpectedEOF
| BadLineEnding
| NumError (line : string)
| BadBulkLength (n : Z)
| BulkTooLong (n : Z)
| BadArrayLength (n : Z)
| ArrayTooLong (n : Z)
| UnknownType (t : Ty)
| OutOfFuel.

Inductive rres (A : Type) := ROk (a : A) | RErr (e : rerror).
Arguments ROk {_} _.
Arguments RErr {_} _.

#[export] Instance rerror_eq_dec : EqDecision rerror.
Proof. solve_decision. Defined.

Definition rd (A : Type) : Type := bytes → rres A * bytes.
Definition rret {A} (a : A) : rd A := λ inp, (ROk a, inp).
Definition rfail {A} (e : rerror) : rd A := λ inp, (RErr e, inp).
Definition rbind {A B} (m : rd A) (f : A → rd B) : rd B := λ inp,
  match m inp with
  | (ROk a, inp') => f a inp'
  | (RErr e, inp') => (RErr e, inp')
  end.
Notation "'let/r' x := m 'in' k" := (rbind m (λ x, k))
  (at level 10, x pattern, m at level 100, k at level 200).

Definition LF : ascii := "010"%char.
Definition CR : ascii := "013"%char.
Definition CRLF : bytes := [CR; LF].

(** [bufio.Reader.ReadByte]. *)
Definition ReadByte : rd ascii := λ inp,
  match inp with [] => (RErr EOF, []) | c :: inp => (ROk c, inp) end.

(** [bufio.Reader.ReadString('\n')]: up to and with the first newline; at the
    end of the stream everything is consumed and the error is [io.EOF]. *)
Fixpoint split_line (inp : bytes) : option (bytes * bytes) :=
  match inp with
  | [] => None
  | c :: inp =>
      if bool_decide (c = LF) then Some ([c], inp)
      else match split_line inp with
           | Some (l, r) => Some (c :: l, r)
           | None => None
           end
  end.
Definition ReadString_LF : rd bytes := λ inp,
  match split_line inp with Some (l, r) => (ROk l, r) | None => (RErr EOF, []) end.

(** [io.ReadFull] into a buffer of [n] bytes. *)
Definition ReadFull (n : Z) : rd bytes := λ inp,
  if (blen inp <? n)%Z
  then (RErr (if bool_decide (inp = []) then EOF else UnexpectedEOF), [])
  else (ROk (take (Z.to_nat n) inp), drop (Z.to_nat n) inp).

Definition readLine : rd string :=
  let/r line := ReadString_LF in
  if ((blen line <? 2)%Z || negb (bool_decide (line !! (length line - 2)%nat = Some CR)))
  then rfail BadLineEnding
  else rret (string_of (take (length line - 2) line)).

Definition readSimpleString : rd Value :=
  let/r line := readLine in rret (VStr SimpleString line).

Definition readError : rd Value :=
  let/r line := readLine in rret (VStr Error line).

Definition readInteger : rd Value :=
  let/r line := readLine in
  match Strconv.ParseInt line with
  | None => rfail (NumError line)
  | Some num => rret (VInt num)
  end.

Definition readBulkString : rd Value :=
  let/r line := readLine in
  match Strconv.Atoi line with
  | None => rfail (NumError line)
  | Some length =>
      if (length =? -1)%Z then rret (VNullOf BulkString)
      else if (length <? 0)%Z then rfail (BadBulkLength length)
      else if (MaxBulkLen <? length)%Z then rfail (BulkTooLong length)
      else let/r buf := ReadFull (length + 2) in
           rret (VBulk (string_of (take (Z.to_nat length) buf)))
  end.

(** The element loop of [readArray]. *)
Fixpoint readElems (Read : rd Value) (n : nat) : rd (list Value) :=
  match n with
  | O => rret []
  | S n => let/r val := Read in
           let/r rest := readElems Read n in
           rret (val :: rest)
  end.

Definition readArray (Read : rd Value) : rd Value :=
  let/r line := readLine in
  match Strconv.Atoi line with
  | None => rfail (NumError line)
  | Some count =>
      if (count =? -1)%Z then rret (VNullOf Array)
      else if (count <? 0)%Z then rfail (BadArrayLength count)
      else if (MaxArrayLen <? count)%Z then rfail (ArrayTooLong count)
      else let/r array := readElems Read (Z.to_nat count) in
           rret (VArr Array array)
  end.

Fixpoint read (fuel : nat) : rd Value :=
  match fuel with
  | O => rfail OutOfFuel
  | S fuel =>
      let/r typeByte := ReadByte in
      if bool_decide (typeByte = SimpleString) then readSimpleString
      else if bool_decide (typeByte = Error) then readError
      else if bool_decide (typeByte = Integer) then readInteger
      else if bool_decide (typeByte = BulkString) then readBulkString
      else if bool_decide (typeByte = Array) then readArray (read fuel)
      else rfail (UnknownType typeByte)
  end.

(** [Reader.Read]. *)
Definition Read : rd Value := λ inp, read (S (length inp)) inp.

(** ** Writer

    The bytes a call appends to the buffer, and whether it returned an
    error. *)
Definition wr : Type := bytes * bool.
Definition emit (b : bytes) : wr := (b, true).
Definition wseq (w1 w2 : wr) : wr :=
  if w1.2 then (w1.1 ++ w2.1, w2.2) else w1.
Definition wall (l : list wr) : wr := foldr wseq (emit []) l.

(** [strings.NewReplacer("\r", " ", "\n", " ")]. *)
Definition lineBreak (c : ascii) : ascii :=
  if bool_decide (c = CR) || bool_decide (c = LF) then " "%char else c.
Definition lineBreaks (s : string) : bytes := lineBreak <$> bytes_of s.

Definition WriteSimpleString (s : string) : wr := emit ([SimpleString] ++ lineBreaks s ++ CRLF).
Definition WriteError (s : string) : wr := emit ([Error] ++ lineBreaks s ++ CRLF).
Definition WriteInteger (n : Z) : wr := emit ([Integer] ++ Strconv.FormatInt_bytes n ++ CRLF).
Definition header (t : Ty) (n : nat) : bytes :=
  [t] ++ Strconv.FormatInt_bytes (Z.of_nat n) ++ CRLF.
Definition WriteBulkString (s : string) : wr :=
  emit (header BulkString (length (bytes_of s)) ++ bytes_of s ++ CRLF).
Definition WriteNull : wr := emit (bytes_of "$-1" ++ CRLF).
Definition WriteNullArray : wr := emit (bytes_of "*-1" ++ CRLF).
Definition WriteStringArray (arr : list string) : wr :=
  wseq (emit (header Array (length arr))) (wall (WriteBulkString <$> arr)).
Definition WriteMap (m : list (string * string)) : wr :=
  wseq (emit (header Map (length m)))
    (wall ((λ kv, wseq (WriteBulkString kv.1) (WriteBulkString kv.2)) <$> m)).

(** [WriteArray] and [WritePush] differ in the header's type byte. *)
Definition WriteSeq (t : Ty) (WriteValue : Value → wr) (arr : list Value) : wr :=
  wseq (emit (header t (length arr))) (wall (map WriteValue arr)).

Fixpoint WriteValue (v : Value) : wr :=
  if bool_decide (vType v = SimpleString) then WriteSimpleString (vStr v)
  else if bool_decide (vType v = Error) then WriteError (vStr v)
  else if bool_decide (vType v = Integer) then WriteInteger (vNum v)
  else if bool_decide (vType v = BulkString) then
    if vNull v then WriteNull else WriteBulkString (vBulk v)
  else if bool_decide (vType v = Array) then
    if vNull v then WriteNullArray else WriteSeq Array WriteValue (vArray v)
  else if bool_decide (vType v = Map) then WriteMap (vMapData v)
  else if bool_decide (vType v = Push) then WriteSeq Push WriteValue (vArray v)
  else ([], false).

Definition WriteArray (arr : list Value) : wr := WriteSeq Array WriteValue arr.
Definition WritePush (arr : list Value) : wr := WriteSeq Push WriteValue arr.

(** ** Induction over values *)
Lemma Value_list_ind (P : Value → Prop) :
  (∀ t s n b l m u, Forall P l → P (MkValue t s n b l m u)) → ∀ v, P v.
Proof.
  intros H. fix IH 1. intros [t s n b l m u]. apply H.
  induction l as [|v l IHl]; constructor; [exact (IH v)|exact IHl].
Qed.

(** ** Reader lemmas *)

Lemma split_line_app l rest : LF ∉ l → split_line (l ++ LF :: rest) = Some (l ++ [LF], rest).
Proof.
  induction l as [|c l IH]; intros Hl; cbn [app split_line].
  - by rewrite bool_decide_true.
  - rewrite not_elem_of_cons in Hl. destruct Hl as [Hc Hl].
    by rewrite bool_decide_false, IH by congruence.
Qed.

Lemma split_line_inv inp l r :
  split_line inp = Some (l, r) → inp = l ++ r ∧ 0 < length l.
Proof.
  revert l. induction inp as [|c inp IH]; intros l; simpl; [done|].
  case_if; [intros [= <- <-]; simpl; split; [done|lia]|].
  destruct (split_line inp) as [[l' r']|]; [|done]. intros [= <- <-].
  destruct (IH l' eq_refl) as [-> ?]. simpl. split; [done|lia].
Qed.

(** A line without a newline, followed by CRLF, is read back whole. *)
Lemma readLine_app l rest : LF ∉ l → readLine (l ++ CRLF ++ rest) = (ROk (string_of l), rest).
Proof.
  intros Hl. unfold readLine, rbind, ReadString_LF, CRLF.
  replace (l ++ [CR; LF] ++ rest) with ((l ++ [CR]) ++ LF :: rest) by by rewrite <-app_assoc.
  rewrite split_line_app by (rewrite elem_of_app, list_elem_of_singleton; intros [?|?]; done).
  rewrite <-app_assoc. simpl.
  assert (length (l ++ [CR; LF]) = length l + 2)%nat as Hlen by (rewrite length_app; done).
  rewrite Hlen, Nat.add_sub. unfold blen. rewrite Hlen.
  rewrite (proj2 (Z.ltb_ge _ _)) by lia.
  rewrite list_lookup_middle by done. rewrite bool_decide_true by done. simpl.
  by rewrite take_app_length.
Qed.

(** Every successful line leaves a strictly shorter rest, a suffix of the
    input; failures never lengthen it. *)
Lemma readLine_rest inp :
  match readLine inp with
  | (ROk _, r) => ∃ p, inp = p ++ r ∧ 0 < length p
  | (RErr e, r) => (∃ p, inp = p ++ r) ∧ e ≠ OutOfFuel
  end.
Proof.
  unfold readLine, rbind, ReadString_LF.
  destruct (split_line inp) as [[l r]|] eqn:E.
  - apply split_line_inv in E as [-> ?]. case_if; simpl; [|by eauto]. split; [by eauto|done].
  - split; [|done]. exists inp. by rewrite app_nil_r.
Qed.

(** What a reader guarantees: it consumes a prefix of its input (at least
    [k] bytes on success), and runs out of fuel on no input of at most [n]
    bytes. *)
Definition good_reader {A} (k n : nat) (m : rd A) : Prop := ∀ inp, length inp ≤ n →
  match m inp with
  | (ROk _, r) => ∃ p, inp = p ++ r ∧ k ≤ length p
  | (RErr e, r) => (∃ p, inp = p ++ r) ∧ e ≠ OutOfFuel
  end.

Lemma good_ret {A} n (a : A) : good_reader 0 n (rret a).
Proof. intros inp _. by exists []. Qed.
Lemma good_fail {A} k n e : e ≠ OutOfFuel → good_reader k n (@rfail A e).
Proof. intros He inp _. split; [by exists []|done]. Qed.
Lemma good_bind {A B} k j n (m : rd A) (f : A → rd B) :
  good_reader k n m → (∀ a, good_reader j (n - k) (f a)) → good_reader (k + j) n (rbind m f).
Proof.
  intros Hm Hf inp Hi. specialize (Hm inp Hi). unfold rbind.
  destruct (m inp) as [[a|e] r]; [|done]. destruct Hm as (p & -> & Hp).
  rewrite length_app in Hi. specialize (Hf a r ltac:(lia)).
  destruct (f a r) as [[b|e] r'].
  - destruct Hf as (q & -> & Hq). exists (p ++ q). rewrite length_app, <-app_assoc. split; [done|lia].
  - destruct Hf as [[q ->] He]. split; [|done]. exists (p ++ q). by rewrite <-app_assoc.
Qed.
Lemma good_weaken {A} k k' n n' (m : rd A) :
  good_reader k' n' m → k ≤ k' → n ≤ n' → good_reader k n m.
Proof.
  intros Hm ?? inp ?. specialize (Hm inp ltac:(lia)). destruct (m inp) as [[a|e] r]; [|done].
  destruct Hm as (p & -> & ?). exists p. split; [done|lia].
Qed.
Lemma good_readLine n : good_reader 1 n readLine.
Proof. intros inp _. apply readLine_rest. Qed.
Lemma good_ReadByte n : good_reader 1 n ReadByte.
Proof. intros [|c inp] _; simpl; [split; [by exists []|done]|]. exists [c]. simpl. split; [done|lia]. Qed.
Lemma good_ReadFull k n : good_reader 0 n (ReadFull k).
Proof.
  intros inp _. unfold ReadFull. case_if; simpl.
  - split; [exists inp; by rewrite app_nil_r|]. by case_if.
  - exists (take (Z.to_nat k) inp). rewrite take_drop. split; [done|lia].
Qed.
Lemma good_readElems n (R : rd Value) c : good_reader 0 n R → good_reader 0 n (readElems R c).
Proof.
  intros HR. induction c as [|c IH]; [apply good_ret|].
  apply (good_bind 0 0); [exact HR|]. intros v. rewrite Nat.sub_0_r.
  apply (good_bind 0 0); [exact IH|]. intros l. apply good_ret.
Qed.

Create HintDb resp.
#[export] Hint Resolve good_ret good_readLine good_ReadByte good_ReadFull good_readElems : resp.
#[export] Hint Extern 4 (good_reader _ _ (rfail _)) => apply good_fail; done : resp.
Ltac good_line := apply (good_bind 1 0); [apply good_readLine|intros ?].

Lemma good_leaf n :
  good_reader 1 n readSimpleString ∧ good_reader 1 n readError ∧
  good_reader 1 n readInteger ∧ good_reader 1 n readBulkString.
Proof.
  split_and!; good_line; auto with resp; [case_match; auto with resp|].
  case_match; [|auto with resp]. repeat (case_if; [auto with resp|]).
  apply (good_bind 0 0); auto with resp.
Qed.

Lemma good_readArray n (R : rd Value) : good_reader 0 (n - 1) R → good_reader 1 n (readArray R).
Proof.
  intros HR. good_line. case_match; [|auto with resp]. repeat (case_if; [auto with resp|]).
  apply (good_bind 0 0); [by apply good_readElems|]. intros. apply good_ret.
Qed.

Lemma good_read n : good_reader 1 n (read (S n)).
Proof.
  induction n as [|n IH].
  { intros [|c inp] Hi; [|simpl in Hi; lia]. split; [by exists []|done]. }
  apply (good_weaken 1 (1 + 1) (S n) (S n)); [|lia..].
  change (read (S (S n))) with (rbind ReadByte (λ t,
    if bool_decide (t = SimpleString) then readSimpleString
    else if bool_decide (t = Error) then readError
    else if bool_decide (t = Integer) then readInteger
    else if bool_decide (t = BulkString) then readBulkString
    else if bool_decide (t = Array) then readArray (read (S n)) else rfail (UnknownType t))).
  apply good_bind; [apply good_ReadByte|]. intros t.
  destruct (good_leaf (S n - 1)) as (? & ? & ? & ?).
  do 4 (case_if; [assumption|]). case_if; [|auto with resp].
  apply good_readArray, (good_weaken _ 1 _ n); [exact IH|lia..].
Qed.

(** The fuel of [Read] is enough for every stream: a read ends with a value or
    with one of the protocol's errors; what it consumes is a prefix of the
    stream, at least one byte of it on success. *)
Lemma read_fuel_enough inp :
  match Read inp with
  | (ROk _, r) => ∃ p, inp = p ++ r ∧ 0 < length p
  | (RErr e, r) => (∃ p, inp = p ++ r) ∧ e ≠ OutOfFuel
  end.
Proof. apply (good_read (length inp)). done. Qed.

(** More fuel never changes a result that did not run out of it. *)
Lemma readElems_mono (R R' : rd Value) c :
  (∀ inp, (R inp).1 ≠ RErr OutOfFuel → R' inp = R inp) →
  ∀ inp, (readElems R c inp).1 ≠ RErr OutOfFuel → readElems R' c inp = readElems R c inp.
Proof.
  intros H. induction c as [|c IH]; intros inp; [done|]. cbn [readElems]. unfold rbind.
  destruct (R inp) as [[v|e] r] eqn:E; simpl; intros Hn.
  - rewrite H by (by rewrite E). rewrite E.
    specialize (IH r). destruct (readElems R c r) as [[l|e] r'] eqn:E'; simpl in *; by rewrite IH.
  - rewrite H; [by rewrite E|]. rewrite E. simpl. congruence.
Qed.

Lemma read_mono f f' inp : f ≤ f' → (read f inp).1 ≠ RErr OutOfFuel → read f' inp = read f inp.
Proof.
  revert f' inp. induction f as [|f IH]; intros f' inp Hf; [done|].
  destruct f' as [|f']; [lia|]. cbn [read]. unfold rbind at 1 2 3.
  destruct (ReadByte inp) as [[t|e] r]; [|done].
  repeat (case_if; [done|]). case_if; [|done].
  unfold readArray, rbind. destruct (readLine r) as [[line|e] r']; [|done].
  case_match; [|done]. repeat (case_if; [done|]). intros Hn.
  rewrite (readElems_mono (read f) (read f')).
  - done.
  - intros ??. apply IH; [lia|done].
  - destruct (readElems _ _ _) as [[l|e] r'']; simpl in *; done || congruence.
Qed.

(** ** Round trip *)

(** The RESP2 values the writer can put on the wire and the reader takes
    back, with the protocol's limits. *)
Fixpoint wire (v : Value) : bool :=
  if bool_decide (vType v = SimpleString) || bool_decide (vType v = Error) then true
  else if bool_decide (vType v = Integer) then bool_decide (int64 (vNum v))
  else if bool_decide (vType v = BulkString) then
    vNull v || (slen (vBulk v) <=? MaxBulkLen)%Z
  else if bool_decide (vType v = Array) then
    vNull v || ((Z.of_nat (length (vArray v)) <=? MaxArrayLen)%Z && forallb wire (vArray v))
  else false.

(** What survives the wire: the fields the type uses, with the line breaks of
    a simple string or an error replaced. *)
Fixpoint canon (v : Value) : Value :=
  if bool_decide (vType v = SimpleString) then VStr SimpleString (string_of (lineBreaks (vStr v)))
  else if bool_decide (vType v = Error) then VStr Error (string_of (lineBreaks (vStr v)))
  else if bool_decide (vType v = Integer) then VInt (vNum v)
  else if bool_decide (vType v = BulkString) then
    if vNull v then VNullOf BulkString else VBulk (vBulk v)
  else if vNull v then VNullOf Array else VArr Array (map canon (vArray v)).

Lemma lineBreaks_no_LF s : LF ∉ lineBreaks s.
Proof.
  intros (c & E & _)%list_elem_of_fmap. revert E. unfold lineBreak.
  case_if; [done|]. apply orb_false_iff in Hb as [_ Hb]. zify_bool. congruence.
Qed.

Lemma FormatInt_no_LF n : LF ∉ Strconv.FormatInt_bytes n.
Proof. intros H. by destruct (Strconv.FormatInt_no_newline _ _ H). Qed.

#[export] Hint Resolve lineBreaks_no_LF FormatInt_no_LF : resp.

(** A length header is read back as its number. *)
Lemma readLine_header n rest :
  readLine (Strconv.FormatInt_bytes n ++ CRLF ++ rest) = (ROk (Strconv.FormatInt n), rest).
Proof. apply readLine_app; auto with resp. Qed.

Definition reads_back (v : Value) : Prop :=
  (WriteValue v).2 = true ∧
  ∀ rest, ∃ f, read f ((WriteValue v).1 ++ rest) = (ROk (canon v), rest).

Lemma elems_read_back l rest :
  Forall reads_back l →
  (wall (map WriteValue l)).2 = true ∧
  ∃ f, readElems (read f) (length l) ((wall (map WriteValue l)).1 ++ rest)
       = (ROk (map canon l), rest).
Proof.
  induction 1 as [|v l [Hok Hv] _ [IHok [f2 IH]]]; [split; [done|by exists 0%nat]|].
  cbn [map wall foldr]. fold (wall (map WriteValue l)). unfold wseq. rewrite Hok. cbn [fst snd].
  split; [exact IHok|]. rewrite <-app_assoc.
  destruct (Hv ((wall (map WriteValue l)).1 ++ rest)) as [f1 E1].
  exists (f1 + f2)%nat. cbn [length readElems]. unfold rbind at 1.
  rewrite (read_mono f1), E1 by (lia || by rewrite E1).
  unfold rbind. rewrite (readElems_mono (read f2)), IH; [done| |by rewrite IH].
  intros ??. apply read_mono; [lia|done].
Qed.

Lemma readArray_header R (l : list Value) n rest arr r :
  n = Z.of_nat (length l) → (n <= MaxArrayLen)%Z →
  readElems R (length l) rest = (ROk arr, r) →
  readArray R (Strconv.FormatInt_bytes n ++ CRLF ++ rest) = (ROk (VArr Array arr), r).
Proof.
  intros -> Hm E. unfold readArray, rbind at 1. rewrite readLine_header.
  unfold Strconv.Atoi. rewrite Strconv.ParseInt_FormatInt.
  2: { unfold int64. split; [lia|]. eapply Z.le_lt_trans; [exact Hm|]. done. }
  rewrite (proj2 (Z.eqb_neq _ _)), (proj2 (Z.ltb_ge _ _)) by lia.
  rewrite (proj2 (Z.ltb_ge _ _)) by done.
  unfold rbind. by rewrite Nat2Z.id, E.
Qed.

Lemma readBulkString_frame s x y rest :
  (slen s <= MaxBulkLen)%Z →
  readBulkString (Strconv.FormatInt_bytes (slen s) ++ CRLF ++ bytes_of s ++ [x; y] ++ rest)
  = (ROk (VBulk s), rest).
Proof.
  intros Hm. unfold readBulkString, rbind at 1. rewrite readLine_header.
  unfold Strconv.Atoi. rewrite Strconv.ParseInt_FormatInt.
  2: { unfold int64, slen in *. split; [lia|]. eapply Z.le_lt_trans; [exact Hm|]. done. }
  assert (0 <= slen s)%Z by (unfold slen; lia).
  rewrite (proj2 (Z.eqb_neq _ _)), (proj2 (Z.ltb_ge _ _)) by lia.
  rewrite (proj2 (Z.ltb_ge _ _)) by done. unfold rbind, ReadFull.
  assert (Z.to_nat (slen s + 2) = length (bytes_of s ++ [x; y])) as E
    by (rewrite length_app; unfold slen; simpl; lia).
  rewrite app_assoc, E, take_app_length, drop_app_length.
  rewrite (proj2 (Z.ltb_ge _ _)).
  2: { unfold blen. rewrite !length_app. unfold slen. simpl. lia. }
  unfold slen. rewrite Nat2Z.id, take_app_length, string_of_bytes_of. done.
Qed.

Lemma WriteValue_reads_back v : wire v = true → reads_back v.
Proof.
  induction v as [t s n b l m u IH] using Value_list_ind.
  cbn [wire]. cbn [vType vStr vNum vBulk vArray vNull].
  intros Hw. unfold reads_back. cbn [WriteValue canon]. cbn [vType vStr vNum vBulk vArray vNull].
  destruct (bool_decide_reflect (t = SimpleString)) as [->|_].
  { split; [done|]. intros rest. exists 1%nat.
    change (readSimpleString ((lineBreaks s ++ CRLF) ++ rest) = (ROk (VStr SimpleString (string_of (lineBreaks s))), rest)).
    rewrite <-app_assoc. unfold readSimpleString, rbind. by rewrite readLine_app by auto with resp. }
  destruct (bool_decide_reflect (t = Error)) as [->|_].
  { split; [done|]. intros rest. exists 1%nat.
    change (readError ((lineBreaks s ++ CRLF) ++ rest) = (ROk (VStr Error (string_of (lineBreaks s))), rest)).
    rewrite <-app_assoc. unfold readError, rbind. by rewrite readLine_app by auto with resp. }
  cbn [orb] in Hw. destruct (bool_decide_reflect (t = Integer)) as [->|_].
  { split; [done|]. intros rest. exists 1%nat. zify_bool.
    change (readInteger ((Strconv.FormatInt_bytes n ++ CRLF) ++ rest) = (ROk (VInt n), rest)).
    rewrite <-app_assoc.
    unfold readInteger, rbind. by rewrite readLine_header, Strconv.ParseInt_FormatInt. }
  destruct (bool_decide_reflect (t = BulkString)) as [->|_].
  { destruct u; [split; [done|]; intros rest; by exists 1%nat|]. cbn [orb] in Hw. zify_bool.
    split; [done|]. intros rest. exists 1%nat.
    change (readBulkString (((Strconv.FormatInt_bytes (slen b) ++ CRLF) ++ bytes_of b ++ CRLF) ++ rest)
            = (ROk (VBulk b), rest)).
    rewrite <-!app_assoc. by apply readBulkString_frame. }
  destruct (bool_decide_reflect (t = Array)) as [->|_]; [|done].
  destruct u; [split; [done|]; intros rest; by exists 1%nat|]. cbn [orb] in Hw. zify_bool.
  assert (Forall reads_back l) as Hl.
  { rewrite Forall_forall in IH |- *. intros x Hx. apply IH; [done|].
    eapply forallb_forall; [done|]. by apply list_elem_of_In. }
  split; [exact (proj1 (elems_read_back l [] Hl))|]. intros rest.
  destruct (elems_read_back l rest Hl) as [_ [f Hf]]. exists (S f).
  change (readArray (read f) (((Strconv.FormatInt_bytes (Z.of_nat (length l)) ++ CRLF)
            ++ (wall (map WriteValue l)).1) ++ rest) = (ROk (VArr Array (map canon l)), rest)).
  rewrite <-!app_assoc. by eapply readArray_header.
Qed.

(** [Read] gives back a written value and stops where the value ends. *)
Lemma Read_back v rest :
  wire v = true → Read ((WriteValue v).1 ++ rest) = (ROk (canon v), rest).
Proof.
  intros [_ Hr]%WriteValue_reads_back. destruct (Hr rest) as [f E].
  set (inp := (WriteValue v).1 ++ rest) in *.
  rewrite <-E, <-(read_mono f (f + S (length inp))) by (lia || by rewrite E).
  symmetry. apply read_mono; [lia|]. intros Hf.
  pose proof (read_fuel_enough inp) as H. unfold Read in H.
  destruct (read (S (length inp)) inp) as [[a|e] r]; simpl in Hf; [done|]. destruct H. congruence.
Qed.

(** C15. Round trip of the protocol, with pipelining: a sequence of RESP2
    values (strings within [MaxBulkLen], arrays within [MaxArrayLen], of any
    nesting) put on the wire one after the other by [WriteValue] is read back
    by as many calls of [Read] as the same sequence, each read stops exactly
    where its value ends, and the bytes that follow are left untouched. The
    values come back with the line breaks of simple strings and errors
    replaced by blanks, so no reply text can desynchronise the stream. *)
Theorem Read_WriteValue_stream vs rest :
  forallb wire vs = true →
  readElems Read (length vs) (concat (map (λ v, (WriteValue v).1) vs) ++ rest)
  = (ROk (map canon vs), rest).
Proof.
  induction vs as [|v vs IH]; [done|]. cbn [forallb]. intros H. zify_bool.
  cbn [map concat length readElems]. rewrite <-app_assoc. unfold rbind at 1.
  rewrite Read_back by done. unfold rbind. by rewrite IH.
Qed.

Definition sample : Value :=
  Arr [Bulk "GET"; Int (-7); Arr [Err (string_of (bytes_of "a" ++ CRLF ++ bytes_of "+b")); NullBulk];
       NullArray].

Lemma Read_WriteValue_stream_witness :
  forallb wire [sample; OK] = true ∧
  readElems Read 2 (concat (map (λ v, (WriteValue v).1) [sample; OK]) ++ bytes_of "$")
  = (ROk (map canon [sample; OK]), bytes_of "$").
Proof. split; [reflexivity|]. apply (Read_WriteValue_stream [sample; OK]). reflexivity. Defined.

(** Values within the limits the reader enforces. *)
Fixpoint bounded (v : Value) : bool :=
  bool_decide (int64 (vNum v)) && (slen (vBulk v) <=? MaxBulkLen)%Z
  && (Z.of_nat (length (vArray v)) <=? MaxArrayLen)%Z && forallb bounded (vArray v).

Definition yields (P : Value → Prop) (m : rd Value) : Prop :=
  ∀ inp v r, m inp = (ROk v, r) → P v.

Lemma readElems_yields P R c : yields P R →
  ∀ inp l r, readElems R c inp = (ROk l, r) → Forall P l ∧ length l = c.
Proof.
  intros HR. induction c as [|c IH]; intros inp l r; cbn [readElems].
  { intros [= <- <-]. done. }
  unfold rbind. destruct (R inp) as [[v|e] r1] eqn:E1; [|done].
  destruct (readElems R c r1) as [[l1|e] r2] eqn:E2; [|done]. intros [= <- <-].
  destruct (IH _ _ _ E2) as [? <-]. split; [constructor; [by eapply HR|done]|done].
Qed.

(** A value the reader delivers is bounded and has a wire form. *)
Definition acceptable (v : Value) : Prop := bounded v = true ∧ wire v = true.

Ltac read_step H :=
  unfold rbind in H;
  match type of H with context [readLine ?i] => destruct (readLine i) as [[?line|?] ?r] eqn:?E end;
  [|done].

Lemma leaf_acceptable :
  yields acceptable readSimpleString ∧ yields acceptable readError ∧
  yields acceptable readInteger ∧ yields acceptable readBulkString.
Proof.
  split_and!; intros inp v r H.
  - unfold readSimpleString in H. read_step H. by injection H as <- <-.
  - unfold readError in H. read_step H. by injection H as <- <-.
  - unfold readInteger in H. read_step H. case_match; [|done]. injection H as <- <-.
    apply Strconv.ParseInt_range, (bool_decide_eq_true_2 (int64 z)) in H0.
    split; [|exact H0]. cbn [bounded vNum VInt]. by rewrite H0.
  - unfold readBulkString in H. read_step H. case_match; [|done].
    do 3 (case_match; [by (done || injection H as <- <-)|]). unfold ReadFull in H.
    destruct (blen r0 <? z + 2)%Z; [done|]. injection H as <- <-. zify_bool.
    assert (slen (string_of (take (Z.to_nat z) (take (Z.to_nat (z + 2)) r0))) <= MaxBulkLen)%Z.
    { unfold slen. rewrite bytes_of_string_of, length_take. lia. }
    split; cbn; rewrite ?andb_true_r; by apply Z.leb_le.
Qed.

Lemma read_acceptable f : yields acceptable (read f).
Proof.
  destruct leaf_acceptable as (H1 & H2 & H3 & H4).
  induction f as [|f IH]; intros inp v r H; [done|]. cbn [read] in H. unfold rbind at 1 in H.
  destruct (ReadByte inp) as [[t|e] r0]; [|done].
  do 4 (case_match; [by eauto|]). case_match; [|done].
  unfold readArray in H. read_step H. case_match; [|done].
  do 3 (case_match; [by (done || injection H as <- <-)|]).
  destruct (readElems (read f) (Z.to_nat z) r1) as [[l|e] r2] eqn:El; [|done].
  injection H as <- <-. destruct (readElems_yields _ _ _ IH _ _ _ El) as [Hf Hl]. zify_bool.
  assert (forallb bounded l = true ∧ forallb wire l = true) as [Hfb Hfw].
  { rewrite !forallb_forall. rewrite Forall_forall in Hf.
    split; intros x Hx; by apply Hf, list_elem_of_In. }
  split; cbn; rewrite ?Hfb, ?Hfw, ?andb_true_r; apply Z.leb_le; lia.
Qed.

(** C32. What the parser accepts is bounded, whatever the client sends: every
    integer of the value fits [int64], every bulk string is at most
    [MaxBulkLen] bytes and every array at most [MaxArrayLen] elements, at
    every nesting depth; the parser never runs out of fuel, and a value it
    accepts can be written back and read again. *)
Theorem Read_bounded inp :
  match Read inp with
  | (ROk v, r) => bounded v = true ∧ (∃ p, inp = p ++ r ∧ 0 < length p)
                  ∧ ∀ rest, Read ((WriteValue v).1 ++ rest) = (ROk (canon v), rest)
  | (RErr e, r) => e ≠ OutOfFuel ∧ ∃ p, inp = p ++ r
  end.
Proof.
  pose proof (read_fuel_enough inp) as H. pose proof (read_acceptable (S (length inp)) inp) as Ha.
  change (read (S (length inp)) inp) with (Read inp) in Ha.
  destruct (Read inp) as [[v|e] r]; [|tauto].
  destruct (Ha v r eq_refl) as [Hb Hw]. split; [done|]. split; [done|].
  intros rest. by apply Read_back.
Qed.

End Resp.
