(* ===== verification/KeyCodec.v ===== *)
(** * Keys and field names in PostgreSQL TEXT columns: internal/storage/querier.go

    PostgreSQL's TEXT holds neither NUL bytes nor ill-formed UTF-8. The code
    stores such a key base64-encoded after a marker prefix and every other key
    as it is; [decodeKey] undoes it. The theorems say for which keys the pair
    is a round trip, and that what is stored is always storable. *)
From stdpp Require Import list strings.
From Stdlib Require Import ZArith Lia Ascii.
From S2P Require Import Prelude GoStd.

Module KeyCodec.

(** The bytes 0x1F, 'b', '6', '4', ':'. *)
Definition binaryPrefix : string := string_of ("031"%char :: bytes_of "b64:").

(** [strings.ContainsRune(key, 0) || !utf8.ValidString(key)]. *)
Definition needs_encoding (key : string) : bool :=
  Strings.ContainsNUL key || negb (Utf8.ValidString key).

Definition encodeKey (key : string) : string :=
  if needs_encoding key
  then binaryPrefix +:+ Base64.EncodeToString (bytes_of key)
  else key.

Definition decodeKey (key : string) : string :=
  if Strings.HasPrefix key binaryPrefix then
    let encoded := string_of (drop (length (bytes_of binaryPrefix)) (bytes_of key)) in
    match Base64.DecodeString encoded with
    | Some decoded => string_of decoded
    | None => key
    end
  else key.

(** [encodeKeys] overwrites the elements of the slice it is given and returns
    that same slice: the list below is both the result and what the caller's
    slice holds afterwards. *)
Fixpoint encodeKeys (keys : list string) : list string :=
  match keys with
  | [] => []
  | k :: keys => encodeKey k :: encodeKeys keys
  end.

(** Field names go through the same code, written out a second time. *)
Definition encodeField (field : string) : string :=
  if Strings.ContainsNUL field || negb (Utf8.ValidString field)
  then binaryPrefix +:+ Base64.EncodeToString (bytes_of field)
  else field.

Definition decodeField (field : string) : string :=
  if Strings.HasPrefix field binaryPrefix then
    let encoded := string_of (drop (length (bytes_of binaryPrefix)) (bytes_of field)) in
    match Base64.DecodeString encoded with
    | Some decoded => string_of decoded
    | None => field
    end
  else field.

(** ** Specification *)

(** What a TEXT column accepts. *)
Definition text_ok (s : string) : Prop :=
  Utf8.ValidString s = true ∧ "000"%char ∉ bytes_of s.

(** A key the client chose that looks like an encoded one. *)
Definition masquerades (key : string) : Prop :=
  needs_encoding key = false ∧
  ∃ b, Base64.DecodeString
         (string_of (drop (length (bytes_of binaryPrefix)) (bytes_of key))) = Some b ∧
       Strings.HasPrefix key binaryPrefix = true.

Lemma needs_encoding_false s : needs_encoding s = false ↔ text_ok s.
Proof.
  unfold needs_encoding, text_ok, Strings.ContainsNUL.
  rewrite orb_false_iff, negb_false_iff, bool_decide_eq_false. tauto.
Qed.

Lemma bytes_of_encoded k :
  bytes_of (binaryPrefix +:+ Base64.EncodeToString (bytes_of k))
  = bytes_of binaryPrefix ++ Base64.encode (bytes_of k).
Proof. rewrite bytes_of_app. unfold Base64.EncodeToString. by rewrite bytes_of_string_of. Qed.

Lemma encoded_text_ok k : text_ok (binaryPrefix +:+ Base64.EncodeToString (bytes_of k)).
Proof.
  unfold text_ok, Utf8.ValidString. rewrite bytes_of_encoded.
  assert (Forall (λ c, 0 < b2z c < 128)%Z (bytes_of binaryPrefix ++ Base64.encode (bytes_of k))) as H.
  { apply Forall_app. split; [repeat (constructor; [done|]); constructor|].
    eapply Forall_impl; [apply Base64.encode_printable|]. unfold Base64.printable. lia. }
  split; [apply Utf8.valid_ascii; eapply Forall_impl; [exact H|intros; cbn in *; lia]|].
  intros Hin. rewrite Forall_forall in H. by destruct (H _ Hin) as [? _].
Qed.

Lemma encodeKey_text_ok k : text_ok (encodeKey k).
Proof.
  unfold encodeKey. destruct (needs_encoding k) eqn:E; [apply encoded_text_ok|].
  by apply needs_encoding_false.
Qed.

Lemma encodeKey_plain k : text_ok k → encodeKey k = k.
Proof. intros H%needs_encoding_false. unfold encodeKey. by rewrite H. Qed.

Lemma decodeKey_encoded k : decodeKey (binaryPrefix +:+ Base64.EncodeToString (bytes_of k)) = k.
Proof.
  unfold decodeKey, Strings.HasPrefix. rewrite bytes_of_encoded, Strings.has_prefix_app.
  rewrite drop_app_length. fold (Base64.EncodeToString (bytes_of k)).
  by rewrite Base64.DecodeString_EncodeToString, string_of_bytes_of.
Qed.

Lemma encodeKeys_map keys : encodeKeys keys = encodeKey <$> keys.
Proof. induction keys as [|k keys IH]; [done|]. cbn. by rewrite IH. Qed.

Lemma encodeKey_idemp k : encodeKey (encodeKey k) = encodeKey k.
Proof. apply encodeKey_plain, encodeKey_text_ok. Qed.


Lemma encoded_masquerades k : masquerades (binaryPrefix +:+ Base64.EncodeToString (bytes_of k)).
Proof.
  split; [apply needs_encoding_false, encoded_text_ok|]. exists (bytes_of k).
  unfold Strings.HasPrefix. rewrite bytes_of_encoded, Strings.has_prefix_app, drop_app_length.
  split; [|done]. apply Base64.DecodeString_EncodeToString.
Qed.

Lemma masquerades_decode key : masquerades key → decodeKey (encodeKey key) ≠ key.
Proof.
  intros (He & b & Hd & Hp) E. unfold encodeKey in E. rewrite He in E.
  unfold decodeKey in E. rewrite Hp, Hd in E.
  apply Base64.DecodeString_length in Hd. rewrite bytes_of_string_of, length_drop in Hd.
  apply (f_equal (λ s, length (bytes_of s))) in E. rewrite bytes_of_string_of in E.
  apply Strings.has_prefix_length in Hp. change (length (bytes_of binaryPrefix)) with 5 in *. lia.
Qed.

(** Key codec, exact round trip: [decodeKey] gives a key back from its
    stored form for every byte string, except for a well-formed UTF-8 key
    without NUL that starts with the marker and goes on with valid base64;
    those come back as a different key. *)
Theorem decodeKey_encodeKey key : decodeKey (encodeKey key) = key ↔ ¬ masquerades key.
Proof.
  split; [intros E Hm; by apply (masquerades_decode _ Hm)|]. intros Hm.
  destruct (needs_encoding key) eqn:He.
  { unfold encodeKey. rewrite He. apply decodeKey_encoded. }
  unfold encodeKey. rewrite He. unfold decodeKey.
  destruct (Strings.HasPrefix key binaryPrefix) eqn:Hp; [|done].
  destruct (Base64.DecodeString _) as [b|] eqn:Hd; [|done].
  exfalso. apply Hm. split; [done|]. by exists b.
Qed.

(** Stored names are always acceptable to a TEXT column (well-formed UTF-8
    without NUL), encoding twice is encoding once, the slice version encodes
    each element, and two keys share a stored form only when one of them
    masquerades as the encoding of the other. *)
Theorem encodeKey_correct k k' ks :
  text_ok (encodeKey k) ∧ encodeKey (encodeKey k) = encodeKey k ∧
  encodeKeys ks = encodeKey <$> ks ∧ encodeField k = encodeKey k ∧ decodeField k = decodeKey k ∧
  (encodeKey k = encodeKey k' → k = k' ∨ masquerades k ∨ masquerades k').
Proof.
  split; [apply encodeKey_text_ok|]. split; [apply encodeKey_idemp|].
  split; [apply encodeKeys_map|]. split; [done|]. split; [done|]. intros E.
  destruct (needs_encoding k) eqn:Hk, (needs_encoding k') eqn:Hk';
    unfold encodeKey in E; rewrite Hk, Hk' in E.
  - left. by rewrite <-(decodeKey_encoded k), E, decodeKey_encoded.
  - right; right. subst k'. by apply encoded_masquerades.
  - right; left. subst k. by apply encoded_masquerades.
  - by left.
Qed.

(** The marker is not unambiguous: whatever binary key [b] a client uses,
    the text key spelling [b]'s stored form is a different key, is legal in
    PostgreSQL as it is, and is stored as the same row key. *)
Theorem encodeKey_collision b :
  needs_encoding b = true →
  ∃ k, k ≠ b ∧ text_ok k ∧ encodeKey k = encodeKey b ∧ decodeKey (encodeKey k) = b.
Proof.
  intros Hb. exists (encodeKey b). pose proof (encodeKey_text_ok b) as Ht.
  split; [|split; [exact Ht|split; [apply encodeKey_idemp|]]].
  - intros E. rewrite E in Ht. apply needs_encoding_false in Ht. congruence.
  - rewrite encodeKey_idemp. unfold encodeKey. rewrite Hb. apply decodeKey_encoded.
Qed.

Lemma encodeKey_collision_witness :
  needs_encoding (string_of ["255"%char]) = true ∧
  ∃ k, k ≠ string_of ["255"%char] ∧ text_ok k ∧ encodeKey k = encodeKey (string_of ["255"%char])
       ∧ decodeKey (encodeKey k) = string_of ["255"%char].
Proof. split; [reflexivity|]. apply encodeKey_collision. reflexivity. Defined.

Lemma encodeKey_correct_witness :
  encodeKey "a" = encodeKey "a" ∧
  ("a" = "a" ∨ masquerades "a" ∨ masquerades "a").
Proof. split; [reflexivity|]. apply (encodeKey_correct "a" "a" []). reflexivity. Defined.

End KeyCodec.
