(* ===== verification/Db.v ===== *)
(** * The PostgreSQL side: tables, statements, transactions

    internal/storage/storage.go ([initSchema], [withTx], [execTx],
    [isRetryableError]) and the parts of PostgreSQL they rely on.

    - [tables]: the seven tables of [initSchema], each a finite map from its
      primary key to the other columns. TEXT and BYTEA columns are byte
      strings, TIMESTAMPTZ columns are microseconds, a score is the bit
      pattern of its IEEE-754 double.
    - [M A]: a computation that sends statements over one connection. The
      environment gives [NOW()] (the start of the transaction, shared by all
      its statements), Go's [time.Now()] in nanoseconds, and for every
      statement sent the error the server or the network answers with, if
      any, and whether a call that failed took effect all the same, its answer
      being lost. The state holds the tables as this connection sees them, whether
      a transaction is open and aborted, and the advisory locks it took, in
      order.
    - [execTx]/[withTx]: transactions with rollback and the retry loop.

    Other sessions are not interleaved inside one transaction; what the
    program does against them is to take advisory locks, which [locks]
    records. *)
From stdpp Require Import gmap strings list.
From Stdlib Require Import ZArith Lia.
From S2P Require Import Prelude GoStd.

Module Db.

Abbreviation expiry := (option Z).

(** [CREATE TABLE] of [initSchema], one field per table. *)
Record tables := Tables {
  kv_meta : gmap string (string * expiry);
  kv_strings : gmap string (string * expiry);
  kv_hashes : gmap (string * string) (string * expiry);
  kv_lists : gmap (string * Z) (string * expiry);
  kv_sets : gmap (string * string) expiry;
  kv_zsets : gmap (string * string) (Z * expiry);
  kv_hyperloglog : gmap string (string * expiry)
}.

Definition empty_tables : tables := Tables ∅ ∅ ∅ ∅ ∅ ∅ ∅.

Definition upd_meta f t := Tables (f (kv_meta t)) (kv_strings t) (kv_hashes t) (kv_lists t)
  (kv_sets t) (kv_zsets t) (kv_hyperloglog t).
Definition upd_strings f t := Tables (kv_meta t) (f (kv_strings t)) (kv_hashes t) (kv_lists t)
  (kv_sets t) (kv_zsets t) (kv_hyperloglog t).
Definition upd_hashes f t := Tables (kv_meta t) (kv_strings t) (f (kv_hashes t)) (kv_lists t)
  (kv_sets t) (kv_zsets t) (kv_hyperloglog t).
Definition upd_lists f t := Tables (kv_meta t) (kv_strings t) (kv_hashes t) (f (kv_lists t))
  (kv_sets t) (kv_zsets t) (kv_hyperloglog t).
Definition upd_sets f t := Tables (kv_meta t) (kv_strings t) (kv_hashes t) (kv_lists t)
  (f (kv_sets t)) (kv_zsets t) (kv_hyperloglog t).
Definition upd_zsets f t := Tables (kv_meta t) (kv_strings t) (kv_hashes t) (kv_lists t)
  (kv_sets t) (f (kv_zsets t)) (kv_hyperloglog t).
Definition upd_hll f t := Tables (kv_meta t) (kv_strings t) (kv_hashes t) (kv_lists t)
  (kv_sets t) (kv_zsets t) (f (kv_hyperloglog t)).

(** ** Environment, state, monad *)

Record env := Env {
  NOW : Z;                          (** µs *)
  go_now : Z;                       (** ns *)
  fault : nat → option goerror;     (** the answer to the n-th call, if an error *)
  ctx_err : option goerror;         (** [ctx.Err()] while backing off *)
  landed : nat → bool               (** whether the n-th call, if it fails, took effect all the same *)
}.

(** No failing call. *)
Definition quiet (now gonow : Z) : env := Env now gonow (λ _, None) None (λ _, false).

Record st := St {
  db : tables;
  sent : nat;
  in_tx : bool;
  aborted : bool;
  locks : list string
}.

Definition M (A : Type) : Type := env → st → st * result A.

#[export] Instance M_ret : MRet M := λ _ a _ s, (s, Ok a).
#[export] Instance M_bind : MBind M := λ _ _ f m e s,
  match m e s with
  | (s', Ok a) => f a e s'
  | (s', Fail er) => (s', Fail er)
  end.

(** A Go-level error return, without a call. *)
Definition throw {A} (er : goerror) : M A := λ _ s, (s, Fail er).
(** Go's [if err := m; err != nil { handler }] without returning the error. *)
Definition catch {A} (m : M A) (h : goerror → M A) : M A := λ e s,
  match m e s with
  | (s', Ok a) => (s', Ok a)
  | (s', Fail er) => h er e s'
  end.
(** Sending a statement now and looking at its answer later, as a pgx batch
    does. *)
Definition attempt {A} (m : M A) : M (result A) := λ e s, let '(s', r) := m e s in (s', Ok r).
Definition unwrap {A} (r : result A) : M A := λ _ s, (s, r).
Definition asks {A} (f : env → A) : M A := λ e s, (s, Ok (f e)).

Definition tick (s : st) : st := St (db s) (S (sent s)) (in_tx s) (aborted s) (locks s).
Definition set_db (t : tables) (s : st) : st := St t (sent s) (in_tx s) (aborted s) (locks s).
(** An error inside a transaction block aborts the block. *)
Definition abort (s : st) : st := St (db s) (sent s) (in_tx s) (in_tx s) (locks s).

(** [pgconn.PgError] and the text of its [Error] method. *)
Definition PgError (severity message code : string) : goerror :=
  GoError (severity +:+ ": " +:+ message +:+ " (SQLSTATE " +:+ code +:+ ")") (Some code).

Definition in_failed_tx : goerror :=
  PgError "ERROR" "current transaction is aborted, commands ignored until end of transaction block"
    "25P02".
Definition deadlock_detected : goerror := PgError "ERROR" "deadlock detected" "40P01".

Definition isRetryableError (er : goerror) : bool :=
  match err_code er with
  | Some code => bool_decide (code = "40P01") || bool_decide (code = "40001")
  | None => false
  end.

(** Whether a call that failed took effect on the server. An error of the
    network or of the context says nothing about that: the answer was lost.
    A deadlock or a serialization failure is the server's word that it has
    rolled back. *)
Definition took_effect (e : env) (n : nat) (er : goerror) : bool := landed e n && negb (isRetryableError er).

(** One SQL statement: its effect on the tables and its result, or the error
    it raises. Outside a transaction it commits by itself, so it may have
    taken effect although its answer was lost; inside one that is settled by
    the transaction, which is aborted. *)
Definition stmt {A} (f : Z → tables → result (tables * A)) : M A := λ e s,
  if aborted s then (tick s, Fail in_failed_tx)
  else match fault e (sent s) with
       | Some er =>
           (abort (tick (if negb (in_tx s) && took_effect e (sent s) er then
                           match f (NOW e) (db s) with Ok (t, _) => set_db t s | Fail _ => s end
                         else s)), Fail er)
       | None => match f (NOW e) (db s) with
                 | Ok (t, a) => (set_db t (tick s), Ok a)
                 | Fail er => (abort (tick s), Fail er)
                 end
       end.

(** Statements that only read, and statements that only write. *)
Definition query {A} (f : Z → tables → A) : M A := stmt (λ now t, Ok (t, f now t)).
Definition exec (f : Z → tables → tables) : M unit := stmt (λ now t, Ok (f now t, tt)).

(** [SELECT pg_advisory_xact_lock(hashtext(k)) ...]: one statement, the locks
    taken in the order of the list. *)
Definition lock_stmt (ks : list string) : M unit := λ e s,
  match query (λ _ _, tt) e s with
  | (s', Ok _) => (St (db s') (sent s') (in_tx s') (aborted s') (locks s' ++ ks), Ok tt)
  | r => r
  end.

(** ** Transactions *)

Definition pgx_ErrTxCommitRollback : goerror :=
  Errorf "commit unexpectedly resulted in rollback".

(** A call that fails or not, without effect on the tables. *)
Definition round_trip : M unit := λ e s,
  match fault e (sent s) with
  | Some er => (tick s, Fail er)
  | None => (tick s, Ok tt)
  end.

Definition begin_tx (s : st) : st := St (db s) (sent s) true false [].
Definition end_tx (t : tables) (s : st) : st := St t (sent s) false false [].

(** [tx.Commit]: committing an aborted transaction rolls it back. A COMMIT
    that fails has left the tables as they were, or has taken effect and its
    answer was lost. *)
Definition Commit (t0 : tables) : M unit := λ e s,
  if aborted s then (end_tx t0 (tick s), Fail pgx_ErrTxCommitRollback)
  else match round_trip e s with
       | (s', Ok _) => (end_tx (db s') s', Ok tt)
       | (s', Fail er) => (end_tx (if took_effect e (sent s) er then db s else t0) s', Fail er)
       end.

Definition execTx {A} (fn : M A) : M A := λ e s,
  match round_trip e s with
  | (s', Fail er) => (s', Fail er)
  | (s', Ok _) =>
      match fn e (begin_tx s') with
      | (s1, Fail er) => (end_tx (db s) s1, Fail er)
      | (s1, Ok a) => match Commit (db s) e s1 with
                      | (s2, Ok _) => (s2, Ok a)
                      | (s2, Fail er) => (s2, Fail er)
                      end
      end
  end.

Definition IsRetryableMessage (msg : string) : bool :=
  Strings.Contains msg "(SQLSTATE 40P01)" || Strings.Contains msg "(SQLSTATE 40001)".

Definition maxDeadlockRetries : nat := 3.

(** The loop of [withTx] from [attempt] on; [e n] is the environment of the
    n-th attempt, whose transaction starts at its own [NOW()]. [more] is the
    number of attempts left after this one. *)
Fixpoint withTx_from {A} (more attempt : nat) (fn : M A) (e : nat → env) (s : st) : st * result A :=
  match execTx fn (e attempt) s with
  | (s', Ok a) => (s', Ok a)
  | (s', Fail er) =>
      match more with
      | O => (s', Fail er)
      | S more =>
          if isRetryableError er then
            match ctx_err (e attempt) with
            | Some er' => (s', Fail er')
            | None => withTx_from more (S attempt) fn e s'
            end
          else (s', Fail er)
      end
  end.

Definition withTx {A} (fn : M A) (e : nat → env) (s : st) : st * result A :=
  withTx_from maxDeadlockRetries 0 fn e s.

(** ** Running an operation when nothing fails *)

(** The outcome of an operation inside a transaction on the tables [t]. *)
Definition run {A} (now gonow : Z) (m : M A) (t : tables) : tables * result A :=
  let '(s, r) := m (quiet now gonow) (St t 0 true false []) in (db s, r).

(** [m] turns the tables [t] into [t'] with the result [r], whatever was sent
    before and whatever locks are held. *)
Definition runs {A} (now gonow : Z) (m : M A) (t t' : tables) (r : result A) : Prop :=
  ∀ s, db s = t → aborted s = false →
  ∃ s', m (quiet now gonow) s = (s', r) ∧ db s' = t' ∧ in_tx s' = in_tx s ∧
        match r with Ok _ => aborted s' = false | Fail _ => True end.

(** *** Rules *)

Section Rules.
Context {A B : Type} (now gonow : Z).
Implicit Types (t : tables).

Lemma runs_ret (a : A) t : runs now gonow (mret a) t t (Ok a).
Proof. intros s <- ?. by exists s. Qed.

Lemma runs_throw er t : runs now gonow (throw er : M A) t t (Fail er).
Proof. intros s <- ?. by exists s. Qed.

Lemma runs_asks (f : env → A) t : runs now gonow (asks f) t t (Ok (f (quiet now gonow))).
Proof. intros s <- ?. by exists s. Qed.

Lemma runs_bind (m : M A) (f : A → M B) t t1 t2 a r :
  runs now gonow m t t1 (Ok a) → runs now gonow (f a) t1 t2 r →
  runs now gonow (m ≫= f) t t2 r.
Proof.
  intros Hm Hf s Hs Ha. destruct (Hm s Hs Ha) as (s1 & E1 & Hs1 & Hi1 & Ha1).
  destruct (Hf s1 Hs1 Ha1) as (s2 & E2 & Hs2 & Hi2 & Ha2).
  exists s2. unfold mbind, M_bind. rewrite E1. split_and!; [done|done|congruence|done].
Qed.

Lemma runs_bind_fail (m : M A) (f : A → M B) t t1 er :
  runs now gonow m t t1 (Fail er) → runs now gonow (m ≫= f) t t1 (Fail er).
Proof.
  intros Hm s Hs Ha. destruct (Hm s Hs Ha) as (s1 & E1 & Hs1 & Hi1 & _).
  exists s1. unfold mbind, M_bind. by rewrite E1.
Qed.

Lemma runs_stmt (f : Z → tables → result (tables * A)) t t' a :
  f now t = Ok (t', a) → runs now gonow (stmt f) t t' (Ok a).
Proof. intros E s <- Ha. unfold stmt. rewrite Ha. cbn. rewrite E. by eexists. Qed.

Lemma runs_stmt_fail (f : Z → tables → result (tables * A)) t er :
  f now t = Fail er → runs now gonow (stmt f) t t (Fail er).
Proof. intros E s <- Ha. unfold stmt. rewrite Ha. cbn. rewrite E. by eexists. Qed.

Lemma runs_query (f : Z → tables → A) t : runs now gonow (query f) t t (Ok (f now t)).
Proof. by apply runs_stmt. Qed.

Lemma runs_eq (m : M A) t t' t'' r r' :
  runs now gonow m t t' r → t' = t'' → r = r' → runs now gonow m t t'' r'.
Proof. by intros ? -> ->. Qed.

(** [runs] is what [run] computes. *)
Lemma runs_run (m : M A) t t' r : runs now gonow m t t' r → run now gonow m t = (t', r).
Proof.
  intros H. destruct (H (St t 0 true false []) eq_refl eq_refl) as (s & E & Hs & _).
  unfold run. by rewrite E, Hs.
Qed.

Lemma runs_fun (m : M A) t t1 t2 r1 r2 :
  runs now gonow m t t1 r1 → runs now gonow m t t2 r2 → t1 = t2 ∧ r1 = r2.
Proof. intros H1%runs_run H2%runs_run. split; congruence. Qed.

End Rules.

Lemma runs_exec now gonow f t : runs now gonow (exec f) t (f now t) (Ok tt).
Proof. by apply runs_stmt. Qed.

Lemma runs_lock now gonow ks t : runs now gonow (lock_stmt ks) t t (Ok tt).
Proof. intros s <- Ha. unfold lock_stmt, query, stmt. rewrite Ha. cbn. by eexists. Qed.

Lemma runs_attempt {A} now gonow (m : M A) t t' a :
  runs now gonow m t t' (Ok a) → runs now gonow (attempt m) t t' (Ok (Ok a)).
Proof.
  intros H s Hs Ha. destruct (H s Hs Ha) as (s' & E & ? & ? & ?). exists s'.
  unfold attempt. by rewrite E.
Qed.

Lemma runs_unwrap {A} now gonow (a : A) t : runs now gonow (unwrap (Ok a)) t t (Ok a).
Proof. intros s <- Ha. by exists s. Qed.

Create HintDb runs.
#[export] Hint Resolve runs_attempt runs_unwrap : runs.
#[export] Hint Resolve runs_ret runs_throw runs_asks runs_query runs_exec runs_lock : runs.

(** One step of a computation: the first call runs by a known rule. *)
Ltac step := eapply runs_bind; [solve [eauto with runs]|cbv beta].
Ltac finish := solve [eauto with runs].

(** *** Atomicity and retries *)

Lemma end_tx_db t s : db (end_tx t s) = t.
Proof. done. Qed.

(** Nothing takes effect whose answer is lost. *)
Definition heard (e : env) : Prop := ∀ n, landed e n = false.

(** The n-th call failed with [er] and took effect all the same. *)
Definition answer_lost (e : env) (n : nat) (er : goerror) : Prop :=
  fault e n = Some er ∧ landed e n = true ∧ isRetryableError er = false.
Lemma heard_answer e n er : heard e → ¬ answer_lost e n er.
Proof. intros He (_ & Hl & _). by rewrite He in Hl. Qed.

(** [fn] went through on the tables [t], its COMMIT failed with [er], and what
    it left, [t'], is committed all the same. *)
Definition lost_commit {A} (fn : M A) (e : env) (er : goerror) (t t' : tables) : Prop :=
  ∃ a s1 s2, fn e s1 = (s2, Ok a) ∧ db s1 = t ∧ in_tx s1 = true ∧ aborted s1 = false ∧ aborted s2 = false ∧
    answer_lost e (sent s2) er ∧ db s2 = t'.

Lemma heard_commit {A} (fn : M A) e er t t' : heard e → ¬ lost_commit fn e er t t'.
Proof. intros He (a & s1 & s2 & _ & _ & _ & _ & _ & Hl & _). by eapply heard_answer. Qed.

(** The outcomes of one transaction: it failed and the tables are as before
    or its COMMIT took effect unheard, or [fn] succeeded on them and what it
    left is committed. *)
Lemma execTx_outcome {A} (fn : M A) e s s' r :
  execTx fn e s = (s', r) →
  match r with
  | Fail er => db s' = db s ∨ lost_commit fn e er (db s) (db s')
  | Ok a => ∃ s1 s2, fn e s1 = (s2, Ok a) ∧ db s1 = db s ∧ in_tx s1 = true ∧
                     aborted s1 = false ∧ locks s1 = [] ∧ aborted s2 = false ∧ db s' = db s2
  end.
Proof.
  unfold execTx, Commit, round_trip.
  destruct (fault e (sent s)) as [er|]; [intros [= <- <-]; by left|].
  destruct (fn e (begin_tx (tick s))) as [s1 [a|er]] eqn:E; [|intros [= <- <-]; by left].
  destruct (aborted s1) eqn:Hab; [intros [= <- <-]; by left|].
  destruct (fault e (sent s1)) as [er|] eqn:Hf; intros [= <- <-]; [|by exists (begin_tx (tick s)), s1].
  unfold took_effect. destruct (landed e (sent s1)) eqn:Hl, (isRetryableError er) eqn:Hr; cbn; try by left.
  right. by exists a, (begin_tx (tick s)), s1.
Qed.

(** The attempts of [withTx]: from attempt [n] on, with [more] to spare. *)
Lemma withTx_from_outcome {A} more n (fn : M A) e s s' r :
  withTx_from more n fn e s = (s', r) →
  match r with
  | Fail er => db s' = db s ∨ ∃ k, n ≤ k ≤ n + more ∧ lost_commit fn (e k) er (db s) (db s')
  | Ok a => ∃ k s1 s2, n ≤ k ≤ n + more ∧ fn (e k) s1 = (s2, Ok a) ∧ db s1 = db s ∧
                       in_tx s1 = true ∧ aborted s1 = false ∧ db s' = db s2
  end.
Proof.
  revert n s. induction more as [|more IH]; intros n s; cbn [withTx_from];
    destruct (execTx fn (e n) s) as [s1 [a|er]] eqn:E; pose proof (execTx_outcome _ _ _ _ _ E) as Ho.
  - intros [= <- <-]. destruct Ho as (x & y & ?). exists n, x, y. split; [lia|tauto].
  - intros [= <- <-]. destruct Ho as [?|Ho]; [by left|right]. exists n. split; [lia|done].
  - intros [= <- <-]. destruct Ho as (x & y & ?). exists n, x, y. split; [lia|tauto].
  - destruct (isRetryableError er) eqn:Hr.
    2:{ intros [= <- <-]. destruct Ho as [?|Ho]; [by left|right]. exists n. split; [lia|done]. }
    assert (db s1 = db s) as Hd.
    { destruct Ho as [?|(? & ? & ? & _ & _ & _ & _ & _ & (_ & _ & Hn) & _)]; [done|congruence]. }
    destruct (ctx_err (e n)); [intros [= <- <-]; by left|]. intros H%IH. rewrite Hd in H.
    destruct r as [a|er'].
    + destruct H as (k & x & y & ? & ?). exists k, x, y. split; [lia|tauto].
    + destruct H as [?|(k & ? & ?)]; [by left|right]. exists k. split; [lia|done].
Qed.

Lemma withTx_heard {A} (fn : M A) e s s' er :
  (∀ k, heard (e k)) → withTx fn e s = (s', Fail er) → db s' = db s.
Proof. by intros He [?|(k & _ & []%heard_commit)]%withTx_from_outcome. Qed.

(** C13. Atomicity of every write operation of [Store]: all or nothing. When
    [withTx] returns a result, that result and the new tables are those of one
    run of the operation, in one of the at most four attempts, on the tables
    as they were before the call: a failed attempt leaves no trace. When it
    returns an error (whatever statement, commit or connection failed, in
    whichever attempt), the tables are exactly as they were, with one
    exception: a run that went through and whose COMMIT took effect on the
    server although its answer was lost, in which case the tables are the
    complete outcome of that run, and the error is the one of that COMMIT and
    is not one that is retried. *)
Theorem withTx_atomic {A} (fn : M A) e s s' r :
  withTx fn e s = (s', r) →
  match r with
  | Fail er => db s' = db s ∨ ∃ k, k ≤ 3 ∧ lost_commit fn (e k) er (db s) (db s')
  | Ok a => ∃ k s1 s2, k ≤ 3 ∧ fn (e k) s1 = (s2, Ok a) ∧ db s1 = db s ∧
                       in_tx s1 = true ∧ aborted s1 = false ∧ db s' = db s2
  end.
Proof.
  intros H%withTx_from_outcome. destruct r as [a|er].
  - destruct H as (k & s1 & s2 & ? & ?). exists k, s1, s2. split; [unfold maxDeadlockRetries in *; lia|tauto].
  - destruct H as [?|(k & ? & ?)]; [by left|right]. exists k. split; [unfold maxDeadlockRetries in *; lia|done].
Qed.

(** A transaction whose second statement deadlocks in the first attempt. *)
Definition demo_fn : M unit :=
  exec (λ _, upd_meta <["k" := ("string", None)]>) ≫= λ _, query (λ _ _, tt).
Definition demo_env (attempt : nat) : env :=
  Env 0 0 (λ n, if (attempt =? 0)%nat && (n =? 2)%nat then Some deadlock_detected else None) None (λ _, false).
Definition demo_st : st := St empty_tables 0 false false [].

(** The connection breaks while the answer to COMMIT is on its way. *)
Definition lost_env (_ : nat) : env :=
  Env 0 0 (λ n, if (n =? 3)%nat then Some (Errorf "unexpected EOF") else None) None (λ _, true).

Lemma withTx_atomic_witness :
  (withTx demo_fn demo_env demo_st).2 = Ok tt ∧
  (∃ k s1 s2, k ≤ 3 ∧ demo_fn (demo_env k) s1 = (s2, Ok tt) ∧ db s1 = db demo_st ∧
             in_tx s1 = true ∧ aborted s1 = false ∧
             db (withTx demo_fn demo_env demo_st).1 = db s2) ∧
  db (withTx demo_fn lost_env demo_st).1 ≠ db demo_st ∧
  (db (withTx demo_fn lost_env demo_st).1 = db demo_st ∨
   ∃ k, k ≤ 3 ∧ lost_commit demo_fn (lost_env k) (Errorf "unexpected EOF") (db demo_st)
                 (db (withTx demo_fn lost_env demo_st).1)).
Proof.
  split; [reflexivity|]. split; [|split; [discriminate|]].
  - exact (withTx_atomic demo_fn demo_env demo_st (withTx demo_fn demo_env demo_st).1 (Ok tt) eq_refl).
  - exact (withTx_atomic demo_fn lost_env demo_st (withTx demo_fn lost_env demo_st).1
             (Fail (Errorf "unexpected EOF")) eq_refl).
Defined.

(** A run of [k] attempts that all failed with retryable errors. *)
Fixpoint failed_attempts {A} (fn : M A) (e : nat → env) (n k : nat) (s s' : st) : Prop :=
  match k with
  | O => s' = s
  | S k => ∃ s1 er, execTx fn (e n) s = (s1, Fail er) ∧ isRetryableError er = true ∧
                    ctx_err (e n) = None ∧ failed_attempts fn e (S n) k s1 s'
  end.

Lemma withTx_from_retries {A} more n k (fn : M A) e s s1 s' r :
  k ≤ more → failed_attempts fn e n k s s1 → execTx fn (e (n + k)%nat) s1 = (s', r) →
  match r with Ok _ => True | Fail er => isRetryableError er = false ∨ k = more end →
  withTx_from more n fn e s = (s', r).
Proof.
  revert n more s. induction k as [|k IH]; intros n more s Hk Hf He Hr.
  - simpl in Hf. subst s1. rewrite Nat.add_0_r in He.
    destruct more; cbn [withTx_from]; rewrite He; destruct r as [a|er]; [done..|].
    destruct Hr as [-> | ?]; done.
  - destruct Hf as (s2 & er & E & Hre & Hc & Hf). destruct more as [|more]; [lia|].
    cbn [withTx_from]. rewrite E, Hre, Hc. apply IH; [lia|done| |].
    + by rewrite Nat.add_succ_r in He.
    + destruct r; [done|]. destruct Hr; [by left|right; lia].
Qed.

(** C21. Retry policy of [withTx]: after [k] attempts that failed with a
    deadlock or a serialization error (and no cancelled context), attempt [k]
    decides the outcome when it succeeds, when it fails with any other error,
    or when it is the last one ([k] = 3). In particular up to three transient
    failures are invisible to the caller, and a permanent error is not
    retried. *)
Theorem withTx_retries {A} k (fn : M A) e s s1 s' r :
  k ≤ maxDeadlockRetries → failed_attempts fn e 0 k s s1 → execTx fn (e k) s1 = (s', r) →
  match r with Ok _ => True | Fail er => isRetryableError er = false ∨ k = maxDeadlockRetries end →
  withTx fn e s = (s', r).
Proof. intros. by eapply (withTx_from_retries _ 0 k). Qed.

Lemma withTx_retries_witness :
  failed_attempts demo_fn demo_env 0 1 demo_st (execTx demo_fn (demo_env 0) demo_st).1 ∧
  (withTx demo_fn demo_env demo_st).2 = Ok tt.
Proof.
  assert (failed_attempts demo_fn demo_env 0 1 demo_st (execTx demo_fn (demo_env 0) demo_st).1) as H.
  { exists (execTx demo_fn (demo_env 0) demo_st).1, deadlock_detected. split_and!; reflexivity. }
  split; [exact H|].
  pose (r := execTx demo_fn (demo_env 1) (execTx demo_fn (demo_env 0) demo_st).1).
  rewrite (withTx_retries 1 demo_fn demo_env demo_st (execTx demo_fn (demo_env 0) demo_st).1 r.1 (Ok tt));
    [reflexivity|unfold maxDeadlockRetries; lia|exact H|reflexivity|exact I].
Defined.

End Db.
