(* ===== verification/StoreMeta.v ===== *)
(** * Shared helpers of the storage layer: internal/storage/querier.go

    Key types, the [kv_meta] lookups and type checks, the advisory locks, and
    the statements that write or clear a key in every table; with the frame
    conditions the operations' theorems use. *)
From stdpp Require Import gmap strings list sorting.
From Stdlib Require Import ZArith Lia.
From S2P Require Import Prelude GoStd KeyCodec Db.
Import Db KeyCodec.

Module Meta.

(** [type KeyType string] *)
Abbreviation KeyType := string (only parsing).
Definition TypeNone : KeyType := "none".
Definition TypeString : KeyType := "string".
Definition TypeList : KeyType := "list".
Definition TypeSet : KeyType := "set".
Definition TypeZSet : KeyType := "zset".
Definition TypeHash : KeyType := "hash".

Definition dataTableForType (kt : KeyType) : string :=
  if bool_decide (kt = TypeString) then "kv_strings"
  else if bool_decide (kt = TypeHash) then "kv_hashes"
  else if bool_decide (kt = TypeList) then "kv_lists"
  else if bool_decide (kt = TypeSet) then "kv_sets"
  else if bool_decide (kt = TypeZSet) then "kv_zsets"
  else "".

Definition errWrongType : goerror :=
  Errorf "WRONGTYPE Operation against a key holding the wrong kind of value".

(** [expires_at IS NULL OR expires_at > NOW()] *)
Definition live (now : Z) (x : expiry) : bool :=
  match x with None => true | Some x => (now <? x)%Z end.

(** The row of a primary key when it is live. *)
Definition live_row {V} (now : Z) (r : option (V * expiry)) : option V :=
  match r with
  | Some (v, x) => if live now x then Some v else None
  | None => None
  end.

(** [SELECT key_type FROM kv_meta WHERE key = $1 AND (...)] *)
Definition meta_type (key : string) (now : Z) (t : tables) : option KeyType :=
  live_row now (kv_meta t !! key).

Definition getKeyType (key : string) : M KeyType :=
  r ← query (meta_type key);
  match r with
  | None => mret TypeNone
  | Some keyType => mret keyType
  end.

(** [queueTypeCheck] puts the lookup into a batch, [readTypeCheck] reads its
    answer. *)
Definition queueTypeCheck (key : string) : M (option KeyType) := query (meta_type key).
Definition readTypeCheck (row : option KeyType) (expected : KeyType) : M unit :=
  match row with
  | None => mret tt
  | Some keyType => if bool_decide (keyType ≠ expected) then throw errWrongType else mret tt
  end.

Definition lockKey (key : string) : M unit := lock_stmt [key].

Definition lockKeys (keys : list string) : M unit :=
  match keys with
  | [] => mret tt
  | [key] => lockKey key
  | _ => lock_stmt (Sort.Compact (Sort.Strings keys))
  end.

Definition setMeta (key : string) (keyType : KeyType) (expiresAt : expiry) : M unit :=
  lockKey key;;
  exec (λ _, upd_meta <[key := (keyType, expiresAt)]>).

(** [INSERT ... SELECT unnest($1), $2 ON CONFLICT DO UPDATE SET key_type]: the
    type changes, an existing [expires_at] stays. *)
Definition upsert_type (keyType : KeyType) (m : gmap string (string * expiry)) (key : string) :=
  <[key := (keyType, match m !! key with Some (_, x) => x | None => None end)]> m.

Definition setMetaBatch (keys : list string) (keyType : KeyType) : M unit :=
  match keys with
  | [] => mret tt
  | _ =>
      lockKeys keys;;
      (** ON CONFLICT DO UPDATE refuses to touch a row twice in one command *)
      stmt (λ _ t,
        if bool_decide (NoDup keys)
        then Ok (upd_meta (λ m, foldl (upsert_type keyType) m keys) t, tt)
        else Fail (PgError "ERROR"
               "ON CONFLICT DO UPDATE command cannot affect row a second time" "21000"))
  end.

(** [DELETE FROM t WHERE key = $1] for the tables with a compound key. *)
Definition drop_key {B V} `{Countable B} (key : string) (m : gmap (string * B) V) :=
  filter (λ p : (string * B) * V, p.1.1 ≠ key) m.
(** [DELETE FROM t WHERE key = ANY($1)] *)
Definition del_any {V} (keys : list string) (m : gmap string V) : gmap string V :=
  filter (λ p : string * V, p.1 ∉ keys) m.
Definition drop_any {B V} `{Countable B} (keys : list string) (m : gmap (string * B) V) :=
  filter (λ p : (string * B) * V, p.1.1 ∉ keys) m.

Definition deleteKeyFromAllTables (key : string) : M unit :=
  lockKey key;;
  exec (λ _, upd_meta (delete key));;
  exec (λ _, upd_strings (delete key));;
  exec (λ _, upd_hashes (drop_key key));;
  exec (λ _, upd_lists (drop_key key));;
  exec (λ _, upd_sets (drop_key key));;
  exec (λ _, upd_zsets (drop_key key));;
  exec (λ _, upd_hll (delete key)).

Definition deleteKeysFromAllTables (keys : list string) : M unit :=
  match keys with
  | [] => mret tt
  | _ =>
      lockKeys keys;;
      exec (λ _, upd_meta (del_any keys));;
      exec (λ _, upd_strings (del_any keys));;
      exec (λ _, upd_hashes (drop_any keys));;
      exec (λ _, upd_lists (drop_any keys));;
      exec (λ _, upd_sets (drop_any keys));;
      exec (λ _, upd_zsets (drop_any keys));;
      exec (λ _, upd_hll (del_any keys))
  end.

(** ** Lemmas on the table updates *)

Lemma drop_key_lookup {B V} `{Countable B} (key : string) (m : gmap (string * B) V) k b :
  drop_key key m !! (k, b) = if decide (k = key) then None else m !! (k, b).
Proof.
  unfold drop_key. rewrite map_lookup_filter. destruct (m !! (k, b)) as [v|]; cbn.
  - case_guard; cbn in *; case_decide; done.
  - by case_decide.
Qed.

Lemma del_any_lookup {V} keys (m : gmap string V) k :
  del_any keys m !! k = if decide (k ∈ keys) then None else m !! k.
Proof.
  unfold del_any. rewrite map_lookup_filter. destruct (m !! k) as [v|]; cbn.
  - case_guard; cbn in *; case_decide; done.
  - by case_decide.
Qed.

Lemma drop_any_lookup {B V} `{Countable B} (keys : list string) (m : gmap (string * B) V) k b :
  drop_any keys m !! (k, b) = if decide (k ∈ keys) then None else m !! (k, b).
Proof.
  unfold drop_any. rewrite map_lookup_filter. destruct (m !! (k, b)) as [v|]; cbn.
  - case_guard; cbn in *; case_decide; done.
  - by case_decide.
Qed.

(** The tables after [deleteKeyFromAllTables] and its batch version. *)
Definition cleared (key : string) (t : tables) : tables :=
  Tables (delete key (kv_meta t)) (delete key (kv_strings t)) (drop_key key (kv_hashes t))
    (drop_key key (kv_lists t)) (drop_key key (kv_sets t)) (drop_key key (kv_zsets t))
    (delete key (kv_hyperloglog t)).
Definition cleared_any (keys : list string) (t : tables) : tables :=
  Tables (del_any keys (kv_meta t)) (del_any keys (kv_strings t)) (drop_any keys (kv_hashes t))
    (drop_any keys (kv_lists t)) (drop_any keys (kv_sets t)) (drop_any keys (kv_zsets t))
    (del_any keys (kv_hyperloglog t)).

(** The rows of one key: what the other keys' operations must not touch. *)
Definition same_key (k : string) (t t' : tables) : Prop :=
  kv_meta t' !! k = kv_meta t !! k ∧ kv_strings t' !! k = kv_strings t !! k ∧
  (∀ f, kv_hashes t' !! (k, f) = kv_hashes t !! (k, f)) ∧
  (∀ i, kv_lists t' !! (k, i) = kv_lists t !! (k, i)) ∧
  (∀ m, kv_sets t' !! (k, m) = kv_sets t !! (k, m)) ∧
  (∀ m, kv_zsets t' !! (k, m) = kv_zsets t !! (k, m)) ∧
  kv_hyperloglog t' !! k = kv_hyperloglog t !! k.

(** Only the rows of [keys] differ. *)
Definition frame (keys : list string) (t t' : tables) : Prop :=
  ∀ k, k ∉ keys → same_key k t t'.

#[export] Instance same_key_equiv k : Equivalence (same_key k).
Proof.
  split.
  - by intros t.
  - intros t t' (?&?&?&?&?&?&?). split_and!; done.
  - intros t t' t'' (?&?&?&?&?&?&?) (?&?&?&?&?&?&?). split_and!; intros; etrans; eauto.
Qed.

#[export] Instance frame_equiv keys : Equivalence (frame keys).
Proof.
  split; [by intros t k _|intros t t' H k Hk; by symmetry; apply H|].
  intros t t' t'' H1 H2 k Hk. etrans; [by apply H1|by apply H2].
Qed.

(** Nothing at all is stored under the key. *)
Definition absent (k : string) (t : tables) : Prop := same_key k empty_tables t.

Lemma cleared_frame key t : frame [key] t (cleared key t).
Proof.
  intros k Hk. rewrite list_elem_of_singleton in Hk. unfold same_key, cleared; cbn.
  rewrite !lookup_delete_ne by done.
  split_and!; try done; intros; rewrite drop_key_lookup; by case_decide.
Qed.

Lemma cleared_absent key t : absent key (cleared key t).
Proof.
  unfold absent, same_key, cleared; cbn. rewrite !lookup_delete_eq.
  split_and!; try done; intros; rewrite drop_key_lookup; by case_decide.
Qed.

Lemma cleared_any_frame keys t : frame keys t (cleared_any keys t).
Proof.
  intros k Hk. unfold same_key, cleared_any; cbn.
  split_and!; intros; rewrite ?del_any_lookup, ?drop_any_lookup; by case_decide.
Qed.

Lemma cleared_any_absent keys t k : k ∈ keys → absent k (cleared_any keys t).
Proof.
  intros Hk. unfold absent, same_key, cleared_any; cbn.
  split_and!; intros; rewrite ?del_any_lookup, ?drop_any_lookup; by case_decide.
Qed.

(** Changing one key of a table keyed by [key] alone. *)
Lemma frame_upd_meta key f t :
  (∀ k, k ≠ key → f (kv_meta t) !! k = kv_meta t !! k) → frame [key] t (upd_meta f t).
Proof. intros H k Hk. rewrite list_elem_of_singleton in Hk. split_and!; try done. by apply H. Qed.

Lemma frame_upd_strings key f t :
  (∀ k, k ≠ key → f (kv_strings t) !! k = kv_strings t !! k) → frame [key] t (upd_strings f t).
Proof. intros H k Hk. rewrite list_elem_of_singleton in Hk. split_and!; try done. by apply H. Qed.

Lemma frame_upd_hll key f t :
  (∀ k, k ≠ key → f (kv_hyperloglog t) !! k = kv_hyperloglog t !! k) → frame [key] t (upd_hll f t).
Proof. intros H k Hk. rewrite list_elem_of_singleton in Hk. split_and!; try done. by apply H. Qed.

(** Changing the rows of one key in a table with a compound key. *)
Lemma frame_upd_hashes key f t :
  (∀ k b, k ≠ key → f (kv_hashes t) !! (k, b) = kv_hashes t !! (k, b)) →
  frame [key] t (upd_hashes f t).
Proof. intros H k Hk. rewrite list_elem_of_singleton in Hk. split_and!; try done. intros. by apply H. Qed.

Lemma frame_upd_lists key f t :
  (∀ k b, k ≠ key → f (kv_lists t) !! (k, b) = kv_lists t !! (k, b)) →
  frame [key] t (upd_lists f t).
Proof. intros H k Hk. rewrite list_elem_of_singleton in Hk. split_and!; try done. intros. by apply H. Qed.

Lemma frame_upd_sets key f t :
  (∀ k b, k ≠ key → f (kv_sets t) !! (k, b) = kv_sets t !! (k, b)) →
  frame [key] t (upd_sets f t).
Proof. intros H k Hk. rewrite list_elem_of_singleton in Hk. split_and!; try done. intros. by apply H. Qed.

Lemma frame_upd_zsets key f t :
  (∀ k b, k ≠ key → f (kv_zsets t) !! (k, b) = kv_zsets t !! (k, b)) →
  frame [key] t (upd_zsets f t).
Proof. intros H k Hk. rewrite list_elem_of_singleton in Hk. split_and!; try done. intros. by apply H. Qed.

Lemma frame_trans keys t1 t2 t3 : frame keys t1 t2 → frame keys t2 t3 → frame keys t1 t3.
Proof. apply transitivity. Qed.

Lemma frame_insert_meta key r t : frame [key] t (upd_meta <[key := r]> t).
Proof. apply frame_upd_meta. intros. by apply lookup_insert_ne. Qed.

Lemma frame_insert_strings key r t : frame [key] t (upd_strings <[key := r]> t).
Proof. apply frame_upd_strings. intros. by apply lookup_insert_ne. Qed.

Lemma live_row_Some {V} now (v : V) x :
  live_row now (Some (v, x)) = if live now x then Some v else None.
Proof. done. Qed.

(** ** How the helpers run *)

Section Runs.
Context (now gonow : Z).
Local Abbreviation runs := (runs now gonow).

Lemma runs_getKeyType key t :
  runs (getKeyType key) t t (Ok (default TypeNone (meta_type key now t))).
Proof. unfold getKeyType. step. destruct (meta_type key now t); finish. Qed.

Lemma runs_lockKey key t : runs (lockKey key) t t (Ok tt).
Proof. apply runs_lock. Qed.

Lemma runs_lockKeys keys t : runs (lockKeys keys) t t (Ok tt).
Proof. destruct keys as [|k [|k' keys]]; [apply runs_ret|apply runs_lock|apply runs_lock]. Qed.

Lemma runs_setMeta key kt x t :
  runs (setMeta key kt x) t (upd_meta <[key := (kt, x)]> t) (Ok tt).
Proof. unfold setMeta. eapply runs_bind; [apply runs_lockKey|]. apply runs_exec. Qed.

Lemma runs_deleteKeyFromAllTables key t :
  runs (deleteKeyFromAllTables key) t (cleared key t) (Ok tt).
Proof.
  unfold deleteKeyFromAllTables. eapply runs_bind; [apply runs_lockKey|]. repeat step.
  apply runs_exec.
Qed.

Lemma runs_deleteKeysFromAllTables keys t :
  keys ≠ [] → runs (deleteKeysFromAllTables keys) t (cleared_any keys t) (Ok tt).
Proof.
  unfold deleteKeysFromAllTables. destruct keys as [|k keys]; [done|]. intros _.
  eapply runs_bind; [apply runs_lockKeys|]. repeat step. apply runs_exec.
Qed.

Lemma runs_readTypeCheck row kt t :
  runs (readTypeCheck row kt) t t
    (match row with
     | Some kt' => if bool_decide (kt' = kt) then Ok tt else Fail errWrongType
     | None => Ok tt
     end).
Proof.
  destruct row as [kt'|]; [|apply runs_ret]. cbn. rewrite bool_decide_not.
  destruct (bool_decide (kt' = kt)); [apply runs_ret|apply runs_throw].
Qed.

End Runs.

End Meta.

#[export] Hint Resolve Meta.runs_getKeyType Meta.runs_lockKey Meta.runs_lockKeys
  Meta.runs_setMeta Meta.runs_deleteKeyFromAllTables Meta.runs_readTypeCheck : runs.
Create HintDb frame.
#[export] Hint Resolve Meta.cleared_frame Meta.cleared_absent Meta.frame_insert_meta
  Meta.frame_insert_strings : frame.

(** A chain of updates of one key. *)
Ltac frames := repeat (first [solve [eauto with frame] | eapply Meta.frame_trans; [|solve [eauto with frame]]]).
