(* ===== verification/StoreStrings.v ===== *)
(** * String commands of the storage layer: internal/storage/querier.go

    [get], [set], [setNX], [mGet], [mSet], [incr], [appendStr], [getRange],
    [setRange], [strLen], [getEx], [getDel], [getSet] and [incrByFloat]. A
    duration is in nanoseconds. The theorems give each operation's effect on
    the tables and its result on every branch. *)
From stdpp Require Import gmap strings list sorting.
From Stdlib Require Import ZArith Lia Ascii.
From S2P Require Import Prelude GoStd KeyCodec Db StoreMeta.
Import Db KeyCodec Meta.

Module StringOps.

(** pgx sends a [time.Time] as microseconds. *)
Definition timestamptz (ns : Z) : Z := (ns / 1000)%Z.

(** [SELECT value FROM kv_strings WHERE key = $1 AND (live)] *)
Definition sel_value (key : string) (now : Z) (t : tables) : option string :=
  live_row now (kv_strings t !! key).

(** [INSERT INTO kv_strings (key, value) VALUES ($1, $2)
     ON CONFLICT (key) DO UPDATE SET value = f(kv_strings.value)]:
    the row's [expires_at] is kept. *)
Definition upsert_with (key value : string) (f : string → string)
    (m : gmap string (string * expiry)) : gmap string (string * expiry) :=
  match m !! key with
  | Some (old, x) => <[key := (f old, x)]> m
  | None => <[key := (value, None)]> m
  end.
Definition upsert_value (key value : string) := upsert_with key value (λ _, value).

Definition get (key : string) : M (option string) :=
  let key := encodeKey key in
  query (sel_value key).

(** [if ttl > 0 { t := time.Now().Add(ttl) ... }] *)
Definition expiry_of (ttl : Z) : M expiry :=
  if (0 <? ttl)%Z then asks (λ e, Some (timestamptz (go_now e + ttl))) else mret None.

Definition set (key value : string) (ttl : Z) : M unit :=
  let key := encodeKey key in
  deleteKeyFromAllTables key;;
  expiresAt ← expiry_of ttl;
  setMeta key TypeString expiresAt;;
  exec (λ _, upd_strings <[key := (value, expiresAt)]>).

Definition setNX (key value : string) (ttl : Z) : M bool :=
  let enc := encodeKey key in
  lockKey enc;;
  exists_ ← query (λ now t, bool_decide (is_Some (meta_type enc now t)));
  if (exists_ : bool) then mret false
  else set key value ttl;; mret true.

Definition mGet (keys : list string) : M (list (option string)) :=
  let keys := encodeKeys keys in
  keyValues ← query (λ now t,
    omap (λ r, live_row now (Some r)) (filter (λ p : string * (string * expiry), p.1 ∈ keys) (kv_strings t)));
  mret ((λ key, (keyValues : gmap string string) !! key) <$> keys).

(** [pairs] lists the entries of the Go map in the order of one iteration. *)
Definition mSet (pairs : list (string * string)) : M unit :=
  let encoded := foldl (λ (m : gmap string string) kv, <[encodeKey kv.1 := kv.2]> m) ∅ pairs in
  let keys := Sort.Strings (map_to_list encoded).*1 in
  match keys with
  | [] => mret tt
  | _ =>
      let values := (λ key, default "" (encoded !! key)) <$> keys in
      deleteKeysFromAllTables keys;;
      setMetaBatch keys TypeString;;
      exec (λ _, upd_strings (λ m,
        foldl (λ m kv, upsert_value kv.1 kv.2 m) m (zip keys values)))
  end.

Definition errNotInteger : goerror := Errorf "value is not an integer or out of range".

Definition incr (key : string) (delta : Z) : M Z :=
  let key := encodeKey key in
  value ← query (sel_value key);
  current ← match value with
            | None => mret 0%Z
            | Some value => match Strconv.ParseInt value with
                            | None => throw errNotInteger
                            | Some n => mret n
                            end
            end;
  let result := wrap64 (current + delta) in
  setMeta key TypeString None;;
  exec (λ _, upd_strings (upsert_value key (Strconv.FormatInt result)));;
  mret result.

Definition errNoRows : goerror := Errorf "no rows in result set".

Definition appendStr (key value : string) : M Z :=
  let key := encodeKey key in
  setMeta key TypeString None;;
  exec (λ _, upd_strings (upsert_with key value (λ old, old +:+ value)));;
  newValue ← query (λ _ t, fst <$> kv_strings t !! key);
  match newValue with
  | Some v => mret (slen v)
  | None => throw errNoRows
  end.

(** [value[lo:hi]] of a Go byte slice, in range. *)
Definition slice (lo hi : Z) (b : bytes) : bytes :=
  take (Z.to_nat (hi - lo)) (drop (Z.to_nat lo) b).

(** The index arithmetic of [getRange]; [None] is the empty answer. *)
Definition range_bounds (length start end_ : Z) : option (Z * Z) :=
  if (length =? 0)%Z then None
  else
    let start := if (start <? 0)%Z then wrap64 (length + start) else start in
    let end_ := if (end_ <? 0)%Z then wrap64 (length + end_) else end_ in
    let start := if (start <? 0)%Z then 0%Z else start in
    let end_ := if (length <=? end_)%Z then (length - 1)%Z else end_ in
    if ((end_ <? start) || (length <=? start))%Z then None else Some (start, end_).

Definition getRange (key : string) (start end_ : Z) : M string :=
  let key := encodeKey key in
  value ← query (sel_value key);
  match value with
  | None => mret ""
  | Some value =>
      match range_bounds (slen value) start end_ with
      | None => mret ""
      | Some (s, e) => mret (string_of (slice s (e + 1) (bytes_of value)))
      end
  end.

(** A run-time panic; the operation does not return. *)
Definition panic (what : string) : goerror := Errorf ("runtime error: " +:+ what).

Definition zeros (n : nat) : bytes := replicate n "000"%char.

(** [copy(dst[off:], src)] *)
Definition copy_at (off : nat) (src dst : bytes) : bytes :=
  let n := length src `min` (length dst - off) in
  take off dst ++ take n src ++ drop (off + n) dst.

Definition setRange (key : string) (offset : Z) (value : string) : M Z :=
  let key := encodeKey key in
  existing ← query (sel_value key);
  let existing := match existing with None => [] | Some v => bytes_of v end in
  let endPos := wrap64 (offset + slen value) in
  let existing := if (blen existing <? endPos)%Z
                  then copy_at 0 existing (zeros (Z.to_nat endPos)) else existing in
  if ((offset <? 0) || (blen existing <? offset))%Z then throw (panic "slice bounds out of range")
  else
    let existing := copy_at (Z.to_nat offset) (bytes_of value) existing in
    setMeta key TypeString None;;
    exec (λ _, upd_strings (upsert_value key (string_of existing)));;
    mret (blen existing).

Definition strLen (key : string) : M Z :=
  let key := encodeKey key in
  value ← query (sel_value key);
  match value with
  | None => mret 0%Z
  | Some value => mret (slen value)
  end.

(** [UPDATE t SET expires_at = $2 WHERE key = $1] on a table keyed by [key]. *)
Definition set_expires {V} (key : string) (x : expiry) (m : gmap string (V * expiry)) :
    gmap string (V * expiry) :=
  alter (λ r, (r.1, x)) key m.

Definition getEx (key : string) (ttl : Z) (persist : bool) : M (option string) :=
  let key := encodeKey key in
  lockKey key;;
  value ← query (sel_value key);
  match value with
  | None => mret None
  | Some value =>
      (if persist then
         exec (λ _, upd_meta (set_expires key None));;
         exec (λ _, upd_strings (set_expires key None))
       else if (0 <? ttl)%Z then
         newExpiry ← asks (λ e, timestamptz (go_now e + ttl));
         exec (λ _, upd_meta (set_expires key (Some newExpiry)));;
         exec (λ _, upd_strings (set_expires key (Some newExpiry)))
       else mret tt);;
      mret (Some value)
  end.

Definition getDel (key : string) : M (option string) :=
  let key := encodeKey key in
  lockKey key;;
  value ← query (sel_value key);
  match value with
  | None => mret None
  | Some value =>
      catch (exec (λ _, upd_meta (delete key))) (λ _, mret tt);;
      exec (λ _, upd_strings (delete key));;
      mret (Some value)
  end.

Definition getSet (key value : string) : M (option string) :=
  let key := encodeKey key in
  oldValue ← query (sel_value key);
  setMeta key TypeString None;;
  exec (λ _, upd_strings <[key := (value, None)]>);;
  mret oldValue.

(** [strconv.ParseFloat], [strconv.FormatFloat(_, 'f', -1, 64)] and the
    addition of doubles, on bit patterns. *)
Record float64_ops := Float64Ops {
  ParseFloat : string → option Z;
  FormatFloat : Z → string;
  fadd : Z → Z → Z;
  fzero : Z
}.

Definition errNotFloat : goerror := Errorf "ERR value is not a valid float".

Definition incrByFloat (F : float64_ops) (key : string) (delta : Z) : M Z :=
  let key := encodeKey key in
  keyType ← getKeyType key;
  if bool_decide (keyType ≠ TypeNone) && bool_decide (keyType ≠ TypeString)
  then throw errWrongType
  else
    value ← query (sel_value key);
    currentValue ← match value with
                   | None => mret (fzero F)
                   | Some v => match ParseFloat F v with
                               | None => throw errNotFloat
                               | Some x => mret x
                               end
                   end;
    let newValue := fadd F currentValue delta in
    setMeta key TypeString None;;
    exec (λ _, upd_strings (upsert_value key (FormatFloat F newValue)));;
    mret newValue.

(** ** How the operations run *)

Lemma frame_upsert key v f t : frame [key] t (upd_strings (upsert_with key v f) t).
Proof.
  apply frame_upd_strings. intros k Hk. unfold upsert_with.
  destruct (kv_strings t !! key) as [[??]|]; by rewrite lookup_insert_ne.
Qed.
#[local] Hint Resolve frame_upsert : frame.

Lemma upsert_value_lookup key v m :
  upsert_value key v m !! key = Some (v, match m !! key with Some (_, x) => x | None => None end).
Proof.
  unfold upsert_value, upsert_with. destruct (m !! key) as [[??]|]; by rewrite lookup_insert_eq.
Qed.

Section Runs.
Context (now gonow : Z).
Local Abbreviation runs := (runs now gonow).

Lemma runs_get key t : runs (get key) t t (Ok (sel_value (encodeKey key) now t)).
Proof. unfold get. finish. Qed.

Definition set_expiry (ttl : Z) : expiry :=
  if (0 <? ttl)%Z then Some (timestamptz (gonow + ttl)) else None.

Lemma runs_expiry_of ttl t : runs (expiry_of ttl) t t (Ok (set_expiry ttl)).
Proof. unfold expiry_of, set_expiry. case_if; finish. Qed.

(** The tables after [set]. *)
Definition after_set (enc value : string) (x : expiry) (t : tables) : tables :=
  upd_strings <[enc := (value, x)]> (upd_meta <[enc := (TypeString, x)]> (cleared enc t)).

Lemma runs_set key value ttl t :
  runs (set key value ttl) t (after_set (encodeKey key) value (set_expiry ttl) t) (Ok tt).
Proof.
  unfold set. step. eapply runs_bind; [apply runs_expiry_of|]. step. apply runs_exec.
Qed.

Lemma runs_setNX key value ttl t :
  let enc := encodeKey key in
  let free := bool_decide (meta_type enc now t = None) in
  runs (setNX key value ttl) t (if free then after_set enc value (set_expiry ttl) t else t) (Ok free).
Proof.
  intros enc free. unfold free, setNX. fold enc. step. step. destruct (meta_type enc now t) as [kt|].
  - rewrite bool_decide_true, bool_decide_false by done. finish.
  - rewrite bool_decide_false by (intros [? ?]; done). rewrite bool_decide_true by done.
    eapply runs_bind; [apply runs_set|]. finish.
Qed.

End Runs.

#[export] Hint Resolve runs_get runs_expiry_of runs_set : runs.

(** What [set] leaves under its key: the string row and the meta row with the
    same expiry, and nothing else. *)
Definition holds_string (enc value : string) (x : expiry) (t : tables) : Prop :=
  kv_meta t !! enc = Some (TypeString, x) ∧ kv_strings t !! enc = Some (value, x) ∧
  (∀ f, kv_hashes t !! (enc, f) = None) ∧ (∀ i, kv_lists t !! (enc, i) = None) ∧
  (∀ m, kv_sets t !! (enc, m) = None) ∧ (∀ m, kv_zsets t !! (enc, m) = None) ∧
  kv_hyperloglog t !! enc = None.

Lemma after_set_frame enc v x t : frame [enc] t (after_set enc v x t).
Proof. unfold after_set. frames. Qed.

Lemma after_set_holds enc v x t : holds_string enc v x (after_set enc v x t).
Proof.
  pose proof (cleared_absent enc t) as (_ & _ & Hh & Hl & Hs & Hz & Hy).
  unfold holds_string, after_set; cbn in *. rewrite !lookup_insert_eq. done.
Qed.

Lemma holds_string_get now gonow key v x t :
  holds_string (encodeKey key) v x t →
  run now gonow (get key) t = (t, Ok (if live now x then Some v else None)).
Proof.
  intros (_ & Hs & _). apply runs_run. eapply runs_eq; [apply runs_get|done|].
  unfold sel_value. by rewrite Hs.
Qed.

(** [set] then [get], at any later time: the value comes back until its
    expiry and never after it (no expiry when the duration is not positive);
    the key holds nothing but that string, whatever type it had before; no
    other key is touched. *)
Theorem set_correct now gonow key value ttl t :
  let enc := encodeKey key in
  let x := if (0 <? ttl)%Z then Some (timestamptz (gonow + ttl)) else None in
  ∃ t', run now gonow (set key value ttl) t = (t', Ok tt) ∧
        holds_string enc value x t' ∧ frame [enc] t t' ∧
        ∀ now' gonow', run now' gonow' (get key) t' =
                       (t', Ok (if live now' x then Some value else None)).
Proof.
  intros enc x. exists (after_set enc value x t).
  split; [apply runs_run, runs_set|]. split; [apply after_set_holds|].
  split; [apply after_set_frame|]. intros. apply holds_string_get, after_set_holds.
Qed.

(** [setNX] on every branch: a key of any type whose meta row is live is
    left exactly as it is and the answer is false; an absent key, or one whose
    expiry has passed but which the sweeper has not removed yet, is taken over
    as by [set], and the answer is true. *)
Theorem setNX_correct now gonow key value ttl t :
  let enc := encodeKey key in
  run now gonow (setNX key value ttl) t =
    match meta_type enc now t with
    | Some _ => (t, Ok false)
    | None => ((run now gonow (set key value ttl) t).1, Ok true)
    end.
Proof.
  intros enc. rewrite (runs_run _ _ _ _ _ _ (runs_set now gonow key value ttl t)).
  rewrite (runs_run _ _ _ _ _ _ (runs_setNX now gonow key value ttl t)). fold enc.
  by destruct (meta_type enc now t).
Qed.

(** ** MSET and MGET *)

Lemma upsert_type_fold kt ks m k :
  foldl (upsert_type kt) m ks !! k =
    if decide (k ∈ ks) then Some (kt, match m !! k with Some (_, x) => x | None => None end)
    else m !! k.
Proof.
  revert m. induction ks as [|k0 ks IH]; intros m; [done|]. cbn [foldl]. rewrite IH.
  unfold upsert_type. destruct (decide (k = k0)) as [->|Hne].
  - rewrite (decide_True (P := k0 ∈ k0 :: ks)) by set_solver.
    rewrite !lookup_insert_eq. by case_decide.
  - rewrite !lookup_insert_ne by done. by rewrite (decide_ext (k ∈ k0 :: ks) (k ∈ ks)) by set_solver.
Qed.

Lemma upsert_value_fold (f : string → string) ks m k :
  foldl (λ m kv, upsert_value kv.1 kv.2 m) m (zip ks (f <$> ks)) !! k =
    if decide (k ∈ ks) then Some (f k, match m !! k with Some (_, x) => x | None => None end)
    else m !! k.
Proof.
  revert m. induction ks as [|k0 ks IH]; intros m; [done|]. cbn. rewrite IH.
  destruct (decide (k = k0)) as [->|Hne].
  - rewrite upsert_value_lookup, (decide_True (P := k0 ∈ k0 :: ks)) by set_solver.
    by case_decide.
  - assert (upsert_value k0 (f k0) m !! k = m !! k) as ->.
    { unfold upsert_value, upsert_with. destruct (m !! k0) as [[??]|]; by rewrite lookup_insert_ne. }
    by rewrite (decide_ext (k ∈ k0 :: ks) (k ∈ ks)) by set_solver.
Qed.

(** The map built by the first loop of [mSet]. *)
Definition encode_pairs (pairs : list (string * string)) : gmap string string :=
  foldl (λ (m : gmap string string) kv, <[encodeKey kv.1 := kv.2]> m) ∅ pairs.

Lemma encode_pairs_lookup pairs k v :
  NoDup (encodeKey <$> pairs.*1) →
  (encode_pairs pairs !! k = Some v) ↔ ∃ key, (key, v) ∈ pairs ∧ encodeKey key = k.
Proof.
  intros Hnd. unfold encode_pairs. rewrite <-list_fmap_compose in Hnd.
  rewrite (foldl_insert_lookup_empty (λ kv, encodeKey kv.1) snd) by done. split.
  - intros ([key v'] & ? & ? & <-). by exists key.
  - intros (key & ? & ?). by exists (key, v).
Qed.

(** The keys [mSet] locks and writes, in its order. *)
Definition mset_keys (pairs : list (string * string)) : list string :=
  Sort.Strings (map_to_list (encode_pairs pairs)).*1.

Lemma elem_of_mset_keys pairs k : k ∈ mset_keys pairs ↔ is_Some (encode_pairs pairs !! k).
Proof.
  unfold mset_keys. rewrite Sort.Strings_Permutation. rewrite list_elem_of_fmap. split.
  - intros ([k' v] & -> & H%elem_of_map_to_list). by exists v.
  - intros [v H%elem_of_map_to_list]. by exists (k, v).
Qed.

Lemma mset_keys_NoDup pairs : NoDup (mset_keys pairs).
Proof. unfold mset_keys. rewrite Sort.Strings_Permutation. apply NoDup_fst_map_to_list. Qed.

(** The tables after [mSet]. *)
Definition after_mset (pairs : list (string * string)) (t : tables) : tables :=
  let keys := mset_keys pairs in
  upd_strings (λ m, foldl (λ m kv, upsert_value kv.1 kv.2 m) m
                      (zip keys ((λ key, default "" (encode_pairs pairs !! key)) <$> keys)))
    (upd_meta (λ m, foldl (upsert_type TypeString) m keys) (cleared_any keys t)).

Lemma runs_setMetaBatch now gonow keys kt t :
  NoDup keys → keys ≠ [] →
  runs now gonow (setMetaBatch keys kt) t (upd_meta (λ m, foldl (upsert_type kt) m keys) t) (Ok tt).
Proof.
  intros Hnd Hne. unfold setMetaBatch. destruct keys as [|k keys]; [done|]. step.
  apply runs_stmt. by rewrite bool_decide_true.
Qed.

Lemma runs_mSet now gonow pairs t :
  mset_keys pairs ≠ [] → runs now gonow (mSet pairs) t (after_mset pairs t) (Ok tt).
Proof.
  intros Hne. unfold mSet. fold (encode_pairs pairs). fold (mset_keys pairs).
  destruct (mset_keys pairs) as [|k0 ks] eqn:E; [done|]. rewrite <-E in *.
  eapply runs_bind; [by apply runs_deleteKeysFromAllTables|].
  eapply runs_bind; [apply runs_setMetaBatch; [apply mset_keys_NoDup|done]|].
  eapply runs_eq; [apply runs_exec|done|done].
Qed.

Lemma after_mset_holds pairs t k v :
  encode_pairs pairs !! k = Some v → holds_string k v None (after_mset pairs t).
Proof.
  intros Hv. assert (k ∈ mset_keys pairs) as Hk by (apply elem_of_mset_keys; by eexists).
  pose proof (cleared_any_absent (mset_keys pairs) t k Hk) as (Hm & Hs & Hh & Hl & Hse & Hz & Hy).
  unfold holds_string, after_mset; cbn in *.
  rewrite upsert_type_fold, upsert_value_fold, !decide_True, Hm, Hs, Hv by done. done.
Qed.

Lemma after_mset_frame pairs t : frame (mset_keys pairs) t (after_mset pairs t).
Proof.
  etrans; [apply cleared_any_frame|]. intros k Hk. unfold after_mset, same_key; cbn.
  by rewrite upsert_type_fold, upsert_value_fold, !decide_False.
Qed.

Lemma runs_mGet now gonow ks t :
  runs now gonow (mGet ks) t t (Ok ((λ k, sel_value (encodeKey k) now t) <$> ks)).
Proof.
  unfold mGet. step. eapply runs_eq; [apply runs_ret|done|]. f_equal.
  rewrite encodeKeys_map, <-list_fmap_compose. apply list_fmap_ext. intros i k Hk. cbn.
  unfold sel_value. rewrite lookup_omap, map_lookup_filter.
  destruct (kv_strings t !! encodeKey k) as [[v x]|] eqn:E; [|done]. cbn.
  rewrite option_guard_True; [done|]. cbn.
  apply list_elem_of_fmap. exists k. split; [done|by eapply list_elem_of_lookup_2].
Qed.

(** MSET and MGET: when the pairs' keys are stored under distinct names,
    [mSet] gives every key its value as a plain string without expiry (its
    former type and expiry are gone), touches no other key, and [mGet] of any
    keys, in any order and with repetitions, then answers each one from its
    own row; so reading the written keys gives back the written values. *)
Theorem mSet_mGet now gonow pairs t :
  NoDup (encodeKey <$> pairs.*1) →
  ∃ t', run now gonow (mSet pairs) t = (t', Ok tt) ∧
        (∀ k v, (k, v) ∈ pairs → holds_string (encodeKey k) v None t') ∧
        frame (encodeKey <$> pairs.*1) t t' ∧
        ∀ now' gonow', run now' gonow' (mGet pairs.*1) t' = (t', Ok (Some <$> pairs.*2)).
Proof.
  intros Hnd.
  assert (∀ t', (∀ k v, (k, v) ∈ pairs → holds_string (encodeKey k) v None t') →
    ∀ now' gonow', run now' gonow' (mGet pairs.*1) t' = (t', Ok (Some <$> pairs.*2))) as Hget.
  { intros t' H now' gonow'. rewrite (runs_run _ _ _ _ _ _ (runs_mGet now' gonow' _ t')).
    do 2 f_equal. rewrite <-!list_fmap_compose. apply list_fmap_ext. intros i [k v] Hi. cbn.
    destruct (H k v) as (_ & Hs & _); [by eapply list_elem_of_lookup_2|].
    unfold sel_value. by rewrite Hs. }
  destruct (decide (mset_keys pairs = [])) as [E|Hne].
  - assert (pairs = []) as ->.
    { destruct pairs as [|[k v] pairs]; [done|]. exfalso.
      assert (encodeKey k ∈ mset_keys ((k, v) :: pairs)) as Hin; [|by rewrite E in Hin; apply not_elem_of_nil in Hin].
      apply elem_of_mset_keys. exists v. apply encode_pairs_lookup; [done|]. exists k. split; [by left|done]. }
    exists t. split_and!; [done|by intros ?? []%not_elem_of_nil|done|by apply Hget; intros ?? []%not_elem_of_nil].
  - exists (after_mset pairs t). rewrite (runs_run _ _ _ _ _ _ (runs_mSet now gonow pairs t Hne)).
    assert (∀ k v, (k, v) ∈ pairs → holds_string (encodeKey k) v None (after_mset pairs t)) as H.
    { intros k v Hin. apply after_mset_holds, encode_pairs_lookup; eauto. }
    split_and!; [done|exact H| |by apply Hget].
    intros k Hk. apply after_mset_frame. rewrite elem_of_mset_keys. intros [v Hv].
    apply encode_pairs_lookup in Hv as (key & Hin & <-); [|done].
    apply Hk. rewrite <-list_fmap_compose. apply (list_elem_of_fmap_2 (encodeKey ∘ fst) _ _ Hin).
Qed.

Lemma mSet_mGet_witness :
  NoDup (encodeKey <$> [("a", "1"); ("b", "2")].*1) ∧
  ∃ t', run 0 0 (mSet [("a", "1"); ("b", "2")]) empty_tables = (t', Ok tt) ∧
        (∀ k v, (k, v) ∈ [("a", "1"); ("b", "2")] → holds_string (encodeKey k) v None t') ∧
        frame (encodeKey <$> [("a", "1"); ("b", "2")].*1) empty_tables t' ∧
        ∀ now' gonow', run now' gonow' (mGet ["a"; "b"]) t' = (t', Ok [Some "1"; Some "2"]).
Proof.
  assert (NoDup (encodeKey <$> [("a", "1"); ("b", "2")].*1)) as H
    by (apply (bool_decide_unpack _); vm_compute; exact I).
  split; [exact H|]. exact (mSet_mGet 0 0 [("a", "1"); ("b", "2")] empty_tables H).
Defined.

(** ** INCRBY and APPEND *)

(** The row a write that keeps [expires_at] leaves behind. *)
Definition kept_expiry (enc : string) (t : tables) : expiry :=
  match kv_strings t !! enc with Some (_, x) => x | None => None end.

(** No expired row waits for the sweeper under the key. *)
Definition fresh (enc : string) (now : Z) (t : tables) : Prop :=
  live now (kept_expiry enc t) = true.

(** The number INCRBY starts from. *)
Definition counter (enc : string) (now : Z) (t : tables) : option Z :=
  match sel_value enc now t with
  | None => Some 0%Z
  | Some v => Strconv.ParseInt v
  end.

(** A write of the string row that keeps its expiry and resets the meta row. *)
Definition after_write (enc value : string) (t : tables) : tables :=
  upd_strings (upsert_value enc value) (upd_meta <[enc := (TypeString, None)]> t).

Lemma after_write_frame enc v t : frame [enc] t (after_write enc v t).
Proof. unfold after_write. eapply frame_trans; [|apply frame_upsert]. apply frame_insert_meta. Qed.

Lemma after_write_string enc v t :
  kv_strings (after_write enc v t) !! enc = Some (v, kept_expiry enc t).
Proof. apply upsert_value_lookup. Qed.

Lemma after_write_meta enc v t : kv_meta (after_write enc v t) !! enc = Some (TypeString, None).
Proof. cbn. apply lookup_insert_eq. Qed.

Lemma after_write_sel enc v now t :
  sel_value enc now (after_write enc v t) = if live now (kept_expiry enc t) then Some v else None.
Proof. unfold sel_value. by rewrite after_write_string. Qed.

Lemma runs_write now gonow enc v t :
  runs now gonow (setMeta enc TypeString None;; exec (λ _, upd_strings (upsert_value enc v))) t
    (after_write enc v t) (Ok tt).
Proof. step. apply runs_exec. Qed.

Lemma runs_incr now gonow key delta t n :
  counter (encodeKey key) now t = Some n →
  runs now gonow (incr key delta) t
    (after_write (encodeKey key) (Strconv.FormatInt (wrap64 (n + delta))) t)
    (Ok (wrap64 (n + delta))).
Proof.
  unfold counter, incr. intros Hc. step.
  destruct (sel_value (encodeKey key) now t) as [v|]; [rewrite Hc|injection Hc as <-];
    (step; step; step; apply runs_ret).
Qed.

Lemma runs_incr_fail now gonow key delta t :
  counter (encodeKey key) now t = None →
  runs now gonow (incr key delta) t t (Fail errNotInteger).
Proof.
  unfold counter, incr. intros Hc. step.
  destruct (sel_value (encodeKey key) now t) as [v|]; [|done]. rewrite Hc.
  eapply runs_bind_fail. finish.
Qed.

(** INCRBY and DECRBY on every branch. A value that is not a decimal
    [int64] is an error and nothing changes. Otherwise the answer is the sum
    as [int64] arithmetic gives it (it wraps around silently at 2^63), the
    stored value is its decimal form, the data row keeps its expiry while the
    meta row loses it, no other key changes; and when no expired row was
    lingering under the key, [get] reads the new value back and a further
    INCRBY continues from it. *)
Theorem incr_correct now gonow key delta t :
  let enc := encodeKey key in
  match counter enc now t with
  | None => run now gonow (incr key delta) t = (t, Fail errNotInteger)
  | Some n =>
      let n' := wrap64 (n + delta) in
      ∃ t', run now gonow (incr key delta) t = (t', Ok n') ∧ frame [enc] t t' ∧
            kv_strings t' !! enc = Some (Strconv.FormatInt n', kept_expiry enc t) ∧
            kv_meta t' !! enc = Some (TypeString, None) ∧
            (int64 (n + delta) → n' = (n + delta)%Z) ∧
            (fresh enc now t → run now gonow (get key) t' = (t', Ok (Some (Strconv.FormatInt n')))
                               ∧ counter enc now t' = Some n')
  end.
Proof.
  intros enc. destruct (counter enc now t) as [n|] eqn:Hc.
  - intros n'. exists (after_write enc (Strconv.FormatInt n') t).
    split; [by apply runs_run, runs_incr|]. split; [apply after_write_frame|].
    split; [apply after_write_string|]. split; [apply after_write_meta|].
    split; [apply wrap64_id|]. intros Hf.
    assert (sel_value enc now (after_write enc (Strconv.FormatInt n') t)
            = Some (Strconv.FormatInt n')) as Hs by (rewrite after_write_sel; by rewrite Hf).
    split.
    + rewrite (runs_run _ _ _ _ _ _ (runs_get now gonow key _)). fold enc. by rewrite Hs.
    + unfold counter. rewrite Hs. apply Strconv.ParseInt_FormatInt, wrap64_range.
  - by apply runs_run, runs_incr_fail.
Qed.

Definition db_counter : tables :=
  Tables {[ "n" := ("string", None) ]} {[ "n" := ("41", Some 50%Z) ]} ∅ ∅ ∅ ∅ ∅.

Lemma incr_correct_witness :
  fresh "n" 10 db_counter ∧ int64 (41 + 1) ∧
  ∃ t', run 10 0 (incr "n" 1) db_counter = (t', Ok 42%Z) ∧ counter "n" 10 t' = Some 42%Z.
Proof.
  split; [reflexivity|]. split; [split; [lia|reflexivity]|].
  destruct (incr_correct 10 0 "n" 1 db_counter) as (t' & E & _ & _ & _ & _ & H).
  exists t'. split; [exact E|]. apply H. reflexivity.
Defined.

(** A write to a key whose data row has expired but has not been swept
    yet is lost: INCRBY answers with the new number (counting from zero), yet
    [get] at that time, and at every later one, finds no value, since the row
    keeps its old expiry. *)
Theorem incr_expired_row_lost now gonow key delta t v x :
  kv_strings t !! encodeKey key = Some (v, Some x) → (x <= now)%Z →
  ∃ t', run now gonow (incr key delta) t = (t', Ok (wrap64 delta)) ∧
        kv_meta t' !! encodeKey key = Some (TypeString, None) ∧
        ∀ now' gonow', (now <= now')%Z → run now' gonow' (get key) t' = (t', Ok None).
Proof.
  intros Hrow Hx. set (enc := encodeKey key) in *.
  assert (counter enc now t = Some 0%Z) as Hc.
  { unfold counter, sel_value. rewrite Hrow. cbn.
    assert ((now <? x)%Z = false) as -> by lia. done. }
  exists (after_write enc (Strconv.FormatInt (wrap64 delta)) t).
  split; [apply runs_run, (runs_incr _ _ _ _ _ 0 Hc)|]. split; [apply after_write_meta|].
  intros now' gonow' Hn. rewrite (runs_run _ _ _ _ _ _ (runs_get now' gonow' key _)). fold enc.
  rewrite after_write_sel. unfold kept_expiry. rewrite Hrow. cbn.
  assert ((now' <? x)%Z = false) as -> by lia. done.
Qed.

Lemma incr_expired_row_lost_witness :
  kv_strings db_counter !! encodeKey "n" = Some ("41", Some 50%Z) ∧ (50 <= 60)%Z ∧
  ∃ t', run 60 0 (incr "n" 1) db_counter = (t', Ok (wrap64 1)) ∧
        kv_meta t' !! encodeKey "n" = Some (TypeString, None) ∧
        ∀ now' gonow', (60 <= now')%Z → run now' gonow' (get "n") t' = (t', Ok None).
Proof.
  split; [reflexivity|]. split; [lia|].
  apply (incr_expired_row_lost 60 0 "n" 1 db_counter "41" 50); [reflexivity|lia].
Defined.

(** ** GETRANGE and SETRANGE *)

Lemma slice_lookup lo hi b (n : nat) :
  (0 <= lo <= hi)%Z →
  slice lo hi b !! n = if (Z.of_nat n <? hi - lo)%Z then b !! (Z.to_nat lo + n)%nat else None.
Proof.
  intros ?. unfold slice. case_if; zify_bool.
  - rewrite lookup_take_lt by lia. apply lookup_drop.
  - apply lookup_take_ge. lia.
Qed.

Lemma runs_getRange now gonow key start end_ t :
  runs now gonow (getRange key start end_) t t
    (Ok (match sel_value (encodeKey key) now t with
         | None => ""
         | Some v => match range_bounds (slen v) start end_ with
                     | None => ""
                     | Some (s, e) => string_of (slice s (e + 1) (bytes_of v))
                     end
         end)).
Proof.
  unfold getRange. step. destruct (sel_value (encodeKey key) now t) as [v|]; [|finish].
  destruct (range_bounds (slen v) start end_) as [[??]|]; finish.
Qed.

(** Redis' index convention: negative indexes count from the end. *)
Definition from_end (length i : Z) : Z := if (i <? 0)%Z then (length + i)%Z else i.

Lemma range_bounds_spec len start end_ :
  (0 <= len < 2 ^ 63)%Z → int64 start → int64 end_ →
  match range_bounds len start end_ with
  | Some (s, e) => s = Z.max 0 (from_end len start) ∧ e = Z.min (len - 1) (from_end len end_) ∧
                   (0 <= s <= e)%Z ∧ (e < len)%Z
  | None => (Z.min (len - 1) (from_end len end_) < Z.max 0 (from_end len start))%Z
  end.
Proof.
  unfold int64, range_bounds, from_end. intros Hl Hs He.
  destruct (len =? 0)%Z eqn:E0; zify_bool.
  { repeat case_if; zify_bool; lia. }
  destruct (start <? 0)%Z eqn:Es, (end_ <? 0)%Z eqn:Ee; cbv zeta iota; zify_bool;
    rewrite ?wrap64_id by (unfold int64; lia);
    repeat match goal with |- context [if (?a <? ?b)%Z then _ else _] => destruct (a <? b)%Z eqn:? end;
    repeat match goal with |- context [if (?a <=? ?b)%Z then _ else _] => destruct (a <=? b)%Z eqn:? end;
    match goal with |- context [if ?b then _ else _] => destruct b eqn:Hor end;
    try (apply orb_true_iff in Hor as [?|?]); zify_bool; try lia; split_and!; lia.
Qed.

(** GETRANGE is exact: the answer's n-th byte is the byte at position
    max(0, start') + n of the value as long as that position is at most
    end', where negative positions count from the end; there are no other
    bytes. A missing or expired key answers the empty string; the tables do
    not change. *)
Theorem getRange_correct now gonow key start end_ t :
  int64 start → int64 end_ →
  let v := bytes_of (default "" (sel_value (encodeKey key) now t)) in
  let lo := Z.max 0 (from_end (blen v) start) in
  let hi := from_end (blen v) end_ in
  (blen v < 2 ^ 63)%Z →
  ∃ r, run now gonow (getRange key start end_) t = (t, Ok r) ∧
       ∀ n : nat, bytes_of r !! n =
         if (lo + Z.of_nat n <=? hi)%Z then v !! (Z.to_nat lo + n)%nat else None.
Proof.
  intros Hs He v lo hi Hlen. eexists. split; [apply runs_run, runs_getRange|]. intros n.
  assert (0 <= blen v)%Z as H0 by (unfold blen; lia).
  pose proof (range_bounds_spec (blen v) start end_ (conj H0 Hlen) Hs He) as HB. fold lo hi in HB.
  assert (∀ m : nat, (blen v <= Z.of_nat m)%Z → v !! m = None) as Hout.
  { intros m Hm. apply lookup_ge_None. unfold blen in Hm. lia. }
  destruct (sel_value (encodeKey key) now t) as [w|] eqn:Ew.
  2: { change v with (@nil ascii). rewrite lookup_nil. by case_if. }
  change (slen w) with (blen v). destruct (range_bounds (blen v) start end_) as [[s' e']|].
  - destruct HB as (-> & -> & ? & ?). rewrite bytes_of_string_of, slice_lookup by lia.
    change (bytes_of w) with v. repeat case_if; zify_bool; try done; try lia.
    symmetry. apply Hout. lia.
  - case_if; [|done]. zify_bool. symmetry. apply Hout. lia.
Qed.

Lemma getRange_correct_witness :
  ∃ r, run 10 0 (getRange "n" (-2) (-1)) db_counter = (db_counter, Ok r) ∧
       ∀ n : nat, bytes_of r !! n = if (0 + Z.of_nat n <=? 1)%Z then ["4"%char; "1"%char] !! n else None.
Proof.
  apply (getRange_correct 10 0 "n" (-2) (-1) db_counter);
    [split; [lia|reflexivity]|split; [lia|reflexivity]|reflexivity].
Defined.

(** What SETRANGE makes of a value: zero padding up to the offset. *)
Definition overwrite (old : bytes) (off : nat) (new : bytes) : bytes :=
  copy_at off new
    (if decide (length old < off + length new)%nat
     then copy_at 0 old (zeros (off + length new)) else old).

Lemma copy_at_length off src dst : off ≤ length dst → length (copy_at off src dst) = length dst.
Proof. intros. unfold copy_at. rewrite !length_app, !length_take, length_drop. lia. Qed.

Lemma copy_at_lookup off src dst i :
  off + length src ≤ length dst →
  copy_at off src dst !! i =
    if decide (off ≤ i < off + length src)%nat then src !! (i - off)%nat else dst !! i.
Proof.
  intros H. unfold copy_at. replace (length src `min` (length dst - off)) with (length src) by lia.
  rewrite firstn_all. destruct (decide (i < off)%nat).
  - rewrite lookup_app_l by (rewrite length_take; lia). rewrite lookup_take_lt by lia.
    case_decide; [lia|done].
  - rewrite lookup_app_r by (rewrite length_take; lia). rewrite length_take.
    replace (i - off `min` length dst) with (i - off) by lia.
    case_decide.
    + by rewrite lookup_app_l by lia.
    + rewrite lookup_app_r by lia. rewrite lookup_drop. f_equal. lia.
Qed.

Lemma zeros_lookup n i : zeros n !! i = if decide (i < n)%nat then Some "000"%char else None.
Proof.
  unfold zeros. case_decide; [by apply lookup_replicate_2|apply lookup_replicate_None; lia].
Qed.

Lemma overwrite_length old off new :
  length (overwrite old off new) = length old `max` (off + length new).
Proof.
  unfold overwrite. case_decide.
  - rewrite !copy_at_length; unfold zeros; rewrite ?length_replicate; try lia.
    rewrite copy_at_length, length_replicate; rewrite ?length_replicate; lia.
  - rewrite copy_at_length; lia.
Qed.

Lemma overwrite_lookup old off new i :
  overwrite old off new !! i =
    if decide (off ≤ i < off + length new)%nat then new !! (i - off)%nat
    else if decide (i < length old)%nat then old !! i
    else if decide (i < off + length new)%nat then Some "000"%char else None.
Proof.
  unfold overwrite. destruct (decide (length old < off + length new)%nat).
  - assert (length (zeros (off + length new)) = off + length new)%nat as Hz
      by (unfold zeros; apply length_replicate).
    rewrite copy_at_lookup by (rewrite copy_at_length; lia).
    rewrite copy_at_lookup by lia. rewrite zeros_lookup, Nat.sub_0_r.
    repeat case_decide; try lia; done.
  - rewrite copy_at_lookup by lia. repeat case_decide; try lia; try done.
    apply lookup_ge_None. lia.
Qed.

Lemma runs_setRange now gonow key off value t :
  let enc := encodeKey key in
  let old := bytes_of (default "" (sel_value enc now t)) in
  let new := overwrite old off (bytes_of value) in
  (Z.of_nat off + slen value < 2 ^ 63)%Z → (blen old < 2 ^ 63)%Z →
  runs now gonow (setRange key (Z.of_nat off) value) t
    (after_write enc (string_of new) t) (Ok (blen new)).
Proof.
  intros enc old new Hb Ho. unfold setRange. fold enc. step. fold enc.
  assert (match sel_value enc now t with None => [] | Some v => bytes_of v end = old) as ->
    by (unfold old; by destruct (sel_value enc now t)).
  rewrite wrap64_id by (unfold int64, slen in *; lia).
  assert (Z.to_nat (Z.of_nat off + slen value) = off + length (bytes_of value))%nat as Hn
    by (unfold slen; lia).
  rewrite Hn, Nat2Z.id.
  set (ext := if (blen old <? Z.of_nat off + slen value)%Z
              then copy_at 0 old (zeros (off + length (bytes_of value))) else old).
  assert (copy_at off (bytes_of value) ext = new) as Hnew.
  { unfold new, overwrite, ext, blen, slen.
    destruct (Z.of_nat (length old) <? _)%Z eqn:E; zify_bool; case_decide; done || lia. }
  assert (off ≤ length ext)%nat as Hoff.
  { unfold ext. destruct (blen old <? _)%Z eqn:E; zify_bool.
    - rewrite copy_at_length; unfold zeros; rewrite ?length_replicate; lia.
    - unfold blen, slen in *. lia. }
  rewrite (proj2 (orb_false_iff _ _)) by (split; apply Z.ltb_ge; unfold blen; lia).
  rewrite Hnew. step. step. apply runs_ret.
Qed.

(** SETRANGE followed by reads: for an offset and a value that fit, the
    new string has the bytes of [value] at the offset, the old bytes
    elsewhere, and zero bytes in a gap; the answer is its length; other keys
    are untouched; and unless an expired row was lingering, GETRANGE over the
    written range returns exactly [value]. *)
Theorem setRange_correct now gonow key off value t :
  let enc := encodeKey key in
  let old := bytes_of (default "" (sel_value enc now t)) in
  let new := overwrite old off (bytes_of value) in
  (Z.of_nat off + slen value < 2 ^ 63)%Z → (blen old < 2 ^ 63)%Z →
  ∃ t', run now gonow (setRange key (Z.of_nat off) value) t = (t', Ok (blen new)) ∧
    frame [enc] t t' ∧ kv_strings t' !! enc = Some (string_of new, kept_expiry enc t) ∧
    (∀ i, new !! i =
       if decide (off ≤ i < off + length (bytes_of value))%nat then bytes_of value !! (i - off)%nat
       else if decide (i < length old)%nat then old !! i
       else if decide (i < off + length (bytes_of value))%nat then Some "000"%char else None) ∧
    (fresh enc now t → value ≠ "" →
     run now gonow (getRange key (Z.of_nat off) (Z.of_nat off + slen value - 1)) t'
     = (t', Ok value)).
Proof.
  intros enc old new Hb Ho. exists (after_write enc (string_of new) t).
  split; [apply runs_run, runs_setRange; done|].
  split; [apply after_write_frame|]. split; [apply after_write_string|].
  split; [intros i; apply overwrite_lookup|]. intros Hf Hv.
  rewrite (runs_run _ _ _ _ _ _ (runs_getRange now gonow key _ _ _)). fold enc.
  rewrite after_write_sel. unfold fresh in Hf. rewrite Hf. do 2 f_equal.
  assert (0 < length (bytes_of value))%nat as Hpos by (destruct value; [done|cbn; lia]).
  assert (length new = length old `max` (off + length (bytes_of value)))%nat as Hnl
    by apply overwrite_length.
  assert (slen (string_of new) = Z.of_nat (length new)) as ->
    by (unfold slen; by rewrite bytes_of_string_of).
  unfold slen, blen in *.
  pose proof (range_bounds_spec (Z.of_nat (length new)) (Z.of_nat off)
    (Z.of_nat off + Z.of_nat (length (bytes_of value)) - 1)
    ltac:(lia) ltac:(unfold int64; lia) ltac:(unfold int64; lia)) as HB.
  unfold from_end in HB. rewrite !(proj2 (Z.ltb_ge _ 0)) in HB by lia.
  destruct (range_bounds _ _ _) as [[s' e']|]; [|lia]. destruct HB as (-> & -> & _ & _).
  rewrite bytes_of_string_of. apply (inj bytes_of). rewrite bytes_of_string_of.
  apply list_eq. intros i. rewrite slice_lookup by lia.
  pose proof (overwrite_lookup old off (bytes_of value)) as HL. fold new in HL. rewrite HL.
  case_if; zify_bool.
  - rewrite decide_True by lia. f_equal. lia.
  - symmetry. apply lookup_ge_None. lia.
Qed.

Lemma setRange_correct_witness :
  fresh "n" 10 db_counter ∧
  ∃ t', run 10 0 (setRange "n" 3 "xy") db_counter = (t', Ok 5%Z) ∧
        run 10 0 (getRange "n" 3 4) t' = (t', Ok "xy").
Proof.
  split; [reflexivity|].
  destruct (setRange_correct 10 0 "n" 3 "xy" db_counter) as (t' & E & _ & _ & _ & H);
    [reflexivity|reflexivity|].
  exists t'. split; [exact E|]. apply H; [reflexivity|discriminate].
Defined.

(** ** GETEX, GETDEL, GETSET, APPEND *)

Lemma set_expires_lookup {V} key x (m : gmap string (V * expiry)) :
  set_expires key x m !! key = (λ r, (r.1, x)) <$> m !! key.
Proof. apply lookup_alter_eq. Qed.

Lemma set_expires_lookup_ne {V} key x (m : gmap string (V * expiry)) k :
  k ≠ key → set_expires key x m !! k = m !! k.
Proof. intros. by apply lookup_alter_ne. Qed.

Lemma runs_catch {A} now gonow (m : M A) h t t' a :
  runs now gonow m t t' (Ok a) → runs now gonow (catch m h) t t' (Ok a).
Proof.
  intros H s Hs Ha. destruct (H s Hs Ha) as (s' & E & ? & ? & ?). exists s'.
  unfold catch. by rewrite E.
Qed.

(** Both rows of the key get the expiry [x]. *)
Definition after_expire (enc : string) (x : expiry) (t : tables) : tables :=
  upd_strings (set_expires enc x) (upd_meta (set_expires enc x) t).

Lemma after_expire_frame enc x t : frame [enc] t (after_expire enc x t).
Proof.
  eapply frame_trans; [eapply frame_upd_meta|eapply frame_upd_strings];
    intros; by apply set_expires_lookup_ne.
Qed.

Lemma runs_getEx now gonow key ttl (persist : bool) t :
  let enc := encodeKey key in
  runs now gonow (getEx key ttl persist) t
    (match sel_value enc now t with
     | None => t
     | Some _ => if persist then after_expire enc None t
                 else if (0 <? ttl)%Z then after_expire enc (Some (timestamptz (gonow + ttl))) t
                 else t
     end)
    (Ok (sel_value enc now t)).
Proof.
  intros enc. unfold getEx. fold enc. step. step. fold enc.
  destruct (sel_value enc now t) as [v|]; [|finish].
  eapply runs_bind; [|apply runs_ret].
  destruct persist; [step; apply runs_exec|]. destruct (0 <? ttl)%Z; [|finish].
  step. step. apply runs_exec.
Qed.

Lemma runs_getDel now gonow key t :
  let enc := encodeKey key in
  runs now gonow (getDel key) t
    (match sel_value enc now t with
     | None => t
     | Some _ => upd_strings (delete enc) (upd_meta (delete enc) t)
     end)
    (Ok (sel_value enc now t)).
Proof.
  intros enc. unfold getDel. fold enc. step. step. fold enc.
  destruct (sel_value enc now t) as [v|]; [|finish].
  eapply runs_bind; [apply runs_catch; apply runs_exec|]. step. finish.
Qed.

Lemma runs_getSet now gonow key value t :
  let enc := encodeKey key in
  runs now gonow (getSet key value) t
    (upd_strings <[enc := (value, None)]> (upd_meta <[enc := (TypeString, None)]> t))
    (Ok (sel_value enc now t)).
Proof. intros enc. unfold getSet. step. step. step. finish. Qed.

(** The read-and-modify commands answer the value before the change and
    then do exactly their change: GETEX moves the expiry of the data row and
    of the meta row together (or removes both, or leaves them), GETDEL removes
    the key's string and meta rows so that it no longer exists, GETSET stores
    the new value without expiry. On a missing key GETEX and GETDEL change
    nothing. *)
Theorem get_and_modify now gonow key value ttl persist t :
  let enc := encodeKey key in
  let old := sel_value enc now t in
  (∃ t', run now gonow (getEx key ttl persist) t = (t', Ok old) ∧ frame [enc] t t' ∧
     match old with
     | None => t' = t
     | Some v =>
         let x := if persist then Some None
                  else if (0 <? ttl)%Z then Some (Some (timestamptz (gonow + ttl))) else None in
         kv_strings t' !! enc = Some (v, default (kept_expiry enc t) x) ∧
         kv_meta t' !! enc = (λ r, (r.1, default r.2 x)) <$> kv_meta t !! enc
     end) ∧
  (∃ t', run now gonow (getDel key) t = (t', Ok old) ∧ frame [enc] t t' ∧
     (is_Some old → meta_type enc now t' = None ∧ sel_value enc now t' = None) ∧
     (old = None → t' = t)) ∧
  (∃ t', run now gonow (getSet key value) t = (t', Ok old) ∧ frame [enc] t t' ∧
     run now gonow (get key) t' = (t', Ok (Some value)) ∧
     kv_meta t' !! enc = Some (TypeString, None)).
Proof.
  intros enc old. split; [|split].
  - eexists. split; [apply runs_run, runs_getEx|]. fold enc old. split.
    { destruct old; [|done]. destruct persist; [apply after_expire_frame|].
      destruct (0 <? ttl)%Z; [apply after_expire_frame|done]. }
    destruct old as [v|] eqn:Eold; [|done].
    assert (kv_strings t !! enc = Some (v, kept_expiry enc t)) as Hs.
    { unfold old, sel_value, live_row in Eold. unfold kept_expiry.
      destruct (kv_strings t !! enc) as [[w x]|]; [|done]. by destruct (live now x); simplify_eq. }
    destruct persist; [|destruct (0 <? ttl)%Z]; cbn; rewrite ?set_expires_lookup, ?Hs; split; try done.
    by destruct (kv_meta t !! enc) as [[??]|].
  - eexists. split; [apply runs_run, runs_getDel|]. fold enc old. split; [|split].
    + destruct old; [|done].
      eapply frame_trans; [eapply frame_upd_meta|eapply frame_upd_strings];
        intros; by apply lookup_delete_ne.
    + intros [v ->]. unfold meta_type, sel_value. cbn. by rewrite !lookup_delete_eq.
    + by intros ->.
  - eexists. split; [apply runs_run, runs_getSet|]. fold enc. split; [frames|]. split.
    + rewrite (runs_run _ _ _ _ _ _ (runs_get now gonow key _)). unfold sel_value. cbn.
      by rewrite lookup_insert_eq.
    + cbn. apply lookup_insert_eq.
Qed.

Lemma get_and_modify_witness :
  is_Some (sel_value "n" 10 db_counter) ∧
  ∃ t', run 10 0 (getDel "n") db_counter = (t', Ok (Some "41")) ∧ frame ["n"] db_counter t' ∧
     (is_Some (Some "41") → meta_type "n" 10 t' = None ∧ sel_value "n" 10 t' = None) ∧
     (Some "41" = None → t' = db_counter).
Proof.
  split; [by eexists|].
  destruct (get_and_modify 10 0 "n" "" 0 false db_counter) as (_ & H & _). exact H.
Defined.

(** APPEND extends whatever row is stored, expired or not, and answers the
    length of the result. *)
Lemma runs_appendStr now gonow key value t :
  let enc := encodeKey key in
  let new := match kv_strings t !! enc with Some (old, _) => old +:+ value | None => value end in
  runs now gonow (appendStr key value) t (after_write enc new t) (Ok (slen new)).
Proof.
  intros enc new. unfold appendStr. fold enc. step. step.
  assert (upd_strings (upsert_with enc value (λ old, old +:+ value))
            (upd_meta <[enc := (TypeString, None)]> t) = after_write enc new t) as E.
  { unfold after_write, upd_strings, upsert_value, upsert_with, new. cbn.
    by destruct (kv_strings t !! enc) as [[??]|]. }
  fold enc. rewrite E. step. rewrite after_write_string. cbn. apply runs_ret.
Qed.

End StringOps.
