(* ===== verification/StoreBits.v ===== *)
(** * Bitmap and bit-field commands: internal/storage/querier.go

    SETBIT, GETBIT, BITCOUNT, BITOP, BITPOS and BITFIELD with its overflow
    modes, over the bytes of a string. Go's [/] and [%] on [int64] truncate
    towards zero ([Z.quot], [Z.rem]); shifts and additions wrap. An index out
    of range is a run-time panic: the byte-level functions return [None] for
    it, the operations fail with [panic].

    The specification sees a byte string as the infinite sequence of bits
    [bitat], most significant bit of each byte first. *)
From stdpp Require Import gmap strings list.
From Stdlib Require Import ZArith Lia Ascii.
From S2P Require Import Prelude GoStd KeyCodec Db StoreMeta StoreStrings.
Import Db KeyCodec Meta StringOps.

Module BitOps.
Open Scope Z_scope.

(** [data[i]] *)
Definition byte_at (data : bytes) (i : Z) : option Z :=
  if i <? 0 then None else b2z <$> data !! Z.to_nat i.
(** [data[i] = b] *)
Definition put_byte (data : bytes) (i : Z) (b : Z) : bytes := <[Z.to_nat i := z2b b]> data.

(** [int64(1) << n] for [n >= 0]: the shifted-out bits are lost. *)
Definition shl1 (n : Z) : Z := wrap64 (Z.shiftl 1 n).
(** [byte(1) << n] *)
Definition shl1_byte (n : Z) : Z := Z.shiftl 1 n mod 256.

(** A loop [for cond(v) { v = body(v) }], cut off after [p] rounds. *)
Fixpoint while_ (p : positive) (cond : Z → bool) (body : Z → Z) (v : Z) : Z :=
  if cond v then
    match p with
    | xH => body v
    | xO p => while_ p cond body (while_ p cond body v)
    | xI p => while_ p cond body (while_ p cond body (body v))
    end
  else v.

(** [start], [start + 1], ..., [stop]: the indexes of [for i := start; i <= stop; i++]. *)
Definition zrange (start stop : Z) : list Z :=
  (λ k : nat, start + Z.of_nat k) <$> seq 0 (Z.to_nat (stop - start + 1)).

(** ** BITFIELD *)

Record BitFieldOp := MkBitFieldOp {
  OpType : string;
  Encoding : string;
  Offset : Z;
  OpValue : Z;
  Overflow : string
}.

Definition bitfieldBounds (bitWidth : Z) (signed : bool) : Z * Z :=
  if signed
  then (wrap64 (- shl1 (bitWidth - 1)), wrap64 (shl1 (bitWidth - 1) - 1))
  else (0, wrap64 (shl1 bitWidth - 1)).

(** The number of rounds [wrapBitfield]'s loops are given: more than any
    [int64] needs. *)
Definition wrap_rounds : positive := (2 ^ 65)%positive.

Definition wrapBitfield (v bitWidth : Z) (signed : bool) : Z :=
  if 64 <=? bitWidth then v
  else if signed then
    let max := shl1 (bitWidth - 1) in
    let min := wrap64 (- max) in
    let v := while_ wrap_rounds (λ v, max <=? v) (λ v, wrap64 (v - wrap64 (max * 2))) v in
    while_ wrap_rounds (λ v, v <? min) (λ v, wrap64 (v + wrap64 (max * 2))) v
  else
    let mask := wrap64 (shl1 bitWidth - 1) in
    Z.land v mask.

(** The second component is Go's [ok]. *)
Definition bitfieldResolveOverflow (mode : string) (high low : bool) (wrapped min max : Z) :
    Z * bool :=
  if negb high && negb low then (wrapped, true)
  else if bool_decide (mode = "SAT") then
    if high then (max, true) else (min, true)
  else if bool_decide (mode = "FAIL") then (0, false)
  else (wrapped, true).

(** One round of the loop of [getBitField]. *)
Definition getBit_step (data : bytes) (bitOffset bitWidth i result : Z) : option Z :=
  let byteIdx := Z.quot (wrap64 (bitOffset + i)) 8 in
  let bitIdx := 7 - Z.rem (wrap64 (bitOffset + i)) 8 in
  if byteIdx <? blen data then
    match byte_at data byteIdx with
    | None => None
    | Some b => if negb (Z.land b (shl1_byte bitIdx) =? 0)
                then Some (Z.lor result (shl1 (bitWidth - 1 - i)))
                else Some result
    end
  else Some result.

Fixpoint getBit_loop (data : bytes) (bitOffset bitWidth : Z) (n : nat) (i result : Z) : option Z :=
  match n with
  | O => Some result
  | S n => match getBit_step data bitOffset bitWidth i result with
           | None => None
           | Some result => getBit_loop data bitOffset bitWidth n (i + 1) result
           end
  end.

Definition getBitField (data : bytes) (bitOffset bitWidth : Z) (signed : bool) : option Z :=
  match getBit_loop data bitOffset bitWidth (Z.to_nat bitWidth) 0 0 with
  | None => None
  | Some result =>
      if (signed && (0 <? bitWidth) && negb (Z.land result (shl1 (bitWidth - 1)) =? 0))%bool
      then Some (Z.lor result (Z.lnot (wrap64 (shl1 bitWidth - 1))))
      else Some result
  end.

Definition setBit_step (bitOffset bitWidth value i : Z) (data : bytes) : option bytes :=
  let byteIdx := Z.quot (wrap64 (bitOffset + i)) 8 in
  let bitIdx := 7 - Z.rem (wrap64 (bitOffset + i)) 8 in
  if byteIdx <? blen data then
    match byte_at data byteIdx with
    | None => None
    | Some b =>
        let bitValue := Z.land (Z.shiftr value (bitWidth - 1 - i)) 1 in
        if negb (bitValue =? 0)
        then Some (put_byte data byteIdx (Z.lor b (shl1_byte bitIdx)))
        else Some (put_byte data byteIdx (Z.ldiff b (shl1_byte bitIdx)))
    end
  else Some data.

Fixpoint setBit_loop (bitOffset bitWidth value : Z) (n : nat) (i : Z) (data : bytes) : option bytes :=
  match n with
  | O => Some data
  | S n => match setBit_step bitOffset bitWidth value i data with
           | None => None
           | Some data => setBit_loop bitOffset bitWidth value n (i + 1) data
           end
  end.

(** [setBitField] updates the slice in place; the result is what it holds. *)
Definition setBitField (data : bytes) (bitOffset bitWidth value : Z) : option bytes :=
  setBit_loop bitOffset bitWidth value (Z.to_nat bitWidth) 0 data.

(** The width and signedness of an encoding such as "u8". *)
Definition parseEncoding (enc : string) : Z * bool :=
  let b := bytes_of enc in
  let signed := match b with "i"%char :: _ => true | _ => false end in
  let bitWidth := match b with
                  | _ :: (_ :: _) as rest => default 0 (Strconv.ParseInt (string_of (tl b)))
                  | _ => 0
                  end in
  let bitWidth := if (bitWidth <=? 0) || (64 <? bitWidth) then 8 else bitWidth in
  (bitWidth, signed).

(** The arithmetic of INCRBY: the new value and whether it is stored. *)
Definition incrField (mode : string) (oldValue delta bitWidth : Z) (signed : bool) : Z * bool :=
  let '(min, max) := bitfieldBounds bitWidth signed in
  let sum := wrap64 (oldValue + delta) in
  let addOverflow := ((0 <? delta) && (sum <? oldValue)) || ((delta <? 0) && (oldValue <? sum)) in
  let high := (addOverflow && (0 <? delta)) || (negb addOverflow && (max <? sum)) in
  let low := (addOverflow && (delta <? 0)) || (negb addOverflow && (sum <? min)) in
  bitfieldResolveOverflow mode high low (wrapBitfield sum bitWidth signed) min max.

Definition setField (mode : string) (v bitWidth : Z) (signed : bool) : Z * bool :=
  let '(min, max) := bitfieldBounds bitWidth signed in
  bitfieldResolveOverflow mode (max <? v) (v <? min) v min max.

(** [make([]byte, n); copy(new, value)] when the value is shorter. *)
Definition grow (value : bytes) (n : Z) : bytes :=
  if blen value <? n then copy_at 0 value (zeros (Z.to_nat n)) else value.

(** One iteration of [bitField]'s loop: the buffer, the answers so far ([None]
    is a nil answer) and [modified]. *)
Definition bitField_step (op : BitFieldOp) (acc : bytes * list (option Z) * bool) :
    option (bytes * list (option Z) * bool) :=
  let '(value, results, modified) := acc in
  let '(bitWidth, signed) := parseEncoding (Encoding op) in
  let bitOffset := Offset op in
  let byteOffset := Z.quot bitOffset 8 in
  let bitInByte := Z.rem bitOffset 8 in
  let neededBytes := byteOffset + Z.quot (bitWidth + bitInByte + 7) 8 in
  let value := grow value neededBytes in
  if bool_decide (OpType op = "GET") then
    match getBitField value bitOffset bitWidth signed with
    | None => None
    | Some v => Some (value, results ++ [Some v], modified)
    end
  else if bool_decide (OpType op = "SET") then
    match getBitField value bitOffset bitWidth signed with
    | None => None
    | Some oldValue =>
        match setField (Overflow op) (OpValue op) bitWidth signed with
        | (_, false) => Some (value, results ++ [None], modified)
        | (stored, true) =>
            match setBitField value bitOffset bitWidth stored with
            | None => None
            | Some value => Some (value, results ++ [Some oldValue], true)
            end
        end
    end
  else if bool_decide (OpType op = "INCRBY") then
    match getBitField value bitOffset bitWidth signed with
    | None => None
    | Some oldValue =>
        match incrField (Overflow op) oldValue (OpValue op) bitWidth signed with
        | (_, false) => Some (value, results ++ [None], modified)
        | (newValue, true) =>
            match setBitField value bitOffset bitWidth newValue with
            | None => None
            | Some value => Some (value, results ++ [Some newValue], true)
            end
        end
    end
  else Some (value, results, modified).

Fixpoint bitField_ops (ops : list BitFieldOp) (acc : bytes * list (option Z) * bool) :
    option (bytes * list (option Z) * bool) :=
  match ops with
  | [] => Some acc
  | op :: ops => match bitField_step op acc with
                 | None => None
                 | Some acc => bitField_ops ops acc
                 end
  end.

Definition index_panic : goerror := panic "index out of range".

Definition bitField (key : string) (ops : list BitFieldOp) : M (list (option Z)) :=
  let key := encodeKey key in
  row ← query (sel_value key);
  let isNewKey := match row with None => true | Some _ => false end in
  let value := bytes_of (default "" row) in
  match bitField_ops ops (value, [], false) with
  | None => throw index_panic
  | Some (value, results, modified) =>
      (if modified : bool then
         (if isNewKey : bool then setMeta key TypeString None else lockKey key);;
         exec (λ _, upd_strings (upsert_value key (string_of value)))
       else mret tt);;
      mret results
  end.

(** ** SETBIT, GETBIT *)

Definition setBit (key : string) (offset value : Z) : M Z :=
  let key := encodeKey key in
  row ← query (sel_value key);
  let data := bytes_of (default "" row) in
  let byteOffset := Z.quot offset 8 in
  let data := if blen data <=? byteOffset
              then copy_at 0 data (zeros (Z.to_nat (byteOffset + 1))) else data in
  let bitOffset := 7 - Z.rem offset 8 in
  match byte_at data byteOffset with
  | None => throw index_panic
  | Some b =>
      let oldBit := Z.land (Z.shiftr b bitOffset) 1 in
      let data := if value =? 1
                  then put_byte data byteOffset (Z.lor b (shl1_byte bitOffset))
                  else put_byte data byteOffset (Z.ldiff b (shl1_byte bitOffset)) in
      setMeta key TypeString None;;
      exec (λ _, upd_strings (upsert_value key (string_of data)));;
      mret oldBit
  end.

Definition getBit (key : string) (offset : Z) : M Z :=
  let key := encodeKey key in
  row ← query (sel_value key);
  match row with
  | None => mret 0
  | Some v =>
      let data := bytes_of v in
      let byteOffset := Z.quot offset 8 in
      if blen data <=? byteOffset then mret 0
      else match byte_at data byteOffset with
           | None => throw index_panic
           | Some b => mret (Z.land (Z.shiftr b (7 - Z.rem offset 8)) 1)
           end
  end.

(** ** Bits *)

Definition bitat (data : bytes) (i : Z) : bool :=
  match byte_at data (i / 8) with
  | Some b => Z.testbit b (7 - i mod 8)
  | None => false
  end.

Lemma land_pow2 a n : 0 <= n → (Z.land a (2 ^ n) =? 0) = negb (Z.testbit a n).
Proof.
  intros Hn. destruct (Z.testbit a n) eqn:E; cbn.
  - apply Z.eqb_neq. intros H. apply (f_equal (λ z, Z.testbit z n)) in H.
    rewrite Z.land_spec, Z.pow2_bits_true, Z.bits_0, E in H by lia. done.
  - apply Z.eqb_eq, Z.bits_inj'. intros j Hj. rewrite Z.land_spec, Z.bits_0, Z.pow2_bits_eqb by lia.
    destruct (Z.eqb_spec n j) as [->|]; [by rewrite E|by rewrite andb_false_r].
Qed.

Lemma shl1_byte_pow n : 0 <= n <= 7 → shl1_byte n = 2 ^ n.
Proof.
  intros. unfold shl1_byte. rewrite Z.shiftl_1_l, Z.mod_small; [done|].
  pose proof (Z.pow_le_mono_r 2 n 7). lia.
Qed.

Lemma byte_at_range data i b : byte_at data i = Some b → 0 <= b < 256.
Proof.
  unfold byte_at. case_if; [done|]. destruct (data !! _) as [c|]; [|done].
  intros [= <-]. apply b2z_range.
Qed.

Lemma byte_at_Some data i : 0 <= i < blen data → is_Some (byte_at data i).
Proof.
  intros [H0 H1]. unfold byte_at. rewrite (proj2 (Z.ltb_ge _ _)) by lia.
  rewrite fmap_is_Some. apply lookup_lt_is_Some. unfold blen in H1. lia.
Qed.

Lemma byte_at_None data i : 0 <= i → blen data <= i → byte_at data i = None.
Proof.
  intros H0 H1. unfold byte_at. rewrite (proj2 (Z.ltb_ge _ _)) by lia.
  rewrite fmap_None. apply lookup_ge_None. unfold blen in H1. lia.
Qed.

Lemma put_byte_length data i b : blen (put_byte data i b) = blen data.
Proof. unfold blen, put_byte. by rewrite length_insert. Qed.

Lemma byte_at_put data i b j :
  0 <= i < blen data → 0 <= b < 256 →
  byte_at (put_byte data i b) j = if j =? i then Some b else byte_at data j.
Proof.
  intros Hi Hb. unfold byte_at, put_byte. case_if; zify_bool.
  - by rewrite (proj2 (Z.eqb_neq _ _)) by lia.
  - destruct (Z.eqb_spec j i) as [->|Hne].
    + rewrite list_lookup_insert_eq by (unfold blen in Hi; lia). cbn.
      by rewrite b2z_z2b, Z.mod_small.
    + rewrite list_lookup_insert_ne by lia. done.
Qed.

(** Setting and clearing one bit of a byte. *)
Lemma byte_set_range b n : 0 <= b < 256 → 0 <= n <= 7 →
  0 <= Z.lor b (2 ^ n) < 256 ∧ 0 <= Z.ldiff b (2 ^ n) < 256.
Proof.
  intros Hb Hn. pose proof (Z.pow_le_mono_r 2 n 7). pose proof (Z.pow_pos_nonneg 2 n).
  assert (∀ x, 0 <= x → (∀ j, 8 <= j → Z.testbit x j = false) → 0 <= x < 256) as Hlt.
  { intros x Hx Hbits. split; [done|]. destruct (Z.eq_dec x 0) as [->|]; [lia|].
    change 256 with (2 ^ 8). apply Z.log2_lt_pow2; [lia|].
    destruct (Z.lt_ge_cases (Z.log2 x) 8) as [|Hge]; [done|].
    specialize (Hbits _ Hge). rewrite Z.bit_log2 in Hbits by lia. done. }
  assert (∀ j, 8 <= j → Z.testbit b j = false) as Hb8.
  { intros j Hj. destruct (Z.eq_dec b 0) as [->|]; [apply Z.bits_0|].
    apply Z.bits_above_log2; [lia|]. apply Z.log2_lt_pow2; [lia|].
    pose proof (Z.pow_le_mono_r 2 8 j). lia. }
  split; apply Hlt.
  - apply Z.lor_nonneg. lia.
  - intros j Hj. rewrite Z.lor_spec, Hb8, Z.pow2_bits_eqb by lia. cbn. apply Z.eqb_neq. lia.
  - apply Z.ldiff_nonneg. lia.
  - intros j Hj. by rewrite Z.ldiff_spec, Hb8.
Qed.

(** Replacing one bit of the buffer. *)
Lemma bitat_put data p b (v : bool) b' q :
  0 <= p → byte_at data (p / 8) = Some b → p / 8 < blen data →
  b' = (if v then Z.lor b (2 ^ (7 - p mod 8)) else Z.ldiff b (2 ^ (7 - p mod 8))) →
  bitat (put_byte data (p / 8) b') q = if q =? p then v else bitat data q.
Proof.
  intros Hp Hb Hl ->. pose proof (byte_at_range _ _ _ Hb) as Hr.
  pose proof (Z.mod_pos_bound p 8 ltac:(lia)) as Hm. pose proof (Z.mod_pos_bound q 8 ltac:(lia)) as Hmq.
  pose proof (Z.div_mod p 8 ltac:(lia)) as Ep. pose proof (Z.div_mod q 8 ltac:(lia)) as Eq.
  destruct (byte_set_range b (7 - p mod 8) Hr ltac:(lia)) as [H1 H2].
  assert (0 <= p / 8) by (apply Z.div_pos; lia).
  unfold bitat. rewrite byte_at_put; [|lia|by destruct v].
  destruct (Z.eqb_spec (q / 8) (p / 8)) as [E8|E8].
  - rewrite E8, Hb. destruct v; rewrite ?Z.lor_spec, ?Z.ldiff_spec, Z.pow2_bits_eqb by lia;
      destruct (Z.eqb_spec q p) as [->|Hne].
    + by rewrite Z.eqb_refl, orb_true_r.
    + rewrite (proj2 (Z.eqb_neq _ _)) by lia. apply orb_false_r.
    + by rewrite Z.eqb_refl, andb_false_r.
    + rewrite (proj2 (Z.eqb_neq _ _)) by lia. apply andb_true_r.
  - destruct (Z.eqb_spec q p) as [->|]; [done|done].
Qed.

(** [int64] shifts, at every bit position. *)
Lemma shl1_testbit n j : 0 <= n <= 63 → 0 <= j → Z.testbit (shl1 n) j = (n =? Z.min j 63).
Proof.
  intros Hn Hj. unfold shl1. rewrite Z.shiftl_1_l. destruct (Z.eq_dec n 63) as [->|].
  - change (wrap64 (2 ^ 63)) with (- 2 ^ 63). destruct (Z.lt_ge_cases j 63).
    + rewrite Z.min_l, (proj2 (Z.eqb_neq _ _)) by lia.
      rewrite <-(Z.mod_pow2_bits_low _ 63 j) by lia. apply Z.bits_0.
    + rewrite Z.min_r, Z.eqb_refl by lia. replace (- 2 ^ 63) with (- 1 * 2 ^ 63) by lia.
      rewrite Z.mul_pow2_bits by lia. apply Z.bits_m1. lia.
  - rewrite wrap64_id.
    + rewrite Z.pow2_bits_eqb by lia. destruct (Z.eqb_spec n j), (Z.eqb_spec n (Z.min j 63)); lia.
    + unfold int64. pose proof (Z.pow_le_mono_r 2 n 62). pose proof (Z.pow_pos_nonneg 2 n). lia.
Qed.

(** ** Reading and writing a field *)

Lemma getBit_step_spec data off w i r :
  0 <= off + i < 2 ^ 63 →
  getBit_step data off w i r = Some (if bitat data (off + i) then Z.lor r (shl1 (w - 1 - i)) else r).
Proof.
  intros H. unfold getBit_step. rewrite wrap64_id by (unfold int64; lia).
  rewrite Z.quot_div_nonneg, Z.rem_mod_nonneg by lia. unfold bitat.
  pose proof (Z.mod_pos_bound (off + i) 8 ltac:(lia)).
  assert (0 <= (off + i) / 8) by (apply Z.div_pos; lia).
  destruct (Z.ltb_spec ((off + i) / 8) (blen data)).
  - destruct (byte_at_Some data ((off + i) / 8)) as [b ->]; [lia|].
    rewrite shl1_byte_pow, land_pow2, negb_involutive by lia. by case_if.
  - by rewrite byte_at_None by lia.
Qed.

Lemma getBit_loop_spec data off w n i r :
  0 <= off → 0 <= i → i + Z.of_nat n <= w → w <= 64 → off + w < 2 ^ 63 →
  ∃ r', getBit_loop data off w n i r = Some r' ∧
    ∀ j, 0 <= j → Z.testbit r' j =
      Z.testbit r j || ((w - i - Z.of_nat n <=? Z.min j 63) && (Z.min j 63 <? w - i)
                        && bitat data (off + w - 1 - Z.min j 63)).
Proof.
  revert i r. induction n as [|n IH]; intros i r Ho Hi Hn Hw Hb; cbn [getBit_loop].
  { exists r. split; [done|]. intros j Hj.
    destruct (Z.leb_spec (w - i - Z.of_nat 0) (Z.min j 63)), (Z.ltb_spec (Z.min j 63) (w - i));
      cbn; rewrite ?orb_false_r; lia || done. }
  rewrite getBit_step_spec by lia.
  set (r1 := if bitat data (off + i) then _ else _).
  destruct (IH (i + 1) r1) as (r' & E & Hr'); [lia..|]. exists r'. split; [done|].
  intros j Hj. rewrite Hr' by done.
  assert (Z.testbit r1 j = Z.testbit r j || ((w - 1 - i =? Z.min j 63) && bitat data (off + i))) as ->.
  { unfold r1. destruct (bitat data (off + i)); cbn.
    - rewrite Z.lor_spec, shl1_testbit by lia. by rewrite andb_true_r.
    - by rewrite andb_false_r, orb_false_r. }
  rewrite <-orb_assoc. f_equal.
  destruct (Z.eqb_spec (w - 1 - i) (Z.min j 63)) as [Ej|Ej]; cbn.
  - rewrite <-Ej. replace (off + w - 1 - (w - 1 - i)) with (off + i) by lia.
    rewrite (proj2 (Z.ltb_ge _ _)), andb_false_r by lia. cbn. rewrite orb_false_r.
    rewrite (proj2 (Z.leb_le _ _)), (proj2 (Z.ltb_lt _ _)) by lia. done.
  - f_equal. replace (w - (i + 1) - Z.of_nat n) with (w - i - Z.of_nat (S n)) by lia.
    destruct (Z.leb_spec (w - i - Z.of_nat (S n)) (Z.min j 63)); [|done]. cbn.
    destruct (Z.ltb_spec (Z.min j 63) (w - (i + 1))), (Z.ltb_spec (Z.min j 63) (w - i)); lia || done.
Qed.

(** The number whose two's complement bits are the [w] bits of [data] from
    [off] on; [sg] tells whether the first one is a sign. *)
Definition is_field (data : bytes) (off w : Z) (sg : bool) (v : Z) : Prop :=
  ∀ j, 0 <= j → Z.testbit v j = if j <? w then bitat data (off + w - 1 - j) else sg && bitat data off.

Lemma is_field_unique data off w sg v v' :
  is_field data off w sg v → is_field data off w sg v' → v = v'.
Proof. intros H H'. apply Z.bits_inj'. intros j Hj. by rewrite H, H'. Qed.

Lemma ones_testbit w j : 1 <= w <= 64 → 0 <= j →
  Z.testbit (Z.lnot (wrap64 (shl1 w - 1))) j = (w <=? j) && (w <? 64).
Proof.
  intros Hw Hj. rewrite Z.lnot_spec by done. destruct (Z.eq_dec w 64) as [->|].
  - change (wrap64 (shl1 64 - 1)) with (-1). rewrite Z.bits_m1 by done. by rewrite andb_false_r.
  - rewrite (proj2 (Z.ltb_lt w 64)), andb_true_r by lia.
    assert (wrap64 (shl1 w - 1) = Z.ones w) as ->.
    { unfold shl1. rewrite Z.shiftl_1_l, Z.ones_equiv. destruct (Z.eq_dec w 63) as [->|]; [done|].
      pose proof (Z.pow_le_mono_r 2 w 62). pose proof (Z.pow_pos_nonneg 2 w).
      rewrite (wrap64_id (2 ^ w)) by (unfold int64; lia). rewrite wrap64_id by (unfold int64; lia). lia. }
    destruct (Z.leb_spec w j); [rewrite Z.ones_spec_high by lia|rewrite Z.ones_spec_low by lia]; done.
Qed.

Lemma getBitField_spec data off w signed :
  0 <= off → 1 <= w <= 64 → off + w < 2 ^ 63 →
  ∃ v, getBitField data off w signed = Some v ∧ is_field data off w (signed || (w =? 64)) v.
Proof.
  intros Ho Hw Hb. unfold getBitField.
  destruct (getBit_loop_spec data off w (Z.to_nat w) 0 0) as (r & -> & Hr); [lia..|].
  assert (∀ j, 0 <= j → Z.testbit r j = (Z.min j 63 <? w) && bitat data (off + w - 1 - Z.min j 63)) as Hr'.
  { intros j Hj. rewrite Hr, Z.bits_0 by done. cbn. rewrite (proj2 (Z.leb_le _ _)) by lia.
    by rewrite Z.sub_0_r. }
  assert (is_field data off w (w =? 64) r) as Hf.
  { intros j Hj. rewrite Hr' by done. destruct (Z.ltb_spec j w).
    - rewrite (proj2 (Z.ltb_lt _ _)) by lia. cbn. f_equal. lia.
    - destruct (Z.eqb_spec w 64) as [->|].
      + rewrite Z.min_r by lia. cbn. f_equal. lia.
      + rewrite (proj2 (Z.ltb_ge _ _)) by lia. done. }
  assert (Z.testbit r (w - 1) = bitat data off) as Hsign.
  { rewrite Hf by lia. rewrite (proj2 (Z.ltb_lt _ _)) by lia. f_equal. lia. }
  assert (negb (Z.land r (shl1 (w - 1)) =? 0) = bitat data off) as ->.
  { destruct (Z.eq_dec w 64) as [->|].
    - change (shl1 (64 - 1)) with (- 2 ^ 63). destruct (bitat data off) eqn:Eb.
      + apply negb_true_iff, Z.eqb_neq. intros H.
        apply (f_equal (λ z, Z.testbit z 63)) in H. rewrite Z.land_spec, Z.bits_0 in H.
        change (64 - 1) with 63 in Hsign. by rewrite Hsign in H.
      + apply negb_false_iff, Z.eqb_eq, Z.bits_inj'. intros j Hj.
        rewrite Z.land_spec, Z.bits_0. change (- 2 ^ 63) with (shl1 63).
        rewrite shl1_testbit, Hr' by lia. destruct (Z.eqb_spec 63 (Z.min j 63)) as [<-|];
          [|by rewrite andb_false_r]. cbn. change (off + 64 - 1 - 63) with (off + 64 - 1 - 63).
        replace (off + 64 - 1 - 63) with off by lia. by rewrite Eb.
    - assert (shl1 (w - 1) = 2 ^ (w - 1)) as ->.
      { unfold shl1. rewrite Z.shiftl_1_l. apply wrap64_id. unfold int64.
        pose proof (Z.pow_le_mono_r 2 (w - 1) 62). pose proof (Z.pow_pos_nonneg 2 (w - 1)). lia. }
      by rewrite land_pow2, negb_involutive, Hsign by lia. }
  rewrite (proj2 (Z.ltb_lt 0 w)), andb_true_r by lia.
  destruct (signed && bitat data off) eqn:Es; eexists; (split; [done|]); intros j Hj.
  - apply andb_true_iff in Es as [-> Hb0]. rewrite Z.lor_spec, ones_testbit, Hf, Hb0 by lia.
    rewrite (orb_true_l (w =? 64)), andb_true_l, andb_true_r. destruct (Z.ltb_spec j w).
    + rewrite (proj2 (Z.leb_gt _ _)) by lia. apply orb_false_r.
    + rewrite (proj2 (Z.leb_le _ _)) by lia.
      destruct (Z.eqb_spec w 64), (Z.ltb_spec w 64); try lia; done.
  - rewrite Hf by done. destruct (Z.ltb_spec j w); [done|].
    destruct signed, (bitat data off); done || by rewrite !andb_false_r.
Qed.

Lemma bit_of_value v n : 0 <= n → negb (Z.land (Z.shiftr v n) 1 =? 0) = Z.testbit v n.
Proof.
  intros Hn. change 1 with (2 ^ 0). by rewrite land_pow2, negb_involutive, Z.shiftr_spec, Z.add_0_l by lia.
Qed.

Lemma setBit_step_spec off w value i data :
  0 <= i < w → 0 <= off + i < 8 * blen data → off + i < 2 ^ 63 →
  ∃ data', setBit_step off w value i data = Some data' ∧ blen data' = blen data ∧
    ∀ q, bitat data' q = if q =? off + i then Z.testbit value (w - 1 - i) else bitat data q.
Proof.
  intros Hi H Hb. unfold setBit_step. rewrite wrap64_id by (unfold int64; lia).
  rewrite Z.quot_div_nonneg, Z.rem_mod_nonneg by lia.
  pose proof (Z.mod_pos_bound (off + i) 8 ltac:(lia)).
  pose proof (Z.div_mod (off + i) 8 ltac:(lia)).
  assert (0 <= (off + i) / 8) by (apply Z.div_pos; lia).
  rewrite (proj2 (Z.ltb_lt _ _)) by lia.
  destruct (byte_at_Some data ((off + i) / 8)) as [b Eb]; [lia|]. rewrite Eb.
  rewrite bit_of_value, shl1_byte_pow by lia.
  destruct (Z.testbit value (w - 1 - i)) eqn:Ev; eexists;
    (split; [done|]); (split; [apply put_byte_length|]); intros q.
  - apply (bitat_put data (off + i) b true); [lia|done|lia|done].
  - apply (bitat_put data (off + i) b false); [lia|done|lia|done].
Qed.

Lemma setBit_loop_spec off w value n i data :
  0 <= off → 0 <= i → i + Z.of_nat n <= w → off + w <= 8 * blen data → off + w < 2 ^ 63 →
  ∃ data', setBit_loop off w value n i data = Some data' ∧ blen data' = blen data ∧
    ∀ q, bitat data' q =
      if (off + i <=? q) && (q <? off + i + Z.of_nat n)
      then Z.testbit value (off + w - 1 - q) else bitat data q.
Proof.
  revert i data. induction n as [|n IH]; intros i data Ho Hi Hn Hl Hb; cbn [setBit_loop].
  { exists data. split_and!; [done|done|]. intros q.
    destruct (Z.leb_spec (off + i) q), (Z.ltb_spec q (off + i + Z.of_nat 0)); cbn; done || lia. }
  destruct (setBit_step_spec off w value i data) as (d1 & -> & Hl1 & H1); [lia..|].
  destruct (IH (i + 1) d1) as (d2 & -> & Hl2 & H2); [lia..|].
  exists d2. split_and!; [done|lia|]. intros q. rewrite H2, H1.
  destruct (Z.eqb_spec q (off + i)) as [->|].
  - rewrite (proj2 (Z.leb_gt _ _)), (proj2 (Z.leb_le _ _)), !(proj2 (Z.ltb_lt _ _)) by lia.
    cbn [andb]. f_equal. lia.
  - destruct (Z.leb_spec (off + (i + 1)) q), (Z.leb_spec (off + i) q),
      (Z.ltb_spec q (off + (i + 1) + Z.of_nat n)), (Z.ltb_spec q (off + i + Z.of_nat (S n)));
      cbn; done || lia.
Qed.

Lemma setBitField_spec data off w value :
  0 <= off → 0 <= w → off + w <= 8 * blen data → off + w < 2 ^ 63 →
  ∃ data', setBitField data off w value = Some data' ∧ blen data' = blen data ∧
    ∀ q, bitat data' q =
      if (off <=? q) && (q <? off + w) then Z.testbit value (off + w - 1 - q) else bitat data q.
Proof.
  intros. destruct (setBit_loop_spec off w value (Z.to_nat w) 0 data) as (d & E & Hl & Hd); [lia..|].
  exists d. split_and!; [done|done|]. intros q. rewrite Hd, Z.add_0_r.
  by replace (Z.of_nat (Z.to_nat w)) with w by lia.
Qed.

(** ** Wrapping *)

(** A loop that adds [-step] while its value is at least [bound]. *)
Lemma while_sub p bound step body v :
  0 < step → (∀ x, bound <= x <= v → body x = x - step) →
  ∃ k, 0 <= k <= Zpos p ∧ while_ p (λ x, bound <=? x) body v = v - k * step ∧
       (∀ k', 0 <= k' < k → bound <= v - k' * step) ∧ (k < Zpos p → v - k * step < bound).
Proof.
  intros Hs. revert v. induction p as [p IH|p IH|]; intros v Hbody; cbn [while_];
    (destruct (Z.leb_spec bound v);
      [|exists 0; split_and!; [lia|lia|lia|intros; lia|intros; lia]]).
  - rewrite Hbody by lia.
    destruct (IH (v - step)) as (k1 & Hk1 & E1 & L1 & S1); [intros; apply Hbody; lia|].
    rewrite E1. destruct (IH (v - step - k1 * step)) as (k2 & Hk2 & E2 & L2 & S2).
    { intros. apply Hbody. nia. }
    exists (1 + k1 + k2). rewrite E2. split_and!; [lia|lia|lia| |].
    + intros k' Hk'. destruct (Z.lt_ge_cases k' 1); [replace k' with 0 by lia; lia|].
      destruct (Z.lt_ge_cases (k' - 1) k1) as [Hlt|Hge].
      * specialize (L1 (k' - 1) ltac:(lia)). lia.
      * specialize (L2 (k' - 1 - k1) ltac:(lia)). lia.
    + intros Hk. destruct (Z.lt_ge_cases k2 (Zpos p)) as [Hlt|Hge]; [specialize (S2 Hlt); lia|].
      destruct (Z.lt_ge_cases k1 (Zpos p)) as [Hlt1|]; [|lia]. specialize (S1 Hlt1).
      destruct (Z.lt_ge_cases 0 k2); [|lia]. specialize (L2 0 ltac:(lia)). lia.
  - destruct (IH v) as (k1 & Hk1 & E1 & L1 & S1); [done|].
    rewrite E1. destruct (IH (v - k1 * step)) as (k2 & Hk2 & E2 & L2 & S2).
    { intros. apply Hbody. nia. }
    exists (k1 + k2). rewrite E2. split_and!; [lia|lia|lia| |].
    + intros k' Hk'. destruct (Z.lt_ge_cases k' k1) as [Hlt|Hge].
      * apply L1. lia.
      * specialize (L2 (k' - k1) ltac:(lia)). lia.
    + intros Hk. destruct (Z.lt_ge_cases k2 (Zpos p)) as [Hlt|Hge]; [specialize (S2 Hlt); lia|].
      destruct (Z.lt_ge_cases k1 (Zpos p)) as [Hlt1|]; [|lia]. specialize (S1 Hlt1).
      destruct (Z.lt_ge_cases 0 k2); [|lia]. specialize (L2 0 ltac:(lia)). lia.
  - exists 1. rewrite Hbody by lia. split_and!; [lia|lia|lia| |lia].
    intros k' Hk'. replace k' with 0 by lia. lia.
Qed.

(** The same loop upwards, by symmetry. *)
Lemma while_add p bound step body v :
  0 < step → (∀ x, v <= x < bound → body x = x + step) →
  ∃ k, 0 <= k <= Zpos p ∧ while_ p (λ x, x <? bound) body v = v + k * step ∧
       (∀ k', 0 <= k' < k → v + k' * step < bound) ∧ (k < Zpos p → bound <= v + k * step).
Proof.
  intros Hs Hbody.
  assert (∀ p x, while_ p (λ x, x <? bound) body x
                 = - while_ p (λ y, 1 - bound <=? y) (λ y, - body (- y)) (- x)) as Hneg.
  { clear. induction p as [p IH|p IH|]; intros x; cbn [while_];
      destruct (Z.ltb_spec x bound), (Z.leb_spec (1 - bound) (- x)); try lia;
      rewrite ?IH, ?Z.opp_involutive; done. }
  rewrite Hneg.
  destruct (while_sub p (1 - bound) step (λ y, - body (- y)) (- v) Hs) as (k & Hk & E & L & S).
  { intros x Hx. rewrite Hbody; lia. }
  exists k. rewrite E. split_and!; [lia|lia|lia| |].
  - intros k' Hk'. specialize (L k' Hk'). lia.
  - intros Hlt. specialize (S Hlt). lia.
Qed.

(** The range of a [w]-bit encoding. *)
Definition field_min (w : Z) (signed : bool) : Z := if signed then - 2 ^ (w - 1) else 0.
Definition field_max (w : Z) (signed : bool) : Z := if signed then 2 ^ (w - 1) - 1 else 2 ^ w - 1.
(** The encodings Redis has: i1..i64 and u1..u63. *)
Definition encoding_ok (w : Z) (signed : bool) : Prop := 1 <= w <= (if signed then 64 else 63).

Lemma pow2_63 w : 0 <= w <= 62 → 1 <= 2 ^ w <= 2 ^ 62.
Proof. intros. pose proof (Z.pow_le_mono_r 2 w 62). pose proof (Z.pow_pos_nonneg 2 w). lia. Qed.

Lemma shl1_pow w : 0 <= w <= 62 → shl1 w = 2 ^ w.
Proof.
  intros H. unfold shl1. rewrite Z.shiftl_1_l. apply wrap64_id. pose proof (pow2_63 w H).
  unfold int64. lia.
Qed.

Lemma bitfieldBounds_spec w signed :
  encoding_ok w signed → bitfieldBounds w signed = (field_min w signed, field_max w signed).
Proof.
  unfold encoding_ok, bitfieldBounds, field_min, field_max. intros Hw. destruct signed.
  - destruct (Z.eq_dec w 64) as [->|]; [done|]. rewrite shl1_pow by lia.
    pose proof (pow2_63 (w - 1) ltac:(lia)). f_equal; apply wrap64_id; unfold int64; lia.
  - destruct (Z.eq_dec w 63) as [->|]; [done|]. rewrite shl1_pow by lia.
    pose proof (pow2_63 w ltac:(lia)). f_equal. apply wrap64_id. unfold int64. lia.
Qed.

Lemma wrapBitfield_spec v w signed :
  int64 v → encoding_ok w signed →
  field_min w signed <= wrapBitfield v w signed <= field_max w signed ∧
  ∃ k, wrapBitfield v w signed = v + k * 2 ^ w.
Proof.
  unfold int64, encoding_ok, wrapBitfield, field_min, field_max. intros Hv Hw.
  destruct (Z.leb_spec 64 w) as [H64|H64].
  { destruct signed; [|lia]. replace w with 64 by lia. split; [lia|]. exists 0. lia. }
  destruct signed.
  - rewrite shl1_pow by lia. pose proof (pow2_63 (w - 1) ltac:(lia)) as Hm.
    assert (2 ^ w = 2 * 2 ^ (w - 1)) as E2 by (rewrite <-Z.pow_succ_r by lia; f_equal; lia).
    set (max := 2 ^ (w - 1)) in *. rewrite (wrap64_id (- max)) by (unfold int64; lia).
    assert (∀ x, wrap64 (x - wrap64 (max * 2)) = wrap64 (x - 2 * max)
                 ∧ wrap64 (x + wrap64 (max * 2)) = wrap64 (x + 2 * max)) as Hw2.
    { intros x. split; apply wrap64_eq_mod.
      - rewrite Zminus_mod, wrap64_mod, <-Zminus_mod. f_equal. lia.
      - rewrite Z.add_mod, wrap64_mod, <-Z.add_mod by lia. f_equal. lia. }
    destruct (while_sub wrap_rounds max (2 * max) (λ v, wrap64 (v - wrap64 (max * 2))) v)
      as (k1 & Hk1 & E1 & L1 & S1); [lia| |].
    { intros x Hx. cbn beta. rewrite (proj1 (Hw2 x)). apply wrap64_id. unfold int64. lia. }
    rewrite E1. change (Zpos wrap_rounds) with (2 ^ 65) in *.
    assert (k1 < 2 ^ 65) as Hk1'.
    { destruct (Z.lt_ge_cases k1 (2 ^ 65)); [done|]. specialize (L1 (2 ^ 65 - 1) ltac:(lia)). nia. }
    specialize (S1 Hk1').
    assert (- max <= v - k1 * (2 * max) ∨ k1 = 0) as Hlow.
    { destruct (Z.eq_dec k1 0); [by right|]. left. specialize (L1 (k1 - 1) ltac:(lia)). lia. }
    set (v1 := v - k1 * (2 * max)) in *.
    destruct (while_add wrap_rounds (- max) (2 * max) (λ v, wrap64 (v + wrap64 (max * 2))) v1)
      as (k2 & Hk2 & E3 & L2 & S2); [lia| |].
    { intros x Hx. cbn beta. rewrite (proj2 (Hw2 x)). apply wrap64_id. unfold int64.
      destruct Hlow as [?|Hz]; [lia|]. unfold v1 in *. rewrite Hz in *. lia. }
    rewrite E3. change (Zpos wrap_rounds) with (2 ^ 65) in *.
    assert (- 2 ^ 63 <= v1) as Hv1.
    { destruct Hlow as [?|Hz]; [lia|]. unfold v1. rewrite Hz. lia. }
    assert (k2 < 2 ^ 65) as Hk2'.
    { destruct (Z.lt_ge_cases k2 (2 ^ 65)); [done|]. specialize (L2 (2 ^ 65 - 1) ltac:(lia)). nia. }
    specialize (S2 Hk2').
    assert (k2 = 0 ∨ v1 + k2 * (2 * max) < max) as Hup.
    { destruct (Z.eq_dec k2 0); [by left|]. right. specialize (L2 (k2 - 1) ltac:(lia)). lia. }
    split; [destruct Hup as [Hz|]; [rewrite Hz in *|]; lia|].
    exists (k2 - k1). unfold v1. lia.
  - assert (wrap64 (shl1 w - 1) = Z.ones w) as ->.
    { rewrite Z.ones_equiv. destruct (Z.eq_dec w 63) as [->|]; [done|]. rewrite shl1_pow by lia.
      pose proof (pow2_63 w ltac:(lia)). rewrite wrap64_id; [lia|]. unfold int64. lia. }
    rewrite Z.land_ones by lia. pose proof (Z.mod_pos_bound v (2 ^ w)) as Hp.
    pose proof (Z.pow_pos_nonneg 2 w). split; [lia|].
    exists (- (v / 2 ^ w)). rewrite Z.mod_eq by lia. lia.
Qed.

(** A number in the signed or unsigned [w]-bit range, bit by bit. *)
Lemma field_bits r w signed v k :
  1 <= w → field_min w signed <= r <= field_max w signed → r = v + k * 2 ^ w →
  ∀ j, 0 <= j → Z.testbit r j = if j <? w then Z.testbit v j else signed && Z.testbit v (w - 1).
Proof.
  intros Hw Hr E j Hj.
  assert (∀ i, 0 <= i < w → Z.testbit r i = Z.testbit v i) as Hlow.
  { intros i Hi. rewrite <-(Z.mod_pow2_bits_low r w), <-(Z.mod_pow2_bits_low v w) by lia.
    rewrite E, Z.mod_add; [done|]. pose proof (Z.pow_pos_nonneg 2 w). lia. }
  destruct (Z.ltb_spec j w) as [|Hj']; [by apply Hlow|].
  unfold field_min, field_max in Hr. destruct signed; cbn [andb].
  - rewrite <-Hlow by lia. assert (2 ^ (w - 1) > 0) by (pose proof (Z.pow_pos_nonneg 2 (w - 1)); lia).
    assert (∀ i, w - 1 <= i → Z.testbit r i = (r <? 0)) as Hs.
    { intros i Hi. pose proof (Z.pow_le_mono_r 2 (w - 1) i ltac:(lia) ltac:(lia)).
      rewrite Z.testbit_odd, Z.shiftr_div_pow2 by lia. destruct (Z.ltb_spec r 0).
      - assert (r / 2 ^ i = -1) as -> by (symmetry; apply (Z.div_unique_pos _ _ _ (r + 2 ^ i)); lia). done.
      - rewrite Z.div_small by lia. done. }
    by rewrite !Hs by lia.
  - pose proof (Z.pow_le_mono_r 2 w j ltac:(lia) ltac:(lia)).
    destruct (Z.eq_dec r 0) as [->|]; [apply Z.bits_0|].
    apply Z.bits_above_log2; [lia|]. apply Z.log2_lt_pow2; lia.
Qed.

(** BITFIELD SET and GET agree: writing any [int64] into a field that
    lies inside the buffer changes the field's bits and no others, and reading
    it back gives the value reduced to the encoding's range by
    [wrapBitfield], at every width and bit offset, aligned or not. *)
Theorem bitfield_set_get data off w signed v :
  0 <= off → encoding_ok w signed → off + w <= 8 * blen data → off + w < 2 ^ 63 → int64 v →
  ∃ data', setBitField data off w v = Some data' ∧ blen data' = blen data ∧
    (∀ q, q < off ∨ off + w <= q → bitat data' q = bitat data q) ∧
    getBitField data' off w signed = Some (wrapBitfield v w signed).
Proof.
  intros Ho Hw Hl Hb Hv. assert (1 <= w <= 64) as Hw' by (unfold encoding_ok in Hw; destruct signed; lia).
  destruct (setBitField_spec data off w v) as (d & E & Hld & Hd); [lia..|].
  exists d. split_and!; [done|done| |].
  { intros q Hq. rewrite Hd. destruct (Z.leb_spec off q), (Z.ltb_spec q (off + w)); lia || done. }
  destruct (getBitField_spec d off w signed) as (r & -> & Hr); [lia..|].
  f_equal. eapply is_field_unique; [exact Hr|].
  destruct (wrapBitfield_spec v w signed Hv Hw) as [Hrange [k Ek]].
  intros j Hj. rewrite (field_bits _ w signed v k) by (done || lia). rewrite !Hd.
  destruct (Z.ltb_spec j w).
  - rewrite (proj2 (Z.leb_le _ _)), (proj2 (Z.ltb_lt _ _)) by lia. cbn [andb]. f_equal. lia.
  - rewrite (proj2 (Z.leb_le _ _)), (proj2 (Z.ltb_lt _ _)) by lia. cbn [andb].
    replace (off + w - 1 - off) with (w - 1) by lia. f_equal.
    unfold encoding_ok in Hw. destruct signed; [done|]. cbn. symmetry. apply Z.eqb_neq. lia.
Qed.

Lemma bitfield_set_get_witness :
  encoding_ok 5 true ∧
  ∃ data', setBitField (zeros 2) 6 5 200 = Some data' ∧ blen data' = blen (zeros 2) ∧
    (∀ q, q < 6 ∨ 6 + 5 <= q → bitat data' q = bitat (zeros 2) q) ∧
    getBitField data' 6 5 true = Some (wrapBitfield 200 5 true).
Proof.
  split; [unfold encoding_ok; lia|].
  apply (bitfield_set_get (zeros 2) 6 5 true 200);
    [lia|unfold encoding_ok; lia|vm_compute; discriminate|lia|unfold int64; lia].
Defined.

Lemma field_bounds w signed :
  encoding_ok w signed →
  - 2 ^ 63 <= field_min w signed ∧ field_min w signed <= 0 ∧ 0 <= field_max w signed < 2 ^ 63 ∧ 1 <= w <= 64.
Proof.
  unfold encoding_ok, field_min, field_max. intros Hw. destruct signed.
  - destruct (Z.eq_dec w 64) as [->|]; [lia|]. pose proof (pow2_63 (w - 1) ltac:(lia)). lia.
  - destruct (Z.eq_dec w 63) as [->|]; [lia|]. pose proof (pow2_63 w ltac:(lia)). lia.
Qed.
Lemma field_span w signed : 1 <= w → field_max w signed - field_min w signed < 2 ^ w.
Proof.
  intros Hw. unfold field_min, field_max. destruct signed; [|lia].
  assert (2 ^ w = 2 * 2 ^ (w - 1)) by (rewrite <-Z.pow_succ_r by lia; f_equal; lia).
  pose proof (Z.pow_pos_nonneg 2 (w - 1)). lia.
Qed.
(** The wrapped sum differs from the exact one by a multiple of [2 ^ w], and is
    the exact one where that fits. *)
Lemma wrapped_sum w signed exact :
  encoding_ok w signed →
  (∃ k, wrapBitfield (wrap64 exact) w signed = exact + k * 2 ^ w) ∧
  field_min w signed <= wrapBitfield (wrap64 exact) w signed <= field_max w signed ∧
  (field_min w signed <= exact <= field_max w signed → wrapBitfield (wrap64 exact) w signed = exact).
Proof.
  intros Hw. destruct (field_bounds w signed Hw) as (_ & _ & _ & Hw64).
  assert (2 ^ 64 = 2 ^ (64 - w) * 2 ^ w) as E64 by (rewrite <-Z.pow_add_r by lia; f_equal; lia).
  destruct (wrap64_cong exact) as [k0 Ek0].
  destruct (wrapBitfield_spec (wrap64 exact) w signed (wrap64_range exact) Hw) as [Hwr [k1 Ek1]].
  assert (wrapBitfield (wrap64 exact) w signed = exact + (k0 * 2 ^ (64 - w) + k1) * 2 ^ w) as Hcong
    by (rewrite Ek1, Ek0, E64; lia).
  split_and!; [by eexists|lia|lia|]. intros Hin. rewrite Hcong in *. pose proof (field_span w signed ltac:(lia)) as Hspan.
  assert (k0 * 2 ^ (64 - w) + k1 = 0) as -> by nia. lia.
Qed.

(** C40. BITFIELD INCRBY, all overflow modes: a sum inside the encoding's range
    is stored exactly, in every mode. Outside of it SAT stores the nearest
    bound, FAIL stores nothing, and WRAP (or any other mode) stores the number
    in range that is congruent to the exact sum modulo 2^w, also when the
    addition itself overflows [int64]. *)
Theorem incrField_correct mode old delta w signed :
  encoding_ok w signed → field_min w signed <= old <= field_max w signed → int64 delta →
  let exact := old + delta in
  let '(v, ok) := incrField mode old delta w signed in
  if (field_min w signed <=? exact) && (exact <=? field_max w signed) then v = exact ∧ ok = true
  else if bool_decide (mode = "SAT") then
    v = (if exact <? field_min w signed then field_min w signed else field_max w signed) ∧ ok = true
  else if bool_decide (mode = "FAIL") then ok = false
  else ok = true ∧ field_min w signed <= v <= field_max w signed ∧ ∃ k, v = exact + k * 2 ^ w.
Proof.
  intros Hw Hold Hd exact. unfold incrField. rewrite bitfieldBounds_spec by done.
  destruct (field_bounds w signed Hw) as (Hmin & Hmin0 & Hmax & Hw64).
  destruct (wrap64_cong (old + delta)) as [k0 Ek0]. pose proof (wrap64_range (old + delta)) as Hsum.
  destruct (wrapped_sum w signed exact Hw) as (Hcong & Hwr & Hexact). fold exact in Ek0, Hsum |- *.
  set (sum := wrap64 exact) in *.
  set (wv := wrapBitfield sum w signed) in *.
  set (ao := ((0 <? delta) && (sum <? old)) || ((delta <? 0) && (old <? sum))).
  assert (k0 = 0 ∨ k0 = 1 ∨ k0 = -1) as Hk0 by (unfold int64 in *; unfold exact in *; lia).
  assert ((ao && (0 <? delta)) || (negb ao && (field_max w signed <? sum))
          = (field_max w signed <? exact)) as ->.
  { unfold ao, int64, exact in *.
    destruct (Z.ltb_spec 0 delta), (Z.ltb_spec sum old), (Z.ltb_spec delta 0), (Z.ltb_spec old sum),
      (Z.ltb_spec (field_max w signed) sum), (Z.ltb_spec (field_max w signed) (old + delta));
      cbn; try done; lia. }
  assert ((ao && (delta <? 0)) || (negb ao && (sum <? field_min w signed))
          = (exact <? field_min w signed)) as ->.
  { unfold ao, int64, exact in *.
    destruct (Z.ltb_spec 0 delta), (Z.ltb_spec sum old), (Z.ltb_spec delta 0), (Z.ltb_spec old sum),
      (Z.ltb_spec sum (field_min w signed)), (Z.ltb_spec (old + delta) (field_min w signed));
      cbn; try done; lia. }
  unfold bitfieldResolveOverflow.
  destruct (Z.ltb_spec (field_max w signed) exact), (Z.ltb_spec exact (field_min w signed)),
    (Z.leb_spec (field_min w signed) exact), (Z.leb_spec exact (field_max w signed));
    cbn [negb andb]; try lia; try (split; [apply Hexact; lia|done]);
    (case_if; [done|]); (case_if; [done|]); done.
Qed.

Lemma incrField_correct_witness :
  encoding_ok 8 false ∧ field_min 8 false <= 250 <= field_max 8 false ∧ int64 10 ∧
  let '(v, ok) := incrField "SAT" 250 10 8 false in v = 255 ∧ ok = true.
Proof.
  split; [unfold encoding_ok; lia|]. split; [vm_compute; split; discriminate|].
  split; [unfold int64; lia|].
  exact (incrField_correct "SAT" 250 10 8 false ltac:(unfold encoding_ok; lia)
           ltac:(vm_compute; split; discriminate) ltac:(unfold int64; lia)).
Defined.

(** A BITFIELD operation at a bit offset below -7 indexes the buffer
    before its first byte: for every key and database the operation dies with
    a run-time panic instead of answering an error. *)
Theorem bitField_negative_offset now gonow key enc off v mode t :
  - 2 ^ 63 <= off <= -8 →
  run now gonow (bitField key [MkBitFieldOp "GET" enc off v mode]) t = (t, Fail index_panic).
Proof.
  intros Hoff. apply runs_run. unfold bitField. step. cbn [bitField_ops].
  assert (∀ data w sg, 1 <= w → getBitField data off w sg = None) as Hpanic.
  { intros data w sg Hw. unfold getBitField.
    replace (Z.to_nat w) with (S (Z.to_nat (w - 1))) by lia. cbn [getBit_loop].
    unfold getBit_step. rewrite Z.add_0_r, wrap64_id by (unfold int64; lia).
    pose proof (Z.quot_rem' off 8). pose proof (Z.rem_bound_abs off 8 ltac:(lia)).
    assert (Z.quot off 8 < 0) as Hq by lia.
    assert ((Z.quot off 8 <? blen data) = true) as -> by (apply Z.ltb_lt; unfold blen; lia).
    unfold byte_at. by rewrite (proj2 (Z.ltb_lt _ _)) by lia. }
  unfold bitField_step. destruct (parseEncoding _) as [w sg] eqn:Ep. cbn [OpType Encoding Offset OpValue Overflow].
  assert (1 <= w) as Hw.
  { unfold parseEncoding in Ep. injection Ep as <- <-.
    destruct (_ || _) eqn:E; [lia|]. apply orb_false_iff in E as [? _]. zify_bool. lia. }
  rewrite bool_decide_true by done. rewrite Hpanic by done. finish.
Qed.

Lemma bitField_negative_offset_witness :
  - 2 ^ 63 <= -100 <= -8 ∧
  run 0 0 (bitField "k" [MkBitFieldOp "GET" "u8" (-100) 0 "WRAP"]) empty_tables
  = (empty_tables, Fail index_panic).
Proof. split; [lia|]. apply bitField_negative_offset. lia. Defined.

End BitOps.
