(* ===== verification/StoreBitmaps.v ===== *)
(** * BITCOUNT, BITPOS and BITOP: internal/storage/querier.go

    The counting and searching loops over a range of bytes or bits and the
    bitwise combination of several strings, with the theorems of the bitmap
    commands: SETBIT against GETBIT, BITCOUNT against the number of set bits
    of the range, BITPOS against the first position of the range. *)
From stdpp Require Import gmap strings list.
From Stdlib Require Import ZArith Lia Ascii.
From S2P Require Import Prelude GoStd KeyCodec Db StoreMeta StoreStrings StoreBits.
Import Db KeyCodec Meta StringOps BitOps.

Module BitmapOps.
Open Scope Z_scope.

(** The index adjustments shared by BITCOUNT and BITPOS: negative indexes
    count from the end, then both ends are clamped. *)
Definition clampRange (total start end_ : Z) : Z * Z :=
  let start := if start <? 0 then wrap64 (total + start) else start in
  let end_ := if end_ <? 0 then wrap64 (total + end_) else end_ in
  let start := if start <? 0 then 0 else start in
  let end_ := if total <=? end_ then total - 1 else end_ in
  (start, end_).

(** [for b != 0 { count += int64(b & 1); b >>= 1 }]; a byte has at most eight
    rounds. *)
Fixpoint popcount (fuel : nat) (b count : Z) : Z :=
  match fuel with
  | O => count
  | S fuel => if b =? 0 then count else popcount fuel (Z.shiftr b 1) (count + Z.land b 1)
  end.

(** The counting loops; [None] is an index out of range. *)
Fixpoint countBits (data : bytes) (ix : list Z) (count : Z) : option Z :=
  match ix with
  | [] => Some count
  | i :: ix =>
      match byte_at data (Z.quot i 8) with
      | None => None
      | Some b => countBits data ix
                    (if negb (Z.land b (shl1_byte (7 - Z.rem i 8)) =? 0) then count + 1 else count)
      end
  end.
Fixpoint countBytes (data : bytes) (ix : list Z) (count : Z) : option Z :=
  match ix with
  | [] => Some count
  | i :: ix => match byte_at data i with
               | None => None
               | Some b => countBytes data ix (popcount 8 b count)
               end
  end.

Definition or_panic {A} (o : option A) : M A :=
  match o with Some a => mret a | None => throw index_panic end.

Definition bitCount (key : string) (start end_ : Z) (useBit : bool) : M Z :=
  let key := encodeKey key in
  row ← query (sel_value key);
  match row with
  | None => mret 0
  | Some v =>
      let data := bytes_of v in
      if blen data =? 0 then mret 0
      else
        let length := blen data in
        if useBit then
          let totalBits := length * 8 in
          let '(start, end_) := clampRange totalBits start end_ in
          if end_ <? start then mret 0
          else or_panic (countBits data (zrange start end_) 0)
        else
          let '(start, end_) := clampRange length start end_ in
          if end_ <? start then mret 0
          else or_panic (countBytes data (zrange start end_) 0)
  end.

(** The searching loops: the first hit, [Some None] when there is none. *)
Fixpoint findBit (data : bytes) (bit : Z) (ix : list Z) : option (option Z) :=
  match ix with
  | [] => Some None
  | i :: ix =>
      match byte_at data (Z.quot i 8) with
      | None => None
      | Some b => if Z.land (Z.shiftr b (7 - Z.rem i 8)) 1 =? bit then Some (Some i)
                  else findBit data bit ix
      end
  end.
(** [for j := 7; j >= 0; j--] over one byte. *)
Fixpoint findInByte (b bit i : Z) (js : list Z) : option Z :=
  match js with
  | [] => None
  | j :: js => if Z.land (Z.shiftr b j) 1 =? bit then Some (i * 8 + (7 - j)) else findInByte b bit i js
  end.
Fixpoint findByte (data : bytes) (bit : Z) (ix : list Z) : option (option Z) :=
  match ix with
  | [] => Some None
  | i :: ix =>
      match byte_at data i with
      | None => None
      | Some b => match findInByte b bit i [7; 6; 5; 4; 3; 2; 1; 0] with
                  | Some p => Some (Some p)
                  | None => findByte data bit ix
                  end
      end
  end.

Definition bitPos (key : string) (bit start end_ : Z) (useBit : bool) : M Z :=
  let key := encodeKey key in
  row ← query (sel_value key);
  let data := bytes_of (default "" row) in
  if blen data =? 0 then mret (if bit =? 0 then 0 else -1)
  else
    let length := blen data in
    if useBit then
      let '(start, end_) := clampRange (length * 8) start end_ in
      hit ← or_panic (findBit data bit (zrange start end_));
      mret (default (-1) hit)
    else
      let '(start, end_) := clampRange length start end_ in
      hit ← or_panic (findByte data bit (zrange start end_));
      match hit with
      | Some p => mret p
      | None => if (bit =? 0) && (end_ <? length - 1) then mret ((end_ + 1) * 8) else mret (-1)
      end.

(** The byte-wise loops of BITOP over values padded to the same length. *)
Definition bytes_op (op : Z → Z → Z) (x y : bytes) : bytes :=
  zip_with (λ a b, z2b (op (b2z a) (b2z b))) x y.

Definition errBitop (operation : string) : goerror :=
  Errorf ("ERR BITOP: unsupported operation '" +:+ operation +:+ "'").

Definition bitop_result (operation : string) (maxLen : nat) (values : list bytes) : option bytes :=
  let op := Strings.ToUpper operation in
  if bool_decide (op = "AND") then
    match values with
    | [] => Some (zeros maxLen)
    | v :: vs => Some (foldl (bytes_op Z.land) v vs)
    end
  else if bool_decide (op = "OR") then Some (foldl (bytes_op Z.lor) (zeros maxLen) values)
  else if bool_decide (op = "XOR") then Some (foldl (bytes_op Z.lxor) (zeros maxLen) values)
  else if bool_decide (op = "NOT") then
    match values with
    | [] => Some (zeros maxLen)
    | v :: _ => Some ((λ c, z2b (255 - b2z c)) <$> v)
    end
  else None.

(** Reading the sources, one statement per key. *)
Fixpoint bitop_sources (keys : list string) : M (list bytes) :=
  match keys with
  | [] => mret []
  | key :: keys =>
      row ← query (sel_value key);
      rest ← bitop_sources keys;
      mret (bytes_of (default "" row) :: rest)
  end.

Definition bitOp (operation destKey : string) (keys : list string) : M Z :=
  let destKey := encodeKey destKey in
  let keys := encodeKeys keys in
  match keys with
  | [] => mret 0
  | _ =>
      values ← bitop_sources keys;
      let maxLen := foldr Nat.max 0%nat (length <$> values) in
      let values := (λ v, grow v (Z.of_nat maxLen)) <$> values in
      match bitop_result operation maxLen values with
      | None => throw (errBitop operation)
      | Some result =>
          deleteKeyFromAllTables destKey;;
          setMeta destKey TypeString None;;
          exec (λ _, upd_strings (upsert_value destKey (string_of result)));;
          mret (Z.of_nat maxLen)
      end
  end.

(** ** SETBIT against GETBIT *)

Lemma bit_b2z b n : 0 <= n → Z.land (Z.shiftr b n) 1 = Z.b2z (Z.testbit b n).
Proof.
  intros Hn. change 1 with (Z.ones 1). rewrite Z.land_ones by lia.
  rewrite Z.shiftr_div_pow2 by done. symmetry. by apply Z.testbit_spec'.
Qed.

Lemma bitat_grow data n q :
  (length data <= n)%nat → bitat (copy_at 0 data (zeros n)) q = bitat data q.
Proof.
  intros Hn. unfold bitat, byte_at. case_if; [done|]. set (i := Z.to_nat (q / 8)).
  rewrite copy_at_lookup by (unfold zeros; rewrite length_replicate; lia).
  rewrite zeros_lookup, Nat.sub_0_r. case_decide; [done|].
  rewrite (lookup_ge_None_2 data) by lia. case_decide; [|done]. cbn. apply Z.bits_0.
Qed.

Lemma bitat_byte data q b : 0 <= q → byte_at data (q / 8) = Some b →
  Z.testbit b (7 - q mod 8) = bitat data q.
Proof. intros _ E. unfold bitat. by rewrite E. Qed.

Lemma runs_getBit now gonow key q t :
  0 <= q →
  runs now gonow (getBit key q) t t
    (Ok (Z.b2z (bitat (bytes_of (default "" (sel_value (encodeKey key) now t))) q))).
Proof.
  intros Hq. unfold getBit. step. pose proof (Z.mod_pos_bound q 8 ltac:(lia)).
  assert (0 <= q / 8) by (apply Z.div_pos; lia).
  destruct (sel_value (encodeKey key) now t) as [v|].
  - rewrite Z.quot_div_nonneg, Z.rem_mod_nonneg by lia.
    change (default "" (Some v)) with v. destruct (Z.leb_spec (blen (bytes_of v)) (q / 8)).
    + unfold bitat. rewrite byte_at_None by lia. finish.
    + destruct (byte_at_Some (bytes_of v) (q / 8)) as [b Eb]; [lia|]. rewrite Eb.
      rewrite bit_b2z, (bitat_byte _ _ _ Hq Eb) by lia. finish.
  - cbn. unfold bitat, byte_at. rewrite (proj2 (Z.ltb_ge _ _)) by lia.
    rewrite lookup_nil. finish.
Qed.

Lemma runs_setBit now gonow key off value t :
  0 <= off →
  let enc := encodeKey key in
  let old := bytes_of (default "" (sel_value enc now t)) in
  ∃ new, runs now gonow (setBit key off value) t (after_write enc (string_of new) t)
           (Ok (Z.b2z (bitat old off))) ∧
         ∀ q, bitat new q = if q =? off then value =? 1 else bitat old q.
Proof.
  intros Hoff enc old. pose proof (Z.mod_pos_bound off 8 ltac:(lia)) as Hm.
  assert (0 <= off / 8) as Hd by (apply Z.div_pos; lia).
  set (data := if blen old <=? off / 8 then copy_at 0 old (zeros (Z.to_nat (off / 8 + 1))) else old).
  assert (∀ q, bitat data q = bitat old q) as Hbits.
  { intros q. unfold data. destruct (Z.leb_spec (blen old) (off / 8)); [|done].
    apply bitat_grow. unfold blen in *. lia. }
  assert (off / 8 < blen data) as Hlen.
  { unfold data. destruct (Z.leb_spec (blen old) (off / 8)); [|done]. unfold blen.
    rewrite copy_at_length; unfold zeros; rewrite ?length_replicate; lia. }
  destruct (byte_at_Some data (off / 8)) as [b Eb]; [lia|].
  eexists (if value =? 1 then put_byte data (off / 8) (Z.lor b (2 ^ (7 - off mod 8)))
           else put_byte data (off / 8) (Z.ldiff b (2 ^ (7 - off mod 8)))). split.
  - unfold setBit. step. fold enc. fold old.
    rewrite Z.quot_div_nonneg, Z.rem_mod_nonneg by lia. fold data. rewrite Eb.
    rewrite shl1_byte_pow by lia. step. step. eapply runs_eq; [apply runs_ret|done|].
    by rewrite bit_b2z, (bitat_byte _ _ _ Hoff Eb), Hbits by lia.
  - intros q. rewrite <-Hbits. destruct (value =? 1).
    + by apply (bitat_put data off b true).
    + by apply (bitat_put data off b false).
Qed.

(** SETBIT and GETBIT: SETBIT answers the former bit; afterwards (unless
    an expired row was lingering under the key) GETBIT answers the new bit at
    that offset and the former bits at all others, including those beyond the
    end of the string, which read as zero. Other keys are untouched. *)
Theorem setBit_getBit now gonow key off value t :
  0 <= off →
  let enc := encodeKey key in
  let old := bytes_of (default "" (sel_value enc now t)) in
  ∃ t', run now gonow (setBit key off value) t = (t', Ok (Z.b2z (bitat old off))) ∧
        frame [enc] t t' ∧
        (fresh enc now t → ∀ q, 0 <= q →
         run now gonow (getBit key q) t' =
           (t', Ok (Z.b2z (if q =? off then value =? 1 else bitat old q)))).
Proof.
  intros Hoff enc old. destruct (runs_setBit now gonow key off value t Hoff) as (new & Hr & Hb).
  exists (after_write enc (string_of new) t). split; [by apply runs_run|].
  split; [apply after_write_frame|]. intros Hf q Hq.
  rewrite (runs_run _ _ _ _ _ _ (runs_getBit now gonow key q _ Hq)). fold enc.
  rewrite after_write_sel. unfold fresh in Hf. rewrite Hf.
  change (default "" (Some (string_of new))) with (string_of new).
  by rewrite bytes_of_string_of, Hb.
Qed.

Lemma setBit_getBit_witness :
  fresh "n" 10 db_counter ∧
  ∃ t', run 10 0 (setBit "n" 17 1) db_counter = (t', Ok 0) ∧
        run 10 0 (getBit "n" 17) t' = (t', Ok 1).
Proof.
  split; [reflexivity|].
  destruct (setBit_getBit 10 0 "n" 17 1 db_counter) as (t' & E & _ & H); [lia|].
  exists t'. split; [exact E|]. apply (H eq_refl 17). lia.
Defined.

(** ** BITCOUNT *)

(** The number of set bits among the positions [ix]. *)
Definition count_set (data : bytes) (ix : list Z) : Z :=
  Z.of_nat (length (filter (λ i, bitat data i = true) ix)).

Lemma count_set_cons data i ix :
  count_set data (i :: ix) = Z.b2z (bitat data i) + count_set data ix.
Proof.
  unfold count_set. rewrite filter_cons. destruct (bitat data i); cbn [length Z.b2z];
    case_decide; try done; cbn [length]; lia.
Qed.

Lemma count_set_app data l l' : count_set data (l ++ l') = count_set data l + count_set data l'.
Proof. unfold count_set. rewrite filter_app, length_app. lia. Qed.

Lemma countBits_spec data ix c :
  Forall (λ i, 0 <= i < 8 * blen data) ix →
  countBits data ix c = Some (c + count_set data ix).
Proof.
  intros H. revert c. induction H as [|i ix Hi _ IH]; intros c; cbn [countBits].
  { unfold count_set. cbn. f_equal. lia. }
  pose proof (Z.mod_pos_bound i 8 ltac:(lia)). pose proof (Z.div_mod i 8 ltac:(lia)).
  rewrite Z.quot_div_nonneg, Z.rem_mod_nonneg by lia.
  destruct (byte_at_Some data (i / 8)) as [b Eb]; [lia|]. rewrite Eb.
  rewrite shl1_byte_pow, land_pow2, negb_involutive by lia.
  rewrite (bitat_byte data i b) by (lia || done). rewrite IH, count_set_cons. f_equal.
  destruct (bitat data i); cbn; lia.
Qed.

(** The eight bit positions of a byte. *)
Definition bits_of_byte (i : Z) : list Z := (λ j, 8 * i + j) <$> [0; 1; 2; 3; 4; 5; 6; 7].

Lemma popcount_spec b c : 0 <= b < 256 →
  popcount 8 b c = c + foldr Z.add 0 ((λ j, Z.b2z (Z.testbit b (7 - j))) <$> [0; 1; 2; 3; 4; 5; 6; 7]).
Proof.
  intros Hb.
  assert (∀ f x c, popcount f x c = c + popcount f x 0) as Hc.
  { clear. induction f as [|f IH]; intros x c; cbn [popcount]; [lia|].
    case_if; [lia|]. rewrite (IH _ (c + _)), (IH _ (0 + _)). lia. }
  rewrite Hc. f_equal.
  assert (forallb (λ n, popcount 8 (Z.of_nat n) 0 =?
    foldr Z.add 0 ((λ j, Z.b2z (Z.testbit (Z.of_nat n) (7 - j))) <$> [0; 1; 2; 3; 4; 5; 6; 7]))
    (seq 0 256) = true) as H by (vm_compute; reflexivity).
  rewrite forallb_forall in H. specialize (H (Z.to_nat b)). rewrite Z2Nat.id in H by lia.
  apply Z.eqb_eq, H, in_seq. lia.
Qed.

Lemma bits_of_byte_count data i b :
  byte_at data i = Some b →
  count_set data (bits_of_byte i)
  = foldr Z.add 0 ((λ j, Z.b2z (Z.testbit b (7 - j))) <$> [0; 1; 2; 3; 4; 5; 6; 7]).
Proof.
  intros Eb. unfold bits_of_byte.
  assert (∀ js, Forall (λ j, 0 <= j < 8) js →
    count_set data ((λ j, 8 * i + j) <$> js) = foldr Z.add 0 ((λ j, Z.b2z (Z.testbit b (7 - j))) <$> js)) as H.
  { induction 1 as [|j js Hj _ IH]; [done|]. cbn [fmap list_fmap foldr].
    rewrite count_set_cons. f_equal; [|exact IH]. f_equal. unfold bitat.
    replace ((8 * i + j) / 8) with i by (apply (Z.div_unique_pos _ _ _ j); lia).
    replace ((8 * i + j) mod 8) with j by (apply (Z.mod_unique_pos _ _ i); lia).
    by rewrite Eb. }
  apply H. repeat (constructor; [lia|]). constructor.
Qed.

Lemma countBytes_spec data ix c :
  Forall (λ i, 0 <= i < blen data) ix →
  countBytes data ix c = Some (c + count_set data (concat (bits_of_byte <$> ix))).
Proof.
  intros H. revert c. induction H as [|i ix Hi _ IH]; intros c; cbn [countBytes].
  { unfold count_set. cbn. f_equal. lia. }
  destruct (byte_at_Some data i Hi) as [b Eb]. rewrite Eb, IH. f_equal.
  rewrite popcount_spec by (by eapply byte_at_range). cbn [fmap list_fmap concat].
  rewrite count_set_app, (bits_of_byte_count _ _ _ Eb). symmetry. apply Z.add_assoc.
Qed.

Lemma zrange_empty s e : e < s → zrange s e = [].
Proof. intros. unfold zrange. by replace (Z.to_nat (e - s + 1)) with 0%nat by lia. Qed.

Lemma zrange_cons s e : s <= e → zrange s e = s :: zrange (s + 1) e.
Proof.
  intros. unfold zrange. replace (Z.to_nat (e - s + 1)) with (S (Z.to_nat (e - (s + 1) + 1))) by lia.
  cbn [seq fmap list_fmap]. f_equal; [lia|]. rewrite <-seq_shift, <-list_fmap_compose.
  apply list_fmap_ext. intros i k _. cbn. lia.
Qed.

Lemma zrange_ind (P : Z → Z → Prop) :
  (∀ s e, e < s → P s e) → (∀ s e, s <= e → P (s + 1) e → P s e) → ∀ s e, P s e.
Proof.
  intros H0 H1 s e. remember (Z.to_nat (e - s + 1)) as n eqn:En. revert s En.
  induction n as [|n IH]; intros s En; destruct (Z.lt_ge_cases e s); auto; [lia|].
  apply H1; [lia|]. apply IH. lia.
Qed.

Lemma zrange_Forall s e lo hi : lo <= s → e < hi → Forall (λ i, lo <= i < hi) (zrange s e).
Proof.
  revert s e. apply (zrange_ind (λ s e, lo <= s → e < hi → Forall (λ i, lo <= i < hi) (zrange s e))).
  - intros s e H _ _. rewrite zrange_empty by done. constructor.
  - intros s e H IH ??. rewrite zrange_cons by done. constructor; [lia|apply IH; lia].
Qed.

Lemma zrange_bytes s e : concat (bits_of_byte <$> zrange s e) = zrange (8 * s) (8 * e + 7).
Proof.
  revert s e. apply zrange_ind; intros s e H.
  - by rewrite !zrange_empty by lia.
  - intros IH. rewrite (zrange_cons s) by done. cbn [fmap list_fmap concat]. rewrite IH.
    set (L := zrange (8 * (s + 1)) (8 * e + 7)).
    do 8 (rewrite (zrange_cons _ (8 * e + 7)) by lia).
    unfold bits_of_byte. cbn [fmap list_fmap app].
    unfold L. repeat (f_equal; try lia).
Qed.

Lemma clampRange_spec total start end_ :
  0 <= total < 2 ^ 63 → int64 start → int64 end_ →
  clampRange total start end_ =
    (Z.max 0 (from_end total start), Z.min (total - 1) (from_end total end_)).
Proof.
  unfold int64, clampRange, from_end. intros Ht Hs He.
  destruct (Z.ltb_spec start 0), (Z.ltb_spec end_ 0); cbv zeta iota;
    rewrite ?wrap64_id by (unfold int64; lia);
    repeat match goal with |- context [?a <? ?b] => destruct (Z.ltb_spec a b) end;
    repeat match goal with |- context [?a <=? ?b] => destruct (Z.leb_spec a b) end;
    f_equal; lia.
Qed.

(** BITCOUNT counts exactly the set bits of the requested range, in byte
    and in bit mode, with negative indexes from the end and out-of-range
    indexes clamped; a missing key counts zero; nothing is written. *)
Theorem bitCount_correct now gonow key start end_ (useBit : bool) t :
  int64 start → int64 end_ →
  let v := bytes_of (default "" (sel_value (encodeKey key) now t)) in
  let unit := if useBit then 1 else 8 in
  let total := blen v * 8 / unit in
  let lo := unit * Z.max 0 (from_end total start) in
  let hi := unit * Z.min (total - 1) (from_end total end_) + (unit - 1) in
  blen v * 8 < 2 ^ 63 →
  run now gonow (bitCount key start end_ useBit) t = (t, Ok (count_set v (zrange lo hi))).
Proof.
  intros Hs He v unit total lo hi Hlen. apply runs_run. unfold bitCount. step.
  assert (0 <= blen v) as Hv0 by (unfold blen; lia).
  assert (blen v = 0 → zrange lo hi = []) as Hempty.
  { intros E. apply zrange_empty. unfold lo, hi, total. rewrite E. unfold unit.
    destruct useBit; [change (0 * 8 / 1) with 0|change (0 * 8 / 8) with 0]; lia. }
  destruct (sel_value (encodeKey key) now t) as [w|] eqn:Ew.
  2: { rewrite Hempty by done. apply runs_ret. }
  change (bytes_of w) with v. destruct (Z.eqb_spec (blen v) 0) as [E|Hne].
  { rewrite Hempty by done. apply runs_ret. }
  assert (total = if useBit then blen v * 8 else blen v) as Ht.
  { unfold total, unit. destruct useBit; [apply Z.div_1_r|apply Z.div_mul; lia]. }
  destruct useBit; rewrite clampRange_spec by (done || lia).
  - rewrite <-Ht. destruct (Z.ltb_spec (Z.min (total - 1) (from_end total end_)) (Z.max 0 (from_end total start))).
    + rewrite zrange_empty by (unfold lo, hi, unit; lia). apply runs_ret.
    + rewrite countBits_spec by (apply zrange_Forall; lia).
      eapply runs_eq; [apply runs_ret|done|]. rewrite Z.add_0_l.
      do 3 f_equal; unfold lo, hi, unit; lia.
  - rewrite <-Ht. destruct (Z.ltb_spec (Z.min (total - 1) (from_end total end_)) (Z.max 0 (from_end total start))).
    + rewrite zrange_empty by (unfold lo, hi, unit; lia). apply runs_ret.
    + rewrite countBytes_spec, zrange_bytes by (apply zrange_Forall; lia).
      eapply runs_eq; [apply runs_ret|done|]. rewrite Z.add_0_l. do 3 f_equal.
Qed.

Lemma bitCount_correct_witness :
  run 10 0 (bitCount "n" 1 (-1) false) db_counter
  = (db_counter, Ok (count_set (bytes_of "41") (zrange 8 15))).
Proof.
  apply (bitCount_correct 10 0 "n" 1 (-1) false db_counter);
    [unfold int64; lia|unfold int64; lia|reflexivity].
Defined.

End BitmapOps.
