(* ===== verification/StoreKeys.v ===== *)
(** * Key commands of the storage layer: internal/storage/querier.go

    DEL, EXISTS, EXPIRE/EXPIREAT with the NX/XX/GT/LT flags, TTL, PTTL,
    PERSIST, TYPE, RENAME, COPY, KEYS, RANDOMKEY and DBSIZE. *)
From stdpp Require Import gmap strings list sorting.
From Stdlib Require Import ZArith Lia Ascii.
From S2P Require Import Prelude GoStd KeyCodec Db StoreMeta StoreStrings.
Import Db KeyCodec Meta StringOps.

Module KeyOps.

(** The loop of [del] over the sorted keys. *)
Fixpoint del_loop (keys : list string) (deleted : Z) : M Z :=
  match keys with
  | [] => mret deleted
  | key :: keys =>
      keyType ← getKeyType key;
      if bool_decide (keyType = TypeNone) then del_loop keys deleted
      else deleteKeyFromAllTables key;; del_loop keys (deleted + 1)%Z
  end.

Definition del (keys : list string) : M Z :=
  let keys := Sort.Strings (encodeKeys keys) in
  del_loop keys 0.

(** [SELECT COUNT( * ) FROM kv_meta WHERE key = ANY($1) AND (live)] *)
Definition exists_ (keys : list string) : M Z :=
  let keys := encodeKeys keys in
  query (λ now t, Z.of_nat (size
    (filter (λ p : string * (string * expiry), p.1 ∈ keys ∧ live now p.2.2 = true) (kv_meta t)))).

Record ExpireOptions := MkExpireOptions { NX : bool; XX : bool; GT : bool; LT : bool }.

(** The condition of [expireWhereClause] on a row's [expires_at], [$2] being
    the new one. *)
Definition expireWhereClause (opts : ExpireOptions) (new : Z) (now : Z) (x : expiry) : bool :=
  if NX opts then match x with None => true | Some _ => false end
  else if XX opts then match x with None => false | Some x => (now <? x)%Z end
  else if GT opts then match x with None => false | Some x => (now <? x)%Z && (x <? new)%Z end
  else if LT opts then match x with None => true | Some x => (now <? x)%Z && (new <? x)%Z end
  else live now x.

(** [UPDATE kv_meta SET expires_at = $2 WHERE <clause> RETURNING key_type] *)
Definition update_meta_expiry (opts : ExpireOptions) (key : string) (new : Z) : M (option KeyType) :=
  stmt (λ now t,
    match kv_meta t !! key with
    | Some (kt, x) =>
        if expireWhereClause opts new now x
        then Ok (upd_meta <[key := (kt, Some new)]> t, Some kt)
        else Ok (t, None)
    | None => Ok (t, None)
    end).

(** [UPDATE <table> SET expires_at = $2 WHERE key = $1] *)
Definition set_expires2 {B V} `{Countable B} (key : string) (x : expiry)
    (m : gmap (string * B) (V * expiry)) : gmap (string * B) (V * expiry) :=
  map_imap (λ p r, Some (if bool_decide (p.1 = key) then (r.1, x) else r)) m.
Definition set_expires_set (key : string) (x : expiry)
    (m : gmap (string * string) expiry) : gmap (string * string) expiry :=
  map_imap (λ p r, Some (if bool_decide (p.1 = key) then x else r)) m.

Definition table_set_expires (table key : string) (x : expiry) (t : tables) : tables :=
  if bool_decide (table = "kv_strings") then upd_strings (set_expires key x) t
  else if bool_decide (table = "kv_hashes") then upd_hashes (set_expires2 key x) t
  else if bool_decide (table = "kv_lists") then upd_lists (set_expires2 key x) t
  else if bool_decide (table = "kv_sets") then upd_sets (set_expires_set key x) t
  else if bool_decide (table = "kv_zsets") then upd_zsets (set_expires2 key x) t
  else if bool_decide (table = "kv_hyperloglog") then upd_hll (set_expires key x) t
  else t.

(** [expireAt]; [expire] is the same code with [time.Now().Add(ttl)]. *)
Definition expireAt (key : string) (timestamp : Z) (opts : ExpireOptions) : M bool :=
  let key := encodeKey key in
  lockKey key;;
  let new := timestamptz timestamp in
  row ← update_meta_expiry opts key new;
  match row with
  | None => mret false
  | Some keyType =>
      let table := dataTableForType keyType in
      if bool_decide (table = "") then mret true
      else exec (λ _, table_set_expires table key (Some new));; mret true
  end.

Definition expire (key : string) (ttl : Z) (opts : ExpireOptions) : M bool :=
  let key := encodeKey key in
  lockKey key;;
  expiresAt ← asks (λ e, (go_now e + ttl)%Z);
  let new := timestamptz expiresAt in
  row ← update_meta_expiry opts key new;
  match row with
  | None => mret false
  | Some keyType =>
      let table := dataTableForType keyType in
      if bool_decide (table = "") then mret true
      else exec (λ _, table_set_expires table key (Some new));; mret true
  end.

(** [SELECT expires_at FROM kv_meta WHERE key = $1 AND (live)] *)
Definition sel_expiry (key : string) (now : Z) (t : tables) : option expiry :=
  match kv_meta t !! key with
  | Some (_, x) => if live now x then Some x else None
  | None => None
  end.

(** [Time.Sub]: a difference that is not a [Duration] is cut to the longest
    one, about 292 years. *)
Definition saturate (d : Z) : Z := Z.max (- 2 ^ 63) (Z.min (2 ^ 63 - 1) d).
(** [time.Until( *expiresAt)] in nanoseconds. *)
Definition until_ (x : Z) : M Z := asks (λ e, saturate (x * 1000 - go_now e)).

(** [int64(d.Seconds())] for a duration [d >= 0]: [Seconds] adds the doubles
    [float64(sec)] and [float64(nsec)/1e9]; both steps round to nearest, ties
    to even, with 53 bits. [round53 n d] is the double nearest to [n/d] as a
    fraction with the denominator [2^k] it is given on. *)
Definition rne (n d : Z) : Z :=
  let q := (n / d)%Z in let r := (n mod d)%Z in
  if (2 * r <? d)%Z then q
  else if (d <? 2 * r)%Z then (q + 1)%Z
  else if Z.even q then q else (q + 1)%Z.
Definition round53 (n d : Z) : Z * Z :=
  if (n =? 0)%Z then (0, 0)%Z
  else
    let e := (Z.log2 n - Z.log2 d - 52)%Z in
    let e := if (e <? 0)%Z
             then if (n * 2 ^ (- e) <? d * 2 ^ 52)%Z then (e - 1)%Z else e
             else if (n <? d * 2 ^ e * 2 ^ 52)%Z then (e - 1)%Z else e in
    if (e <? 0)%Z then (rne (n * 2 ^ (- e)) d, e) else (rne n (d * 2 ^ e), e).
Definition int64_Seconds (d : Z) : Z :=
  let sec := (d / 1000000000)%Z in
  let nsec := (d mod 1000000000)%Z in
  let '(m1, e1) := round53 nsec 1000000000 in
  let scale := (2 ^ (- e1))%Z in
  let '(m2, e2) := round53 (sec * scale + m1) scale in
  if (e2 <? 0)%Z then (m2 / 2 ^ (- e2))%Z else (m2 * 2 ^ e2)%Z.

Definition ttl (key : string) : M Z :=
  let key := encodeKey key in
  row ← query (sel_expiry key);
  match row with
  | None => mret (-2)%Z
  | Some None => mret (-1)%Z
  | Some (Some expiresAt) =>
      d ← until_ expiresAt;
      if (d <? 0)%Z then mret (-2)%Z else mret (int64_Seconds d)
  end.

Definition pttl (key : string) : M Z :=
  let key := encodeKey key in
  row ← query (sel_expiry key);
  match row with
  | None => mret (-2)%Z
  | Some None => mret (-1)%Z
  | Some (Some expiresAt) =>
      d ← until_ expiresAt;
      let pttl := Z.quot d 1000000 in
      if (pttl <? 0)%Z then mret (-2)%Z else mret pttl
  end.

(** The statements on the data tables ignore their errors. *)
Fixpoint persist_tables (key : string) (ts : list string) : M unit :=
  match ts with
  | [] => mret tt
  | table :: ts =>
      catch (exec (λ _, table_set_expires table key None)) (λ _, mret tt);;
      persist_tables key ts
  end.

Definition persist (key : string) : M bool :=
  let key := encodeKey key in
  lockKey key;;
  rowsAffected ← stmt (λ now t,
    match kv_meta t !! key with
    | Some (kt, Some x) =>
        if (now <? x)%Z then Ok (upd_meta <[key := (kt, None)]> t, 1%Z) else Ok (t, 0%Z)
    | _ => Ok (t, 0%Z)
    end);
  if (rowsAffected =? 0)%Z then mret false
  else
    persist_tables key ["kv_strings"; "kv_hashes"; "kv_lists"; "kv_sets"; "kv_zsets"; "kv_hyperloglog"];;
    mret true.

(** [ORDER BY random() LIMIT 1]: [pick] chooses among the live keys. *)
Definition randomKey (pick : list string → option string) : M (option string) :=
  row ← query (λ now t,
    pick (filter (λ p : string * (string * expiry), live now p.2.2 = true) (map_to_list (kv_meta t))).*1);
  mret (decodeKey <$> row).

Definition keyType (key : string) : M KeyType := getKeyType (encodeKey key).

(** [SELECT COUNT( * ) FROM kv_meta WHERE (live)] *)
Definition dbSize : M Z :=
  query (λ now t, Z.of_nat (size
    (filter (λ p : string * (string * expiry), live now p.2.2 = true) (kv_meta t)))).

(** ** RENAME *)

Definition unique_violation (table : string) : goerror :=
  PgError "ERROR" ("duplicate key value violates unique constraint " +:+ table +:+ "_pkey") "23505".

(** [UPDATE t SET key = $2 WHERE key = $1] *)
Definition rekey {V} (old new : string) (m : gmap string V) : option (gmap string V) :=
  match m !! old with
  | None => Some m
  | Some r => if bool_decide (old ≠ new ∧ is_Some (m !! new)) then None
              else Some (<[new := r]> (delete old m))
  end.
Definition rekey2 {B V} `{Countable B} (old new : string) (m : gmap (string * B) V) :
    option (gmap (string * B) V) :=
  let mine := filter (λ p : (string * B) * V, p.1.1 = old) m in
  let rest := drop_key old m in
  if bool_decide (map_Exists (λ p _, is_Some (rest !! (new, p.2))) mine) then None
  else Some (map_fold (λ p r acc, <[(new, p.2) := r]> acc) rest mine).

Definition table_rekey (table old new : string) (t : tables) : option tables :=
  if bool_decide (table = "kv_strings")
  then (λ m, upd_strings (λ _, m) t) <$> rekey old new (kv_strings t)
  else if bool_decide (table = "kv_hashes")
  then (λ m, upd_hashes (λ _, m) t) <$> rekey2 old new (kv_hashes t)
  else if bool_decide (table = "kv_lists")
  then (λ m, upd_lists (λ _, m) t) <$> rekey2 old new (kv_lists t)
  else if bool_decide (table = "kv_sets")
  then (λ m, upd_sets (λ _, m) t) <$> rekey2 old new (kv_sets t)
  else if bool_decide (table = "kv_zsets")
  then (λ m, upd_zsets (λ _, m) t) <$> rekey2 old new (kv_zsets t)
  else Some t.

Definition errNoSuchKey : goerror := Errorf "no such key".

Definition rename (oldKey newKey : string) : M unit :=
  let oldKey := encodeKey oldKey in
  let newKey := encodeKey newKey in
  lockKeys [oldKey; newKey];;
  keyType ← getKeyType oldKey;
  if bool_decide (keyType = TypeNone) then throw errNoSuchKey
  else
    deleteKeyFromAllTables newKey;;
    let table := dataTableForType keyType in
    if bool_decide (table = "") then throw (Errorf ("unsupported key type for rename: " +:+ keyType))
    else
      stmt (λ _ t, match rekey oldKey newKey (kv_meta t) with
                   | Some m => Ok (upd_meta (λ _, m) t, tt)
                   | None => Fail (unique_violation "kv_meta")
                   end);;
      stmt (λ _ t, match table_rekey table oldKey newKey t with
                   | Some t => Ok (t, tt)
                   | None => Fail (unique_violation table)
                   end).

(** ** COPY *)

(** An open result set occupies the connection of its transaction: pgx
    refuses another statement on it, without sending it. *)
Definition conn_busy : goerror := Errorf "conn busy".

(** [INSERT] for each row of the open result set. *)
Definition copy_rows {R} (rows : list R) : M unit :=
  match rows with
  | [] => mret tt
  | _ :: _ => throw conn_busy
  end.

Definition rows_of {B V} `{Countable B} (key : string) (m : gmap (string * B) V) : list (B * V) :=
  (λ p : (string * B) * V, (p.1.2, p.2)) <$> map_to_list (filter (λ p : (string * B) * V, p.1.1 = key) m).

Definition copyKey (source destination : string) (replace : bool) : M bool :=
  let source := encodeKey source in
  let destination := encodeKey destination in
  lockKeys [source; destination];;
  keyType ← getKeyType source;
  if bool_decide (keyType = TypeNone) then mret false
  else
    destType ← getKeyType destination;
    if bool_decide (destType ≠ TypeNone) && negb replace then mret false
    else
      (if bool_decide (destType ≠ TypeNone) then deleteKeyFromAllTables destination else mret tt);;
      (if bool_decide (keyType = TypeString) then
         row ← query (λ _ t, kv_strings t !! source);
         match row with
         | None => throw errNoRows
         | Some (value, expiresAt) =>
             setMeta destination TypeString expiresAt;;
             stmt (λ _ t, if bool_decide (is_Some (kv_strings t !! destination))
                          then Fail (unique_violation "kv_strings")
                          else Ok (upd_strings <[destination := (value, expiresAt)]> t, tt))
         end
       else if bool_decide (keyType = TypeHash) then
         setMeta destination TypeHash None;;
         rows ← query (λ _ t, rows_of source (kv_hashes t));
         copy_rows rows
       else if bool_decide (keyType = TypeList) then
         setMeta destination TypeList None;;
         rows ← query (λ _ t, rows_of source (kv_lists t));
         copy_rows rows
       else if bool_decide (keyType = TypeSet) then
         setMeta destination TypeSet None;;
         rows ← query (λ _ t, rows_of source (kv_sets t));
         copy_rows rows
       else if bool_decide (keyType = TypeZSet) then
         setMeta destination TypeZSet None;;
         rows ← query (λ _ t, rows_of source (kv_zsets t));
         copy_rows rows
       else mret tt);;
      mret true.

(** ** KEYS *)

(** A TEXT value as characters: a lead byte with its continuation bytes. *)
Fixpoint chars (l : bytes) : list bytes :=
  match l with
  | [] => []
  | c :: l =>
      match chars l with
      | (d :: _) as ch :: rest =>
          if Utf8.cont 128 191 d then (c :: ch) :: rest else [c] :: ch :: rest
      | rest => [c] :: rest
      end
  end.

Inductive like_tok := LAny | LOne | LChar (c : bytes).

(** The LIKE pattern language: [%], [_] and the escape character [\]. *)
Fixpoint like_parse (p : list bytes) : option (list like_tok) :=
  match p with
  | [] => Some []
  | c :: p =>
      if bool_decide (c = bytes_of "%") then cons LAny <$> like_parse p
      else if bool_decide (c = bytes_of "_") then cons LOne <$> like_parse p
      else if bool_decide (c = ["092"%char]) then
        match p with
        | [] => None
        | d :: p => cons (LChar d) <$> like_parse p
        end
      else cons (LChar c) <$> like_parse p
  end.

Fixpoint like_match (p : list like_tok) (s : list bytes) : bool :=
  match p with
  | [] => bool_decide (s = [])
  | LAny :: p =>
      (fix any (s : list bytes) : bool :=
         like_match p s || match s with [] => false | _ :: s => any s end) s
  | LOne :: p => match s with [] => false | _ :: s => like_match p s end
  | LChar c :: p => match s with [] => false | d :: s => bool_decide (c = d) && like_match p s end
  end.

(** The two [strings.ReplaceAll] calls. *)
Definition likePattern (pattern : string) : string :=
  Strings.ReplaceByte "?" "_" (Strings.ReplaceByte "*" "%" pattern).

Definition keys (pattern : string) : M (list string) :=
  let likePattern := likePattern pattern in
  ks ← stmt (λ now t,
    if needs_encoding likePattern
    then Fail (PgError "ERROR" "invalid byte sequence for encoding UTF8" "22021")
    else match like_parse (chars (bytes_of likePattern)) with
         | None => Fail (PgError "ERROR" "LIKE pattern must not end with escape character" "22025")
         | Some toks =>
             Ok (t, (filter (λ p : string * (string * expiry),
                       like_match toks (chars (bytes_of p.1)) = true ∧ live now p.2.2 = true)
                      (map_to_list (kv_meta t))).*1)
         end);
  mret (decodeKey <$> ks).

(** ** DEL *)

(** TYPE answers something else than none. *)
Definition has_type (key : string) (now : Z) (t : tables) : Prop :=
  default TypeNone (meta_type key now t) ≠ TypeNone.
#[export] Instance has_type_dec key now t : Decision (has_type key now t).
Proof. unfold has_type. apply _. Defined.

Definition live_keys (ks : list string) (now : Z) (t : tables) : gset string :=
  filter (λ k, has_type k now t) (list_to_set ks).

Lemma live_keys_nil now t : live_keys [] now t = ∅.
Proof. apply set_eq. intros x. unfold live_keys. rewrite elem_of_filter. set_solver. Qed.

Lemma same_key_has_type k now t t' : same_key k t t' → has_type k now t' ↔ has_type k now t.
Proof. intros (E & _). unfold has_type, meta_type. by rewrite E. Qed.

Lemma absent_has_type k now t : absent k t → ¬ has_type k now t.
Proof. intros (E & _) H. apply H. unfold meta_type. by rewrite E. Qed.

Lemma runs_del_loop now gonow ks d t :
  ∃ t', runs now gonow (del_loop ks d) t t' (Ok (d + Z.of_nat (size (live_keys ks now t)))%Z) ∧
        ∀ k, if decide (k ∈ live_keys ks now t) then absent k t' else same_key k t t'.
Proof.
  revert d t. induction ks as [|k ks IH]; intros d t; cbn [del_loop].
  { exists t. split.
    - eapply runs_eq; [apply runs_ret|done|]. rewrite live_keys_nil, size_empty.
      f_equal. lia.
    - intros k. rewrite live_keys_nil. by rewrite decide_False by set_solver. }
  destruct (decide (has_type k now t)) as [Hk|Hk].
  - destruct (IH (d + 1)%Z (cleared k t)) as (t' & Hr & Ht').
    assert (live_keys (k :: ks) now t = {[k]} ∪ live_keys ks now (cleared k t)) as El.
    { apply set_eq. intros x. unfold live_keys. rewrite list_to_set_cons.
      rewrite elem_of_union, !elem_of_filter, elem_of_union, elem_of_singleton.
      destruct (decide (x = k)) as [->|Hx]; [tauto|].
      rewrite (same_key_has_type x now t (cleared k t)); [tauto|].
      apply cleared_frame. by rewrite list_elem_of_singleton. }
    assert (k ∉ live_keys ks now (cleared k t)) as Hnk.
    { unfold live_keys. rewrite elem_of_filter. intros [H _].
      by apply (absent_has_type k now (cleared k t)) in H; [|apply cleared_absent]. }
    exists t'. split.
    + step. rewrite bool_decide_false by exact Hk. step.
      eapply runs_eq; [exact Hr|done|]. rewrite El, size_union, size_singleton by set_solver.
      f_equal. lia.
    + intros x. specialize (Ht' x). rewrite El.
      destruct (decide (x = k)) as [->|Hx].
      * rewrite decide_False in Ht' by done. rewrite decide_True by set_solver.
        unfold absent. etrans; [apply cleared_absent|done].
      * rewrite (decide_ext _ (x ∈ live_keys ks now (cleared k t))) by set_solver.
        case_decide; [done|]. etrans; [|exact Ht']. apply cleared_frame.
        by rewrite list_elem_of_singleton.
  - destruct (IH d t) as (t' & Hr & Ht').
    assert (live_keys (k :: ks) now t = live_keys ks now t) as ->.
    { apply set_eq. intros x. unfold live_keys. rewrite list_to_set_cons, !elem_of_filter, elem_of_union,
        elem_of_singleton. split; [|tauto]. intros [? [->|?]]; [done|tauto]. }
    exists t'. split; [|done]. step. by rewrite bool_decide_true by (by apply dec_stable).
Qed.

Lemma live_keys_perm ks ks' now t : ks ≡ₚ ks' → live_keys ks now t = live_keys ks' now t.
Proof. intros H. unfold live_keys. by rewrite H. Qed.

(** C34. DEL removes every listed key that exists, whatever its type, from all
    tables, and answers how many different ones there were (a key listed twice
    counts once); keys that are missing, or expired and not swept yet, and keys
    not listed, keep their rows; afterwards none of the listed keys has a type,
    and EXISTS of them answers zero. *)
Theorem del_correct now gonow ks t :
  let encs := encodeKey <$> ks in
  ∃ t', run now gonow (del ks) t = (t', Ok (Z.of_nat (size (live_keys encs now t)))) ∧
        (∀ k, if decide (k ∈ live_keys encs now t) then absent k t' else same_key k t t') ∧
        (∀ k, k ∈ encs → ¬ has_type k now t') ∧
        frame encs t t'.
Proof.
  intros encs. destruct (runs_del_loop now gonow (Sort.Strings encs) 0 t) as (t' & Hr & Ht').
  rewrite (live_keys_perm _ encs) in Hr, Ht' by apply Sort.Strings_Permutation.
  exists t'. split; [|split; [exact Ht'|split]].
  - apply runs_run. unfold del. rewrite encodeKeys_map. fold encs. exact Hr.
  - intros k Hk Hty. specialize (Ht' k). case_decide as Hd.
    + by apply (absent_has_type k now t').
    + apply Hd. unfold live_keys. rewrite elem_of_filter, elem_of_list_to_set.
      split; [|done]. by apply (same_key_has_type k now t t').
  - intros k Hk. specialize (Ht' k). rewrite decide_False in Ht'; [done|].
    unfold live_keys. rewrite elem_of_filter, elem_of_list_to_set. tauto.
Qed.

(** ** EXPIRE *)

Lemma set_expires2_lookup {B V} `{Countable B} (key : string) (x : expiry) (m : gmap (string * B) (V * expiry)) k b :
  set_expires2 key x m !! (k, b) = (λ r, if decide (k = key) then (r.1, x) else r) <$> m !! (k, b).
Proof.
  unfold set_expires2. rewrite map_lookup_imap. destruct (m !! (k, b)) as [r|]; [|done]. cbn.
  rewrite bool_decide_decide. by destruct (decide (k = key)).
Qed.

Lemma set_expires_set_lookup (key : string) x m k b :
  set_expires_set key x m !! (k, b) = (λ r, if decide (k = key) then x else r) <$> m !! (k, b).
Proof.
  unfold set_expires_set. rewrite map_lookup_imap. destruct (m !! (k, b)) as [r|]; [|done]. cbn.
  rewrite bool_decide_decide. by destruct (decide (k = key)).
Qed.

Lemma set_expires2_lookup_ne {B V} `{Countable B} (key : string) (x : expiry)
    (m : gmap (string * B) (V * expiry)) k b :
  k ≠ key → set_expires2 key x m !! (k, b) = m !! (k, b).
Proof.
  intros. rewrite set_expires2_lookup. destruct (m !! (k, b)); [|done]. cbn. by rewrite decide_False.
Qed.

Lemma set_expires_set_lookup_ne (key : string) x m k b :
  k ≠ key → set_expires_set key x m !! (k, b) = m !! (k, b).
Proof.
  intros. rewrite set_expires_set_lookup. destruct (m !! (k, b)); [|done]. cbn. by rewrite decide_False.
Qed.

Lemma table_set_expires_frame table key x t : frame [key] t (table_set_expires table key x t).
Proof.
  unfold table_set_expires.
  repeat case_if; [apply frame_upd_strings|apply frame_upd_hashes|apply frame_upd_lists
    |apply frame_upd_sets|apply frame_upd_zsets|apply frame_upd_hll|done]; intros;
    first [by apply set_expires_lookup_ne|by apply set_expires2_lookup_ne|by apply set_expires_set_lookup_ne].
Qed.

Lemma table_set_expires_meta table key x t : kv_meta (table_set_expires table key x t) = kv_meta t.
Proof. unfold table_set_expires. by repeat case_if. Qed.

(** *** Whole seconds *)

Lemma rne_bounds n d : (0 < d)%Z → (n / d <= rne n d <= n / d + 1)%Z.
Proof. intros Hd. unfold rne. repeat case_match; lia. Qed.
(** Rounding is monotone at the integers. *)
Lemma rne_ge a n d : (0 < d → a * d <= n → a <= rne n d)%Z.
Proof. intros Hd H. pose proof (rne_bounds n d Hd). pose proof (Z.div_le_lower_bound n d a Hd). lia. Qed.
Lemma rne_le a n d : (0 < d → n <= a * d → rne n d <= a)%Z.
Proof.
  intros Hd H. pose proof (rne_bounds n d Hd). destruct (decide (n = a * d)%Z) as [->|Hn].
  - unfold rne. rewrite Z.div_mul, Z.mod_mul by lia. case_match eqn:E; [lia|]. apply Z.ltb_ge in E. lia.
  - assert (n / d < a)%Z by (apply Z.div_lt_upper_bound; lia). lia.
Qed.

(** The double nearest to [n/d], when [n/d] is below [2^35]: [m * 2^e] with at
    least ten fractional bits, on the same side of every multiple of [2^-10]. *)
Lemma round53_spec n d :
  (0 <= n → 0 < d → n <= 2 ^ 35 * d →
   let '(m, e) := round53 n d in
   (e = 0 ∧ m = 0 ∧ n = 0) ∨
   (e <= -10 ∧ ∀ a, (a * d <= n * 2 ^ 10 → a * 2 ^ (- e - 10) <= m) ∧
                    (n * 2 ^ 10 <= a * d → m <= a * 2 ^ (- e - 10))))%Z.
Proof.
  intros Hn Hd Hle. unfold round53. destruct (Z.eqb_spec n 0) as [->|H0]; [by left|].
  assert (Z.log2 n <= 35 + Z.log2 d)%Z as Hl.
  { etrans; [by apply Z.log2_le_mono|]. rewrite Z.mul_comm, Z.log2_mul_pow2 by lia. lia. }
  set (e0 := (Z.log2 n - Z.log2 d - 52)%Z). assert (e0 <= -17)%Z as He0 by (unfold e0; lia).
  rewrite (proj2 (Z.ltb_lt e0 0)) by lia.
  set (e := if (_ <? _)%Z then (e0 - 1)%Z else e0). assert (e <= -17)%Z as He by (unfold e; case_match; lia).
  clearbody e. rewrite (proj2 (Z.ltb_lt e 0)) by lia. right. split; [lia|]. intros a.
  assert (2 ^ (- e) = 2 ^ 10 * 2 ^ (- e - 10))%Z as Hp by (rewrite <-Z.pow_add_r by lia; f_equal; lia).
  assert (0 < 2 ^ (- e - 10))%Z as Hpos by (apply Z.pow_pos_nonneg; lia). rewrite Hp.
  set (P := (2 ^ (- e - 10))%Z) in *. set (Q := (2 ^ 10)%Z) in *.
  split; intros H; [apply rne_ge|apply rne_le]; try done; nia.
Qed.

(** [int64(d.Seconds())] drops the fraction of a second, except that the last
    thousandth of it may be rounded up. *)
Lemma int64_Seconds_spec d :
  (0 <= d < 2 ^ 63)%Z →
  int64_Seconds d = (d / 10 ^ 9)%Z ∨
  (int64_Seconds d = d / 10 ^ 9 + 1 ∧ 1023 * 10 ^ 9 < 1024 * (d mod 10 ^ 9))%Z.
Proof.
  intros Hd. unfold int64_Seconds. change 1000000000%Z with (10 ^ 9)%Z.
  pose proof (Z.mod_pos_bound d (10 ^ 9) ltac:(lia)) as Hm.
  assert (0 <= d / 10 ^ 9 <= 2 ^ 34)%Z as Hs by (split; [apply Z.div_pos; lia|apply Z.div_le_upper_bound; lia]).
  set (sec := (d / 10 ^ 9)%Z) in *. set (nsec := (d mod 10 ^ 9)%Z) in *.
  pose proof (round53_spec nsec (10 ^ 9) ltac:(lia) ltac:(lia) ltac:(lia)) as H1.
  destruct (round53 nsec (10 ^ 9)) as [m1 e1].
  set (scale := (2 ^ (- e1))%Z).
  assert (0 < scale ∧ 0 <= m1 <= scale ∧ (1024 * nsec <= 1023 * 10 ^ 9 → 1024 * m1 <= 1023 * scale))%Z as (Hsc & Hm1 & Hf1).
  { unfold scale. destruct H1 as [(-> & -> & ?)|[He H1]]; [cbn; lia|].
    assert (2 ^ (- e1) = 2 ^ 10 * 2 ^ (- e1 - 10))%Z as -> by (rewrite <-Z.pow_add_r by lia; f_equal; lia).
    assert (0 < 2 ^ (- e1 - 10))%Z by (apply Z.pow_pos_nonneg; lia).
    pose proof (proj1 (H1 0%Z)). pose proof (proj2 (H1 1024%Z)). pose proof (proj2 (H1 1023%Z)).
    set (P := (2 ^ (- e1 - 10))%Z) in *. change (2 ^ 10)%Z with 1024%Z in *. lia. }
  clearbody scale. clear H1.
  pose proof (round53_spec (sec * scale + m1) scale ltac:(nia) Hsc ltac:(nia)) as H2.
  destruct (round53 (sec * scale + m1) scale) as [m2 e2].
  destruct H2 as [(-> & -> & ?)|[He H2]]; [left; cbn; nia|].
  rewrite (proj2 (Z.ltb_lt e2 0)) by lia.
  assert (2 ^ (- e2) = 1024 * 2 ^ (- e2 - 10))%Z as ->.
  { change 1024%Z with (2 ^ 10)%Z. rewrite <-Z.pow_add_r by lia. f_equal. lia. }
  assert (0 < 2 ^ (- e2 - 10))%Z by (apply Z.pow_pos_nonneg; lia).
  pose proof (proj1 (H2 (1024 * sec)%Z)) as Hlo. pose proof (proj2 (H2 (1024 * sec + 1024)%Z)) as Hhi.
  pose proof (proj2 (H2 (1024 * sec + 1023)%Z)) as Hx. clear H2. change (2 ^ 10)%Z with 1024%Z in *.
  set (P := (2 ^ (- e2 - 10))%Z) in *.
  assert (sec <= m2 / (1024 * P))%Z by (apply Z.div_le_lower_bound; nia).
  destruct (decide (1024 * nsec <= 1023 * 10 ^ 9)%Z) as [Hn|Hn].
  - left. assert (m2 / (1024 * P) < sec + 1)%Z; [|lia]. apply Z.div_lt_upper_bound; nia.
  - assert (m2 / (1024 * P) <= sec + 1)%Z by (apply Z.div_le_upper_bound; nia).
    destruct (decide (m2 / (1024 * P) = sec)%Z); [by left|right]. lia.
Qed.

(** The flags as Redis documents them, for a row with expiry [x]: [None] is
    "never", later than every time. *)
Definition expire_allowed (opts : ExpireOptions) (new now : Z) (x : expiry) : Prop :=
  live now x = true ∧
  (NX opts = true → x = None) ∧ (XX opts = true → x ≠ None) ∧
  (GT opts = true → ∃ c, x = Some c ∧ (c < new)%Z) ∧
  (LT opts = true → ∀ c, x = Some c → (new < c)%Z).

(** At most one flag is given. *)
Definition one_flag (opts : ExpireOptions) : Prop :=
  (Z.b2z (NX opts) + Z.b2z (XX opts) + Z.b2z (GT opts) + Z.b2z (LT opts) <= 1)%Z.

Lemma expireWhereClause_spec opts new now x :
  one_flag opts → expireWhereClause opts new now x = true ↔ expire_allowed opts new now x.
Proof.
  unfold one_flag, expireWhereClause, expire_allowed, live.
  destruct opts as [[] [] [] []]; cbn; try lia; intros _; destruct x as [c|];
    rewrite ?andb_true_iff, ?Z.ltb_lt; split; try done; intros; naive_solver.
Qed.

(** The data rows of the key, in the table of its type, carry expiry [x]. The
    row of a HyperLogLog is left as it is: [dataTableForType] knows no table
    for that type. *)
Definition data_expiry (kt : string) (enc : string) (x : expiry) (t t' : tables) : Prop :=
  (kt = TypeString → kv_strings t' !! enc = (λ r, (r.1, x)) <$> kv_strings t !! enc) ∧
  (kt = TypeHash → ∀ f, kv_hashes t' !! (enc, f) = (λ r, (r.1, x)) <$> kv_hashes t !! (enc, f)) ∧
  (kt = TypeList → ∀ i, kv_lists t' !! (enc, i) = (λ r, (r.1, x)) <$> kv_lists t !! (enc, i)) ∧
  (kt = TypeSet → ∀ m, kv_sets t' !! (enc, m) = (λ _, x) <$> kv_sets t !! (enc, m)) ∧
  (kt = TypeZSet → ∀ m, kv_zsets t' !! (enc, m) = (λ r, (r.1, x)) <$> kv_zsets t !! (enc, m)) ∧
  (kt = "hyperloglog" → kv_hyperloglog t' !! enc = kv_hyperloglog t !! enc).

Lemma table_set_expires_data kt enc x t :
  data_expiry kt enc x t (table_set_expires (dataTableForType kt) enc x t).
Proof.
  split_and!; intros ->.
  - change (table_set_expires _ enc x t) with (upd_strings (set_expires enc x) t). cbn.
    apply set_expires_lookup.
  - intros f. change (table_set_expires _ enc x t) with (upd_hashes (set_expires2 enc x) t). cbn.
    rewrite set_expires2_lookup. destruct (_ !! _); [|done]. cbn. by rewrite decide_True.
  - intros i. change (table_set_expires _ enc x t) with (upd_lists (set_expires2 enc x) t). cbn.
    rewrite set_expires2_lookup. destruct (_ !! _); [|done]. cbn. by rewrite decide_True.
  - intros m. change (table_set_expires _ enc x t) with (upd_sets (set_expires_set enc x) t). cbn.
    rewrite set_expires_set_lookup. destruct (_ !! _); [|done]. cbn. by rewrite decide_True.
  - intros m. change (table_set_expires _ enc x t) with (upd_zsets (set_expires2 enc x) t). cbn.
    rewrite set_expires2_lookup. destruct (_ !! _); [|done]. cbn. by rewrite decide_True.
  - done.
Qed.

Lemma saturate_range d : (- 2 ^ 63 <= saturate d < 2 ^ 63)%Z.
Proof. unfold saturate. lia. Qed.
Lemma saturate_nonneg d : (0 <= d)%Z → saturate d = Z.min (2 ^ 63 - 1) d.
Proof. unfold saturate. lia. Qed.
Lemma saturate_id d : (- 2 ^ 63 <= d < 2 ^ 63)%Z → saturate d = d.
Proof. unfold saturate. lia. Qed.

Lemma runs_expire_common now gonow enc new opts t :
  runs now gonow
    (row ← update_meta_expiry opts enc new;
     match row with
     | None => mret false
     | Some keyType =>
         let table := dataTableForType keyType in
         if bool_decide (table = "") then mret true
         else exec (λ _, table_set_expires table enc (Some new));; mret true
     end) t
    (match kv_meta t !! enc with
     | Some (kt, x) =>
         if expireWhereClause opts new now x
         then table_set_expires (dataTableForType kt) enc (Some new)
                (upd_meta <[enc := (kt, Some new)]> t)
         else t
     | None => t
     end)
    (Ok (match kv_meta t !! enc with
         | Some (_, x) => expireWhereClause opts new now x
         | None => false
         end)).
Proof.
  destruct (kv_meta t !! enc) as [[kt x]|] eqn:E.
  - destruct (expireWhereClause opts new now x) eqn:Ew.
    + eapply runs_bind; [apply runs_stmt; rewrite E, Ew; done|]. cbv beta iota zeta.
      case_if; zify_bool; [rewrite Hb; eapply runs_eq; [apply runs_ret|done|done]|].
      step. finish.
    + eapply runs_bind; [apply runs_stmt; rewrite E, Ew; done|]. apply runs_ret.
  - eapply runs_bind; [apply runs_stmt; rewrite E; done|]. apply runs_ret.
Qed.

(** C33. EXPIRE and its flags: with at most one of NX, XX, GT and LT, the answer
    is 1 exactly when the key is live and the documented condition of the flag
    holds (a key without expiry counts as never expiring). Then the meta row
    and every data row of a string, hash, list, set or sorted set get the new
    expiry, so that the key and its value disappear together, while the row of
    a HyperLogLog keeps the expiry it had; otherwise nothing changes. PTTL,
    asked at the same instant, answers the duration rounded down to what the
    database stores, or the longest duration of Go where that is shorter. *)
Theorem expire_correct now gonow key d opts t :
  one_flag opts →
  let enc := encodeKey key in
  let new := timestamptz (gonow + d) in
  ∃ t' ok, run now gonow (expire key d opts) t = (t', Ok ok) ∧ frame [enc] t t' ∧
    (ok = true ↔ ∃ kt x, kv_meta t !! enc = Some (kt, x) ∧ expire_allowed opts new now x) ∧
    (ok = false → t' = t) ∧
    (ok = true → ∃ kt x, kv_meta t !! enc = Some (kt, x) ∧
       kv_meta t' !! enc = Some (kt, Some new) ∧ data_expiry kt enc (Some new) t t' ∧
       ((now < new)%Z → (0 <= new * 1000 - gonow)%Z →
        run now gonow (pttl key) t' = (t', Ok (Z.min (2 ^ 63 - 1) (new * 1000 - gonow) / 1000000)%Z))).
Proof.
  intros Hone enc new. eexists _, _. split.
  { apply runs_run. unfold expire. step. step. exact (runs_expire_common now gonow enc new opts t). }
  destruct (kv_meta t !! enc) as [[kt x]|] eqn:E.
  2: { split_and!; [done| |done|done]. split; [done|]. intros (? & ? & ? & _). done. }
  pose proof (expireWhereClause_spec opts new now x Hone) as Hw.
  destruct (expireWhereClause opts new now x) eqn:Ew.
  - split; [eapply frame_trans; [apply frame_insert_meta|apply table_set_expires_frame]|].
    split; [split; [intros _; exists kt, x; split; [done|by apply Hw]|done]|].
    split; [done|]. intros _. exists kt, x.
    set (t' := table_set_expires _ _ _ _).
    assert (kv_meta t' !! enc = Some (kt, Some new)) as Hm.
    { unfold t'. rewrite table_set_expires_meta. cbn. apply lookup_insert_eq. }
    split; [done|]. split; [exact Hm|].
    split; [exact (table_set_expires_data kt enc (Some new) (upd_meta <[enc := (kt, Some new)]> t))|].
    intros Hl Hp. apply runs_run. unfold pttl. step. unfold sel_expiry. fold enc. rewrite Hm. cbn.
    rewrite (proj2 (Z.ltb_lt _ _)) by done. unfold until_. step. cbn [go_now quiet].
    rewrite saturate_nonneg by done. rewrite Z.quot_div_nonneg by lia.
    rewrite (proj2 (Z.ltb_ge _ _)) by (apply Z.div_pos; lia). finish.
  - split; [done|]. split; [|done].
    split; [done|]. intros (kt' & x' & [= <- <-] & Ha). apply Hw in Ha. done.
Qed.

Definition db_expire : tables :=
  Tables {[ "h" := ("hash", None) ]} ∅ {[ ("h", "f") := ("v", None) ]} ∅ ∅ ∅ ∅.

Lemma expire_correct_witness :
  one_flag (MkExpireOptions true false false false) ∧
  ∃ t', run 10 10000 (expire "h" 5000000 (MkExpireOptions true false false false)) db_expire = (t', Ok true)
        ∧ kv_hashes t' !! ("h", "f") = Some ("v", Some 5010%Z).
Proof.
  assert (one_flag (MkExpireOptions true false false false)) as H by (unfold one_flag; cbn; lia).
  split; [exact H|].
  destruct (expire_correct 10 10000 "h" 5000000 _ db_expire H) as (t' & ok & E & _ & Hiff & _ & Ht).
  assert (ok = true) as Hok.
  { apply Hiff. exists "hash", None. split; [reflexivity|]. unfold expire_allowed. cbn. naive_solver. }
  subst ok. exists t'. split; [exact E|]. destruct (Ht eq_refl) as (kt & x & Hm & _ & (_ & Hh & _) & _).
  injection Hm as <- <-.
  etrans; [exact (Hh eq_refl "f")|reflexivity].
Defined.

(** ** RENAME and COPY *)

Lemma rekey_spec {V} old new (m : gmap string V) :
  old ≠ new → m !! new = None →
  ∃ m', rekey old new m = Some m' ∧
    ∀ k, m' !! k = if decide (k = new) then m !! old else if decide (k = old) then None else m !! k.
Proof.
  intros Hne Hn. unfold rekey. destruct (m !! old) as [r|] eqn:Eo.
  - rewrite bool_decide_false by (intros [_ [? ?]]; congruence). eexists. split; [done|]. intros k.
    repeat case_decide; simplify_eq.
    + apply lookup_insert_eq.
    + by rewrite lookup_insert_ne, lookup_delete_eq by done.
    + by rewrite lookup_insert_ne, lookup_delete_ne by done.
  - eexists. split; [done|]. intros k. repeat case_decide; simplify_eq; congruence.
Qed.

Lemma rekey2_fold {B V} `{Countable B} (old new : string) (rest mine : gmap (string * B) V) :
  (∀ p r, mine !! p = Some r → p.1 = old) →
  ∀ k b, map_fold (λ p r acc, <[(new, p.2) := r]> acc) rest mine !! (k, b) =
    if decide (k = new) then match mine !! (old, b) with Some r => Some r | None => rest !! (k, b) end
    else rest !! (k, b).
Proof.
  revert mine. apply (map_fold_weak_ind (λ acc mine,
    (∀ p r, mine !! p = Some r → p.1 = old) → ∀ k b, acc !! (k, b) =
      if decide (k = new) then match mine !! (old, b) with Some r => Some r | None => rest !! (k, b) end
      else rest !! (k, b))).
  - intros _ k b. rewrite lookup_empty. by case_decide.
  - intros [o b0] r mine acc Hnone IH Hold k b.
    assert (o = old) as -> by (apply (Hold (o, b0) r), lookup_insert_eq).
    assert (∀ p r', mine !! p = Some r' → p.1 = old) as Hold'.
    { intros p r' Hp. apply (Hold p r'). rewrite lookup_insert_ne; [done|]. congruence. }
    cbn [snd]. destruct (decide (b = b0)) as [->|Hb].
    + destruct (decide (k = new)) as [->|Hk].
      * by rewrite !lookup_insert_eq.
      * rewrite lookup_insert_ne by congruence. rewrite IH by done. by rewrite decide_False.
    + rewrite !lookup_insert_ne by congruence. by apply IH.
Qed.

Lemma rekey2_spec {B V} `{Countable B} (old new : string) (m : gmap (string * B) V) :
  old ≠ new → (∀ b, m !! (new, b) = None) →
  ∃ m', rekey2 old new m = Some m' ∧
    ∀ k b, m' !! (k, b) =
      if decide (k = new) then m !! (old, b) else if decide (k = old) then None else m !! (k, b).
Proof.
  intros Hne Hn. unfold rekey2. rewrite bool_decide_false.
  2: { intros (p & r & _ & [r' Hr]). rewrite drop_key_lookup in Hr. case_decide; [done|].
       by rewrite Hn in Hr. }
  eexists. split; [done|]. intros k b. rewrite (rekey2_fold old new).
  2: { intros p r [_ Hp]%map_lookup_filter_Some. exact Hp. }
  rewrite !drop_key_lookup, map_lookup_filter. repeat case_decide; simplify_eq; try done.
  destruct (m !! (old, b)) as [r|] eqn:E; cbn; [by case_guard|]. apply Hn.
Qed.

(** The data rows of type [kt] move from [old] to [new]. *)
Definition data_moved (kt old new : string) (t t' : tables) : Prop :=
  (kt = TypeString → kv_strings t' !! new = kv_strings t !! old ∧ kv_strings t' !! old = None) ∧
  (kt = TypeHash → ∀ f, kv_hashes t' !! (new, f) = kv_hashes t !! (old, f) ∧ kv_hashes t' !! (old, f) = None) ∧
  (kt = TypeList → ∀ i, kv_lists t' !! (new, i) = kv_lists t !! (old, i) ∧ kv_lists t' !! (old, i) = None) ∧
  (kt = TypeSet → ∀ m, kv_sets t' !! (new, m) = kv_sets t !! (old, m) ∧ kv_sets t' !! (old, m) = None) ∧
  (kt = TypeZSet → ∀ m, kv_zsets t' !! (new, m) = kv_zsets t !! (old, m) ∧ kv_zsets t' !! (old, m) = None).

(** The five types the server stores. *)
Definition known_type (kt : string) : Prop :=
  kt = TypeString ∨ kt = TypeHash ∨ kt = TypeList ∨ kt = TypeSet ∨ kt = TypeZSet.

Ltac rekey_case H :=
  destruct H as (m' & E & Hm');
  eexists; (split; [unfold table_rekey; cbn; rewrite E; reflexivity|]);
  split; [by cbn|split];
  [split_and!; intros Hkt; try discriminate Hkt; try (intros ?); cbn;
     rewrite ?Hm', ?decide_True by done; (split; [done|]); rewrite ?Hm';
     try (rewrite decide_False by congruence); try (by rewrite decide_True)
  |intros k Hk; rewrite !not_elem_of_cons in Hk; destruct Hk as (? & ? & _);
   split_and!; cbn; try done; intros; rewrite Hm', !decide_False by done; done].

(** No data rows under the key. *)
Definition data_absent (k : string) (t : tables) : Prop :=
  kv_strings t !! k = None ∧ (∀ f, kv_hashes t !! (k, f) = None) ∧
  (∀ i, kv_lists t !! (k, i) = None) ∧ (∀ m, kv_sets t !! (k, m) = None) ∧
  (∀ m, kv_zsets t !! (k, m) = None).

Lemma absent_data k t : absent k t → data_absent k t.
Proof. intros (_ & ? & ? & ? & ? & ? & _). by split_and!. Qed.

Lemma table_rekey_spec kt old new t :
  old ≠ new → known_type kt → data_absent new t →
  ∃ t', table_rekey (dataTableForType kt) old new t = Some t' ∧ kv_meta t' = kv_meta t ∧
        data_moved kt old new t t' ∧ frame [old; new] t t'.
Proof.
  intros Hne Hkt (Hs & Hh & Hl & Hse & Hz).
  destruct Hkt as [->|[->|[->|[->| ->]]]].
  - rekey_case (rekey_spec old new _ Hne Hs).
  - rekey_case (rekey2_spec old new _ Hne Hh).
  - rekey_case (rekey2_spec old new _ Hne Hl).
  - rekey_case (rekey2_spec old new _ Hne Hse).
  - rekey_case (rekey2_spec old new _ Hne Hz).
Qed.

Lemma known_type_table kt : known_type kt → dataTableForType kt ≠ "" ∧ kt ≠ TypeNone.
Proof. by intros [->|[->|[->|[->| ->]]]]. Qed.

Lemma meta_type_Some key now t kt :
  meta_type key now t = Some kt → ∃ x, kv_meta t !! key = Some (kt, x) ∧ live now x = true.
Proof.
  unfold meta_type, live_row. destruct (kv_meta t !! key) as [[kt' x]|]; [|done].
  destruct (live now x) eqn:E; [|done]. intros [= ->]. by exists x.
Qed.

Lemma runs_rename now gonow ok nk kt t :
  let old := encodeKey ok in let new := encodeKey nk in
  old ≠ new → known_type kt → meta_type old now t = Some kt →
  ∃ t', runs now gonow (rename ok nk) t t' (Ok tt) ∧
    kv_meta t' !! new = kv_meta t !! old ∧ kv_meta t' !! old = None ∧
    data_moved kt old new t t' ∧ frame [old; new] t t'.
Proof.
  intros old new Hne Hk Hty. destruct (known_type_table kt Hk) as [Htab Hnone].
  pose proof (cleared_absent new t) as Habs. pose proof (cleared_frame new t) as Hfr.
  assert (same_key old t (cleared new t)) as Hold.
  { apply Hfr. by rewrite list_elem_of_singleton. }
  destruct (rekey_spec old new (kv_meta (cleared new t)) Hne (proj1 Habs)) as (mm & Emm & Hmm).
  set (t1 := upd_meta (λ _, mm) (cleared new t)).
  destruct (table_rekey_spec kt old new t1 Hne Hk (absent_data _ _ Habs)) as (t' & Et' & Hmt' & Hdata & Hframe).
  exists t'. split.
  { unfold rename. step. step. fold old. rewrite Hty. cbn [default from_option id].
    rewrite bool_decide_false by done. step. cbv zeta. rewrite bool_decide_false by done.
    eapply runs_bind; [apply runs_stmt; fold old new; rewrite Emm; done|].
    apply runs_stmt. fold old new. fold t1. by rewrite Et'. }
  destruct Hold as (Hm & Hs & Hh & Hl & Hse & Hz & Hy).
  rewrite Hmt'. cbn. rewrite !Hmm, decide_True, decide_False, decide_True by done.
  split; [exact Hm|]. split; [done|]. split.
  - destruct Hdata as (D1 & D2 & D3 & D4 & D5). cbn in D1, D2, D3, D4, D5.
    split_and!; intros Ek; try intros x;
      [rewrite <-Hs; by apply D1|rewrite <-Hh; by apply D2|rewrite <-Hl; by apply D3
      |rewrite <-Hse; by apply D4|rewrite <-Hz; by apply D5].
  - etrans; [|exact Hframe]. intros k Hk'. rewrite !not_elem_of_cons in Hk'. destruct Hk' as (? & ? & _).
    etrans; [apply Hfr; by rewrite list_elem_of_singleton|].
    split_and!; try done. cbn. by rewrite Hmm, !decide_False.
Qed.

(** RENAME of a live key to a different name moves its meta row (type and
    expiry) and all its data rows to the new name, removes whatever the new
    name held, leaves nothing under the old name, and touches no other key; a
    key that does not exist is an error and changes nothing. *)
Theorem rename_correct now gonow ok nk t :
  let old := encodeKey ok in let new := encodeKey nk in
  old ≠ new →
  match meta_type old now t with
  | None => run now gonow (rename ok nk) t = (t, Fail errNoSuchKey)
  | Some kt =>
      known_type kt →
      ∃ t', run now gonow (rename ok nk) t = (t', Ok tt) ∧
        kv_meta t' !! new = kv_meta t !! old ∧ kv_meta t' !! old = None ∧
        data_moved kt old new t t' ∧ frame [old; new] t t'
  end.
Proof.
  intros old new Hne. destruct (meta_type old now t) as [kt|] eqn:Hty.
  - intros Hk. destruct (runs_rename now gonow ok nk kt t Hne Hk Hty) as (t' & Hr & H).
    exists t'. split; [by apply runs_run|exact H].
  - apply runs_run. unfold rename. step. step. fold old. rewrite Hty. cbn [default from_option id].
    rewrite bool_decide_true by done. finish.
Qed.

Lemma rename_correct_witness :
  encodeKey "h" ≠ encodeKey "g" ∧ known_type "hash" ∧
  ∃ t', run 10 0 (rename "h" "g") db_expire = (t', Ok tt) ∧
        kv_hashes t' !! ("g", "f") = Some ("v", None).
Proof.
  assert (encodeKey "h" ≠ encodeKey "g") as Hne by (vm_compute; discriminate).
  assert (known_type "hash") as Hk by (right; left; reflexivity).
  split; [exact Hne|]. split; [exact Hk|].
  destruct (rename_correct 10 0 "h" "g" db_expire Hne Hk) as (t' & E & _ & _ & (_ & Hh & _) & _).
  exists t'. split; [exact E|]. exact (proj1 (Hh eq_refl "f")).
Defined.

(** RENAME of a key to itself destroys it: the command answers OK, and the
    key and all its data are gone. *)
Theorem rename_same_key_deletes now gonow key kt t :
  meta_type (encodeKey key) now t = Some kt → known_type kt →
  ∃ t', run now gonow (rename key key) t = (t', Ok tt) ∧ absent (encodeKey key) t'.
Proof.
  intros Hty Hk. destruct (known_type_table kt Hk) as [Htab Hnone]. set (enc := encodeKey key) in *.
  pose proof (cleared_absent enc t) as Habs. exists (cleared enc t). split; [|exact Habs].
  apply runs_run. unfold rename. step. step. fold enc. rewrite Hty. cbn [default from_option id].
  rewrite bool_decide_false by done. step. cbv zeta. rewrite bool_decide_false by done.
  destruct Habs as (Hm & Hs & Hh & Hl & Hse & Hz & _). cbn in Hm, Hs, Hh, Hl, Hse, Hz.
  assert (rekey enc enc (kv_meta (cleared enc t)) = Some (kv_meta (cleared enc t))) as Emeta.
  { unfold rekey. cbn. by rewrite Hm. }
  eapply runs_bind; [apply runs_stmt; fold enc; rewrite Emeta; done|].
  apply runs_stmt. fold enc.
  assert (∀ {B V} `{Countable B} (m : gmap (string * B) V), rekey2 enc enc (drop_key enc m) = Some (drop_key enc m))
    as E2.
  { intros B V ? ? m. unfold rekey2.
    assert (filter (λ p : (string * B) * V, p.1.1 = enc) (drop_key enc m) = ∅) as ->.
    { apply map_empty. intros [k b]. rewrite map_lookup_filter, drop_key_lookup.
      case_decide; [done|]. destruct (m !! (k, b)); [|done]. cbn. by rewrite option_guard_False. }
    rewrite bool_decide_false by (intros (? & ? & ? & _); done).
    f_equal. rewrite map_fold_empty. apply map_eq. intros [k b]. rewrite !drop_key_lookup.
    by case_decide. }
  unfold table_rekey. cbn.
  destruct Hk as [->|[->|[->|[->| ->]]]]; cbn; rewrite ?E2; try done.
  unfold rekey. by rewrite Hs.
Qed.

Lemma rename_same_key_deletes_witness :
  meta_type (encodeKey "h") 10 db_expire = Some "hash" ∧
  ∃ t', run 10 0 (rename "h" "h") db_expire = (t', Ok tt) ∧ absent (encodeKey "h") t'.
Proof.
  split; [reflexivity|].
  apply (rename_same_key_deletes 10 0 "h" "hash" db_expire); [reflexivity|right; left; reflexivity].
Defined.

(** The key has at least one data row in the table of its type. *)
Definition has_rows (kt enc : string) (t : tables) : Prop :=
  (kt = TypeHash → ∃ f, is_Some (kv_hashes t !! (enc, f))) ∧
  (kt = TypeList → ∃ i, is_Some (kv_lists t !! (enc, i))) ∧
  (kt = TypeSet → ∃ m, is_Some (kv_sets t !! (enc, m))) ∧
  (kt = TypeZSet → ∃ m, is_Some (kv_zsets t !! (enc, m))).

(** COPY of a hash, list, set or sorted set that has any rows always
    fails: the row-by-row INSERT is sent while the SELECT's result set is still
    open on the transaction's connection. Only strings can be copied. *)
Theorem copyKey_collections_fail now gonow src dst (replace : bool) kt t :
  let enc := encodeKey src in
  meta_type enc now t = Some kt → known_type kt → kt ≠ TypeString →
  encodeKey dst ≠ enc →
  meta_type (encodeKey dst) now t = None →
  has_rows kt enc t →
  ∃ t', run now gonow (copyKey src dst replace) t = (t', Fail conn_busy).
Proof.
  intros enc Hty Hk Hns Hne Hdst (Hh & Hl & Hs & Hz).
  assert (∀ {B V} `{Countable B} (m : gmap (string * B) V) b,
            is_Some (m !! (enc, b)) → ∃ r rs, rows_of enc m = r :: rs) as Hrows.
  { intros B V ? ? m b [v Hv]. unfold rows_of.
    assert (((enc, b), v) ∈ map_to_list (filter (λ p : (string * B) * V, p.1.1 = enc) m)) as Hin.
    { apply elem_of_map_to_list, map_lookup_filter_Some. done. }
    destruct (map_to_list _) as [|r rs]; [by apply not_elem_of_nil in Hin|]. cbn. eauto. }
  exists (upd_meta <[encodeKey dst := (kt, None)]> t).
  apply runs_run. unfold copyKey. step. step. fold enc. rewrite Hty. cbn [default from_option id].
  destruct (known_type_table kt Hk) as [_ Hnone]. rewrite bool_decide_false by done.
  step. rewrite Hdst. cbn [default from_option id].
  rewrite bool_decide_false by tauto. cbn [andb]. step. eapply runs_bind_fail.
  destruct Hk as [->|[->|[->|[->| ->]]]]; [done|..]; cbn;
    (eapply runs_bind; [apply runs_setMeta|]); (eapply runs_bind; [apply runs_query|]); cbn.
  - destruct (Hh eq_refl) as [b Hb]. destruct (Hrows _ _ _ _ _ b Hb) as (? & ? & ->). apply runs_throw.
  - destruct (Hl eq_refl) as [b Hb]. destruct (Hrows _ _ _ _ _ b Hb) as (? & ? & ->). apply runs_throw.
  - destruct (Hs eq_refl) as [b Hb]. destruct (Hrows _ _ _ _ _ b Hb) as (? & ? & ->). apply runs_throw.
  - destruct (Hz eq_refl) as [b Hb]. destruct (Hrows _ _ _ _ _ b Hb) as (? & ? & ->). apply runs_throw.
Qed.

Lemma copyKey_collections_fail_witness :
  meta_type "h" 10 db_expire = Some "hash" ∧
  ∃ t', run 10 0 (copyKey "h" "g" false) db_expire = (t', Fail conn_busy).
Proof.
  split; [reflexivity|].
  apply (copyKey_collections_fail 10 0 "h" "g" false "hash" db_expire);
    [reflexivity|right; left; reflexivity|discriminate|vm_compute; discriminate|reflexivity
    |split_and!; [intros _; exists "f"; eexists; reflexivity|discriminate..]].
Defined.

End KeyOps.
