(* ===== verification/StoreHash.v ===== *)
(** * Hash commands of the storage layer: internal/storage/querier.go

    HGET, HSET, HDEL, HGETALL, HMGET, HEXISTS, HKEYS, HVALS, HLEN, HINCRBY,
    HINCRBYFLOAT and HSETNX. A hash is the finite map from field names to
    values that the live rows of the key spell ([hash_of]); the theorems say
    what each command does to that map. *)
From stdpp Require Import gmap strings list sorting.
From Stdlib Require Import ZArith Lia Ascii.
From S2P Require Import Prelude GoStd KeyCodec Db StoreMeta StoreStrings StoreKeys.
Import Db KeyCodec Meta StringOps KeyOps.

Module HashOps.

(** [SELECT value FROM kv_hashes WHERE key = $1 AND field = $2 AND (live)] *)
Definition sel_field (key field : string) (now : Z) (t : tables) : option string :=
  live_row now (kv_hashes t !! (key, field)).

(** [SELECT field, value FROM kv_hashes WHERE key = $1 AND (live)]: the rows in
    the order the server returns them. *)
Definition live_fields (key : string) (now : Z) (t : tables) : list (string * string) :=
  omap (λ r : string * (string * expiry), pair r.1 <$> live_row now (Some r.2))
    (rows_of key (kv_hashes t)).

(** [if keyType != TypeNone && keyType != expected { WRONGTYPE }] *)
Definition requireType (expected : KeyType) (key : string) : M unit :=
  keyType ← getKeyType key;
  if bool_decide (keyType ≠ TypeNone) && bool_decide (keyType ≠ expected)
  then throw errWrongType else mret tt.

Definition hGet (key field : string) : M (option string) :=
  let key := encodeKey key in
  query (sel_field key (encodeField field)).

(** [INSERT INTO kv_hashes ... ON CONFLICT (key, field) DO UPDATE SET value]:
    the row's [expires_at] is kept. *)
Definition upsert_field (key : string) (m : gmap (string * string) (string * expiry))
    (fv : string * string) : gmap (string * string) (string * expiry) :=
  <[(key, fv.1) := (fv.2, match m !! (key, fv.1) with Some (_, x) => x | None => None end)]> m.

Definition cardinality_violation : goerror :=
  PgError "ERROR" "ON CONFLICT DO UPDATE command cannot affect row a second time" "21000".

(** [fields] lists the entries of the Go map in the order of one iteration. *)
Definition hSet (key : string) (fields : list (string * string)) : M Z :=
  let key := encodeKey key in
  match fields with
  | [] => mret 0%Z
  | _ =>
      requireType TypeHash key;;
      let fieldNames := encodeField <$> fields.*1 in
      let fieldValues := fields.*2 in
      existingCount ← query (λ _ t, Z.of_nat (size
        (filter (λ p : (string * string) * (string * expiry), p.1.1 = key ∧ p.1.2 ∈ fieldNames)
           (kv_hashes t))));
      setMeta key TypeHash None;;
      stmt (λ _ t,
        if bool_decide (NoDup fieldNames)
        then Ok (upd_hashes (λ m, foldl (upsert_field key) m (zip fieldNames fieldValues)) t, tt)
        else Fail cardinality_violation);;
      mret (Z.of_nat (length fields) - existingCount)%Z
  end.

Definition hDel (key : string) (fields : list string) : M Z :=
  let key := encodeKey key in
  let encFields := encodeField <$> fields in
  let hit := λ p : (string * string) * (string * expiry), p.1.1 = key ∧ p.1.2 ∈ encFields in
  stmt (λ _ t, Ok (upd_hashes (filter (λ p, ¬ hit p)) t,
                   Z.of_nat (size (filter hit (kv_hashes t))))).

(** The rows of a batch are read into a Go map, later rows overwriting. *)
Definition rows_to_map (rows : list (string * string)) : gmap string string :=
  foldl (λ (m : gmap string string) r, <[decodeField r.1 := r.2]> m) ∅ rows.

Definition hGetAll (key : string) : M (gmap string string) :=
  let key := encodeKey key in
  typeRow ← queueTypeCheck key;
  rows ← attempt (query (live_fields key));
  readTypeCheck typeRow TypeHash;;
  rows ← unwrap rows;
  mret (rows_to_map rows).

Definition hMGet (key : string) (fields : list string) : M (list (option string)) :=
  let key := encodeKey key in
  let encFields := encodeField <$> fields in
  rows ← query (λ now t, filter (λ r : string * string, r.1 ∈ encFields) (live_fields key now t));
  let fieldValues : gmap string string := foldl (λ (m : gmap string string) r, <[r.1 := r.2]> m) ∅ rows in
  mret ((λ field, fieldValues !! encodeField field) <$> fields).

Definition hExists (key field : string) : M bool :=
  let key := encodeKey key in
  count ← query (λ now t, match sel_field key (encodeField field) now t with Some _ => 1 | None => 0 end)%Z;
  mret (0 <? count)%Z.

Definition hKeys (key : string) : M (list string) :=
  let key := encodeKey key in
  rows ← query (λ now t, (live_fields key now t).*1);
  mret (decodeField <$> rows).

Definition hVals (key : string) : M (list string) :=
  let key := encodeKey key in
  query (λ now t, (live_fields key now t).*2).

Definition hLen (key : string) : M Z :=
  let key := encodeKey key in
  query (λ now t, Z.of_nat (length (live_fields key now t))).

Definition errHashNotInteger : goerror := Errorf "ERR hash value is not an integer".
Definition errHashNotFloat : goerror := Errorf "ERR hash value is not a valid float".

Definition hIncrBy (key field : string) (increment : Z) : M Z :=
  let key := encodeKey key in
  requireType TypeHash key;;
  let encField := encodeField field in
  value ← query (sel_field key encField);
  currentValue ← match value with
                 | None => mret 0%Z
                 | Some v => match Strconv.ParseInt v with
                             | None => throw errHashNotInteger
                             | Some n => mret n
                             end
                 end;
  let newValue := wrap64 (currentValue + increment) in
  setMeta key TypeHash None;;
  exec (λ _, upd_hashes (λ m, upsert_field key m (encField, Strconv.FormatInt newValue)));;
  mret newValue.

Definition hIncrByFloat (F : float64_ops) (key field : string) (increment : Z) : M Z :=
  let key := encodeKey key in
  requireType TypeHash key;;
  let encField := encodeField field in
  value ← query (sel_field key encField);
  currentValue ← match value with
                 | None => mret (fzero F)
                 | Some v => match ParseFloat F v with
                             | None => throw errHashNotFloat
                             | Some n => mret n
                             end
                 end;
  let newValue := fadd F currentValue increment in
  setMeta key TypeHash None;;
  exec (λ _, upd_hashes (λ m, upsert_field key m (encField, FormatFloat F newValue)));;
  mret newValue.

Definition hSetNX (key field value : string) : M bool :=
  let key := encodeKey key in
  requireType TypeHash key;;
  let encField := encodeField field in
  setMeta key TypeHash None;;
  rowsAffected ← stmt (λ _ t,
    match kv_hashes t !! (key, encField) with
    | Some _ => Ok (t, 0%Z)
    | None => Ok (upd_hashes <[(key, encField) := (value, None)]> t, 1%Z)
    end);
  mret (0 <? rowsAffected)%Z.

(** ** Rows of a key *)

Lemma elem_of_rows_of {B V} `{Countable B} (key : string) (m : gmap (string * B) V) b v :
  (b, v) ∈ rows_of key m ↔ m !! (key, b) = Some v.
Proof.
  unfold rows_of. rewrite list_elem_of_fmap. split.
  - intros ([[k b'] v'] & [= -> ->] & Hin). apply elem_of_map_to_list in Hin.
    apply map_lookup_filter_Some in Hin as [Hm Hk]. cbn in Hk. by subst.
  - intros Hm. exists ((key, b), v). split; [done|]. apply elem_of_map_to_list.
    by apply map_lookup_filter_Some.
Qed.

Lemma rows_of_NoDup {B V} `{Countable B} (key : string) (m : gmap (string * B) V) :
  NoDup (rows_of key m).*1.
Proof.
  unfold rows_of. rewrite <-list_fmap_compose.
  set (fm := filter (λ p : (string * B) * V, p.1.1 = key) m).
  assert (NoDup (map_to_list fm).*1) as Hnd by apply NoDup_fst_map_to_list.
  assert (Forall (λ p : (string * B) * V, p.1.1 = key) (map_to_list fm)) as Hk.
  { apply Forall_forall. intros [[k b] v] Hin. apply elem_of_map_to_list in Hin.
    by apply map_lookup_filter_Some in Hin as [_ ?]. }
  induction (map_to_list fm) as [|[[k b] v] l IH]; cbn in *; [constructor|].
  apply NoDup_cons in Hnd as [Hni Hnd]. apply Forall_cons in Hk as [<- Hk].
  apply NoDup_cons. split; [|by apply IH].
  intros ([[k' b'] v'] & Eb & Hin)%list_elem_of_fmap. cbn in Eb. subst b'. apply Hni.
  rewrite Forall_forall in Hk. pose proof (Hk _ Hin) as Ek. cbn in Ek. subst k'.
  apply list_elem_of_fmap. by exists ((k, b), v').
Qed.

Lemma elem_of_live_fields key now t f v :
  (f, v) ∈ live_fields key now t ↔ sel_field key f now t = Some v.
Proof.
  unfold live_fields, sel_field. rewrite list_elem_of_omap. split.
  - intros ([f' [v' x]] & Hin & E). apply elem_of_rows_of in Hin. cbn in E.
    destruct (live now x) eqn:Hl; [|done]. injection E as -> ->. rewrite Hin. cbn. by rewrite Hl.
  - unfold live_row. destruct (kv_hashes t !! (key, f)) as [[v' x]|] eqn:E; [|done].
    destruct (live now x) eqn:Hl; [|done]. intros [= ->]. exists (f, (v, x)).
    split; [by apply elem_of_rows_of|]. cbn. by rewrite Hl.
Qed.

Lemma live_fields_NoDup key now t : NoDup (live_fields key now t).*1.
Proof.
  unfold live_fields. pose proof (rows_of_NoDup key (kv_hashes t)) as H.
  induction (rows_of key (kv_hashes t)) as [|[f [v x]] l IH]; cbn in *; [constructor|].
  apply NoDup_cons in H as [Hni H]. destruct (live now x); cbn; [|by apply IH].
  apply NoDup_cons. split; [|by apply IH]. intros ([f' v'] & -> & Hin)%list_elem_of_fmap.
  apply list_elem_of_omap in Hin as ([f2 [v2 x2]] & Hin & E). cbn in *.
  destruct (live now x2); [|done]. injection E as -> ->. apply Hni.
  apply list_elem_of_fmap. by exists (f', (v', x2)).
Qed.

(** ** Writing fields *)

Definition kept_field_expiry (enc f : string) (t : tables) : expiry :=
  match kv_hashes t !! (enc, f) with Some (_, x) => x | None => None end.

Lemma upsert_field_fold (key : string) (l : list (string * string)) (m : gmap (string * string) (string * expiry)) :
  NoDup l.*1 →
  (∀ f v, (f, v) ∈ l → foldl (upsert_field key) m l !! (key, f) =
     Some (v, match m !! (key, f) with Some (_, x) => x | None => None end)) ∧
  (∀ k f, k ≠ key ∨ f ∉ l.*1 → foldl (upsert_field key) m l !! (k, f) = m !! (k, f)).
Proof.
  revert m. induction l as [|[f0 v0] l IH]; intros m Hnd; cbn in *.
  { split; [by intros ?? []%not_elem_of_nil|done]. }
  apply NoDup_cons in Hnd as [Hni Hnd]. destruct (IH (upsert_field key m (f0, v0)) Hnd) as [IH1 IH2].
  split.
  - intros f v [[= -> ->]|Hin]%elem_of_cons.
    + rewrite IH2 by (by right). unfold upsert_field. cbn. apply lookup_insert_eq.
    + rewrite (IH1 f v Hin). unfold upsert_field. cbn. rewrite lookup_insert_ne; [done|].
      intros [= ->]. apply Hni. apply list_elem_of_fmap. by exists (f, v).
  - intros k f Hkf. rewrite IH2 by set_solver. unfold upsert_field. cbn.
    apply lookup_insert_ne. intros [= -> ->]. set_solver.
Qed.

(** The number of listed names that have a row. *)
Lemma count_rows (key : string) (names : list string) (m : gmap (string * string) (string * expiry)) :
  NoDup names →
  size (filter (λ p : (string * string) * (string * expiry), p.1.1 = key ∧ p.1.2 ∈ names) m)
  = length (filter (λ f, is_Some (m !! (key, f))) names).
Proof.
  intros Hnd. set (fm := filter _ m). rewrite <-length_map_to_list, <-(length_fmap fst).
  rewrite <-(length_fmap (pair key) (filter _ names)).
  apply Permutation_length, NoDup_Permutation.
  - apply NoDup_fst_map_to_list.
  - apply NoDup_fmap; [by intros ?? [= ->]|]. by apply NoDup_filter.
  - intros [k f]. rewrite !list_elem_of_fmap. split.
    + intros ([[k' f'] r] & [= <- <-] & Hin). apply elem_of_map_to_list in Hin.
      apply map_lookup_filter_Some in Hin as [Hm [Hk Hf]]. cbn in *. subst.
      exists f. split; [done|]. apply list_elem_of_filter. split; [by eexists|done].
    + intros (f' & [= -> ->] & [[r Hr] Hin]%list_elem_of_filter).
      exists ((key, f'), r). split; [done|]. apply elem_of_map_to_list, map_lookup_filter_Some. done.
Qed.

Section Runs.
Context (now gonow : Z).
Local Abbreviation runs := (runs now gonow).

(** The key is missing or holds a hash. *)
Definition type_ok (kt enc : string) (t : tables) : bool :=
  let k := default TypeNone (meta_type enc now t) in
  bool_decide (k = TypeNone) || bool_decide (k = kt).

Lemma runs_requireType kt enc t :
  runs (requireType kt enc) t t (if type_ok kt enc t then Ok tt else Fail errWrongType).
Proof.
  unfold requireType. step. unfold type_ok. rewrite !bool_decide_not, <-negb_orb.
  destruct (_ || _); cbn [negb]; finish.
Qed.

Lemma runs_requireType_ok kt enc t :
  type_ok kt enc t = true → runs (requireType kt enc) t t (Ok tt).
Proof. intros H. pose proof (runs_requireType kt enc t) as Hr. by rewrite H in Hr. Qed.

Lemma runs_requireType_fail kt enc t :
  type_ok kt enc t = false → runs (requireType kt enc) t t (Fail errWrongType).
Proof. intros H. pose proof (runs_requireType kt enc t) as Hr. by rewrite H in Hr. Qed.

(** The tables after a write of the fields [l], given by their stored names. *)
Definition after_fields (enc : string) (l : list (string * string)) (t : tables) : tables :=
  upd_hashes (λ m, foldl (upsert_field enc) m l) (upd_meta <[enc := (TypeHash, None)]> t).

Definition enc_fields (fields : list (string * string)) : list (string * string) :=
  zip (encodeField <$> fields.*1) fields.*2.

Lemma enc_fields_fst fields : (enc_fields fields).*1 = encodeField <$> fields.*1.
Proof. unfold enc_fields. apply fst_zip. rewrite !length_fmap. lia. Qed.

Lemma elem_of_enc_fields fields f v : (f, v) ∈ fields → (encodeField f, v) ∈ enc_fields fields.
Proof.
  unfold enc_fields. induction fields as [|[f0 v0] l IH]; cbn; [by intros []%not_elem_of_nil|].
  intros [[= -> ->]|H]%elem_of_cons; [by left|right; by apply IH].
Qed.

Lemma runs_hSet key fields t :
  let enc := encodeKey key in
  fields ≠ [] → NoDup (encodeField <$> fields.*1) → type_ok TypeHash enc t = true →
  runs (hSet key fields) t (after_fields enc (enc_fields fields) t)
    (Ok (Z.of_nat (length fields)
         - Z.of_nat (length (filter (λ f, is_Some (kv_hashes t !! (enc, f))) (encodeField <$> fields.*1))))%Z).
Proof.
  intros enc Hne Hnd Hty. unfold hSet. destruct fields as [|fv fields]; [done|].
  eapply runs_bind; [by apply runs_requireType_ok|]. cbv zeta. step. step.
  eapply runs_bind; [apply runs_stmt; rewrite bool_decide_true by exact Hnd; done|].
  eapply runs_eq; [apply runs_ret|done|]. fold enc. by rewrite (count_rows enc _ _ Hnd).
Qed.

End Runs.

Lemma after_fields_frame enc l t : NoDup l.*1 → frame [enc] t (after_fields enc l t).
Proof.
  intros Hnd. eapply frame_trans; [apply frame_insert_meta|]. apply frame_upd_hashes. intros.
  apply (upsert_field_fold enc l _ Hnd). by left.
Qed.

(** No expired field of the hash waits for the sweeper. *)
Definition fresh_hash (enc : string) (now : Z) (t : tables) : Prop :=
  ∀ f, live now (kept_field_expiry enc f t) = true.

(** HSET on every branch. A key of another type is WRONGTYPE and nothing
    changes. Otherwise the answer is the number of fields that had no row
    before; every given field reads its new value, every other field of the
    hash what it read before, at any later time the rows' own expiry allows;
    other keys are untouched; and the meta row loses its expiry. *)
Theorem hSet_correct now gonow key fields t :
  fields ≠ [] → NoDup (encodeField <$> fields.*1) →
  let enc := encodeKey key in
  if type_ok now TypeHash enc t then
    ∃ t', run now gonow (hSet key fields) t =
            (t', Ok (Z.of_nat (length (filter (λ f, kv_hashes t !! (enc, f) = None)
                                         (encodeField <$> fields.*1))))) ∧
      frame [enc] t t' ∧ kv_meta t' !! enc = Some (TypeHash, None) ∧
      (fresh_hash enc now t → ∀ f v, (f, v) ∈ fields →
         run now gonow (hGet key f) t' = (t', Ok (Some v))) ∧
      (∀ now' gonow' f, encodeField f ∉ encodeField <$> fields.*1 →
         (run now' gonow' (hGet key f) t').2 = (run now' gonow' (hGet key f) t).2)
  else run now gonow (hSet key fields) t = (t, Fail errWrongType).
Proof.
  intros Hne Hnd enc. destruct (type_ok now TypeHash enc t) eqn:Hty.
  - assert (NoDup (enc_fields fields).*1) as Hnd' by (by rewrite enc_fields_fst).
    destruct (upsert_field_fold enc (enc_fields fields) (kv_hashes t) Hnd') as [H1 H2].
    exists (after_fields enc (enc_fields fields) t). split; [|split; [|split; [|split]]].
    + rewrite (runs_run _ _ _ _ _ _ (runs_hSet now gonow key fields t Hne Hnd Hty)). fold enc.
      do 2 f_equal.
      assert (length fields = length (encodeField <$> fields.*1)) as -> by (by rewrite !length_fmap).
      generalize (encodeField <$> fields.*1) as l. intros l.
      induction l as [|f l IH]; [done|]. rewrite !filter_cons.
      destruct (kv_hashes t !! (enc, f)) as [r|];
        [rewrite decide_True by (by eexists); rewrite decide_False by done
        |rewrite decide_False by (by intros [? ?]); rewrite decide_True by done]; cbn [length]; lia.
    + by apply after_fields_frame.
    + cbn. apply lookup_insert_eq.
    + intros Hf f v Hin. apply runs_run. unfold hGet. eapply runs_eq; [apply runs_query|done|].
      fold enc. unfold sel_field. cbn. rewrite (H1 (encodeField f) v) by (by apply elem_of_enc_fields).
      cbn. specialize (Hf (encodeField f)). unfold kept_field_expiry in Hf. by rewrite Hf.
    + intros now' gonow' f Hni.
      assert (∀ t, run now' gonow' (hGet key f) t = (t, Ok (sel_field enc (encodeField f) now' t))) as Hg
        by (intros; apply runs_run; unfold hGet; apply runs_query).
      rewrite !Hg. cbn. unfold sel_field. cbn. rewrite H2; [done|]. right. by rewrite enc_fields_fst.
  - apply runs_run. unfold hSet. destruct fields as [|fv fields]; [done|].
    eapply runs_bind_fail. by apply runs_requireType_fail.
Qed.

Lemma hSet_correct_witness :
  type_ok 10 TypeHash "h" db_expire = true ∧ fresh_hash "h" 10 db_expire ∧
  ∃ t', run 10 0 (hSet "h" [("g", "w"); ("f", "u")]) db_expire = (t', Ok 1%Z) ∧
        run 10 0 (hGet "h" "g") t' = (t', Ok (Some "w")).
Proof.
  assert (fresh_hash "h" 10 db_expire) as Hf.
  { intros f. unfold kept_field_expiry. destruct (kv_hashes db_expire !! ("h", f)) as [[v x]|] eqn:E; [|done].
    unfold db_expire in E. cbn in E. apply lookup_singleton_Some in E as [_ [= <- <-]]. done. }
  split; [reflexivity|]. split; [exact Hf|].
  destruct (hSet_correct 10 0 "h" [("g", "w"); ("f", "u")] db_expire) as (t' & E & _ & _ & H & _);
    [discriminate|apply (bool_decide_unpack _); vm_compute; exact I|].
  exists t'. split; [exact E|]. apply (H Hf). by left.
Defined.

(** ** Reading and deleting fields *)

(** Different stored names of the hash's live fields spell different names. *)
Definition names_distinct (enc : string) (now : Z) (t : tables) : Prop :=
  NoDup (decodeField <$> (live_fields enc now t).*1).

Lemma rows_to_map_lookup rows f v :
  NoDup (decodeField <$> rows.*1) →
  (rows_to_map rows !! f = Some v) ↔ ∃ f', (f', v) ∈ rows ∧ decodeField f' = f.
Proof.
  intros Hnd. unfold rows_to_map. rewrite <-list_fmap_compose in Hnd.
  rewrite (foldl_insert_lookup_empty (λ r, decodeField r.1) snd) by done. split.
  - intros ([f' v'] & ? & ? & <-). by exists f'.
  - intros (f' & ? & ?). by exists (f', v).
Qed.

Lemma rows_to_map_size rows :
  NoDup (decodeField <$> rows.*1) → size (rows_to_map rows) = length rows.
Proof.
  intros Hnd. rewrite <-length_map_to_list, <-(length_fmap fst), <-(length_fmap (λ r, decodeField r.1) rows).
  apply Permutation_length, NoDup_Permutation.
  - apply NoDup_fst_map_to_list.
  - by rewrite <-list_fmap_compose in Hnd.
  - intros f. rewrite !list_elem_of_fmap. split.
    + intros ([f' v] & -> & Hin). apply elem_of_map_to_list, rows_to_map_lookup in Hin as (f2 & Hin & <-); [|done].
      by exists (f2, v).
    + intros ([f' v] & -> & Hin). exists (decodeField f', v). split; [done|].
      apply elem_of_map_to_list, rows_to_map_lookup; [done|]. by exists f'.
Qed.

Lemma runs_hGetAll now gonow key t :
  let enc := encodeKey key in
  runs now gonow (hGetAll key) t t
    (match meta_type enc now t with
     | Some kt => if bool_decide (kt = TypeHash) then Ok (rows_to_map (live_fields enc now t))
                  else Fail errWrongType
     | None => Ok (rows_to_map (live_fields enc now t))
     end).
Proof.
  intros enc. unfold hGetAll. unfold queueTypeCheck. step. step. fold enc.
  pose proof (runs_readTypeCheck now gonow (meta_type enc now t) TypeHash t) as Hr.
  destruct (meta_type enc now t) as [kt|]; [destruct (bool_decide (kt = TypeHash))|].
  - eapply runs_bind; [exact Hr|]. step. finish.
  - eapply runs_bind_fail. exact Hr.
  - eapply runs_bind; [exact Hr|]. step. finish.
Qed.

(** HGETALL returns exactly the hash: when the key is a hash (or missing)
    and the stored names spell different names, the answer has a field [f]
    with value [v] exactly when HGET of some live stored name spelled [f]
    finds [v]; HLEN is its size; HDEL then removes exactly the listed fields,
    counting each row once, and leaves every other field and key alone. Asked
    for a key of another type, HGETALL is WRONGTYPE. *)
Theorem hash_read_delete now gonow key fields t :
  let enc := encodeKey key in
  match meta_type enc now t with
  | Some kt => kt ≠ TypeHash → run now gonow (hGetAll key) t = (t, Fail errWrongType)
  | None => True
  end ∧
  (names_distinct enc now t → default TypeHash (meta_type enc now t) = TypeHash →
   ∃ m, run now gonow (hGetAll key) t = (t, Ok m) ∧
        run now gonow (hLen key) t = (t, Ok (Z.of_nat (size m))) ∧
        ∀ f v, (m !! f = Some v) ↔ ∃ f', sel_field enc f' now t = Some v ∧ decodeField f' = f) ∧
  ∃ t', run now gonow (hDel key fields) t =
          (t', Ok (Z.of_nat (length (filter (λ f, is_Some (kv_hashes t !! (enc, f)))
                                       (remove_dups (encodeField <$> fields)))))) ∧
        frame [enc] t t' ∧
        ∀ f, kv_hashes t' !! (enc, f) =
               if decide (f ∈ encodeField <$> fields) then None else kv_hashes t !! (enc, f).
Proof.
  intros enc. split; [|split].
  - destruct (meta_type enc now t) as [kt|] eqn:E; [|done]. intros Hkt.
    rewrite (runs_run _ _ _ _ _ _ (runs_hGetAll now gonow key t)). fold enc.
    by rewrite E, bool_decide_false.
  - intros Hnd Hty. exists (rows_to_map (live_fields enc now t)). split; [|split].
    + rewrite (runs_run _ _ _ _ _ _ (runs_hGetAll now gonow key t)). fold enc.
      destruct (meta_type enc now t) as [kt|]; [|done]. cbn in Hty. by rewrite bool_decide_true.
    + apply runs_run. unfold hLen. eapply runs_eq; [apply runs_query|done|].
      by rewrite rows_to_map_size.
    + intros f v. rewrite rows_to_map_lookup by done.
      split; intros (f' & ? & ?); exists f'; (split; [|done]); by apply elem_of_live_fields.
  - eexists. split; [apply runs_run; unfold hDel; apply runs_stmt; fold enc|].
    { do 2 f_equal. rewrite <-count_rows by apply NoDup_remove_dups.
      do 2 f_equal. apply map_filter_ext. intros p r _. by rewrite elem_of_remove_dups. }
    split.
    + apply frame_upd_hashes. intros k b Hk. rewrite map_lookup_filter.
      destruct (kv_hashes t !! (k, b)) as [r|]; [|done]. cbn. rewrite option_guard_True; [done|].
      cbn. by intros [? _].
    + intros f. cbn. rewrite map_lookup_filter. destruct (kv_hashes t !! (enc, f)) as [r|]; cbn; [|by case_decide].
      case_decide; [rewrite option_guard_False; [done|]|rewrite option_guard_True; [done|]]; cbn; tauto.
Qed.

Lemma hash_read_delete_witness :
  names_distinct "h" 10 db_expire ∧
  ∃ m, run 10 0 (hGetAll "h") db_expire = (db_expire, Ok m) ∧
       run 10 0 (hLen "h") db_expire = (db_expire, Ok (Z.of_nat (size m))) ∧
       ∀ f v, (m !! f = Some v) ↔ ∃ f', sel_field "h" f' 10 db_expire = Some v ∧ decodeField f' = f.
Proof.
  assert (names_distinct "h" 10 db_expire) as H.
  { apply (bool_decide_unpack _). vm_compute. exact I. }
  split; [exact H|].
  destruct (hash_read_delete 10 0 "h" [] db_expire) as (_ & Hr & _). exact (Hr H eq_refl).
Defined.

(** HSETNX on an existing field inserts nothing, answers 0, and still
    removes the key's expiry from the meta row (TTL then answers -1), while
    the data rows keep theirs. *)
Theorem hSetNX_clears_expiry now gonow key field value t r x :
  let enc := encodeKey key in
  kv_hashes t !! (enc, encodeField field) = Some r →
  kv_meta t !! enc = Some (TypeHash, Some x) → (now < x)%Z →
  ∃ t', run now gonow (hSetNX key field value) t = (t', Ok false) ∧
        kv_hashes t' = kv_hashes t ∧ kv_meta t' !! enc = Some (TypeHash, None) ∧
        run now gonow (pttl key) t' = (t', Ok (-1)%Z).
Proof.
  intros enc Hr Hm Hx. exists (upd_meta <[enc := (TypeHash, None)]> t).
  assert (kv_meta (upd_meta <[enc := (TypeHash, None)]> t) !! enc = Some (TypeHash, None)) as Hm'
    by apply lookup_insert_eq.
  split; [|split; [done|split; [exact Hm'|]]].
  - apply runs_run. unfold hSetNX.
    eapply runs_bind; [apply runs_requireType_ok|].
    { unfold type_ok, meta_type. fold enc. rewrite Hm. cbn.
      rewrite (proj2 (Z.ltb_lt _ _)) by done. cbn. by rewrite orb_true_r. }
    cbv zeta. step. eapply runs_bind; [apply runs_stmt; fold enc; cbn; rewrite Hr; done|]. finish.
  - apply runs_run. unfold pttl. step. unfold sel_expiry. fold enc. rewrite Hm'. cbn. finish.
Qed.

Definition db_expiring_hash : tables :=
  Tables {[ "h" := ("hash", Some 100%Z) ]} ∅ {[ ("h", "f") := ("v", Some 100%Z) ]} ∅ ∅ ∅ ∅.

Lemma hSetNX_clears_expiry_witness :
  kv_hashes db_expiring_hash !! ("h", encodeField "f") = Some ("v", Some 100%Z) ∧
  ∃ t', run 10 0 (hSetNX "h" "f" "w") db_expiring_hash = (t', Ok false) ∧
        kv_hashes t' = kv_hashes db_expiring_hash ∧
        kv_meta t' !! encodeKey "h" = Some (TypeHash, None) ∧
        run 10 0 (pttl "h") t' = (t', Ok (-1)%Z).
Proof.
  split; [reflexivity|].
  apply (hSetNX_clears_expiry 10 0 "h" "f" "w" db_expiring_hash ("v", Some 100%Z) 100);
    [reflexivity|reflexivity|lia].
Defined.

End HashOps.
