(* ===== verification/StoreLists.v ===== *)
(** * List commands of the storage layer: internal/storage/querier.go

    A list is stored as rows numbered by a BIGINT index, ordered by it; the
    abstract list of a key is the sequence of values of its rows in index
    order ([list_of]). LPUSH, RPUSH, LPOP, RPOP, LMPOP, LLEN, LRANGE, LINDEX,
    LREM, RPOPLPUSH, LTRIM, LPOS, LSET and LINSERT are shown to implement the
    operations on that sequence. *)
From stdpp Require Import gmap strings list sorting.
From Stdlib Require Import ZArith Lia Ascii.
From S2P Require Import Prelude GoStd KeyCodec Db StoreMeta StoreStrings StoreBitmaps StoreKeys StoreHash.
Import Db KeyCodec Meta StringOps KeyOps HashOps.

Module ListOps.

(** A row of [kv_lists] without its key: index, value, expiry. *)
Abbreviation lrow := (Z * (string * expiry))%type.
Definition idx_le (a b : lrow) : Prop := (a.1 <= b.1)%Z.
Definition idx_lt (a b : lrow) : Prop := (a.1 < b.1)%Z.
#[export] Instance idx_le_dec a b : Decision (idx_le a b).
Proof. unfold idx_le. apply _. Defined.

(** [SELECT idx, value, expires_at FROM kv_lists WHERE key = $1 ORDER BY idx] *)
Definition list_rows (key : string) (t : tables) : list lrow :=
  merge_sort idx_le (rows_of key (kv_lists t)).
Definition row_live (now : Z) (r : lrow) : bool := live now r.2.2.

(** [ORDER BY idx ASC|DESC] *)
Definition ordered (asc : bool) (rows : list lrow) : list lrow :=
  if asc then rows else reverse rows.

(** [INSERT INTO kv_lists (key, idx, value) SELECT $1, unnest($2), unnest($3)] *)
Fixpoint insert_rows (key : string) (rows : list (Z * string))
    (m : gmap (string * Z) (string * expiry)) : option (gmap (string * Z) (string * expiry)) :=
  match rows with
  | [] => Some m
  | (i, v) :: rows =>
      match m !! (key, i) with
      | Some _ => None
      | None => insert_rows key rows (<[(key, i) := (v, None)]> m)
      end
  end.
Definition insert_stmt (key : string) (rows : list (Z * string)) : M unit :=
  stmt (λ _ t, match insert_rows key rows (kv_lists t) with
               | Some m => Ok (upd_lists (λ _, m) t, tt)
               | None => Fail (unique_violation "kv_lists")
               end).

(** [fmt.Errorf("...: %w", err)] around a failing call. *)
Definition wrapErr {A} (prefix : string) (m : M A) : M A :=
  catch m (λ er, throw (Wrapf prefix er)).

Definition count_rows_stmt (key : string) : M Z :=
  query (λ _ t, Z.of_nat (length (list_rows key t))).

(** LPUSH and RPUSH share their frame; [mkIndices] numbers the new rows. *)
Definition lPush (key : string) (values : list string) : M Z :=
  let key := encodeKey key in
  requireType TypeList key;;
  match values with
  | [] => wrapErr "failed to get list length" (count_rows_stmt key)
  | _ =>
      lock_stmt [key];;
      minIdx ← wrapErr "failed to get min index"
        (query (λ _ t, match list_rows key t with [] => 0 | r :: _ => r.1 end)%Z);
      let indices := imap (λ i _, wrap64 (minIdx - Z.of_nat (i + 1))%Z) values in
      setMeta key TypeList None;;
      insert_stmt key (zip indices values);;
      wrapErr "failed to get list length" (count_rows_stmt key)
  end.

Definition rPush (key : string) (values : list string) : M Z :=
  let key := encodeKey key in
  requireType TypeList key;;
  match values with
  | [] => wrapErr "failed to get list length" (count_rows_stmt key)
  | _ =>
      lock_stmt [key];;
      maxIdx ← wrapErr "failed to get max index"
        (query (λ _ t, match last (list_rows key t) with None => -1 | Some r => r.1 end)%Z);
      let indices := imap (λ i _, wrap64 (maxIdx + Z.of_nat (i + 1))%Z) values in
      setMeta key TypeList None;;
      insert_stmt key (zip indices values);;
      wrapErr "failed to get list length" (count_rows_stmt key)
  end.

(** [DELETE FROM kv_lists WHERE key = $1 AND idx IN (...)] *)
Definition delete_rows (key : string) (is_ : list Z) (m : gmap (string * Z) (string * expiry)) :
    gmap (string * Z) (string * expiry) :=
  filter (λ p : (string * Z) * (string * expiry), ¬ (p.1.1 = key ∧ p.1.2 ∈ is_)) m.

(** The CTE of LPOP and RPOP: delete the first row in the given order and
    return its value. *)
Definition pop_first (asc : bool) (key : string) : M (option string) :=
  stmt (λ _ t, match ordered asc (list_rows key t) with
               | [] => Ok (t, None)
               | r :: _ => Ok (upd_lists (delete_rows key [r.1]) t, Some r.2.1)
               end).

Definition lPop (key : string) : M (option string) := pop_first true (encodeKey key).
Definition rPop (key : string) : M (option string) := pop_first false (encodeKey key).

(** The live rows of a key, in pop order. *)
Definition live_rows (asc : bool) (key : string) (now : Z) (t : tables) : list lrow :=
  ordered asc (List.filter (row_live now) (list_rows key t)).

(** The first key of the list that has a live row. *)
Definition winner (keys : list string) (now : Z) (t : tables) : option string :=
  list_find (λ k, live_rows true k now t ≠ []) keys ≫= λ p, Some p.2.

Definition popMulti (asc : bool) (keys : list string) : M (option (string * string)) :=
  match keys with
  | [] => mret None
  | _ =>
      let encoded := encodeKeys keys in
      row ← stmt (λ now t,
        match winner encoded now t with
        | None => Ok (t, None)
        | Some k => match live_rows asc k now t with
                    | [] => Ok (t, None)
                    | r :: _ => Ok (upd_lists (delete_rows k [r.1]) t, Some (k, r.2.1))
                    end
        end);
      mret ((λ kv : string * string, (decodeKey kv.1, kv.2)) <$> row)
  end.
Definition lPopMulti := popMulti true.
Definition rPopMulti := popMulti false.

Definition popMultiN (asc : bool) (keys : list string) (count : Z) :
    M (option (string * list string)) :=
  if bool_decide (keys = []) || (count <=? 0)%Z then mret None
  else
    let encoded := encodeKeys keys in
    row ← stmt (λ now t,
      match winner encoded now t with
      | None => Ok (t, None)
      | Some k =>
          let target := take (Z.to_nat count) (live_rows asc k now t) in
          Ok (upd_lists (delete_rows k target.*1) t, Some (k, (λ r : lrow, r.2.1) <$> target))
      end);
    mret match row with
         | Some (k, (_ :: _) as values) => Some (decodeKey k, values)
         | _ => None
         end.
Definition lMPop := popMultiN true.
Definition rMPop := popMultiN false.

Definition lLen (key : string) : M Z :=
  let key := encodeKey key in
  typeRow ← queueTypeCheck key;
  count ← attempt (query (λ now t, Z.of_nat (length (live_rows true key now t))));
  readTypeCheck typeRow TypeList;;
  unwrap count.

(** The index arithmetic of LRANGE and LTRIM. *)
Definition list_bounds (total start stop : Z) : Z * Z :=
  let start := if (start <? 0)%Z then wrap64 (total + start) else start in
  let stop := if (stop <? 0)%Z then wrap64 (total + stop) else stop in
  let start := if (start <? 0)%Z then 0%Z else start in
  let stop := if (total <=? stop)%Z then (total - 1)%Z else stop in
  (start, stop).

Definition lRange (key : string) (start stop : Z) : M (list string) :=
  let key := encodeKey key in
  typeRow ← queueTypeCheck key;
  total ← attempt (count_rows_stmt key);
  readTypeCheck typeRow TypeList;;
  total ← wrapErr "failed to get list count" (unwrap total);
  let '(start, stop) := list_bounds total start stop in
  if (stop <? start)%Z then mret []
  else query (λ _ t,
    (λ r : lrow, r.2.1) <$> take (Z.to_nat (stop - start + 1)) (drop (Z.to_nat start) (list_rows key t))).

Definition lIndex (key : string) (index : Z) : M (option string) :=
  let key := encodeKey key in
  if (0 <=? index)%Z then
    query (λ now t, (λ r : lrow, r.2.1) <$> live_rows true key now t !! Z.to_nat index)
  else
    query (λ now t,
      let rows := live_rows true key now t in
      let total := Z.of_nat (length rows) in
      if (0 <=? total + index)%Z
      then (λ r : lrow, r.2.1) <$> rows !! Z.to_nat (Z.max (total + index) 0)
      else None).

Definition lRem (key : string) (count : Z) (element : string) : M Z :=
  let key := encodeKey key in
  let hit := λ r : lrow, bool_decide (r.2.1 = element) in
  if (count =? 0)%Z then
    stmt (λ _ t, let target := List.filter hit (list_rows key t) in
                 Ok (upd_lists (delete_rows key target.*1) t, Z.of_nat (length target)))
  else
    let absCount := if (count <? 0)%Z then wrap64 (- count) else count in
    stmt (λ _ t,
      if (absCount <? 0)%Z then Fail (PgError "ERROR" "LIMIT must not be negative" "2201W")
      else let target := take (Z.to_nat absCount)
                           (ordered (0 <? count)%Z (List.filter hit (list_rows key t))) in
           Ok (upd_lists (delete_rows key target.*1) t, Z.of_nat (length target))).

Definition rPopLPush (source destination : string) : M (option string) :=
  let source := encodeKey source in
  let destination := encodeKey destination in
  lockKeys [source; destination];;
  row ← query (λ _ t, last (list_rows source t));
  match row with
  | None => mret None
  | Some (idx, (value, _)) =>
      exec (λ _, upd_lists (delete_rows source [idx]));;
      exec (λ _, upd_meta (λ m, match m !! destination with
                                | Some _ => m
                                | None => <[destination := (TypeList, None)]> m
                                end));;
      stmt (λ _ t,
        let minIdx := match list_rows destination t with [] => 0 | r :: _ => r.1 end%Z in
        match insert_rows destination [((minIdx - 1)%Z, value)] (kv_lists t) with
        | Some m => Ok (upd_lists (λ _, m) t, tt)
        | None => Fail (unique_violation "kv_lists")
        end);;
      mret (Some value)
  end.

Definition lTrim (key : string) (start stop : Z) : M unit :=
  let key := encodeKey key in
  lockKey key;;
  length_ ← count_rows_stmt key;
  if (length_ =? 0)%Z then mret tt
  else
    let '(start, stop) := list_bounds length_ start stop in
    if (stop <? start)%Z then
      exec (λ _, upd_meta (delete key));;
      exec (λ _, upd_lists (drop_key key))
    else
      exec (λ _ t,
        let rows := list_rows key t in
        let doomed := take (Z.to_nat start) rows ++ drop (Z.to_nat (stop + 1)) rows in
        upd_lists (delete_rows key doomed.*1) t).

(** The scanning loop of LPOS: position, scanned, skipped, answers so far. *)
Fixpoint lPos_loop (element : string) (rank count maxlen : Z) (rows : list lrow)
    (pos skipped : Z) (positions : list Z) : list Z :=
  match rows with
  | [] => positions
  | r :: rows =>
      let scanned := (pos + 1)%Z in
      if (0 <? maxlen)%Z && (maxlen <? scanned)%Z then positions
      else if bool_decide (r.2.1 = element) then
        if (0 <? rank)%Z && (skipped <? rank - 1)%Z
        then lPos_loop element rank count maxlen rows (pos + 1) (skipped + 1) positions
        else
          let positions := positions ++ [pos] in
          if (0 <? count)%Z && (count <=? Z.of_nat (length positions))%Z then positions
          else lPos_loop element rank count maxlen rows (pos + 1) skipped positions
      else lPos_loop element rank count maxlen rows (pos + 1) skipped positions
  end.

Definition lPos (key element : string) (rank count maxlen : Z) : M (list Z) :=
  let key := encodeKey key in
  rows ← query (λ _ t, list_rows key t);
  mret (lPos_loop element rank count maxlen rows 0 0 []).

Definition lSet (key : string) (index : Z) (element : string) : M unit :=
  let key := encodeKey key in
  total ← count_rows_stmt key;
  if (total =? 0)%Z then throw (Errorf "ERR no such key")
  else
    let index := if (index <? 0)%Z then wrap64 (total + index) else index in
    if (index <? 0)%Z || (total <=? index)%Z then throw (Errorf "ERR index out of range")
    else
      idx ← query (λ _ t, fst <$> list_rows key t !! Z.to_nat index);
      match idx with
      | None => throw errNoRows
      | Some idx => exec (λ _, upd_lists (alter (λ r, (element, r.2)) (key, idx)))
      end.

(** [UPDATE kv_lists SET idx = idx + 1 WHERE key = $1 AND idx >= $2]: the
    primary key is checked row by row, in the order in which the executor
    visits the rows. *)
Fixpoint shift_rows (key : string) (order : list Z) (m : gmap (string * Z) (string * expiry)) :
    option (gmap (string * Z) (string * expiry)) :=
  match order with
  | [] => Some m
  | i :: order =>
      match m !! (key, i) with
      | None => shift_rows key order m
      | Some r => match m !! (key, (i + 1)%Z) with
                  | Some _ => None
                  | None => shift_rows key order (<[(key, (i + 1)%Z) := r]> (delete (key, i) m))
                  end
      end
  end.

(** [scan] is the order in which the executor visits the rows to update. *)
Definition lInsert (scan : list Z → list Z) (key pivot element : string) (before : bool) : M Z :=
  let key := encodeKey key in
  row ← query (λ _ t, List.find (λ r : lrow, bool_decide (r.2.1 = pivot)) (list_rows key t));
  match row with
  | None => mret (-1)%Z
  | Some (pivotIdx, _) =>
      lock_stmt [key];;
      let from := if before then pivotIdx else (pivotIdx + 1)%Z in
      stmt (λ _ t,
        let affected := List.filter (λ i, (from <=? i)%Z) (list_rows key t).*1 in
        match shift_rows key (scan affected) (kv_lists t) with
        | Some m => Ok (upd_lists (λ _, m) t, tt)
        | None => Fail (unique_violation "kv_lists")
        end);;
      insert_stmt key [(from, element)];;
      count_rows_stmt key
  end.

(** ** The abstract list *)

Definition list_of (key : string) (t : tables) : list string :=
  (λ r : lrow, r.2.1) <$> list_rows key t.

#[export] Instance idx_le_trans : Transitive idx_le.
Proof. intros ???. unfold idx_le. lia. Qed.
#[export] Instance idx_le_total : Total idx_le.
Proof. intros ??. unfold idx_le. lia. Qed.

Lemma sorted_lt_unique (l1 l2 : list lrow) :
  StronglySorted idx_lt l1 → StronglySorted idx_lt l2 → (∀ x, x ∈ l1 ↔ x ∈ l2) → l1 = l2.
Proof.
  intros H1. revert l2. induction H1 as [|a l1 Hs1 IH Ha]; intros l2 H2 Heq.
  { destruct l2 as [|b l2]; [done|]. exfalso. eapply not_elem_of_nil, Heq. by left. }
  inversion H2 as [|b l2' Hs2 Hb]; subst.
  { exfalso. eapply not_elem_of_nil, Heq. by left. }
  rewrite Forall_forall in Ha, Hb. unfold idx_lt in Ha, Hb.
  assert (a = b) as ->.
  { assert (a ∈ b :: l2') as [->|Hin1]%elem_of_cons by (apply Heq; by left); [done|].
    assert (b ∈ a :: l1) as [->|Hin2]%elem_of_cons by (apply Heq; by left); [done|].
    specialize (Ha _ Hin2). specialize (Hb _ Hin1). lia. }
  f_equal. apply IH; [done|]. intros x. specialize (Heq x). rewrite !elem_of_cons in Heq.
  split; intros Hx; [destruct (proj1 Heq (or_intror Hx)) as [->|]|destruct (proj2 Heq (or_intror Hx)) as [->|]];
    try done; [specialize (Ha _ Hx)|specialize (Hb _ Hx)]; lia.
Qed.

Lemma sorted_le_lt (l : list lrow) : StronglySorted idx_le l → NoDup l.*1 → StronglySorted idx_lt l.
Proof.
  induction 1 as [|a l Hs IH Ha]; intros Hnd; [constructor|]. cbn in Hnd.
  apply NoDup_cons in Hnd as [Hni Hnd]. constructor; [by apply IH|].
  rewrite Forall_forall in Ha |- *. intros b Hb. specialize (Ha b Hb). unfold idx_le, idx_lt in *.
  destruct (decide (a.1 = b.1)) as [E|]; [|lia]. exfalso. apply Hni. rewrite E.
  by apply list_elem_of_fmap_2.
Qed.

Lemma sorted_lt_NoDup (l : list lrow) : StronglySorted idx_lt l → NoDup l.*1.
Proof.
  induction 1 as [|a l Hs IH Ha]; [constructor|]. cbn. apply NoDup_cons. split; [|done].
  intros (b & E & Hb)%list_elem_of_fmap. rewrite Forall_forall in Ha. specialize (Ha b Hb).
  unfold idx_lt in Ha. lia.
Qed.

(** The rows of a key in index order: strictly increasing indexes, and exactly
    the rows of the table. *)
Lemma list_rows_sorted key t : StronglySorted idx_lt (list_rows key t).
Proof.
  apply sorted_le_lt; [apply (StronglySorted_merge_sort _)|].
  unfold list_rows. rewrite merge_sort_Permutation. apply rows_of_NoDup.
Qed.

Lemma elem_of_list_rows key t r : r ∈ list_rows key t ↔ kv_lists t !! (key, r.1) = Some r.2.
Proof. unfold list_rows. rewrite merge_sort_Permutation. destruct r. apply elem_of_rows_of. Qed.

Lemma list_rows_eq key t l :
  StronglySorted idx_lt l → (∀ r, r ∈ l ↔ kv_lists t !! (key, r.1) = Some r.2) →
  list_rows key t = l.
Proof.
  intros Hs Hl. apply sorted_lt_unique; [apply list_rows_sorted|done|].
  intros x. by rewrite elem_of_list_rows, Hl.
Qed.

Lemma list_rows_same key t t' :
  (∀ i, kv_lists t' !! (key, i) = kv_lists t !! (key, i)) → list_rows key t' = list_rows key t.
Proof.
  intros H. apply list_rows_eq; [apply list_rows_sorted|]. intros r. by rewrite elem_of_list_rows, H.
Qed.

Lemma sorted_app (l1 l2 : list lrow) :
  StronglySorted idx_lt l1 → StronglySorted idx_lt l2 →
  (∀ a b, a ∈ l1 → b ∈ l2 → idx_lt a b) → StronglySorted idx_lt (l1 ++ l2).
Proof.
  induction 1 as [|a l1 Hs IH Ha]; intros H2 Hc; [done|]. cbn. constructor.
  - apply IH; [done|]. intros. apply Hc; [by right|done].
  - rewrite Forall_app. split; [done|]. rewrite Forall_forall. intros b Hb. apply Hc; [by left|done].
Qed.

Lemma sorted_filter (f : lrow → bool) l :
  StronglySorted idx_lt l → StronglySorted idx_lt (List.filter f l).
Proof.
  induction 1 as [|a l Hs IH Ha]; [constructor|]. cbn. destruct (f a); [|done]. constructor; [done|].
  rewrite Forall_forall in Ha |- *. intros b Hb. apply Ha.
  rewrite list_elem_of_In in Hb |- *. by apply filter_In in Hb as [? _].
Qed.

(** ** Inserting and deleting rows *)

Definition new_row (iv : Z * string) : lrow := (iv.1, (iv.2, None)).

Lemma insert_rows_spec key rows m :
  NoDup rows.*1 → (∀ i, i ∈ rows.*1 → m !! (key, i) = None) →
  ∃ m', insert_rows key rows m = Some m' ∧
    (∀ i r, m' !! (key, i) = Some r ↔ (i, r) ∈ new_row <$> rows ∨ m !! (key, i) = Some r) ∧
    (∀ k i, k ≠ key → m' !! (k, i) = m !! (k, i)).
Proof.
  revert m. induction rows as [|[i0 v0] rows IH]; intros m Hnd Hfree; cbn in *.
  { exists m. split; [done|]. split; [|done]. intros i r.
    split; [by right|by intros [[]%not_elem_of_nil|?]]. }
  apply NoDup_cons in Hnd as [Hni Hnd]. rewrite Hfree by (by left).
  destruct (IH (<[(key, i0) := (v0, None)]> m) Hnd) as (m' & E & H1 & H2).
  { intros i Hi. rewrite lookup_insert_ne by (intros [= ->]; done). apply Hfree. by right. }
  exists m'. split; [done|]. split.
  - intros i r. rewrite H1, elem_of_cons. unfold new_row at 2. cbn.
    destruct (decide (i = i0)) as [->|Hi].
    + rewrite lookup_insert_eq. rewrite Hfree by (by left). split.
      * intros [?|[= <-]]; [by left; right|by left; left].
      * intros [[[= ->]|?]|?]; [by right|by left|done].
    + rewrite lookup_insert_ne by congruence. split.
      * intros [?|?]; [by left; right|by right].
      * intros [[[= ? ?]|?]|?]; [done|by left|by right].
  - intros k i Hk. rewrite H2 by done. apply lookup_insert_ne. congruence.
Qed.

Lemma delete_rows_lookup key is_ m k i :
  delete_rows key is_ m !! (k, i) = if decide (k = key ∧ i ∈ is_) then None else m !! (k, i).
Proof.
  unfold delete_rows. rewrite map_lookup_filter. destruct (m !! (k, i)) as [r|]; cbn; [|by case_decide].
  case_decide; [by rewrite option_guard_False by (cbn; tauto)|by rewrite option_guard_True].
Qed.

(** Deleting the rows of a sorted sublist leaves the others. *)
Lemma list_rows_delete key t keep is_ :
  StronglySorted idx_lt keep →
  (∀ r, r ∈ keep ↔ r ∈ list_rows key t ∧ r.1 ∉ is_) →
  list_rows key (upd_lists (delete_rows key is_) t) = keep.
Proof.
  intros Hs Hk. apply list_rows_eq; [done|]. intros r. rewrite Hk, elem_of_list_rows. cbn.
  rewrite delete_rows_lookup. case_decide; split; intros; naive_solver.
Qed.

Lemma frame_delete_rows key is_ t : frame [key] t (upd_lists (delete_rows key is_) t).
Proof.
  apply frame_upd_lists. intros k b Hk. rewrite delete_rows_lookup, decide_False; [done|]. tauto.
Qed.

Lemma list_rows_delete_filter key t is_ :
  list_rows key (upd_lists (delete_rows key is_) t)
  = List.filter (λ r : lrow, negb (bool_decide (r.1 ∈ is_))) (list_rows key t).
Proof.
  apply list_rows_delete; [apply sorted_filter, list_rows_sorted|].
  intros r. rewrite list_elem_of_In, filter_In, <-list_elem_of_In, negb_true_iff, bool_decide_eq_false.
  done.
Qed.

(** Filtering out the indexes of a segment of a strictly sorted list. *)
Lemma filter_segment (l1 d l2 : list lrow) :
  NoDup (l1 ++ d ++ l2).*1 →
  List.filter (λ r : lrow, negb (bool_decide (r.1 ∈ d.*1))) (l1 ++ d ++ l2) = l1 ++ l2.
Proof.
  rewrite !fmap_app, !NoDup_app. intros (_ & H1 & _ & H2 & _).
  assert (∀ l : list lrow, (∀ r, r ∈ l → r.1 ∉ d.*1) →
    List.filter (λ r : lrow, negb (bool_decide (r.1 ∈ d.*1))) l = l) as Hkeep.
  { induction l as [|r l IH]; intros H; [done|]. cbn. rewrite bool_decide_false by (apply H; by left).
    cbn. f_equal. apply IH. intros. apply H. by right. }
  assert (List.filter (λ r : lrow, negb (bool_decide (r.1 ∈ d.*1))) d = []) as Hdrop.
  { assert (∀ l : list lrow, (∀ r, r ∈ l → r.1 ∈ d.*1) →
      List.filter (λ r : lrow, negb (bool_decide (r.1 ∈ d.*1))) l = []) as Hd.
    { induction l as [|r l IH]; intros H; [done|]. cbn. rewrite bool_decide_true by (apply H; by left).
      cbn. apply IH. intros. apply H. by right. }
    apply Hd. intros r Hr. by apply list_elem_of_fmap_2. }
  rewrite !List.filter_app, Hdrop, Hkeep, Hkeep; [done| |].
  - intros r Hr Hd. by apply (H2 r.1 Hd), list_elem_of_fmap_2.
  - intros r Hr Hd. apply (H1 r.1); [by apply list_elem_of_fmap_2|]. apply elem_of_app. by left.
Qed.

Lemma list_rows_delete_segment key t l1 d l2 :
  list_rows key t = l1 ++ d ++ l2 →
  list_rows key (upd_lists (delete_rows key d.*1) t) = l1 ++ l2.
Proof.
  intros E. rewrite list_rows_delete_filter, E. apply filter_segment. rewrite <-E.
  apply sorted_lt_NoDup, list_rows_sorted.
Qed.

(** ** Pushes and pops as a double-ended queue *)

(** All indexes of the key's rows lie within [-B .. B]. *)
Definition within (key : string) (B : Z) (t : tables) : Prop :=
  ∀ r, r ∈ list_rows key t → (- B <= r.1 <= B)%Z.

Lemma sorted_head_le (r0 : lrow) l r : StronglySorted idx_lt (r0 :: l) → r ∈ r0 :: l → (r0.1 <= r.1)%Z.
Proof.
  intros Hs [->|Hin]%elem_of_cons; [lia|]. inversion Hs as [|? ? _ Ha]; subst.
  rewrite Forall_forall in Ha. specialize (Ha r Hin). unfold idx_lt in Ha. lia.
Qed.

Lemma sorted_last_ge (l : list lrow) rl r :
  StronglySorted idx_lt l → last l = Some rl → r ∈ l → (r.1 <= rl.1)%Z.
Proof.
  intros Hs Hl. apply last_Some in Hl as [l' ->]. intros [Hin|Hin]%elem_of_app.
  - assert (∀ l' : list lrow, StronglySorted idx_lt (l' ++ [rl]) → r ∈ l' → (r.1 < rl.1)%Z) as H.
    { clear. induction l' as [|a l' IH]; cbn; intros Hs Hr; [by apply not_elem_of_nil in Hr|].
      inversion Hs as [|? ? Hs' Ha]; subst. rewrite Forall_forall in Ha.
      apply elem_of_cons in Hr as [->|Hr]; [|by apply IH]. apply Ha, elem_of_app. right. by left. }
    specialize (H l' Hs Hin). lia.
  - apply list_elem_of_singleton in Hin as ->. lia.
Qed.

Definition min_idx (rows : list lrow) : Z := match rows with [] => 0%Z | r :: _ => r.1 end.
Definition max_idx (rows : list lrow) : Z := match last rows with None => (-1)%Z | Some r => r.1 end.

(** The new rows of LPUSH and RPUSH. *)
Definition lpush_rows (m : Z) (values : list string) : list (Z * string) :=
  imap (λ i v, ((m - Z.of_nat (i + 1))%Z, v)) values.
Definition rpush_rows (m : Z) (values : list string) : list (Z * string) :=
  imap (λ i v, ((m + Z.of_nat (i + 1))%Z, v)) values.

Lemma zip_imap (f : nat → Z) (values : list string) :
  zip (imap (λ i _, f i) values) values = imap (λ i v, (f i, v)) values.
Proof.
  revert f. induction values as [|v values IH]; intros f; [done|]. cbn. f_equal.
  exact (IH (λ i, f (S i))).
Qed.

Lemma lpush_rows_sorted m values : StronglySorted idx_lt (reverse (new_row <$> lpush_rows m values)).
Proof.
  revert m. induction values as [|v values IH]; intros m; [constructor|].
  unfold lpush_rows. rewrite imap_cons, fmap_cons, reverse_cons. apply sorted_app.
  - specialize (IH (m - 1)%Z). unfold lpush_rows in IH.
    erewrite (imap_ext (_ ∘ S)); [exact IH|]. intros. cbn. f_equal. lia.
  - constructor; [constructor|constructor].
  - intros a b Ha Hb. apply list_elem_of_singleton in Hb as ->.
    rewrite elem_of_reverse in Ha. apply list_elem_of_fmap in Ha as (x & -> & Hx).
    apply elem_of_lookup_imap in Hx as (i & y & -> & _). unfold idx_lt, new_row. cbn. lia.
Qed.

Lemma rpush_rows_sorted m values : StronglySorted idx_lt (new_row <$> rpush_rows m values).
Proof.
  revert m. induction values as [|v values IH]; intros m; [constructor|].
  unfold rpush_rows. cbn. constructor.
  - specialize (IH (m + 1)%Z). unfold rpush_rows in IH.
    erewrite (imap_ext (_ ∘ S)); [exact IH|]. intros. cbn. f_equal. lia.
  - rewrite Forall_forall. intros b Hb. apply list_elem_of_fmap in Hb as (x & -> & Hx).
    apply elem_of_lookup_imap in Hx as (i & y & -> & _). unfold idx_lt, new_row. cbn. lia.
Qed.

Lemma new_row_fst rows : (new_row <$> rows).*1 = rows.*1.
Proof. rewrite <-list_fmap_compose. by apply list_fmap_ext. Qed.

Lemma new_row_value (f : nat → Z) values :
  (λ r : lrow, r.2.1) <$> (new_row <$> imap (λ i v, (f i, v)) values) = values.
Proof.
  rewrite <-list_fmap_compose. revert f. induction values as [|v values IH]; intros f; [done|].
  cbn. f_equal. apply (IH (λ i, f (S i))).
Qed.

Lemma runs_wrapErr {A} now gonow p (m : M A) t t' a :
  runs now gonow m t t' (Ok a) → runs now gonow (wrapErr p m) t t' (Ok a).
Proof. apply runs_catch. Qed.

Lemma runs_count_rows now gonow key t :
  runs now gonow (count_rows_stmt key) t t (Ok (Z.of_nat (length (list_rows key t)))).
Proof. apply runs_query. Qed.

#[local] Hint Resolve runs_wrapErr runs_count_rows : runs.

(** Inserting a block of new rows next to the existing ones. *)
Lemma runs_insert_block now gonow key rows t all :
  StronglySorted idx_lt all →
  (∀ r, r ∈ all ↔ r ∈ new_row <$> rows ∨ r ∈ list_rows key t) →
  NoDup rows.*1 → (∀ i, i ∈ rows.*1 → ∀ r, r ∈ list_rows key t → r.1 ≠ i) →
  ∃ t', runs now gonow (insert_stmt key rows) t t' (Ok tt) ∧ list_rows key t' = all ∧
        frame [key] t t' ∧ kv_meta t' = kv_meta t.
Proof.
  intros Hs Hall Hnd Hfree.
  destruct (insert_rows_spec key rows (kv_lists t) Hnd) as (m' & E & H1 & H2).
  { intros i Hi. destruct (kv_lists t !! (key, i)) as [r|] eqn:Er; [|done]. exfalso.
    by apply (Hfree i Hi (i, r)); [apply elem_of_list_rows|]. }
  exists (upd_lists (λ _, m') t). split; [apply runs_stmt; by rewrite E|]. split; [|split; [|done]].
  - apply list_rows_eq; [done|]. intros [i r]. cbn. rewrite H1, Hall.
    rewrite (elem_of_list_rows key t (i, r)). done.
  - apply frame_upd_lists. intros k b Hk. by apply H2.
Qed.

(** What a push establishes. *)
Definition pushed (enc : string) (rows' : list lrow) (t t' : tables) : Prop :=
  list_rows enc t' = rows' ∧ frame [enc] t t' ∧ kv_meta t' !! enc = Some (TypeList, None).

Lemma runs_push_block now gonow enc rows t all :
  StronglySorted idx_lt all →
  (∀ r, r ∈ all ↔ r ∈ new_row <$> rows ∨ r ∈ list_rows enc t) →
  NoDup rows.*1 → (∀ i, i ∈ rows.*1 → ∀ r, r ∈ list_rows enc t → r.1 ≠ i) →
  ∃ t', runs now gonow
          (setMeta enc TypeList None;; insert_stmt enc rows;;
           wrapErr "failed to get list length" (count_rows_stmt enc)) t t'
          (Ok (Z.of_nat (length all))) ∧ pushed enc all t t'.
Proof.
  intros Hs Hall Hnd Hfree. set (t1 := upd_meta <[enc := (TypeList, None)]> t).
  assert (list_rows enc t1 = list_rows enc t) as Hrows by done.
  destruct (runs_insert_block now gonow enc rows t1 all Hs Hall Hnd Hfree) as (t' & Hr & Hl & Hf & Hm).
  exists t'. split.
  - step. eapply runs_bind; [exact Hr|]. eapply runs_eq; [finish|done|]. by rewrite Hl.
  - split; [done|]. split; [eapply frame_trans; [apply frame_insert_meta|exact Hf]|].
    rewrite Hm. cbn. apply lookup_insert_eq.
Qed.

Lemma imap_wrap (f g : nat → Z) (values : list string) :
  (∀ i, i < length values → f i = g i) →
  imap (λ i _, f i) values = imap (λ i _, g i) values.
Proof.
  revert f g. induction values as [|v l IH]; intros f g H; [done|]. cbn. f_equal.
  - apply H. cbn. lia.
  - apply (IH (λ i, f (S i)) (λ i, g (S i))). intros i Hi. apply H. cbn. lia.
Qed.

Lemma runs_lPush now gonow key values B t :
  let enc := encodeKey key in
  values ≠ [] → type_ok now TypeList enc t = true → within enc B t →
  (0 <= B)%Z → (B + Z.of_nat (length values) <= 2 ^ 62)%Z →
  ∃ t', runs now gonow (lPush key values) t t'
          (Ok (Z.of_nat (length (reverse values ++ list_of enc t)))) ∧
        list_of enc t' = reverse values ++ list_of enc t ∧ frame [enc] t t' ∧
        kv_meta t' !! enc = Some (TypeList, None) ∧ within enc (B + Z.of_nat (length values)) t'.
Proof.
  intros enc Hne Hty Hin HB Hlen. set (rows := list_rows enc t) in *. set (m := min_idx rows).
  assert (- B <= m <= B)%Z as Hm.
  { unfold m, min_idx. destruct rows as [|r rows'] eqn:E; [lia|]. apply Hin. unfold rows in E. rewrite E. by left. }
  assert (∀ r, r ∈ rows → (m <= r.1)%Z) as Hmin.
  { intros r Hr. unfold m, min_idx. destruct rows as [|r0 rows'] eqn:E; [by apply not_elem_of_nil in Hr|].
    eapply sorted_head_le; [|exact Hr]. rewrite <-E. apply list_rows_sorted. }
  assert (∀ iv, iv ∈ lpush_rows m values → (- B - Z.of_nat (length values) <= iv.1 < m)%Z) as Hnew.
  { intros iv (i & v & -> & Hi)%elem_of_lookup_imap. cbn. apply lookup_lt_Some in Hi. lia. }
  destruct (runs_push_block now gonow enc (lpush_rows m values) t
              (reverse (new_row <$> lpush_rows m values) ++ rows)) as (t' & Hr & Hl & Hf & Hmeta).
  - apply sorted_app; [apply lpush_rows_sorted|apply list_rows_sorted|].
    intros a b Ha Hb. rewrite elem_of_reverse in Ha. apply list_elem_of_fmap in Ha as (iv & -> & Hiv).
    specialize (Hnew _ Hiv). specialize (Hmin _ Hb). unfold idx_lt, new_row. cbn. lia.
  - intros r. by rewrite elem_of_app, elem_of_reverse.
  - pose proof (sorted_lt_NoDup _ (lpush_rows_sorted m values)) as Hnd.
    by rewrite reverse_Permutation, new_row_fst in Hnd.
  - intros i (iv & -> & Hiv)%list_elem_of_fmap r Hr. specialize (Hnew _ Hiv). specialize (Hmin _ Hr). lia.
  - exists t'. assert (list_of enc t' = reverse values ++ list_of enc t) as Hval.
    { unfold list_of. rewrite Hl, fmap_app, fmap_reverse. f_equal. f_equal. apply new_row_value. }
    split; [|split; [exact Hval|split; [exact Hf|split; [exact Hmeta|]]]].
    + unfold lPush. eapply runs_bind; [by apply runs_requireType_ok|]. fold enc.
      destruct values as [|v vs] eqn:Ev; [done|]. rewrite <-Ev in *. step. step.
      fold enc. fold rows. fold (min_idx rows). fold m.
      rewrite (imap_wrap _ (λ i, (m - Z.of_nat (i + 1))%Z)).
      2: { intros i Hi. apply wrap64_id. unfold int64. lia. }
      rewrite zip_imap. eapply runs_eq; [exact Hr|done|].
      rewrite <-Hval. unfold list_of. by rewrite length_fmap, Hl.
    + intros r Hr'. rewrite Hl in Hr'. apply elem_of_app in Hr' as [Hr'|Hr'].
      * rewrite elem_of_reverse in Hr'. apply list_elem_of_fmap in Hr' as (iv & -> & Hiv).
        specialize (Hnew _ Hiv). unfold new_row. cbn. lia.
      * specialize (Hin _ Hr'). lia.
Qed.

Lemma runs_rPush now gonow key values B t :
  let enc := encodeKey key in
  values ≠ [] → type_ok now TypeList enc t = true → within enc B t →
  (1 <= B)%Z → (B + Z.of_nat (length values) <= 2 ^ 62)%Z →
  ∃ t', runs now gonow (rPush key values) t t'
          (Ok (Z.of_nat (length (list_of enc t ++ values)))) ∧
        list_of enc t' = list_of enc t ++ values ∧ frame [enc] t t' ∧
        kv_meta t' !! enc = Some (TypeList, None) ∧ within enc (B + Z.of_nat (length values)) t'.
Proof.
  intros enc Hne Hty Hin HB Hlen. set (rows := list_rows enc t) in *. set (m := max_idx rows).
  assert (- B <= m <= B)%Z as Hm.
  { unfold m, max_idx. destruct (last rows) as [r|] eqn:E; [|lia]. apply Hin.
    apply last_Some in E as [l' E]. unfold rows in E. rewrite E. apply elem_of_app. right. by left. }
  assert (∀ r, r ∈ rows → (r.1 <= m)%Z) as Hmax.
  { intros r Hr. unfold m, max_idx. destruct (last rows) as [rl|] eqn:E.
    - eapply sorted_last_ge; [apply list_rows_sorted|exact E|exact Hr].
    - apply last_None in E. rewrite E in Hr. by apply not_elem_of_nil in Hr. }
  assert (∀ iv, iv ∈ rpush_rows m values → (m < iv.1 <= B + Z.of_nat (length values))%Z) as Hnew.
  { intros iv (i & v & -> & Hi)%elem_of_lookup_imap. cbn. apply lookup_lt_Some in Hi. lia. }
  destruct (runs_push_block now gonow enc (rpush_rows m values) t
              (rows ++ (new_row <$> rpush_rows m values))) as (t' & Hr & Hl & Hf & Hmeta).
  - apply sorted_app; [apply list_rows_sorted|apply rpush_rows_sorted|].
    intros a b Ha Hb. apply list_elem_of_fmap in Hb as (iv & -> & Hiv).
    specialize (Hnew _ Hiv). specialize (Hmax _ Ha). unfold idx_lt, new_row. cbn. lia.
  - intros r. rewrite elem_of_app. tauto.
  - rewrite <-new_row_fst. apply sorted_lt_NoDup, rpush_rows_sorted.
  - intros i (iv & -> & Hiv)%list_elem_of_fmap r Hr. specialize (Hnew _ Hiv). specialize (Hmax _ Hr). lia.
  - exists t'. assert (list_of enc t' = list_of enc t ++ values) as Hval.
    { unfold list_of. rewrite Hl, fmap_app. f_equal. apply new_row_value. }
    split; [|split; [exact Hval|split; [exact Hf|split; [exact Hmeta|]]]].
    + unfold rPush. eapply runs_bind; [by apply runs_requireType_ok|]. fold enc.
      destruct values as [|v vs] eqn:Ev; [done|]. rewrite <-Ev in *. step. step.
      fold enc. fold rows. fold (max_idx rows). fold m.
      rewrite (imap_wrap _ (λ i, (m + Z.of_nat (i + 1))%Z)).
      2: { intros i Hi. apply wrap64_id. unfold int64. lia. }
      rewrite zip_imap. eapply runs_eq; [exact Hr|done|].
      rewrite <-Hval. unfold list_of. by rewrite length_fmap, Hl.
    + intros r Hr'. rewrite Hl in Hr'. apply elem_of_app in Hr' as [Hr'|Hr'].
      * specialize (Hin _ Hr'). lia.
      * apply list_elem_of_fmap in Hr' as (iv & -> & Hiv).
        specialize (Hnew _ Hiv). unfold new_row. cbn. lia.
Qed.

Lemma runs_push_nil now gonow key t :
  let enc := encodeKey key in
  type_ok now TypeList enc t = true →
  runs now gonow (lPush key []) t t (Ok (Z.of_nat (length (list_of enc t)))) ∧
  runs now gonow (rPush key []) t t (Ok (Z.of_nat (length (list_of enc t)))).
Proof.
  intros enc Hty. unfold list_of. rewrite length_fmap.
  split; (eapply runs_bind; [by apply runs_requireType_ok|]); finish.
Qed.

Lemma runs_pop_first now gonow (asc : bool) enc t :
  ∃ t', runs now gonow (pop_first asc enc) t t'
          (Ok (if asc then head (list_of enc t) else last (list_of enc t))) ∧
        list_of enc t' = (if asc then tail (list_of enc t) else removelast (list_of enc t)) ∧
        frame [enc] t t' ∧ kv_meta t' = kv_meta t ∧ ∀ B, within enc B t → within enc B t'.
Proof.
  unfold list_of. set (rows := list_rows enc t).
  assert (∀ r d, list_rows enc t = r ++ [d] ∨ list_rows enc t = d :: r →
    ∀ B, within enc B t → within enc B (upd_lists (delete_rows enc [d.1]) t)) as Hw.
  { intros r d _ B HB x Hx. rewrite list_rows_delete_filter in Hx.
    rewrite list_elem_of_In in Hx. apply filter_In in Hx as [Hx _]. by apply HB, list_elem_of_In. }
  destruct asc.
  - destruct rows as [|r rows'] eqn:E.
    + exists t. split; [|split; [unfold rows in E; by rewrite E|done]].
      apply runs_stmt. unfold ordered. fold rows. by rewrite E.
    + exists (upd_lists (delete_rows enc [r.1]) t). split; [|split; [|split; [|split; [done|]]]].
      * apply runs_stmt. unfold ordered. fold rows. by rewrite E.
      * change [r.1] with ([r].*1). by rewrite (list_rows_delete_segment enc t [] [r] rows' E).
      * apply frame_delete_rows.
      * apply (Hw rows'). by right.
  - destruct (decide (rows = [])) as [E|Hne].
    { exists t. split; [|split; [fold rows; by rewrite E|done]]. rewrite E.
      apply runs_stmt. unfold ordered. fold rows. by rewrite E. }
    destruct (exists_last Hne) as (rows' & r & E).
    exists (upd_lists (delete_rows enc [r.1]) t). split; [|split; [|split; [|split; [done|]]]].
    + rewrite E, fmap_app, last_app. apply runs_stmt. unfold ordered. fold rows. rewrite E, reverse_app. done.
    + change [r.1] with ([r].*1).
      rewrite (list_rows_delete_segment enc t rows' [r] []); [|by rewrite app_nil_r].
      rewrite E, app_nil_r, fmap_app. cbn. by rewrite removelast_last.
    + apply frame_delete_rows.
    + apply (Hw rows'). by left.
Qed.

(** The deque commands and their answers. *)
Inductive dop := DLPush (values : list string) | DRPush (values : list string) | DLPop | DRPop.
Inductive dout := DInt (n : Z) | DVal (v : option string).

Definition exec_dop (key : string) (op : dop) : M dout :=
  match op with
  | DLPush values => n ← lPush key values; mret (DInt n)
  | DRPush values => n ← rPush key values; mret (DInt n)
  | DLPop => v ← lPop key; mret (DVal v)
  | DRPop => v ← rPop key; mret (DVal v)
  end.
Fixpoint exec_dops (key : string) (ops : list dop) : M (list dout) :=
  match ops with
  | [] => mret []
  | op :: ops => r ← exec_dop key op; rs ← exec_dops key ops; mret (r :: rs)
  end.

(** The specification: a double-ended queue. *)
Definition spec_dop (op : dop) (l : list string) : list string * dout :=
  match op with
  | DLPush values => (reverse values ++ l, DInt (Z.of_nat (length (reverse values ++ l))))
  | DRPush values => (l ++ values, DInt (Z.of_nat (length (l ++ values))))
  | DLPop => (tail l, DVal (head l))
  | DRPop => (removelast l, DVal (last l))
  end.
Fixpoint spec_dops (ops : list dop) (l : list string) : list string * list dout :=
  match ops with
  | [] => (l, [])
  | op :: ops => let '(l', r) := spec_dop op l in
                 let '(l'', rs) := spec_dops ops l' in (l'', r :: rs)
  end.

Definition pushes (op : dop) : Z :=
  match op with DLPush vs => Z.of_nat (length vs) | DRPush vs => Z.of_nat (length vs) | _ => 0%Z end.

Lemma type_ok_meta now kt enc t t' :
  kv_meta t' !! enc = kv_meta t !! enc ∨ kv_meta t' !! enc = Some (kt, None) →
  type_ok now kt enc t = true → type_ok now kt enc t' = true.
Proof.
  unfold type_ok, meta_type. intros [-> | ->]; [done|]. intros _. cbn.
  rewrite (bool_decide_true (kt = kt)) by done. apply orb_true_r.
Qed.

(** One command simulates one step of the specification. *)
Lemma runs_exec_dop now gonow key op B t :
  let enc := encodeKey key in
  type_ok now TypeList enc t = true → within enc B t → (1 <= B)%Z → (B + pushes op <= 2 ^ 62)%Z →
  let '(l', r) := spec_dop op (list_of enc t) in
  ∃ t', runs now gonow (exec_dop key op) t t' (Ok r) ∧ list_of enc t' = l' ∧ frame [enc] t t' ∧
        type_ok now TypeList enc t' = true ∧ within enc (B + pushes op) t'.
Proof.
  intros enc Hty Hw HB Hp. destruct op as [vs|vs| |]; cbn [spec_dop exec_dop pushes] in *.
  - destruct (decide (vs = [])) as [->|Hne].
    + destruct (runs_push_nil now gonow key t Hty) as [Hr _]. exists t.
      split; [eapply runs_bind; [exact Hr|]; finish|]. rewrite Z.add_0_r. done.
    + destruct (runs_lPush now gonow key vs B t Hne Hty Hw ltac:(lia) Hp) as (t' & Hr & Hl & Hf & Hm & Hw').
      exists t'. split; [eapply runs_bind; [exact Hr|]; finish|]. split_and!; try done.
      apply (type_ok_meta now TypeList enc t); [by right|done].
  - destruct (decide (vs = [])) as [->|Hne].
    + destruct (runs_push_nil now gonow key t Hty) as [_ Hr]. exists t. rewrite app_nil_r.
      split; [eapply runs_bind; [exact Hr|]; finish|]. rewrite Z.add_0_r. done.
    + destruct (runs_rPush now gonow key vs B t Hne Hty Hw HB Hp) as (t' & Hr & Hl & Hf & Hm & Hw').
      exists t'. split; [eapply runs_bind; [exact Hr|]; finish|]. split_and!; try done.
      apply (type_ok_meta now TypeList enc t); [by right|done].
  - destruct (runs_pop_first now gonow true enc t) as (t' & Hr & Hl & Hf & Hm & Hw').
    exists t'. split; [eapply runs_bind; [exact Hr|]; finish|]. rewrite Z.add_0_r. split_and!; try done.
    + apply (type_ok_meta now TypeList enc t); [left; by rewrite Hm|done].
    + by apply Hw'.
  - destruct (runs_pop_first now gonow false enc t) as (t' & Hr & Hl & Hf & Hm & Hw').
    exists t'. split; [eapply runs_bind; [exact Hr|]; finish|]. rewrite Z.add_0_r. split_and!; try done.
    + apply (type_ok_meta now TypeList enc t); [left; by rewrite Hm|done].
    + by apply Hw'.
Qed.

Definition total_pushes (ops : list dop) : Z := foldr (λ op n, (pushes op + n)%Z) 0%Z ops.

Lemma total_pushes_nonneg ops : (0 <= total_pushes ops)%Z.
Proof.
  induction ops as [|op ops IH]; [done|].
  change (total_pushes (op :: ops)) with (pushes op + total_pushes ops)%Z.
  assert (0 <= pushes op)%Z by (destruct op; unfold pushes; lia). lia.
Qed.

Lemma runs_exec_dops now gonow key ops B t :
  let enc := encodeKey key in
  type_ok now TypeList enc t = true → within enc B t → (1 <= B)%Z → (B + total_pushes ops <= 2 ^ 62)%Z →
  let '(l', rs) := spec_dops ops (list_of enc t) in
  ∃ t', runs now gonow (exec_dops key ops) t t' (Ok rs) ∧ list_of enc t' = l' ∧ frame [enc] t t'.
Proof.
  intros enc. revert B t. induction ops as [|op ops IH]; intros B t Hty Hw HB Hp; cbn [spec_dops exec_dops].
  { exists t. split; [finish|done]. }
  change (total_pushes (op :: ops)) with (pushes op + total_pushes ops)%Z in Hp.
  pose proof (total_pushes_nonneg ops).
  pose proof (runs_exec_dop now gonow key op B t Hty Hw HB ltac:(lia)) as Hop. fold enc in Hop.
  destruct (spec_dop op (list_of enc t)) as [l1 r]. destruct Hop as (t1 & Hr1 & <- & Hf1 & Hty1 & Hw1).
  assert (0 <= pushes op)%Z by (destruct op; cbn; lia).
  specialize (IH (B + pushes op)%Z t1 Hty1 Hw1 ltac:(lia) ltac:(lia)).
  destruct (spec_dops ops (list_of enc t1)) as [l2 rs]. destruct IH as (t2 & Hr2 & Hl2 & Hf2).
  exists t2. split; [|split; [done|by etrans]].
  eapply runs_bind; [exact Hr1|]. eapply runs_bind; [exact Hr2|]. finish.
Qed.

(** C14. Lists refine a double-ended queue: any sequence of LPUSH, RPUSH (with
    any number of values), LPOP and RPOP on a key that is missing or holds a
    list gives the answers, and leaves the list, that the same sequence gives
    on a plain sequence of values; other keys are untouched. The only bound is
    the BIGINT index range: the present indexes and the number of pushed
    values stay below 2^62. *)
Theorem list_refines_deque now gonow key ops B t :
  let enc := encodeKey key in
  type_ok now TypeList enc t = true → within enc B t → (1 <= B)%Z → (B + total_pushes ops <= 2 ^ 62)%Z →
  ∃ t', run now gonow (exec_dops key ops) t = (t', Ok (spec_dops ops (list_of enc t)).2) ∧
        list_of enc t' = (spec_dops ops (list_of enc t)).1 ∧ frame [enc] t t'.
Proof.
  intros enc Hty Hw HB Hp. pose proof (runs_exec_dops now gonow key ops B t Hty Hw HB Hp) as H.
  fold enc in H. destruct (spec_dops ops (list_of enc t)) as [l' rs].
  destruct H as (t' & Hr & ? & ?). exists t'. split; [by apply runs_run|done].
Qed.

Lemma list_refines_deque_witness :
  let ops := [DRPush ["a"; "b"]; DLPush ["c"; "d"]; DRPop; DLPop; DLPop; DLPop; DLPop] in
  type_ok 0 TypeList "l" empty_tables = true ∧
  ∃ t', run 0 0 (exec_dops "l" ops) empty_tables
        = (t', Ok [DInt 2; DInt 4; DVal (Some "b"); DVal (Some "d"); DVal (Some "c"); DVal (Some "a"); DVal None])
        ∧ list_of "l" t' = [] ∧ frame ["l"] empty_tables t'.
Proof.
  intros ops. split; [reflexivity|].
  apply (list_refines_deque 0 0 "l" ops 1 empty_tables);
    [reflexivity|intros r Hr; by apply elem_of_list_rows in Hr|lia|vm_compute; discriminate].
Defined.

(** ** Ranges *)

(** The elements at positions [lo .. hi]. *)
Definition sublist (lo hi : Z) (l : list string) : list string :=
  take (Z.to_nat (hi - lo + 1)) (drop (Z.to_nat lo) l).

Lemma list_bounds_spec total start stop :
  (0 <= total < 2 ^ 63)%Z → int64 start → int64 stop →
  list_bounds total start stop
  = (Z.max 0 (from_end total start), Z.min (total - 1) (from_end total stop)).
Proof. exact (BitmapOps.clampRange_spec total start stop). Qed.

Lemma sublist_empty lo hi l : (hi < lo)%Z → sublist lo hi l = [].
Proof. intros. unfold sublist. by replace (Z.to_nat (hi - lo + 1)) with 0 by lia. Qed.

Lemma length_list_of enc t : length (list_of enc t) = length (list_rows enc t).
Proof. apply length_fmap. Qed.

Lemma runs_lRange now gonow key start stop t :
  let enc := encodeKey key in
  let l := list_of enc t in
  let n := Z.of_nat (length l) in
  (n < 2 ^ 63)%Z → int64 start → int64 stop →
  runs now gonow (lRange key start stop) t t
    (match meta_type enc now t with
     | Some kt => if bool_decide (kt = TypeList)
                  then Ok (sublist (Z.max 0 (from_end n start)) (Z.min (n - 1) (from_end n stop)) l)
                  else Fail errWrongType
     | None => Ok (sublist (Z.max 0 (from_end n start)) (Z.min (n - 1) (from_end n stop)) l)
     end).
Proof.
  intros enc l n Hn Hs He. unfold lRange, queueTypeCheck. step. step. fold enc.
  pose proof (runs_readTypeCheck now gonow (meta_type enc now t) TypeList t) as Hr.
  assert (runs now gonow
    (total ← wrapErr "failed to get list count" (unwrap (Ok (Z.of_nat (length (list_rows enc t)))));
     let '(start0, stop0) := list_bounds total start stop in
     if (stop0 <? start0)%Z then mret []
     else query (λ _ t0, (λ r : lrow, r.2.1) <$>
            take (Z.to_nat (stop0 - start0 + 1)) (drop (Z.to_nat start0) (list_rows enc t0)))) t t
    (Ok (sublist (Z.max 0 (from_end n start)) (Z.min (n - 1) (from_end n stop)) l))) as Hrest.
  { step. rewrite <-length_list_of. fold l. fold n. rewrite list_bounds_spec by (done || lia).
    destruct (Z.ltb_spec (Z.min (n - 1) (from_end n stop)) (Z.max 0 (from_end n start))).
    - rewrite sublist_empty by done. finish.
    - eapply runs_eq; [apply runs_query|done|]. unfold sublist, l, list_of.
      by rewrite fmap_take, fmap_drop. }
  destruct (meta_type enc now t) as [kt|]; [destruct (bool_decide (kt = TypeList))|].
  - eapply runs_bind; [exact Hr|]. exact Hrest.
  - eapply runs_bind_fail. exact Hr.
  - eapply runs_bind; [exact Hr|]. exact Hrest.
Qed.

Lemma frame_drop_lists key t : frame [key] t (upd_lists (drop_key key) t).
Proof. apply frame_upd_lists. intros. rewrite drop_key_lookup. by rewrite decide_False. Qed.

Lemma runs_lTrim now gonow key start stop t :
  let enc := encodeKey key in
  let l := list_of enc t in
  let n := Z.of_nat (length l) in
  (n < 2 ^ 63)%Z → int64 start → int64 stop →
  ∃ t', runs now gonow (lTrim key start stop) t t' (Ok tt) ∧ frame [enc] t t' ∧
        list_of enc t' = sublist (Z.max 0 (from_end n start)) (Z.min (n - 1) (from_end n stop)) l.
Proof.
  intros enc l n Hn Hs He. set (lo := Z.max 0 (from_end n start)). set (hi := Z.min (n - 1) (from_end n stop)).
  assert (n = Z.of_nat (length (list_rows enc t))) as En by (unfold n, l; by rewrite length_list_of).
  destruct (decide (n = 0)%Z) as [E0|Hne].
  { exists t. split; [|split; [done|]].
    - unfold lTrim. step. step. fold enc. rewrite <-En, E0. apply runs_ret.
    - rewrite sublist_empty by lia. unfold list_of. by destruct (list_rows enc t); [|cbn in En; lia]. }
  destruct (Z.lt_ge_cases hi lo) as [Hlt|Hge].
  - exists (upd_lists (drop_key enc) (upd_meta (delete enc) t)). split; [|split].
    + unfold lTrim. step. step. fold enc. rewrite <-En. rewrite (proj2 (Z.eqb_neq _ _)) by done.
      rewrite list_bounds_spec by (done || lia). fold lo hi. rewrite (proj2 (Z.ltb_lt _ _)) by done.
      step. apply runs_exec.
    + eapply frame_trans; [|apply frame_drop_lists]. apply frame_upd_meta. intros. by apply lookup_delete_ne.
    + rewrite sublist_empty by done. unfold list_of.
      rewrite (list_rows_eq enc _ []); [done|constructor|]. intros r. cbn. rewrite drop_key_lookup.
      rewrite decide_True by done. split; [by intros []%not_elem_of_nil|done].
  - set (rows := list_rows enc t) in *.
    set (doomed := take (Z.to_nat lo) rows ++ drop (Z.to_nat (hi + 1)) rows).
    set (mid := take (Z.to_nat (hi - lo + 1)) (drop (Z.to_nat lo) rows)).
    assert (rows = take (Z.to_nat lo) rows ++ mid ++ drop (Z.to_nat (hi + 1)) rows) as Esplit.
    { unfold mid. replace (Z.to_nat (hi + 1)) with (Z.to_nat lo + Z.to_nat (hi - lo + 1)) by lia.
      symmetry. apply take_drop_middle_Z. }
    assert (StronglySorted idx_lt rows) as Hsort by apply list_rows_sorted.
    exists (upd_lists (delete_rows enc doomed.*1) t). split; [|split; [apply frame_delete_rows|]].
    + unfold lTrim. step. step. fold enc. fold rows. rewrite <-En. rewrite (proj2 (Z.eqb_neq _ _)) by done.
      rewrite list_bounds_spec by (done || lia). fold lo hi. rewrite (proj2 (Z.ltb_ge _ _)) by done.
      apply runs_exec.
    + unfold list_of at 1. rewrite (list_rows_delete enc t mid).
      * unfold mid, sublist, l, list_of. by rewrite fmap_take, fmap_drop.
      * unfold mid. rewrite Esplit in Hsort.
        by apply StronglySorted_app_1_r, StronglySorted_app_1_l in Hsort.
      * intros r. fold rows. pose proof (sorted_lt_NoDup _ Hsort) as Hnd. rewrite Esplit in Hnd.
        rewrite !fmap_app in Hnd. rewrite !NoDup_app in Hnd. destruct Hnd as (_ & H1 & _ & H2 & _).
        unfold doomed. rewrite fmap_app, elem_of_app. split.
        -- intros Hr. assert (r.1 ∈ mid.*1) as Hr1 by (by apply list_elem_of_fmap_2).
           split; [rewrite Esplit, !elem_of_app; by right; left|]. intros [Hd|Hd].
           ++ apply (H1 _ Hd), elem_of_app. by left.
           ++ by apply (H2 _ Hr1).
        -- intros [Hr Hnd]. rewrite Esplit, !elem_of_app in Hr. destruct Hr as [Hr|[Hr|Hr]]; [|done|].
           ++ exfalso. apply Hnd. left. by apply list_elem_of_fmap_2.
           ++ exfalso. apply Hnd. right. by apply list_elem_of_fmap_2.
Qed.

(** LRANGE reads, and LTRIM keeps, exactly the elements at the positions
    from [start] to [stop], negative positions counting from the end and
    positions outside the list clamped; LRANGE changes nothing (and is
    WRONGTYPE on another type), LTRIM touches no other key. *)
Theorem lRange_lTrim_correct now gonow key start stop t :
  let enc := encodeKey key in
  let l := list_of enc t in
  let n := Z.of_nat (length l) in
  (n < 2 ^ 63)%Z → int64 start → int64 stop →
  let r := sublist (Z.max 0 (from_end n start)) (Z.min (n - 1) (from_end n stop)) l in
  run now gonow (lRange key start stop) t =
    (t, match meta_type enc now t with
        | Some kt => if bool_decide (kt = TypeList) then Ok r else Fail errWrongType
        | None => Ok r
        end) ∧
  ∃ t', run now gonow (lTrim key start stop) t = (t', Ok tt) ∧ frame [enc] t t' ∧ list_of enc t' = r.
Proof.
  intros enc l n Hn Hs He r. split; [by apply runs_run, runs_lRange|].
  destruct (runs_lTrim now gonow key start stop t Hn Hs He) as (t' & Hr & ? & ?).
  exists t'. split; [by apply runs_run|done].
Qed.

Definition db_list : tables :=
  Tables {[ "l" := ("list", None) ]} ∅ ∅
    (<[("l", 3%Z) := ("c", None)]> (<[("l", (-1)%Z) := ("a", None)]> {[ ("l", 0%Z) := ("b", None) ]})) ∅ ∅ ∅.

Lemma lRange_lTrim_correct_witness :
  list_of "l" db_list = ["a"; "b"; "c"] ∧
  run 0 0 (lRange "l" (-2) 7) db_list = (db_list, Ok ["b"; "c"]) ∧
  ∃ t', run 0 0 (lTrim "l" (-2) 7) db_list = (t', Ok tt) ∧ frame ["l"] db_list t' ∧
        list_of "l" t' = ["b"; "c"].
Proof.
  split; [vm_compute; reflexivity|].
  apply (lRange_lTrim_correct 0 0 "l" (-2) 7 db_list);
    [vm_compute; reflexivity|unfold int64; lia|unfold int64; lia].
Defined.

(** ** LSET, LREM, LINSERT *)

Lemma sorted_fst (l l' : list lrow) : l.*1 = l'.*1 → StronglySorted idx_lt l → StronglySorted idx_lt l'.
Proof.
  assert (∀ l : list lrow, StronglySorted idx_lt l ↔ StronglySorted Z.lt l.*1) as H.
  { clear. induction l as [|a l IH]; [split; constructor|]. cbn. split; intros Hs;
      inversion Hs as [|? ? Hs' Ha]; subst; (constructor; [by apply IH|]).
    - by rewrite Forall_fmap.
    - by rewrite Forall_fmap in Ha. }
  rewrite !H. by intros ->.
Qed.

(** Removing the first [n] occurrences; [None] removes all. *)
Fixpoint remove_first (n : option nat) (e : string) (l : list string) : list string :=
  match l with
  | [] => []
  | x :: l =>
      if decide (x = e) then
        match n with
        | Some O => x :: l
        | Some (S n) => remove_first (Some n) e l
        | None => remove_first None e l
        end
      else x :: remove_first n e l
  end.

(** The rows of the first [n] hits, and what is left without them. *)
Definition hits (e : string) (rows : list lrow) : list lrow :=
  List.filter (λ r : lrow, bool_decide (r.2.1 = e)) rows.
Definition without (target rows : list lrow) : list lrow :=
  List.filter (λ r : lrow, negb (bool_decide (r.1 ∈ target.*1))) rows.

Lemma without_cons_other r target rows :
  r.1 ∉ rows.*1 → without (r :: target) rows = without target rows.
Proof.
  unfold without. induction rows as [|r' rows IH]; intros Hni; [done|]. cbn in *.
  rewrite not_elem_of_cons in Hni. destruct Hni as [Hne Hni]. rewrite (IH Hni).
  rewrite (bool_decide_ext (r'.1 ∈ r.1 :: target.*1) (r'.1 ∈ target.*1)); [done|].
  rewrite elem_of_cons. split; [intros [?|?]; [congruence|done]|by right].
Qed.

Lemma without_subset target rows r : r ∈ without target rows → r ∈ rows.
Proof. unfold without. rewrite !list_elem_of_In. intros [? _]%filter_In. done. Qed.

Lemma hits_subset e rows r : r ∈ hits e rows → r ∈ rows.
Proof. unfold hits. rewrite !list_elem_of_In. intros [? _]%filter_In. done. Qed.

Lemma without_keep (r : lrow) target rows :
  r.1 ∉ target.*1 → without target (r :: rows) = r :: without target rows.
Proof. intros H. unfold without. cbn. by rewrite bool_decide_false. Qed.
Lemma without_drop (r : lrow) target rows :
  r.1 ∈ target.*1 → without target (r :: rows) = without target rows.
Proof. intros H. unfold without. cbn. by rewrite bool_decide_true. Qed.
Lemma without_nil rows : without [] rows = rows.
Proof.
  induction rows as [|r rows IH]; [done|]. rewrite without_keep by (apply not_elem_of_nil). by rewrite IH.
Qed.

Lemma remove_hits (n : option nat) e rows :
  NoDup rows.*1 →
  (λ r : lrow, r.2.1) <$> without (match n with Some n => take n (hits e rows) | None => hits e rows end) rows
  = remove_first n e ((λ r : lrow, r.2.1) <$> rows).
Proof.
  revert n. induction rows as [|r rows IH]; intros n Hnd; [by destruct n as [[]|]|].
  cbn [fmap list_fmap] in *. apply NoDup_cons in Hnd as [Hni Hnd].
  assert (∀ target, (∀ x, x ∈ target → x ∈ rows) → r.1 ∉ target.*1) as Hout.
  { intros target Hsub (x & E & Hx)%list_elem_of_fmap. apply Hni. rewrite E.
    by apply list_elem_of_fmap_2, Hsub. }
  unfold hits. cbn [List.filter remove_first]. fold (hits e rows).
  destruct (decide (r.2.1 = e)) as [He|He]; [rewrite bool_decide_true by done|rewrite bool_decide_false by done].
  - destruct n as [[|n]|]; cbn [take].
    + by rewrite without_nil.
    + rewrite without_drop by (by left). rewrite without_cons_other by done. apply (IH (Some n) Hnd).
    + rewrite without_drop by (by left). rewrite without_cons_other by done. apply (IH None Hnd).
  - rewrite without_keep.
    + cbn. f_equal. apply (IH n Hnd).
    + destruct n; apply Hout; intros x Hx; [apply elem_of_take in Hx as (? & Hx & _);
        apply list_elem_of_lookup_2 in Hx|]; by eapply hits_subset.
Qed.

Lemma runs_lSet now gonow key index element t :
  let enc := encodeKey key in
  let l := list_of enc t in
  let n := Z.of_nat (length l) in
  (n < 2 ^ 63)%Z → int64 index →
  let i := from_end n index in
  if (n =? 0)%Z then runs now gonow (lSet key index element) t t (Fail (Errorf "ERR no such key"))
  else if ((i <? 0) || (n <=? i))%Z
  then runs now gonow (lSet key index element) t t (Fail (Errorf "ERR index out of range"))
  else ∃ t', runs now gonow (lSet key index element) t t' (Ok tt) ∧ frame [enc] t t' ∧
             list_of enc t' = <[Z.to_nat i := element]> l.
Proof.
  intros enc l n Hn Hi i. unfold int64 in Hi.
  assert (n = Z.of_nat (length (list_rows enc t))) as En by (unfold n, l; by rewrite length_list_of).
  assert ((if (index <? 0)%Z then wrap64 (n + index) else index) = i) as Ei.
  { unfold i, from_end. destruct (Z.ltb_spec index 0); [|done]. apply wrap64_id. unfold int64. lia. }
  destruct (Z.eqb_spec n 0) as [E0|Hne].
  { unfold lSet. step. fold enc. rewrite <-En, E0. apply runs_throw. }
  destruct (_ || _) eqn:Eb.
  { unfold lSet. step. fold enc. rewrite <-En. rewrite (proj2 (Z.eqb_neq _ _)) by done.
    rewrite Ei, Eb. finish. }
  apply orb_false_iff in Eb as [Eb1 Eb2]. zify_bool.
  destruct (lookup_lt_is_Some_2 (list_rows enc t) (Z.to_nat i)) as [[idx [v x]] Hrow]; [lia|].
  set (t' := upd_lists (alter (λ r : string * expiry, (element, r.2)) (enc, idx)) t).
  assert (kv_lists t !! (enc, idx) = Some (v, x)) as Hlk.
  { apply (elem_of_list_rows enc t (idx, (v, x))). by eapply list_elem_of_lookup_2. }
  assert (list_rows enc t' = <[Z.to_nat i := (idx, (element, x))]> (list_rows enc t)) as Hrows.
  { apply list_rows_eq.
    - eapply sorted_fst; [|apply list_rows_sorted]. rewrite list_fmap_insert. cbn.
      symmetry. apply list_insert_id. by rewrite list_lookup_fmap, Hrow.
    - intros [j r]. cbn. destruct (decide (j = idx)) as [->|Hj].
      + rewrite lookup_alter_eq, Hlk. cbn. split.
        * intros (k & Hk)%list_elem_of_lookup. destruct (decide (k = Z.to_nat i)) as [->|Hk'].
          -- rewrite list_lookup_insert_eq in Hk by (by apply lookup_lt_Some in Hrow). by injection Hk as <-.
          -- rewrite list_lookup_insert_ne in Hk by done. exfalso. apply Hk'.
             pose proof (sorted_lt_NoDup _ (list_rows_sorted enc t)) as Hnd.
             eapply (NoDup_lookup _ k (Z.to_nat i) idx Hnd); rewrite list_lookup_fmap; [by rewrite Hk|by rewrite Hrow].
        * intros [= <-]. apply list_elem_of_lookup. exists (Z.to_nat i).
          apply list_lookup_insert_eq. by apply lookup_lt_Some in Hrow.
      + rewrite lookup_alter_ne by congruence. rewrite <-(elem_of_list_rows enc t (j, r)).
        rewrite !list_elem_of_lookup. split; intros [k Hk]; exists k.
        * destruct (decide (k = Z.to_nat i)) as [->|Hk'].
          -- rewrite list_lookup_insert_eq in Hk by (by apply lookup_lt_Some in Hrow). by injection Hk as <- <-.
          -- by rewrite list_lookup_insert_ne in Hk.
        * rewrite list_lookup_insert_ne; [done|]. intros <-. rewrite Hk in Hrow. by injection Hrow as -> _ . }
  exists t'. split; [|split].
  - unfold lSet. step. fold enc. rewrite <-En. rewrite (proj2 (Z.eqb_neq _ _)) by done.
    rewrite Ei, (proj2 (orb_false_iff _ _)) by (split; [by apply Z.ltb_ge|by apply Z.leb_gt]).
    step. fold enc. rewrite Hrow. cbn. apply runs_exec.
  - apply frame_upd_lists. intros k b Hk. apply lookup_alter_ne. congruence.
  - unfold list_of. rewrite Hrows, list_fmap_insert. done.
Qed.

Lemma without_count (target rows : list lrow) :
  NoDup rows.*1 → NoDup target.*1 → (∀ r, r ∈ target → r ∈ rows) →
  length rows = length (without target rows) + length target.
Proof.
  intros Hr Ht Hsub.
  assert (rows ≡ₚ without target rows ++ target) as Hp.
  { apply NoDup_Permutation.
    - by eapply NoDup_fmap_1.
    - apply NoDup_app. split; [|split].
      + apply NoDup_ListNoDup, List.NoDup_filter, NoDup_ListNoDup. by eapply NoDup_fmap_1.
      + intros r Hw Hin. unfold without in Hw. rewrite list_elem_of_In in Hw.
        apply filter_In in Hw as [_ Hw]. rewrite negb_true_iff, bool_decide_eq_false in Hw.
        by apply Hw, list_elem_of_fmap_2.
      + by eapply NoDup_fmap_1.
    - intros r. rewrite elem_of_app. split; [|intros [?|?]; [by eapply without_subset|by apply Hsub]].
      intros Hin. destruct (decide (r.1 ∈ target.*1)) as [Hd|Hd].
      + right. apply list_elem_of_fmap in Hd as (r' & E & Hr').
        assert (r = r') as ->; [|done].
        apply list_elem_of_lookup in Hin as [a Ha]. pose proof (Hsub _ Hr') as Hin'.
        apply list_elem_of_lookup in Hin' as [b Hb].
        assert (a = b) as -> by (eapply (NoDup_lookup _ a b r.1 Hr); rewrite list_lookup_fmap;
          [by rewrite Ha|rewrite Hb; cbn; by rewrite E]). congruence.
      + left. unfold without. rewrite list_elem_of_In, filter_In, <-list_elem_of_In.
        split; [done|]. by rewrite bool_decide_false. }
  apply Permutation_length in Hp. rewrite length_app in Hp. exact Hp.
Qed.

Lemma without_reverse target rows : without target (reverse rows) = reverse (without target rows).
Proof. unfold without, reverse. rewrite <-!rev_alt. apply List.filter_rev. Qed.

Lemma hits_reverse e rows : hits e (reverse rows) = reverse (hits e rows).
Proof. unfold hits, reverse. rewrite <-!rev_alt. apply List.filter_rev. Qed.

Lemma hits_NoDup e rows : StronglySorted idx_lt rows → NoDup (hits e rows).*1.
Proof. intros H. by apply sorted_lt_NoDup, sorted_filter. Qed.

Lemma NoDup_fst_take n (l : list lrow) : NoDup l.*1 → NoDup (take n l).*1.
Proof. intros H. rewrite <-(take_drop n l), fmap_app, NoDup_app in H. tauto. Qed.

(** The rows LREM deletes. *)
Definition lrem_target (count : Z) (e : string) (rows : list lrow) : list lrow :=
  if (count =? 0)%Z then hits e rows
  else take (Z.to_nat (Z.abs count)) (ordered (0 <? count)%Z (hits e rows)).

Lemma lrem_target_ok count e rows :
  StronglySorted idx_lt rows →
  NoDup (lrem_target count e rows).*1 ∧ (∀ r, r ∈ lrem_target count e rows → r ∈ rows) ∧
  (λ r : lrow, r.2.1) <$> without (lrem_target count e rows) rows =
    (let l := (λ r : lrow, r.2.1) <$> rows in
     if (count =? 0)%Z then remove_first None e l
     else if (0 <? count)%Z then remove_first (Some (Z.to_nat count)) e l
     else reverse (remove_first (Some (Z.to_nat (- count))) e (reverse l))).
Proof.
  intros Hs. pose proof (sorted_lt_NoDup _ Hs) as Hnd. pose proof (hits_NoDup e rows Hs) as Hh.
  unfold lrem_target. destruct (Z.eqb_spec count 0) as [->|Hc].
  { split; [done|]. split; [apply hits_subset|]. apply (remove_hits None e rows Hnd). }
  unfold ordered. destruct (Z.ltb_spec 0 count).
  - split; [by apply NoDup_fst_take|]. split.
    + intros r (i & Hr & _)%elem_of_take. by eapply hits_subset, list_elem_of_lookup_2.
    + rewrite Z.abs_eq by lia. apply (remove_hits (Some _) e rows Hnd).
  - split; [|split].
    + apply NoDup_fst_take. by rewrite fmap_reverse, reverse_Permutation.
    + intros r (i & Hr & _)%elem_of_take. apply list_elem_of_lookup_2 in Hr.
      rewrite elem_of_reverse in Hr. by eapply hits_subset.
    + rewrite Z.abs_neq by lia. rewrite <-hits_reverse.
      rewrite <-(reverse_involutive rows) at 2. rewrite without_reverse, fmap_reverse. f_equal.
      rewrite <-fmap_reverse. apply (remove_hits (Some _) e (reverse rows)).
      by rewrite fmap_reverse, reverse_Permutation.
Qed.

Lemma runs_lRem now gonow key count element t :
  let enc := encodeKey key in
  (- 2 ^ 63 < count < 2 ^ 63)%Z →
  let target := lrem_target count element (list_rows enc t) in
  runs now gonow (lRem key count element) t (upd_lists (delete_rows enc target.*1) t)
    (Ok (Z.of_nat (length target))).
Proof.
  intros enc Hc target. unfold lRem, target, lrem_target. destruct (Z.eqb_spec count 0) as [->|Hne].
  { by apply runs_stmt. }
  assert ((if (count <? 0)%Z then wrap64 (- count) else count) = Z.abs count) as ->.
  { destruct (Z.ltb_spec count 0); [rewrite wrap64_id by (unfold int64; lia)|]; lia. }
  apply runs_stmt. rewrite (proj2 (Z.ltb_ge _ _)) by lia. done.
Qed.

(** LSET and LREM on the abstract list: LSET replaces exactly one element
    (a negative index counts from the end), or answers the error for a missing
    key or an index outside the list and changes nothing. LREM removes the
    first occurrences from the head when the count is positive, from the tail
    when it is negative, all when it is zero, and answers how many; the order
    of the others stays. *)
Theorem lSet_lRem_correct now gonow key index element count t :
  let enc := encodeKey key in
  let l := list_of enc t in
  let n := Z.of_nat (length l) in
  (n < 2 ^ 63)%Z → int64 index → (- 2 ^ 63 < count < 2 ^ 63)%Z →
  let i := from_end n index in
  (if (n =? 0)%Z then run now gonow (lSet key index element) t = (t, Fail (Errorf "ERR no such key"))
   else if ((i <? 0) || (n <=? i))%Z
   then run now gonow (lSet key index element) t = (t, Fail (Errorf "ERR index out of range"))
   else ∃ t', run now gonow (lSet key index element) t = (t', Ok tt) ∧ frame [enc] t t' ∧
              list_of enc t' = <[Z.to_nat i := element]> l) ∧
  (∃ t', run now gonow (lRem key count element) t
         = (t', Ok (Z.of_nat (length l) - Z.of_nat (length (list_of enc t')))%Z) ∧ frame [enc] t t' ∧
         list_of enc t' =
           if (count =? 0)%Z then remove_first None element l
           else if (0 <? count)%Z then remove_first (Some (Z.to_nat count)) element l
           else reverse (remove_first (Some (Z.to_nat (- count))) element (reverse l))).
Proof.
  intros enc l n Hn Hi Hc i. split.
  - pose proof (runs_lSet now gonow key index element t Hn Hi) as H.
    cbv zeta in H. fold enc in H. fold l in H. fold n in H. fold i in H.
    destruct (n =? 0)%Z; [by apply runs_run|].
    destruct ((i <? 0) || (n <=? i))%Z; [by apply runs_run|].
    destruct H as (t' & Hr & ? & ?). exists t'. split; [by apply runs_run|done].
  - set (target := lrem_target count element (list_rows enc t)).
    destruct (lrem_target_ok count element (list_rows enc t) (list_rows_sorted enc t)) as (Hnd & Hsub & Hval).
    fold target in Hnd, Hsub, Hval.
    pose proof (without_count target (list_rows enc t)
      (sorted_lt_NoDup _ (list_rows_sorted enc t)) Hnd Hsub) as Hcount.
    exists (upd_lists (delete_rows enc target.*1) t).
    assert (list_rows enc (upd_lists (delete_rows enc target.*1) t) = without target (list_rows enc t)) as Hr
      by apply list_rows_delete_filter.
    split; [|split; [apply frame_delete_rows|]].
    + rewrite (runs_run _ _ _ _ _ _ (runs_lRem now gonow key count element t Hc)). fold enc target.
      do 2 f_equal. unfold l. rewrite !length_list_of, Hr. lia.
    + unfold list_of. rewrite Hr. exact Hval.
Qed.

Lemma lSet_lRem_correct_witness :
  list_of "l" db_list = ["a"; "b"; "c"] ∧
  ∃ t', run 0 0 (lRem "l" (-1) "b") db_list = (t', Ok 1%Z) ∧ list_of "l" t' = ["a"; "c"].
Proof.
  split; [vm_compute; reflexivity|].
  destruct (lSet_lRem_correct 0 0 "l" 0 "b" (-1) db_list) as (_ & t' & E & _ & Hl);
    [vm_compute; reflexivity|unfold int64; lia|lia|].
  exists t'. assert (list_of "l" t' = ["a"; "c"]) as Hl' by (etrans; [exact Hl|vm_compute; reflexivity]).
  split; [|exact Hl']. etrans; [exact E|]. change (encodeKey "l") with "l". rewrite Hl'. reflexivity.
Defined.

(** LINSERT BEFORE fails whenever the pivot is followed by the element at
    the next index and the rows are visited in index order: moving the pivot
    up collides with its neighbour, since the primary key is checked row by
    row. The whole command is then an error. *)
Theorem lInsert_collides now gonow key pivot element v v' x x' p t :
  let enc := encodeKey key in
  List.find (λ r : lrow, bool_decide (r.2.1 = pivot)) (list_rows enc t) = Some (p, (v, x)) →
  kv_lists t !! (enc, (p + 1)%Z) = Some (v', x') →
  run now gonow (lInsert id key pivot element true) t = (t, Fail (unique_violation "kv_lists")).
Proof.
  intros enc Hp Hn. apply runs_run. unfold lInsert. step. fold enc. rewrite Hp. step.
  eapply runs_bind_fail. apply runs_stmt_fail. fold enc.
  apply List.find_some in Hp as [Hin _]. rewrite <-list_elem_of_In in Hin.
  assert (∃ rest, List.filter (λ i, (p <=? i)%Z) (list_rows enc t).*1 = p :: rest) as [rest Erest].
  { pose proof (list_rows_sorted enc t) as Hs. clear Hn. induction Hs as [|r rows Hs IH Ha]; cbn.
    - by apply not_elem_of_nil in Hin.
    - apply elem_of_cons in Hin as [<-|Hin].
      + cbn. rewrite Z.leb_refl. eauto.
      + destruct (IH Hin) as [rest Er]. rewrite Forall_forall in Ha. specialize (Ha _ Hin).
        unfold idx_lt in Ha. cbn in Ha. rewrite (proj2 (Z.leb_gt _ _)) by lia. eauto. }
  unfold id. rewrite Erest. cbn. apply (elem_of_list_rows enc t (p, (v, x))) in Hin. cbn in Hin.
  by rewrite Hin, Hn.
Qed.

Lemma lInsert_collides_witness :
  let t := upd_lists <[("l", 1%Z) := ("d", None)]> db_list in
  run 0 0 (lInsert id "l" "b" "x" true) t = (t, Fail (unique_violation "kv_lists")).
Proof.
  intros t. apply (lInsert_collides 0 0 "l" "b" "x" "b" "d" None None 0 t); vm_compute; reflexivity.
Defined.

End ListOps.
