(* ===== verification/StoreSets.v ===== *)
(** * Set commands of the storage layer: internal/storage/querier.go

    SADD, SREM, SMEMBERS, SISMEMBER, SMISMEMBER, SCARD, SINTER, SUNION, SDIFF,
    their STORE variants and SINTERCARD. The abstract set of a key is the set
    of its live members ([set_of]); the theorems say that the commands are the
    operations of set algebra on it.

    Where the code ranges over a Go map the order of its elements is
    unspecified: it is the argument [range] of the definitions, any function
    that lists a set. *)
From stdpp Require Import gmap strings list sorting.
From Stdlib Require Import ZArith Lia Ascii.
From S2P Require Import Prelude GoStd KeyCodec Db StoreMeta StoreStrings StoreKeys StoreHash.
Import Db KeyCodec Meta StringOps KeyOps HashOps.

Module SetOps.

(** [SELECT member FROM kv_sets WHERE key = $1 AND (live)] *)
Definition live_members (key : string) (now : Z) (t : tables) : list string :=
  omap (λ r : string * expiry, if live now r.2 then Some r.1 else None) (rows_of key (kv_sets t)).

(** [INSERT ... SELECT unnest ON CONFLICT DO NOTHING RETURNING 1], counted. *)
Fixpoint insert_members (key : string) (members : list string) (m : gmap (string * string) expiry)
    (n : Z) : gmap (string * string) expiry * Z :=
  match members with
  | [] => (m, n)
  | x :: members =>
      match m !! (key, x) with
      | Some _ => insert_members key members m n
      | None => insert_members key members (<[(key, x) := None]> m) (n + 1)
      end
  end.

Definition sAdd (key : string) (members : list string) : M Z :=
  let key := encodeKey key in
  match members with
  | [] => mret 0%Z
  | _ =>
      requireType TypeSet key;;
      setMeta key TypeSet None;;
      stmt (λ _ t, let '(m, added) := insert_members key members (kv_sets t) 0 in
                   Ok (upd_sets (λ _, m) t, added))
  end.

Definition sRem (key : string) (members : list string) : M Z :=
  let key := encodeKey key in
  let hit := λ p : (string * string) * expiry, p.1.1 = key ∧ p.1.2 ∈ members in
  stmt (λ _ t, Ok (upd_sets (filter (λ p, ¬ hit p)) t, Z.of_nat (size (filter hit (kv_sets t))))).

Definition sMembers (key : string) : M (list string) :=
  let key := encodeKey key in
  typeRow ← queueTypeCheck key;
  rows ← attempt (query (live_members key));
  readTypeCheck typeRow TypeSet;;
  unwrap rows.

Definition sIsMember (key member : string) : M bool :=
  let key := encodeKey key in
  count ← query (λ now t, match kv_sets t !! (key, member) with
                          | Some x => if live now x then 1%Z else 0%Z
                          | None => 0%Z
                          end);
  mret (0 <? count)%Z.

Definition sCard (key : string) : M Z :=
  let key := encodeKey key in
  typeRow ← queueTypeCheck key;
  count ← attempt (query (λ now t, Z.of_nat (length (live_members key now t))));
  readTypeCheck typeRow TypeSet;;
  unwrap count.

Definition sMIsMember (key : string) (members : list string) : M (list bool) :=
  let key := encodeKey key in
  rows ← query (live_members key);
  let existing : gset string := foldl (λ s m, {[m]} ∪ s) ∅ rows in
  mret ((λ m, bool_decide (m ∈ existing)) <$> members).

Section Algebra.
Context (range : gset string → list string).

(** A [map[string]bool] with the members of a list. *)
Definition to_set (l : list string) : gset string := foldl (λ s m, {[m]} ∪ s) ∅ l.

Fixpoint sInter_loop (keys : list string) (result : gset string) : M (list string) :=
  match keys with
  | [] => mret (range result)
  | key :: keys =>
      members ← sMembers key;
      let nextResult : gset string :=
        foldl (λ s m, if bool_decide (m ∈ result) then {[m]} ∪ s else s) ∅ members in
      if bool_decide (size nextResult = 0) then mret [] else sInter_loop keys nextResult
  end.

Definition sInter (keys : list string) : M (list string) :=
  match encodeKeys keys with
  | [] => mret []
  | key :: keys =>
      first ← sMembers key;
      if bool_decide (length first = 0) then mret [] else sInter_loop keys (to_set first)
  end.

Fixpoint sUnion_loop (keys : list string) (result : gset string) : M (list string) :=
  match keys with
  | [] => mret (range result)
  | key :: keys =>
      members ← sMembers key;
      sUnion_loop keys (foldl (λ s m, {[m]} ∪ s) result members)
  end.

Definition sUnion (keys : list string) : M (list string) :=
  match encodeKeys keys with
  | [] => mret []
  | keys => sUnion_loop keys ∅
  end.

Fixpoint sDiff_loop (keys : list string) (result : gset string) : M (list string) :=
  match keys with
  | [] => mret (range result)
  | key :: keys =>
      members ← sMembers key;
      sDiff_loop keys (foldl (λ s m, s ∖ {[m]}) result members)
  end.

Definition sDiff (keys : list string) : M (list string) :=
  match encodeKeys keys with
  | [] => mret []
  | key :: keys =>
      first ← sMembers key;
      if bool_decide (length first = 0) then mret [] else sDiff_loop keys (to_set first)
  end.

(** The end of the three STORE commands: clear the destination and add. *)
Definition storeMembers (destination : string) (members : list string) : M Z :=
  deleteKeyFromAllTables destination;;
  if bool_decide (length members = 0) then mret 0%Z else sAdd destination members.

Definition sInterStore (destination : string) (keys : list string) : M Z :=
  let destination := encodeKey destination in
  members ← sInter (encodeKeys keys);
  storeMembers destination members.

Definition sUnionStore (destination : string) (keys : list string) : M Z :=
  let destination := encodeKey destination in
  members ← sUnion (encodeKeys keys);
  storeMembers destination members.

Definition sDiffStore (destination : string) (keys : list string) : M Z :=
  let destination := encodeKey destination in
  members ← sDiff (encodeKeys keys);
  storeMembers destination members.

Definition sInterCard (keys : list string) (limit : Z) : M Z :=
  match keys with
  | [] => mret 0%Z
  | _ =>
      members ← sInter keys;
      let count := Z.of_nat (length members) in
      if (0 <? limit)%Z && (limit <? count)%Z then mret limit else mret count
  end.

End Algebra.

(** ** The abstract set *)

Definition set_of (key : string) (now : Z) (t : tables) : gset string :=
  list_to_set (live_members key now t).

Lemma elem_of_live_members key now t m :
  m ∈ live_members key now t ↔ ∃ x, kv_sets t !! (key, m) = Some x ∧ live now x = true.
Proof.
  unfold live_members. rewrite list_elem_of_omap. split.
  - intros ([m' x] & Hin & E). cbn in E. destruct (live now x) eqn:Hl; [|done].
    injection E as <-. exists x. split; [|done]. by apply elem_of_rows_of in Hin.
  - intros (x & Hm & Hl). exists (m, x). split; [by apply elem_of_rows_of|]. cbn. by rewrite Hl.
Qed.

Lemma elem_of_set_of key now t m :
  m ∈ set_of key now t ↔ ∃ x, kv_sets t !! (key, m) = Some x ∧ live now x = true.
Proof. unfold set_of. by rewrite elem_of_list_to_set, elem_of_live_members. Qed.

Lemma live_members_NoDup key now t : NoDup (live_members key now t).
Proof.
  unfold live_members. pose proof (rows_of_NoDup key (kv_sets t)) as H.
  induction (rows_of key (kv_sets t)) as [|[m x] rows IH]; cbn; [constructor|].
  cbn in H. apply NoDup_cons in H as [Hm H]. destruct (live now x); [|by apply IH].
  constructor; [|by apply IH]. rewrite list_elem_of_omap. intros ([m' x'] & Hin & E).
  cbn in E. destruct (live now x'); [|done]. injection E as ->. by apply Hm, (list_elem_of_fmap_2 fst _ _ Hin).
Qed.

(** The key is missing or a set, as the batched type check sees it. *)
Definition readable (key : string) (now : Z) (t : tables) : bool :=
  match meta_type key now t with Some kt => bool_decide (kt = TypeSet) | None => true end.

Lemma elem_of_foldl_add (l : list string) (s : gset string) m :
  m ∈ foldl (λ s m, {[m]} ∪ s) s l ↔ m ∈ l ∨ m ∈ s.
Proof. revert s. induction l as [|x l IH]; intros s; cbn; [set_solver|]. rewrite IH. set_solver. Qed.

Lemma elem_of_foldl_keep (l : list string) (r s : gset string) m :
  m ∈ foldl (λ s m, if bool_decide (m ∈ r) then {[m]} ∪ s else s) s l ↔ (m ∈ l ∧ m ∈ r) ∨ m ∈ s.
Proof.
  revert s. induction l as [|x l IH]; intros s; cbn; [set_solver|]. rewrite IH.
  destruct (decide (x ∈ r)); [rewrite bool_decide_true by done|rewrite bool_decide_false by done]; set_solver.
Qed.

Lemma elem_of_foldl_remove (l : list string) (s : gset string) m :
  m ∈ foldl (λ s m, s ∖ {[m]}) s l ↔ m ∈ s ∧ m ∉ l.
Proof. revert s. induction l as [|x l IH]; intros s; cbn; [set_solver|]. rewrite IH. set_solver. Qed.

Lemma elem_of_to_set l m : m ∈ to_set l ↔ m ∈ l.
Proof. unfold to_set. rewrite elem_of_foldl_add. set_solver. Qed.

Section Runs.
Context (now gonow : Z) (t : tables).
Local Abbreviation runs := (runs now gonow).

Lemma runs_sMembers key :
  runs (sMembers key) t t
    (if readable (encodeKey key) now t then Ok (live_members (encodeKey key) now t)
     else Fail errWrongType).
Proof.
  unfold sMembers, queueTypeCheck. step. step.
  pose proof (runs_readTypeCheck now gonow (meta_type (encodeKey key) now t) TypeSet t) as Hr.
  unfold readable. destruct (meta_type (encodeKey key) now t) as [kt|]; [destruct (bool_decide (kt = TypeSet))|].
  - eapply runs_bind; [exact Hr|]. finish.
  - eapply runs_bind_fail. exact Hr.
  - eapply runs_bind; [exact Hr|]. finish.
Qed.

Lemma runs_sMembers_ok key :
  readable (encodeKey key) now t = true →
  runs (sMembers key) t t (Ok (live_members (encodeKey key) now t)).
Proof. intros H. pose proof (runs_sMembers key) as Hr. by rewrite H in Hr. Qed.

Lemma runs_sMembers_fail key :
  readable (encodeKey key) now t = false → runs (sMembers key) t t (Fail errWrongType).
Proof. intros H. pose proof (runs_sMembers key) as Hr. by rewrite H in Hr. Qed.

Lemma runs_sCard key :
  readable (encodeKey key) now t = true →
  runs (sCard key) t t (Ok (Z.of_nat (length (live_members (encodeKey key) now t)))).
Proof.
  intros H. unfold sCard, queueTypeCheck. step. step.
  pose proof (runs_readTypeCheck now gonow (meta_type (encodeKey key) now t) TypeSet t) as Hr.
  unfold readable in H. destruct (meta_type (encodeKey key) now t) as [kt|]; [rewrite H in Hr|];
    (eapply runs_bind; [exact Hr|]; finish).
Qed.

(** [l] lists the set described by [P], each member once. *)
Definition lists (l : list string) (P : string → Prop) : Prop := NoDup l ∧ ∀ m, m ∈ l ↔ P m.

Lemma lists_iff (P Q : string → Prop) (c : M (list string)) :
  (∀ m, P m ↔ Q m) → (∃ l, runs c t t (Ok l) ∧ lists l P) → ∃ l, runs c t t (Ok l) ∧ lists l Q.
Proof. intros E (l & Hr & Hnd & Hl). exists l. split; [done|]. split; [done|]. intros m. by rewrite Hl. Qed.

Context (range : gset string → list string) (range_elements : ∀ X, range X ≡ₚ elements X).

Lemma range_lists X : lists (range X) (λ m, m ∈ X).
Proof.
  split; [rewrite range_elements; apply NoDup_elements|].
  intros m. by rewrite range_elements, elem_of_elements.
Qed.

Lemma runs_sInter_loop keys result :
  Forall (λ k, readable (encodeKey k) now t = true) keys →
  ∃ l, runs (sInter_loop range keys result) t t (Ok l) ∧
       lists l (λ m, m ∈ result ∧ ∀ k, k ∈ keys → m ∈ set_of (encodeKey k) now t).
Proof.
  intros Hk. revert result. induction Hk as [|k keys Hk Hks IH]; intros result; cbn [sInter_loop].
  { exists (range result). split; [apply runs_ret|]. destruct (range_lists result) as [? Hr].
    split; [done|]. intros m. rewrite Hr. set_solver. }
  set (next := foldl (λ s m, if bool_decide (m ∈ result) then {[m]} ∪ s else s) (∅ : gset string) (live_members (encodeKey k) now t)).
  assert (∀ m, m ∈ next ↔ m ∈ result ∧ m ∈ set_of (encodeKey k) now t) as Hn.
  { intros m. unfold next. rewrite elem_of_foldl_keep. unfold set_of. rewrite elem_of_list_to_set. set_solver. }
  destruct (IH next) as (l & Hl & Hnd & Hin). destruct (decide (size next = 0)) as [Hs|Hs].
  - exists []. split.
    + eapply runs_bind; [by apply runs_sMembers_ok|]. cbv zeta. fold next.
      rewrite bool_decide_true by done. apply runs_ret.
    + split; [constructor|]. intros m. apply size_empty_inv in Hs.
      split; [by intros []%not_elem_of_nil|]. intros [Hm Ha]. exfalso.
      apply (not_elem_of_empty (C:=gset string) m), Hs, Hn. split; [done|]. apply Ha. by left.
  - exists l. split.
    + eapply runs_bind; [by apply runs_sMembers_ok|]. cbv zeta. fold next.
      by rewrite bool_decide_false by done.
    + split; [done|]. intros m. rewrite Hin, Hn. setoid_rewrite elem_of_cons. naive_solver.
Qed.

Lemma runs_sUnion_loop keys result :
  Forall (λ k, readable (encodeKey k) now t = true) keys →
  ∃ l, runs (sUnion_loop range keys result) t t (Ok l) ∧
       lists l (λ m, m ∈ result ∨ ∃ k, k ∈ keys ∧ m ∈ set_of (encodeKey k) now t).
Proof.
  intros Hk. revert result. induction Hk as [|k keys Hk Hks IH]; intros result; cbn [sUnion_loop].
  { exists (range result). split; [apply runs_ret|]. destruct (range_lists result) as [? Hr].
    split; [done|]. intros m. rewrite Hr. set_solver. }
  edestruct IH as (l & Hl & Hnd & Hin). exists l. split.
  - eapply runs_bind; [by apply runs_sMembers_ok|]. exact Hl.
  - split; [done|]. intros m. rewrite Hin, elem_of_foldl_add. setoid_rewrite elem_of_cons.
    unfold set_of. setoid_rewrite elem_of_list_to_set. naive_solver.
Qed.

Lemma runs_sUnion_loop_fail keys result :
  Exists (λ k, readable (encodeKey k) now t = false) keys →
  runs (sUnion_loop range keys result) t t (Fail errWrongType).
Proof.
  revert result. induction keys as [|k keys IH]; intros result He; [by inversion He|].
  cbn [sUnion_loop]. destruct (readable (encodeKey k) now t) eqn:Hk.
  - eapply runs_bind; [by apply runs_sMembers_ok|]. apply IH.
    inversion He; subst; [congruence|done].
  - eapply runs_bind_fail. by apply runs_sMembers_fail.
Qed.

Lemma runs_sDiff_loop keys result :
  Forall (λ k, readable (encodeKey k) now t = true) keys →
  ∃ l, runs (sDiff_loop range keys result) t t (Ok l) ∧
       lists l (λ m, m ∈ result ∧ ∀ k, k ∈ keys → m ∉ set_of (encodeKey k) now t).
Proof.
  intros Hk. revert result. induction Hk as [|k keys Hk Hks IH]; intros result; cbn [sDiff_loop].
  { exists (range result). split; [apply runs_ret|]. destruct (range_lists result) as [? Hr].
    split; [done|]. intros m. rewrite Hr. set_solver. }
  edestruct IH as (l & Hl & Hnd & Hin). exists l. split.
  - eapply runs_bind; [by apply runs_sMembers_ok|]. exact Hl.
  - split; [done|]. intros m. rewrite Hin, elem_of_foldl_remove. setoid_rewrite elem_of_cons.
    unfold set_of. setoid_rewrite elem_of_list_to_set. naive_solver.
Qed.

(** The sets named by the keys of a command. *)
Definition sets_ok (keys : list string) : Prop :=
  Forall (λ k, readable (encodeKey k) now t = true) keys.
Definition in_all (keys : list string) (m : string) : Prop :=
  ∀ k, k ∈ keys → m ∈ set_of (encodeKey k) now t.
Definition in_some (keys : list string) (m : string) : Prop :=
  ∃ k, k ∈ keys ∧ m ∈ set_of (encodeKey k) now t.
Definition in_first_only (keys : list string) (m : string) : Prop :=
  match keys with
  | [] => False
  | k :: keys => m ∈ set_of (encodeKey k) now t ∧ ¬ in_some keys m
  end.

Lemma sets_ok_encoded keys : sets_ok keys → sets_ok (encodeKeys keys).
Proof.
  unfold sets_ok. rewrite encodeKeys_map, Forall_fmap. intros H. eapply Forall_impl; [exact H|]. intros k. cbn.
  by rewrite encodeKey_idemp.
Qed.

Lemma in_all_encoded keys m : in_all (encodeKeys keys) m ↔ in_all keys m.
Proof.
  unfold in_all. rewrite encodeKeys_map. setoid_rewrite list_elem_of_fmap. split.
  - intros H k Hk. rewrite <-encodeKey_idemp. apply H. by exists k.
  - intros H k (k' & -> & Hk). rewrite encodeKey_idemp. by apply H.
Qed.

Lemma in_some_encoded keys m : in_some (encodeKeys keys) m ↔ in_some keys m.
Proof.
  unfold in_some. rewrite encodeKeys_map. setoid_rewrite list_elem_of_fmap. split.
  - intros (k & (k' & -> & Hk) & Hm). rewrite encodeKey_idemp in Hm. by exists k'.
  - intros (k & Hk & Hm). exists (encodeKey k). rewrite encodeKey_idemp. split; [by exists k|done].
Qed.

Lemma in_first_only_encoded keys m : in_first_only (encodeKeys keys) m ↔ in_first_only keys m.
Proof.
  destruct keys as [|k keys]; [done|]. pose proof (in_some_encoded keys m) as Hs.
  rewrite encodeKeys_map in *. cbn [fmap list_fmap in_first_only]. by rewrite encodeKey_idemp, Hs.
Qed.

(** The first set is empty: the two commands that look at it answer at once. *)
Lemma live_members_nil key :
  length (live_members key now t) = 0 ↔ ∀ m, m ∉ set_of key now t.
Proof.
  unfold set_of. setoid_rewrite elem_of_list_to_set. split.
  - intros ->%nil_length_inv m. apply not_elem_of_nil.
  - intros H. destruct (live_members key now t) as [|m l]; [done|]. exfalso. apply (H m). by left.
Qed.

Lemma runs_sInter keys :
  keys ≠ [] → sets_ok keys →
  ∃ l, runs (sInter range keys) t t (Ok l) ∧ lists l (in_all keys).
Proof.
  intros Hne Hok%sets_ok_encoded. eapply lists_iff; [apply in_all_encoded|]. unfold sInter.
  destruct (encodeKeys keys) as [|k ks] eqn:E; [by rewrite encodeKeys_map in E; destruct keys|].
  apply Forall_cons in Hok as [Hk Hks].
  destruct (decide (length (live_members (encodeKey k) now t) = 0)) as [Hz|Hz].
  - exists []. split.
    + eapply runs_bind; [by apply runs_sMembers_ok|]. cbv beta.
      rewrite bool_decide_true by done. apply runs_ret.
    + split; [constructor|]. intros m. split; [by intros []%not_elem_of_nil|].
      intros H. destruct (proj1 (live_members_nil _) Hz m). apply H. by left.
  - destruct (runs_sInter_loop ks (to_set (live_members (encodeKey k) now t)) Hks) as (l & Hl & Hnd & Hin).
    exists l. split.
    + eapply runs_bind; [by apply runs_sMembers_ok|]. cbv beta. by rewrite bool_decide_false by done.
    + split; [done|]. intros m. rewrite Hin, elem_of_to_set. unfold in_all. setoid_rewrite elem_of_cons.
      unfold set_of. setoid_rewrite elem_of_list_to_set. naive_solver.
Qed.

Lemma runs_sUnion keys :
  sets_ok keys → ∃ l, runs (sUnion range keys) t t (Ok l) ∧ lists l (in_some keys).
Proof.
  intros Hok%sets_ok_encoded. eapply lists_iff; [apply in_some_encoded|]. unfold sUnion.
  destruct (encodeKeys keys) as [|k ks] eqn:E.
  - exists []. split; [apply runs_ret|]. split; [constructor|].
    intros m. unfold in_some. set_solver.
  - destruct (runs_sUnion_loop (k :: ks) ∅ Hok) as (l & Hl & Hnd & Hin).
    exists l. split; [exact Hl|]. split; [done|]. intros m. rewrite Hin. unfold in_some. set_solver.
Qed.

Lemma runs_sDiff keys :
  keys ≠ [] → sets_ok keys →
  ∃ l, runs (sDiff range keys) t t (Ok l) ∧ lists l (in_first_only keys).
Proof.
  intros Hne Hok%sets_ok_encoded. eapply lists_iff; [apply in_first_only_encoded|]. unfold sDiff.
  destruct (encodeKeys keys) as [|k ks] eqn:E; [by rewrite encodeKeys_map in E; destruct keys|].
  apply Forall_cons in Hok as [Hk Hks].
  destruct (decide (length (live_members (encodeKey k) now t) = 0)) as [Hz|Hz].
  - exists []. split.
    + eapply runs_bind; [by apply runs_sMembers_ok|]. cbv beta.
      rewrite bool_decide_true by done. apply runs_ret.
    + split; [constructor|]. intros m. split; [by intros []%not_elem_of_nil|].
      intros [H _]. by destruct (proj1 (live_members_nil _) Hz m).
  - destruct (runs_sDiff_loop ks (to_set (live_members (encodeKey k) now t)) Hks) as (l & Hl & Hnd & Hin).
    exists l. split.
    + eapply runs_bind; [by apply runs_sMembers_ok|]. cbv beta. by rewrite bool_decide_false by done.
    + split; [done|]. intros m. rewrite Hin, elem_of_to_set. cbn [in_first_only]. unfold in_some, set_of.
      setoid_rewrite elem_of_list_to_set. naive_solver.
Qed.

End Runs.

(** *** Writing *)

(** The listed members that have no row. *)
Definition new_members (key : string) (members : list string) (m : gmap (string * string) expiry) :
    gset string :=
  filter (λ b, m !! (key, b) = None) (list_to_set members).

Lemma insert_members_spec key members m n :
  let '(m', n') := insert_members key members m n in
  (∀ k b, m' !! (k, b) = if decide (k = key ∧ b ∈ members ∧ m !! (k, b) = None) then Some None
                         else m !! (k, b)) ∧
  n' = (n + Z.of_nat (size (new_members key members m)))%Z.
Proof.
  revert m n. induction members as [|x members IH]; intros m n; cbn [insert_members].
  { split; [|change (new_members key [] m) with (filter (λ b, m !! (key, b) = None) (∅ : gset string));
      rewrite (filter_empty_L (C:=gset string)), size_empty by apply _; lia].
    intros. rewrite decide_False; [done|]. set_solver. }
  destruct (m !! (key, x)) as [r|] eqn:Hx.
  - specialize (IH m n). destruct (insert_members key members m n) as [m' n']. destruct IH as [IH1 ->].
    split.
    + intros k b. rewrite IH1. apply decide_ext. rewrite elem_of_cons. naive_solver.
    + do 3 f_equal. apply set_eq. intros b. unfold new_members. rewrite !elem_of_filter. set_solver.
  - specialize (IH (<[(key, x) := None]> m) (n + 1)%Z).
    destruct (insert_members key members (<[(key, x) := None]> m) (n + 1)%Z) as [m' n'].
    destruct IH as [IH1 ->]. split.
    + intros k b. rewrite IH1. destruct (decide ((k, b) = (key, x))) as [[= -> ->]|Hne].
      * rewrite lookup_insert_eq, decide_False by naive_solver.
        rewrite decide_True; [done|]. split_and!; [done|by left|done].
      * rewrite lookup_insert_ne by congruence. apply decide_ext. rewrite elem_of_cons. naive_solver.
    + assert (new_members key (x :: members) m =
              {[x]} ∪ new_members key members (<[(key, x) := None]> m)) as ->.
      { apply set_eq. intros b. unfold new_members. rewrite elem_of_union, !elem_of_filter, elem_of_singleton.
        destruct (decide (b = x)) as [->|Hb]; [set_solver|].
        rewrite lookup_insert_ne by congruence. set_solver. }
      rewrite size_union, size_singleton; [lia|]. apply disjoint_singleton_l. unfold new_members.
      rewrite elem_of_filter, lookup_insert_eq. naive_solver.
Qed.

(** The tables after SADD of members to a set. *)
Definition after_members (key : string) (members : list string) (t : tables) : tables :=
  upd_sets (λ m, (insert_members key members m 0).1) (upd_meta <[key := (TypeSet, None)]> t).

Lemma runs_sAdd now gonow key members t :
  let enc := encodeKey key in
  members ≠ [] → type_ok now TypeSet enc t = true →
  runs now gonow (sAdd key members) t (after_members enc members t)
    (Ok (Z.of_nat (size (new_members enc members (kv_sets t))))).
Proof.
  intros enc Hne Hty. unfold sAdd. destruct members as [|x members]; [done|].
  eapply runs_bind; [by apply runs_requireType_ok|]. step. apply runs_stmt. fold enc.
  unfold after_members. cbn [upd_meta kv_sets].
  pose proof (insert_members_spec enc (x :: members) (kv_sets t) 0) as H.
  destruct (insert_members enc (x :: members) (kv_sets t) 0) as [m n] eqn:E. destruct H as [_ ->].
  do 2 f_equal. unfold upd_sets. cbn [kv_meta kv_strings kv_hashes kv_lists kv_sets kv_zsets kv_hyperloglog upd_meta].
  by rewrite E.
Qed.

Lemma after_members_lookup key members t k b :
  kv_sets (after_members key members t) !! (k, b) =
    if decide (k = key ∧ b ∈ members ∧ kv_sets t !! (k, b) = None) then Some None
    else kv_sets t !! (k, b).
Proof.
  unfold after_members, upd_sets, upd_meta. cbn [kv_sets].
  pose proof (insert_members_spec key members (kv_sets t) 0) as H.
  destruct (insert_members key members (kv_sets t) 0) as [m n]. by apply H.
Qed.

Lemma after_members_frame key members t : frame [key] t (after_members key members t).
Proof.
  eapply frame_trans; [apply frame_insert_meta|]. apply frame_upd_sets. intros k b Hk.
  pose proof (after_members_lookup key members t k b) as H. unfold after_members in H.
  cbn [kv_sets upd_sets] in H. rewrite H. rewrite decide_False; [done|]. naive_solver.
Qed.

(** No expired member of the set waits for the sweeper. *)
Definition fresh_set (key : string) (now : Z) (t : tables) : Prop :=
  ∀ m x, kv_sets t !! (key, m) = Some x → live now x = true.

Lemma after_members_set_of key members now t :
  fresh_set key now t →
  set_of key now (after_members key members t) = set_of key now t ∪ list_to_set members.
Proof.
  intros Hf. apply set_eq. intros m.
  rewrite elem_of_union, !elem_of_set_of, after_members_lookup, elem_of_list_to_set. case_decide as Hd.
  - destruct Hd as (_ & Hm & Hn). split; [by right|]. intros _. by exists None.
  - split; [by left|]. intros [H|Hm]; [done|]. destruct (kv_sets t !! (key, m)) as [x|] eqn:E; [|naive_solver].
    exists x. split; [done|]. by eapply Hf.
Qed.

(** The rows of a key among the listed members. *)
Lemma count_set_rows (key : string) (members : list string) (m : gmap (string * string) expiry) :
  size (filter (λ p : (string * string) * expiry, p.1.1 = key ∧ p.1.2 ∈ members) m)
  = size (list_to_set members ∖ new_members key members m).
Proof.
  set (fm := filter _ m). rewrite <-length_map_to_list, <-(length_fmap fst).
  set (X := list_to_set members ∖ new_members key members m).
  change (size X) with (length (elements X)). rewrite <-(length_fmap (pair key) (elements X)).
  apply Permutation_length, NoDup_Permutation.
  - apply NoDup_fst_map_to_list.
  - apply NoDup_fmap; [by intros ?? [= ->]|]. apply NoDup_elements.
  - intros [k f]. rewrite !list_elem_of_fmap. setoid_rewrite elem_of_elements.
    unfold X, new_members. setoid_rewrite elem_of_difference. setoid_rewrite elem_of_filter.
    setoid_rewrite elem_of_list_to_set. split.
    + intros ([[k' f'] r] & [= <- <-] & Hin). apply elem_of_map_to_list in Hin.
      apply map_lookup_filter_Some in Hin as [Hm [Hk Hf]]. cbn in *. subst.
      exists f. split; [done|]. split; [done|]. rewrite Hm. naive_solver.
    + intros (f' & [= -> ->] & Hin & Hn). destruct (m !! (key, f')) as [r|] eqn:Hr; [|naive_solver].
      exists ((key, f'), r). split; [done|]. apply elem_of_map_to_list, map_lookup_filter_Some. done.
Qed.

(** SADD and SREM on every branch. SADD to a key of another type is
    WRONGTYPE and changes nothing; otherwise it answers how many of the listed
    members had no row, the key's set becomes the union with the listed
    members (when no expired member waits to be swept) and its meta row is a
    set without expiry. SREM answers how many rows it deleted and the set
    becomes the difference. Neither touches another key. *)
Theorem sAdd_sRem_correct now gonow key members t :
  members ≠ [] →
  let enc := encodeKey key in
  (if type_ok now TypeSet enc t then
     ∃ t', run now gonow (sAdd key members) t =
             (t', Ok (Z.of_nat (size (new_members enc members (kv_sets t))))) ∧
           frame [enc] t t' ∧ kv_meta t' !! enc = Some (TypeSet, None) ∧
           (fresh_set enc now t → set_of enc now t' = set_of enc now t ∪ list_to_set members)
   else run now gonow (sAdd key members) t = (t, Fail errWrongType)) ∧
  ∃ t', run now gonow (sRem key members) t =
          (t', Ok (Z.of_nat (size (list_to_set members ∖ new_members enc members (kv_sets t))))) ∧
        frame [enc] t t' ∧
        ∀ now', set_of enc now' t' = set_of enc now' t ∖ list_to_set members.
Proof.
  intros Hne enc. split.
  - destruct (type_ok now TypeSet enc t) eqn:Hty.
    + exists (after_members enc members t). split; [by apply runs_run, runs_sAdd|].
      split; [apply after_members_frame|]. split; [apply lookup_insert_eq|]. apply after_members_set_of.
    + apply runs_run. unfold sAdd. destruct members as [|x members]; [done|].
      eapply runs_bind_fail. by apply runs_requireType_fail.
  - eexists. split; [apply runs_run; unfold sRem; apply runs_stmt; fold enc|].
    { do 4 f_equal. apply count_set_rows. }
    split.
    + apply frame_upd_sets. intros k b Hk. rewrite map_lookup_filter.
      destruct (kv_sets t !! (k, b)) as [r|]; [|done]. cbn. rewrite option_guard_True; [done|].
      cbn. by intros [? _].
    + intros now'. apply set_eq. intros m. rewrite elem_of_difference, !elem_of_set_of, elem_of_list_to_set.
      cbn [kv_sets upd_sets]. setoid_rewrite map_lookup_filter_Some. cbn. naive_solver.
Qed.

(** Two sets, a set that holds an expiring member, and a string. *)
Definition db_sets : tables :=
  Tables {[ "s" := ("set", None); "u" := ("set", None); "x" := ("string", None) ]}
    {[ "x" := ("1", None) ]} ∅ ∅
    {[ ("s", "a") := None; ("s", "b") := None; ("u", "b") := None; ("u", "c") := Some 5%Z;
       ("u", "d") := Some 50%Z ]} ∅ ∅.

Lemma fresh_set_forallb key now t :
  map_Forall (λ (p : string * string) x, p.1 = key → live now x = true) (kv_sets t) →
  fresh_set key now t.
Proof. intros H m x Hm. exact (H (key, m) x Hm eq_refl). Qed.

Lemma sAdd_sRem_correct_witness :
  fresh_set "s" 10 db_sets ∧
  ∃ t', run 10 0 (sAdd "s" ["b"; "e"; "e"]) db_sets = (t', Ok 1%Z) ∧
        set_of "s" 10 t' = {[ "a"; "b"; "e" ]}.
Proof.
  assert (fresh_set "s" 10 db_sets) as Hf.
  { apply fresh_set_forallb. apply (bool_decide_unpack _). vm_compute. exact I. }
  split; [exact Hf|].
  destruct (sAdd_sRem_correct 10 0 "s" ["b"; "e"; "e"] db_sets) as [(t' & E & _ & _ & Hs) _]; [discriminate|].
  exists t'. split; [exact E|]. etrans; [exact (Hs Hf)|]. apply (bool_decide_unpack _). vm_compute. exact I.
Defined.

(** The read commands describe the abstract sets of their keys. SMEMBERS
    lists the live members, each once, SCARD counts them, SISMEMBER and
    SMISMEMBER test membership. When every key is a set or missing, SINTER,
    SUNION and SDIFF list, each member once, the members of all, of some, and
    of the first and no other set; SINTERCARD is the size of the intersection,
    capped by a positive limit. SUNION refuses a list of keys with one of
    another type. None changes anything. *)
Theorem set_queries_correct (range : gset string → list string) now gonow key members keys limit t :
  (∀ X, range X ≡ₚ elements X) → keys ≠ [] → sets_ok now t keys →
  let enc := encodeKey key in
  (if readable enc now t then
     ∃ l, run now gonow (sMembers key) t = (t, Ok l) ∧ lists l (λ m, m ∈ set_of enc now t) ∧
          run now gonow (sCard key) t = (t, Ok (Z.of_nat (size (set_of enc now t))))
   else run now gonow (sMembers key) t = (t, Fail errWrongType) ∧
        run now gonow (sUnion range (keys ++ [key])) t = (t, Fail errWrongType)) ∧
  (∀ m, run now gonow (sIsMember key m) t = (t, Ok (bool_decide (m ∈ set_of enc now t)))) ∧
  run now gonow (sMIsMember key members) t =
    (t, Ok ((λ m, bool_decide (m ∈ set_of enc now t)) <$> members)) ∧
  (∃ l, run now gonow (sInter range keys) t = (t, Ok l) ∧ lists l (in_all now t keys) ∧
        run now gonow (sInterCard range keys limit) t =
          (t, Ok (if (0 <? limit)%Z then Z.min limit (Z.of_nat (length l)) else Z.of_nat (length l)))) ∧
  (∃ l, run now gonow (sUnion range keys) t = (t, Ok l) ∧ lists l (in_some now t keys)) ∧
  (∃ l, run now gonow (sDiff range keys) t = (t, Ok l) ∧ lists l (in_first_only now t keys)).
Proof.
  intros Hr Hne Hok enc. split; [|split; [|split; [|split; [|split]]]].
  - destruct (readable enc now t) eqn:Hk.
    + exists (live_members enc now t). split; [by apply runs_run, runs_sMembers_ok|]. split.
      * split; [apply live_members_NoDup|]. intros m. unfold set_of. by rewrite elem_of_list_to_set.
      * apply runs_run. eapply runs_eq; [apply runs_sCard; exact Hk|done|].
        unfold set_of. rewrite size_list_to_set by apply live_members_NoDup. done.
    + split; [by apply runs_run, runs_sMembers_fail|]. apply runs_run. unfold sUnion.
      assert (encodeKeys (keys ++ [key]) = encodeKeys keys ++ [enc]) as E.
      { rewrite (encodeKeys_map keys), (encodeKeys_map (keys ++ [key])), fmap_app. done. }
      pose proof (runs_sUnion_loop_fail now gonow t range (encodeKeys (keys ++ [key])) ∅) as H.
      destruct (encodeKeys (keys ++ [key])) eqn:E'; [by destruct (encodeKeys keys)|]. apply H.
      rewrite E. apply Exists_app. right. constructor. unfold enc. by rewrite encodeKey_idemp.
  - intros m. apply runs_run. unfold sIsMember. step. fold enc. eapply runs_eq; [apply runs_ret|done|].
    f_equal. symmetry. destruct (kv_sets t !! (enc, m)) as [x|] eqn:E; [destruct (live now x) eqn:Hl|].
    + apply bool_decide_eq_true, elem_of_set_of. by exists x.
    + apply bool_decide_eq_false. rewrite elem_of_set_of. intros (x' & ? & ?). congruence.
    + apply bool_decide_eq_false. rewrite elem_of_set_of. intros (x' & ? & ?). congruence.
  - apply runs_run. unfold sMIsMember. step. eapply runs_eq; [apply runs_ret|done|].
    f_equal. apply list_fmap_ext. intros _ m _. apply bool_decide_ext. fold enc.
    rewrite elem_of_foldl_add. unfold set_of. rewrite elem_of_list_to_set. set_solver.
  - destruct (runs_sInter now gonow t range Hr keys Hne Hok) as (l & Hl & Hlists). exists l.
    split; [by apply runs_run|]. split; [done|]. apply runs_run. unfold sInterCard.
    destruct keys as [|k ks]; [done|]. eapply runs_bind; [exact Hl|]. cbv beta zeta.
    destruct (Z.ltb_spec 0 limit); cbn [andb]; [|apply runs_ret].
    destruct (Z.ltb_spec limit (Z.of_nat (length l))); (eapply runs_eq; [apply runs_ret|done|]; f_equal; lia).
  - destruct (runs_sUnion now gonow t range Hr keys Hok) as (l & Hl & ?). exists l.
    split; [by apply runs_run|done].
  - destruct (runs_sDiff now gonow t range Hr keys Hne Hok) as (l & Hl & ?). exists l.
    split; [by apply runs_run|done].
Qed.

Lemma set_queries_correct_witness :
  sets_ok 10 db_sets ["s"; "u"] ∧
  ∃ l, run 10 0 (sInter elements ["s"; "u"]) db_sets = (db_sets, Ok l) ∧
       lists l (in_all 10 db_sets ["s"; "u"]) ∧
       run 10 0 (sInterCard elements ["s"; "u"] 0) db_sets = (db_sets, Ok (Z.of_nat (length l))).
Proof.
  assert (sets_ok 10 db_sets ["s"; "u"]) as Hok by (repeat constructor).
  split; [exact Hok|].
  refine (proj1 (proj2 (proj2 (proj2 (set_queries_correct elements 10 0 "x" [] ["s"; "u"] 0 db_sets _ _ Hok)))));
    [reflexivity|discriminate].
Defined.

(** ** The STORE commands *)

Lemma cleared_type_ok now kt key t : type_ok now kt key (cleared key t) = true.
Proof. unfold type_ok, meta_type, cleared. cbn [kv_meta]. by rewrite lookup_delete_eq. Qed.

(** What a STORE command leaves: the destination holds exactly the members
    [P], as a set without expiry, or nothing at all when there are none. *)
Definition stored (dst : string) (P : string → Prop) (t t' : tables) : Prop :=
  frame [dst] t t' ∧ (∀ now m, m ∈ set_of dst now t' ↔ P m) ∧
  absent dst (upd_sets (drop_key dst) (upd_meta (delete dst) t')) ∧
  ((∃ m, P m) → kv_meta t' !! dst = Some (TypeSet, None)) ∧
  ((∀ m, ¬ P m) → absent dst t').

Lemma only_set_rows dst t members :
  absent dst t → absent dst (upd_sets (drop_key dst) (upd_meta (delete dst) (after_members dst members t))).
Proof.
  intros (_ & ? & ? & ? & _ & ? & ?). unfold absent, same_key.
  cbn [kv_meta kv_strings kv_hashes kv_lists kv_sets kv_zsets kv_hyperloglog upd_meta upd_sets after_members].
  rewrite lookup_delete_eq. split_and!; try done. intros m. rewrite drop_key_lookup. by case_decide.
Qed.

Lemma absent_members dst t now : absent dst t → set_of dst now t = ∅ ∧ fresh_set dst now t.
Proof.
  intros (_ & _ & _ & _ & Hs & _). split.
  - apply set_eq. intros m. rewrite elem_of_set_of. setoid_rewrite Hs. set_solver.
  - intros m x Hm. by rewrite Hs in Hm.
Qed.

Lemma absent_new_members dst l t : absent dst t → new_members dst l (kv_sets t) = list_to_set l.
Proof.
  intros (_ & _ & _ & _ & Hs & _). apply set_eq. intros m. unfold new_members. rewrite elem_of_filter, Hs.
  set_solver.
Qed.

Lemma runs_storeMembers now gonow dst l (P : string → Prop) t :
  encodeKey dst = dst → lists l P →
  ∃ t', runs now gonow (storeMembers dst l) t t' (Ok (Z.of_nat (length l))) ∧ stored dst P t t'.
Proof.
  intros He [Hnd Hl]. pose proof (cleared_absent dst t) as Ha.
  destruct (decide (length l = 0)) as [Hz|Hz].
  - apply nil_length_inv in Hz as ->.
    assert (∀ m, ¬ P m) as HP by (intros m Hm%Hl; by apply not_elem_of_nil in Hm).
    exists (cleared dst t). split; [unfold storeMembers; step; by apply runs_ret|].
    split; [apply cleared_frame|]. split; [|split; [|split; [intros [m Hm]; by destruct (HP m)|done]]].
    + intros now' m. rewrite (proj1 (absent_members _ _ now' Ha)). split; [set_solver|]. by intros ?%HP.
    + destruct Ha as (? & ? & ? & ? & Hs & ? & ?). unfold absent, same_key.
      cbn [kv_meta kv_strings kv_hashes kv_lists kv_sets kv_zsets kv_hyperloglog upd_meta upd_sets].
      rewrite lookup_delete_eq. split_and!; try done. intros m. rewrite drop_key_lookup. by case_decide.
  - assert (l ≠ []) as Hne by (by destruct l).
    exists (after_members dst l (cleared dst t)). split; [|split; [|split; [|split; [|split]]]].
    + unfold storeMembers. step. rewrite bool_decide_false by done.
      pose proof (runs_sAdd now gonow dst l (cleared dst t)) as Hr. cbv zeta in Hr. rewrite He in Hr.
      eapply runs_eq; [apply Hr; [done|apply cleared_type_ok]|done|].
      by rewrite absent_new_members, size_list_to_set by done.
    + eapply frame_trans; [apply cleared_frame|apply after_members_frame].
    + intros now' m. destruct (absent_members dst (cleared dst t) now' Ha) as [E Hf].
      rewrite after_members_set_of, E, elem_of_union, elem_of_list_to_set, Hl by done. set_solver.
    + by apply only_set_rows.
    + intros _. apply lookup_insert_eq.
    + intros HP. destruct l as [|m l]; [done|]. destruct (HP m). apply Hl. by left.
Qed.

(** SINTERSTORE, SUNIONSTORE and SDIFFSTORE: when the sources are sets or
    missing, the destination, whatever it held before and even when it is one
    of the sources, becomes exactly the result computed from the sources as
    they were, as a set without expiry, or is removed from every table when
    the result is empty; the answer is the size of the result, and no other
    key changes. *)
Theorem set_store_correct (range : gset string → list string) now gonow destination keys t :
  (∀ X, range X ≡ₚ elements X) → keys ≠ [] → sets_ok now t keys →
  let dst := encodeKey destination in
  (∃ l t', run now gonow (sInterStore range destination keys) t = (t', Ok (Z.of_nat (length l))) ∧
           lists l (in_all now t keys) ∧ stored dst (in_all now t keys) t t') ∧
  (∃ l t', run now gonow (sUnionStore range destination keys) t = (t', Ok (Z.of_nat (length l))) ∧
           lists l (in_some now t keys) ∧ stored dst (in_some now t keys) t t') ∧
  (∃ l t', run now gonow (sDiffStore range destination keys) t = (t', Ok (Z.of_nat (length l))) ∧
           lists l (in_first_only now t keys) ∧ stored dst (in_first_only now t keys) t t').
Proof.
  intros Hr Hne Hok dst. assert (encodeKey dst = dst) as Hd by apply encodeKey_idemp.
  assert (encodeKeys keys ≠ []) as Hne' by (rewrite encodeKeys_map; by destruct keys).
  pose proof (sets_ok_encoded now t keys Hok) as Hok'.
  split; [|split].
  - destruct (lists_iff now gonow t _ _ _ (in_all_encoded now t keys)
      (runs_sInter now gonow t range Hr _ Hne' Hok')) as (l & Hl & HP).
    destruct (runs_storeMembers now gonow dst l _ t Hd HP) as (t' & Ht' & Hs).
    exists l, t'. split; [|done]. apply runs_run. unfold sInterStore. eapply runs_bind; [exact Hl|exact Ht'].
  - destruct (lists_iff now gonow t _ _ _ (in_some_encoded now t keys)
      (runs_sUnion now gonow t range Hr _ Hok')) as (l & Hl & HP).
    destruct (runs_storeMembers now gonow dst l _ t Hd HP) as (t' & Ht' & Hs).
    exists l, t'. split; [|done]. apply runs_run. unfold sUnionStore. eapply runs_bind; [exact Hl|exact Ht'].
  - destruct (lists_iff now gonow t _ _ _ (in_first_only_encoded now t keys)
      (runs_sDiff now gonow t range Hr _ Hne' Hok')) as (l & Hl & HP).
    destruct (runs_storeMembers now gonow dst l _ t Hd HP) as (t' & Ht' & Hs).
    exists l, t'. split; [|done]. apply runs_run. unfold sDiffStore. eapply runs_bind; [exact Hl|exact Ht'].
Qed.

Lemma set_store_correct_witness :
  ∃ l t', run 10 0 (sDiffStore elements "s" ["s"; "u"]) db_sets = (t', Ok (Z.of_nat (length l))) ∧
          lists l (in_first_only 10 db_sets ["s"; "u"]) ∧
          stored "s" (in_first_only 10 db_sets ["s"; "u"]) db_sets t'.
Proof.
  refine (proj2 (proj2 (set_store_correct elements 10 0 "s" ["s"; "u"] db_sets _ _ _)));
    [reflexivity|discriminate|repeat constructor].
Defined.

End SetOps.
