(* ===== verification/StoreHll.v ===== *)
(** * HyperLogLog: internal/storage/hyperloglog.go and its commands in querier.go

    The sketch as the source keeps it, 16384 one-byte registers, with the hash
    that feeds it, and PFADD, PFCOUNT and PFMERGE on the table kv_hyperloglog.
    The specification of a sketch is the set of elements it has seen: adding
    in any order and merging give the registers of the union. *)
From stdpp Require Import gmap strings list sorting.
From Stdlib Require Import ZArith Lia Ascii.
From S2P Require Import Prelude GoStd KeyCodec Db StoreMeta StoreStrings StoreKeys StoreHash.
Import Db KeyCodec Meta StringOps KeyOps HashOps.

(** ** The sketch *)
Module Hll.
Local Open Scope Z_scope.

Definition hllPrecision : Z := 14.
Definition hllRegisters : Z := 2 ^ hllPrecision.

(** [registers]: bytes as numbers. *)
Abbreviation HyperLogLog := (list Z).
Definition NewHyperLogLog : HyperLogLog := replicate (Z.to_nat hllRegisters) 0.
Definition HyperLogLogFromBytes (data : bytes) : HyperLogLog :=
  if negb (blen data =? hllRegisters) then NewHyperLogLog else b2z <$> data.
Definition ToBytes (hll : HyperLogLog) : bytes := z2b <$> hll.

(** [uint64] arithmetic *)
Definition u64 (z : Z) : Z := z mod 2 ^ 64.

(** [hash/fnv], [New64a]: xor the byte, multiply by the prime. *)
Definition fnv64a (data : bytes) : Z :=
  foldl (λ h c, u64 (Z.lxor h (b2z c) * 1099511628211)) 14695981039346656037 data.

Definition murmur64 (data : bytes) : Z :=
  let k := fnv64a data in
  let k := Z.lxor k (Z.shiftr k 33) in
  let k := u64 (k * 0xff51afd7ed558ccd) in
  let k := Z.lxor k (Z.shiftr k 33) in
  let k := u64 (k * 0xc4ceb9fe1a85ec53) in
  Z.lxor k (Z.shiftr k 33).

(** [bits.LeadingZeros64] *)
Definition LeadingZeros64 (x : Z) : Z := if x =? 0 then 64 else 63 - Z.log2 x.
Definition uint8 (z : Z) : Z := z mod 256.

Definition register_index (hash : Z) : Z := Z.land hash (hllRegisters - 1).
(** [if rank > registers[index]]; the index is below 2^14 (see
    [register_index_range]), so that the access never panics. *)
Definition bump (index rank : Z) (hll : HyperLogLog) : HyperLogLog * bool :=
  match hll !! Z.to_nat index with
  | Some r => if r <? rank then (<[Z.to_nat index := rank]> hll, true) else (hll, false)
  | None => (hll, false)
  end.

Definition Add (element : string) (hll : HyperLogLog) : HyperLogLog * bool :=
  let hash := murmur64 (bytes_of element) in
  let index := register_index hash in
  let upperBits := Z.shiftr hash hllPrecision in
  let rank := if upperBits =? 0 then uint8 (64 - hllPrecision + 1)
              else uint8 (LeadingZeros64 upperBits - hllPrecision + 1) in
  let rank := if rank <? 1 then 1 else rank in
  bump index rank hll.

Definition getRegisterFromHash (hash : Z) : Z * Z :=
  let index := register_index hash in
  let upperBits := Z.shiftr hash hllPrecision in
  let rank := if upperBits =? 0 then uint8 (64 - hllPrecision + 1)
              else let lz := LeadingZeros64 upperBits in
                   if hllPrecision <? lz then uint8 (lz - hllPrecision + 1) else 1 in
  (index, if rank <? 1 then 1 else rank).
Definition AddHash (hash : Z) (hll : HyperLogLog) : HyperLogLog * bool :=
  let '(index, rank) := getRegisterFromHash hash in bump index rank hll.

(** [other] is read at every index of [hll]. *)
Definition Merge (other hll : HyperLogLog) : HyperLogLog :=
  imap (λ i r, let o := default 0 (other !! i) in if r <? o then o else r) hll.

Definition IsEmpty (hll : HyperLogLog) : bool := forallb (λ v, negb (0 <? v)) hll.

(** The floating-point operations of [Count], on bit patterns: conversion of
    an integer, arithmetic, comparisons, and the functions of package math;
    [c_alpha] is the constant [hllAlpha * m * m] and [c_thirtieth] is 1/30. *)
Record hll_math := HllMath {
  of_int : Z → Z; f_add : Z → Z → Z; f_sub : Z → Z → Z; f_mul : Z → Z → Z; f_div : Z → Z → Z; f_neg : Z → Z;
  f_le : Z → Z → bool; f_lt : Z → Z → bool; Pow : Z → Z → Z; Log : Z → Z; Round : Z → Z; to_int64 : Z → Z;
  c_alpha : Z; c_thirtieth : Z
}.

Section Count.
Context (F : hll_math).
Local Abbreviation n := (of_int F).

Definition Count (hll : HyperLogLog) : Z :=
  let sum := foldl (λ s v, f_add F s (Pow F (n 2) (f_neg F (n v)))) (n 0) hll in
  let zeros := Z.of_nat (length (List.filter (Z.eqb 0) hll)) in
  let estimate := f_div F (c_alpha F) sum in
  let estimate :=
    if f_le F estimate (n 40960) then
      if 0 <? zeros then f_mul F (n hllRegisters) (Log F (f_div F (n hllRegisters) (n zeros))) else estimate
    else if f_lt F (f_mul F (c_thirtieth F) (Pow F (n 2) (n 32))) estimate then
      f_mul F (f_neg F (Pow F (n 2) (n 32))) (Log F (f_sub F (n 1) (f_div F estimate (Pow F (n 2) (n 32)))))
    else estimate in
  to_int64 F (Round F estimate).

End Count.

(** ** Lemmas *)

Definition wf (hll : HyperLogLog) : Prop := length hll = Z.to_nat hllRegisters ∧ Forall (λ r, 0 <= r < 256) hll.

Lemma hllRegisters_pos : 0 < hllRegisters.
Proof. by vm_compute. Qed.

Lemma u64_range z : 0 <= u64 z < 2 ^ 64.
Proof. unfold u64. apply Z.mod_pos_bound. lia. Qed.
Lemma lxor_range a b k : 0 <= k → 0 <= a < 2 ^ k → 0 <= b < 2 ^ k → 0 <= Z.lxor a b < 2 ^ k.
Proof.
  intros Hk Ha Hb. assert (0 <= Z.lxor a b) as H0 by (apply Z.lxor_nonneg; lia). split; [done|].
  destruct (decide (Z.lxor a b = 0)) as [->|Hn]; [lia|]. apply Z.log2_lt_pow2; [lia|].
  pose proof (Z.log2_lxor a b ltac:(lia) ltac:(lia)).
  assert (∀ x, 0 <= x < 2 ^ k → Z.log2 x < k ∨ (k = 0)) as Hl.
  { intros x Hx. destruct (decide (x = 0)) as [->|]; [rewrite Z.log2_nonpos by lia; lia|].
    left. apply Z.log2_lt_pow2; lia. }
  destruct (Hl a Ha), (Hl b Hb); try lia; subst k; assert (a = 0) as -> by lia; assert (b = 0) as -> by lia; done.
Qed.
Lemma shiftr_range a b k : 0 <= b → 0 <= a < 2 ^ k → 0 <= Z.shiftr a b < 2 ^ k.
Proof.
  intros Hb Ha. rewrite Z.shiftr_div_pow2 by done. pose proof (Z.pow_pos_nonneg 2 b ltac:(lia) Hb).
  split; [apply Z.div_pos; lia|]. apply Z.div_lt_upper_bound; [lia|]. nia.
Qed.

Lemma murmur64_range data : 0 <= murmur64 data < 2 ^ 64.
Proof.
  unfold murmur64. cbv zeta. set (k := u64 (_ * 0xc4ceb9fe1a85ec53)). assert (0 <= k < 2 ^ 64) by apply u64_range.
  apply lxor_range; [lia|done|]. by apply shiftr_range.
Qed.
Lemma register_index_range hash : 0 <= register_index hash < hllRegisters.
Proof.
  unfold register_index. change (hllRegisters - 1) with (Z.ones 14). rewrite Z.land_ones by lia.
  change hllRegisters with (2 ^ 14). apply Z.mod_pos_bound. lia.
Qed.

(** The number of leading zeros of the 50 upper bits, plus one: from 1 to 51. *)
Definition rank_of (hash : Z) : Z := (getRegisterFromHash hash).2.
Lemma LeadingZeros64_upper hash :
  0 <= hash < 2 ^ 64 → Z.shiftr hash hllPrecision ≠ 0 → 14 <= LeadingZeros64 (Z.shiftr hash hllPrecision) <= 63.
Proof.
  intros Hh Hn. unfold LeadingZeros64. rewrite (proj2 (Z.eqb_neq _ _)) by done. change hllPrecision with 14 in *.
  assert (0 <= Z.shiftr hash 14 < 2 ^ 50) as Hr.
  { rewrite Z.shiftr_div_pow2 in * by lia. split; [apply Z.div_pos; lia|]. apply Z.div_lt_upper_bound; lia. }
  pose proof (Z.log2_nonneg (Z.shiftr hash 14)). assert (Z.log2 (Z.shiftr hash 14) < 50) by (apply Z.log2_lt_pow2; lia). lia.
Qed.
Lemma rank_of_range hash : 0 <= hash < 2 ^ 64 → 1 <= rank_of hash <= 51.
Proof.
  intros Hh. unfold rank_of, getRegisterFromHash, uint8. cbn [snd]. change hllPrecision with 14.
  destruct (_ =? 0) eqn:E; [change ((64 - 14 + 1) mod 256) with 51; cbn; lia|].
  apply Z.eqb_neq in E. pose proof (LeadingZeros64_upper hash Hh E) as Hl. change hllPrecision with 14 in Hl.
  destruct (14 <? _) eqn:E2; [rewrite Z.mod_small by lia|]; destruct (_ <? 1) eqn:E3; lia.
Qed.

(** The two copies of the register computation agree. *)
Lemma Add_AddHash element hll : Add element hll = AddHash (murmur64 (bytes_of element)) hll.
Proof.
  unfold Add, AddHash, getRegisterFromHash. cbv zeta. pose proof (murmur64_range (bytes_of element)) as Hh.
  destruct (_ =? 0) eqn:E; [done|]. apply Z.eqb_neq in E. pose proof (LeadingZeros64_upper _ Hh E) as Hl.
  destruct (hllPrecision <? _) eqn:E2; [done|]. change hllPrecision with 14 in *. apply Z.ltb_ge in E2.
  replace (LeadingZeros64 _) with 14 by lia. done.
Qed.
Lemma AddHash_bump hash hll : AddHash hash hll = bump (register_index hash) (rank_of hash) hll.
Proof. unfold AddHash, rank_of, getRegisterFromHash. reflexivity. Qed.

(** ** What a sketch says about the elements it has seen *)

(** The loop of PFADD. *)
Fixpoint add_all (elements : list string) (hll : HyperLogLog) : HyperLogLog * bool :=
  match elements with
  | [] => (hll, false)
  | e :: elements =>
      let '(hll, c) := Add e hll in
      let '(hll, changed) := add_all elements hll in
      (hll, c || changed)
  end.

(** The contribution of one element to register [i]; the register of a list
    of elements is the largest one. *)
Definition share (e : string) (i : nat) : Z :=
  let hash := murmur64 (bytes_of e) in
  if bool_decide (Z.to_nat (register_index hash) = i) then rank_of hash else 0.
Fixpoint seen (es : list string) (i : nat) : Z :=
  match es with
  | [] => 0
  | e :: es => Z.max (share e i) (seen es i)
  end.
Definition sketch (es : list string) : HyperLogLog := seen es <$> seq 0 (Z.to_nat hllRegisters).

Lemma share_range e i : 0 <= share e i <= 51.
Proof. unfold share. case_bool_decide; [|lia]. pose proof (rank_of_range _ (murmur64_range (bytes_of e))). lia. Qed.
Lemma seen_range es i : 0 <= seen es i <= 51.
Proof. induction es as [|e es IH]; cbn [seen]; [lia|]. pose proof (share_range e i). lia. Qed.
Lemma seen_spec es i x : 0 <= x → seen es i <= x ↔ ∀ e, e ∈ es → share e i <= x.
Proof.
  intros Hx. induction es as [|e es IH]; cbn [seen]; [split; [set_solver|done]|]. rewrite Z.max_lub_iff, IH. set_solver.
Qed.
Lemma seen_app es1 es2 i : seen (es1 ++ es2) i = Z.max (seen es1 i) (seen es2 i).
Proof.
  induction es1 as [|e es1 IH]; cbn [seen app]; [pose proof (seen_range es2 i); lia|]. rewrite IH. lia.
Qed.
(** Order and repetition do not matter. *)
Lemma seen_set es1 es2 i : (∀ e, e ∈ es1 ↔ e ∈ es2) → seen es1 i = seen es2 i.
Proof.
  intros H. pose proof (seen_range es1 i). pose proof (seen_range es2 i).
  apply Z.le_antisymm; apply seen_spec; try lia; intros e He; eapply seen_spec; [|reflexivity|by apply H| |reflexivity|by apply H]; lia.
Qed.

Lemma sketch_lookup es i : (i < Z.to_nat hllRegisters)%nat → sketch es !! i = Some (seen es i).
Proof. intros Hi. unfold sketch. by rewrite list_lookup_fmap, lookup_seq_lt. Qed.
Lemma sketch_length es : length (sketch es) = Z.to_nat hllRegisters.
Proof. unfold sketch. by rewrite length_fmap, length_seq. Qed.
(** A list of registers is known from its registers. *)
Lemma sketch_eq es hll :
  length hll = Z.to_nat hllRegisters → (∀ i, (i < Z.to_nat hllRegisters)%nat → hll !! i = Some (seen es i)) → hll = sketch es.
Proof.
  intros Hl H. apply list_eq. intros i. destruct (decide (i < Z.to_nat hllRegisters)%nat).
  - by rewrite H, sketch_lookup.
  - rewrite !lookup_ge_None_2; [done|rewrite sketch_length; lia|lia].
Qed.
Lemma sketch_set es1 es2 : (∀ e, e ∈ es1 ↔ e ∈ es2) → sketch es1 = sketch es2.
Proof. intros H. apply list_fmap_ext. intros i x _. by apply seen_set. Qed.
Lemma sketch_wf es : wf (sketch es).
Proof.
  split; [apply sketch_length|]. apply Forall_fmap, Forall_true. intros i. pose proof (seen_range es i). cbn. lia.
Qed.
Lemma sketch_nil : NewHyperLogLog = sketch [].
Proof.
  apply sketch_eq; [apply length_replicate|]. intros i Hi. by apply lookup_replicate_2.
Qed.

#[local] Opaque sketch.
Lemma Add_sketch e es : (Add e (sketch es)).1 = sketch (es ++ [e]) ∧
  ((Add e (sketch es)).2 = false ↔ sketch (es ++ [e]) = sketch es).
Proof.
  rewrite Add_AddHash, AddHash_bump.
  assert (∀ i, seen (es ++ [e]) i = Z.max (seen es i) (share e i)) as Hs.
  { intros i. rewrite seen_app. cbn [seen]. pose proof (share_range e i). lia. }
  unfold share in Hs. generalize dependent (murmur64 (bytes_of e)). intros hash Hs.
  pose proof (register_index_range hash) as Hi. unfold bump. rewrite sketch_lookup by lia.
  set (i0 := Z.to_nat (register_index hash)) in *.
  assert (seen (es ++ [e]) i0 = Z.max (seen es i0) (rank_of hash)) as Hr by (by rewrite Hs, bool_decide_true).
  assert (∀ i, i ≠ i0 → seen (es ++ [e]) i = seen es i) as Hn.
  { intros i ?. rewrite Hs, bool_decide_false by done. pose proof (seen_range es i). lia. }
  destruct (seen es i0 <? rank_of hash) eqn:El; cbn [fst snd].
  - apply Z.ltb_lt in El. split.
    + apply sketch_eq; [by rewrite length_insert, sketch_length|]. intros i Hlt. destruct (decide (i = i0)) as [->|Hne].
      * rewrite list_lookup_insert_eq by (by rewrite sketch_length). f_equal. lia.
      * rewrite list_lookup_insert_ne, sketch_lookup by done. by rewrite Hn.
    + split; [done|]. intros E. apply (f_equal (.!! i0)) in E. rewrite !sketch_lookup in E by lia. injection E as E. lia.
  - apply Z.ltb_ge in El. assert (sketch es = sketch (es ++ [e])) as E.
    { apply sketch_eq; [apply sketch_length|]. intros i Hlt. rewrite sketch_lookup by done. f_equal.
      destruct (decide (i = i0)) as [->|Hne]; [lia|]. by rewrite Hn. }
    split; [exact E|]. split; intros _; [exact (eq_sym E)|exact eq_refl].
Qed.

(** A sketch that has seen something is not empty. *)
Lemma sketch_nonempty e es : sketch (e :: es) ≠ sketch [].
Proof.
  intros E. pose proof (register_index_range (murmur64 (bytes_of e))) as Hi.
  apply (f_equal (.!! Z.to_nat (register_index (murmur64 (bytes_of e))))) in E.
  rewrite !sketch_lookup in E by lia. injection E as E. cbn [seen] in E.
  unfold share in E. rewrite bool_decide_true in E by exact eq_refl.
  pose proof (rank_of_range _ (murmur64_range (bytes_of e))). lia.
Qed.
Lemma sketch_grows es es' i : seen es i <= seen (es ++ es') i.
Proof. rewrite seen_app. lia. Qed.

Lemma add_all_sketch l es : (add_all l (sketch es)).1 = sketch (es ++ l) ∧
  ((add_all l (sketch es)).2 = false ↔ sketch (es ++ l) = sketch es).
Proof.
  revert es. induction l as [|e l IH]; intros es; cbn [add_all fst snd]; [rewrite app_nil_r; split; [exact eq_refl|split; intros _; exact eq_refl]|].
  destruct (Add_sketch e es) as [E1 C1]. destruct (Add e (sketch es)) as [h c]. cbn [fst snd] in *. subst h.
  destruct (IH (es ++ [e])) as [E2 C2]. destruct (add_all l (sketch (es ++ [e]))) as [h c2]. cbn [fst snd] in *. subst h.
  rewrite <-app_assoc in *. cbn [app] in *. split; [exact eq_refl|]. rewrite orb_false_iff, C1, C2. split.
  - intros [H1 H2]. exact (eq_trans H2 H1).
  - intros H. assert (sketch (es ++ [e]) = sketch es) as H1; [|split; [exact H1|exact (eq_trans H (eq_sym H1))]].
    symmetry. apply sketch_eq; [apply sketch_length|]. intros i Hi. rewrite sketch_lookup by done. f_equal.
    apply (f_equal (.!! i)) in H. rewrite !sketch_lookup in H by done. injection H as H.
    pose proof (sketch_grows es [e] i). pose proof (sketch_grows (es ++ [e]) l i) as H2. rewrite <-app_assoc in H2. cbn in H2. lia.
Qed.

Lemma Merge_sketch es1 es2 : Merge (sketch es2) (sketch es1) = sketch (es1 ++ es2).
Proof.
  apply sketch_eq; [unfold Merge; by rewrite length_imap, sketch_length|]. intros i Hi. unfold Merge.
  rewrite list_lookup_imap, !sketch_lookup by done. cbn. rewrite seen_app. case_match eqn:E; f_equal; lia.
Qed.

Lemma FromBytes_ToBytes hll : wf hll → HyperLogLogFromBytes (ToBytes hll) = hll.
Proof.
  intros [Hl Hr]. unfold HyperLogLogFromBytes, ToBytes, blen. rewrite length_fmap, Hl, Z2Nat.id by (pose proof hllRegisters_pos; lia).
  rewrite Z.eqb_refl. cbn [negb]. clear Hl. induction Hr as [|r hll Hr _ IH]; cbn; [done|]. rewrite IH, b2z_z2b, Z.mod_small by done. done.
Qed.

End Hll.

(** ** The commands *)
Module HllOps.
Import Hll.
Local Open Scope Z_scope.

(** [SELECT registers FROM kv_hyperloglog WHERE key = $1 AND (live)] *)
Definition sel_registers (key : string) (now : Z) (t : tables) : option string :=
  live_row now (kv_hyperloglog t !! key).
Definition load (row : option string) : HyperLogLog :=
  match row with None => NewHyperLogLog | Some registers => HyperLogLogFromBytes (bytes_of registers) end.
(** [INSERT ... ON CONFLICT (key) DO UPDATE SET registers = $2] *)
Definition save (key : string) (hll : HyperLogLog) : M unit :=
  exec (λ _, upd_hll (upsert_value key (string_of (ToBytes hll)))).

Definition pfAdd (key : string) (elements : list string) : M Z :=
  let key := encodeKey key in
  lockKey key;;
  requireType "hyperloglog" key;;
  row ← query (sel_registers key);
  let '(hll, changed) := add_all elements (load row) in
  setMeta key "hyperloglog" None;;
  save key hll;;
  mret (if changed : bool then 1 else 0).

(** The loop over the source keys: missing ones are skipped. *)
Fixpoint merge_keys (keys : list string) (merged : HyperLogLog) : M HyperLogLog :=
  match keys with
  | [] => mret merged
  | key :: keys =>
      row ← query (sel_registers key);
      match row with
      | None => merge_keys keys merged
      | Some registers => merge_keys keys (Merge (HyperLogLogFromBytes (bytes_of registers)) merged)
      end
  end.

Definition pfCount (F : hll_math) (keys : list string) : M Z :=
  let keys := encodeKeys keys in
  match keys with
  | [] => mret 0
  | [key] =>
      row ← query (sel_registers key);
      match row with
      | None => mret 0
      | Some registers => mret (Count F (HyperLogLogFromBytes (bytes_of registers)))
      end
  | _ => merged ← merge_keys keys NewHyperLogLog; mret (Count F merged)
  end.

Definition pfMerge (destKey : string) (sourceKeys : list string) : M unit :=
  let destKey := encodeKey destKey in
  let sourceKeys := encodeKeys sourceKeys in
  lockKeys (destKey :: sourceKeys);;
  requireType "hyperloglog" destKey;;
  row ← query (sel_registers destKey);
  merged ← merge_keys sourceKeys (load row);
  setMeta destKey "hyperloglog" None;;
  save destKey merged.

(** ** Specification *)

(** The sketch stored under [key] is that of the elements [es]. *)
Definition sees (key : string) (now : Z) (t : tables) (es : list string) : Prop :=
  match sel_registers key now t with
  | Some registers => registers = string_of (ToBytes (sketch es))
  | None => es = []
  end.
(** No expired row is waiting for the sweep. *)
Definition no_expired_row (key : string) (now : Z) (t : tables) : Prop :=
  match kv_hyperloglog t !! key with Some (_, x) => live now x = true | None => True end.
Lemma load_sees key now t es : sees key now t es → load (sel_registers key now t) = sketch es.
Proof.
  unfold sees, load. destruct (sel_registers key now t) as [r|]; [|intros ->; apply sketch_nil].
  intros ->. rewrite bytes_of_string_of. apply FromBytes_ToBytes, sketch_wf.
Qed.

Lemma sees_saved_Some key now kt t es :
  no_expired_row key now t →
  sel_registers key now (upd_hll (upsert_value key (string_of (ToBytes (sketch es)))) (upd_meta <[key := (kt, None)]> t)) =
    Some (string_of (ToBytes (sketch es))).
Proof.
  intros Hx. unfold sel_registers, no_expired_row in *. cbn [kv_hyperloglog upd_hll upd_meta]. rewrite upsert_value_lookup.
  destruct (kv_hyperloglog t !! key) as [[r x]|]; cbn [live_row]; [by rewrite Hx|exact eq_refl].
Qed.
Lemma sees_saved key now kt t es :
  no_expired_row key now t →
  sees key now (upd_hll (upsert_value key (string_of (ToBytes (sketch es)))) (upd_meta <[key := (kt, None)]> t)) es.
Proof. intros Hx. unfold sees. by rewrite sees_saved_Some. Qed.
Lemma frame_saved key kt v t : frame [key] t (upd_hll (upsert_value key v) (upd_meta <[key := (kt, None)]> t)).
Proof.
  eapply frame_trans; [apply frame_insert_meta|]. apply frame_upd_hll. intros k Hk. unfold upsert_value, upsert_with.
  destruct (kv_hyperloglog _ !! key) as [[??]|]; by rewrite lookup_insert_ne.
Qed.

Section Runs.
Context (now gonow : Z).
Local Abbreviation runs := (runs now gonow).

Lemma runs_merge_keys keys ess es t :
  Forall2 (λ k es, sees k now t es) keys ess →
  runs (merge_keys keys (sketch es)) t t (Ok (sketch (es ++ concat ess))).
Proof.
  intros H. revert es. induction H as [|k es1 keys ess Hk _ IH]; intros es; cbn [merge_keys concat]; [rewrite app_nil_r; finish|].
  step. unfold sees in Hk. destruct (sel_registers k now t) as [r|].
  - rewrite Hk, bytes_of_string_of, FromBytes_ToBytes, Merge_sketch by apply sketch_wf. rewrite app_assoc. apply IH.
  - rewrite Hk. apply IH.
Qed.
Lemma runs_save key hll t : runs (save key hll) t (upd_hll (upsert_value key (string_of (ToBytes hll))) t) (Ok tt).
Proof. apply runs_exec. Qed.
Lemma runs_pfCount F ks ess t :
  Forall2 (λ k es, sees k now t es) (encodeKeys ks) ess → (2 <= length ks)%nat →
  runs (pfCount F ks) t t (Ok (Count F (sketch (concat ess)))).
Proof.
  intros H Hl. unfold pfCount. destruct ks as [|k1 [|k2 ks]]; cbn [length] in Hl; [lia..|].
  remember (encodeKeys (k1 :: k2 :: ks)) as eks eqn:Ee. cbv zeta. rewrite sketch_nil.
  assert (∃ a b c, eks = a :: b :: c) as (a & b & c & ->) by (subst; cbn; eauto).
  eapply runs_bind; [by apply runs_merge_keys|]. apply runs_ret.
Qed.
End Runs.

(** C37. The commands on HyperLogLogs against sets of elements. On a key that
    is missing or a HyperLogLog and whose sketch has seen [es], PFADD leaves
    the sketch of [es] and the new elements, in whatever order and however
    often they came, and answers whether that is another sketch; PFMERGE
    leaves in its destination the sketch of the union with its sources, and
    PFCOUNT of several keys is the estimate for their union. None of them
    touches another key. When the key of PFADD or the destination of PFMERGE
    has another type, the command is WRONGTYPE and changes nothing; the types
    of PFCOUNT's keys and of PFMERGE's sources are not looked at, and a key
    that has no sketch counts as empty there. The row of the key that is
    written must not have expired unswept ([no_expired_row]; see
    [pfAdd_expired_row_lost]). *)
Theorem hll_commands_correct F now gonow k ks ess es l t :
  let enc := encodeKey k in
  sees enc now t es → no_expired_row enc now t → Forall2 (λ k es, sees (encodeKey k) now t es) ks ess →
  (if type_ok now "hyperloglog" enc t then
     (∃ t', runs now gonow (pfAdd k l) t t' (Ok (if bool_decide (sketch (es ++ l) = sketch es) then 0 else 1)) ∧
            (∀ es', (∀ e, e ∈ es' ↔ e ∈ es ∨ e ∈ l) → sel_registers enc now t' = Some (string_of (ToBytes (sketch es')))) ∧
            frame [enc] t t') ∧
     (∃ t', runs now gonow (pfMerge k ks) t t' (Ok tt) ∧ sees enc now t' (es ++ concat ess) ∧ frame [enc] t t' ∧
            runs now gonow (pfCount F [k]) t' t' (Ok (Count F (sketch (es ++ concat ess)))))
   else runs now gonow (pfAdd k l) t t (Fail errWrongType) ∧ runs now gonow (pfMerge k ks) t t (Fail errWrongType)) ∧
  ((2 <= length ks)%nat → runs now gonow (pfCount F ks) t t (Ok (Count F (sketch (concat ess))))).
Proof.
  intros enc Hs Hx Hks. assert (Forall2 (λ k es, sees k now t es) (encodeKeys ks) ess) as Hks'.
  { rewrite encodeKeys_map. by apply Forall2_fmap_l. }
  split; [|intros Hl; by apply runs_pfCount].
  pose proof (runs_requireType now gonow "hyperloglog" enc t) as Hty.
  destruct (type_ok now "hyperloglog" enc t).
  2:{ split; [unfold pfAdd; eapply runs_bind; [apply runs_lockKey|]|unfold pfMerge; eapply runs_bind; [apply runs_lockKeys|]];
        eapply runs_bind_fail; exact Hty. }
  split.
  - eexists. split; [|split; [|apply frame_saved]].
    + unfold pfAdd. cbv zeta. fold enc. step. eapply runs_bind; [exact Hty|]. step. rewrite (load_sees _ _ _ es) by done.
      destruct (add_all_sketch l es) as [E C]. destruct (add_all l (sketch es)) as [h c]. cbn [fst snd] in *. rewrite E.
      eapply runs_bind; [apply runs_setMeta|]. eapply runs_bind; [apply runs_save|].
      eapply runs_eq; [apply runs_ret|reflexivity|]. f_equal. destruct c; [rewrite bool_decide_false; [done|]|rewrite bool_decide_true; [done|]].
      * intros H. by apply C in H.
      * by apply C.
    + intros es' Hes. rewrite (sketch_set es' (es ++ l)) by set_solver. apply sees_saved_Some. done.
  - eexists. split; [|split; [|split; [apply frame_saved|]]].
    + unfold pfMerge. cbv zeta. fold enc. eapply runs_bind; [apply runs_lockKeys|]. eapply runs_bind; [exact Hty|]. step.
      rewrite (load_sees _ _ _ es) by done. eapply runs_bind; [by apply runs_merge_keys|].
      eapply runs_bind; [apply runs_setMeta|]. apply runs_save.
    + by apply sees_saved.
    + unfold pfCount. cbn [encodeKeys]. fold enc. step. rewrite sees_saved_Some by done.
      rewrite bytes_of_string_of, FromBytes_ToBytes by apply sketch_wf. apply runs_ret.
Qed.

(** ** Examples *)

Definition sample_math : hll_math :=
  HllMath (λ z, z) Z.add Z.sub Z.mul Z.div Z.opp Z.leb Z.ltb Z.pow Z.log2 (λ z, z) (λ z, z) 1 1.

Lemma hll_commands_correct_witness :
  ∃ t', runs 0 0 (pfAdd "k" ["a"; "b"; "a"]) empty_tables t' (Ok 1) ∧
        sel_registers "k" 0 t' = Some (string_of (ToBytes (sketch ["b"; "a"]))).
Proof.
  destruct (hll_commands_correct sample_math 0 0 "k" [] [] [] ["a"; "b"; "a"] empty_tables) as [H _];
    [reflexivity|exact I|constructor|].
  assert (type_ok 0 "hyperloglog" (encodeKey "k") empty_tables = true) as E by (vm_compute; reflexivity). rewrite E in H.
  destruct H as [(t' & Hr & Hs & _) _].
  rewrite bool_decide_false in Hr by apply sketch_nonempty. exists t'. split; [exact Hr|]. apply Hs. intros e. clear. set_solver.
Defined.

(** PFCOUNT does not look at the type of a key: a string counts as empty. *)
Lemma pfCount_ignores_type :
  let t := upd_strings <["k" := ("v", None)]> (upd_meta <["k" := (TypeString, None)]> empty_tables) in
  run 0 0 (pfCount sample_math ["k"]) t = (t, Ok 0).
Proof. vm_compute. reflexivity. Qed.
(** EXPIRE on a HyperLogLog answers 1 and moves the expiry of its meta row
    only: whenever it is asked, also after that expiry, PFCOUNT reads the same
    sketch. *)
Lemma expire_leaves_hyperloglog now gonow key d opts t t' x :
  kv_meta t !! encodeKey key = Some ("hyperloglog", x) →
  run now gonow (expire key d opts) t = (t', Ok true) →
  kv_meta t' !! encodeKey key = Some ("hyperloglog", Some (timestamptz (gonow + d))) ∧
  ∀ now', sel_registers (encodeKey key) now' t' = sel_registers (encodeKey key) now' t.
Proof.
  intros Hm. erewrite runs_run; [|unfold expire; step; step; apply runs_expire_common].
  rewrite Hm. intros [= <- Hw]. rewrite Hw. split; [|done]. apply lookup_insert_eq.
Qed.

(** PFADD to a row that has expired but is not swept yet keeps the old expiry:
    it answers 1, and the sketch is empty. *)
Lemma pfAdd_expired_row_lost :
  let t := upd_hll <["k" := ("", Some 0)]> empty_tables in
  (run 1 1000 (pfAdd "k" ["a"]) t).2 = Ok 1 ∧ sel_registers "k" 1 (run 1 1000 (pfAdd "k" ["a"]) t).1 = None.
Proof. split; vm_compute; reflexivity. Qed.

End HllOps.
