(* ===== verification/Glob.v ===== *)
(** * Glob matching: internal/pubsub/hub.go [globMatch], internal/storage/querier.go [matchGlob]

    The two functions are the same two-pointer loop with one backtracking
    point. [glob] is the reference definition of the pattern language ([*] any
    sequence, [?] any byte, every other byte itself); the loop decides it on
    every subject that contains no ['*'] byte, and terminates on all. *)
From stdpp Require Import gmap strings list.
From Stdlib Require Import ZArith Lia Ascii.
From S2P Require Import Prelude.

Module Glob.

Definition star : ascii := "*".
Definition quest : ascii := "?".

(** [pattern[px] == '?' || pattern[px] == str[sx]] *)
Definition char_ok (c d : ascii) : bool := bool_decide (c = quest) || bool_decide (c = d).

(** [for px < pLen && pattern[px] == '*' { px++ }] *)
Fixpoint skip_stars (n : nat) (p : bytes) (px : nat) : nat :=
  match n with
  | O => px
  | S n => if bool_decide (p !! px = Some star) then skip_stars n p (S px) else px
  end.

(** The main loop. [starIdx] is [None] where the code has -1; the result is
    [None] when the fuel runs out. *)
Fixpoint globMatch_loop (fuel : nat) (p s : bytes) (px sx : nat) (starIdx : option nat)
    (matchIdx : nat) : option bool :=
  match fuel with
  | O => None
  | S fuel =>
      match s !! sx with
      | None => Some (bool_decide (skip_stars (length p) p px = length p))
      | Some d =>
          match p !! px with
          | Some c =>
              if char_ok c d then globMatch_loop fuel p s (S px) (S sx) starIdx matchIdx
              else if bool_decide (c = star) then globMatch_loop fuel p s (S px) sx (Some px) sx
              else match starIdx with
                   | Some st => globMatch_loop fuel p s (S st) (S matchIdx) starIdx (S matchIdx)
                   | None => Some false
                   end
          | None =>
              match starIdx with
              | Some st => globMatch_loop fuel p s (S st) (S matchIdx) starIdx (S matchIdx)
              | None => Some false
              end
          end
      end
  end.

(** Steps that the loop can take: the backtracking point moves at most
    [length s] times, and between two moves the positions only advance. *)
Definition glob_fuel (p s : bytes) : nat :=
  S (length s * S (length s + length p) + length s + length p).

Definition globMatch (pattern str : string) : bool :=
  let p := bytes_of pattern in
  let s := bytes_of str in
  default false (globMatch_loop (glob_fuel p s) p s 0 0 None 0).

(** [matchPattern] of the hub and [matchGlob] of the storage layer. *)
Definition matchPattern (pattern channel : string) : bool := globMatch pattern channel.
Definition matchGlob (pattern s : string) : bool := globMatch pattern s.
#[global] Arguments globMatch : simpl never.
#[global] Arguments matchPattern : simpl never.
#[global] Arguments matchGlob : simpl never.

(** ** The reference *)

Fixpoint glob (p s : bytes) : bool :=
  match p with
  | [] => bool_decide (s = [])
  | c :: p' =>
      if bool_decide (c = star) then
        (fix any (s : bytes) : bool :=
           glob p' s || match s with [] => false | _ :: s' => any s' end) s
      else match s with
           | [] => false
           | d :: s' => char_ok c d && glob p' s'
           end
  end.

Lemma glob_star p s :
  glob (star :: p) s = true ↔ ∃ k, k ≤ length s ∧ glob p (drop k s) = true.
Proof.
  cbn [glob]. rewrite bool_decide_true by done. induction s as [|d s IH].
  - rewrite orb_false_r. split.
    + intros H. exists 0. done.
    + intros (k & ? & H). by rewrite drop_nil in H.
  - cbn. rewrite orb_true_iff, IH. split.
    + intros [H|(k & ? & H)]; [exists 0; split; [lia|done]|]. exists (S k). split; [lia|done].
    + intros ([|k] & Hk & H); [by left|right]. exists k. split; [lia|done].
Qed.

Lemma glob_char c p s :
  c ≠ star →
  glob (c :: p) s = match s with [] => false | d :: s' => char_ok c d && glob p s' end.
Proof. intros Hc. cbn. by rewrite bool_decide_false. Qed.

(** A star-free prefix of the pattern consumes as many bytes. *)
Lemma glob_prefix seg rest u :
  star ∉ seg → glob (seg ++ rest) u = true →
  length seg ≤ length u ∧ glob rest (drop (length seg) u) = true.
Proof.
  revert u. induction seg as [|c seg IH]; intros u Hs H; [split; [cbn; lia|done]|].
  rewrite <-app_comm_cons, glob_char in H by (intros ->; apply Hs; by left).
  destruct u as [|d u]; [done|]. apply andb_true_iff in H as [_ H].
  apply IH in H as [? ?]; [cbn; split; [lia|done]|]. intros ?. apply Hs. by right.
Qed.

Lemma glob_all_stars p : (∀ c, c ∈ p → c = star) → glob p [] = true.
Proof.
  induction p as [|c p IH]; intros H; [done|].
  assert (c = star) as -> by (apply H; by left).
  apply glob_star. exists 0. split; [cbn; lia|]. apply IH. intros c ?. apply H. by right.
Qed.

Lemma glob_nil_stars p : glob p [] = true → ∀ c, c ∈ p → c = star.
Proof.
  induction p as [|c p IH]; intros H c' Hc'; [by apply not_elem_of_nil in Hc'|].
  destruct (decide (c = star)) as [->|Hc]; [|by rewrite glob_char in H].
  apply glob_star in H as (k & _ & H). rewrite drop_nil in H.
  apply elem_of_cons in Hc' as [->|Hc']; [done|]. by apply IH.
Qed.

Lemma skip_stars_spec n p px :
  px ≤ length p → length p - px ≤ n →
  (skip_stars n p px = length p ↔ ∀ c, c ∈ drop px p → c = star).
Proof.
  revert px. induction n as [|n IH]; intros px Hp Hn; cbn [skip_stars].
  - assert (px = length p) as -> by lia. rewrite drop_all. split; [|done].
    intros _ c Hc. by apply not_elem_of_nil in Hc.
  - case_bool_decide as Hs.
    + pose proof (lookup_lt_Some _ _ _ Hs). rewrite IH by lia.
      rewrite (drop_S _ _ _ Hs). setoid_rewrite elem_of_cons. naive_solver.
    + split; [intros ->; rewrite drop_all; intros c Hc; by apply not_elem_of_nil in Hc|].
      intros H. destruct (decide (px = length p)) as [|Hne]; [done|].
      destruct (lookup_lt_is_Some_2 p px) as [c Hc]; [lia|]. exfalso. apply Hs. rewrite Hc. f_equal.
      apply H. rewrite (drop_S _ _ _ Hc). by left.
Qed.

(** ** The loop *)

Section Loop.
Context (p s : bytes) (no_star : star ∉ s).

(** What is left to decide from a loop state: the current branch, or a later
    start of the last star. *)
Definition pending (px sx : nat) (starIdx : option nat) (matchIdx : nat) : Prop :=
  glob (drop px p) (drop sx s) = true ∨
  match starIdx with
  | None => False
  | Some st => ∃ k, matchIdx < k ≤ length s ∧ glob (drop (S st) p) (drop k s) = true
  end.

(** The loop invariant: positions are in range, and since the last star every
    pattern byte matched one subject byte. *)
Definition loop_inv (px sx : nat) (starIdx : option nat) (matchIdx : nat) : Prop :=
  px ≤ length p ∧ sx ≤ length s ∧ matchIdx ≤ sx ∧
  match starIdx with
  | None => True
  | Some st => st < px ∧ sx - matchIdx = px - S st ∧ star ∉ take (px - S st) (drop (S st) p)
  end.

Lemma segment px st : st < px → px ≤ length p →
  drop (S st) p = take (px - S st) (drop (S st) p) ++ drop px p ∧
  length (take (px - S st) (drop (S st) p)) = px - S st.
Proof.
  intros. split.
  - rewrite <-(take_drop (px - S st) (drop (S st) p)) at 1. rewrite drop_drop.
    do 2 f_equal. lia.
  - rewrite length_take, length_drop. lia.
Qed.

(** Advancing over a matching byte. *)
Lemma pending_advance px sx starIdx mi c d :
  p !! px = Some c → s !! sx = Some d → char_ok c d = true → c ≠ star →
  pending px sx starIdx mi ↔ pending (S px) (S sx) starIdx mi.
Proof.
  intros Hc Hd Hok Hns. unfold pending.
  by rewrite (drop_S _ _ _ Hc), (drop_S _ _ _ Hd), glob_char, Hok.
Qed.

(** A byte that does not match: only later starts of the star remain. *)
Lemma pending_backtrack px sx st mi d :
  mi < length s → s !! sx = Some d →
  match p !! px with Some c => char_ok c d = false ∧ c ≠ star | None => True end →
  pending px sx (Some st) mi ↔ pending (S st) (S mi) (Some st) (S mi).
Proof.
  intros Hmi Hd Hp. unfold pending.
  assert (glob (drop px p) (drop sx s) = false) as ->.
  { rewrite (drop_S _ _ _ Hd). destruct (p !! px) as [c|] eqn:Hc.
    - destruct Hp as [Hok Hns]. by rewrite (drop_S _ _ _ Hc), glob_char, Hok.
    - rewrite drop_ge by (by apply lookup_ge_None). done. }
  split.
  - intros [|(k & Hk & H)]; [done|]. destruct (decide (k = S mi)) as [->|]; [by left|].
    right. exists k. split; [lia|done].
  - intros [H|(k & Hk & H)]; right; [exists (S mi)|exists k]; (split; [lia|done]).
Qed.

(** A new star forgets the older one: whatever a later start of the older one
    could reach, the new one reaches too. *)
Lemma pending_star px sx starIdx mi :
  loop_inv px sx starIdx mi → p !! px = Some star →
  pending px sx starIdx mi ↔ pending (S px) sx (Some px) sx.
Proof.
  intros (Hpx & Hsx & Hmi & Hst) Hc. unfold pending. rewrite (drop_S _ _ _ Hc), glob_star.
  rewrite length_drop. setoid_rewrite drop_drop. split.
  - intros [(k & Hk & H)|Hold].
    + destruct (decide (k = 0)) as [->|]; [left; by rewrite Nat.add_0_r in H|].
      right. exists (sx + k). split; [lia|done].
    + destruct starIdx as [st|]; [|done]. destruct Hst as (Hlt & Hlen & Hfree).
      destruct Hold as (k & Hk & H). destruct (segment px st Hlt Hpx) as [Eseg Lseg].
      rewrite Eseg in H. apply glob_prefix in H as [Hle H]; [|done].
      rewrite Lseg, drop_drop in *. rewrite length_drop in Hle.
      rewrite (drop_S _ _ _ Hc), glob_star in H. destruct H as (j & Hj & H).
      rewrite drop_drop in H. rewrite length_drop in Hj. right. exists (k + (px - S st) + j). split; [lia|done].
  - intros [H|(k & Hk & H)]; left.
    + exists 0. split; [lia|]. by rewrite Nat.add_0_r.
    + exists (k - sx). split; [lia|]. by replace (sx + (k - sx)) with k by lia.
Qed.

(** The subject is consumed. *)
Lemma pending_end px sx starIdx mi :
  loop_inv px sx starIdx mi → s !! sx = None →
  pending px sx starIdx mi ↔ ∀ c, c ∈ drop px p → c = star.
Proof.
  intros (Hpx & Hsx & Hmi & Hst) Hn. apply lookup_ge_None in Hn.
  assert (sx = length s) as -> by lia. unfold pending. rewrite drop_all. split.
  - intros [H|Hold]; [by apply glob_nil_stars|].
    destruct starIdx as [st|]; [|done]. destruct Hst as (Hlt & Hlen & Hfree).
    destruct Hold as (k & Hk & H). destruct (segment px st Hlt Hpx) as [Eseg Lseg].
    rewrite Eseg in H. apply glob_prefix in H as [Hle _]; [|done].
    rewrite Lseg, length_drop in Hle. lia.
  - intros H. left. by apply glob_all_stars.
Qed.

(** The measure of the fuel. *)
Definition loop_left (px sx mi : nat) : nat :=
  (length s - mi) * S (length s + length p) + (length s - sx) + (length p - px).

Lemma loop_inv_advance px sx starIdx mi c d :
  loop_inv px sx starIdx mi → p !! px = Some c → s !! sx = Some d → c ≠ star →
  loop_inv (S px) (S sx) starIdx mi.
Proof.
  intros (Hpx & Hsx & Hmi & Hst) Hc Hd Hns.
  pose proof (lookup_lt_Some _ _ _ Hc). pose proof (lookup_lt_Some _ _ _ Hd).
  split_and!; [lia..|]. destruct starIdx as [st|]; [|done]. destruct Hst as (Hlt & Hlen & Hfree).
  split_and!; [lia..|]. replace (S px - S st) with (S (px - S st)) by lia.
  erewrite take_S_r; [|rewrite lookup_drop; replace (S st + (px - S st)) with px by lia; exact Hc].
  rewrite elem_of_app, list_elem_of_singleton. naive_solver.
Qed.

Lemma loop_inv_star px sx starIdx mi :
  loop_inv px sx starIdx mi → p !! px = Some star → loop_inv (S px) sx (Some px) sx.
Proof.
  intros (Hpx & Hsx & Hmi & Hst) Hc. pose proof (lookup_lt_Some _ _ _ Hc).
  split_and!; [lia..|]. rewrite Nat.sub_diag. cbn. apply not_elem_of_nil.
Qed.

Lemma loop_inv_backtrack px sx st mi d :
  loop_inv px sx (Some st) mi → s !! sx = Some d → loop_inv (S st) (S mi) (Some st) (S mi).
Proof.
  intros (Hpx & Hsx & Hmi & Hlt & Hlen & Hfree) Hd. pose proof (lookup_lt_Some _ _ _ Hd).
  split_and!; [lia..|]. rewrite Nat.sub_diag. cbn. apply not_elem_of_nil.
Qed.

(** The loop ends within the fuel and decides what is pending. *)
Lemma globMatch_loop_spec fuel px sx starIdx mi :
  loop_inv px sx starIdx mi → loop_left px sx mi < fuel →
  ∃ b, globMatch_loop fuel p s px sx starIdx mi = Some b ∧ (b = true ↔ pending px sx starIdx mi).
Proof.
  revert px sx starIdx mi. induction fuel as [|fuel IH]; intros px sx starIdx mi Hinv Hf; [lia|].
  cbn [globMatch_loop]. destruct (s !! sx) as [d|] eqn:Hd.
  2: { eexists. split; [done|]. rewrite bool_decide_eq_true, pending_end by done.
       apply skip_stars_spec; [apply Hinv|lia]. }
  pose proof (lookup_lt_Some _ _ _ Hd) as Hsx. unfold loop_left in *.
  assert (∀ st, starIdx = Some st →
    match p !! px with Some c => char_ok c d = false ∧ c ≠ star | None => True end →
    ∃ b, globMatch_loop fuel p s (S st) (S mi) (Some st) (S mi) = Some b ∧
         (b = true ↔ pending px sx starIdx mi)) as Hback.
  { intros st -> Hno. pose proof Hinv as (? & ? & Hmi & Hlt & _).
    setoid_rewrite (pending_backtrack px sx st mi d); [|lia|done|done].
    apply IH; [by eapply loop_inv_backtrack|].
    replace (length s - mi) with (S (length s - S mi)) in Hf by lia. cbn in Hf. lia. }
  assert (starIdx = None →
    match p !! px with Some c => char_ok c d = false ∧ c ≠ star | None => True end →
    (false = true ↔ pending px sx starIdx mi)) as Hno.
  { intros -> Hno. unfold pending. split; [done|]. intros [H|[]].
    rewrite (drop_S _ _ _ Hd) in H. destruct (p !! px) as [c|] eqn:Hc.
    - destruct Hno as [Hok Hns]. by rewrite (drop_S _ _ _ Hc), glob_char, Hok in H.
    - by rewrite drop_ge in H by (by apply lookup_ge_None). }
  destruct (p !! px) as [c|] eqn:Hc; [pose proof (lookup_lt_Some _ _ _ Hc)|].
  - destruct (char_ok c d) eqn:Hok.
    + assert (c ≠ star) as Hns.
      { intros ->. unfold char_ok in Hok. apply orb_true_iff in Hok as [?%bool_decide_eq_true|E%bool_decide_eq_true]; [done|].
        apply no_star. rewrite E. by eapply list_elem_of_lookup_2. }
      setoid_rewrite (pending_advance px sx starIdx mi c d); [|done..].
      apply IH; [by eapply loop_inv_advance|lia].
    + case_bool_decide as Hst.
      * subst c. setoid_rewrite (pending_star px sx starIdx mi); [|done..].
        apply IH; [by eapply loop_inv_star|]. destruct Hinv as (_ & _ & Hmi & _).
        assert ((length s - sx) * S (length s + length p) ≤ (length s - mi) * S (length s + length p))
          by (apply Nat.mul_le_mono_r; lia). lia.
      * destruct starIdx as [st|]; [by apply Hback|]. exists false. split; [done|]. by apply Hno.
  - destruct starIdx as [st|]; [by apply Hback|]. exists false. split; [done|]. by apply Hno.
Qed.

End Loop.

Lemma globMatch_decides p s :
  star ∉ s → ∃ b, globMatch_loop (glob_fuel p s) p s 0 0 None 0 = Some b ∧ (b = true ↔ glob p s = true).
Proof.
  intros Hs. destruct (globMatch_loop_spec p s Hs (glob_fuel p s) 0 0 None 0) as (b & E & Hb).
  - split_and!; [lia..|done].
  - unfold loop_left, glob_fuel. rewrite !Nat.sub_0_r. lia.
  - exists b. split; [done|]. rewrite Hb. unfold pending. cbn [drop]. tauto.
Qed.

(** The loop ends on every input. *)
Lemma globMatch_loop_total fuel p s px sx starIdx mi :
  px ≤ length p → sx ≤ length s → mi ≤ sx → (∀ st, starIdx = Some st → st < length p) →
  loop_left p s px sx mi < fuel → is_Some (globMatch_loop fuel p s px sx starIdx mi).
Proof.
  revert px sx starIdx mi. induction fuel as [|fuel IH]; intros px sx starIdx mi Hpx Hsx Hmi Hst Hf; [lia|].
  cbn [globMatch_loop]. destruct (s !! sx) as [d|] eqn:Hd; [|by eexists].
  pose proof (lookup_lt_Some _ _ _ Hd). unfold loop_left in *.
  assert (∀ st, starIdx = Some st →
    is_Some (globMatch_loop fuel p s (S st) (S mi) starIdx (S mi))) as Hback.
  { intros st E. specialize (Hst st E) as Hlt. apply IH; [lia..|done|].
    replace (length s - mi) with (S (length s - S mi)) in Hf by lia. cbn in Hf. lia. }
  destruct (p !! px) as [c|] eqn:Hc; [pose proof (lookup_lt_Some _ _ _ Hc)|].
  - destruct (char_ok c d); [apply IH; [lia..|done|lia]|].
    case_bool_decide; [|destruct starIdx as [st|]; [by apply Hback|by eexists]].
    assert ((length s - sx) * S (length s + length p) ≤ (length s - mi) * S (length s + length p))
      by (apply Nat.mul_le_mono_r; lia).
    apply IH; [lia..| |lia]. intros st [= <-]. lia.
  - destruct starIdx as [st|]; [by apply Hback|by eexists].
Qed.

(** C36. The matcher of PSUBSCRIBE and of the SCAN family always ends within
    the stated number of steps, and decides the pattern language on every
    channel, member or key without a ['*'] byte: it answers true exactly when
    the pattern matches in the reference definition. *)
Theorem globMatch_correct pattern str :
  is_Some (globMatch_loop (glob_fuel (bytes_of pattern) (bytes_of str))
             (bytes_of pattern) (bytes_of str) 0 0 None 0) ∧
  ((star ∉ bytes_of str) → globMatch pattern str = glob (bytes_of pattern) (bytes_of str)).
Proof.
  split.
  - apply globMatch_loop_total; [lia..|done|]. unfold loop_left, glob_fuel. rewrite !Nat.sub_0_r. lia.
  - intros Hs. unfold globMatch.
    destruct (globMatch_decides (bytes_of pattern) (bytes_of str) Hs) as (b & -> & Hb).
    cbn. apply eq_true_iff_eq. exact Hb.
Qed.

Lemma globMatch_correct_witness :
  (star ∉ bytes_of "news.sport.uk") ∧ globMatch "n?ws.*uk" "news.sport.uk" = true.
Proof.
  assert (star ∉ bytes_of "news.sport.uk") as H by (apply (bool_decide_unpack _); vm_compute; exact I).
  split; [exact H|]. etrans; [exact (proj2 (globMatch_correct "n?ws.*uk" "news.sport.uk") H)|]. reflexivity.
Defined.

(** On a subject with a ['*'] the loop can take a star of the pattern for the
    byte and miss a match. *)
Lemma globMatch_star_subject :
  globMatch "*a" "*ba" = false ∧ glob (bytes_of "*a") (bytes_of "*ba") = true.
Proof. split; vm_compute; reflexivity. Qed.

End Glob.
