(* ===== verification/StoreZSets.v ===== *)
(** * Sorted set commands of the storage layer: internal/storage/querier.go

    A sorted set is stored as rows (key, member) with a score. Scores are
    doubles, kept as their 64-bit patterns and compared as PostgreSQL and Go
    compare them; multiplication and addition of doubles are parameters. The
    abstract sorted set of a key is the map from its live members to their
    scores ([zset_of]), and its order is the list [zmembers]. *)
From stdpp Require Import gmap strings list sorting.
From Stdlib Require Import ZArith Lia Ascii.
From S2P Require Import Prelude GoStd KeyCodec Db StoreMeta StoreStrings StoreBitmaps StoreKeys StoreHash StoreLists StoreSets Glob.
Import Db KeyCodec Meta StringOps KeyOps HashOps.

Module ZSetOps.
Local Open Scope Z_scope.

(** ** Doubles *)

Definition is_nan (s : Z) : bool := 0x7ff0000000000000 <? Z.land s (2 ^ 63 - 1).
Definition is_inf (s : Z) : bool := Z.land s (2 ^ 63 - 1) =? 0x7ff0000000000000.
Definition fone : Z := 0x3ff0000000000000.
(** A number that orders the doubles: patterns are sign and magnitude, the two
    zeros are equal, NaN is above infinity. *)
Definition fkey (s : Z) : Z :=
  if is_nan s then 2 ^ 63 else if s <? 2 ^ 63 then s else - (s - 2 ^ 63).
(** The comparisons of PostgreSQL, for which NaN is an ordinary value, and
    those of Go, for which it is not. *)
Definition pg_le (a b : Z) : bool := fkey a <=? fkey b.
Definition go_lt (a b : Z) : bool := negb (is_nan a) && negb (is_nan b) && (fkey a <? fkey b).
Definition go_le (a b : Z) : bool := negb (is_nan a) && negb (is_nan b) && (fkey a <=? fkey b).
Definition go_eq (a b : Z) : bool := negb (is_nan a) && negb (is_nan b) && (fkey a =? fkey b).

(** ** Rows in order *)

(** [ZMember]: the member and its score. *)
Abbreviation ZMember := (string * Z)%type.
Definition before (a b : ZMember) : Prop :=
  fkey a.2 < fkey b.2 ∨ (fkey a.2 = fkey b.2 ∧ String.le a.1 b.1).
#[export] Instance before_dec a b : Decision (before a b).
Proof. unfold before. apply _. Defined.

Definition zlive (key : string) (now : Z) (t : tables) : list ZMember :=
  omap (λ r : string * (Z * expiry), if live now r.2.2 then Some (r.1, r.2.1) else None) (rows_of key (kv_zsets t)).
(** [SELECT member, score FROM kv_zsets WHERE key = $1 AND (live) ORDER BY
    score ASC, member ASC]; members differ, so that DESC is the reverse. *)
Definition zmembers (asc : bool) (key : string) (now : Z) (t : tables) : list ZMember :=
  let rows := merge_sort before (zlive key now t) in
  if asc then rows else reverse rows.
(** [ORDER BY member ASC|DESC] *)
Definition member_le (a b : ZMember) : Prop := String.le a.1 b.1.
#[export] Instance member_le_dec a b : Decision (member_le a b).
Proof. unfold member_le. apply _. Defined.
Definition zbyname (asc : bool) (key : string) (now : Z) (t : tables) : list ZMember :=
  let rows := merge_sort member_le (zlive key now t) in
  if asc then rows else reverse rows.

Definition out_of_range : goerror := PgError "ERROR" "bigint out of range" "22003".
Definition negative_limit : goerror := PgError "ERROR" "LIMIT must not be negative" "2201W".
Definition negative_offset : goerror := PgError "ERROR" "OFFSET must not be negative" "2201X".

Definition limit_offset {A} (count offset : Z) (l : list A) : result (list A) :=
  if offset <? 0 then Fail negative_offset else Ok (take (Z.to_nat count) (drop (Z.to_nat offset) l)).

(** A query that may fail. *)
Definition select {A} (f : Z → tables → result A) : M A :=
  stmt (λ now t, match f now t with Ok a => Ok (t, a) | Fail er => Fail er end).

(** [DELETE FROM kv_zsets WHERE key = $1 AND <p>] *)
Definition zdelete (key : string) (p : ZMember → bool) (t : tables) : tables * Z :=
  let hit := λ r : (string * string) * (Z * expiry), r.1.1 = key ∧ p (r.1.2, r.2.1) = true in
  (upd_zsets (filter (λ r, ¬ hit r)) t, Z.of_nat (size (filter hit (kv_zsets t)))).
Definition among (l : list string) (m : ZMember) : bool := bool_decide (m.1 ∈ l).
Definition within (min max : Z) (m : ZMember) : bool := pg_le min m.2 && pg_le m.2 max.

(** ** ZADD *)

Record ZAddOptions := MkZAdd { zNX : bool; zXX : bool; zGT : bool; zLT : bool; zCH : bool }.
Definition ZAdd0 : ZAddOptions := MkZAdd false false false false false.

(** Whether an existing member keeps its old score. *)
Definition keeps_score (opts : ZAddOptions) (new old : Z) : bool :=
  zNX opts || (zGT opts && go_le new old) || (zLT opts && go_le old new) || go_eq new old.

Fixpoint zAdd_loop (key : string) (members : list ZMember) (opts : ZAddOptions) (added changed : Z) : M (Z * Z) :=
  match members with
  | [] => mret (added, changed)
  | (m, score) :: members =>
      row ← query (λ _ t, fst <$> kv_zsets t !! (key, m));
      match row with
      | Some oldScore =>
          if keeps_score opts score oldScore then zAdd_loop key members opts added changed
          else exec (λ _, upd_zsets (alter (λ r, (score, r.2)) (key, m)));;
               zAdd_loop key members opts added (changed + 1)
      | None =>
          if zXX opts then zAdd_loop key members opts added changed
          else stmt (λ _ t, if bool_decide (is_Some (kv_zsets t !! (key, m)))
                            then Fail (unique_violation "kv_zsets")
                            else Ok (upd_zsets <[(key, m) := (score, None)]> t, tt));;
               zAdd_loop key members opts (added + 1) changed
      end
  end.

Definition zAdd (key : string) (members : list ZMember) (opts : ZAddOptions) : M Z :=
  let key := encodeKey key in
  keyType ← getKeyType key;
  if bool_decide (keyType ≠ TypeNone) && bool_decide (keyType ≠ TypeZSet) then throw errWrongType
  else if bool_decide (keyType = TypeNone) && zXX opts then mret 0
  else
    setMeta key TypeZSet None;;
    counts ← zAdd_loop key members opts 0 0;
    let '(added, changed) := counts in
    if zCH opts then mret (added + changed) else mret added.

(** ** Ranges *)

(** The bounds CTE of ZRANGE; PostgreSQL evaluates the LIMIT even when the
    WHERE clause lets no row through. *)
Definition zslice (start stop : Z) (rows : list ZMember) : result (list ZMember) :=
  let total := Z.of_nat (length rows) in
  let start_pos := Z.max (if start <? 0 then total + start else start) 0 in
  let stop_pos := Z.min (if stop <? 0 then total + stop else stop) (total - 1) in
  if stop_pos - start_pos <? - 2 ^ 63 then Fail out_of_range
  else Ok (if (0 <? total) && (start_pos <=? stop_pos)
           then take (Z.to_nat (Z.max (stop_pos - start_pos + 1) 0)) (drop (Z.to_nat start_pos) rows)
           else []).

Definition zrange (asc : bool) (key : string) (start stop : Z) : M (list ZMember) :=
  let key := encodeKey key in
  select (λ now t, zslice start stop (zmembers asc key now t)).
Definition zRange := zrange true.
Definition zRevRange := zrange false.

Definition zScore (key member : string) : M (option Z) :=
  let key := encodeKey key in
  query (λ now t, live_row now (kv_zsets t !! (key, member))).

Definition zRem (key : string) (members : list string) : M Z :=
  let key := encodeKey key in
  stmt (λ _ t, Ok (zdelete key (among members) t)).

Definition zCard (key : string) : M Z :=
  let key := encodeKey key in
  query (λ now t, Z.of_nat (length (zlive key now t))).

Definition zrange_score (asc : bool) (key : string) (min max offset count : Z) : M (list ZMember) :=
  let key := encodeKey key in
  select (λ now t,
    let rows := List.filter (within min max) (zmembers asc key now t) in
    if 0 <? count then limit_offset count offset rows else Ok rows).
Definition zRangeByScore := zrange_score true.
Definition zRevRangeByScore := zrange_score false.

Record LexBound := MkLex { Value : string; Inclusive : bool; Infinity : Z }.
Definition lex_lower (b : LexBound) (m : ZMember) : bool :=
  if Infinity b =? -1 then true
  else if Infinity b =? 1 then false
  else if Inclusive b then bool_decide (String.le (Value b) m.1)
  else bool_decide (¬ String.le m.1 (Value b)).
Definition lex_upper (b : LexBound) (m : ZMember) : bool :=
  if Infinity b =? 1 then true
  else if Infinity b =? -1 then false
  else if Inclusive b then bool_decide (String.le m.1 (Value b))
  else bool_decide (¬ String.le (Value b) m.1).
Definition buildLexWhere (min max : LexBound) (m : ZMember) : bool := lex_lower min m && lex_upper max m.

Definition zrange_lex (asc : bool) (key : string) (min max : LexBound) (offset count : Z) : M (list string) :=
  let key := encodeKey key in
  select (λ now t,
    let rows := (List.filter (buildLexWhere min max) (zbyname asc key now t)).*1 in
    if 0 <? count then limit_offset count offset rows
    else if 0 <? offset then Ok (drop (Z.to_nat offset) rows)
    else Ok rows).
Definition zRangeByLex := zrange_lex true.
Definition zRevRangeByLex := zrange_lex false.
Definition zLexCount (key : string) (min max : LexBound) : M Z :=
  let key := encodeKey key in
  query (λ now t, Z.of_nat (length (List.filter (buildLexWhere min max) (zlive key now t)))).
Definition zCount (key : string) (min max : Z) : M Z :=
  let key := encodeKey key in
  query (λ now t, Z.of_nat (length (List.filter (within min max) (zlive key now t)))).

(** [ROW_NUMBER() - 1] of the member in the order. *)
Definition zrank (asc : bool) (key member : string) : M (option Z) :=
  let key := encodeKey key in
  query (λ now t, (λ p : nat * ZMember, Z.of_nat p.1) <$> list_find (λ m, m.1 = member) (zmembers asc key now t)).
Definition zRank := zrank true.
Definition zRevRank := zrank false.

(** ** ZRANGESTORE *)

Inductive ZRangeStoreBy := ZRangeByIndex | ZRangeByScore | ZRangeByLex.
Record ZRangeStoreSpec := MkSpec {
  By : ZRangeStoreBy; Rev : bool; Start : Z; Stop : Z; MinScore : Z; MaxScore : Z;
  MinLex : LexBound; MaxLex : LexBound; Offset : Z; Count : Z
}.
Definition store_source (spec : ZRangeStoreSpec) (src : string) (now : Z) (t : tables) : result (list ZMember) :=
  let limited := λ rows : list ZMember, if 0 <? Count spec then limit_offset (Count spec) (Offset spec) rows else Ok rows in
  match By spec with
  | ZRangeByIndex => zslice (Start spec) (Stop spec) (zmembers (negb (Rev spec)) src now t)
  | ZRangeByScore => limited (List.filter (within (MinScore spec) (MaxScore spec)) (zmembers (negb (Rev spec)) src now t))
  | ZRangeByLex => limited (List.filter (buildLexWhere (MinLex spec) (MaxLex spec)) (zbyname (negb (Rev spec)) src now t))
  end.
(** [INSERT INTO kv_zsets (key, member, score) SELECT ...] *)
Fixpoint insert_zrows (key : string) (rows : list ZMember) (m : gmap (string * string) (Z * expiry)) :
    option (gmap (string * string) (Z * expiry)) :=
  match rows with
  | [] => Some m
  | (x, s) :: rows =>
      match m !! (key, x) with
      | Some _ => None
      | None => insert_zrows key rows (<[(key, x) := (s, None)]> m)
      end
  end.
Definition zRangeStore (dst src : string) (spec : ZRangeStoreSpec) : M Z :=
  let srcEnc := encodeKey src in
  let dstEnc := encodeKey dst in
  deleteKeyFromAllTables dstEnc;;
  n ← stmt (λ now t,
    match store_source spec srcEnc now t with
    | Fail er => Fail er
    | Ok rows => match insert_zrows dstEnc rows (kv_zsets t) with
                 | Some m => Ok (upd_zsets (λ _, m) t, Z.of_nat (length rows))
                 | None => Fail (unique_violation "kv_zsets")
                 end
    end);
  (if 0 <? n then setMeta dstEnc TypeZSet None else mret tt);;
  mret n.

(** ** Removing *)

Definition zRemRangeByScore (key : string) (min max : Z) : M Z :=
  let key := encodeKey key in
  stmt (λ _ t, Ok (zdelete key (within min max) t)).

Definition zRemRangeByRank (key : string) (start stop : Z) : M Z :=
  let key := encodeKey key in
  lockKey key;;
  count ← query (λ now t, Z.of_nat (length (zlive key now t)));
  let '(start, stop) := ListOps.list_bounds count start stop in
  if (stop <? start) || (count <=? start) then mret 0
  else stmt (λ now t,
    let doomed := take (Z.to_nat (stop - start + 1)) (drop (Z.to_nat start) (zmembers true key now t)) in
    Ok (zdelete key (among doomed.*1) t)).

Definition zpop (asc : bool) (key : string) (count : Z) : M (list ZMember) :=
  let key := encodeKey key in
  members ← select (λ now t, if count <? 0 then Fail negative_limit
                             else Ok (take (Z.to_nat count) (zmembers asc key now t)));
  match members with
  | [] => mret []
  | _ => exec (λ _ t, (zdelete key (among members.*1) t).1);; mret members
  end.
Definition zPopMin := zpop true.
Definition zPopMax := zpop false.

(** The first key with a live member, and up to [count] of its members. *)
Definition zwinner (keys : list string) (now : Z) (t : tables) : option string :=
  list_find (λ k, zlive k now t ≠ []) keys ≫= λ p, Some p.2.
Definition zMPop (asc : bool) (keys : list string) (count : Z) : M (option (string * list ZMember)) :=
  if bool_decide (keys = []) || (count <=? 0) then mret None
  else
    let encoded := encodeKeys keys in
    row ← stmt (λ now t,
      match zwinner encoded now t with
      | None => Ok (t, None)
      | Some k =>
          let target := take (Z.to_nat count) (zmembers asc k now t) in
          Ok ((zdelete k (among target.*1) t).1, Some (k, target))
      end);
    mret match row with
         | Some (k, (_ :: _) as members) => Some (decodeKey k, members)
         | _ => None
         end.
Definition zMPopMin := zMPop true.
Definition zMPopMax := zMPop false.

(** ** ZSCAN *)

Definition zScan (key : string) (cursor : Z) (pattern : string) (count : Z) : M (Z * list ZMember) :=
  let key := encodeKey key in
  rows ← query (zmembers true key);
  let all := List.filter (λ m : ZMember,
    if negb (bool_decide (pattern = "")) && negb (bool_decide (pattern = "*")) then Glob.matchGlob pattern m.1 else true) rows in
  let total := Z.of_nat (length all) in
  if total <=? cursor then mret (0, [])
  else
    let end_ := wrap64 (cursor + count) in
    let end_ := if total <? end_ then total else end_ in
    if (cursor <? 0) || (end_ <? cursor) then throw (panic "slice bounds out of range")
    else mret (if total <=? end_ then 0 else end_, take (Z.to_nat (end_ - cursor)) (drop (Z.to_nat cursor) all)).

(** ** Arithmetic on scores *)

(** Addition, multiplication and zero of doubles, and the order in which a
    range loop visits a map of scores. *)
Record score_ops := ScoreOps {
  s_add : Z → Z → Z; s_mul : Z → Z → Z; s_zero : Z;
  range_scores : gmap string (list Z) → list (string * list Z)
}.

Section Arithmetic.
Context (F : score_ops).

(** float8 addition in PostgreSQL refuses to overflow. *)
Definition float_overflow : goerror := PgError "ERROR" "value out of range: overflow" "22003".
Definition pg_add (a b : Z) : result Z :=
  let c := s_add F a b in
  if is_inf c && negb (is_inf a) && negb (is_inf b) then Fail float_overflow else Ok c.

Definition zIncrBy (key : string) (increment : Z) (member : string) : M Z :=
  let key := encodeKey key in
  lockKey key;;
  exec (λ _, upd_meta (λ m, match m !! key with Some _ => m | None => <[key := (TypeZSet, None)]> m end));;
  stmt (λ _ t,
    match kv_zsets t !! (key, member) with
    | None => Ok (upd_zsets <[(key, member) := (increment, None)]> t, increment)
    | Some (score, x) => match pg_add score increment with
                         | Ok new => Ok (upd_zsets <[(key, member) := (new, x)]> t, new)
                         | Fail er => Fail er
                         end
    end).

(** [memberScores[m] = append(memberScores[m], score * weight)] *)
Definition push_score (weight : Z) (scores : gmap string (list Z)) (m : ZMember) : gmap string (list Z) :=
  <[m.1 := default [] (scores !! m.1) ++ [s_mul F m.2 weight]]> scores.

(** [weights[i]] panics when there are too few of them. *)
Fixpoint union_loop (keys : list string) (weights : list Z) (scores : gmap string (list Z)) : M (gmap string (list Z)) :=
  match keys with
  | [] => mret scores
  | key :: keys =>
      match weights with
      | [] => throw (panic "index out of range")
      | weight :: weights =>
          members ← zRange key 0 (-1);
          union_loop keys weights (foldl (push_score weight) scores members)
      end
  end.

(** One round of the intersection: a member that the set lacks is dropped. *)
Definition set_members (members : list ZMember) : gmap string Z := list_to_map (reverse members).
Definition meet_scores (weight : Z) (setMembers : gmap string Z) (scores : gmap string (list Z)) : gmap string (list Z) :=
  map_imap (λ m l, match setMembers !! m with Some s => Some (l ++ [s_mul F s weight]) | None => None end) scores.
Fixpoint inter_loop (keys : list string) (weights : list Z) (scores : gmap string (list Z)) : M (gmap string (list Z)) :=
  match keys with
  | [] => mret scores
  | key :: keys =>
      members ← zRange key 0 (-1);
      let setMembers := set_members members in
      match weights with
      | [] => if bool_decide (dom scores ∩ dom setMembers = ∅) then inter_loop keys [] ∅
              else throw (panic "index out of range")
      | weight :: weights => inter_loop keys weights (meet_scores weight setMembers scores)
      end
  end.

Definition aggregate_scores (aggregate : string) (scores : list Z) : Z :=
  let how := Strings.ToUpper aggregate in
  if bool_decide (how = "MIN") then
    match scores with [] => s_zero F | s :: scores => foldl (λ best s, if go_lt s best then s else best) s scores end
  else if bool_decide (how = "MAX") then
    match scores with [] => s_zero F | s :: scores => foldl (λ best s, if go_lt best s then s else best) s scores end
  else foldl (s_add F) (s_zero F) scores.

(** The end of the two STORE commands: clear the destination, then ZADD. *)
Definition store_scores (destination aggregate : string) (scores : gmap string (list Z)) : M Z :=
  deleteKeyFromAllTables destination;;
  if bool_decide (scores = ∅) then mret 0
  else zAdd destination ((λ p : string * list Z, (p.1, aggregate_scores aggregate p.2)) <$> range_scores F scores) ZAdd0.

Definition weights_or_one (keys : list string) (weights : list Z) : list Z :=
  match weights with [] => replicate (length keys) fone | _ => weights end.

Definition zUnionStore (destination : string) (keys : list string) (weights : list Z) (aggregate : string) : M Z :=
  let destination := encodeKey destination in
  let keys := encodeKeys keys in
  scores ← union_loop keys (weights_or_one keys weights) ∅;
  store_scores destination aggregate scores.

Definition zInterStore (destination : string) (keys : list string) (weights : list Z) (aggregate : string) : M Z :=
  let destination := encodeKey destination in
  let keys := encodeKeys keys in
  match keys with
  | [] => mret 0
  | key :: rest =>
      firstMembers ← zRange key 0 (-1);
      match weights_or_one keys weights with
      | [] => throw (panic "index out of range")
      | weight :: weights =>
          scores ← inter_loop rest weights (foldl (push_score weight) ∅ firstMembers);
          store_scores destination aggregate scores
      end
  end.

End Arithmetic.

(** ** The abstract sorted set *)

Definition zset_of (key : string) (now : Z) (t : tables) : gmap string Z := list_to_map (zlive key now t).

Lemma elem_of_zlive key now t m s :
  (m, s) ∈ zlive key now t ↔ ∃ x, kv_zsets t !! (key, m) = Some (s, x) ∧ live now x = true.
Proof.
  unfold zlive. rewrite list_elem_of_omap. split.
  - intros ([m' [s' x]] & Hin & E). cbn in E. destruct (live now x) eqn:Hl; [|done]. injection E as -> ->.
    exists x. split; [|done]. by apply elem_of_rows_of in Hin.
  - intros (x & Hm & Hl). exists (m, (s, x)). split; [by apply elem_of_rows_of|]. cbn. by rewrite Hl.
Qed.
Lemma zlive_NoDup key now t : NoDup (zlive key now t).*1.
Proof.
  unfold zlive. pose proof (rows_of_NoDup key (kv_zsets t)) as H.
  induction (rows_of key (kv_zsets t)) as [|[m [s x]] rows IH]; cbn; [constructor|].
  cbn in H. apply NoDup_cons in H as [Hm H]. destruct (live now x); [|by apply IH]. cbn.
  constructor; [|by apply IH]. rewrite list_elem_of_fmap. intros ([m' s'] & -> & Hin). apply Hm.
  apply list_elem_of_omap in Hin as ([m2 [s2 x2]] & Hin & E). cbn in E. destruct (live now x2); [|done].
  injection E as -> ->. by apply (list_elem_of_fmap_2 fst _ _ Hin).
Qed.
Lemma zset_of_lookup key now t m : zset_of key now t !! m = live_row now (kv_zsets t !! (key, m)).
Proof.
  apply option_eq. intros s. unfold zset_of. rewrite <-elem_of_list_to_map by apply zlive_NoDup. rewrite elem_of_zlive.
  unfold live_row. destruct (kv_zsets t !! (key, m)) as [[s' x]|]; [|by split; [intros (? & ? & ?)|]].
  split; [intros (y & [= -> ->] & ->); done|]. destruct (live now x) eqn:El; [|done]. intros [= ->]. by exists x.
Qed.

#[export] Instance before_trans : Transitive before.
Proof.
  intros a b c [H1|[E1 H1]] [H2|[E2 H2]]; unfold before; [left; lia|left; lia|left; lia|right]. split; [lia|by etrans].
Qed.
#[export] Instance before_total : Total before.
Proof.
  intros a b. unfold before. destruct (Z.lt_trichotomy (fkey a.2) (fkey b.2)) as [H|[H|H]]; [by left; left| |by right; left].
  destruct (total String.le a.1 b.1); [left; right|right; right]; split; congruence.
Qed.

Lemma zmembers_Permutation asc key now t : zmembers asc key now t ≡ₚ zlive key now t.
Proof. unfold zmembers. destruct asc; rewrite ?reverse_Permutation; apply merge_sort_Permutation. Qed.
Lemma zmembers_sorted key now t : StronglySorted before (zmembers true key now t).
Proof. apply (StronglySorted_merge_sort _). Qed.
Lemma zmembers_zset asc key now t : zmembers asc key now t ≡ₚ map_to_list (zset_of key now t).
Proof.
  rewrite zmembers_Permutation. unfold zset_of. symmetry. apply map_to_list_to_map, zlive_NoDup.
Qed.
Lemma zmembers_NoDup asc key now t : NoDup (zmembers asc key now t).*1.
Proof. rewrite zmembers_Permutation. apply zlive_NoDup. Qed.
Lemma zlive_size key now t : length (zlive key now t) = size (zset_of key now t).
Proof. rewrite <-length_map_to_list, <-(zmembers_zset true), zmembers_Permutation. done. Qed.
Lemma zmembers_rev key now t : zmembers false key now t = reverse (zmembers true key now t).
Proof. done. Qed.
Lemma zmembers_length asc key now t : length (zmembers asc key now t) = size (zset_of key now t).
Proof. by rewrite zmembers_Permutation, zlive_size. Qed.

(** *** Deleting rows *)

Lemma zdelete_lookup key p t k m :
  kv_zsets (zdelete key p t).1 !! (k, m) =
    match kv_zsets t !! (k, m) with
    | Some (s, x) => if bool_decide (k = key) && p (m, s) then None else Some (s, x)
    | None => None
    end.
Proof.
  unfold zdelete. cbn [fst kv_zsets upd_zsets]. rewrite map_lookup_filter. destruct (kv_zsets t !! (k, m)) as [[s x]|]; [|done].
  cbn. case_guard as Hg; cbn in Hg; case_bool_decide as Hk; destruct (p (m, s)) eqn:Ep; cbn; try done; naive_solver.
Qed.
Lemma zdelete_zset key p now t :
  zset_of key now (zdelete key p t).1 = filter (λ m : ZMember, p m = false) (zset_of key now t).
Proof.
  apply map_eq. intros m. rewrite map_lookup_filter, !zset_of_lookup, zdelete_lookup. rewrite bool_decide_true by done. cbn [andb].
  destruct (kv_zsets t !! (key, m)) as [[s x]|]; [|done]. destruct (p (m, s)) eqn:Ep; cbn [live_row]; destruct (live now x); cbn; try done;
    case_guard; cbn in *; congruence.
Qed.
Lemma frame_zdelete key p t : frame [key] t (zdelete key p t).1.
Proof.
  apply frame_upd_zsets. intros k m Hk. pose proof (zdelete_lookup key p t k m) as H. unfold zdelete in H. cbn in H. rewrite H.
  destruct (kv_zsets t !! (k, m)) as [[s x]|]; [|done]. by rewrite bool_decide_false.
Qed.
(** The members of [l] are gone, [l] being part of the set. *)
Lemma zdelete_among key now t (l : list ZMember) :
  (∀ m, m ∈ l → m ∈ zlive key now t) →
  zset_of key now (zdelete key (among l.*1) t).1 = zset_of key now t ∖ list_to_map l.
Proof.
  intros Hl. rewrite zdelete_zset. apply map_eq. intros m. rewrite map_lookup_filter, lookup_difference.
  unfold among. destruct (zset_of key now t !! m) as [s|] eqn:E; cbn; [|by repeat case_match].
  destruct (decide (m ∈ l.*1)) as [Hm|Hm].
  - rewrite bool_decide_true by done. destruct (list_to_map l !! m) eqn:El; [done|].
    by apply not_elem_of_list_to_map_2 in El.
  - rewrite bool_decide_false by done. by rewrite not_elem_of_list_to_map_1.
Qed.

(** *** How the operations run *)

Definition part (lo hi : Z) (l : list ZMember) : list ZMember :=
  take (Z.to_nat (hi - lo + 1)) (drop (Z.to_nat lo) l).

Section Runs.
Context (now gonow : Z).
Local Abbreviation runs := (runs now gonow).

Lemma runs_select {A} (f : Z → tables → result A) t : runs (select f) t t (f now t).
Proof.
  unfold select. destruct (f now t) as [a|er] eqn:E; [apply runs_stmt|apply runs_stmt_fail]; by rewrite E.
Qed.

Lemma zslice_part start stop l :
  start < 2 ^ 62 → - 2 ^ 62 < stop → Z.of_nat (length l) < 2 ^ 62 →
  let n := Z.of_nat (length l) in
  zslice start stop l = Ok (part (Z.max 0 (from_end n start)) (Z.min (n - 1) (from_end n stop)) l).
Proof.
  intros H1 H2 H3 n. unfold zslice. fold n. fold (from_end n start) (from_end n stop).
  rewrite (Z.max_comm _ 0), (Z.min_comm _ (n - 1)). set (lo := Z.max 0 _). set (hi := Z.min _ _).
  assert (0 <= lo) by lia. assert (lo < 2 ^ 62) by (unfold lo, from_end; case_match; lia).
  assert (- 2 ^ 62 <= hi) by (unfold hi, from_end; case_match; lia).
  rewrite (proj2 (Z.ltb_ge _ _)) by lia. f_equal. unfold part.
  destruct (0 <? n) eqn:En; cbn [andb]; [destruct (lo <=? hi) eqn:El|].
  - f_equal. lia.
  - by replace (Z.to_nat (hi - lo + 1)) with 0%nat by lia.
  - assert (hi < 0) by lia. by replace (Z.to_nat (hi - lo + 1)) with 0%nat by lia.
Qed.

Lemma zrank_none asc enc t member :
  zset_of enc now t !! member = None → list_find (λ m : ZMember, m.1 = member) (zmembers asc enc now t) = None.
Proof.
  intros H. apply list_find_None, Forall_forall. intros [m s] Hin Hm. cbn in Hm. subst m.
  rewrite zmembers_zset in Hin. apply elem_of_map_to_list in Hin. congruence.
Qed.
(** A member has one position. *)
Lemma zrank_unique asc enc t i s member :
  zmembers asc enc now t !! i = Some (member, s) →
  list_find (λ m : ZMember, m.1 = member) (zmembers asc enc now t) = Some (i, (member, s)).
Proof.
  intros Hi. apply list_find_Some. split_and!; [done|done|]. intros j [m' s'] Hj Hlt Hm. cbn in Hm. subst m'.
  pose proof (zmembers_NoDup asc enc now t) as Hnd. assert (i = j); [|lia].
  eapply (NoDup_lookup _ i j member Hnd); rewrite list_lookup_fmap; [by rewrite Hi|by rewrite Hj].
Qed.

End Runs.

(** C38. The order of a sorted set. There is one list of its members with
    their scores, ascending by score and, where scores are equal, bytewise by
    member; ZRANGE answers the part of it between two positions, counted from
    the end when negative, and ZREVRANGE of its reverse; ZRANK is the position
    of a member in it and ZREVRANK the one in the reverse; ZSCORE is the
    member's score and ZCARD the length. *)
Theorem zset_order_correct now gonow key member start stop t :
  let enc := encodeKey key in
  let l := zmembers true enc now t in
  let n := Z.of_nat (length l) in
  let lo := Z.max 0 (from_end n start) in
  let hi := Z.min (n - 1) (from_end n stop) in
  start < 2 ^ 62 → - 2 ^ 62 < stop → n < 2 ^ 62 →
  StronglySorted before l ∧ l ≡ₚ map_to_list (zset_of enc now t) ∧
  runs now gonow (zRange key start stop) t t (Ok (part lo hi l)) ∧
  runs now gonow (zRevRange key start stop) t t (Ok (part lo hi (reverse l))) ∧
  runs now gonow (zScore key member) t t (Ok (zset_of enc now t !! member)) ∧
  runs now gonow (zCard key) t t (Ok n) ∧
  match zset_of enc now t !! member with
  | None => runs now gonow (zRank key member) t t (Ok None) ∧ runs now gonow (zRevRank key member) t t (Ok None)
  | Some s => ∃ i : nat, l !! i = Some (member, s) ∧
      runs now gonow (zRank key member) t t (Ok (Some (Z.of_nat i))) ∧
      runs now gonow (zRevRank key member) t t (Ok (Some (n - 1 - Z.of_nat i)))
  end.
Proof.
  intros enc l n lo hi H1 H2 H3. split_and!.
  - apply zmembers_sorted.
  - apply zmembers_zset.
  - unfold zRange, zrange. eapply runs_eq; [apply runs_select|done|]. by apply zslice_part.
  - unfold zRevRange, zrange. eapply runs_eq; [apply runs_select|done|]. fold enc. rewrite zmembers_rev. fold l.
    unfold lo, hi, n. rewrite <-(length_reverse l). apply zslice_part; rewrite ?length_reverse; done.
  - unfold zScore. fold enc. rewrite zset_of_lookup. exact (runs_query now gonow _ t).
  - unfold zCard. fold enc. eapply runs_eq; [apply runs_query|done|]. cbv beta.
    by rewrite zlive_size, <-(zmembers_length true).
  - unfold zRank, zRevRank, zrank. fold enc.
    destruct (zset_of enc now t !! member) as [s|] eqn:Es.
    + assert ((member, s) ∈ l) as Hin by (unfold l; rewrite zmembers_zset; by apply elem_of_map_to_list).
      apply list_elem_of_lookup in Hin as [i Hi]. exists i. split; [done|].
      assert (i < length l)%nat as Hlt by (by apply lookup_lt_Some in Hi). split; (eapply runs_eq; [apply runs_query|done|]); cbv beta.
      * by rewrite (zrank_unique now true enc t i s member).
      * rewrite (zrank_unique now false enc t (length l - S i) s member); [cbn [fmap option_fmap option_map fst]; do 2 f_equal; unfold n; lia|].
        rewrite zmembers_rev. fold l. rewrite reverse_lookup by lia. by replace (length l - S (length l - S i))%nat with i by lia.
    + split; (eapply runs_eq; [apply runs_query|done|]); cbv beta; by rewrite zrank_none.
Qed.

(** ** ZADD *)

(** Whether a member that has the score [old] is given the score [new]: never
    with NX; otherwise when the two are different numbers and the new one is
    the greater with GT and the smaller with LT (NaN is neither, and is not
    refused). *)
Definition takes (opts : ZAddOptions) (old new : Z) : Prop :=
  zNX opts = false ∧
  (is_nan old = true ∨ is_nan new = true ∨
   fkey new ≠ fkey old ∧ (zGT opts = true → fkey old < fkey new) ∧ (zLT opts = true → fkey new < fkey old)).
#[export] Instance takes_dec opts old new : Decision (takes opts old new).
Proof. unfold takes. apply _. Defined.
Lemma keeps_score_takes opts old new : keeps_score opts new old = negb (bool_decide (takes opts old new)).
Proof.
  unfold keeps_score, go_le, go_eq. case_bool_decide as H; unfold takes in H;
    destruct (zNX opts), (zGT opts), (zLT opts), (is_nan old), (is_nan new); cbn in *; try done; try (exfalso; tauto);
    destruct (Z.leb_spec (fkey new) (fkey old)), (Z.leb_spec (fkey old) (fkey new)), (Z.eqb_spec (fkey new) (fkey old));
    cbn; try done; exfalso; naive_solver lia.
Qed.

(** One member against the abstract sorted set, with the counts of added and
    of changed members: a member that is there takes the new score or keeps
    the old one, a new member is added unless XX is given. *)
Definition zadd1 (opts : ZAddOptions) (acc : gmap string Z * (Z * Z)) (m : ZMember) : gmap string Z * (Z * Z) :=
  let '(z, (added, changed)) := acc in
  match z !! m.1 with
  | Some old => if bool_decide (takes opts old m.2) then (<[m.1 := m.2]> z, (added, changed + 1)) else acc
  | None => if zXX opts then acc else (<[m.1 := m.2]> z, (added + 1, changed))
  end.
Definition zadd_spec (opts : ZAddOptions) (l : list ZMember) (z : gmap string Z) : gmap string Z * (Z * Z) :=
  foldl (zadd1 opts) (z, (0, 0)) l.

(** No expired row of the key is waiting for the sweep. *)
Definition all_live (key : string) (now : Z) (t : tables) : Prop :=
  ∀ m s x, kv_zsets t !! (key, m) = Some (s, x) → live now x = true.
Lemma all_live_lookup key now t m :
  all_live key now t → fst <$> kv_zsets t !! (key, m) = zset_of key now t !! m.
Proof.
  intros H. rewrite zset_of_lookup. destruct (kv_zsets t !! (key, m)) as [[s x]|] eqn:E; [|done]. cbn. by rewrite (H _ _ _ E).
Qed.
(** Writing one live row. *)
Lemma zset_of_write key now m s x t :
  live now x = true →
  zset_of key now (upd_zsets <[(key, m) := (s, x)]> t) = <[m := s]> (zset_of key now t).
Proof.
  intros Hx. apply map_eq. intros m'. rewrite zset_of_lookup. cbn. destruct (decide (m = m')) as [->|].
  - rewrite !lookup_insert_eq. cbn. by rewrite Hx.
  - rewrite !lookup_insert_ne by congruence. by rewrite zset_of_lookup.
Qed.
Lemma all_live_write key now m s x t :
  live now x = true → all_live key now t → all_live key now (upd_zsets <[(key, m) := (s, x)]> t).
Proof. intros Hx H m' s' x'. cbn. intros [[_ [= <- <-]]|[_ ?]]%lookup_insert_Some; [done|by eapply H]. Qed.
Lemma frame_write key m r t : frame [key] t (upd_zsets <[(key, m) := r]> t).
Proof. apply frame_upd_zsets. intros k b Hk. by rewrite lookup_insert_ne by congruence. Qed.
Lemma zset_of_other K now t t' key : frame K t t' → key ∉ K → zset_of key now t' = zset_of key now t.
Proof.
  intros Hf Hk. apply map_eq. intros m. rewrite !zset_of_lookup. destruct (Hf key Hk) as (_ & _ & _ & _ & _ & Hz & _).
  by rewrite Hz.
Qed.

Lemma runs_zAdd_loop now gonow key l opts a c t :
  all_live key now t →
  ∃ t', runs now gonow (zAdd_loop key l opts a c) t t' (Ok (foldl (zadd1 opts) (zset_of key now t, (a, c)) l).2) ∧
        zset_of key now t' = (foldl (zadd1 opts) (zset_of key now t, (a, c)) l).1 ∧ all_live key now t' ∧ frame [key] t t' ∧ kv_meta t' = kv_meta t.
Proof.
  revert a c t. induction l as [|[m s] l IH]; intros a c t Hl; cbn [zAdd_loop foldl].
  { exists t. split_and!; [apply runs_ret|done..]. }
  assert (∀ a c x, live now x = true → ∃ t',
    runs now gonow (zAdd_loop key l opts a c) (upd_zsets <[(key, m) := (s, x)]> t) t'
      (Ok (foldl (zadd1 opts) (<[m := s]> (zset_of key now t), (a, c)) l).2) ∧
    zset_of key now t' = (foldl (zadd1 opts) (<[m := s]> (zset_of key now t), (a, c)) l).1 ∧ all_live key now t' ∧ frame [key] t t' ∧ kv_meta t' = kv_meta t) as Hw.
  { intros a' c' x Hx. destruct (IH a' c' (upd_zsets <[(key, m) := (s, x)]> t)) as (t' & Hr & Hz & Hl' & Hf & Hm);
      [by apply all_live_write|]. rewrite zset_of_write in Hr, Hz by done. exists t'. split_and!; try done.
    eapply frame_trans; [apply frame_write|done]. }
  cbn [zadd1]. cbn [fst snd]. pose proof (all_live_lookup key now t m Hl) as Hm.
  destruct (kv_zsets t !! (key, m)) as [[old x]|] eqn:E; cbn in Hm; rewrite <-Hm.
  - pose proof (keeps_score_takes opts old s) as Ek. destruct (bool_decide (takes opts old s)); cbn [negb] in Ek.
    2:{ destruct (IH a c t Hl) as (t' & Hr & ?). exists t'. split; [|done]. step. rewrite E. cbn. by rewrite Ek. }
    + destruct (Hw a (c + 1) x) as (t' & Hr & ?); [by eapply Hl|]. exists t'. split; [|done]. step. rewrite E. cbn. rewrite Ek.
      eapply runs_bind; [apply runs_exec|].
      replace (upd_zsets (alter _ _) t) with (upd_zsets <[(key, m) := (s, x)]> t); [done|].
      unfold upd_zsets. f_equal. symmetry. apply map_eq. intros k. destruct (decide (k = (key, m))) as [->|].
      * by rewrite lookup_alter_eq, E, lookup_insert_eq.
      * by rewrite lookup_alter_ne, lookup_insert_ne.
  - destruct (zXX opts) eqn:Ex.
    + destruct (IH a c t Hl) as (t' & Hr & ?). exists t'. split; [|done]. step. rewrite E. cbn. done.
    + destruct (Hw (a + 1) c None eq_refl) as (t' & Hr & ?). exists t'. split; [|done]. step. rewrite E. cbn.
      eapply runs_bind; [apply runs_stmt; rewrite bool_decide_false; [done|rewrite E; by intros []]|]. done.
Qed.

(** C39. ZADD on every branch. On a key of another type it is WRONGTYPE and
    changes nothing, and with XX a missing key is not created. Otherwise the
    members are taken one after the other: one that is new is added unless XX
    is given, one that is there takes the new score exactly when NX is not
    given, the score is another number, and it is greater with GT and smaller
    with LT; the answer counts the added members or, with
    CH, the added and the changed ones. The key is a sorted set without expiry
    afterwards, and no other key changes. No row of the key has expired
    unswept ([all_live]; see [zAdd_expired_row_lost]). *)
Theorem zAdd_correct now gonow key l opts t :
  let enc := encodeKey key in
  all_live enc now t →
  let '(z, (added, changed)) := zadd_spec opts l (zset_of enc now t) in
  if negb (type_ok now TypeZSet enc t) then runs now gonow (zAdd key l opts) t t (Fail errWrongType)
  else if zXX opts && bool_decide (default TypeNone (meta_type enc now t) = TypeNone)
  then runs now gonow (zAdd key l opts) t t (Ok 0)
  else ∃ t', runs now gonow (zAdd key l opts) t t' (Ok (if zCH opts then added + changed else added)) ∧
             zset_of enc now t' = z ∧ kv_meta t' !! enc = Some (TypeZSet, None) ∧ frame [enc] t t'.
Proof.
  intros enc Hl. destruct (zadd_spec opts l (zset_of enc now t)) as [z [added changed]] eqn:Es.
  unfold zAdd. fold enc. pose proof (runs_getKeyType now gonow enc t) as Ht.
  unfold type_ok. cbv zeta. set (kt := default TypeNone (meta_type enc now t)) in *.
  destruct (bool_decide (kt = TypeNone) || bool_decide (kt = TypeZSet)) eqn:Eok; cbn [negb].
  2:{ eapply runs_bind; [exact Ht|]. cbv beta. rewrite !bool_decide_not, <-negb_orb, Eok. cbn. apply runs_throw. }
  destruct (zXX opts && bool_decide (kt = TypeNone)) eqn:Ex.
  { eapply runs_bind; [exact Ht|]. cbv beta. rewrite !bool_decide_not, <-negb_orb, Eok. cbn [negb].
    rewrite andb_comm, Ex. apply runs_ret. }
  destruct (runs_zAdd_loop now gonow enc l opts 0 0 (upd_meta <[enc := (TypeZSet, None)]> t)) as (t' & Hr & Hz & _ & Hf & Hmeta); [done|].
  change (zset_of enc now (upd_meta _ t)) with (zset_of enc now t) in Hr, Hz.
  fold (zadd_spec opts l (zset_of enc now t)) in Hr, Hz. rewrite Es in Hr, Hz. cbn [fst snd] in Hr, Hz.
  exists t'. split_and!; [|done| |].
  - eapply runs_bind; [exact Ht|]. cbv beta. rewrite !bool_decide_not, <-negb_orb, Eok. cbn [negb]. rewrite andb_comm, Ex.
    eapply runs_bind; [apply runs_setMeta|]. eapply runs_bind; [exact Hr|]. cbv beta iota. destruct (zCH opts); apply runs_ret.
  - rewrite Hmeta. cbn. by rewrite lookup_insert_eq.
  - eapply frame_trans; [apply frame_insert_meta|done].
Qed.

(** ** Removing members *)

(** How many rows a DELETE takes, when none is expired. *)
Lemma zdelete_count key p now t :
  all_live key now t →
  (zdelete key p t).2 = Z.of_nat (size (filter (λ m : ZMember, p m = true) (zset_of key now t))).
Proof.
  intros Hl. unfold zdelete. cbn [snd]. f_equal. set (fm := filter _ (kv_zsets t)). set (fz := filter _ (zset_of key now t)).
  rewrite <-!length_map_to_list, <-(length_fmap fst), <-(length_fmap (λ m : ZMember, (key, m.1)) (map_to_list fz)).
  apply Permutation_length, NoDup_Permutation.
  - apply NoDup_fst_map_to_list.
  - change (λ m : ZMember, (key, m.1)) with (pair key ∘ fst : ZMember → string * string).
    rewrite list_fmap_compose. apply NoDup_fmap_2; [apply _|]. apply NoDup_fst_map_to_list.
  - intros [k m]. rewrite !list_elem_of_fmap. split.
    + intros ([[k' m'] [s x]] & [= -> ->] & Hin). apply elem_of_map_to_list in Hin. unfold fm in Hin.
      apply map_lookup_filter_Some in Hin as [Hm [Hk Hp]]. cbn in Hk, Hp. subst k'. exists (m', s). split; [done|].
      apply elem_of_map_to_list, map_lookup_filter_Some. split; [|done]. rewrite zset_of_lookup, Hm. cbn. by rewrite (Hl _ _ _ Hm).
    + intros ([m' s] & [= -> ->] & Hin). apply elem_of_map_to_list, map_lookup_filter_Some in Hin as [Hm Hp].
      rewrite zset_of_lookup in Hm. destruct (kv_zsets t !! (key, m')) as [[s' x]|] eqn:E; [|done]. cbn in Hm.
      destruct (live now x); [|done]. injection Hm as ->. exists (key, m', (s, x)). split; [done|].
      apply elem_of_map_to_list, map_lookup_filter_Some. done.
Qed.

Lemma zmembers_zlive asc key now t m : m ∈ zmembers asc key now t → m ∈ zlive key now t.
Proof. by rewrite zmembers_Permutation. Qed.

Lemma runs_zpop now gonow asc key count t :
  0 <= count →
  let enc := encodeKey key in
  let l := take (Z.to_nat count) (zmembers asc enc now t) in
  ∃ t', runs now gonow (zpop asc key count) t t' (Ok l) ∧ zset_of enc now t' = zset_of enc now t ∖ list_to_map l ∧
        frame [enc] t t'.
Proof.
  intros Hc enc l.
  assert (∀ m, m ∈ l → m ∈ zlive enc now t) as Hl.
  { intros m Hm. apply (zmembers_zlive asc). apply elem_of_take in Hm as (i & Hi & _). by eapply list_elem_of_lookup_2. }
  exists (match l with [] => t | _ => (zdelete enc (among l.*1) t).1 end). split_and!.
  - unfold zpop. fold enc. eapply runs_bind; [eapply runs_eq; [apply runs_select|done|]|].
    { cbv beta. rewrite (proj2 (Z.ltb_ge _ _)) by lia. fold l. reflexivity. }
    destruct l; [apply runs_ret|]. eapply runs_bind; [apply runs_exec|]. apply runs_ret.
  - destruct l eqn:El; [cbn; by rewrite map_difference_empty|]. rewrite <-El in *. by apply zdelete_among.
  - destruct l; [done|apply frame_zdelete].
Qed.

Lemma among_part key now t (l : list ZMember) :
  (∀ m, m ∈ l → m ∈ zlive key now t) → NoDup l.*1 →
  filter (λ m : ZMember, among l.*1 m = true) (zset_of key now t) = list_to_map l.
Proof.
  intros Hl Hnd. apply map_eq. intros m. apply option_eq. intros s. rewrite map_lookup_filter_Some.
  rewrite <-elem_of_list_to_map by done. unfold among. cbn [fst]. rewrite bool_decide_eq_true. split.
  - intros [Hm Hin]. apply list_elem_of_fmap in Hin as ([m' s'] & -> & Hin). pose proof (Hl _ Hin) as Hz.
    unfold zset_of in Hm. rewrite <-elem_of_list_to_map in Hm by apply zlive_NoDup. cbn in Hm.
    assert (s' = s) as ->; [|done]. apply elem_of_zlive in Hz as (x & E & _). apply elem_of_zlive in Hm as (y & E' & _). congruence.
  - intros Hin. split; [|apply list_elem_of_fmap; by exists (m, s)]. unfold zset_of.
    rewrite <-elem_of_list_to_map by apply zlive_NoDup. by apply Hl.
Qed.
Lemma part_sub lo hi l m : m ∈ part lo hi l → m ∈ l.
Proof.
  unfold part. intros (i & Hi & _)%elem_of_take. rewrite lookup_drop in Hi. by eapply list_elem_of_lookup_2.
Qed.
Lemma part_NoDup lo hi l : NoDup l.*1 → NoDup (part lo hi l).*1.
Proof.
  intros H. unfold part. rewrite fmap_take, fmap_drop. eapply sublist_NoDup; [exact H|].
  etrans; [apply sublist_take|apply sublist_drop].
Qed.

(** The tests of ZREMRANGEBYRANK leave an empty part alone. *)
Lemma part_empty lo hi l : hi < lo ∨ Z.of_nat (length l) <= lo → part lo hi l = [].
Proof.
  unfold part. intros [H|H]; [by replace (Z.to_nat (hi - lo + 1)) with 0%nat by lia|]. rewrite drop_ge by lia. apply take_nil.
Qed.
Lemma runs_zRemRangeByRank now gonow key start stop t :
  let enc := encodeKey key in
  let l := zmembers true enc now t in
  let n := Z.of_nat (length l) in
  let ranked := part (Z.max 0 (from_end n start)) (Z.min (n - 1) (from_end n stop)) l in
  all_live enc now t → int64 start → int64 stop → n < 2 ^ 63 →
  ∃ t', runs now gonow (zRemRangeByRank key start stop) t t' (Ok (Z.of_nat (length ranked))) ∧
        zset_of enc now t' = zset_of enc now t ∖ list_to_map ranked ∧ frame [enc] t t'.
Proof.
  intros enc l n ranked Hl Hs1 Hs2 Hn.
  assert (∀ m, m ∈ ranked → m ∈ zlive enc now t) as Hr by (intros m Hm; by eapply (zmembers_zlive true), part_sub).
  set (lo := Z.max 0 (from_end n start)) in *. set (hi := Z.min (n - 1) (from_end n stop)) in *.
  assert (∀ t' r, runs now gonow (if (hi <? lo) || (n <=? lo) then mret 0 else
      stmt (λ now t, Ok (zdelete enc (among (part lo hi (zmembers true enc now t)).*1) t))) t t' r →
    runs now gonow (zRemRangeByRank key start stop) t t' r) as Hrun.
  { intros t' r H. unfold zRemRangeByRank. fold enc. step. step.
    assert (length (zlive enc now t) = length l) as El by (unfold l; by rewrite zmembers_Permutation). rewrite El. fold n.
    rewrite (ListOps.list_bounds_spec n start stop) by (unfold n; lia || done). exact H. }
  destruct ((hi <? lo) || (n <=? lo)) eqn:Eb.
  - assert (ranked = []) as E0 by (apply part_empty; apply orb_true_iff in Eb; zify_bool; lia).
    exists t. split_and!; [|rewrite E0; cbn; by rewrite map_difference_empty|done]. apply Hrun. rewrite E0. apply runs_ret.
  - exists (zdelete enc (among ranked.*1) t).1. split_and!; [|by apply zdelete_among|apply frame_zdelete].
    apply Hrun, runs_stmt. fold l. fold ranked. rewrite (surjective_pairing (zdelete enc _ t)) at 1. do 2 f_equal.
    rewrite (zdelete_count _ _ now) by done. rewrite among_part; [|done|apply part_NoDup, zmembers_NoDup]. f_equal.
    rewrite <-length_map_to_list, map_to_list_to_map by (apply part_NoDup, zmembers_NoDup). done.
Qed.

(** Removing from a sorted set without expired rows. ZPOPMIN and ZPOPMAX
    answer and remove the first members from their end of the order; ZREM the
    listed members, ZREMRANGEBYSCORE those with a score between the bounds and
    ZREMRANGEBYRANK those between two positions, answering how many there
    were. All other members keep their scores, and no other key changes. *)
Theorem zset_removal_correct now gonow asc key members min max start stop count t :
  let enc := encodeKey key in
  let z := zset_of enc now t in
  let l := zmembers true enc now t in
  let n := Z.of_nat (length l) in
  let popped := take (Z.to_nat count) (zmembers asc enc now t) in
  let ranked := part (Z.max 0 (from_end n start)) (Z.min (n - 1) (from_end n stop)) l in
  all_live enc now t → 0 <= count → int64 start → int64 stop → n < 2 ^ 63 →
  let removes {A} (m : M A) (a : A) (z' : gmap string Z) :=
    ∃ t', runs now gonow m t t' (Ok a) ∧ zset_of enc now t' = z' ∧ frame [enc] t t' in
  removes (zpop asc key count) popped (z ∖ list_to_map popped) ∧
  removes (zRem key members) (Z.of_nat (size (filter (λ m : ZMember, m.1 ∈ members) z)))
    (filter (λ m : ZMember, m.1 ∉ members) z) ∧
  removes (zRemRangeByScore key min max) (Z.of_nat (size (filter (λ m : ZMember, within min max m = true) z)))
    (filter (λ m : ZMember, within min max m = false) z) ∧
  removes (zRemRangeByRank key start stop) (Z.of_nat (length ranked)) (z ∖ list_to_map ranked).
Proof.
  intros enc z l n popped ranked Hl Hc Hs1 Hs2 Hn removes.
  split_and!.
  - by apply runs_zpop.
  - exists (zdelete enc (among members) t).1. split_and!; [|rewrite zdelete_zset|apply frame_zdelete].
    + eapply runs_eq; [apply runs_stmt; reflexivity|done|]. f_equal. change (Z.of_nat _ = _) with ((zdelete enc (among members) t).2 = Z.of_nat (size (filter (λ m : ZMember, m.1 ∈ members) z))).
      rewrite (zdelete_count _ _ now) by done. do 2 f_equal. apply map_filter_ext. intros m s _. unfold among. by rewrite bool_decide_eq_true.
    + apply map_filter_ext. intros m s _. unfold among. by rewrite bool_decide_eq_false.
  - exists (zdelete enc (within min max) t).1. split_and!; [|apply zdelete_zset|apply frame_zdelete].
    eapply runs_eq; [apply runs_stmt; reflexivity|done|]. f_equal. by apply (zdelete_count enc (within min max) now t).
  - by apply runs_zRemRangeByRank.
Qed.

(** ** ZUNIONSTORE and ZINTERSTORE *)

Section Stores.
Context (F : score_ops) (range_ok : ∀ m, range_scores F m ≡ₚ map_to_list m) (now gonow : Z).
Local Abbreviation runs := (runs now gonow).

(** The weighted scores of a member, from the sets that have it. *)
Definition scores_of (m : string) (sets : list (gmap string Z)) (weights : list Z) : list Z :=
  omap (λ p : gmap string Z * Z, (λ s, s_mul F s p.2) <$> p.1 !! m) (zip sets weights).

Lemma push_scores_lookup w l scores m :
  NoDup l.*1 →
  foldl (push_score F w) scores l !! m =
    match (list_to_map l : gmap string Z) !! m with
    | Some s => Some (default [] (scores !! m) ++ [s_mul F s w])
    | None => scores !! m
    end.
Proof.
  revert scores. induction l as [|[x s] l IH]; intros scores Hnd; cbn [foldl]; [done|].
  cbn in Hnd. apply NoDup_cons in Hnd as [Hx Hnd]. rewrite IH by done. unfold push_score at 1 2. cbn [fst snd].
  change (list_to_map ((x, s) :: l)) with (<[x := s]> (list_to_map l : gmap string Z)).
  destruct (decide (x = m)) as [->|Hne].
  - rewrite not_elem_of_list_to_map_1 by done. by rewrite !lookup_insert_eq.
  - by rewrite !lookup_insert_ne.
Qed.

Definition small (key : string) (t : tables) : Prop := Z.of_nat (size (zset_of key now t)) < 2 ^ 62.

Lemma runs_zRange_all key t :
  small (encodeKey key) t → runs (zRange key 0 (-1)) t t (Ok (zmembers true (encodeKey key) now t)).
Proof.
  intros Hs. unfold zRange, zrange. eapply runs_eq; [apply runs_select|done|]. cbv beta.
  unfold small in Hs. rewrite zslice_part by (rewrite ?zmembers_length; lia). cbv zeta. f_equal.
  unfold part, from_end. cbn [Z.ltb]. set (l := zmembers _ _ _ _). rewrite Z.max_id. cbn [Z.to_nat drop].
  apply take_ge. change ((0 <? 0)) with false. cbn. lia.
Qed.
Lemma zmembers_map key t : (list_to_map (zmembers true key now t) : gmap string Z) = zset_of key now t.
Proof.
  apply list_to_map_proper; [apply zmembers_NoDup|apply zmembers_Permutation].
Qed.

Lemma runs_union_loop keys ws scores t :
  Forall (λ k, encodeKey k = k ∧ small k t) keys → length ws = length keys →
  ∃ scores', runs (union_loop F keys ws scores) t t (Ok scores') ∧
    ∀ m, scores' !! m = match default [] (scores !! m) ++ scores_of m ((λ k, zset_of k now t) <$> keys) ws with
                        | [] => scores !! m
                        | l => Some l
                        end.
Proof.
  revert ws scores. induction keys as [|k keys IH]; intros ws scores Hk Hw; destruct ws as [|w ws]; try done; cbn [union_loop].
  - exists scores. split; [apply runs_ret|]. intros m. unfold scores_of. cbn. rewrite app_nil_r.
    destruct (scores !! m) as [[|]|]; done.
  - apply Forall_cons in Hk as [[Hk Hs] Hks]. cbn in Hw.
    destruct (IH ws (foldl (push_score F w) scores (zmembers true k now t))) as (scores' & Hr & Hl); [done|lia|].
    exists scores'. split.
    + eapply runs_bind; [apply runs_zRange_all; by rewrite Hk|]. cbv beta. rewrite Hk. exact Hr.
    + intros m. rewrite Hl, push_scores_lookup by apply zmembers_NoDup. rewrite zmembers_map. unfold scores_of. cbn [fmap list_fmap zip zip_with omap list_omap].
      cbn [fst snd]. destruct (zset_of k now t !! m) as [s|]; cbn [fmap option_fmap option_map]; [|done].
      change (default [] (Some ?x)) with x. rewrite <-app_assoc. cbn [app]. by destruct (default [] (scores !! m)).
Qed.

(** Every set has the member. *)
Definition in_all (m : string) (sets : list (gmap string Z)) : bool :=
  forallb (λ z, bool_decide (is_Some (z !! m))) sets.

Lemma set_members_map key t : set_members (zmembers true key now t) = zset_of key now t.
Proof.
  unfold set_members. rewrite <-zmembers_map. apply list_to_map_proper.
  - rewrite reverse_Permutation. apply zmembers_NoDup.
  - apply reverse_Permutation.
Qed.

Lemma runs_inter_loop keys ws scores t :
  Forall (λ k, encodeKey k = k ∧ small k t) keys → length ws = length keys →
  let sets := (λ k, zset_of k now t) <$> keys in
  ∃ scores', runs (inter_loop F keys ws scores) t t (Ok scores') ∧
    ∀ m, scores' !! m = if in_all m sets then (λ l, l ++ scores_of m sets ws) <$> scores !! m else None.
Proof.
  revert ws scores. induction keys as [|k keys IH]; intros ws scores Hk Hw; destruct ws as [|w ws]; try done; cbn [inter_loop].
  - exists scores. split; [apply runs_ret|]. intros m. cbn. unfold scores_of. cbn.
    destruct (scores !! m) as [l|]; [|done]. cbn. by rewrite app_nil_r.
  - apply Forall_cons in Hk as [[Hk Hs] Hks]. cbn in Hw.
    destruct (IH ws (meet_scores F w (zset_of k now t) scores)) as (scores' & Hr & Hl); [done|lia|].
    exists scores'. split.
    + eapply runs_bind; [apply runs_zRange_all; by rewrite Hk|]. cbv beta zeta. rewrite Hk, set_members_map. exact Hr.
    + intros m. rewrite Hl. unfold meet_scores. rewrite map_lookup_imap. unfold scores_of, in_all.
      cbn [fmap list_fmap zip zip_with omap list_omap forallb fst snd].
      destruct (zset_of k now t !! m) as [s|]; cbn [fmap option_fmap option_map].
      * rewrite bool_decide_true by done. cbn [andb]. destruct (forallb _ _); [|done]. destruct (scores !! m) as [l|]; [|done].
        cbn. by rewrite <-app_assoc.
      * rewrite bool_decide_false by (by intros []). cbn [andb]. destruct (scores !! m); cbn; by destruct (forallb _ _).
Qed.

(** ZADD of new members to a missing key. *)
Lemma zadd_spec_fresh l (z : gmap string Z) a :
  NoDup l.*1 → (∀ m, m ∈ l.*1 → z !! m = None) →
  foldl (zadd1 ZAdd0) (z, (a, 0)) l = (list_to_map l ∪ z, (a + Z.of_nat (length l), 0)).
Proof.
  revert z a. induction l as [|[m s] l IH]; intros z a Hnd Hz; cbn [foldl].
  - cbn. f_equal; [by rewrite (left_id_L ∅ (∪))|f_equal; lia].
  - cbn in Hnd. apply NoDup_cons in Hnd as [Hm Hnd]. unfold zadd1 at 2. cbn [fst snd]. rewrite Hz by (by left).
    cbn [zXX ZAdd0]. rewrite IH; [|done|].
    + cbn [length]. f_equal; [|f_equal; lia]. cbn. rewrite <-insert_union_l, <-insert_union_r; [done|].
      by apply not_elem_of_list_to_map_1.
    + intros m' Hm'. rewrite lookup_insert_ne by (by intros ->). apply Hz. by right.
Qed.

Lemma runs_store_scores dst agg scores t :
  encodeKey dst = dst →
  ∃ t', runs (store_scores F dst agg scores) t t' (Ok (Z.of_nat (size scores))) ∧
        zset_of dst now t' = aggregate_scores F agg <$> scores ∧ frame [dst] t t'.
Proof.
  intros Hd. unfold store_scores. set (l := (λ p : string * list Z, (p.1, aggregate_scores F agg p.2)) <$> range_scores F scores).
  destruct (cleared_absent dst t) as (Hm & _ & _ & _ & _ & Hz & _).
  assert (zset_of dst now (cleared dst t) = ∅) as He.
  { apply map_eq. intros m. rewrite zset_of_lookup, Hz, lookup_empty. done. }
  case_bool_decide as Hs.
  { exists (cleared dst t). split_and!; [|by rewrite He, Hs, fmap_empty|apply cleared_frame].
    eapply runs_bind; [apply runs_deleteKeyFromAllTables|]. subst. apply runs_ret. }
  assert (l ≡ₚ map_to_list (aggregate_scores F agg <$> scores)) as Hl.
  { unfold l. rewrite range_ok, map_to_list_fmap. done. }
  assert (NoDup l.*1) as Hnd by (rewrite Hl; apply NoDup_fst_map_to_list).
  destruct (runs_zAdd_loop now gonow dst l ZAdd0 0 0 (upd_meta <[dst := (TypeZSet, None)]> (cleared dst t))) as (t' & Hr & Ht & _ & Hf & _).
  { intros m s x. cbn. rewrite drop_key_lookup. by rewrite decide_True. }
  change (zset_of dst now (upd_meta _ ?u)) with (zset_of dst now u) in Hr, Ht. rewrite He, zadd_spec_fresh in Hr, Ht by done.
  cbn [fst snd] in Hr, Ht. rewrite (right_id_L ∅ (∪)) in Ht. exists t'. split_and!.
  - eapply runs_bind; [apply runs_deleteKeyFromAllTables|]. unfold zAdd. rewrite Hd. fold l.
    eapply runs_bind; [apply runs_getKeyType|]. unfold meta_type. rewrite Hm. cbn [live_row default from_option id].
    rewrite (bool_decide_false (TypeNone ≠ TypeNone)) by tauto. cbn [andb zXX ZAdd0]. rewrite andb_false_r.
    eapply runs_bind; [apply runs_setMeta|]. eapply runs_bind; [exact Hr|]. cbv beta iota. cbn [zCH ZAdd0].
    eapply runs_eq; [apply runs_ret|done|]. f_equal. rewrite Hl, length_map_to_list, map_size_fmap. lia.
  - rewrite Ht. rewrite (list_to_map_proper _ _ Hnd Hl). apply list_to_map_to_list.
  - eapply frame_trans; [|exact Hf]. eapply frame_trans; [apply cleared_frame|apply frame_insert_meta].
Qed.

End Stores.

Lemma scores_exist F x sets ws :
  length ws = length sets →
  match scores_of F x sets ws with [] => None | l => Some l end =
  if existsb (λ z : gmap string Z, bool_decide (is_Some (z !! x))) sets then Some (scores_of F x sets ws) else None.
Proof.
  revert ws. induction sets as [|z sets IH]; intros ws Hl; destruct ws as [|w ws]; try done.
  unfold scores_of. cbn [zip zip_with omap list_omap existsb fst snd]. destruct (z !! x) as [s|]; cbn [fmap option_fmap option_map].
  - by rewrite bool_decide_true.
  - rewrite bool_decide_false by (by intros []). cbn [orb]. apply IH. cbn in Hl. lia.
Qed.
Lemma runs_inter_all F now gonow key keys w ws t :
  Forall (λ k, encodeKey k = k ∧ small now k t) (key :: keys) → length ws = length keys →
  let sets := (λ k, zset_of k now t) <$> key :: keys in
  ∃ sc, runs now gonow (inter_loop F keys ws (foldl (push_score F w) ∅ (zmembers true key now t))) t t (Ok sc) ∧
        ∀ m, sc !! m = if in_all m sets then Some (scores_of F m sets (w :: ws)) else None.
Proof.
  intros [_ Hk]%Forall_cons Hw sets.
  destruct (runs_inter_loop F now gonow keys ws (foldl (push_score F w) ∅ (zmembers true key now t)) t Hk Hw) as (sc & Hr & Hl).
  exists sc. split; [done|]. intros m. rewrite Hl, push_scores_lookup by apply zmembers_NoDup. rewrite zmembers_map, lookup_empty.
  unfold sets, in_all, scores_of. cbn [fmap list_fmap forallb zip zip_with omap list_omap fst snd].
  destruct (zset_of key now t !! m) as [s|]; cbn [fmap option_fmap option_map].
  - rewrite bool_decide_true by done. cbn [andb]. by destruct (forallb _ _).
  - rewrite bool_decide_false by (by intros []). cbn [andb]. by destruct (forallb _ _).
Qed.

Lemma encoded_small now keys t :
  Forall (λ k, small now (encodeKey k) t) keys → Forall (λ k, encodeKey k = k ∧ small now k t) (encodeKeys keys).
Proof.
  intros H. rewrite encodeKeys_map, Forall_fmap. eapply Forall_impl; [exact H|]. intros k Hk. split; [apply encodeKey_idemp|done].
Qed.

(** ZUNIONSTORE and ZINTERSTORE. The destination becomes exactly the
    sorted set of the members that some source, or every source, had when the
    command started, also when the destination is one of the sources; the
    score of a member is the aggregate (sum, minimum or maximum) of its scores
    in the sources that have it, each multiplied by the weight of its source,
    in the order of the sources. The answer is the number of members; without
    any the destination is gone. No other key changes. *)
Theorem zset_store_correct F now gonow dst keys weights agg t :
  (∀ m, range_scores F m ≡ₚ map_to_list m) →
  keys ≠ [] → weights = [] ∨ length weights = length keys → Forall (λ k, small now (encodeKey k) t) keys →
  let enc := encodeKey dst in
  let sets := (λ k, zset_of (encodeKey k) now t) <$> keys in
  let scores m := scores_of F m sets (weights_or_one keys weights) in
  let stores m (P : string → bool) :=
    ∃ t', runs now gonow m t t' (Ok (Z.of_nat (size (zset_of enc now t')))) ∧ frame [enc] t t' ∧
          ∀ x, zset_of enc now t' !! x = if P x then Some (aggregate_scores F agg (scores x)) else None in
  stores (zUnionStore F dst keys weights agg) (λ x, existsb (λ z, bool_decide (is_Some (z !! x))) sets) ∧
  stores (zInterStore F dst keys weights agg) (λ x, in_all x sets).
Proof.
  intros HF Hne Hw Hs enc sets scores stores. pose proof (encoded_small now keys t Hs) as He.
  assert (sets = (λ k, zset_of k now t) <$> encodeKeys keys) as Hsets.
  { unfold sets. rewrite encodeKeys_map, <-list_fmap_compose. done. }
  assert (length (encodeKeys keys) = length keys) as Hlen by (by rewrite encodeKeys_map, length_fmap).
  assert (weights_or_one (encodeKeys keys) weights = weights_or_one keys weights) as Hwo by (unfold weights_or_one; by rewrite Hlen).
  assert (length (weights_or_one keys weights) = length (encodeKeys keys)) as Hlw.
  { rewrite Hlen. unfold weights_or_one. destruct weights; [apply length_replicate|]. by destruct Hw. }
  split.
  - destruct (runs_union_loop F now gonow (encodeKeys keys) (weights_or_one keys weights) ∅ t He Hlw) as (sc & Hr & Hl).
    destruct (runs_store_scores F HF now gonow enc agg sc t (encodeKey_idemp dst)) as (t' & Hr' & Hz & Hf).
    exists t'. split_and!; [|done|].
    + unfold zUnionStore. rewrite Hwo. eapply runs_bind; [exact Hr|]. by rewrite Hz, map_size_fmap.
    + intros x. rewrite Hz, lookup_fmap, Hl, lookup_empty, <-Hsets. cbn [app default from_option id].
      rewrite scores_exist by (unfold sets; rewrite length_fmap; lia). unfold scores. by destruct (existsb _ _).
  - unfold stores, scores, zInterStore. rewrite Hwo, Hsets.
    destruct (encodeKeys keys) as [|k rest] eqn:Ek; [by destruct keys|].
    destruct (weights_or_one keys weights) as [|w ws]; [done|].
    destruct (runs_inter_all F now gonow k rest w ws t He) as (sc & Hr & Hl); [cbn in Hlw; lia|].
    destruct (runs_store_scores F HF now gonow enc agg sc t (encodeKey_idemp dst)) as (t' & Hr' & Hz & Hf).
    apply Forall_cons in He as [[Hk Hsm] _].
    exists t'. split_and!; [|done|].
    + eapply runs_bind; [apply runs_zRange_all; by rewrite Hk|]. cbv beta. rewrite Hk. eapply runs_bind; [exact Hr|].
      by rewrite Hz, map_size_fmap.
    + intros x. rewrite Hz, lookup_fmap, Hl. by destruct (in_all x _).
Qed.

(** ** Examples *)

(** Small patterns are tiny positive doubles, in the order of the integers. *)
Definition sample_scores : score_ops := ScoreOps Z.add Z.mul 0 map_to_list.
Definition zt : tables := (run 0 0 (zAdd "z" [("b", 2); ("a", 1); ("c", 2)] ZAdd0) empty_tables).1.

Lemma zt_live : all_live "z" 0 zt.
Proof.
  intros m s x H. apply elem_of_map_to_list in H. revert H. vm_compute map_to_list. rewrite !elem_of_cons, elem_of_nil.
  intros [[= _ _ ->]|[[= _ _ ->]|[[= _ _ ->]|[]]]]; reflexivity.
Qed.
Lemma zset_order_correct_witness :
  runs 0 0 (zRange "z" 0 (-2)) zt zt (Ok [("a", 1); ("b", 2)]) ∧
  runs 0 0 (zRevRange "z" 0 0) zt zt (Ok [("c", 2)]).
Proof.
  split.
  - exact (proj1 (proj2 (proj2 (zset_order_correct 0 0 "z" "b" 0 (-2) zt ltac:(reflexivity) ltac:(reflexivity) ltac:(vm_compute; reflexivity))))).
  - exact (proj1 (proj2 (proj2 (proj2 (zset_order_correct 0 0 "z" "b" 0 0 zt ltac:(reflexivity) ltac:(reflexivity) ltac:(vm_compute; reflexivity)))))).
Defined.
Lemma zAdd_correct_witness :
  ∃ t', runs 0 0 (zAdd "z" [("a", 0); ("b", 7); ("d", 4)] (MkZAdd false false true false true)) zt t' (Ok 2) ∧
        zset_of "z" 0 t' = {[ "a" := 1; "b" := 7; "c" := 2; "d" := 4 ]}.
Proof.
  pose proof (zAdd_correct 0 0 "z" [("a", 0); ("b", 7); ("d", 4)] (MkZAdd false false true false true) zt) as H.
  cbv zeta in H. change (encodeKey "z") with "z" in H. specialize (H zt_live).
  set (opts := MkZAdd false false true false true) in *. set (l := [("a", 0); ("b", 7); ("d", 4)]) in *.
  assert (zadd_spec opts l (zset_of "z" 0 zt) = ({[ "a" := 1; "b" := 7; "c" := 2; "d" := 4 ]}, (1, 1))) as E
    by (vm_compute; reflexivity).
  assert (type_ok 0 TypeZSet "z" zt = true) as Et by (vm_compute; reflexivity).
  rewrite E, Et in H. cbn [negb zXX opts andb] in H. destruct H as (t' & Hr & Hz & _).
  exists t'. split; [exact Hr|exact Hz].
Defined.
Lemma zset_removal_correct_witness :
  ∃ t', runs 0 0 (zRem "z" ["a"; "x"]) zt t' (Ok 1) ∧ zset_of "z" 0 t' = {[ "b" := 2; "c" := 2 ]}.
Proof.
  destruct (zset_removal_correct 0 0 true "z" ["a"; "x"] 0 0 0 0 0 zt zt_live) as (_ & (t' & Hr & Hz & _) & _);
    [lia|split; lia|split; lia|vm_compute; reflexivity|].
  exists t'. split; [exact Hr|]. etransitivity; [exact Hz|]. vm_compute. reflexivity.
Defined.
Lemma zset_store_correct_witness :
  ∃ t', runs 0 0 (zUnionStore sample_scores "z" ["z"; "z"] [1; 10] "sum") zt t' (Ok (Z.of_nat (size (zset_of "z" 0 t')))) ∧
        zset_of "z" 0 t' !! "b" = Some 22.
Proof.
  destruct (zset_store_correct sample_scores 0 0 "z" ["z"; "z"] [1; 10] "sum" zt) as [(t' & Hr & _ & Hz) _];
    [reflexivity|discriminate|by right|repeat constructor; vm_compute; reflexivity|].
  exists t'. split; [exact Hr|]. etransitivity; [exact (Hz "b")|]. vm_compute. reflexivity.
Defined.

(** ZRANGESTORE deletes the destination before it reads the source: storing a
    part of a sorted set under its own name loses everything. *)
Lemma zRangeStore_onto_itself :
  let spec := MkSpec ZRangeByIndex false 0 0 0 0 (MkLex "" true 0) (MkLex "" true 0) 0 0 in
  let r := run 0 0 (zRangeStore "z" "z" spec) zt in
  r.2 = Ok 0 ∧ zset_of "z" 0 r.1 = ∅.
Proof. split; vm_compute; reflexivity. Qed.
(** ZINCRBY does not look at the type of the key: a string gets members. *)
Lemma zIncrBy_ignores_type :
  let t := upd_strings <["k" := ("v", None)]> (upd_meta <["k" := (TypeString, None)]> empty_tables) in
  let r := run 0 0 (zIncrBy sample_scores "k" 5 "m") t in
  r.2 = Ok 5 ∧ zset_of "k" 0 r.1 = {[ "m" := 5 ]} ∧ meta_type "k" 0 r.1 = Some TypeString.
Proof. split_and!; vm_compute; reflexivity. Qed.
(** ZADD to a member whose row has expired updates the expired row: it
    answers 0 and the member is not there. *)
Lemma zAdd_expired_row_lost :
  let t := upd_zsets <[("z", "m") := (1, Some 0)]> empty_tables in
  let r := run 1 1000 (zAdd "z" [("m", 2)] ZAdd0) t in
  r.2 = Ok 0 ∧ zset_of "z" 1 r.1 = ∅.
Proof. split; vm_compute; reflexivity. Qed.
(** A negative cursor is a slice out of range. *)
Lemma zScan_negative_cursor : (run 0 0 (zScan "z" (-1) "*" 10) zt).2 = Fail (panic "slice bounds out of range").
Proof. vm_compute. reflexivity. Qed.

End ZSetOps.
