(* ===== verification/StoreSampling.v ===== *)
(** * Random sampling: internal/storage/querier.go

    HRANDFIELD, SRANDMEMBER and ZRANDMEMBER. What PostgreSQL's [ORDER BY
    random()] and Go's [rand.Intn] come up with is a parameter: an order of
    the rows and the draws. The theorem holds whatever they are. *)
From stdpp Require Import gmap strings list sorting.
From Stdlib Require Import ZArith Lia Ascii.
From S2P Require Import Prelude GoStd KeyCodec Db StoreMeta StoreStrings StoreHash StoreSets StoreZSets.
Import Db KeyCodec Meta StringOps HashOps SetOps ZSetOps.

Module Sampling.
Local Open Scope Z_scope.

(** The order in which [random()] puts [n] rows, and the [i]-th number drawn
    below [n]. *)
Record random_ops := RandomOps { order : nat → list nat; draw : nat → nat → nat }.
Class RandomOk (R : random_ops) : Prop := {
  order_perm n : order R n ≡ₚ seq 0 n;
  draw_lt i n : (0 < n → draw R i n < n)%nat
}.

(** The largest piece of memory the Go runtime hands out (on amd64); there is
    assumed to be enough memory below it. [make([]T, 0, n)] with elements of
    [size] bytes. *)
Definition maxAlloc : Z := 2 ^ 48.
Definition make (n size : Z) : M unit :=
  if (n <? 0) || (maxAlloc <? n * size) then throw (panic "makeslice: cap out of range") else mret tt.

Section Sampling.
Context (R : random_ops).

(** [ORDER BY random() LIMIT count] *)
Definition sample {A} (count : Z) (rows : list A) : list A :=
  take (Z.to_nat count) (omap (rows !!.) (order R (length rows))).
Definition randInt (i n : nat) : nat := if bool_decide (n = 0%nat) then 0%nat else draw R i n.
(** The loop that draws [n] times with replacement. *)
Definition bootstrap {A} (n : Z) (pool : list A) : list A :=
  omap (λ i, pool !! randInt i (length pool)) (seq 0 (Z.to_nat n)).

Definition field_values (withValues : bool) (rows : list (string * string)) : list string :=
  mjoin ((λ r : string * string, if withValues then [decodeField r.1; r.2] else [decodeField r.1]) <$> rows).

Definition hRandField (key : string) (count : Z) (withValues : bool) : M (list string) :=
  if count =? 0 then mret []
  else
    let key := encodeKey key in
    if 0 <? count then
      rows ← query (λ now t, sample count (live_fields key now t));
      mret (field_values withValues rows)
    else
      pool ← query (live_fields key);
      match pool with
      | [] => mret []
      | _ =>
          let n := wrap64 (- count) in
          (make n 16;; if withValues then make (wrap64 (n * 2)) 16 else mret tt);;
          mret (field_values withValues (bootstrap n pool))
      end.

Definition sRandMember (key : string) (count : Z) : M (list string) :=
  if count =? 0 then mret []
  else
    let key := encodeKey key in
    if 0 <? count then members ← query (λ now t, sample count (live_members key now t)); mret members
    else
      pool ← query (live_members key);
      match pool with
      | [] => mret []
      | _ => let n := wrap64 (- count) in make n 16;; mret (bootstrap n pool)
      end.

Definition zRandMember (key : string) (count : Z) : M (list ZMember) :=
  if count =? 0 then mret []
  else
    let key := encodeKey key in
    if 0 <? count then members ← query (λ now t, sample count (zlive key now t)); mret members
    else
      pool ← query (zlive key);
      match pool with
      | [] => mret []
      | _ => let n := wrap64 (- count) in make n 24;; mret (bootstrap n pool)
      end.

End Sampling.

(** ** What is drawn *)

(** A positive count asks for so many different ones, as far as there are; a
    negative one for so many that may repeat. *)
Definition samples {A} (count : Z) (pool l : list A) : Prop :=
  if 0 <? count then l ⊆+ pool ∧ length l = Nat.min (Z.to_nat count) (length pool)
  else l ⊆ pool ∧ length l = match pool with [] => 0%nat | _ => Z.to_nat (- count) end.

#[export] Instance samples_proper {A} count : Proper ((≡ₚ) ==> (=) ==> iff) (@samples A count).
Proof.
  intros p p' Hp l ? <-. unfold samples. case_match; [by rewrite Hp|].
  destruct p as [|x p], p' as [|x' p']; try done; [by apply Permutation_nil_cons in Hp|by symmetry in Hp; apply Permutation_nil_cons in Hp|].
  split; intros [Hs ?]; (split; [|done]); intros y Hy; apply Hs in Hy; by rewrite ?Hp in *.
Qed.

Section Correct.
Context (R : random_ops) `{!RandomOk R}.

Lemma omap_lookup_seq {A} (rows : list A) : omap (rows !!.) (seq 0 (length rows)) = rows.
Proof.
  assert (∀ pre l : list A, omap ((pre ++ l) !!.) (seq (length pre) (length l)) = l) as H; [|apply (H [])].
  intros pre l. revert pre. induction l as [|x l IH]; intros pre; cbn [length seq omap list_omap]; [done|].
  rewrite list_lookup_middle by done. f_equal. specialize (IH (pre ++ [x])).
  rewrite length_app, <-app_assoc in IH. cbn in IH. by rewrite Nat.add_comm in IH.
Qed.
Lemma sample_samples {A} count (rows : list A) : 0 < count → samples count rows (sample R count rows).
Proof.
  intros Hc. unfold samples, sample. rewrite (proj2 (Z.ltb_lt 0 count)) by done.
  assert (omap (rows !!.) (order R (length rows)) ≡ₚ rows) as Hp.
  { transitivity (omap (rows !!.) (seq 0 (length rows))); [|by rewrite omap_lookup_seq]. by apply omap_Permutation, order_perm. }
  split; [by rewrite <-Hp at 2; apply submseteq_take|]. by rewrite length_take, Hp.
Qed.
Lemma bootstrap_samples {A} count (pool : list A) :
  count < 0 → pool ≠ [] → samples count pool (bootstrap R (- count) pool).
Proof.
  intros Hc Hp. unfold samples, bootstrap. rewrite (proj2 (Z.ltb_ge 0 count)) by lia.
  assert (∀ i, is_Some (pool !! randInt R i (length pool))) as Hi.
  { intros i. apply lookup_lt_is_Some. unfold randInt. destruct pool; [done|].
    rewrite bool_decide_false by done. apply draw_lt. cbn. lia. }
  split.
  - intros x. rewrite list_elem_of_omap. intros (i & _ & E). by eapply list_elem_of_lookup_2.
  - destruct pool as [|p0 pool0] eqn:Ep; [done|]. rewrite <-Ep in *. clear Ep.
    rewrite <-(length_seq (Z.to_nat (- count)) 0) at 2. induction (seq 0 (Z.to_nat (- count))) as [|i l IH]; cbn; [done|].
    destruct (Hi i) as [x ->]. cbn. by rewrite IH.
Qed.
(** A count the runtime can allocate. *)
Definition fits (count : Z) : Prop := - 2 ^ 40 <= count.
Lemma samples_nil {A} count (pool : list A) : count = 0 ∨ (count < 0 ∧ pool = []) → samples count pool [].
Proof.
  unfold samples. intros [->|[H ->]]; [split; [set_solver|by destruct pool]|].
  rewrite (proj2 (Z.ltb_ge 0 count)) by lia. done.
Qed.

(** The common course of the three operations. *)
Lemma runs_drawn {A B} now gonow (rows : Z → tables → list A) (alloc : Z → M unit) (g : list A → B) count t :
  fits count →
  (∀ n, 0 <= n <= 2 ^ 40 → runs now gonow (alloc n) t t (Ok tt)) →
  ∃ l, samples count (rows now t) l ∧
    runs now gonow
      (if count =? 0 then mret (g [])
       else if 0 <? count then (r ← query (λ now t, sample R count (rows now t)); mret (g r))
       else pool ← query rows;
            match pool with
            | [] => mret (g [])
            | _ => alloc (wrap64 (- count));; mret (g (bootstrap R (wrap64 (- count)) pool))
            end) t t (Ok (g l)).
Proof.
  intros Hf Ha. destruct (Z.eqb_spec count 0) as [->|H0]; [exists []; split; [by apply samples_nil; left|apply runs_ret]|].
  destruct (Z.ltb_spec 0 count) as [H|H].
  { eexists. split; [by apply sample_samples|]. eapply runs_bind; [apply runs_query|]. apply runs_ret. }
  destruct (rows now t) as [|x pool] eqn:E.
  { exists []. split; [apply samples_nil; right; split; [lia|done]|]. eapply runs_bind; [apply runs_query|]. rewrite E. apply runs_ret. }
  unfold fits in Hf. rewrite wrap64_id by (unfold int64; lia).
  eexists. split; [apply bootstrap_samples; [lia|done]|]. eapply runs_bind; [apply runs_query|]. cbv beta. rewrite E.
  eapply runs_bind; [apply Ha; lia|]. apply runs_ret.
Qed.
Lemma runs_make now gonow n size t : 0 <= n → n * size <= maxAlloc → runs now gonow (make n size) t t (Ok tt).
Proof. intros H1 H2. unfold make. rewrite !(proj2 (Z.ltb_ge _ _)) by lia. apply runs_ret. Qed.

End Correct.

Lemma live_members_elements key now t : live_members key now t ≡ₚ elements (set_of key now t).
Proof. unfold set_of. symmetry. apply elements_list_to_set, live_members_NoDup. Qed.

Lemma field_names (l : list (string * string)) : field_values false l = decodeField <$> l.*1.
Proof. induction l as [|r l IH]; [done|]. cbn. by f_equal. Qed.

(** The random sampling commands, whatever numbers are drawn: a positive
    count gives that many different members of the set, fields of the hash or
    members of the sorted set with their scores, or all of them when there are
    fewer; a negative count gives exactly that many, each of them an element,
    or none when there are no elements; a count of 0 gives none. HRANDFIELD
    gives each field with its value when asked to. Nothing is changed. *)
Theorem sampling_correct R now gonow key count t :
  RandomOk R → fits count →
  let enc := encodeKey key in
  (∃ l, runs now gonow (sRandMember R key count) t t (Ok l) ∧ samples count (elements (set_of enc now t)) l) ∧
  (∃ l, runs now gonow (zRandMember R key count) t t (Ok l) ∧ samples count (map_to_list (zset_of enc now t)) l) ∧
  (∃ l, runs now gonow (hRandField R key count false) t t (Ok (decodeField <$> l.*1)) ∧ samples count (live_fields enc now t) l) ∧
  (∃ l, runs now gonow (hRandField R key count true) t t (Ok (mjoin ((λ r : string * string, [decodeField r.1; r.2]) <$> l))) ∧
        samples count (live_fields enc now t) l).
Proof.
  intros HR Hf enc. split_and!.
  - destruct (runs_drawn R now gonow (live_members enc) (λ n, make n 16) id count t Hf) as (l & Hs & Hr).
    { intros n Hn. apply runs_make; unfold maxAlloc; lia. }
    exists l. rewrite <-live_members_elements. by split; [exact Hr|].
  - destruct (runs_drawn R now gonow (zlive enc) (λ n, make n 24) id count t Hf) as (l & Hs & Hr).
    { intros n Hn. apply runs_make; unfold maxAlloc; lia. }
    exists l. rewrite <-(zmembers_zset true), zmembers_Permutation. by split; [exact Hr|].
  - destruct (runs_drawn R now gonow (live_fields enc) (λ n, make n 16;; mret tt) (field_values false) count t Hf) as (l & Hs & Hr).
    { intros n Hn. eapply runs_bind; [apply runs_make; unfold maxAlloc; lia|apply runs_ret]. }
    exists l. split; [|done]. rewrite <-field_names. exact Hr.
  - destruct (runs_drawn R now gonow (live_fields enc) (λ n, make n 16;; make (wrap64 (n * 2)) 16) (field_values true) count t Hf) as (l & Hs & Hr).
    { intros n Hn. eapply runs_bind; [apply runs_make; unfold maxAlloc; lia|].
      rewrite wrap64_id by (unfold int64; lia). apply runs_make; unfold maxAlloc; lia. }
    exists l. split; [exact Hr|done].
Qed.

(** ** Examples *)

Definition backwards : random_ops := RandomOps (λ n, reverse (seq 0 n)) (λ i n, Nat.modulo i n).
#[export] Instance backwards_ok : RandomOk backwards.
Proof. split; [intros n; apply reverse_Permutation|]. intros i n H. apply Nat.mod_upper_bound. lia. Qed.
Definition some_set : tables := (run 0 0 (sAdd "s" ["a"; "b"; "c"]) empty_tables).1.
Lemma sampling_correct_witness :
  (∃ l, runs 0 0 (sRandMember backwards "s" (-5)) some_set some_set (Ok l) ∧ samples (-5) (elements (set_of "s" 0 some_set)) l) ∧
  (run 0 0 (sRandMember backwards "s" (-5)) some_set).2 = Ok ["c"; "a"; "b"; "c"; "a"].
Proof.
  split; [|vm_compute; reflexivity].
  exact (proj1 (sampling_correct backwards 0 0 "s" (-5) some_set backwards_ok ltac:(unfold fits; lia))).
Defined.
(** The smallest count is its own negation, and the capacity that is asked
    for is negative: the process panics. *)
Lemma sRandMember_min_count :
  (run 0 0 (sRandMember backwards "s" (- 2 ^ 63)) some_set).2 = Fail (panic "makeslice: cap out of range").
Proof. vm_compute. reflexivity. Qed.

End Sampling.
