(* ===== verification/Client.v ===== *)
(** * Per-connection state: internal/server/client.go

    [ClientState] and its methods. The mutexes of the source make each method
    one atomic step; the network connection and the buffered writer are not
    part of the record. *)
From stdpp Require Import list strings.
From Stdlib Require Import ZArith Lia Ascii.
From S2P Require Import Prelude GoStd Resp.
Import Resp.

Module Client.

Record ClientState := MkClient {
  ID : Z;
  Name : string;
  Addr : string;
  CreatedAt : Z;                    (** ns *)
  LibName : string;
  LibVersion : string;
  protocolVersion : Z;
  inTransaction : bool;
  queuedCommands : list Value;
  inPubSubMode : bool
}.

(** [id] is the value [clientIDCounter] was incremented to. *)
Definition NewClientState (id : Z) (addr : string) (now : Z) : ClientState :=
  MkClient id "" addr now "" "" 2 false [] false.

Definition with_name (n : string) (c : ClientState) : ClientState :=
  MkClient (ID c) n (Addr c) (CreatedAt c) (LibName c) (LibVersion c) (protocolVersion c)
    (inTransaction c) (queuedCommands c) (inPubSubMode c).
Definition with_lib (n v : string) (c : ClientState) : ClientState :=
  MkClient (ID c) (Name c) (Addr c) (CreatedAt c) n v (protocolVersion c)
    (inTransaction c) (queuedCommands c) (inPubSubMode c).
Definition with_proto (p : Z) (c : ClientState) : ClientState :=
  MkClient (ID c) (Name c) (Addr c) (CreatedAt c) (LibName c) (LibVersion c) p
    (inTransaction c) (queuedCommands c) (inPubSubMode c).
Definition with_tx (b : bool) (q : list Value) (c : ClientState) : ClientState :=
  MkClient (ID c) (Name c) (Addr c) (CreatedAt c) (LibName c) (LibVersion c) (protocolVersion c)
    b q (inPubSubMode c).
Definition with_pubsub (b : bool) (c : ClientState) : ClientState :=
  MkClient (ID c) (Name c) (Addr c) (CreatedAt c) (LibName c) (LibVersion c) (protocolVersion c)
    (inTransaction c) (queuedCommands c) b.

Definition SetProtocolVersion (version : Z) (c : ClientState) : ClientState :=
  if ((2 <=? version) && (version <=? 3))%Z then with_proto version c else c.
Definition UseRESP3 (c : ClientState) : bool := (3 <=? protocolVersion c)%Z.
Definition SetName (name : string) (c : ClientState) : ClientState := with_name name c.
Definition SetLibInfo (libName libVersion : string) (c : ClientState) : ClientState :=
  with_lib (if bool_decide (libName = "") then LibName c else libName)
           (if bool_decide (libVersion = "") then LibVersion c else libVersion) c.

(** [age] is [int64(time.Since(c.CreatedAt).Seconds())]. *)
Definition GetInfo (age : Z) (c : ClientState) : string :=
  let info := "id=" +:+ Strconv.FormatInt (ID c) +:+ " addr=" +:+ Addr c +:+
    " age=" +:+ Strconv.FormatInt age +:+ " name=" +:+ Name c in
  let info := if bool_decide (LibName c = "") then info
              else info +:+ " lib-name=" +:+ LibName c in
  if bool_decide (LibVersion c = "") then info
  else info +:+ " lib-ver=" +:+ LibVersion c.

(** Transaction state. *)
Definition StartTransaction (c : ClientState) : ClientState * result unit :=
  if inTransaction c then (c, Fail (Errorf "ERR MULTI calls can not be nested"))
  else (with_tx true [] c, Ok tt).
Definition QueueCommand (cmd : Value) (c : ClientState) : ClientState :=
  with_tx (inTransaction c) (queuedCommands c ++ [cmd]) c.
Definition GetQueuedCommands (c : ClientState) : ClientState * list Value :=
  (with_tx false [] c, queuedCommands c).
Definition DiscardTransaction (c : ClientState) : ClientState * result unit :=
  if inTransaction c then (with_tx false [] c, Ok tt)
  else (c, Fail (Errorf "ERR DISCARD without MULTI")).

Definition EnterPubSubMode (c : ClientState) : ClientState := with_pubsub true c.
Definition ExitPubSubMode (c : ClientState) : ClientState := with_pubsub false c.

(** The value [SendPubSubMessage] writes, or the error it returns before it
    writes anything. *)
Definition NUL : ascii := "000".
Definition SendPubSubMessage (c : ClientState) (msgType channel payload : string) : result Value :=
  let respType := if UseRESP3 c then Push else Array in
  if bool_decide (msgType = "message") then
    Ok (VArr respType [Bulk "message"; Bulk channel; Bulk payload])
  else if bool_decide (msgType = "pmessage") then
    match Strings.SplitN2 channel NUL with
    | [pattern; chan] =>
        Ok (VArr respType [Bulk "pmessage"; Bulk pattern; Bulk chan; Bulk payload])
    | _ => Fail (Errorf "invalid pmessage channel format")
    end
  else Fail (Errorf ("unknown message type: " +:+ msgType)).

Lemma SendPubSubMessage_pmessage c pattern channel payload :
  (NUL ∉ bytes_of pattern) →
  SendPubSubMessage c "pmessage" (pattern +:+ string_of [NUL] +:+ channel) payload =
    Ok (VArr (if UseRESP3 c then Push else Array)
          [Bulk "pmessage"; Bulk pattern; Bulk channel; Bulk payload]).
Proof.
  intros H. unfold SendPubSubMessage, Strings.SplitN2.
  rewrite bool_decide_false, bool_decide_true by done.
  rewrite !bytes_of_app, bytes_of_string_of. cbn [app].
  rewrite Strings.split2_app by done. by rewrite !string_of_bytes_of.
Qed.

(** A pattern with a NUL byte is cut at it: the subscriber is told a pattern
    it did not subscribe to and a channel the message was not published to. *)
Lemma SendPubSubMessage_NUL_pattern c :
  let p := string_of ["a"; NUL; "*"]%char in
  SendPubSubMessage c "pmessage" (p +:+ string_of [NUL] +:+ string_of ["a"; NUL; "b"]%char) "m" =
    Ok (VArr (if UseRESP3 c then Push else Array)
          [Bulk "pmessage"; Bulk "a"; Bulk (string_of ["*"; NUL; "a"; NUL; "b"]%char); Bulk "m"]).
Proof. reflexivity. Qed.

End Client.
