(* ===== verification/PubSub.v ===== *)
(** * The pub/sub hub: internal/pubsub/hub.go

    [Hub] holds who is subscribed to which channel and pattern, each relation
    twice (by name and by subscriber). A subscriber is its id: the hub only
    uses the id and [SendPubSubMessage] of the client it stands for. A
    publication goes through [pool.Exec], which may fail. The
    operations are shown to keep the two halves equal and to implement the
    plain relation ([hub_rel]); a published message is shown to arrive,
    byte for byte, at exactly the matching subscribers.

    Go maps are ranged over in an unspecified order; [elements] and
    [map_to_list] stand for it, and the theorems speak of which deliveries are
    made, not of their order. *)
From stdpp Require Import gmap strings list.
From Stdlib Require Import ZArith Lia Ascii.
From S2P Require Import Prelude GoStd Resp Glob Client.
Import Resp Glob Client.

Module PubSub.

Record Hub := MkHub {
  subscriptions : gmap string (gset Z);   (** channel -> subscriber ids *)
  subscribers : gmap Z (gset string);     (** subscriber id -> channels *)
  patterns : gmap string (gset Z);
  subPatterns : gmap Z (gset string)
}.

Definition NewHub : Hub := MkHub ∅ ∅ ∅ ∅.

(** ** Subscriptions

    [Subscribe] and [PSubscribe] are the same loop over two different pairs
    of maps. *)
Fixpoint subscribe_loop (subID : Z) (names : list string)
    (byName : gmap string (gset Z)) (bySub : gmap Z (gset string)) :
    gmap string (gset Z) * gmap Z (gset string) * list nat :=
  match names with
  | [] => (byName, bySub, [])
  | name :: names =>
      let byName := <[name := {[subID]} ∪ default ∅ (byName !! name)]> byName in
      let bySub := <[subID := {[name]} ∪ default ∅ (bySub !! subID)]> bySub in
      let count := size (default ∅ (bySub !! subID)) in
      let '(byName, bySub, counts) := subscribe_loop subID names byName bySub in
      (byName, bySub, count :: counts)
  end.

Definition subscribe_in (subID : Z) (names : list string)
    (byName : gmap string (gset Z)) (bySub : gmap Z (gset string)) :=
  let bySub := match bySub !! subID with Some _ => bySub | None => <[subID := ∅]> bySub end in
  subscribe_loop subID names byName bySub.

(** Removing one subscriber from the set of a name. *)
Definition remove_sub (subID : Z) (name : string) (byName : gmap string (gset Z)) :
    gmap string (gset Z) :=
  match byName !! name with
  | None => byName
  | Some subs =>
      let subs := subs ∖ {[subID]} in
      if bool_decide (size subs = 0) then delete name byName else <[name := subs]> byName
  end.

Fixpoint unsubscribe_loop (subID : Z) (names : list string)
    (byName : gmap string (gset Z)) (bySub : gmap Z (gset string)) :
    gmap string (gset Z) * gmap Z (gset string) * list nat :=
  match names with
  | [] => (byName, bySub, [])
  | name :: names =>
      let byName := remove_sub subID name byName in
      let '(bySub, count) :=
        match bySub !! subID with
        | None => (bySub, 0)
        | Some chans =>
            let chans := chans ∖ {[name]} in
            (if bool_decide (size chans = 0) then delete subID bySub
             else <[subID := chans]> bySub, size chans)
        end in
      let '(byName, bySub, counts) := unsubscribe_loop subID names byName bySub in
      (byName, bySub, count :: counts)
  end.

Definition unsubscribe_in (subID : Z) (names : list string)
    (byName : gmap string (gset Z)) (bySub : gmap Z (gset string)) :=
  let names := match names with
               | [] => match bySub !! subID with Some s => elements s | None => [] end
               | _ => names
               end in
  unsubscribe_loop subID names byName bySub.

Definition Subscribe (subID : Z) (channels : list string) (h : Hub) : Hub * list nat :=
  let '(n, s, counts) := subscribe_in subID channels (subscriptions h) (subscribers h) in
  (MkHub n s (patterns h) (subPatterns h), counts).
Definition Unsubscribe (subID : Z) (channels : list string) (h : Hub) : Hub * list nat :=
  let '(n, s, counts) := unsubscribe_in subID channels (subscriptions h) (subscribers h) in
  (MkHub n s (patterns h) (subPatterns h), counts).
Definition PSubscribe (subID : Z) (pats : list string) (h : Hub) : Hub * list nat :=
  let '(n, s, counts) := subscribe_in subID pats (patterns h) (subPatterns h) in
  (MkHub (subscriptions h) (subscribers h) n s, counts).
Definition PUnsubscribe (subID : Z) (pats : list string) (h : Hub) : Hub * list nat :=
  let '(n, s, counts) := unsubscribe_in subID pats (patterns h) (subPatterns h) in
  (MkHub (subscriptions h) (subscribers h) n s, counts).

Definition GetSubscriptionCount (subID : Z) (h : Hub) : nat * nat :=
  (size (default ∅ (subscribers h !! subID)), size (default ∅ (subPatterns h !! subID))).
Definition GetSubscribedChannels (subID : Z) (h : Hub) : list string :=
  match subscribers h !! subID with Some subs => elements subs | None => [] end.
Definition GetSubscribedPatterns (subID : Z) (h : Hub) : list string :=
  match subPatterns h !! subID with Some pats => elements pats | None => [] end.

Definition remove_in (subID : Z) (byName : gmap string (gset Z)) (bySub : gmap Z (gset string)) :=
  match bySub !! subID with
  | None => (byName, bySub)
  | Some names => (foldl (λ m name, remove_sub subID name m) byName (elements names), delete subID bySub)
  end.
Definition RemoveSubscriber (subID : Z) (h : Hub) : Hub :=
  let '(n, s) := remove_in subID (subscriptions h) (subscribers h) in
  let '(pn, ps) := remove_in subID (patterns h) (subPatterns h) in
  MkHub n s pn ps.

(** ** Publishing *)

Record broadcastPayload := MkPayload { Channel : string; Message : string; Binary : bool }.

(** [encoding/json] on the envelope. [Marshal] is exact when the two strings
    need no escaping, which base64 text does not; [Unmarshal] reads back the
    texts [Marshal] produces and refuses the rest. *)
Definition dquote : ascii := "034".
Definition json_c : bytes := [ "{"; dquote; "c"; dquote; ":"; dquote ]%char.
Definition json_m : bytes := [ dquote; ","; dquote; "m"; dquote; ":"; dquote ]%char.
Definition json_b : bytes := [ dquote; ","; dquote; "b"; dquote; ":" ]%char ++ bytes_of "true}".
Definition json_end : bytes := [ dquote; "}" ]%char.
Definition Marshal (bp : broadcastPayload) : bytes :=
  json_c ++ bytes_of (Channel bp) ++ json_m ++ bytes_of (Message bp) ++
  (if Binary bp then json_b else json_end).

(** The rest of a text after a literal. *)
Definition after (lit l : bytes) : option bytes :=
  if Strings.has_prefix l lit then Some (drop (length lit) l) else None.
(** A string body, up to its closing quote (which stays). *)
Fixpoint string_body (l : bytes) : bytes * bytes :=
  match l with
  | [] => ([], [])
  | c :: l' => if bool_decide (c = dquote) then ([], l)
               else let '(a, b) := string_body l' in (c :: a, b)
  end.
Definition Unmarshal (l : bytes) : option broadcastPayload :=
  l ← after json_c l;
  let '(c, l) := string_body l in
  l ← after json_m l;
  let '(m, l) := string_body l in
  if bool_decide (l = json_b) then Some (MkPayload (string_of c) (string_of m) true)
  else if bool_decide (l = json_end) then Some (MkPayload (string_of c) (string_of m) false)
  else None.

(** The payload sent through [pg_notify]. *)
Definition encodePayload (channel message : string) : string :=
  Base64.EncodeToString (Marshal (MkPayload (Base64.EncodeToString (bytes_of channel))
    (Base64.EncodeToString (bytes_of message)) true)).

(** The decoding half of [listenLoop]: the channel and message, or nothing
    when the payload is skipped with a warning. *)
Definition decodePayload (payload : string) : option (string * string) :=
  jsonBytes ← Base64.DecodeString payload;
  bp ← Unmarshal jsonBytes;
  let dec := λ s, if Binary bp then match Base64.DecodeString s with
                                    | Some b => string_of b
                                    | None => s
                                    end else s in
  Some (dec (Channel bp), dec (Message bp)).

(** [NOTIFY] refuses payloads of 8000 bytes and more. *)
Definition notify_too_long : goerror :=
  GoError "ERROR: payload string too long (SQLSTATE 22023)" (Some "22023").
Definition pg_notify (payload : string) : result string :=
  if (8000 <=? slen payload)%Z then Fail notify_too_long else Ok payload.

Definition countSubscribers (channel : string) (h : Hub) : nat :=
  size (default ∅ (subscriptions h !! channel)) +
  map_fold (λ pattern subs n, if matchPattern pattern channel then n + size subs else n) 0 (patterns h).

(** [pool.Exec] of [SELECT pg_notify]: the notification that is sent, if any,
    and the answer. [fault] is the error of the pool, the network or the
    server, if there is one, and [landed] says whether the statement took
    effect in spite of it. *)
Definition exec_notify (fault : option goerror) (landed : bool) (payload : string) : option string * result unit :=
  match pg_notify payload, fault with
  | Ok p, None => (Some p, Ok tt)
  | Ok p, Some er => (if landed then Some p else None, Fail er)
  | Fail er, None => (None, Fail er)
  | Fail _, Some er => (None, Fail er)
  end.

(** The notification sent to every instance, and the answer to the client. *)
Definition Publish (fault : option goerror) (landed : bool) (channel message : string) (h : Hub) :
    option string * result Z :=
  match exec_notify fault landed (encodePayload channel message) with
  | (note, Fail er) => (note, Fail (Wrapf "failed to publish" er))
  | (note, Ok _) => (note, Ok (Z.of_nat (countSubscribers channel h)))
  end.

(** A call of [SendPubSubMessage]. *)
Record delivery := MkDelivery { d_sub : Z; d_type : string; d_channel : string; d_payload : string }.

Definition deliverToChannel (channel payload : string) (h : Hub) : list delivery :=
  (λ sub, MkDelivery sub "message" channel payload) <$>
    elements (default ∅ (subscriptions h !! channel) : gset Z).
Definition NULs : string := string_of ["000"%char].
Definition deliverToPatterns (channel payload : string) (h : Hub) : list delivery :=
  p ← List.filter (λ p : string * gset Z, matchPattern p.1 channel) (map_to_list (patterns h));
  (λ sub, MkDelivery sub "pmessage" (p.1 +:+ NULs +:+ channel) payload) <$> elements p.2.

(** One notification of the broadcast channel. *)
Definition handleNotification (payload : string) (h : Hub) : list delivery :=
  match decodePayload payload with
  | None => []
  | Some (channel, message) => deliverToChannel channel message h ++ deliverToPatterns channel message h
  end.

(** What the client of a delivery is sent. *)
Definition pushed (c : ClientState) (d : delivery) : result Value :=
  SendPubSubMessage c (d_type d) (d_channel d) (d_payload d).

(** ** The responses of the subscription commands *)
Definition subResponse (kind name : string) (count : Z) : Value :=
  VArr Array [Bulk kind; Bulk name; Int count].
Definition BuildSubscribeResponse := subResponse "subscribe".
Definition BuildUnsubscribeResponse := subResponse "unsubscribe".
Definition BuildPSubscribeResponse := subResponse "psubscribe".
Definition BuildPUnsubscribeResponse := subResponse "punsubscribe".
Definition BuildMessageResponse (channel message : string) : Value :=
  VArr Array [Bulk "message"; Bulk channel; Bulk message].
Definition BuildPMessageResponse (pattern channel message : string) : Value :=
  VArr Array [Bulk "pmessage"; Bulk pattern; Bulk channel; Bulk message].

(** ** The abstract relation *)

(** Who is subscribed to what. *)
Abbreviation rel := (gset (Z * string)).
Definition names_of (id : Z) (R : rel) : gset string := set_map snd (filter (λ p, p.1 = id) R).
Definition subs_of (name : string) (R : rel) : gset Z := set_map fst (filter (λ p, p.2 = name) R).

Lemma elem_of_names_of id R n : n ∈ names_of id R ↔ (id, n) ∈ R.
Proof.
  unfold names_of. rewrite elem_of_map. split.
  - intros ([id' n'] & -> & [E H]%elem_of_filter). cbn in *. by subst.
  - intros H. exists (id, n). split; [done|]. by apply elem_of_filter.
Qed.

Lemma elem_of_subs_of name R id : id ∈ subs_of name R ↔ (id, name) ∈ R.
Proof.
  unfold subs_of. rewrite elem_of_map. split.
  - intros ([id' n'] & -> & [E H]%elem_of_filter). cbn in *. by subst.
  - intros H. exists (id, name). split; [done|]. by apply elem_of_filter.
Qed.

(** The two maps hold the relation, without empty entries by name. *)
Definition linked (byName : gmap string (gset Z)) (bySub : gmap Z (gset string)) (R : rel) : Prop :=
  (∀ n, default ∅ (byName !! n) = subs_of n R) ∧
  (∀ id, default ∅ (bySub !! id) = names_of id R) ∧
  (∀ n s, byName !! n = Some s → s ≠ ∅).

Definition hub_rel (h : Hub) (S P : rel) : Prop :=
  linked (subscriptions h) (subscribers h) S ∧ linked (patterns h) (subPatterns h) P.

(** The specification: add or remove pairs one by one, and answer after each
    how many names the subscriber has. *)
Fixpoint spec_sub (id : Z) (names : list string) (R : rel) : rel * list nat :=
  match names with
  | [] => (R, [])
  | n :: names =>
      let R := {[(id, n)]} ∪ R in
      let '(R', counts) := spec_sub id names R in (R', size (names_of id R) :: counts)
  end.
Fixpoint spec_unsub (id : Z) (names : list string) (R : rel) : rel * list nat :=
  match names with
  | [] => (R, [])
  | n :: names =>
      let R := R ∖ {[(id, n)]} in
      let '(R', counts) := spec_unsub id names R in (R', size (names_of id R) :: counts)
  end.
Definition spec_unsub_all (id : Z) (names : list string) (R : rel) : rel * list nat :=
  spec_unsub id (match names with [] => elements (names_of id R) | _ => names end) R.
Definition spec_remove (id : Z) (R : rel) : rel := filter (λ p, p.1 ≠ id) R.

Lemma default_lookup_insert {K V} `{Countable K} (m : gmap K V) (k : K) (v d : V) (k' : K) :
  default d (<[k := v]> m !! k') = if decide (k' = k) then v else default d (m !! k').
Proof. case_decide; [subst; by rewrite lookup_insert_eq|by rewrite lookup_insert_ne]. Qed.

Lemma default_lookup_delete {K V} `{Countable K} (m : gmap K V) (k : K) (d : V) (k' : K) :
  default d (delete k m !! k') = if decide (k' = k) then d else default d (m !! k').
Proof. case_decide; [subst; by rewrite lookup_delete_eq|by rewrite lookup_delete_ne]. Qed.

Lemma linked_add id n byName bySub R :
  linked byName bySub R →
  linked (<[n := {[id]} ∪ default ∅ (byName !! n)]> byName)
         (<[id := {[n]} ∪ default ∅ (bySub !! id)]> bySub) ({[(id, n)]} ∪ R).
Proof.
  intros (Hn & Hs & Hne). split_and!.
  - intros n'. rewrite default_lookup_insert. apply set_eq. intros x. rewrite elem_of_subs_of.
    case_decide; subst; rewrite Hn; rewrite ?elem_of_union, elem_of_subs_of; set_solver.
  - intros id'. rewrite default_lookup_insert. apply set_eq. intros x. rewrite elem_of_names_of.
    case_decide; subst; rewrite Hs; rewrite ?elem_of_union, elem_of_names_of; set_solver.
  - intros n' s. rewrite lookup_insert_Some. intros [[-> <-]|[_ Hs']]; [set_solver|by eapply Hne].
Qed.

Lemma linked_init id byName bySub R :
  linked byName bySub R →
  linked byName (match bySub !! id with Some _ => bySub | None => <[id := ∅]> bySub end) R.
Proof.
  intros (Hn & Hs & Hne). split_and!; [done| |done]. intros id'.
  destruct (bySub !! id) eqn:E; [apply Hs|]. rewrite default_lookup_insert.
  case_decide as Hd; [subst; by rewrite <-Hs, E|apply Hs].
Qed.

Lemma linked_subscribe_loop id names byName bySub R :
  linked byName bySub R →
  ∃ byName' bySub', subscribe_loop id names byName bySub = (byName', bySub', (spec_sub id names R).2) ∧
    linked byName' bySub' (spec_sub id names R).1.
Proof.
  revert byName bySub R. induction names as [|n names IH]; intros byName bySub R HR; cbn; [by eexists _, _|].
  pose proof (linked_add id n byName bySub R HR) as HR'.
  destruct (IH _ _ _ HR') as (f & b & -> & Hl). eexists _, _. split.
  - destruct HR' as (_ & Hs & _). rewrite Hs. destruct (spec_sub id names ({[(id, n)]} ∪ R)). done.
  - by destruct (spec_sub id names ({[(id, n)]} ∪ R)).
Qed.

Lemma remove_sub_lookup id n byName n' :
  (∀ n s, byName !! n = Some s → s ≠ ∅) →
  default ∅ (remove_sub id n byName !! n') =
    (if decide (n' = n) then default ∅ (byName !! n') ∖ {[id]} else default ∅ (byName !! n')) ∧
  (∀ s, remove_sub id n byName !! n' = Some s → s ≠ ∅).
Proof.
  intros Hne. unfold remove_sub. destruct (byName !! n) as [s|] eqn:E.
  - case_bool_decide as Hz.
    + split; [rewrite default_lookup_delete; case_decide; [subst|done]|].
      * rewrite E. cbn. apply size_empty_inv in Hz. set_solver.
      * intros s'. rewrite lookup_delete_Some. intros [_ ?]. by eapply Hne.
    + split; [rewrite default_lookup_insert; case_decide; [subst; by rewrite E|done]|].
      intros s'. rewrite lookup_insert_Some. intros [[_ <-]|[_ ?]]; [|by eapply Hne].
      intros Hs. by rewrite Hs, size_empty in Hz.
  - split; [case_decide; [subst; rewrite E; set_solver|done]|]. intros s'. apply Hne.
Qed.

Lemma linked_drop id n byName bySub R :
  linked byName bySub R →
  linked (remove_sub id n byName)
    (match bySub !! id with
     | None => bySub
     | Some chans => if bool_decide (size (chans ∖ {[n]}) = 0) then delete id bySub
                     else <[id := chans ∖ {[n]}]> bySub
     end) (R ∖ {[(id, n)]}).
Proof.
  intros (Hn & Hs & Hne). split_and!.
  - intros n'. rewrite (proj1 (remove_sub_lookup id n byName n' Hne)). apply set_eq. intros x.
    rewrite elem_of_subs_of. case_decide; subst; rewrite Hn; rewrite ?elem_of_difference, ?elem_of_subs_of; set_solver.
  - intros id'. apply set_eq. intros x. rewrite elem_of_names_of.
    assert (default ∅ (match bySub !! id with
     | None => bySub
     | Some chans => if bool_decide (size (chans ∖ {[n]}) = 0) then delete id bySub
                     else <[id := chans ∖ {[n]}]> bySub
     end !! id') = if decide (id' = id) then names_of id R ∖ {[n]} else names_of id' R) as ->.
    { specialize (Hs id) as Hid. destruct (bySub !! id) as [chans|] eqn:E; cbn in Hid.
      - subst chans. case_bool_decide as Hz.
        + rewrite default_lookup_delete. case_decide; [|apply Hs]. apply size_empty_inv in Hz. set_solver.
        + rewrite default_lookup_insert. case_decide; [done|apply Hs].
      - case_decide; [subst id'; rewrite E; set_solver|apply Hs]. }
    case_decide; subst; rewrite ?elem_of_difference, elem_of_names_of; set_solver.
  - intros n' s. apply (remove_sub_lookup id n byName n' Hne).
Qed.

Lemma linked_unsubscribe_loop id names byName bySub R :
  linked byName bySub R →
  ∃ byName' bySub', unsubscribe_loop id names byName bySub = (byName', bySub', (spec_unsub id names R).2) ∧
    linked byName' bySub' (spec_unsub id names R).1.
Proof.
  revert byName bySub R. induction names as [|n names IH]; intros byName bySub R HR; cbn; [by eexists _, _|].
  pose proof (linked_drop id n byName bySub R HR) as HR'. destruct (IH _ _ _ HR') as (f & b & E & Hl).
  assert (∀ chans, bySub !! id = Some chans → size (chans ∖ {[n]}) = size (names_of id (R ∖ {[(id, n)]}))) as Hc.
  { intros chans Hch. destruct HR as (_ & Hs & _). specialize (Hs id). rewrite Hch in Hs. cbn in Hs. subst chans.
    f_equal. apply set_eq. intros x. rewrite elem_of_difference, !elem_of_names_of. set_solver. }
  assert (bySub !! id = None → size (names_of id (R ∖ {[(id, n)]})) = 0) as Hc0.
  { intros Hch. destruct HR as (_ & Hs & _). specialize (Hs id). rewrite Hch in Hs. cbn in Hs.
    apply size_empty_iff. intros x. rewrite elem_of_names_of. pose proof (elem_of_names_of id R x). set_solver. }
  eexists _, _. split; [|by destruct (spec_unsub id names (R ∖ {[(id, n)]}))].
  destruct (bySub !! id) as [chans|] eqn:Hch.
  - rewrite E. rewrite (Hc chans) by done. by destruct (spec_unsub id names (R ∖ {[(id, n)]})).
  - rewrite E. rewrite Hc0 by done. by destruct (spec_unsub id names (R ∖ {[(id, n)]})).
Qed.

Lemma linked_subscribe_in id names byName bySub R :
  linked byName bySub R →
  ∃ byName' bySub', subscribe_in id names byName bySub = (byName', bySub', (spec_sub id names R).2) ∧
    linked byName' bySub' (spec_sub id names R).1.
Proof. intros HR. unfold subscribe_in. by apply linked_subscribe_loop, linked_init. Qed.

Lemma linked_unsubscribe_in id names byName bySub R :
  linked byName bySub R →
  ∃ byName' bySub', unsubscribe_in id names byName bySub = (byName', bySub', (spec_unsub_all id names R).2) ∧
    linked byName' bySub' (spec_unsub_all id names R).1.
Proof.
  intros HR. unfold unsubscribe_in, spec_unsub_all. destruct names as [|n names]; [|by apply linked_unsubscribe_loop].
  assert (match bySub !! id with Some s => elements s | None => [] end = elements (names_of id R)) as ->.
  { destruct HR as (_ & Hs & _). specialize (Hs id). destruct (bySub !! id); cbn in Hs; by rewrite <-Hs. }
  by apply linked_unsubscribe_loop.
Qed.

(** Removing a subscriber from a list of names. *)
Lemma remove_all_lookup id names byName :
  (∀ n s, byName !! n = Some s → s ≠ ∅) →
  let m := foldl (λ m name, remove_sub id name m) byName names in
  (∀ n, default ∅ (m !! n) =
     if decide (n ∈ names) then default ∅ (byName !! n) ∖ {[id]} else default ∅ (byName !! n)) ∧
  (∀ n s, m !! n = Some s → s ≠ ∅).
Proof.
  revert byName. induction names as [|x names IH]; intros byName Hne; cbn.
  { split; [|done]. intros n. rewrite decide_False; [done|apply not_elem_of_nil]. }
  destruct (IH (remove_sub id x byName)) as [IH1 IH2].
  { intros n s. apply (remove_sub_lookup id x byName n Hne). }
  split; [|done]. intros n. rewrite IH1, (proj1 (remove_sub_lookup id x byName n Hne)).
  destruct (decide (n = x)) as [->|Hx].
  - rewrite (decide_True (P := x ∈ x :: names)) by (by left). case_decide; [set_solver|done].
  - destruct (decide (n ∈ names)).
    + by rewrite decide_True by (by right).
    + rewrite decide_False; [done|]. by intros [?|?]%elem_of_cons.
Qed.

Lemma linked_remove_in id byName bySub R :
  linked byName bySub R →
  linked (remove_in id byName bySub).1 (remove_in id byName bySub).2 (spec_remove id R).
Proof.
  intros (Hn & Hs & Hne). unfold remove_in, spec_remove. specialize (Hs id) as Hid.
  destruct (bySub !! id) as [names|] eqn:E; cbn in Hid |- *.
  - subst names. destruct (remove_all_lookup id (elements (names_of id R)) byName Hne) as [H1 H2].
    split_and!; [| |exact H2].
    + intros n. rewrite H1. apply set_eq. intros x. rewrite elem_of_subs_of, elem_of_filter. cbn.
      destruct (decide (n ∈ elements (names_of id R))) as [Hin|Hin];
        rewrite elem_of_elements, elem_of_names_of in Hin; rewrite Hn, ?elem_of_difference, elem_of_subs_of; set_solver.
    + intros id'. rewrite default_lookup_delete. apply set_eq. intros x. rewrite elem_of_names_of, elem_of_filter.
      case_decide; [set_solver|]. rewrite Hs, elem_of_names_of. set_solver.
  - assert (∀ x, (id, x) ∉ R) as Hno.
    { intros x Hx. apply elem_of_names_of in Hx. rewrite <-Hid in Hx. set_solver. }
    split_and!; [| |done].
    + intros n. rewrite Hn. apply set_eq. intros x. rewrite !elem_of_subs_of, elem_of_filter. cbn.
      split; [|by intros []]. intros Hx. split; [|done]. intros ->. by destruct (Hno n).
    + intros id'. rewrite Hs. apply set_eq. intros x. rewrite !elem_of_names_of, elem_of_filter. cbn.
      split; [|by intros []]. intros Hx. split; [|done]. intros ->. by destruct (Hno x).
Qed.

(** ** Refinement *)

Inductive hub_op :=
| OpSubscribe (id : Z) (channels : list string)
| OpUnsubscribe (id : Z) (channels : list string)
| OpPSubscribe (id : Z) (pats : list string)
| OpPUnsubscribe (id : Z) (pats : list string)
| OpRemove (id : Z).

Definition exec_hub (op : hub_op) (h : Hub) : Hub * list nat :=
  match op with
  | OpSubscribe id cs => Subscribe id cs h
  | OpUnsubscribe id cs => Unsubscribe id cs h
  | OpPSubscribe id ps => PSubscribe id ps h
  | OpPUnsubscribe id ps => PUnsubscribe id ps h
  | OpRemove id => (RemoveSubscriber id h, [])
  end.
Definition spec_hub (op : hub_op) (SP : rel * rel) : (rel * rel) * list nat :=
  let '(Sb, P) := SP in
  match op with
  | OpSubscribe id cs => let '(Sb, counts) := spec_sub id cs Sb in ((Sb, P), counts)
  | OpUnsubscribe id cs => let '(Sb, counts) := spec_unsub_all id cs Sb in ((Sb, P), counts)
  | OpPSubscribe id ps => let '(P, counts) := spec_sub id ps P in ((Sb, P), counts)
  | OpPUnsubscribe id ps => let '(P, counts) := spec_unsub_all id ps P in ((Sb, P), counts)
  | OpRemove id => ((spec_remove id Sb, spec_remove id P), [])
  end.

(** A sequence of calls, with the answers in order. *)
Definition run_ops {A B} (step : hub_op → A → A * B) (ops : list hub_op) (a : A) : A * list B :=
  foldl (λ '(a, outs) op, let '(a, out) := step op a in (a, outs ++ [out])) (a, []) ops.

Lemma hub_step op h Sb P :
  hub_rel h Sb P →
  (exec_hub op h).2 = (spec_hub op (Sb, P)).2 ∧
  hub_rel (exec_hub op h).1 (spec_hub op (Sb, P)).1.1 (spec_hub op (Sb, P)).1.2.
Proof.
  intros [HS HP].
  destruct op as [id ns|id ns|id ns|id ns|id]; cbn; unfold Subscribe, Unsubscribe, PSubscribe, PUnsubscribe.
  - destruct (linked_subscribe_in id ns _ _ _ HS) as (f & b & -> & Hl). by destruct (spec_sub id ns Sb).
  - destruct (linked_unsubscribe_in id ns _ _ _ HS) as (f & b & -> & Hl). by destruct (spec_unsub_all id ns Sb).
  - destruct (linked_subscribe_in id ns _ _ _ HP) as (f & b & -> & Hl). by destruct (spec_sub id ns P).
  - destruct (linked_unsubscribe_in id ns _ _ _ HP) as (f & b & -> & Hl). by destruct (spec_unsub_all id ns P).
  - unfold RemoveSubscriber. pose proof (linked_remove_in id _ _ _ HS). pose proof (linked_remove_in id _ _ _ HP).
    destruct (remove_in id (subscriptions h) (subscribers h)), (remove_in id (patterns h) (subPatterns h)). done.
Qed.

Lemma hub_rel_counts h Sb P id :
  hub_rel h Sb P → GetSubscriptionCount id h = (size (names_of id Sb), size (names_of id P)).
Proof. intros [(_ & HS & _) (_ & HP & _)]. unfold GetSubscriptionCount. by rewrite HS, HP. Qed.

Lemma hub_run ops h Sb P outs :
  hub_rel h Sb P →
  ∃ h' Sb' P' outs',
    foldl (λ '(a, outs) op, let '(a, out) := exec_hub op a in (a, outs ++ [out])) (h, outs) ops = (h', outs') ∧
    foldl (λ '(a, outs) op, let '(a, out) := spec_hub op a in (a, outs ++ [out])) ((Sb, P), outs) ops
      = ((Sb', P'), outs') ∧ hub_rel h' Sb' P'.
Proof.
  revert h Sb P outs. induction ops as [|op ops IH]; intros h Sb P outs HR; cbn [foldl]; [by eexists _, _, _, _|].
  destruct (hub_step op h Sb P HR) as [Eo HR'].
  destruct (exec_hub op h) as [h' out], (spec_hub op (Sb, P)) as [[Sb' P'] out']. cbn [fst snd] in *. subst out'.
  by apply IH.
Qed.

(** C16. The hub implements the subscription relation: after any sequence of
    SUBSCRIBE, UNSUBSCRIBE, PSUBSCRIBE, PUNSUBSCRIBE and disconnects, every
    answer (the running number of the caller's channels or patterns) is the
    one of the plain set of (subscriber, name) pairs, the two maps of each
    kind describe that same set, and no channel or pattern is kept without
    subscribers. *)
Theorem hub_refines_relation ops :
  let '(h, outs) := run_ops exec_hub ops NewHub in
  let '((Sb, P), outs') := run_ops spec_hub ops (∅, ∅) in
  outs = outs' ∧ hub_rel h Sb P ∧
  ∀ id, GetSubscriptionCount id h = (size (names_of id Sb), size (names_of id P)).
Proof.
  assert (hub_rel NewHub ∅ ∅) as H0 by (split; split_and!; done).
  destruct (hub_run ops NewHub ∅ ∅ [] H0) as (h & Sb & P & outs & E1 & E2 & HR). unfold run_ops.
  rewrite E1, E2. split_and!; [done|done|]. intros id. by apply hub_rel_counts.
Qed.

(** ** A published message *)

Lemma string_body_app l r : (dquote ∉ l) → string_body (l ++ dquote :: r) = (l, dquote :: r).
Proof.
  induction l as [|c l IH]; intros H; cbn [string_body app]; [by rewrite bool_decide_true|].
  rewrite bool_decide_false by (intros ->; apply H; by left). rewrite IH; [done|]. intros ?. apply H. by right.
Qed.

Lemma after_app lit l : after lit (lit ++ l) = Some l.
Proof. unfold after. by rewrite Strings.has_prefix_app, drop_app_length. Qed.

Lemma base64_no_quote b : dquote ∉ bytes_of (Base64.EncodeToString b).
Proof.
  unfold Base64.EncodeToString. rewrite bytes_of_string_of. intros H.
  pose proof (Base64.encode_printable b) as Hp. rewrite Forall_forall in Hp. specialize (Hp _ H).
  unfold Base64.printable in Hp. vm_compute in Hp. by destruct Hp.
Qed.

Lemma Unmarshal_Marshal c m b :
  (dquote ∉ bytes_of c) → (dquote ∉ bytes_of m) →
  Unmarshal (Marshal (MkPayload c m b)) = Some (MkPayload c m b).
Proof.
  intros Hc Hm. unfold Unmarshal, Marshal. cbn [Channel Message Binary]. rewrite after_app. cbn [mbind option_bind].
  change json_m with ([dquote] ++ drop 1 json_m). rewrite <-!app_assoc. cbn [app].
  rewrite string_body_app by done.
  change (dquote :: drop 1 json_m ++ ?r) with (json_m ++ r). rewrite after_app. cbn [mbind option_bind].
  destruct b.
  - change json_b with (dquote :: drop 1 json_b). rewrite string_body_app by done.
    rewrite bool_decide_true by done. by rewrite !string_of_bytes_of.
  - change json_end with (dquote :: drop 1 json_end). rewrite string_body_app by done.
    rewrite bool_decide_false by done. rewrite bool_decide_true by done. by rewrite !string_of_bytes_of.
Qed.

Lemma decode_encodePayload channel message :
  decodePayload (encodePayload channel message) = Some (channel, message).
Proof.
  unfold decodePayload, encodePayload. rewrite Base64.DecodeString_EncodeToString. cbn [mbind option_bind].
  rewrite Unmarshal_Marshal by apply base64_no_quote. cbn [mbind option_bind Binary Channel Message].
  by rewrite !Base64.DecodeString_EncodeToString, !string_of_bytes_of.
Qed.

Lemma encodePayload_length channel message :
  (slen channel + slen message <= 4400)%Z → (slen (encodePayload channel message) < 8000)%Z.
Proof.
  intros H. unfold encodePayload, Base64.EncodeToString, slen in *. rewrite bytes_of_string_of.
  set (j := Marshal _). pose proof (Base64.encode_length j) as Hj. unfold blen in Hj.
  assert (length j = length json_c + length (Base64.encode (bytes_of channel)) + length json_m +
                     length (Base64.encode (bytes_of message)) + length json_b) as El.
  { unfold j, Marshal. cbn [Channel Message Binary]. rewrite !length_app, !bytes_of_string_of. lia. }
  pose proof (Base64.encode_length (bytes_of channel)) as Hc.
  pose proof (Base64.encode_length (bytes_of message)) as Hm. unfold blen in Hc, Hm.
  change (length json_c) with 6 in El. change (length json_m) with 7 in El. change (length json_b) with 11 in El.
  lia.
Qed.

Lemma countSubscribers_deliveries channel message h :
  countSubscribers channel h =
    length (deliverToChannel channel message h ++ deliverToPatterns channel message h).
Proof.
  unfold countSubscribers, deliverToChannel, deliverToPatterns. rewrite length_app, length_fmap. f_equal.
  rewrite map_fold_foldr. induction (map_to_list (patterns h)) as [|[p subs] l IH]; [done|]. cbn.
  destruct (matchPattern p channel); [|done]. cbn. rewrite length_app, length_fmap. rewrite IH.
  change (size subs) with (length (elements subs)). apply Nat.add_comm.
Qed.

Lemma elem_of_deliverToPatterns channel message h d :
  d ∈ deliverToPatterns channel message h ↔
  ∃ pat subs id, patterns h !! pat = Some subs ∧ matchPattern pat channel = true ∧ id ∈ subs ∧
    d = MkDelivery id "pmessage" (pat +:+ NULs +:+ channel) message.
Proof.
  unfold deliverToPatterns. rewrite list_elem_of_bind. setoid_rewrite list_elem_of_fmap.
  setoid_rewrite list_elem_of_In at 2. setoid_rewrite filter_In. setoid_rewrite <-list_elem_of_In.
  split.
  - intros ([pat subs] & (id & -> & Hid) & Hin & Hm). cbn in *. apply elem_of_map_to_list in Hin.
    rewrite elem_of_elements in Hid. by exists pat, subs, id.
  - intros (pat & subs & id & Hp & Hm & Hid & ->). exists (pat, subs). split; [|by rewrite elem_of_map_to_list].
    exists id. by rewrite elem_of_elements.
Qed.

Lemma string_app_inj_l (a b c : string) : a +:+ c = b +:+ c → a = b.
Proof.
  intros E. apply (f_equal bytes_of) in E. rewrite !bytes_of_app in E. apply (inj (.++ bytes_of c)) in E.
  by apply bytes_of_inj.
Qed.

Lemma NoDup_deliverToPatterns channel message h : NoDup (deliverToPatterns channel message h).
Proof.
  unfold deliverToPatterns. pose proof (NoDup_fst_map_to_list (patterns h)) as H.
  induction (map_to_list (patterns h)) as [|[pat subs] l IH]; [constructor|].
  cbn in H. apply NoDup_cons in H as [Hp H]. cbn. destruct (matchPattern pat channel); [|by apply IH].
  cbn. apply NoDup_app. split_and!; [|..|by apply IH].
  - apply NoDup_fmap; [by intros ?? [= ->]|apply NoDup_elements].
  - intros d (id & -> & _)%list_elem_of_fmap.
    intros ([pat' subs'] & (id' & E & _)%list_elem_of_fmap & Hin)%list_elem_of_bind.
    injection E as _ E. apply string_app_inj_l in E. subst pat'. apply Hp.
    rewrite list_elem_of_In in Hin. apply filter_In in Hin as [Hin _]. rewrite <-list_elem_of_In in Hin.
    by apply (list_elem_of_fmap_2 fst _ _ Hin).
Qed.

Lemma pattern_subs h Sb P pat id :
  hub_rel h Sb P → ((id, pat) ∈ P ↔ ∃ subs, patterns h !! pat = Some subs ∧ id ∈ subs).
Proof.
  intros [_ (Hn & _)]. rewrite <-elem_of_subs_of, <-Hn. split.
  - destruct (patterns h !! pat) as [subs|]; [by exists subs|]. cbn. set_solver.
  - intros (subs & -> & ?). done.
Qed.

(** C19. Publishing end to end. When a channel name and a message, of any bytes
    and together up to 4400 bytes, are published and the statement succeeds,
    one notification is sent and the answer of PUBLISH is the number of
    deliveries this instance makes; when the statement fails, PUBLISH is an
    error, and the notification is the same one or, unless the statement took
    effect all the same, none. Every instance that receives the notification
    makes one delivery for each subscriber of the channel and one for each
    (subscriber, pattern) whose pattern matches, and no other. What a client is
    sent for them is the original channel and message and, if the pattern
    holds no zero byte, the original pattern. *)
Theorem publish_delivers fault landed channel message h :
  (slen channel + slen message <= 4400)%Z →
  ∃ payload,
    Publish fault landed channel message h =
      match fault with
      | None => (Some payload, Ok (Z.of_nat (length (handleNotification payload h))))
      | Some er => (if landed then Some payload else None, Fail (Wrapf "failed to publish" er))
      end ∧
    (∀ h' Sb P, hub_rel h' Sb P →
      NoDup (handleNotification payload h') ∧
      ∀ d, d ∈ handleNotification payload h' ↔
        (∃ id, (id, channel) ∈ Sb ∧ d = MkDelivery id "message" channel message) ∨
        (∃ id pat, (id, pat) ∈ P ∧ matchPattern pat channel = true ∧
                   d = MkDelivery id "pmessage" (pat +:+ NULs +:+ channel) message)) ∧
    ∀ c id pat,
      let kind := if UseRESP3 c then Push else Array in
      pushed c (MkDelivery id "message" channel message) =
        Ok (VArr kind [Bulk "message"; Bulk channel; Bulk message]) ∧
      (NUL ∉ bytes_of pat →
       pushed c (MkDelivery id "pmessage" (pat +:+ NULs +:+ channel) message) =
         Ok (VArr kind [Bulk "pmessage"; Bulk pat; Bulk channel; Bulk message])).
Proof.
  intros Hlen%encodePayload_length. exists (encodePayload channel message).
  unfold Publish, exec_notify, pg_notify, handleNotification. rewrite decode_encodePayload.
  rewrite (proj2 (Z.leb_gt _ _)) by done. split; [|split].
  - destruct fault; [done|]. by rewrite countSubscribers_deliveries with (message := message).
  - intros h' Sb P HR. split.
    + apply NoDup_app. split_and!; [|..|apply NoDup_deliverToPatterns].
      * apply NoDup_fmap; [by intros ?? [= ->]|apply NoDup_elements].
      * intros d (id & -> & _)%list_elem_of_fmap. by intros (? & ? & ? & _ & _ & _ & ?)%elem_of_deliverToPatterns.
    + intros d. rewrite elem_of_app, elem_of_deliverToPatterns. setoid_rewrite (pattern_subs h' Sb P) ; [|done].
      destruct HR as [(Hn & _) _]. unfold deliverToChannel. rewrite list_elem_of_fmap.
      setoid_rewrite elem_of_elements. rewrite Hn. setoid_rewrite elem_of_subs_of. naive_solver.
  - intros c id pat. split; [done|]. apply SendPubSubMessage_pmessage.
Qed.

Lemma publish_delivers_witness :
  let h := (run_ops exec_hub [OpSubscribe 1 ["news"]; OpPSubscribe 2 ["n*"; "x"]] NewHub).1 in
  ∃ payload,
    Publish None false "news" "hi" h = (Some payload, Ok 2%Z) ∧
    ∀ h' Sb P, hub_rel h' Sb P →
      NoDup (handleNotification payload h') ∧
      ∀ d, d ∈ handleNotification payload h' ↔
        (∃ id, (id, "news") ∈ Sb ∧ d = MkDelivery id "message" "news" "hi") ∨
        (∃ id pat, (id, pat) ∈ P ∧ matchPattern pat "news" = true ∧
                   d = MkDelivery id "pmessage" (pat +:+ NULs +:+ "news") "hi").
Proof.
  intros h. destruct (publish_delivers None false "news" "hi" h) as (payload & E & H & _); [vm_compute; discriminate|].
  exists payload. split; [|exact H].
  assert (Publish None false "news" "hi" h = (Some (encodePayload "news" "hi"), Ok 2%Z)) as E' by (vm_compute; reflexivity).
  rewrite E in E' |- *. injection E' as -> En. by rewrite En.
Defined.

End PubSub.
