(* ===== verification/ListNotify.v ===== *)
(** * The list notifier: internal/listnotify/notifier.go

    A client that waits in BLPOP registers a channel under each of its keys;
    a push announces its key with NOTIFY, and the listener of every instance
    passes the key on to the channels registered for it. Channels hold one
    message and sends do not block. [step] interleaves any number of waiting
    clients with the listener, which copies the list of channels under the
    lock and sends afterwards. *)
From stdpp Require Import gmap strings list.
From Stdlib Require Import ZArith Lia Ascii.
From S2P Require Import Prelude GoStd.

Module ListNotify.

(** ** The message *)

(** [NotifyPush]: the payload for a key; the key of a payload, which older
    instances send as it is. *)
Definition NotifyPush (key : string) : string := Base64.EncodeToString (bytes_of key).
Definition received (payload : string) : string :=
  match Base64.DecodeString payload with Some b => string_of b | None => payload end.

(** ** The registry *)

Abbreviation registry := (gmap string (list nat)).

(** The channel [ch] is appended under every key. *)
Definition register (ch : nat) (keys : list string) (subscribers : registry) : registry :=
  foldl (λ m key, <[key := default [] (m !! key) ++ [ch]]> m) subscribers keys.
(** The deferred clean-up takes out the first occurrence under every key. *)
Fixpoint remove_first (ch : nat) (l : list nat) : list nat :=
  match l with
  | [] => []
  | c :: l => if bool_decide (c = ch) then l else c :: remove_first ch l
  end.
Definition leave_key (ch : nat) (m : registry) (key : string) : registry :=
  match remove_first ch (default [] (m !! key)) with
  | [] => delete key m
  | l => <[key := l]> m
  end.
Definition unregister (ch : nat) (keys : list string) (subscribers : registry) : registry :=
  foldl (leave_key ch) subscribers keys.

(** ** Waiting *)

(** What the select of [WaitForKeys] can come to after [elapsed] time: there
    is a timer only for a positive timeout. *)
Inductive wait_result (timeout elapsed : Z) (done : bool) (buffer : option string) : string → Prop :=
| wait_key key : buffer = Some key → wait_result timeout elapsed done buffer key
| wait_timer : (0 < timeout <= elapsed)%Z → wait_result timeout elapsed done buffer ""
| wait_done : done = true → wait_result timeout elapsed done buffer "".

(** ** The notifier with its clients *)

(** The calls of [WaitForKeys] in progress with their keys, by channel; the
    registry; the channels that hold a message; the sends the listener has
    still to do; the number of channels made so far. *)
Record notifier := MkNotifier {
  waiting : gmap nat (list string);
  subscribers : registry;
  buffers : gmap nat string;
  pending : list (nat * string);
  channels : nat
}.
Definition start : notifier := MkNotifier ∅ ∅ ∅ [] 0.

(** [select { case ch <- key: default: }] *)
Definition send (ch : nat) (key : string) (b : gmap nat string) : gmap nat string :=
  match b !! ch with Some _ => b | None => <[ch := key]> b end.

(** The listener's loop body [notifySubscribers] is [Copy] and then one
    [Send] per channel. *)
Inductive action := Arrive (keys : list string) | Leave (ch : nat) | Copy (key : string) | Send.
Definition act (a : action) (n : notifier) : option notifier :=
  match a with
  | Arrive keys =>
      if bool_decide (keys = []) then None
      else Some (MkNotifier (<[channels n := keys]> (waiting n)) (register (channels n) keys (subscribers n)) (buffers n)
                   (pending n) (S (channels n)))
  | Leave ch =>
      match waiting n !! ch with
      | None => None
      | Some keys => Some (MkNotifier (delete ch (waiting n)) (unregister ch keys (subscribers n)) (buffers n)
                             (pending n) (channels n))
      end
  | Copy key =>
      if bool_decide (pending n = [])
      then Some (MkNotifier (waiting n) (subscribers n) (buffers n)
                   ((λ ch, (ch, key)) <$> default [] (subscribers n !! key)) (channels n))
      else None
  | Send =>
      match pending n with
      | [] => None
      | (ch, key) :: rest => Some (MkNotifier (waiting n) (subscribers n) (send ch key (buffers n)) rest (channels n))
      end
  end.
Definition step (n n' : notifier) : Prop := ∃ a, act a n = Some n'.
Definition reachable : notifier → Prop := rtc step start.

(** ** Counting registrations *)

Definition occ {A} `{EqDecision A} (x : A) (l : list A) : nat := length (filter (x =.) l).
Lemma occ_app {A} `{EqDecision A} (x : A) l l' : occ x (l ++ l') = (occ x l + occ x l')%nat.
Proof. unfold occ. by rewrite filter_app, length_app. Qed.
Lemma occ_cons {A} `{EqDecision A} (x y : A) l : occ x (y :: l) = ((if decide (x = y) then 1 else 0) + occ x l)%nat.
Proof. unfold occ. rewrite filter_cons. by case_decide. Qed.
Lemma occ_elem {A} `{EqDecision A} (x : A) l : (0 < occ x l)%nat ↔ x ∈ l.
Proof.
  induction l as [|y l IH]; [unfold occ; cbn; split; [lia|by intros ?%not_elem_of_nil]|].
  rewrite occ_cons, elem_of_cons, <-IH. case_decide as Hx; [by split; [left|lia]|]. split; [right; lia|]. intros [?|?]; [done|lia].
Qed.
Lemma remove_first_occ ch c l : occ c (remove_first ch l) = (occ c l - if decide (c = ch) then 1 else 0)%nat.
Proof.
  induction l as [|d l IH]; [by case_decide|]. cbn [remove_first]. case_bool_decide; subst.
  - rewrite occ_cons. case_decide; lia.
  - rewrite !occ_cons, IH. repeat case_decide; subst; try congruence; lia.
Qed.

Lemma register_occ ch keys m key c :
  occ c (default [] (register ch keys m !! key)) =
    (occ c (default [] (m !! key)) + if decide (c = ch) then occ key keys else 0)%nat.
Proof.
  unfold register. revert m. induction keys as [|k keys IH]; intros m; cbn [foldl]; [case_decide; unfold occ; cbn; lia|].
  rewrite IH, occ_cons. destruct (decide (k = key)) as [->|Hk].
  - rewrite lookup_insert_eq. cbn [default from_option id]. rewrite occ_app, occ_cons.
    change (occ c []) with 0%nat. repeat case_decide; try congruence; lia.
  - rewrite lookup_insert_ne by done. rewrite (decide_False (P := key = k)) by congruence. case_decide; lia.
Qed.
Lemma leave_key_lookup ch m k key :
  default [] (leave_key ch m k !! key) = if decide (key = k) then remove_first ch (default [] (m !! k)) else default [] (m !! key).
Proof.
  unfold leave_key. destruct (remove_first ch (default [] (m !! k))) as [|c l] eqn:E; case_decide; subst.
  - by rewrite lookup_delete_eq.
  - by rewrite lookup_delete_ne.
  - by rewrite lookup_insert_eq.
  - by rewrite lookup_insert_ne.
Qed.
Lemma unregister_occ ch keys m key c :
  occ c (default [] (unregister ch keys m !! key)) =
    (occ c (default [] (m !! key)) - if decide (c = ch) then occ key keys else 0)%nat.
Proof.
  unfold unregister. revert m. induction keys as [|k keys IH]; intros m; cbn [foldl]; [case_decide; unfold occ; cbn; lia|].
  rewrite IH, leave_key_lookup, occ_cons. destruct (decide (key = k)) as [->|Hk]; [|case_decide; lia].
  rewrite remove_first_occ. case_decide; lia.
Qed.
(** No empty list stays behind. *)
Definition tidy (m : registry) : Prop := ∀ key, m !! key ≠ Some [].
Lemma register_tidy ch keys m : tidy m → tidy (register ch keys m).
Proof.
  unfold register. revert m. induction keys as [|k keys IH]; intros m Hm; cbn [foldl]; [done|]. apply IH. intros key.
  rewrite lookup_insert_Some. intros [[_ E]|[_ E]]; [by destruct (default [] (m !! k))|by apply Hm in E].
Qed.
Lemma unregister_tidy ch keys m : tidy m → tidy (unregister ch keys m).
Proof.
  unfold unregister. revert m. induction keys as [|k keys IH]; intros m Hm; cbn [foldl]; [done|]. apply IH. intros key.
  unfold leave_key. destruct (remove_first ch _) as [|c l]; [intros E; apply lookup_delete_Some in E as [_ E]; by apply Hm in E|].
  rewrite lookup_insert_Some. intros [[_ E]|[_ E]]; [done|by apply Hm in E].
Qed.

(** ** The invariant *)

(** A channel is registered under a key exactly as often as its client asked
    for the key; messages and sends to come are for keys the client asked
    for. *)
Definition consistent (n : notifier) : Prop :=
  tidy (subscribers n) ∧
  (∀ key ch, occ ch (default [] (subscribers n !! key)) = occ key (default [] (waiting n !! ch))) ∧
  (∀ ch keys, waiting n !! ch = Some keys → (ch < channels n)%nat) ∧
  (∀ ch key keys, waiting n !! ch = Some keys → buffers n !! ch = Some key ∨ (ch, key) ∈ pending n → key ∈ keys) ∧
  (∀ ch, is_Some (buffers n !! ch) ∨ ch ∈ (pending n).*1 → (ch < channels n)%nat).

Lemma consistent_step n n' : consistent n → step n n' → consistent n'.
Proof.
  intros (Ht & Hc & Hw & Hm & Hb) [a Ha]. destruct a as [keys|ch|key|]; cbn in Ha.
  - case_bool_decide as Hk; [done|]. injection Ha as <-. split_and!; cbn [waiting subscribers buffers pending channels].
    + by apply register_tidy.
    + intros key ch. rewrite register_occ, Hc. destruct (decide (ch = channels n)) as [->|Hn].
      * rewrite lookup_insert_eq. destruct (waiting n !! channels n) eqn:E; [apply Hw in E; lia|]. done.
      * rewrite lookup_insert_ne by done. lia.
    + intros ch keys'. rewrite lookup_insert_Some. intros [[<- _]|[_ E]]; [lia|]. apply Hw in E. lia.
    + intros ch key keys'. rewrite lookup_insert_Some. intros [[<- _]|[_ E]]; [|by apply Hm].
      intros H. exfalso. assert (channels n < channels n)%nat; [apply Hb|lia].
      destruct H as [H|H]; [left; by eexists|right]. by apply (list_elem_of_fmap_2 fst) in H.
    + intros ch H. apply Hb in H. lia.
  - destruct (waiting n !! ch) as [keys|] eqn:E; [|done]. injection Ha as <-. split_and!; cbn [waiting subscribers buffers pending channels].
    + by apply unregister_tidy.
    + intros key c. rewrite unregister_occ, Hc. destruct (decide (c = ch)) as [->|Hn].
      * rewrite lookup_delete_eq, E. unfold occ. cbn. lia.
      * rewrite lookup_delete_ne by done. lia.
    + intros c keys'. rewrite lookup_delete_Some. intros [_ E']. by eapply Hw.
    + intros c key keys'. rewrite lookup_delete_Some. intros [_ E']. by apply Hm.
    + done.
  - case_bool_decide as Hp; [|done]. injection Ha as <-. split_and!; cbn [waiting subscribers buffers pending channels]; try done.
    + intros ch k keys E [H|H]; [by eapply Hm; [|left]|]. apply list_elem_of_fmap in H as (c & [= <- <-] & Hin).
      apply occ_elem in Hin. rewrite Hc, E in Hin. by apply occ_elem in Hin.
    + intros ch [H|H]; [apply Hb; by left|]. apply list_elem_of_fmap in H as ([c k] & -> & H).
      apply list_elem_of_fmap in H as (c' & [= -> ->] & Hin). apply occ_elem in Hin. rewrite Hc in Hin.
      destruct (waiting n !! c') eqn:E; [by eapply Hw|]. unfold occ in Hin. cbn in Hin. lia.
  - destruct (pending n) as [|[ch key] rest] eqn:Ep; [done|]. injection Ha as <-.
    assert (∀ c k, send ch key (buffers n) !! c = Some k → buffers n !! c = Some k ∨ (c = ch ∧ k = key)) as Hs.
    { intros c k. unfold send. destruct (buffers n !! ch) eqn:E; [by left|]. rewrite lookup_insert_Some.
      intros [[<- <-]|[_ H]]; [by right|by left]. }
    split_and!; cbn [waiting subscribers buffers pending channels]; try done.
    + intros c k keys E [H|H]; [apply Hs in H as [H|[-> ->]]|]; eapply Hm; eauto; right; set_solver.
    + intros c [[k H]|H]; [apply Hs in H as [H|[-> _]]|]; apply Hb; [left; by eexists|right; set_solver..].
Qed.
Lemma reachable_consistent n : reachable n → consistent n.
Proof.
  intros H. assert (consistent start) as H0.
  { split_and!; try done. intros ch [[k E]|E]; [done|by apply not_elem_of_nil in E]. }
  induction H as [|n1 n2 n3 Hs _ IH]; [done|]. apply IH. by eapply consistent_step.
Qed.

(** ** Wake-ups *)

(** A message is there for the channel, or on its way. *)
Definition owed (ch : nat) (n : notifier) : Prop :=
  (ch < channels n)%nat ∧ (is_Some (waiting n !! ch) → is_Some (buffers n !! ch) ∨ ch ∈ (pending n).*1).
Lemma send_keeps ch key b c : is_Some (b !! c) → is_Some (send ch key b !! c).
Proof. intros H. unfold send. destruct (b !! ch); [done|]. destruct (decide (c = ch)) as [->|]; [by rewrite lookup_insert_eq|by rewrite lookup_insert_ne]. Qed.
Lemma send_arrives ch key b : is_Some (send ch key b !! ch).
Proof. unfold send. destruct (b !! ch) eqn:E; [by rewrite E|by rewrite lookup_insert_eq]. Qed.
Lemma owed_step ch n n' : owed ch n → step n n' → owed ch n'.
Proof.
  intros [Hl Ho] [a Ha]. destruct a as [keys|c|key|]; cbn in Ha.
  - case_bool_decide; [done|]. injection Ha as <-. split; cbn; [lia|]. by rewrite lookup_insert_ne by lia.
  - destruct (waiting n !! c); [|done]. injection Ha as <-. split; cbn; [done|]. intros [k Hk].
    apply lookup_delete_Some in Hk as [_ Hk]. apply Ho. by eexists.
  - case_bool_decide as Hp; [|done]. injection Ha as <-. split; cbn; [done|]. intros Hw. left.
    destruct (Ho Hw) as [|H]; [done|]. rewrite Hp in H. by apply not_elem_of_nil in H.
  - destruct (pending n) as [|[c k] rest]; [done|]. injection Ha as <-. split; cbn; [done|]. intros Hw.
    destruct (Ho Hw) as [H|[->|H]%elem_of_cons]; [left; by apply send_keeps|left; apply send_arrives|by right].
Qed.

Lemma keeps_keys ch keys n n' :
  owed ch n → (∀ l, waiting n !! ch = Some l → l = keys) → step n n' → ∀ l, waiting n' !! ch = Some l → l = keys.
Proof.
  intros [Hl _] Hk [a Ha] l. destruct a as [keys'|c|key|]; cbn in Ha.
  - case_bool_decide; [done|]. injection Ha as <-. cbn. rewrite lookup_insert_ne by lia. apply Hk.
  - destruct (waiting n !! c); [|done]. injection Ha as <-. cbn. rewrite lookup_delete_Some. intros [_ ?]. by apply Hk.
  - case_bool_decide; [|done]. injection Ha as <-. apply Hk.
  - destruct (pending n) as [|[c k] rest]; [done|]. injection Ha as <-. apply Hk.
Qed.

(** C22. No wake-up is lost. In any interleaving of clients that come and go
    with the listener: a channel is registered under a key exactly as often as
    its waiting client asked for it, and under no key once the client has
    left; and when the notification of a push to a key is taken up while a
    client waits for the key, then, as soon as the listener is done with it
    and unless the client has left, a key of the client is in its channel, so
    that its wait ends. The key of a push arrives as it was sent, whatever
    bytes it is made of. *)
Theorem push_wakes_waiters n ch keys key n1 n2 :
  reachable n → waiting n !! ch = Some keys → key ∈ keys →
  act (Copy (received (NotifyPush key))) n = Some n1 → rtc step n1 n2 → pending n2 = [] →
  (∀ k c, occ c (default [] (subscribers n2 !! k)) = occ k (default [] (waiting n2 !! c))) ∧
  (waiting n2 !! ch = None ∨
   ∃ key', buffers n2 !! ch = Some key' ∧ waiting n2 !! ch = Some keys ∧ key' ∈ keys ∧
           ∀ timeout elapsed, wait_result timeout elapsed false (buffers n2 !! ch) key').
Proof.
  intros Hr Hw Hk Ha Hs Hp. unfold received, NotifyPush in Ha. rewrite Base64.DecodeString_EncodeToString in Ha.
  rewrite string_of_bytes_of in Ha.
  pose proof (reachable_consistent n Hr) as (_ & Hc & Hlt & _).
  assert (owed ch n1) as Ho.
  { cbn in Ha. case_bool_decide; [|done]. injection Ha as <-. split; [by eapply Hlt|]. intros _. right. cbn.
    rewrite <-list_fmap_compose. apply list_elem_of_fmap. exists ch. split; [done|].
    apply occ_elem. rewrite Hc, Hw. by apply occ_elem. }
  assert (step n n1) as Hs1 by (by eexists).
  assert (reachable n2) as Hr2 by (unfold reachable; etrans; [exact Hr|]; eapply rtc_l; [exact Hs1|done]).
  pose proof (reachable_consistent n2 Hr2) as (_ & Hc2 & _ & Hm2 & _). split; [exact Hc2|].
  assert (owed ch n2 ∧ ∀ l, waiting n2 !! ch = Some l → l = keys) as [[_ Ho2] Hsame].
  { assert (∀ l, waiting n1 !! ch = Some l → l = keys) as Hw1.
    { cbn in Ha. case_bool_decide; [|done]. injection Ha as <-. cbn. congruence. }
    clear -Ho Hs Hw1. induction Hs as [n|n1 n2 n3 Hs _ IH]; [done|]. apply IH; [by eapply owed_step|].
    by eapply keeps_keys. }
  destruct (waiting n2 !! ch) as [l|] eqn:El; [right|by left]. pose proof (Hsame l eq_refl) as ->.
  destruct (Ho2 ltac:(by eexists)) as [[key' Hb]|Hb]; [|rewrite Hp in Hb; by apply not_elem_of_nil in Hb].
  exists key'. split_and!; [done..|by eapply Hm2; [|left]|]. intros timeout elapsed. by apply wait_key.
Qed.

(** A wait without a time limit of its own only ends with a message or with
    the connection; a time limit that has already passed makes no timer. *)
Lemma wait_without_timer timeout elapsed key :
  (timeout <= 0)%Z → ¬ wait_result timeout elapsed false None key.
Proof. intros Ht H. inversion H; [done|lia|done]. Qed.

(** ** Examples *)

(** Client 0 waits for two keys, client 1 for one of them; a push to it wakes
    both, and client 1 leaves. *)
Definition two_clients : notifier :=
  default start (act (Arrive ["a"; "b"]) start ≫= act (Arrive ["b"])).
Definition woken : notifier :=
  default start (((act (Copy "b") two_clients ≫= act Send) ≫= act (Leave 1)) ≫= act Send).
Lemma push_wakes_waiters_witness :
  ∃ key', buffers woken !! 0%nat = Some key' ∧ key' ∈ ["a"; "b"].
Proof.
  destruct (push_wakes_waiters two_clients 0 ["a"; "b"] "b" (default start (act (Copy "b") two_clients)) woken) as [_ [H|(key' & Hb & _ & Hk & _)]].
  - eapply rtc_l; [exists (Arrive ["a"; "b"]); reflexivity|]. eapply rtc_l; [exists (Arrive ["b"]); vm_compute; reflexivity|]. apply rtc_refl.
  - vm_compute. reflexivity.
  - right. by left.
  - vm_compute. reflexivity.
  - eapply rtc_l; [exists Send; vm_compute; reflexivity|]. eapply rtc_l; [exists (Leave 1); vm_compute; reflexivity|].
    eapply rtc_l; [exists Send; vm_compute; reflexivity|]. apply rtc_refl.
  - vm_compute. reflexivity.
  - vm_compute in H. discriminate H.
  - exists key'. split; [exact Hb|exact Hk].
Defined.

End ListNotify.
