(* ===== verification/Listener.v ===== *)
(** * Listener connections: hub.go, notifier.go, invalidator.go and main.go

    The pub/sub hub, the list notifier and the cache invalidator each keep one
    PostgreSQL connection of their own on which they LISTEN, in a loop that
    waits for a notification, backs off and reconnects. One turn of each loop
    is a function ([hub_turn], [notifier_turn], [invalidator_turn]) of what
    pgx, the clock and the context give in it. The three are instances of one
    loop ([turn]), for which the theorems are proved: together with a server
    that hands every notification to the connections listening at that moment,
    notifications are handled in the order they were sent and at most once,
    all of them while the connection holds; never more than one connection is
    open; the pauses are the doubled ones up to their limits.

    What is done with a payload is [PubSub.handleNotification],
    [ListNotify.received] and [Cache.processNotification]. *)
From stdpp Require Import gmap strings list sorting.
From Stdlib Require Import ZArith Lia Ascii.
From S2P Require Import Prelude GoStd.

Module Listener.
Local Open Scope Z_scope.

Definition Millisecond : Z := 10 ^ 6.
Definition Second : Z := 10 ^ 9.

(** ** What a turn of the loop meets *)

(** The error of [WaitForNotification]: its text, whether it is the value
    [context.DeadlineExceeded] and whether it wraps it ([errors.Is]). *)
Record wait_error := WaitError { we_text : string; we_same : bool; we_is : bool }.
Inductive wait_result := Notified (channel payload : string) | WaitFailed (er : wait_error).
(** [pgx.Connect] fails, or LISTEN does, or neither. *)
Inductive connect_result := ConnectFailed | ListenFailed | Connected.
(** The context may be done at the top of the loop, before the end of a pause,
    or after a wait that failed. *)
Record input := Input {
  done_top : bool;
  connect : connect_result;
  done_sleep : bool;
  wait : wait_result;
  done_wait : bool
}.

(** ** The state of a loop *)

(** Connections are numbered; [opened] are those not closed again. [slept]
    lists the pauses between attempts to reconnect, [handled] the payloads
    passed on. *)
Record listener := MkListener {
  listenerConn : option nat;
  opened : gset nat;
  fresh : nat;
  currentTimeout : Z;
  reconnectBackoff : Z;
  slept : list Z;
  handled : list string
}.
Definition with_conn (c : option nat) (o : gset nat) (l : listener) : listener :=
  MkListener c o (fresh l) (currentTimeout l) (reconnectBackoff l) (slept l) (handled l).
Definition with_timeout (t : Z) (l : listener) : listener :=
  MkListener (listenerConn l) (opened l) (fresh l) t (reconnectBackoff l) (slept l) (handled l).
Definition with_backoff (b : Z) (l : listener) : listener :=
  MkListener (listenerConn l) (opened l) (fresh l) (currentTimeout l) b (slept l) (handled l).
Definition open_conn (l : listener) : listener * nat :=
  (MkListener (listenerConn l) ({[fresh l]} ∪ opened l) (S (fresh l)) (currentTimeout l) (reconnectBackoff l)
     (slept l) (handled l), fresh l).
Definition close_conn (c : nat) (l : listener) : listener :=
  with_conn (listenerConn l) (opened l ∖ {[c]}) l.
Definition pause (l : listener) : listener :=
  MkListener (listenerConn l) (opened l) (fresh l) (currentTimeout l) (reconnectBackoff l)
    (slept l ++ [reconnectBackoff l]) (handled l).
Definition handle (payload : string) (l : listener) : listener :=
  MkListener (listenerConn l) (opened l) (fresh l) (currentTimeout l) (reconnectBackoff l) (slept l)
    (handled l ++ [payload]).

(** [b *= 2; if b > max { b = max }] *)
Definition doubled (max b : Z) : Z := if max <? 2 * b then max else 2 * b.

(** [Close] of the connection, if there is one, and [listenerConn = nil]. *)
Definition drop_conn (l : listener) : listener :=
  match listenerConn l with
  | Some c => with_conn None (opened (close_conn c l)) (close_conn c l)
  | None => l
  end.

(** [reconnect] of the notifier and of the invalidator, the same code twice;
    the hub sets its field before it listens, and takes it back. *)
Definition reconnect (r : connect_result) (l : listener) : listener * bool :=
  let l := drop_conn l in
  match r with
  | ConnectFailed => (l, false)
  | ListenFailed => let '(l, c) := open_conn l in (close_conn c l, false)
  | Connected => let '(l, c) := open_conn l in (with_conn (Some c) (opened l) l, true)
  end.
Definition invalidator_reconnect := reconnect.
Definition hub_reconnect (r : connect_result) (l : listener) : listener * bool :=
  let l := drop_conn l in
  match r with
  | ConnectFailed => (l, false)
  | _ =>
      let '(l, c) := open_conn l in
      let l := with_conn (Some c) (opened l) l in
      match r with
      | Connected => (l, true)
      | _ => let l := close_conn c l in (with_conn None (opened l) l, false)
      end
  end.
Lemma hub_reconnect_eq r l : listenerConn l = None → hub_reconnect r l = reconnect r l.
Proof.
  intros Hc. unfold hub_reconnect, reconnect, drop_conn. rewrite Hc. destruct r; [done| |done].
  unfold open_conn, close_conn, with_conn. cbn. by rewrite Hc.
Qed.

(** [Start], the same code three times: the connection is kept in the field
    even when LISTEN fails and it is closed. The flag tells whether the loop
    was started. *)
Definition Start (r : connect_result) (l : listener) : listener * bool :=
  match r with
  | ConnectFailed => (l, false)
  | ListenFailed => let '(l, c) := open_conn l in (close_conn c (with_conn (Some c) (opened l) l), false)
  | Connected => let '(l, c) := open_conn l in (with_conn (Some c) (opened l) l, true)
  end.
Definition notifier_Start := Start.
Definition invalidator_Start := Start.

(** [Stop] after the loop has returned, the same code three times. *)
Definition Stop (l : listener) : listener :=
  match listenerConn l with Some c => close_conn c l | None => l end.
Definition notifier_Stop := Stop.
Definition invalidator_Stop := Stop.

(** ** The three loops

    A turn gives the new state and whether the loop goes on. *)

Definition minTimeout : Z := 50 * Millisecond.
Definition maxTimeout : Z := 2 * Second.
Definition minReconnectBackoff : Z := 100 * Millisecond.
Definition maxReconnectBackoff : Z := 30 * Second.
Definition broadcastChannel : string := "postkeys_pubsub".

(** [isTimeoutError] of hub.go and notifier.go, and that of invalidator.go. *)
Definition isTimeoutError (er : wait_error) : bool :=
  we_is er || Strings.Contains (we_text er) "context deadline exceeded".
Definition invalidator_isTimeoutError (er : wait_error) : bool :=
  we_same er || bool_decide (we_text er = "context deadline exceeded").

Definition hub_turn (i : input) (l : listener) : listener * bool :=
  if done_top i then (l, false)
  else match listenerConn l with
  | None =>
      let '(l, ok) := hub_reconnect (connect i) l in
      if ok then (with_timeout minTimeout (with_backoff minReconnectBackoff l), true)
      else if done_sleep i then (l, false)
      else let l := pause l in (with_backoff (doubled maxReconnectBackoff (reconnectBackoff l)) l, true)
  | Some _ =>
      match wait i with
      | WaitFailed er =>
          if done_wait i then (l, false)
          else if negb (isTimeoutError er) then (drop_conn l, true)
          else if currentTimeout l <? maxTimeout
          then (with_timeout (doubled maxTimeout (currentTimeout l)) l, true)
          else (l, true)
      | Notified channel payload =>
          let l := with_timeout minTimeout l in
          if bool_decide (channel ≠ broadcastChannel) then (l, true) else (handle payload l, true)
      end
  end.

Definition notifier_turn (i : input) (l : listener) : listener * bool :=
  if done_top i then (l, false)
  else match listenerConn l with
  | None =>
      let '(l, ok) := reconnect (connect i) l in
      if ok then (with_timeout minTimeout (with_backoff minReconnectBackoff l), true)
      else if done_sleep i then (l, false)
      else let l := pause l in (with_backoff (doubled maxReconnectBackoff (reconnectBackoff l)) l, true)
  | Some _ =>
      match wait i with
      | WaitFailed er =>
          if done_wait i then (l, false)
          else if negb (isTimeoutError er) then (drop_conn l, true)
          else if currentTimeout l <? maxTimeout
          then (with_timeout (doubled maxTimeout (currentTimeout l)) l, true)
          else (l, true)
      | Notified _ payload =>
          (handle payload (with_backoff minReconnectBackoff (with_timeout minTimeout l)), true)
      end
  end.

(** The wait is always bounded by five seconds, so there is no [currentTimeout]
    here. *)
Definition invalidator_turn (i : input) (l : listener) : listener * bool :=
  if done_top i then (l, false)
  else match listenerConn l with
  | None =>
      let '(l, ok) := invalidator_reconnect (connect i) l in
      if ok then (with_backoff minReconnectBackoff l, true)
      else if done_sleep i then (l, false)
      else let l := pause l in (with_backoff (doubled maxReconnectBackoff (reconnectBackoff l)) l, true)
  | Some _ =>
      match wait i with
      | WaitFailed er =>
          if done_wait i then (l, false)
          else if negb (invalidator_isTimeoutError er) then (drop_conn l, true) else (l, true)
      | Notified _ payload => (handle payload (with_backoff minReconnectBackoff l), true)
      end
  end.

(** ** What the loops have in common *)

Definition on_channel (channel : string) (i : input) : Prop :=
  match wait i with Notified ch _ => ch = channel | WaitFailed _ => True end.
(** The turn takes a notification off the connection. *)
Definition taken (i : input) (l : listener) : option string :=
  if done_top i then None
  else match listenerConn l, wait i with Some _, Notified _ payload => Some payload | _, _ => None end.

Inductive outcome (i : input) (l l' : listener) : Prop :=
| unchanged :
    taken i l = None → listenerConn l' = listenerConn l → opened l' = opened l → fresh l' = fresh l →
    handled l' = handled l → outcome i l l'
| unconnected :
    listenerConn l = None → listenerConn l' = None →
    opened l' = ({[fresh l]} ∪ opened l) ∖ {[fresh l]} → fresh l' = S (fresh l) →
    handled l' = handled l → outcome i l l'
| connected :
    listenerConn l = None → listenerConn l' = Some (fresh l) → opened l' = {[fresh l]} ∪ opened l →
    fresh l' = S (fresh l) → handled l' = handled l → outcome i l l'
| dropped c :
    listenerConn l = Some c → taken i l = None → listenerConn l' = None → opened l' = opened l ∖ {[c]} →
    fresh l' = fresh l → handled l' = handled l → outcome i l l'
| passed_on payload :
    taken i l = Some payload → listenerConn l' = listenerConn l → opened l' = opened l → fresh l' = fresh l →
    handled l' = handled l ++ [payload] → outcome i l l'.

Definition in_bounds (l : listener) : Prop :=
  minTimeout <= currentTimeout l <= maxTimeout ∧
  minReconnectBackoff <= reconnectBackoff l <= maxReconnectBackoff ∧
  Forall (λ d, minReconnectBackoff <= d <= maxReconnectBackoff) (slept l).

(** The turn fails to reconnect and nothing ends the loop. *)
Definition no_luck (i : input) : Prop := done_top i = false ∧ connect i ≠ Connected ∧ done_sleep i = false.

(** A loop on a channel: every turn has one of these outcomes and keeps the
    times within their bounds. *)
Class ListenLoop (channel : string) (turn : input → listener → listener * bool) : Prop := {
  turn_outcome i l l' go : on_channel channel i → turn i l = (l', go) → outcome i l l';
  turn_bounds i l l' go : turn i l = (l', go) → in_bounds l → in_bounds l';
  turn_goes_on i l payload : taken i l = Some payload → (turn i l).2 = true;
  turn_pauses i l : no_luck i → listenerConn l = None →
    let l' := (turn i l).1 in
    (turn i l).2 = true ∧ listenerConn l' = None ∧ slept l' = slept l ++ [reconnectBackoff l] ∧
    reconnectBackoff l' = doubled maxReconnectBackoff (reconnectBackoff l)
}.

Lemma doubled_bounds lo max b : 0 <= lo <= b → b <= max → lo <= doubled max b <= max.
Proof. unfold doubled. destruct (Z.ltb_spec max (2 * b)); lia. Qed.

(** The half of the turns without a connection. *)
Lemma reconnect_outcome i l l' ok :
  listenerConn l = None → reconnect (connect i) l = (l', ok) →
  outcome i l l' ∧ currentTimeout l' = currentTimeout l ∧ reconnectBackoff l' = reconnectBackoff l ∧ slept l' = slept l.
Proof.
  intros Hn. unfold reconnect, drop_conn. rewrite Hn. destruct (connect i); cbn.
  - intros [= <- <-]. split; [|done]. apply unchanged; [|done..]. unfold taken. rewrite Hn. by destruct (done_top i).
  - intros [= <- <-]. split; [|done]. by apply unconnected.
  - intros [= <- <-]. split; [|done]. by apply connected.
Qed.

(** Times play no part in an outcome. *)
Lemma outcome_times i l l1 l2 :
  outcome i l l1 → listenerConn l2 = listenerConn l1 → opened l2 = opened l1 → fresh l2 = fresh l1 →
  handled l2 = handled l1 → outcome i l l2.
Proof.
  intros Ho E1 E2 E3 E4; destruct Ho;
    [eapply unchanged|eapply unconnected|eapply connected|eapply dropped|eapply passed_on]; eauto; congruence.
Qed.

Lemma drop_outcome i l c :
  listenerConn l = Some c → taken i l = None → outcome i l (drop_conn l).
Proof. intros Hc Ht. unfold drop_conn. rewrite Hc. by eapply dropped. Qed.

(** The proofs for the three loops follow their common structure. *)
Ltac loop_outcome :=
  let i := fresh "i" in let l := fresh "l" in
  intros i l l' go Hch;
  assert (done_top i = true → taken i l = None) as Hdone by (unfold taken; by intros ->);
  destruct (done_top i) eqn:Ht; [intros [= <- <-]; apply unchanged; auto|];
  destruct (listenerConn l) as [c|] eqn:Hc;
  [ unfold on_channel in Hch; destruct (wait i) as [ch p|er] eqn:Hw;
    [ subst ch; rewrite ?bool_decide_false by auto; intros [= <- <-]; eapply passed_on; try done;
      unfold taken; by rewrite Ht, Hc, Hw
    | assert (taken i l = None) as Hn by (unfold taken; by rewrite Ht, Hc, Hw);
      repeat case_if; intros [= <- <-]; solve [by apply unchanged | by eapply drop_outcome] ]
  | unfold invalidator_reconnect; rewrite ?hub_reconnect_eq by done;
    destruct (reconnect (connect i) l) as [l1 ok] eqn:E; apply reconnect_outcome in E as (Ho & _); [|done];
    repeat case_if; intros [= <- <-]; solve [done | by eapply outcome_times] ].

Lemma drop_conn_times l :
  currentTimeout (drop_conn l) = currentTimeout l ∧ reconnectBackoff (drop_conn l) = reconnectBackoff l ∧
  slept (drop_conn l) = slept l.
Proof. unfold drop_conn. by destruct (listenerConn l). Qed.

Lemma bounds_same l l' :
  in_bounds l → currentTimeout l' = currentTimeout l → reconnectBackoff l' = reconnectBackoff l → slept l' = slept l →
  in_bounds l'.
Proof. unfold in_bounds. by intros H -> -> ->. Qed.

Lemma bounds_drop l : in_bounds l → in_bounds (drop_conn l).
Proof. intros H. destruct (drop_conn_times l) as (? & ? & ?). by eapply bounds_same. Qed.

Lemma bounds_timeout l t : in_bounds l → minTimeout <= t <= maxTimeout → in_bounds (with_timeout t l).
Proof. intros (_ & ? & ?) Ht. split; [exact Ht|by split]. Qed.

Lemma bounds_backoff l b :
  in_bounds l → minReconnectBackoff <= b <= maxReconnectBackoff → in_bounds (with_backoff b l).
Proof. intros (? & _ & ?) Hb. split; [assumption|]. split; [exact Hb|assumption]. Qed.

Lemma bounds_pause l : in_bounds l → in_bounds (with_backoff (doubled maxReconnectBackoff (reconnectBackoff l)) (pause l)).
Proof.
  intros (Ht & Hb & Hs). apply bounds_backoff.
  - split; [exact Ht|]. split; [exact Hb|]. cbn. apply Forall_app. split; [done|]. by constructor.
  - cbn. apply doubled_bounds; unfold minReconnectBackoff, Millisecond in *; lia.
Qed.

Lemma bounds_handle p l : in_bounds l → in_bounds (handle p l).
Proof. done. Qed.

Lemma bounds_doubled_timeout l : in_bounds l → in_bounds (with_timeout (doubled maxTimeout (currentTimeout l)) l).
Proof.
  intros H. apply bounds_timeout; [done|]. destruct H as ([? ?] & _). apply doubled_bounds; [|done].
  unfold minTimeout, Millisecond in *. lia.
Qed.

Create HintDb listen.
#[export] Hint Resolve bounds_drop bounds_pause bounds_handle bounds_doubled_timeout bounds_timeout bounds_backoff : listen.

Lemma min_timeout_ok : minTimeout <= minTimeout <= maxTimeout.
Proof. unfold minTimeout, maxTimeout, Millisecond, Second. lia. Qed.
Lemma min_backoff_ok : minReconnectBackoff <= minReconnectBackoff <= maxReconnectBackoff.
Proof. unfold minReconnectBackoff, maxReconnectBackoff, Millisecond, Second. lia. Qed.
#[export] Hint Resolve min_timeout_ok min_backoff_ok : listen.

Ltac loop_bounds :=
  let i := fresh "i" in let l := fresh "l" in
  intros i l l' go; destruct (done_top i); [by intros [= <- <-]|];
  destruct (listenerConn l) as [c|] eqn:Hc;
  [ destruct (wait i) as [ch p|er]; repeat case_if; intros [= <- <-]; auto with listen
  | unfold invalidator_reconnect; rewrite ?hub_reconnect_eq by done;
    destruct (reconnect (connect i) l) as [l1 ok] eqn:E;
    apply reconnect_outcome in E as (_ & Et & Eb & Es); [|done];
    repeat case_if; intros [= <- <-] Hin; assert (in_bounds l1) by (by eapply bounds_same); auto with listen ].

Ltac loop_goes_on :=
  let i := fresh "i" in let l := fresh "l" in
  intros i l p; unfold taken; destruct (done_top i); [done|];
  destruct (listenerConn l); [|done]; destruct (wait i); [|done]; intros _; by try case_bool_decide.

Ltac loop_pauses :=
  let i := fresh "i" in let l := fresh "l" in
  intros i l (-> & Hc & ->) Hn; rewrite Hn; unfold invalidator_reconnect; rewrite ?hub_reconnect_eq by done;
  unfold reconnect, drop_conn; rewrite Hn;
  by destruct (connect i).

#[export] Instance hub_loop : ListenLoop broadcastChannel hub_turn.
Proof. split; unfold hub_turn; [loop_outcome|loop_bounds|loop_goes_on|loop_pauses]. Qed.

Definition listPushChannel : string := "postkeys_list_push".
#[export] Instance notifier_loop : ListenLoop listPushChannel notifier_turn.
Proof. split; unfold notifier_turn; [loop_outcome|loop_bounds|loop_goes_on|loop_pauses]. Qed.

Definition cacheInvalidateChannel : string := "postkeys_cache_invalidate".
#[export] Instance invalidator_loop : ListenLoop cacheInvalidateChannel invalidator_turn.
Proof. split; unfold invalidator_turn; [loop_outcome|loop_bounds|loop_goes_on|loop_pauses]. Qed.

(** ** A loop and its server *)

(** [alive]: the server still serves the connection in the listener's field;
    [queue] are the notifications it has for it. [sent] are all notifications of
    the channel so far, [gaps] counts the connections that were lost. *)
Record sys := MkSys {
  loop : listener;
  running : bool;
  alive : bool;
  queue : list string;
  sent : list string;
  gaps : nat
}.
Inductive event := Notify (payload : string) | Break | Turn (i : input).

Section System.
Context (channel : string) (turn : input → listener → listener * bool) {LL : ListenLoop channel turn}.

(** The server sends what it queued, in order, and only on the channel. *)
Definition possible (i : input) (s : sys) : Prop :=
  on_channel channel i ∧ ∀ payload, taken i (loop s) = Some payload → head (queue s) = Some payload.

Definition step (ev : event) (s : sys) : sys :=
  match ev with
  | Notify payload =>
      MkSys (loop s) (running s) (alive s) (if alive s then queue s ++ [payload] else queue s) (sent s ++ [payload]) (gaps s)
  | Break => if alive s then MkSys (loop s) (running s) false [] (sent s) (S (gaps s)) else s
  | Turn i =>
      let '(l, go) := turn i (loop s) in
      if bool_decide (listenerConn l = listenerConn (loop s)) then
        MkSys l go (alive s) (match taken i (loop s) with Some _ => tail (queue s) | None => queue s end) (sent s) (gaps s)
      else match listenerConn l with
           | Some _ => MkSys l go true [] (sent s) (gaps s)
           | None => MkSys l go false [] (sent s) (if alive s then S (gaps s) else gaps s)
           end
  end.
Definition enabled (ev : event) (s : sys) : Prop :=
  match ev with Turn i => running s = true ∧ possible i s | _ => True end.
Inductive runs : sys → list event → sys → Prop :=
| runs_nil s : runs s [] s
| runs_cons s ev evs s' : enabled ev s → runs (step ev s) evs s' → runs s (ev :: evs) s'.

(** After a [Start] that succeeded. *)
Definition started : sys :=
  let '(l, _) := Start Connected (MkListener None ∅ 0 minTimeout minReconnectBackoff [] []) in
  MkSys l true true [] [] 0.

Definition conn_set (c : option nat) : gset nat := match c with Some c => {[c]} | None => ∅ end.
Definition good (s : sys) : Prop :=
  let l := loop s in
  opened l = conn_set (listenerConn l) ∧ (∀ c, listenerConn l = Some c → (c < fresh l)%nat) ∧ in_bounds l ∧
  (listenerConn l = None → alive s = false ∧ queue s = []) ∧ (alive s = false → queue s = [] ∧ gaps s ≠ 0%nat) ∧
  (handled l ++ queue s) `sublist_of` sent s ∧ (gaps s = 0%nat → handled l ++ queue s = sent s).

Lemma good_notify p s : good s → good (step (Notify p) s).
Proof.
  intros (Ho & Hf & Hb & Hn & Ha & Hs & Hg). split_and!; cbn; try done.
  - intros Hc. destruct (Hn Hc) as [-> ->]. done.
  - intros Hal. rewrite Hal. auto.
  - destruct (alive s); [rewrite app_assoc; by apply sublist_app|by apply sublist_inserts_r].
  - intros Hg0. destruct (alive s); [by rewrite app_assoc, Hg|]. by destruct (Ha eq_refl).
Qed.

Lemma good_break s : good s → good (step Break s).
Proof.
  intros Hgood. pose proof Hgood as (Ho & Hf & Hb & Hn & Ha & Hs & Hg). cbn [step].
  destruct (alive s) eqn:Hal; [|done].
  split_and!; cbn; try done. rewrite app_nil_r. etransitivity; [|exact Hs]. by apply sublist_inserts_r.
Qed.

Lemma good_turn i s : possible i s → good s → good (step (Turn i) s).
Proof.
  intros [Hch Hq] (Ho & Hf & Hb & Hn & Ha & Hs & Hg). cbn [step].
  destruct (turn i (loop s)) as [l go] eqn:E.
  pose proof (turn_bounds _ _ _ _ E Hb) as Hb'. apply turn_outcome in E; [|done].
  assert (handled (loop s) `sublist_of` sent s) as Hh
    by (etransitivity; [|exact Hs]; by apply sublist_inserts_r).
  destruct E as [Ht Ec Eo Ef Eh|Ec0 Ec Eo Ef Eh|Ec0 Ec Eo Ef Eh|c Ec0 Ht Ec Eo Ef Eh|p Ht Ec Eo Ef Eh].
  - rewrite bool_decide_true, Ht by done. split_and!; cbn; rewrite ?Ec, ?Eo, ?Ef, ?Eh; done.
  - rewrite bool_decide_true by congruence. destruct (Hn Ec0) as [Hal Hqe].
    assert (taken i (loop s) = None) as -> by (unfold taken; rewrite Ec0; by destruct (done_top i)).
    split_and!; cbn; rewrite ?Ec, ?Eo, ?Ef, ?Eh; try done. rewrite Ho, Ec0. cbn. set_solver.
  - rewrite bool_decide_false by congruence. rewrite Ec. destruct (Hn Ec0) as [Hal Hqe].
    destruct (Ha Hal) as [_ Hgaps].
    split_and!; cbn; rewrite ?Ec, ?Eo, ?Ef, ?Eh, ?app_nil_r; try done.
    + rewrite Ho, Ec0. cbn. set_solver.
    + intros c [= <-]. lia.
  - rewrite bool_decide_false by congruence. rewrite Ec.
    split_and!; cbn; rewrite ?Ec, ?Eo, ?Ef, ?Eh, ?app_nil_r; try done.
    + rewrite Ho, Ec0. cbn. set_solver.
    + destruct (alive s); [done|]. intros _. by destruct (Ha eq_refl).
    + destruct (alive s); [done|]. intros Hg0. by destruct (Ha eq_refl).
  - rewrite bool_decide_true, Ht by done. specialize (Hq p Ht).
    destruct (queue s) as [|p' q] eqn:Eq; [done|]. injection Hq as ->.
    split_and!; cbn; rewrite ?Ec, ?Eo, ?Ef, ?Eh, <-?app_assoc; cbn; try done.
    + intros Hc. by destruct (Hn Hc).
    + intros Hal. by destruct (Ha Hal).
Qed.

Lemma good_started : good started.
Proof. split_and!; cbn; try done; try (unfold minTimeout, maxTimeout, minReconnectBackoff, maxReconnectBackoff, Millisecond, Second; lia). intros c [= <-]. lia. Qed.

Lemma good_runs s evs s' : runs s evs s' → good s → good s'.
Proof.
  induction 1 as [|s ev evs s' He _ IH]; [done|]. intros Hg. apply IH.
  destruct ev as [p| |i]; [by apply good_notify|by apply good_break|]. destruct He. by apply good_turn.
Qed.

(** Turns that only receive drain the queue. *)
Definition receive (payload : string) : event := Turn (Input false Connected false (Notified channel payload) false).
Lemma receive_one p q s :
  good s → running s = true → listenerConn (loop s) ≠ None → queue s = p :: q →
  enabled (receive p) s ∧
  let s' := step (receive p) s in
  running s' = true ∧ listenerConn (loop s') ≠ None ∧ queue s' = q ∧ sent s' = sent s ∧
  handled (loop s') = handled (loop s) ++ [p].
Proof.
  intros Hg Hr Hc Hq. set (i := Input false Connected false (Notified channel p) false).
  assert (taken i (loop s) = Some p) as Ht by (unfold taken; cbn; by destruct (listenerConn (loop s))).
  split.
  { split; [done|]. split; [done|]. intros p' Hp'. fold i in Hp'. rewrite Ht in Hp'. injection Hp' as <-.
    by rewrite Hq. }
  cbn [step receive]. fold i. pose proof (turn_goes_on i (loop s) p Ht) as Hgo.
  destruct (turn i (loop s)) as [l go] eqn:E. cbn in Hgo. subst go.
  apply turn_outcome in E; [|done].
  destruct E as [Ht' _ _ _ _|Ec0 _ _ _ _|Ec0 _ _ _ _|c _ Ht' _ _ _ _|p' Ht' Ec Eo Ef Eh]; try congruence.
  rewrite Ht in Ht'. injection Ht' as <-. rewrite bool_decide_true, Ht, Hq by done. cbn.
  split_and!; [done|congruence|done..].
Qed.

Lemma drains s q :
  good s → running s = true → listenerConn (loop s) ≠ None → queue s = q →
  ∃ s', runs s (receive <$> q) s' ∧ queue s' = [] ∧ sent s' = sent s ∧ handled (loop s') = handled (loop s) ++ q.
Proof.
  revert s. induction q as [|p q IH]; intros s Hg Hr Hc Hq.
  { exists s. rewrite app_nil_r. split_and!; [constructor|done..]. }
  destruct (receive_one p q s Hg Hr Hc Hq) as (He & Hr' & Hc' & Hq' & Hs' & Hh').
  destruct (IH (step (receive p) s)) as (s' & Hruns & ? & Hs & Hh); [|done..|].
  { apply good_turn; [apply He|done]. }
  exists s'. split_and!; [by apply (runs_cons s (receive p))|done|congruence|].
  by rewrite Hh, Hh', <-app_assoc.
Qed.

End System.

(** C23. The listeners deliver. In every run of the loop of the hub, of the
    list notifier or of the cache invalidator against a server, with
    connections that break and with any errors: the payloads handled, and those
    still queued, are a subsequence of those sent, so nothing is handled twice,
    out of order or without having been sent; as long as no connection was
    lost they are all that was sent, and the queued ones are handled by as many
    turns. At most one connection is open, the one the loop uses, and none
    after [Stop]. The pauses before reconnecting stay between 100 ms and 30 s,
    and the waits of the hub and of the list notifier between 50 ms and 2 s;
    the invalidator always waits 5 s. *)
Theorem listener_correct channel turn `{!ListenLoop channel turn} evs s :
  runs channel turn started evs s →
  let l := loop s in
  (handled l ++ queue s) `sublist_of` sent s ∧ (gaps s = 0%nat → handled l ++ queue s = sent s) ∧
  opened l = conn_set (listenerConn l) ∧ opened (Stop l) = ∅ ∧ in_bounds l ∧
  (running s = true → listenerConn l ≠ None →
     ∃ s', runs channel turn s (receive channel <$> queue s) s' ∧ queue s' = [] ∧ sent s' = sent s ∧
           handled (loop s') = handled l ++ queue s).
Proof.
  intros Hr l. assert (good s) as Hg by (eapply good_runs; [done|exact Hr|apply good_started]).
  pose proof Hg as (Ho & _ & Hb & _ & _ & Hs & He). split_and!; try done.
  - unfold l, Stop. destruct (listenerConn (loop s)) as [c|] eqn:Hc; cbn; rewrite Ho; cbn; [set_solver|done].
  - intros Hrun Hc. by apply drains.
Qed.

(** What pgx returns when the context of a wait expires. *)
Definition pgx_timeout : wait_error := WaitError "timeout: context deadline exceeded" false true.
Definition idle : event := Turn (Input false Connected false (WaitFailed pgx_timeout) false).

Lemma listener_correct_witness :
  ∃ s, runs broadcastChannel hub_turn started [Notify "a"; idle; Notify "b"; receive broadcastChannel "a"] s ∧
       handled (loop s) ++ queue s = ["a"; "b"].
Proof.
  assert (∃ s, runs broadcastChannel hub_turn started [Notify "a"; idle; Notify "b"; receive broadcastChannel "a"] s ∧
               gaps s = 0%nat ∧ sent s = ["a"; "b"]) as (s & Hr & Hg & Hs).
  { eexists. split.
    - eapply runs_cons; [exact I|].
      eapply runs_cons; [split; [reflexivity|]; split; [exact I|intros p Hp; vm_compute in Hp; discriminate Hp]|].
      eapply runs_cons; [exact I|].
      eapply runs_cons; [split; [reflexivity|]; split; [reflexivity|]|apply runs_nil].
      intros p Hp. vm_compute in Hp. injection Hp as <-. reflexivity.
    - done. }
  exists s. split; [exact Hr|].
  destruct (listener_correct broadcastChannel hub_turn _ s Hr) as (_ & He & _). rewrite (He Hg). exact Hs.
Defined.

(** The invalidator does not recognise this error: when nothing arrives for
    five seconds it gives its connection up and reconnects, and invalidations
    sent in between are lost. The other two loops keep the connection. *)
Lemma invalidator_drops_idle_connection :
  let s := foldl (λ s ev, step invalidator_turn ev s) started [idle; Notify "stale"; idle] in
  gaps s = 1%nat ∧ queue s = [] ∧ handled (loop s) = [] ∧ sent s = ["stale"] ∧
  listenerConn (loop s) = Some 1%nat.
Proof. vm_compute. done. Qed.
Lemma others_keep_idle_connection :
  (foldl (λ s ev, step hub_turn ev s) started [idle; Notify "x"; idle]).(queue) = ["x"] ∧
  (foldl (λ s ev, step notifier_turn ev s) started [idle; Notify "x"; idle]).(queue) = ["x"].
Proof. vm_compute. done. Qed.

(** ** Backing off *)

(** [startupRetryMaxBackoff] and [retryStartup] of main.go. An attempt is the
    error of [fn], [ctx.Err()] after it, and [ctx.Err()] when the context ends
    the pause. The result is the pauses made, and what is returned if the
    attempts were enough to return. *)
Definition startupRetryMaxBackoff : Z := 15 * Second.
Record attempt := Attempt { fn_err : option goerror; ctx_after : option goerror; ctx_pause : option goerror }.
Fixpoint retry (backoff : Z) (attempts : list attempt) : list Z * option (result unit) :=
  match attempts with
  | [] => ([], None)
  | a :: attempts =>
      match fn_err a, ctx_after a, ctx_pause a with
      | None, _, _ => ([], Some (Ok tt))
      | Some _, Some er, _ => ([], Some (Fail er))
      | Some _, None, Some er => ([], Some (Fail er))
      | Some _, None, None =>
          let '(pauses, r) := retry (doubled startupRetryMaxBackoff backoff) attempts in (backoff :: pauses, r)
      end
  end.
Definition retryStartup (attempts : list attempt) : list Z * option (result unit) := retry (1 * Second) attempts.

(** The first [k] pauses that start with [b] and double up to [max]. *)
Definition pauses (b max : Z) (k : nat) : list Z := (λ i, Z.min (b * 2 ^ Z.of_nat i) max) <$> seq 0 k.

Lemma pauses_S b max k : 0 < b <= max → pauses b max (S k) = b :: pauses (doubled max b) max k.
Proof.
  intros Hb. unfold pauses. cbn. f_equal; [rewrite Z.mul_1_r; lia|].
  rewrite <-fmap_S_seq, <-list_fmap_compose. apply list_fmap_ext. intros _ i _.
  change ((_ ∘ S) i) with (Z.min (b * 2 ^ Z.of_nat (S i)) max).
  rewrite Nat2Z.inj_succ, Z.pow_succ_r by lia. unfold doubled.
  pose proof (Z.pow_pos_nonneg 2 (Z.of_nat i) ltac:(lia) ltac:(lia)).
  destruct (Z.ltb_spec max (2 * b)); nia.
Qed.

Definition failing (a : attempt) : Prop := is_Some (fn_err a) ∧ ctx_after a = None ∧ ctx_pause a = None.

Lemma retry_failing b attempts rest :
  0 < b <= startupRetryMaxBackoff → Forall failing attempts →
  ∃ b', retry b (attempts ++ rest) =
    (pauses b startupRetryMaxBackoff (length attempts) ++ (retry b' rest).1, (retry b' rest).2).
Proof.
  intros Hb H. revert b Hb. induction H as [|a l [[er Hf] [Ha Hp]] _ IH]; intros b Hb.
  { exists b. cbn. by destruct (retry b rest). }
  assert (0 < doubled startupRetryMaxBackoff b <= startupRetryMaxBackoff) as Hd
    by (unfold doubled; destruct (Z.ltb_spec startupRetryMaxBackoff (2 * b)); unfold startupRetryMaxBackoff in *; lia).
  destruct (IH _ Hd) as [b' E]. exists b'. cbn [app retry length]. rewrite Hf, Ha, Hp, E, pauses_S by done. done.
Qed.

Lemma turns_pause channel turn `{!ListenLoop channel turn} ins l :
  Forall no_luck ins → listenerConn l = None → 0 < reconnectBackoff l <= maxReconnectBackoff →
  let l' := foldl (λ l i, (turn i l).1) l ins in
  listenerConn l' = None ∧ slept l' = slept l ++ pauses (reconnectBackoff l) maxReconnectBackoff (length ins).
Proof.
  intros H. revert l. induction H as [|i ins Hi _ IH]; intros l Hc Hb.
  { cbn. by rewrite app_nil_r. }
  destruct (turn_pauses i l Hi Hc) as (_ & Hc1 & Hs1 & Hb1). cbn [foldl].
  destruct (IH (turn i l).1 Hc1) as [Hc' Hs'].
  { rewrite Hb1. unfold doubled. destruct (Z.ltb_spec maxReconnectBackoff (2 * reconnectBackoff l)); lia. }
  split; [exact Hc'|]. rewrite Hs', Hs1, Hb1. cbn [length]. rewrite pauses_S by done. by rewrite <-app_assoc.
Qed.

(** Retries back off and go on. [retryStartup] returns success as soon as
    an attempt succeeds and otherwise only the error of its context; before
    that, after k failures, it has paused for 1, 2, 4, 8 and then 15 seconds
    each. A listener that cannot reconnect goes on trying, with pauses of 100
    ms, doubled each time up to 30 s. *)
Theorem backoff_doubles attempts a rest channel turn `{!ListenLoop channel turn} ins l :
  Forall failing attempts → Forall no_luck ins →
  listenerConn l = None → reconnectBackoff l = minReconnectBackoff →
  (fn_err a = None →
     retryStartup (attempts ++ a :: rest) = (pauses (1 * Second) startupRetryMaxBackoff (length attempts), Some (Ok tt))) ∧
  (∀ er, is_Some (fn_err a) → (ctx_after a = Some er ∨ ctx_after a = None ∧ ctx_pause a = Some er) →
     retryStartup (attempts ++ a :: rest) = (pauses (1 * Second) startupRetryMaxBackoff (length attempts), Some (Fail er))) ∧
  retryStartup attempts = (pauses (1 * Second) startupRetryMaxBackoff (length attempts), None) ∧
  slept (foldl (λ l i, (turn i l).1) l ins) =
    slept l ++ pauses minReconnectBackoff maxReconnectBackoff (length ins).
Proof.
  intros Hf Hi Hc Hb. assert (0 < 1 * Second <= startupRetryMaxBackoff) as Hs
    by (unfold startupRetryMaxBackoff, Second; lia).
  unfold retryStartup. split_and!.
  - intros Ha. destruct (retry_failing _ attempts (a :: rest) Hs Hf) as [b' ->]. cbn [retry]. rewrite Ha.
    cbn. by rewrite app_nil_r.
  - intros er [e0 Ha] Hcx. destruct (retry_failing _ attempts (a :: rest) Hs Hf) as [b' ->]. cbn [retry].
    rewrite Ha. destruct Hcx as [-> |[-> ->]]; cbn; by rewrite app_nil_r.
  - destruct (retry_failing _ attempts [] Hs Hf) as [b' E]. rewrite app_nil_r in E. rewrite E. cbn.
    by rewrite app_nil_r.
  - destruct (turns_pause channel turn ins l Hi Hc) as [_ ->].
    { rewrite Hb. unfold minReconnectBackoff, maxReconnectBackoff, Millisecond, Second. lia. }
    by rewrite Hb.
Qed.

Lemma backoff_doubles_witness :
  let refused := Attempt (Some (Errorf "connection refused")) None None in
  retryStartup [refused; refused; refused; refused; refused; Attempt None None None] =
    ([1 * Second; 2 * Second; 4 * Second; 8 * Second; 15 * Second], Some (Ok tt)).
Proof.
  intros refused. set (down := Input false ConnectFailed false (WaitFailed pgx_timeout) false).
  assert (Forall failing (replicate 5 refused)) as Hf
    by (repeat (constructor; [split; [by eexists|done]|]); constructor).
  assert (Forall no_luck [down]) as Hi by (constructor; [done|constructor]).
  pose proof (proj1 (backoff_doubles (replicate 5 refused) (Attempt None None None) [] broadcastChannel hub_turn [down]
    (MkListener None ∅ 0 minTimeout minReconnectBackoff [] []) Hf Hi eq_refl eq_refl) eq_refl) as H.
  etransitivity; [exact H|]. vm_compute. reflexivity.
Defined.

End Listener.
