(* ===== verification/Handler.v ===== *)
(** * The command handler: internal/handler/handler.go, keys.go, handler_pubsub.go

    The commands that need no storage (PING, ECHO, AUTH, HELLO, SELECT, ...),
    CLIENT, the subscription commands, and MULTI/EXEC with its retry loop
    ([runTx]). The per-command handlers of handler_ops.go are the class
    [Operations]: everything here is proved for any of its instances. *)
From stdpp Require Import gmap strings list sorting.
From Stdlib Require Import ZArith Lia Ascii.
From S2P Require Import Prelude GoStd Resp KeyCodec Db StoreMeta StoreStrings Client PubSub.
Import Resp KeyCodec Db Meta Client PubSub.

(** The context values that reach the command handlers: the protocol version
    of the connection, and [noBlock] inside MULTI/EXEC. *)
Record hctx := MkCtx { ctx_proto : Z; ctx_noBlock : bool }.

(** [ExecuteWithOps] at the two implementations of [storage.Operations]: the
    store itself, where every operation runs its own transactions, and a
    transaction that is already open. *)
Class Operations := {
  ExecuteOnStore : hctx → string → list Value → (nat → env) → st → st * Value;
  ExecuteOnTx : hctx → string → list Value → env → st → st * Value
}.

Module Handler.

(** ** commandKeys *)

Definition bulk (vs : list Value) : list string := vBulk <$> vs.

(** [numkeysAt(i)]: "numkeys key [key ...]" from argument [i] on. The end
    [i+1+n] is a sum of ints, which wraps around. No slice has 2^63 elements,
    so that a sum that passes the check and is beyond [len(args)] has wrapped,
    and slicing up to it, an end before the start, panics: [None]. *)
Definition numkeysAt (args : list Value) (i : nat) : option (list string) :=
  match args !! i with
  | None => Some []
  | Some a =>
      match Strconv.Atoi (vBulk a) with
      | None => Some []
      | Some n =>
          if (n <? 0)%Z || (Z.of_nat (length args) <? wrap64 (Z.of_nat i + 1 + n))%Z then Some []
          else if (Z.of_nat (length args) <? Z.of_nat i + 1 + n)%Z then None
          else Some (bulk (take (Z.to_nat n) (drop (i + 1) args)))
      end
  end.

(** [for i := 0; i < len(args); i += 2] *)
Fixpoint every_other (args : list Value) : list string :=
  match args with
  | [] => []
  | [a] => [vBulk a]
  | a :: _ :: args => vBulk a :: every_other args
  end.

(** [None] is a panic. *)
Definition commandKeys (cmdName : string) (args : list Value) : option (list string) :=
  if bool_decide (cmdName ∈ ["PING"; "ECHO"; "KEYS"; "SCAN"; "RANDOMKEY"; "INFO"; "DBSIZE"; "SCRIPT";
                             "WATCH"; "UNWATCH"; "OBJECT"]) then Some []
  else if bool_decide (cmdName ∈ ["DEL"; "UNLINK"; "EXISTS"; "MGET"; "SINTER"; "SUNION"; "SDIFF";
                                  "SINTERSTORE"; "SUNIONSTORE"; "SDIFFSTORE"; "PFCOUNT"; "PFMERGE"])
  then Some (bulk args)
  else if bool_decide (cmdName = "MSET") then Some (every_other args)
  else if bool_decide (cmdName ∈ ["RENAME"; "COPY"; "RPOPLPUSH"; "ZRANGESTORE"])
  then if (length args <? 2)%nat then Some [] else Some (bulk (take 2 args))
  else if bool_decide (cmdName ∈ ["BLPOP"; "BRPOP"])
  then if (length args <? 1)%nat then Some [] else Some (bulk (take (length args - 1) args))
  else if bool_decide (cmdName ∈ ["LMPOP"; "ZMPOP"; "SINTERCARD"]) then numkeysAt args 0
  else if bool_decide (cmdName ∈ ["BLMPOP"; "BZMPOP"]) then numkeysAt args 1
  else if bool_decide (cmdName ∈ ["ZUNIONSTORE"; "ZINTERSTORE"])
  then match args with [] => Some [] | a :: _ => cons (vBulk a) <$> numkeysAt args 1 end
  else if bool_decide (cmdName = "BITOP")
  then if (length args <? 2)%nat then Some [] else Some (bulk (drop 1 args))
  else if bool_decide (cmdName ∈ ["EVAL"; "EVALSHA"]) then numkeysAt args 1
  else match args with [] => Some [] | a :: _ => Some [vBulk a] end.

(** ** Authentication *)

Definition RequiresAuth (password : string) : bool := bool_decide (password ≠ "").
Definition CheckAuth (password provided : string) : bool := bool_decide (password = provided).

(** [cmd.Type != resp.Array || len(cmd.Array) < n] *)
Definition short (n : nat) (cmd : Value) : bool :=
  bool_decide (vType cmd ≠ Array) || (length (vArray cmd) <? n)%nat.

Definition GetHelloProtocolVersion (cmd : Value) : Z :=
  if short 2 cmd then 2%Z
  else match drop 1 (vArray cmd) with
       | a :: _ => match Strconv.Atoi (vBulk a) with
                   | Some v => if ((2 <=? v) && (v <=? 3))%Z then v else 2%Z
                   | None => 2%Z
                   end
       | [] => 2%Z
       end.

(** The option loop of [CheckHelloAuth]. *)
Fixpoint helloAuth_loop (fuel : nat) (password : string) (args : list Value) : bool * bool :=
  match fuel, args with
  | S fuel, opt :: rest =>
      let opt := Strings.ToUpper (vBulk opt) in
      if bool_decide (opt = "AUTH") then
        match rest with
        | _ :: pw :: _ => (true, CheckAuth password (vBulk pw))
        | _ => (true, false)
        end
      else if bool_decide (opt = "SETNAME") then
        match rest with
        | _ :: rest => helloAuth_loop fuel password rest
        | [] => (false, false)
        end
      else (false, false)
  | _, _ => (false, false)
  end.

Definition CheckHelloAuth (password : string) (cmd : Value) : bool * bool :=
  if short 2 cmd then (false, false)
  else
    let args := drop 1 (vArray cmd) in
    let args := match args with
                | a :: rest => match Strconv.Atoi (vBulk a) with Some _ => rest | None => args end
                | [] => args
                end in
    helloAuth_loop (length args) password args.

(** ** Connection commands *)

Definition ping (args : list Value) : Value :=
  match args with [] => VStr SimpleString "PONG" | a :: _ => Bulk (vBulk a) end.
Definition echo (args : list Value) : Value :=
  match args with [a] => Bulk (vBulk a) | _ => ErrWrongArgs "echo" end.
Definition command (args : list Value) : Value := Arr [].
Definition unknownSub (what subCmd : string) : Value :=
  Err ("ERR Unknown subcommand or wrong number of arguments for '" +:+ what +:+ subCmd +:+ "'").
Definition crlf : string := string_of CRLF.
Definition clusterInfo : string :=
  "cluster_enabled:0" +:+ crlf +:+ "cluster_state:ok" +:+ crlf +:+ "cluster_slots_assigned:0" +:+ crlf +:+
  "cluster_slots_ok:0" +:+ crlf +:+ "cluster_slots_pfail:0" +:+ crlf +:+ "cluster_slots_fail:0" +:+ crlf +:+
  "cluster_known_nodes:1" +:+ crlf +:+ "cluster_size:0" +:+ crlf +:+ "cluster_current_epoch:0" +:+ crlf +:+
  "cluster_my_epoch:0" +:+ crlf +:+ "cluster_stats_messages_sent:0" +:+ crlf +:+
  "cluster_stats_messages_received:0" +:+ crlf +:+ "cluster_stats_messages_ping_sent:0" +:+ crlf +:+
  "cluster_stats_messages_pong_sent:0" +:+ crlf +:+ "cluster_stats_messages_meet_sent:0" +:+ crlf +:+
  "cluster_stats_messages_ping_received:0" +:+ crlf +:+ "cluster_stats_messages_pong_received:0" +:+ crlf +:+
  "cluster_stats_messages_meet_received:0".
Definition cluster (args : list Value) : Value :=
  match args with
  | [] => ErrWrongArgs "cluster"
  | a :: _ =>
      let subCmd := Strings.ToUpper (vBulk a) in
      if bool_decide (subCmd = "INFO") then Bulk clusterInfo
      else if bool_decide (subCmd = "SLOTS") then Arr []
      else if bool_decide (subCmd = "NODES") then Bulk ""
      else if bool_decide (subCmd = "MYID") then Bulk "0000000000000000000000000000000000000000"
      else if bool_decide (subCmd = "KEYSLOT") then Int 0
      else unknownSub "" subCmd
  end.
Definition selectDB (args : list Value) : Value :=
  match args with
  | [a] => match Strconv.Atoi (vBulk a) with
           | None => Err "ERR value is not an integer or out of range"
           | Some db => if (db =? 0)%Z then OK else Err "ERR DB index is out of range"
           end
  | _ => ErrWrongArgs "select"
  end.
Definition wait (args : list Value) : Value :=
  match args with _ :: _ :: _ => Int 0 | _ => ErrWrongArgs "wait" end.
Definition config (args : list Value) : Value :=
  match args with
  | [] => ErrWrongArgs "config"
  | a :: rest =>
      let subCmd := Strings.ToUpper (vBulk a) in
      if bool_decide (subCmd = "GET") then
        match rest with [] => ErrWrongArgs "config get" | _ => Arr [] end
      else if bool_decide (subCmd ∈ ["SET"; "RESETSTAT"; "REWRITE"]) then OK
      else unknownSub "CONFIG " subCmd
  end.

Definition wrongPass : Value := VStr Error "WRONGPASS invalid username-password pair".

(** The option loop of [hello]: the error reply, if any. *)
Fixpoint hello_loop (fuel : nat) (password : string) (args : list Value) : option Value :=
  match fuel, args with
  | S fuel, a :: rest =>
      let opt := Strings.ToUpper (vBulk a) in
      if bool_decide (opt = "AUTH") then
        match rest with
        | _ :: pw :: rest =>
            if RequiresAuth password && negb (CheckAuth password (vBulk pw)) then Some wrongPass
            else hello_loop fuel password rest
        | _ => Some (ErrWrongArgs "hello")
        end
      else if bool_decide (opt = "SETNAME") then
        match rest with
        | _ :: rest => hello_loop fuel password rest
        | [] => Some (ErrWrongArgs "hello")
        end
      else Some (Err ("ERR Unknown option '" +:+ vBulk a +:+ "' for HELLO"))
  | _, _ => None
  end.

Definition helloReply (protover : Z) : Value :=
  Arr [Bulk "server"; Bulk "postkeys"; Bulk "version"; Bulk "1.0.0"; Bulk "proto"; Int protover;
       Bulk "id"; Int 0; Bulk "mode"; Bulk "standalone"; Bulk "role"; Bulk "master";
       Bulk "modules"; Arr []].
Definition hello (password : string) (args : list Value) : Value :=
  match args with
  | [] => helloReply 2
  | a :: rest =>
      let ver := Strconv.Atoi (vBulk a) in
      match ver with
      | Some v => if ((v <? 2) || (3 <? v))%Z then Err "NOPROTO unsupported protocol version"
                  else default (helloReply v) (hello_loop (length rest) password rest)
      | None => default (helloReply 2) (hello_loop (length rest) password rest)
      end
  end.

Definition auth (password : string) (args : list Value) : Value :=
  if negb (RequiresAuth password) then
    Err "AUTH <password> called without any password configured for the default user. Are you sure your configuration is correct?"
  else match args with
       | [pw] | [_; pw] => if CheckAuth password (vBulk pw) then OK else wrongPass
       | _ => ErrWrongArgs "auth"
       end.

(** ** CLIENT *)

Definition executeClientCommand (age : Z) (subCmd : string) (args : list Value) (c : ClientState) :
    ClientState * Value :=
  if bool_decide (subCmd = "ID") then (c, Int (ID c))
  else if bool_decide (subCmd = "GETNAME")
  then (c, if bool_decide (Name c = "") then NullBulk else Bulk (Name c))
  else if bool_decide (subCmd = "SETNAME") then
    match args with
    | [a] => (SetName (vBulk a) c, OK)
    | _ => (c, ErrWrongArgs "client setname")
    end
  else if bool_decide (subCmd = "SETINFO") then
    match args with
    | a :: v :: _ =>
        let infoType := Strings.ToUpper (vBulk a) in
        if bool_decide (infoType = "LIB-NAME") then (SetLibInfo (vBulk v) "" c, OK)
        else if bool_decide (infoType = "LIB-VER") then (SetLibInfo "" (vBulk v) c, OK)
        else (c, Err "ERR Unknown argument for CLIENT SETINFO")
    | _ => (c, ErrWrongArgs "client setinfo")
    end
  else if bool_decide (subCmd = "INFO") then (c, Bulk (GetInfo age c))
  else if bool_decide (subCmd = "LIST") then (c, Bulk (GetInfo age c +:+ string_of [LF]))
  else if bool_decide (subCmd = "TRACKINGINFO") then (c, Arr [])
  else if bool_decide (subCmd = "CACHING") then (c, OK)
  else if bool_decide (subCmd = "GETREDIR") then (c, Int (-1))
  else if bool_decide (subCmd ∈ ["UNPAUSE"; "PAUSE"; "NO-EVICT"; "NO-TOUCH"]) then (c, OK)
  else if bool_decide (subCmd = "REPLY") then
    match args with [_] => (c, OK) | _ => (c, ErrWrongArgs "client reply") end
  else (c, unknownSub "" subCmd).

Definition HandleClient (age : Z) (cmd : Value) (c : ClientState) : ClientState * Value :=
  if short 2 cmd then (c, ErrWrongArgs "client")
  else match vArray cmd with
       | _ :: sub :: args => executeClientCommand age (Strings.ToUpper (vBulk sub)) args c
       | _ => (c, ErrWrongArgs "client")
       end.

(** ** Pub/sub commands *)

Definition responses (build : string → Z → Value) (names : list string) (counts : list nat) (other : nat) :
    list Value :=
  zip_with (λ n c, build n (Z.of_nat (c + other))) names counts.

Definition HandleSubscribe (channels : list string) (c : ClientState) (h : Hub) :
    ClientState * Hub * list Value :=
  match channels with
  | [] => (c, h, [ErrWrongArgs "subscribe"])
  | _ =>
      let c := EnterPubSubMode c in
      let '(h, counts) := Subscribe (ID c) channels h in
      let '(_, patternCount) := GetSubscriptionCount (ID c) h in
      (c, h, responses BuildSubscribeResponse channels counts patternCount)
  end.

Definition exitIfNone (c : ClientState) (h : Hub) : ClientState :=
  let '(channelCount, patternCount) := GetSubscriptionCount (ID c) h in
  if ((channelCount =? 0) && (patternCount =? 0))%nat then ExitPubSubMode c else c.

Definition HandleUnsubscribe (channels : list string) (c : ClientState) (h : Hub) :
    ClientState * Hub * list Value :=
  let unsubChannels := match channels with [] => GetSubscribedChannels (ID c) h | _ => channels end in
  let '(h, counts) := Unsubscribe (ID c) unsubChannels h in
  let '(_, patternCount) := GetSubscriptionCount (ID c) h in
  let c := exitIfNone c h in
  match unsubChannels with
  | [] => (c, h, [BuildUnsubscribeResponse "" (Z.of_nat patternCount)])
  | _ => (c, h, responses BuildUnsubscribeResponse unsubChannels counts patternCount)
  end.

Definition HandlePSubscribe (pats : list string) (c : ClientState) (h : Hub) :
    ClientState * Hub * list Value :=
  match pats with
  | [] => (c, h, [ErrWrongArgs "psubscribe"])
  | _ =>
      let c := EnterPubSubMode c in
      let '(h, counts) := PSubscribe (ID c) pats h in
      let '(channelCount, _) := GetSubscriptionCount (ID c) h in
      (c, h, responses BuildPSubscribeResponse pats counts channelCount)
  end.

Definition HandlePUnsubscribe (pats : list string) (c : ClientState) (h : Hub) :
    ClientState * Hub * list Value :=
  let pats := match pats with [] => GetSubscribedPatterns (ID c) h | _ => pats end in
  let '(h, counts) := PUnsubscribe (ID c) pats h in
  let '(channelCount, _) := GetSubscriptionCount (ID c) h in
  let c := exitIfNone c h in
  match pats with
  | [] => (c, h, [BuildPUnsubscribeResponse "" (Z.of_nat channelCount)])
  | _ => (c, h, responses BuildPUnsubscribeResponse pats counts channelCount)
  end.

(** The reply, and the notification that every instance receives. *)
Definition HandlePublish (fault : option goerror) (landed : bool) (channel message : string) (h : Hub) :
    Value * option string :=
  match Publish fault landed channel message h with
  | (note, Ok count) => (Int count, note)
  | (note, Fail er) => (Err ("ERR " +:+ err_text er), note)
  end.

(** ** Transactions *)

Definition HandleMulti (c : ClientState) : ClientState * Value :=
  match StartTransaction c with
  | (c, Ok _) => (c, OK)
  | (c, Fail er) => (c, Err (err_text er))
  end.
Definition HandleDiscard (c : ClientState) : ClientState * Value :=
  match DiscardTransaction c with
  | (c, Ok _) => (c, OK)
  | (c, Fail er) => (c, Err (err_text er))
  end.

Definition maxExecRetries : nat := 3.

Definition hasRetryableError (v : Value) : bool :=
  if bool_decide (vType v = Error) then IsRetryableMessage (vStr v)
  else existsb (λ e, bool_decide (vType e = Error) && IsRetryableMessage (vStr e)) (vArray v).

(** [TxStore.LockKeys] *)
Definition LockKeys (keys : list string) : M unit := lockKeys (encodeKey <$> keys).

(** One attempt of [runTx]: the reply it would give, and whether the failure
    is one that is retried. *)
Definition tryTx (keys : list string) (fn : env → st → st * Value) (e : env) (s : st) :
    st * Value * bool :=
  match round_trip e s with
  | (s', Fail er) => (s', Err ("transaction start failed: " +:+ err_text er), false)
  | (s', Ok _) =>
      match LockKeys keys e (begin_tx s') with
      | (s1, Fail er) =>
          (end_tx (db s) s1, Err ("transaction failed: " +:+ err_text er), isRetryableError er)
      | (s1, Ok _) =>
          let '(s2, result) := fn e s1 in
          if hasRetryableError result then (end_tx (db s) s2, result, true)
          else match Commit (db s) e s2 with
               | (s3, Ok _) => (s3, result, false)
               | (s3, Fail er) =>
                   (s3, if bool_decide (vType result = Error) then result
                        else Err ("transaction commit failed: " +:+ err_text er),
                    isRetryableError er)
               end
      end
  end.

(** The loop of [runTx] from [attempt] on, [more] attempts left after it; the
    n-th attempt runs in the environment [e n]. *)
Fixpoint runTx_from (more attempt : nat) (keys : list string) (fn : env → st → st * Value)
    (e : nat → env) (s : st) : st * Value :=
  let '(s', v, again) := tryTx keys fn (e attempt) s in
  match again, more with
  | true, S more =>
      match ctx_err (e attempt) with
      | Some er => (s', Err ("transaction aborted: " +:+ err_text er))
      | None => runTx_from more (S attempt) keys fn e s'
      end
  | _, _ => (s', v)
  end.
Definition runTx (keys : list string) (fn : env → st → st * Value) (e : nat → env) (s : st) :
    st * Value := runTx_from maxExecRetries 0 keys fn e s.

(** [cmd.Type == resp.Array && len(cmd.Array) > 0]: its name and arguments. *)
Definition parts (cmd : Value) : option (string * list Value) :=
  if bool_decide (vType cmd = Array) then
    match vArray cmd with
    | [] => None
    | name :: args => Some (Strings.ToUpper (vBulk name), args)
    end
  else None.

(** The keys of the queued commands, collected by the loop of [HandleExec];
    [None] is a panic. *)
Fixpoint queuedKeys (commands : list Value) : option (list string) :=
  match commands with
  | [] => Some []
  | cmd :: commands =>
      ks ← match parts cmd with Some (name, args) => commandKeys name args | None => Some [] end;
      rest ← queuedKeys commands;
      Some (ks ++ rest)
  end.

(** A panic that nothing recovers ends the process, here before any statement
    is sent. The reply stands for the lost connection. *)
Definition crashed : Value := Err "runtime error: slice bounds out of range".

Section Exec.
Context `{!Operations}.

(** The body of the transaction: the queued commands, in order. *)
Fixpoint execQueued (ctx : hctx) (commands : list Value) (e : env) (s : st) : st * list Value :=
  match commands with
  | [] => (s, [])
  | cmd :: commands =>
      let '(s, v) := match parts cmd with
                     | None => (s, Err "invalid command format")
                     | Some (name, args) => ExecuteOnTx ctx name args e s
                     end in
      let '(s, vs) := execQueued ctx commands e s in
      (s, v :: vs)
  end.

Lemma execQueued_length ctx commands e s s' vs :
  execQueued ctx commands e s = (s', vs) → length vs = length commands.
Proof.
  revert s vs. induction commands as [|cmd commands IH]; intros s vs; cbn; [by intros [= <- <-]|].
  destruct (match parts cmd with None => _ | _ => _ end) as [s1 v].
  destruct (execQueued ctx commands e s1) as [s2 vs'] eqn:E. intros [= <- <-]. cbn. f_equal. by eapply IH.
Qed.

Definition HandleExec (ctx : hctx) (c : ClientState) (e : nat → env) (s : st) :
    ClientState * st * Value :=
  if inTransaction c then
    let '(c, commands) := GetQueuedCommands c in
    match queuedKeys commands with
    | None => (c, s, crashed)
    | Some keys =>
        let ctx := MkCtx (ctx_proto ctx) true in
        let '(s, v) := runTx keys (λ e s, let '(s, results) := execQueued ctx commands e s in
                                          (s, VArr Array results)) e s in
        (c, s, v)
    end
  else (c, s, Err "EXEC without MULTI").

(** ** Dispatch *)

(** [Store.FlushDB]: one statement after the other, outside a transaction. *)
Definition FlushDB : M unit :=
  exec (λ _, upd_strings (λ _, ∅));;
  exec (λ _, upd_hashes (λ _, ∅));;
  exec (λ _, upd_lists (λ _, ∅));;
  exec (λ _, upd_sets (λ _, ∅));;
  exec (λ _, upd_zsets (λ _, ∅));;
  exec (λ _, upd_hll (λ _, ∅));;
  exec (λ _, upd_meta (λ _, ∅)).
Definition flushdb (e : env) (s : st) : st * Value :=
  match FlushDB e s with
  | (s, Ok _) => (s, OK)
  | (s, Fail er) => (s, Err (err_text er))
  end.

Definition executeCommand (password : string) (ctx : hctx) (cmdName : string) (args : list Value)
    (e : nat → env) (s : st) : st * Value :=
  if bool_decide (cmdName = "PING") then (s, ping args)
  else if bool_decide (cmdName = "ECHO") then (s, echo args)
  else if bool_decide (cmdName = "QUIT") then (s, OK)
  else if bool_decide (cmdName = "AUTH") then (s, auth password args)
  else if bool_decide (cmdName = "HELLO") then (s, hello password args)
  else if bool_decide (cmdName = "COMMAND") then (s, command args)
  else if bool_decide (cmdName = "CLUSTER") then (s, cluster args)
  else if bool_decide (cmdName = "CONFIG") then (s, config args)
  else if bool_decide (cmdName = "SELECT") then (s, selectDB args)
  else if bool_decide (cmdName = "WAIT") then (s, wait args)
  else if bool_decide (cmdName ∈ ["MULTI"; "EXEC"; "DISCARD"])
  then (s, Err ("ERR " +:+ cmdName +:+ " must be handled with transaction context"))
  else if bool_decide (cmdName ∈ ["FLUSHDB"; "FLUSHALL"]) then flushdb (e 0) s
  else ExecuteOnStore ctx cmdName args e s.

Definition Handle (password : string) (ctx : hctx) (cmd : Value) (e : nat → env) (s : st) : st * Value :=
  match parts cmd with
  | None => (s, Err "invalid command format")
  | Some (cmdName, args) => executeCommand password ctx cmdName args e s
  end.

End Exec.

(** ** EXEC is atomic *)

(** The order in which [LockKeys] takes the locks. *)
Definition lock_order (keys : list string) : list string :=
  match encodeKey <$> keys with
  | [] => []
  | [k] => [k]
  | l => Sort.Compact (Sort.Strings l)
  end.

Lemma lock_order_sorted keys : StronglySorted Sort.slt (lock_order keys).
Proof.
  unfold lock_order. destruct (encodeKey <$> keys) as [|k [|k' l]]; [constructor|by repeat constructor|].
  apply Sort.Compact_strict, Sort.Strings_sorted.
Qed.

Lemma elem_of_lock_order keys k : k ∈ lock_order keys ↔ k ∈ encodeKey <$> keys.
Proof.
  unfold lock_order. destruct (encodeKey <$> keys) as [|k1 [|k2 l]]; [done|done|].
  rewrite Sort.elem_of_Compact. by rewrite Sort.Strings_Permutation.
Qed.

Lemma lock_stmt_outcome ks e s s' r :
  lock_stmt ks e s = (s', r) → aborted s = false →
  match r with
  | Ok _ => db s' = db s ∧ in_tx s' = in_tx s ∧ aborted s' = false ∧ locks s' = locks s ++ ks
  | Fail _ => True
  end.
Proof.
  unfold lock_stmt, query, stmt. intros H Ha. rewrite Ha in H.
  destruct (fault e (sent s)); [by injection H as <- <-|]. cbn in H. injection H as <- <-. done.
Qed.

Lemma LockKeys_outcome keys e s s' r :
  LockKeys keys e s = (s', r) → aborted s = false →
  match r with
  | Ok _ => db s' = db s ∧ in_tx s' = in_tx s ∧ aborted s' = false ∧ locks s' = locks s ++ lock_order keys
  | Fail _ => True
  end.
Proof.
  unfold LockKeys, lockKeys, lock_order. destruct (encodeKey <$> keys) as [|k [|k' l]].
  - intros [= <- <-] Ha. split_and!; [done..|by rewrite app_nil_r].
  - apply lock_stmt_outcome.
  - apply lock_stmt_outcome.
Qed.

Lemma Err_type msg : vType (Err msg) = Error.
Proof. unfold Err. by destruct (Strings.HasPrefix msg "ERR "). Qed.

(** The outcome of a transaction body: committed by one attempt; committed by
    one attempt, with an error for a reply because the answer to COMMIT was
    lost; or without trace and reported. *)
Definition committed (keys : list string) (fn : env → st → st * Value) (e : nat → env) (lo hi : nat)
    (s s' : st) (v : Value) : Prop :=
  ∃ k s1 s2, lo ≤ k ≤ hi ∧ fn (e k) s1 = (s2, v) ∧ db s1 = db s ∧ in_tx s1 = true ∧ aborted s1 = false ∧
    locks s1 = lock_order keys ∧ aborted s2 = false ∧ hasRetryableError v = false ∧ db s' = db s2.
Definition unheard (keys : list string) (fn : env → st → st * Value) (e : nat → env) (lo hi : nat)
    (s s' : st) (v : Value) : Prop :=
  vType v = Error ∧
  ∃ k s1 s2 v' er, lo ≤ k ≤ hi ∧ fn (e k) s1 = (s2, v') ∧ db s1 = db s ∧ in_tx s1 = true ∧ aborted s1 = false ∧
    locks s1 = lock_order keys ∧ answer_lost (e k) (sent s2) er ∧ db s' = db s2.
Definition rolled_back (s s' : st) (v : Value) : Prop :=
  db s' = db s ∧ (vType v = Error ∨ hasRetryableError v = true).

Lemma Commit_outcome t0 e s s' r :
  Commit t0 e s = (s', r) →
  match r with
  | Ok _ => aborted s = false ∧ db s' = db s
  | Fail er => db s' = t0 ∨ (aborted s = false ∧ answer_lost e (sent s) er ∧ db s' = db s)
  end.
Proof.
  unfold Commit, round_trip, took_effect, answer_lost. destruct (aborted s); [intros [= <- <-]; by left|].
  destruct (fault e (sent s)) as [er|]; intros [= <- <-]; [|done].
  destruct (landed e (sent s)), (isRetryableError er); cbn; tauto.
Qed.

Lemma round_trip_db e s s' r : round_trip e s = (s', r) → db s' = db s.
Proof. unfold round_trip. destruct (fault e (sent s)); by intros [= <- _]. Qed.

Lemma tryTx_outcome keys fn (e : nat → env) n s s' v again :
  tryTx keys fn (e n) s = (s', v, again) →
  (again = false ∧ (committed keys fn e n n s s' v ∨ unheard keys fn e n n s s' v)) ∨ rolled_back s s' v.
Proof.
  unfold tryTx. destruct (round_trip (e n) s) as [s0 [[]|er]] eqn:E0; apply round_trip_db in E0.
  2: { intros [= <- <- <-]. right. split; [done|left; apply Err_type]. }
  destruct (LockKeys keys (e n) (begin_tx s0)) as [s1 [[]|er]] eqn:E1.
  2: { intros [= <- <- <-]. right. split; [done|left; apply Err_type]. }
  apply LockKeys_outcome in E1 as (Hdb1 & Hin1 & Hab1 & Hl1); [|done].
  destruct (fn (e n) s1) as [s2 result] eqn:E2. destruct (hasRetryableError result) eqn:Hre.
  { intros [= <- <- <-]. right. split; [done|by right]. }
  destruct (Commit (db s) (e n) s2) as [s3 [[]|er]] eqn:E3; apply Commit_outcome in E3.
  - intros [= <- <- <-]. left. split; [done|left]. destruct E3. exists n, s1, s2.
    split_and!; try done. rewrite Hdb1. exact E0.
  - set (reply := if bool_decide _ then result else _).
    assert (vType reply = Error) as Hv by (unfold reply; case_bool_decide; [done|apply Err_type]).
    intros [= <- <- <-]. destruct E3 as [?|(Ha & Hl & Hd)]; [right; split; [done|by left]|left].
    split; [by destruct Hl as (_ & _ & ?)|right]. split; [done|]. exists n, s1, s2, result, er.
    split_and!; try done. rewrite Hdb1. exact E0.
Qed.

Lemma runTx_from_outcome more n keys fn e s s' v :
  runTx_from more n keys fn e s = (s', v) →
  committed keys fn e n (n + more) s s' v ∨ unheard keys fn e n (n + more) s s' v ∨ rolled_back s s' v.
Proof.
  revert n s. induction more as [|more IH]; intros n s; cbn [runTx_from];
    destruct (tryTx keys fn (e n) s) as [[s0 v0] again] eqn:E; apply tryTx_outcome in E.
  - intros H. assert (s0 = s' ∧ v0 = v) as [-> ->] by (destruct again; by injection H as -> ->).
    rewrite Nat.add_0_r. tauto.
  - destruct again.
    + destruct E as [[? _]|[Hdb _]]; [done|].
      destruct (ctx_err (e n)); [intros [= <- <-]; do 2 right; split; [done|left; apply Err_type]|].
      intros [(k & s1 & s2 & Hk & Hc)|[(Hv & k & s1 & s2 & v' & er & Hk & Hc)|[H1 H2]]]%IH.
      * left. exists k, s1, s2. rewrite Hdb in Hc. split; [lia|exact Hc].
      * right. left. split; [done|]. exists k, s1, s2, v', er. rewrite Hdb in Hc. split; [lia|exact Hc].
      * do 2 right. split; [congruence|done].
    + intros [= <- <-]. destruct E as [[_ [(k & s1 & s2 & Hk & Hc)|(Hv & k & s1 & s2 & v' & er & Hk & Hc)]]|?].
      * left. exists k, s1, s2. split; [lia|exact Hc].
      * right. left. split; [done|]. exists k, s1, s2, v', er. split; [lia|exact Hc].
      * by do 2 right.
Qed.

(** An attempt in which nothing fails. *)
Lemma tryTx_quiet keys fn now gonow s s2 v :
  (∀ s1, db s1 = db s → in_tx s1 = true → aborted s1 = false → locks s1 = lock_order keys →
     ∃ s2', fn (quiet now gonow) s1 = (s2', v) ∧ db s2' = s2 ∧ aborted s2' = false) →
  hasRetryableError v = false →
  ∃ s', tryTx keys fn (quiet now gonow) s = (s', v, false) ∧ db s' = s2.
Proof.
  intros Hfn Hre. unfold tryTx, round_trip. cbn [fault quiet].
  assert (∃ s1, LockKeys keys (quiet now gonow) (begin_tx (tick s)) = (s1, Ok tt)) as [s1 E1].
  { unfold LockKeys, lockKeys. destruct (encodeKey <$> keys) as [|k [|k' l]]; by eexists. }
  rewrite E1. apply LockKeys_outcome in E1 as (Hdb1 & Hin1 & Hab1 & Hl1); [|done].
  destruct (Hfn s1 Hdb1 Hin1 Hab1 Hl1) as (s2' & -> & Hs2 & Ha2). rewrite Hre.
  unfold Commit, round_trip. rewrite Ha2. cbn [fault quiet]. eexists. split; [done|]. by cbn.
Qed.

(** Attempt [k] ran all the commands of a queue, in their order, on the tables
    as they were in [s], holding from the start the locks of all the keys,
    taken in strictly increasing order. *)
Definition ran_all `{!Operations} (ctx : hctx) (commands : list Value) (keys : list string) (e : nat → env) (k : nat)
    (s s2 : st) (results : list Value) : Prop :=
  ∃ s1, k ≤ maxExecRetries ∧ execQueued ctx commands (e k) s1 = (s2, results) ∧ length results = length commands ∧
    db s1 = db s ∧ in_tx s1 = true ∧ StronglySorted Sort.slt (locks s1) ∧
    ∀ key, key ∈ locks s1 ↔ key ∈ encodeKey <$> keys.

(** C1. EXEC is atomic. It leaves the MULTI state with an empty queue, and
    then either one attempt, at most the fourth, ran all the queued commands
    in their order on the tables as they were before, holding from the start
    the advisory locks of all keys the commands name, taken in strictly
    increasing order, and the reply is the array of their replies and the
    tables are what that run left; or one attempt ran them all in the same
    way, its COMMIT took effect on the server but the answer was lost, and the
    reply is an error while the tables are what that run left; or the tables
    are untouched, and the reply is an error or contains the retryable error
    that was left after the last attempt. When a queued command has a number
    of keys so large that the position of the last one overflows, EXEC
    crashes the process and nothing has been written. Outside MULTI nothing
    happens. *)
Theorem HandleExec_atomic `{!Operations} ctx c e s c' s' v :
  let commands := queuedCommands c in
  let ctx' := MkCtx (ctx_proto ctx) true in
  HandleExec ctx c e s = (c', s', v) →
  if inTransaction c then
    inTransaction c' = false ∧ queuedCommands c' = [] ∧
    match queuedKeys commands with
    | None => s' = s ∧ v = crashed
    | Some keys =>
        (∃ k s2 results, ran_all ctx' commands keys e k s s2 results ∧ v = VArr Array results ∧ db s' = db s2) ∨
        (∃ k s2 results er, ran_all ctx' commands keys e k s s2 results ∧ answer_lost (e k) (sent s2) er ∧
                            vType v = Error ∧ db s' = db s2) ∨
        (db s' = db s ∧ (vType v = Error ∨ hasRetryableError v = true))
    end
  else c' = c ∧ s' = s ∧ v = Err "EXEC without MULTI".
Proof.
  intros commands ctx'. unfold HandleExec. destruct (inTransaction c); [|by intros [= <- <- <-]].
  cbn [GetQueuedCommands]. fold commands. destruct (queuedKeys commands) as [keys|]; [|by intros [= <- <- <-]].
  fold ctx'. destruct (runTx _ _ e s) as [s0 v0] eqn:E. intros [= <- <- <-].
  split; [done|]. split; [done|]. apply runTx_from_outcome in E.
  assert (∀ k s1 s2 v, 0 ≤ k ≤ 0 + maxExecRetries → db s1 = db s → in_tx s1 = true → locks s1 = lock_order keys →
    (let '(s, results) := execQueued ctx' commands (e k) s1 in (s, VArr Array results)) = (s2, v) →
    ∃ results, ran_all ctx' commands keys e k s s2 results ∧ v = VArr Array results) as Hran.
  { intros k s1 s2 v Hk Hdb Hin Hl Hfn. destruct (execQueued _ _ (e k) s1) as [s3 results] eqn:Eq.
    injection Hfn as -> <-. exists results. split; [|done]. exists s1.
    split_and!; try done; [lia|by eapply execQueued_length|..].
    - rewrite Hl. apply lock_order_sorted.
    - intros key. rewrite Hl. apply elem_of_lock_order. }
  destruct E as [(k & s1 & s2 & Hk & Hfn & Hdb & Hin & _ & Hl & _ & _ & Hd)
                |[(Hv & k & s1 & s2 & v' & er & Hk & Hfn & Hdb & Hin & _ & Hl & Hlost & Hd)|Hrb]]; [left|right; left|by do 2 right].
  - destruct (Hran _ _ _ _ Hk Hdb Hin Hl Hfn) as (results & ? & ->). by exists k, s2, results.
  - destruct (Hran _ _ _ _ Hk Hdb Hin Hl Hfn) as (results & ? & _). by exists k, s2, results, er.
Qed.

(** The number of keys that ends the process. *)
Lemma numkeys_overflow_panics :
  commandKeys "LMPOP" [Bulk "9223372036854775807"] = None.
Proof. vm_compute. reflexivity. Qed.

(** [k] attempts that failed in a way that is retried. *)
Fixpoint failed_tx (keys : list string) (fn : env → st → st * Value) (e : nat → env) (n k : nat)
    (s s' : st) : Prop :=
  match k with
  | O => s' = s
  | S k => ∃ s1 v, tryTx keys fn (e n) s = (s1, v, true) ∧ ctx_err (e n) = None ∧
                   failed_tx keys fn e (S n) k s1 s'
  end.

Lemma runTx_from_retries keys fn e more n k s s1 s' v :
  k ≤ more → failed_tx keys fn e n k s s1 → tryTx keys fn (e (n + k)) s1 = (s', v, false) →
  runTx_from more n keys fn e s = (s', v).
Proof.
  revert n more s. induction k as [|k IH]; intros n more s Hk Hf He.
  - cbn in Hf. subst s1. rewrite Nat.add_0_r in He. destruct more; cbn [runTx_from]; by rewrite He.
  - destruct Hf as (s2 & v2 & E & Hc & Hf). destruct more as [|more]; [lia|].
    cbn [runTx_from]. rewrite E, Hc. apply IH; [lia|done|]. by rewrite Nat.add_succ_r in He.
Qed.

(** The replies and tables a queue of commands leaves when nothing fails. *)
Definition queue_runs `{!Operations} (ctx : hctx) (commands : list Value) (now gonow : Z) (keys : list string)
    (t t' : tables) (results : list Value) : Prop :=
  ∀ s1, db s1 = t → in_tx s1 = true → aborted s1 = false → locks s1 = lock_order keys →
    ∃ s2, execQueued ctx commands (quiet now gonow) s1 = (s2, results) ∧ db s2 = t' ∧ aborted s2 = false.

(** C18. EXEC completes: after up to three attempts that hit a deadlock or a
    serialization failure (in the locks, in a command or in the commit), an
    attempt in which nothing fails and whose commands report no such error
    commits; the client gets the replies of the commands, in order, and sees
    no sign of the earlier attempts. (The keys of the commands can be
    collected: no number of keys overflows.) *)
Theorem HandleExec_completes `{!Operations} ctx c e k now gonow s s1 keys t' results :
  let commands := queuedCommands c in
  let ctx' := MkCtx (ctx_proto ctx) true in
  let body := λ e s, let '(s, results) := execQueued ctx' commands e s in (s, VArr Array results) in
  inTransaction c = true → queuedKeys commands = Some keys → k ≤ maxExecRetries → failed_tx keys body e 0 k s s1 →
  e k = quiet now gonow → queue_runs ctx' commands now gonow keys (db s1) t' results →
  hasRetryableError (VArr Array results) = false →
  ∃ s', HandleExec ctx c e s = (with_tx false [] c, s', VArr Array results) ∧ db s' = t'.
Proof.
  intros commands ctx' body Hc Hkeys Hk Hf He Hq Hre. unfold HandleExec. rewrite Hc.
  cbn [GetQueuedCommands]. fold commands. rewrite Hkeys. fold ctx'.
  destruct (tryTx_quiet keys body now gonow s1 t' (VArr Array results)) as (s' & E & Hd); [|done|].
  { intros s2 H1 H2 H3 H4. destruct (Hq s2 H1 H2 H3 H4) as (s3 & Eq & ? & ?). exists s3.
    unfold body. by rewrite Eq. }
  exists s'. split; [|done]. fold body. unfold runTx.
  rewrite (runTx_from_retries keys body e maxExecRetries 0 k s s1 s' (VArr Array results)); [done|done|done|].
  change (0 + k) with k. by rewrite He.
Qed.

(** A sample instance: SET and INCR on the storage layer. *)
Definition replying {A} (m : M A) (f : A → Value) (e : env) (s : st) : st * Value :=
  match m e s with (s, Ok a) => (s, f a) | (s, Fail er) => (s, Err (err_text er)) end.
Definition sample_ops : Operations := {|
  ExecuteOnStore := λ _ _ _ _ s, (s, OK);
  ExecuteOnTx := λ _ name args e s,
    match args with
    | [k; v] => if bool_decide (name = "SET")
                then replying (StringOps.set (vBulk k) (vBulk v) 0) (λ _, OK) e s else (s, Err "no")
    | [k] => if bool_decide (name = "INCR")
             then replying (StringOps.incr (vBulk k) 1) Int e s else (s, Err "no")
    | _ => (s, Err "no")
    end
|}.
Definition sample_queue : list Value :=
  [Arr [Bulk "set"; Bulk "x"; Bulk "5"]; Arr [Bulk "INCR"; Bulk "x"]].
Definition sample_client : ClientState := with_tx true sample_queue (NewClientState 7 "peer" 0).
(** The locks of the first attempt meet a deadlock. *)
Definition sample_env (attempt : nat) : env :=
  Env 0 0 (λ n, if (attempt =? 0)%nat && (n =? 1)%nat then Some deadlock_detected else None) None (λ _, false).
Definition sample_st : st := St empty_tables 0 false false [].

Lemma HandleExec_atomic_witness :
  ∃ c' s' v, @HandleExec sample_ops (MkCtx 2 false) sample_client sample_env sample_st = (c', s', v) ∧
             v = Arr [OK; Int 6] ∧ queuedCommands c' = [].
Proof.
  assert ((@HandleExec sample_ops (MkCtx 2 false) sample_client sample_env sample_st).2 = Arr [OK; Int 6])
    as Hv by (vm_compute; reflexivity).
  destruct (@HandleExec sample_ops (MkCtx 2 false) sample_client sample_env sample_st) as [[c' s'] v] eqn:E.
  exists c', s', v. split; [reflexivity|]. split; [exact Hv|].
  pose proof (@HandleExec_atomic sample_ops _ _ _ _ _ _ _ E) as H.
  destruct (inTransaction sample_client) eqn:Ht; [exact (proj1 (proj2 H))|discriminate Ht].
Defined.

Definition sample_body (e : env) (s : st) : st * Value :=
  let '(s, results) := @execQueued sample_ops (MkCtx 2 true) sample_queue e s in (s, VArr Array results).
Definition sample_s1 : st := St empty_tables 2 false false [].
Definition sample_tables : tables :=
  db (@execQueued sample_ops (MkCtx 2 true) sample_queue (quiet 0 0) (St empty_tables 0 true false ["x"])).1.

Lemma sample_failed : failed_tx ["x"; "x"] sample_body sample_env 0 1 sample_st sample_s1.
Proof.
  exists sample_s1, (Err ("transaction failed: " +:+ err_text deadlock_detected)).
  split; [vm_compute; reflexivity|]. split; reflexivity.
Qed.

Lemma sample_queue_runs :
  @queue_runs sample_ops (MkCtx 2 true) sample_queue 0 0 ["x"; "x"] (db sample_s1) sample_tables [OK; Int 6].
Proof.
  intros [d n tx ab lk] H1 H2 H3 H4. cbn [db in_tx aborted locks] in *.
  change (lock_order ["x"; "x"]) with (["x"] : list string) in H4. subst d tx ab lk. eexists.
  split; [vm_compute; reflexivity|]. split; vm_compute; reflexivity.
Qed.

Lemma HandleExec_completes_witness :
  ∃ s', @HandleExec sample_ops (MkCtx 2 false) sample_client sample_env sample_st =
          (with_tx false [] sample_client, s', Arr [OK; Int 6]) ∧
        kv_strings (db s') = {[ "x" := ("6", None) ]}.
Proof.
  destruct (@HandleExec_completes sample_ops (MkCtx 2 false) sample_client sample_env 1 0 0 sample_st sample_s1
              ["x"; "x"] sample_tables [OK; Int 6]) as (s' & E & Hd);
    [reflexivity|reflexivity|unfold maxExecRetries; lia|exact sample_failed|reflexivity|exact sample_queue_runs|reflexivity|].
  exists s'. split; [exact E|]. rewrite Hd. vm_compute. reflexivity.
Defined.

End Handler.
