(* ===== verification/Lua.v ===== *)
(** * Lua scripting: internal/handler/lua.go

    EVAL, EVALSHA and SCRIPT: the script cache, the conversions between
    replies and Lua values, [redis.call] and [redis.pcall], and the
    transaction a script runs in.

    The interpreter (gopher-lua) is not part of the repository. What the code
    sees of it is a [script]: the calls into the [redis] table that running
    the source text makes, one after the other, each with what follows from
    its result, and in the end the values left on the stack or an error. The
    function from source text, KEYS and ARGV to such a run is the field
    [interpret] of [lua_lib]. Scripts that do not end, and tables that contain
    themselves, are not represented. *)
From stdpp Require Import gmap strings list sorting.
From Stdlib Require Import ZArith Lia Ascii.
From S2P Require Import Prelude GoStd Resp KeyCodec Db StoreMeta StoreStrings StoreZSets Client PubSub Handler.
Import Resp KeyCodec Db Meta StringOps Handler.

(** ** crypto/sha1 and encoding/hex *)
Module Sha1.
Local Open Scope Z_scope.

Definition w32 (x : Z) : Z := x mod 2 ^ 32.
Definition rotl (n x : Z) : Z := Z.lor (w32 (Z.shiftl x n)) (Z.shiftr x (32 - n)).
Definition not32 (x : Z) : Z := 2 ^ 32 - 1 - x.

Record state := H { ha : Z; hb : Z; hc : Z; hd : Z; he : Z }.
Definition init : state := H 0x67452301 0xefcdab89 0x98badcfe 0x10325476 0xc3d2e1f0.

Definition f_k (t : nat) (b c d : Z) : Z * Z :=
  if (t <? 20)%nat then (Z.lor (Z.land b c) (Z.land (not32 b) d), 0x5a827999)
  else if (t <? 40)%nat then (Z.lxor (Z.lxor b c) d, 0x6ed9eba1)
  else if (t <? 60)%nat then (Z.lor (Z.lor (Z.land b c) (Z.land b d)) (Z.land c d), 0x8f1bbcdc)
  else (Z.lxor (Z.lxor b c) d, 0xca62c1d6).
(** The rounds from [t] on, with the next 16 words of the schedule. *)
Fixpoint rounds (n t : nat) (w : list Z) (s : state) : state :=
  match n, w with
  | S n, w0 :: rest =>
      let '(f, k) := f_k t (hb s) (hc s) (hd s) in
      let tmp := w32 (rotl 5 (ha s) + f + he s + k + w0) in
      let next := rotl 1 (Z.lxor (Z.lxor (nth 13 w 0) (nth 8 w 0)) (Z.lxor (nth 2 w 0) w0)) in
      rounds n (S t) (rest ++ [next]) (H tmp (ha s) (rotl 30 (hb s)) (hc s) (hd s))
  | _, _ => s
  end.
Definition block (s : state) (w : list Z) : state :=
  let r := rounds 80 0 w s in
  H (w32 (ha s + ha r)) (w32 (hb s + hb r)) (w32 (hc s + hc r)) (w32 (hd s + hd r)) (w32 (he s + he r)).

(** Big-endian numbers of [n] bytes. *)
Fixpoint big_endian (n : nat) (x : Z) : list Z :=
  match n with O => [] | S n => big_endian n (x / 256) ++ [x mod 256] end.
Fixpoint words (l : list Z) : list Z :=
  match l with a :: b :: c :: d :: l => (((a * 256 + b) * 256 + c) * 256 + d) :: words l | _ => [] end.
Definition padded (l : list Z) : list Z :=
  let n := Z.of_nat (length l) in
  l ++ [0x80] ++ replicate (Z.to_nat ((55 - n) mod 64)) 0 ++ big_endian 8 ((n * 8) mod 2 ^ 64).
Fixpoint blocks (fuel : nat) (s : state) (w : list Z) : state :=
  match fuel, w with
  | S fuel, _ :: _ => blocks fuel (block s (take 16 w)) (drop 16 w)
  | _, _ => s
  end.
Definition Sum (msg : bytes) : list Z :=
  let w := words (padded (b2z <$> msg)) in
  let s := blocks (length w) init w in
  big_endian 4 (ha s) ++ big_endian 4 (hb s) ++ big_endian 4 (hc s) ++ big_endian 4 (hd s) ++ big_endian 4 (he s).

Definition hex_digit (n : Z) : ascii := z2b (if n <? 10 then 48 + n else 87 + n).
Definition EncodeToString (l : list Z) : string :=
  string_of (flat_map (λ b, [hex_digit (b / 16); hex_digit (b mod 16)]) l).

Lemma Sum_abc : EncodeToString (Sum (bytes_of "abc")) = "a9993e364706816aba3e25717850c26c9cd0d89d".
Proof. vm_compute. reflexivity. Qed.
Lemma Sum_two_blocks :
  EncodeToString (Sum (bytes_of "abcdbcdecdefdefgefghfghighijhijkijkljklmklmnlmnomnopnopq")) = "84983e441c3bd26ebaae4aa1f95129e5e54670f1".
Proof. vm_compute. reflexivity. Qed.

End Sha1.

(** ** float64 and int64

    A double is its 64-bit pattern. *)
Module Float64.
Local Open Scope Z_scope.

(** [float64(n)] rounds to the nearest double, ties to even. The mantissa is
    added to the exponent field, into which a carry of the rounding moves. *)
Definition round_mantissa (m e : Z) : Z :=
  if e <=? 52 then m * 2 ^ (52 - e)
  else
    let ulp := 2 ^ (e - 52) in
    let q := m / ulp in
    let r := m mod ulp in
    if (ulp <? 2 * r) || ((2 * r =? ulp) && Z.odd q) then q + 1 else q.
Definition of_int (n : Z) : Z :=
  if n =? 0 then 0
  else
    let e := Z.log2 (Z.abs n) in
    (if n <? 0 then 2 ^ 63 else 0) + (e + 1022) * 2 ^ 52 + round_mantissa (Z.abs n) e.

(** [int64(f)] drops the fraction. The language leaves the result open when it
    is not an int64: [open f]. *)
Definition magnitude (f : Z) : Z :=
  let e := (f / 2 ^ 52) mod 2 ^ 11 in
  let m := 2 ^ 52 + f mod 2 ^ 52 in
  if e <? 1075 then m / 2 ^ (1075 - e) else m * 2 ^ (e - 1075).
Definition to_int (open : Z → Z) (f : Z) : Z :=
  let n := if f <? 2 ^ 63 then magnitude f else - magnitude f in
  if ((f / 2 ^ 52) mod 2 ^ 11 <? 2047) && bool_decide (int64 n) then n else open f.

(** [f == float64(int64(f))]: the integer, when the test succeeds. *)
Definition whole (open : Z → Z) (f : Z) : option Z :=
  let n := to_int open f in
  if ZSetOps.go_eq f (of_int n) then Some n else None.

Example of_int_1 : of_int 1 = 0x3ff0000000000000. Proof. reflexivity. Qed.
Example of_int_neg : of_int (-3) = 0xc008000000000000. Proof. reflexivity. Qed.
Example of_int_ties : of_int (2 ^ 53 + 1) = of_int (2 ^ 53). Proof. reflexivity. Qed.
Example to_int_half : to_int id 0x4004000000000000 = 2. Proof. reflexivity. Qed.
Example whole_half : whole id 0x4004000000000000 = None. Proof. reflexivity. Qed.
Example whole_negzero : whole id 0x8000000000000000 = Some 0. Proof. reflexivity. Qed.




End Float64.

Module Lua.

(** ** Lua values *)

(** Numbers are doubles. The entries of a table are listed in the order in
    which [ForEach] visits them; an entry that is nil is not an entry. [LOther]
    stands for functions, coroutines and user data. *)
Inductive LValue :=
| LNil
| LBool (b : bool)
| LNumber (f : Z)
| LString (s : string)
| LTable (entries : list (LValue * LValue))
| LOther (what : string).

Fixpoint RawGetString (key : string) (entries : list (LValue * LValue)) : LValue :=
  match entries with
  | [] => LNil
  | (LString k, v) :: entries => if bool_decide (k = key) then v else RawGetString key entries
  | _ :: entries => RawGetString key entries
  end.

(** ** Runs of the interpreter *)

(** The functions of the [redis] table. *)
Inductive redis_function := call | pcall | error_reply | status_reply | log | sha1hex.

(** A function of the table is invoked with its arguments and returns values,
    or raises an error with a message; the script may catch it. A run ends with
    the values on the stack or with the text of the error. *)
Inductive script :=
| Return (stack : list LValue)
| Raise (message : string)
| Invoke (f : redis_function) (args : list LValue) (returned : list LValue → script) (raised : string → script).

(** What gopher-lua, strconv and the representation of replies contribute:
    - [interpret source KEYS ARGV];
    - [CheckString v], the string that [L.CheckString] makes of an argument, or
      the message it raises;
    - [array_entries l], the entries of a table filled by [RawSetInt] from 1 on;
    - [print_value v], [fmt.Sprintf] with the verb [%v];
    - [FormatFloat f], [strconv.FormatFloat(f, 'f', -1, 64)];
    - [int64_open f], the value of [int64(f)] where the language leaves it open;
    - [nil_slice v], whether an array reply without elements holds a nil slice,
      which [Value] does not record. *)
Record lua_lib := LuaLib {
  interpret : string → list string → list string → script;
  CheckString : LValue → string + string;
  array_entries : list LValue → list (LValue * LValue);
  print_value : LValue → string;
  FormatFloat : Z → string;
  int64_open : Z → Z;
  nil_slice : Value → bool
}.

(** Strings pass [CheckString] unchanged; a sequence is visited in order; the
    null array of resp.go is a nil slice. *)
Class LuaOk (L : lua_lib) : Prop := {
  CheckString_string s : CheckString L (LString s) = inl s;
  array_entries_seq l : LNil ∉ l →
    array_entries L l = imap (λ i v, (LNumber (Float64.of_int (Z.of_nat i + 1)), v)) l;
  nil_slice_null : nil_slice L NullArray = true
}.

(** The scripts by their hashes. *)
Abbreviation ScriptCache := (gmap string string).

Section Scripting.
Context (L : lua_lib) {OPS : Operations}.

(** ** Conversions *)

Definition luaToString (v : LValue) : string :=
  match v with
  | LString s => s
  | LNumber f =>
      match Float64.whole (int64_open L) f with
      | Some n => Strconv.FormatInt n
      | None => FormatFloat L f
      end
  | LBool true => "1"
  | LBool false => "0"
  | LNil => ""
  | _ => print_value L v
  end.

Fixpoint respToLua (v : Value) : LValue :=
  let 'MkValue ty str num bulk arr _ null := v in
  if bool_decide (ty = SimpleString) then LTable [(LString "ok", LString str)]
  else if bool_decide (ty = Error) then LTable [(LString "err", LString str)]
  else if bool_decide (ty = Integer) then LNumber (Float64.of_int num)
  else if bool_decide (ty = BulkString) then
    if bool_decide (bulk = "") && null then LBool false else LString bulk
  else if bool_decide (ty = Array) then
    if bool_decide (length arr = 0) && nil_slice L v then LBool false
    else LTable (array_entries L (respToLua <$> arr))
  else if bool_decide (ty = Null) then LBool false
  else LNil.

Fixpoint luaToResp (v : LValue) : Value :=
  match v with
  | LString s => Bulk s
  | LNumber f =>
      match Float64.whole (int64_open L) f with
      | Some n => Int n
      | None => Bulk (FormatFloat L f)
      end
  | LBool true => Int 1
  | LBool false => NullBulk
  | LNil => NullBulk
  | LTable entries =>
      match RawGetString "err" entries with
      | LNil =>
          match RawGetString "ok" entries with
          | LNil => Arr (flat_map (λ entry : LValue * LValue,
                                     match entry with
                                     | (LNumber _, x) => [luaToResp x]
                                     | _ => []
                                     end) entries)
          | ok => VStr SimpleString (luaToString ok)
          end
      | err => ErrCustom (luaToString err)
      end
  | LOther _ => NullBulk
  end.

(** ** The functions of the redis table *)

Definition forbidden : list string :=
  ["SUBSCRIBE"; "PSUBSCRIBE"; "UNSUBSCRIBE"; "PUNSUBSCRIBE"; "PUBLISH";
   "MULTI"; "EXEC"; "DISCARD"; "WATCH"; "UNWATCH"; "EVAL"; "EVALSHA"; "SCRIPT"].

(** The reply, or the message that [L.CheckString(1)] raises. *)
Definition executeRedisCommand (ctx : hctx) (args : list LValue) (e : env) (s : st) : st * (Value + string) :=
  match args with
  | [] => (s, inl (Err "ERR Please specify at least one argument for redis.call()"))
  | name :: args =>
      match CheckString L name with
      | inr message => (s, inr message)
      | inl name =>
          let cmdName := Strings.ToUpper name in
          let args := (λ arg, Bulk (luaToString arg)) <$> args in
          if bool_decide (cmdName ∈ forbidden)
          then (s, inl (Err "ERR This Redis command is not allowed from a script"))
          else let '(s, v) := ExecuteOnTx ctx cmdName args e s in (s, inl v)
      end
  end.

(** The state, [callErr], and the returned values or the raised message. *)
Abbreviation outcome := (st * string * (list LValue + string))%type.

Definition redisCall (ctx : hctx) (args : list LValue) (callErr : string) (e : env) (s : st) : outcome :=
  match executeRedisCommand ctx args e s with
  | (s, inr message) => (s, callErr, inr message)
  | (s, inl result) =>
      if bool_decide (vType result = Error) then (s, vStr result, inr (vStr result))
      else (s, callErr, inl [respToLua result])
  end.
Definition redisPCall (ctx : hctx) (args : list LValue) (callErr : string) (e : env) (s : st) : outcome :=
  match executeRedisCommand ctx args e s with
  | (s, inr message) => (s, callErr, inr message)
  | (s, inl result) => (s, callErr, inl [respToLua result])
  end.

(** The functions that do not reach the store use only their first argument,
    nil when there is none. *)
Definition with_string (args : list LValue) (f : string → LValue) : list LValue + string :=
  match CheckString L (default LNil (head args)) with
  | inl s => inl [f s]
  | inr message => inr message
  end.
Definition scriptSHA1 (script : string) : string := Sha1.EncodeToString (Sha1.Sum (bytes_of script)).
Definition redisErrorReply (args : list LValue) : list LValue + string :=
  with_string args (λ msg, LTable [(LString "err", LString msg)]).
Definition redisStatusReply (args : list LValue) : list LValue + string :=
  with_string args (λ msg, LTable [(LString "ok", LString msg)]).
Definition redisLog (args : list LValue) : list LValue + string := inl [].
Definition redisSha1Hex (args : list LValue) : list LValue + string :=
  with_string args (λ s, LString (scriptSHA1 s)).

Definition invoke (f : redis_function) (ctx : hctx) (args : list LValue) (callErr : string) (e : env) (s : st) :
    outcome :=
  match f with
  | call => redisCall ctx args callErr e s
  | pcall => redisPCall ctx args callErr e s
  | error_reply => (s, callErr, redisErrorReply args)
  | status_reply => (s, callErr, redisStatusReply args)
  | log => (s, callErr, redisLog args)
  | sha1hex => (s, callErr, redisSha1Hex args)
  end.

(** [L.DoString], from the redis table's point of view. *)
Fixpoint run (t : script) (ctx : hctx) (callErr : string) (e : env) (s : st) : outcome :=
  match t with
  | Return stack => (s, callErr, inl stack)
  | Raise message => (s, callErr, inr message)
  | Invoke f args returned raised =>
      match invoke f ctx args callErr e s with
      | (s, callErr, inl values) => run (returned values) ctx callErr e s
      | (s, callErr, inr message) => run (raised message) ctx callErr e s
      end
  end.

(** ** Errors *)

(** [strings.Cut(text, sep)], the part before the first newline. *)
Definition first_line (msg : string) : string :=
  match Strings.split2 LF (bytes_of msg) with
  | Some (line, _) => string_of line
  | None => msg
  end.

(** [luaErrLine.FindStringSubmatch]: the digits of the leftmost match of
    [<string>:(\d+):]. *)
Definition is_digit (c : ascii) : bool := ((48 <=? b2z c) && (b2z c <=? 57))%Z.
Fixpoint digits (l : bytes) : bytes :=
  match l with c :: l => if is_digit c then c :: digits l else [] | [] => [] end.
Definition line_mark : bytes := bytes_of "<string>:".
Definition match_line (l : bytes) : option bytes :=
  if Strings.has_prefix l line_mark then
    let l := drop (length line_mark) l in
    let ds := digits l in
    if bool_decide (ds ≠ []) && Strings.has_prefix (drop (length ds) l) [":"%char] then Some ds else None
  else None.
Fixpoint luaErrLine (l : bytes) : option bytes :=
  match match_line l, l with
  | Some ds, _ => Some ds
  | None, _ :: l => luaErrLine l
  | None, [] => None
  end.

Definition scriptError (script err callErr : string) : string :=
  let msg := first_line err in
  let line := match luaErrLine (bytes_of msg) with Some ds => string_of ds | None => "?" end in
  if bool_decide (callErr ≠ "") && Strings.HasSuffix msg callErr
  then callErr +:+ " script: " +:+ scriptSHA1 script +:+ ", on @user_script:" +:+ line +:+ "."
  else "ERR Error running script: " +:+ msg.

Definition Execute (ctx : hctx) (source : string) (keys argv : list string) (e : env) (s : st) :
    st * (Value + string) :=
  match run (interpret L source keys argv) ctx "" e s with
  | (s, callErr, inr err) => (s, inr (scriptError source err callErr))
  | (s, _, inl stack) => (s, inl (match last stack with None => NullBulk | Some result => luaToResp result end))
  end.

(** ** Running a script *)

(** The two implementations of [storage.Operations] a command can be given:
    the store, or an open transaction. *)
Inductive target := OnStore (e : nat → env) | OnTx (e : env).

Definition runIn (ctx : hctx) (source : string) (keys argv : list string) (e : env) (s : st) : st * Value :=
  match Execute (MkCtx (ctx_proto ctx) true) source keys argv e s with
  | (s, inl result) => (s, result)
  | (s, inr err) => (s, ErrCustom err)
  end.
Definition runScript (ctx : hctx) (ops : target) (source : string) (keys argv : list string) (s : st) : st * Value :=
  match ops with
  | OnTx e =>
      match LockKeys keys e s with
      | (s, Fail er) => (s, Err (err_text er))
      | (s, Ok _) => runIn ctx source keys argv e s
      end
  | OnStore e => runTx keys (runIn ctx source keys argv) e s
  end.

(** ** The script cache *)

Definition Get (sc : ScriptCache) (sha : string) : option string := sc !! Strings.ToLower sha.
Definition Store (sc : ScriptCache) (source : string) : ScriptCache * string :=
  let sha := scriptSHA1 source in (<[sha := source]> sc, sha).
Definition Exists (sc : ScriptCache) (shas : list string) : list bool :=
  (λ sha, bool_decide (is_Some (sc !! Strings.ToLower sha))) <$> shas.
Definition Flush (sc : ScriptCache) : ScriptCache := ∅.

(** ** EVAL, EVALSHA and SCRIPT *)

(** The checks that EVAL and EVALSHA share: the error reply or [numKeys]. *)
Definition numKeysOf (cmd : string) (args : list Value) : Value + Z :=
  match args with
  | _ :: n :: _ =>
      match Strconv.Atoi (vBulk n) with
      | None => inl (Err "ERR value is not an integer or out of range")
      | Some numKeys =>
          if (numKeys <? 0)%Z then inl (Err "ERR Number of keys can't be negative")
          else if (Z.of_nat (length args) <? wrap64 (2 + numKeys))%Z
          then inl (Err "ERR Number of keys can't be greater than number of args")
          else inr numKeys
      end
  | _ => inl (ErrWrongArgs cmd)
  end.
(** [make] panics for a length no allocation can have: the numbers of keys that
    pass the check because the sum overflows. *)
Definition keysAndArgv (numKeys : Z) (args : list Value) : result (list string * list string) :=
  if (Z.of_nat (length args) <? 2 + numKeys)%Z then Fail (panic "makeslice: len out of range")
  else let rest := drop 2 args in
       Ok (bulk (take (Z.to_nat numKeys) rest), bulk (drop (Z.to_nat numKeys) rest)).

(** [Fail] is a panic. *)
Definition evalOp (ctx : hctx) (ops : target) (args : list Value) (sc : ScriptCache) (s : st) :
    ScriptCache * st * result Value :=
  match numKeysOf "eval" args with
  | inl reply => (sc, s, Ok reply)
  | inr numKeys =>
      let source := default "" (vBulk <$> head args) in
      match keysAndArgv numKeys args with
      | Fail er => (sc, s, Fail er)
      | Ok (keys, argv) =>
          let '(s, v) := runScript ctx ops source keys argv s in
          ((Store sc source).1, s, Ok v)
      end
  end.

Definition evalshaOp (ctx : hctx) (ops : target) (args : list Value) (sc : ScriptCache) (s : st) :
    ScriptCache * st * result Value :=
  match numKeysOf "evalsha" args with
  | inl reply => (sc, s, Ok reply)
  | inr numKeys =>
      match Get sc (default "" (vBulk <$> head args)) with
      | None => (sc, s, Ok (ErrCustom "NOSCRIPT No matching script. Please use EVAL."))
      | Some source =>
          match keysAndArgv numKeys args with
          | Fail er => (sc, s, Fail er)
          | Ok (keys, argv) =>
              let '(s, v) := runScript ctx ops source keys argv s in (sc, s, Ok v)
          end
      end
  end.

Definition scriptOp (args : list Value) (sc : ScriptCache) : ScriptCache * Value :=
  match args with
  | [] => (sc, ErrWrongArgs "script")
  | sub :: subArgs =>
      let subCmd := Strings.ToUpper (vBulk sub) in
      if bool_decide (subCmd = "LOAD") then
        match subArgs with
        | [source] => let '(sc, sha) := Store sc (vBulk source) in (sc, Bulk sha)
        | _ => (sc, ErrWrongArgs "script load")
        end
      else if bool_decide (subCmd = "EXISTS") then
        match subArgs with
        | [] => (sc, ErrWrongArgs "script exists")
        | _ => (sc, Arr ((λ b : bool, Int (if b then 1 else 0)) <$> Exists sc (bulk subArgs)))
        end
      else if bool_decide (subCmd = "FLUSH") then (Flush sc, OK)
      else if bool_decide (subCmd = "KILL") then (sc, Err "NOTBUSY No scripts in execution right now.")
      else if bool_decide (subCmd = "DEBUG") then (sc, OK)
      else (sc, Err ("ERR Unknown subcommand or wrong number of arguments for '" +:+ subCmd +:+ "'"))
  end.

(** The cases of [ExecuteWithOps] for the scripting commands. *)
Definition scriptCommand (ctx : hctx) (ops : target) (cmdName : string) (args : list Value)
    (sc : ScriptCache) (s : st) : option (ScriptCache * st * result Value) :=
  if bool_decide (cmdName = "EVAL") then Some (evalOp ctx ops args sc s)
  else if bool_decide (cmdName = "EVALSHA") then Some (evalshaOp ctx ops args sc s)
  else if bool_decide (cmdName = "SCRIPT") then let '(sc, v) := scriptOp args sc in Some (sc, s, Ok v)
  else None.

End Scripting.

(** ** Scripts are atomic *)

Section Atomic.
Context (L : lua_lib) {OPS : Operations}.

(** A sequence of commands run on an open transaction. *)
Definition ran (ctx : hctx) (cmds : list (string * list Value)) (e : env) (s s' : st) : Prop :=
  s' = foldl (λ s c, (ExecuteOnTx ctx c.1 c.2 e s).1) s cmds.
Definition allowed (c : string * list Value) : Prop := c.1 ∉ forbidden.

Lemma executeRedisCommand_ran ctx args e s s' r :
  executeRedisCommand L ctx args e s = (s', r) →
  ∃ cmds, ran ctx cmds e s s' ∧ Forall allowed cmds.
Proof.
  unfold executeRedisCommand. intros H.
  destruct args as [|name args]; [injection H as <- <-; by exists []|].
  destruct (CheckString L name) as [n|m]; [|injection H as <- <-; by exists []].
  case_bool_decide as Hf; [injection H as <- <-; by exists []|].
  destruct (ExecuteOnTx _ _ _ e s) as [s1 v] eqn:E. injection H as <- <-.
  exists [(Strings.ToUpper n, (λ arg, Bulk (luaToString L arg)) <$> args)].
  split; [|by repeat constructor]. unfold ran. cbn. by rewrite E.
Qed.

Lemma invoke_ran f ctx args callErr e s s' callErr' r :
  invoke L f ctx args callErr e s = (s', callErr', r) →
  ∃ cmds, ran ctx cmds e s s' ∧ Forall allowed cmds.
Proof.
  assert (∃ cmds, ran ctx cmds e s s ∧ Forall allowed cmds) as Hnone by by exists [].
  destruct f; cbn [invoke]; try (by intros [= <- <- <-]); unfold redisCall, redisPCall;
    destruct (executeRedisCommand L ctx args e s) as [s1 [v|m]] eqn:E;
    apply executeRedisCommand_ran in E; try case_bool_decide; by intros [= <- <- <-].
Qed.

Lemma run_ran t ctx callErr e s s' callErr' r :
  run L t ctx callErr e s = (s', callErr', r) →
  ∃ cmds, ran ctx cmds e s s' ∧ Forall allowed cmds.
Proof.
  revert callErr s. induction t as [stack|m|f args returned IHk raised IHr]; intros callErr s; cbn [run].
  1,2: by intros [= <- <- <-]; exists [].
  destruct (invoke L f ctx args callErr e s) as [[s1 ce] o] eqn:E.
  apply invoke_ran in E as (c1 & H1 & F1). intros H.
  assert (∃ c2, ran ctx c2 e s1 s' ∧ Forall allowed c2) as (c2 & H2 & F2)
    by (destruct o; [by eapply IHk|by eapply IHr]).
  exists (c1 ++ c2). unfold ran in *. rewrite foldl_app, <-H1. split; [done|by apply Forall_app].
Qed.

Lemma runIn_ran ctx source keys argv e s s' v :
  runIn L ctx source keys argv e s = (s', v) →
  ∃ cmds, ran (MkCtx (ctx_proto ctx) true) cmds e s s' ∧ Forall allowed cmds.
Proof.
  unfold runIn, Execute. destruct (run L _ _ "" e s) as [[s1 ce] o] eqn:E. apply run_ran in E.
  destruct o; by intros [= <- <-].
Qed.

(** The request of EVAL: the script, its keys and its arguments. *)
Definition eval_request (source : string) (keys argv : list string) : list Value :=
  Bulk source :: Bulk (Strconv.FormatInt (Z.of_nat (length keys))) :: (Bulk <$> (keys ++ argv)).

Lemma bulk_Bulk l : bulk (Bulk <$> l) = l.
Proof. unfold bulk. rewrite <-list_fmap_compose. apply list_fmap_id. Qed.

Lemma eval_request_keys cmd first source keys argv :
  (Z.of_nat (length keys) + Z.of_nat (length argv) < 2 ^ 62)%Z →
  let args := first :: drop 1 (eval_request source keys argv) in
  numKeysOf cmd args = inr (Z.of_nat (length keys)) ∧
  keysAndArgv (Z.of_nat (length keys)) args = Ok (keys, argv).
Proof.
  intros Hlen args. assert (length args = 2 + length keys + length argv) as Hargs.
  { unfold args. cbn. rewrite length_fmap, length_app. lia. }
  unfold args, eval_request in *. cbn [drop] in *. unfold numKeysOf, keysAndArgv. rewrite Hargs. split.
  - change (vBulk (Bulk ?x)) with x. unfold Strconv.Atoi.
    rewrite Strconv.ParseInt_FormatInt by (unfold int64; lia).
    rewrite wrap64_id by (unfold int64; lia).
    rewrite (proj2 (Z.ltb_ge _ _)), (proj2 (Z.ltb_ge _ _)) by lia. done.
  - rewrite (proj2 (Z.ltb_ge _ _)) by lia. cbv zeta. rewrite Nat2Z.id, fmap_app. cbn [drop].
    rewrite drop_0.     rewrite take_app_length', drop_app_length' by (by rewrite length_fmap). by rewrite !bulk_Bulk.
Qed.

(** Attempt [k] ran the whole script on the tables as they were in [s], holding
    from the start the locks of its keys, taken in strictly increasing order;
    what it did is a sequence of commands on that transaction. *)
Definition script_ran (ctx : hctx) (source : string) (keys argv : list string) (e : nat → env) (k : nat)
    (s s2 : st) (v : Value) : Prop :=
  ∃ s1 cmds, k ≤ maxExecRetries ∧ runIn L ctx source keys argv (e k) s1 = (s2, v) ∧
    ran (MkCtx (ctx_proto ctx) true) cmds (e k) s1 s2 ∧ Forall allowed cmds ∧
    db s1 = db s ∧ in_tx s1 = true ∧ StronglySorted Sort.slt (locks s1) ∧
    ∀ key, key ∈ locks s1 ↔ key ∈ encodeKey <$> keys.

(** C9. A script is atomic. EVAL outside a transaction caches the script, and
    then either one attempt, at most the fourth, ran the whole script on the
    tables as they were before, holding from the start the advisory locks of
    the declared KEYS, taken in strictly increasing order, and the tables are
    what the commands it called left and the reply is the script's; or one
    attempt ran it in the same way, its COMMIT took effect on the server but
    the answer was lost, and the reply is an error while the tables are what
    the script left; or the tables are untouched, and the reply is an error or
    contains a retryable one. What the script did to the tables is a sequence of commands run on
    that transaction, in a context that does not block, none of them a
    transaction, subscription or scripting command. *)
Theorem eval_atomic ctx e source keys argv sc s sc' s' r :
  (Z.of_nat (length keys) + Z.of_nat (length argv) < 2 ^ 62)%Z →
  evalOp L ctx (OnStore e) (eval_request source keys argv) sc s = (sc', s', r) →
  sc' = <[scriptSHA1 source := source]> sc ∧
  ∃ v, r = Ok v ∧
    ((∃ k s2, script_ran ctx source keys argv e k s s2 v ∧ db s' = db s2) ∨
     (∃ k s2 result er, script_ran ctx source keys argv e k s s2 result ∧ answer_lost (e k) (sent s2) er ∧
                        vType v = Error ∧ db s' = db s2) ∨
     (db s' = db s ∧ (vType v = Error ∨ hasRetryableError v = true))).
Proof.
  intros Hlen. destruct (eval_request_keys "eval" (Bulk source) source keys argv Hlen) as [Hn Hk].
  change (Bulk source :: drop 1 (eval_request source keys argv)) with (eval_request source keys argv) in Hn, Hk.
  unfold evalOp. rewrite Hn, Hk. change (default "" _) with source. cbn [runScript].
  destruct (runTx keys _ e s) as [s0 v] eqn:E. intros [= <- <- <-]. split; [done|].
  exists v. split; [done|]. apply runTx_from_outcome in E.
  assert (∀ k s1 s2 v, 0 ≤ k ≤ 0 + maxExecRetries → db s1 = db s → in_tx s1 = true → locks s1 = lock_order keys →
    runIn L ctx source keys argv (e k) s1 = (s2, v) → script_ran ctx source keys argv e k s s2 v) as Hran.
  { intros k s1 s2 w Hb Hdb Hin Hl Hfn. destruct (runIn_ran _ _ _ _ _ _ _ _ Hfn) as (cmds & Hr & Hf).
    exists s1, cmds. rewrite Hl. split_and!; try done; [lia|apply lock_order_sorted|].
    intros key. apply elem_of_lock_order. }
  destruct E as [(k & s1 & s2 & Hb & Hfn & Hdb & Hin & _ & Hl & _ & _ & Hd)
                |[(Hv & k & s1 & s2 & w & er & Hb & Hfn & Hdb & Hin & _ & Hl & Hlost & Hd)|Hrb]];
    [left|right; left|by do 2 right].
  - exists k, s2. split; [by eapply Hran|done].
  - exists k, s2, w, er. split_and!; [by eapply Hran|done..].
Qed.

(** ** The script cache *)

Definition is_flush (cmdName : string) (args : list Value) : Prop :=
  cmdName = "SCRIPT" ∧ ∃ sub rest, args = sub :: rest ∧ Strings.ToUpper (vBulk sub) = "FLUSH".
(** A scripting command, run by any connection at any time; [keeping] asks that
    it is not SCRIPT FLUSH. *)
Definition cache_step (keeping : bool) (sc sc' : ScriptCache) : Prop :=
  ∃ ctx ops cmdName args s s' r,
    (keeping = true → ¬ is_flush cmdName args) ∧ scriptCommand L ctx ops cmdName args sc s = Some (sc', s', r).

Lemma evalOp_cache ctx ops args sc s sc' s' r :
  evalOp L ctx ops args sc s = (sc', s', r) → sc' = sc ∨ ∃ source, sc' = (Store sc source).1.
Proof.
  unfold evalOp. destruct (numKeysOf _ _) as [v|n]; [intros [= <- _ _]; by left|].
  destruct (keysAndArgv n args) as [[keys argv]|er]; [|intros [= <- _ _]; by left].
  destruct (runScript _ _ _ _ _ _ s) as [s1 v]. intros [= <- _ _]. right. by eexists.
Qed.

Lemma evalshaOp_cache ctx ops args sc s sc' s' r :
  evalshaOp L ctx ops args sc s = (sc', s', r) → sc' = sc.
Proof.
  unfold evalshaOp. destruct (numKeysOf _ _) as [v|n]; [by intros [= <- _ _]|].
  destruct (Get _ _) as [source|]; [|by intros [= <- _ _]].
  destruct (keysAndArgv n args) as [[keys argv]|er]; [|by intros [= <- _ _]].
  destruct (runScript _ _ _ _ _ _ s) as [s1 v]. by intros [= <- _ _].
Qed.

Lemma scriptOp_cache args sc sc' v :
  scriptOp args sc = (sc', v) →
  sc' = sc ∨ (∃ source, sc' = (Store sc source).1) ∨ (is_flush "SCRIPT" args ∧ sc' = ∅).
Proof.
  unfold scriptOp. destruct args as [|sub subArgs]; [intros [= <- _]; by left|].
  repeat case_bool_decide; try (intros [= <- _]; by left).
  - destruct subArgs as [|source []]; intros [= <- _]; [by left|right; left; by eexists|by left].
  - destruct subArgs; intros [= <- _]; by left.
  - intros [= <- _]. right. right. split; [split; [done|by exists sub, subArgs]|done].
Qed.

Lemma cache_step_cases keeping sc sc' :
  cache_step keeping sc sc' →
  sc' = sc ∨ (∃ source, sc' = (Store sc source).1) ∨ (keeping = false ∧ sc' = ∅).
Proof.
  intros (ctx & ops & cmdName & args & s & s' & r & Hk & Hc). unfold scriptCommand in Hc.
  repeat case_bool_decide; try done.
  - injection Hc as Hc. apply evalOp_cache in Hc as [?|?]; auto.
  - injection Hc as Hc. apply evalshaOp_cache in Hc. auto.
  - destruct (scriptOp args sc) as [sc1 v] eqn:E. injection Hc as <- _ _. subst cmdName.
    apply scriptOp_cache in E as [?|[?|[Hf ?]]]; auto. right. right. split; [|done].
    destruct keeping; [by destruct (Hk eq_refl)|done].
Qed.

(** Every script is stored under its own hash. *)
Definition hashed (sc : ScriptCache) : Prop := map_Forall (λ sha source, sha = scriptSHA1 source) sc.
Lemma cache_hashed sc sc' : rtc (cache_step false) sc sc' → hashed sc → hashed sc'.
Proof.
  induction 1 as [|x y z Hs _ IH]; [done|]. intros Hx. apply IH.
  apply cache_step_cases in Hs as [->|[[source ->]|[_ ->]]];
    [done|by apply map_Forall_insert_2|apply map_Forall_empty].
Qed.

(** A cached script stays until the cache is flushed. *)
Lemma cache_kept sha sc sc' : rtc (cache_step true) sc sc' → is_Some (sc !! sha) → is_Some (sc' !! sha).
Proof.
  induction 1 as [|x y z Hs _ IH]; [done|]. intros Hx. apply IH.
  apply cache_step_cases in Hs as [->|[[source ->]|[? _]]]; [done| |done].
  apply lookup_insert_is_Some'. by right.
Qed.

(** The hash is written with digits and lower-case letters. *)
Lemma to_lower_id l : Forall (λ c, (b2z c < 196)%Z ∧ ¬ (65 <= b2z c <= 90)%Z) l → Strings.to_lower l = l.
Proof.
  assert (∀ c, ¬ (65 <= b2z c <= 90)%Z → Strings.lower c = c) as Hlow.
  { intros c Hc. unfold Strings.lower.
    destruct (Z.leb_spec 65 (b2z c)), (Z.leb_spec (b2z c) 90); cbn [andb]; done || lia. }
  induction l as [|c l IH]; intros Hl; [done|]. inversion Hl as [|? ? [Hc1 Hc2] Hl']. subst.
  specialize (IH Hl'). cbn [Strings.to_lower]. destruct l as [|d l]; [by rewrite Hlow|].
  rewrite (proj2 (Z.eqb_neq (b2z c) 196)), (proj2 (Z.eqb_neq (b2z c) 226)) by lia. cbn [andb].
  rewrite IH, Hlow by done. by destruct l.
Qed.

Lemma big_endian_bytes n x : Forall (λ b, 0 <= b < 256)%Z (Sha1.big_endian n x).
Proof.
  revert x. induction n as [|n IH]; intros x; [constructor|]. apply Forall_app. split; [apply IH|].
  repeat constructor; apply Z.mod_pos_bound; lia.
Qed.

Lemma hex_digit_low n :
  (0 <= n < 16)%Z → (b2z (Sha1.hex_digit n) < 196)%Z ∧ ¬ (65 <= b2z (Sha1.hex_digit n) <= 90)%Z.
Proof.
  intros Hn. unfold Sha1.hex_digit. rewrite b2z_z2b.
  destruct (Z.ltb_spec n 10); rewrite Z.mod_small by lia; lia.
Qed.

Lemma ToLower_scriptSHA1 source : Strings.ToLower (scriptSHA1 source) = scriptSHA1 source.
Proof.
  unfold Strings.ToLower, scriptSHA1, Sha1.EncodeToString. rewrite bytes_of_string_of. f_equal.
  apply to_lower_id, Forall_flat_map. apply (Forall_impl (λ b, 0 <= b < 256)%Z).
  - unfold Sha1.Sum. cbv zeta. rewrite !Forall_app. split_and!; apply big_endian_bytes.
  - intros b Hb. cbn beta. rewrite Forall_cons, Forall_singleton. split; apply hex_digit_low;
      [split; [apply Z.div_pos; lia|apply Z.div_lt_upper_bound; lia]|apply Z.mod_pos_bound; lia].
Qed.

(** C27. EVALSHA is EVAL of a cached script. Whatever scripting commands ran
    before, EVALSHA with a hash in any letter case either answers NOSCRIPT and
    does nothing, when no script of that hash is cached, or does exactly what
    EVAL does on a script with that hash. A script that EVAL or SCRIPT LOAD
    cached has its hash found after any further commands other than SCRIPT
    FLUSH. *)
Theorem evalsha_eval sc sc' ctx ops sha keys argv s :
  (Z.of_nat (length keys) + Z.of_nat (length argv) < 2 ^ 62)%Z →
  rtc (cache_step false) ∅ sc → rtc (cache_step true) sc sc' →
  let request := Bulk sha :: drop 1 (eval_request "" keys argv) in
  match Get sc' sha with
  | None => evalshaOp L ctx ops request sc' s =
              (sc', s, Ok (ErrCustom "NOSCRIPT No matching script. Please use EVAL."))
  | Some source => scriptSHA1 source = Strings.ToLower sha ∧
      evalshaOp L ctx ops request sc' s = evalOp L ctx ops (eval_request source keys argv) sc' s
  end ∧
  (∀ source, sc !! scriptSHA1 source = Some source → is_Some (Get sc' (scriptSHA1 source))) ∧
  (∀ source, Get (Store sc' source).1 (scriptSHA1 source) = Some source).
Proof.
  intros Hlen Hsc Hkeep request.
  assert (rtc (cache_step false) ∅ sc') as Hsc'.
  { etransitivity; [exact Hsc|]. eapply rtc_subrel; [|exact Hkeep].
    intros x y (c & o & n & a & s0 & s1 & r & _ & E). by exists c, o, n, a, s0, s1, r. }
  apply cache_hashed in Hsc'; [|apply map_Forall_empty]. split_and!.
  - destruct (eval_request_keys "evalsha" (Bulk sha) "" keys argv Hlen) as [Hn Hk]. fold request in Hn, Hk.
    unfold evalshaOp. rewrite Hn. change (default "" (vBulk <$> head request)) with sha.
    destruct (Get sc' sha) as [source|] eqn:Eg; [|done]. unfold Get in Eg.
    assert (scriptSHA1 source = Strings.ToLower sha) as Hsha by (symmetry; by apply (Hsc' _ _ Eg)).
    split; [done|]. rewrite Hk.
    destruct (eval_request_keys "eval" (Bulk source) source keys argv Hlen) as [Hn' Hk'].
    change (Bulk source :: drop 1 (eval_request source keys argv)) with (eval_request source keys argv) in Hn', Hk'.
    unfold evalOp. rewrite Hn', Hk'. change (default "" _) with source.
    destruct (runScript _ _ _ _ _ _ s) as [s1 v]. unfold Store. cbn [fst].
    by rewrite insert_id by (by rewrite Hsha).
  - intros source Hs. unfold Get. rewrite ToLower_scriptSHA1. eapply cache_kept; [exact Hkeep|]. by eexists.
  - intros source. unfold Get, Store. cbn [fst]. rewrite ToLower_scriptSHA1. apply lookup_insert_eq.
Qed.

End Atomic.

(** ** Replies through a script *)

Section Conversions.
Context (L : lua_lib) {LOK : LuaOk L}.




Lemma respToLua_array str num bulk arr md null :
  respToLua L (MkValue Array str num bulk arr md null) =
    if bool_decide (length arr = 0) && nil_slice L (MkValue Array str num bulk arr md null) then LBool false
    else LTable (array_entries L (respToLua L <$> arr)).
Proof. reflexivity. Qed.




(** An empty array made by [resp.Arr()] is a nil slice: a script is given
    false for it, and replies nil. *)
Lemma empty_array_becomes_null :
  nil_slice L (Arr []) = true → respToLua L (Arr []) = LBool false ∧ luaToResp L (respToLua L (Arr [])) = NullBulk.
Proof.
  intros H. assert (respToLua L (Arr []) = LBool false) as E; [|by rewrite E].
  unfold Arr, VArr in *. rewrite respToLua_array. by rewrite H.
Qed.

End Conversions.

(** ** Failing scripts *)

(** From [t], with the last call error [ce] and the state [s], a run of the
    script gets to [t'] by invoking functions of the redis table, whatever
    they return or raise. *)
Inductive reaches (L : lua_lib) {OPS : Operations} (ctx : hctx) (e : env) :
    script → string → st → script → string → st → Prop :=
| reaches_here t ce s : reaches L ctx e t ce s t ce s
| reaches_returned f args returned raised ce s values ce1 s1 t' ce' s' :
    invoke L f ctx args ce e s = (s1, ce1, inl values) → reaches L ctx e (returned values) ce1 s1 t' ce' s' →
    reaches L ctx e (Invoke f args returned raised) ce s t' ce' s'
| reaches_raised f args returned raised ce s message ce1 s1 t' ce' s' :
    invoke L f ctx args ce e s = (s1, ce1, inr message) → reaches L ctx e (raised message) ce1 s1 t' ce' s' →
    reaches L ctx e (Invoke f args returned raised) ce s t' ce' s'.

Lemma run_reaches (L : lua_lib) {OPS : Operations} ctx e t ce s t' ce' s' :
  reaches L ctx e t ce s t' ce' s' → run L t ctx ce e s = run L t' ctx ce' e s'.
Proof.
  induction 1 as [t ce s|f args returned raised ce s values ce1 s1 t' ce' s' E _ IH
                 |f args returned raised ce s message ce1 s1 t' ce' s' E _ IH]; [done|..];
    cbn [run]; by rewrite E.
Qed.

Lemma digits_app ds c rest :
  Forall (λ d, is_digit d = true) ds → is_digit c = false → digits (ds ++ c :: rest) = ds.
Proof.
  induction 1 as [|d ds Hd _ IH]; intros Hc; cbn; [by rewrite Hc|]. by rewrite Hd, IH.
Qed.

Lemma luaErrLine_mark ds rest :
  ds ≠ [] → Forall (λ d, is_digit d = true) ds → luaErrLine (line_mark ++ ds ++ ":"%char :: rest) = Some ds.
Proof.
  intros Hne Hds. assert (match_line (line_mark ++ ds ++ ":"%char :: rest) = Some ds) as Hm.
  { unfold match_line. rewrite Strings.has_prefix_app, drop_app_length. cbv zeta.
    rewrite digits_app by done. rewrite drop_app_length.
    rewrite bool_decide_true by done. by destruct rest. }
  remember (line_mark ++ ds ++ ":"%char :: rest) as l eqn:El. destruct l; cbn [luaErrLine]; by rewrite Hm.
Qed.

Lemma split2_elem_of sep l p : Strings.split2 sep l = Some p → sep ∈ l.
Proof.
  revert p. induction l as [|c l IH]; intros p; cbn; [done|]. case_bool_decide; [subst; by left|].
  destruct (Strings.split2 sep l) as [p'|]; [|done]. intros _. right. by eapply IH.
Qed.

Lemma first_line_app (msg trace : string) :
  LF ∉ bytes_of msg → trace = "" ∨ (∃ t, trace = String LF t) → first_line (msg +:+ trace) = msg.
Proof.
  intros Hm [->|[t ->]]; unfold first_line; rewrite bytes_of_app; cbn [bytes_of String.list_ascii_of_string].
  - rewrite app_nil_r. destruct (Strings.split2 LF (bytes_of msg)) as [[a b]|] eqn:E.
    + by destruct (Hm (split2_elem_of _ _ _ E)).
    + apply (inj bytes_of). by rewrite bytes_of_app, app_nil_r.
  - change (bytes_of (String LF t)) with (LF :: bytes_of t). rewrite Strings.split2_app by done.
    apply string_of_bytes_of.
Qed.

Lemma IsRetryableMessage_app (a b : string) : IsRetryableMessage a = true → IsRetryableMessage (a +:+ b) = true.
Proof.
  unfold IsRetryableMessage, Strings.Contains. rewrite !orb_true_iff, bytes_of_app.
  intros [H|H]; apply Strings.contains_spec in H as (l & r & ->); [left|right];
    apply Strings.contains_spec; exists l, (r ++ bytes_of b); by rewrite <-!app_assoc.
Qed.

(** C29. A script that ends because a [redis.call] in it failed and nothing
    caught that error, whatever calls came before it (failed and caught ones
    included), replies with the error of that call: its text (which is one
    line), the hash of the script and the line the interpreter reports,
    without the traceback. A deadlock or serialization failure stays recognisable, so
    that the transaction of the script is tried again. The commands that may
    not be called from a script fail this way too, without running. *)
Theorem script_call_error (L : lua_lib) `{OPS : !Operations, !LuaOk L} ctx source keys argv name args returned
    (line trace msg : string) e s ce1 s1 s' :
  reaches L (MkCtx (ctx_proto ctx) true) e (interpret L source keys argv) "" s
    (Invoke call (LString name :: args) returned (λ m, Raise ("<string>:" +:+ line +:+ ": " +:+ m +:+ trace))) ce1 s1 →
  (if bool_decide (Strings.ToUpper name ∈ forbidden)
   then s' = s1 ∧ msg = "ERR This Redis command is not allowed from a script"
   else ExecuteOnTx (MkCtx (ctx_proto ctx) true) (Strings.ToUpper name)
          ((λ arg, Bulk (luaToString L arg)) <$> args) e s1 = (s', VStr Error msg)) →
  msg ≠ "" → LF ∉ bytes_of msg → line ≠ "" → Forall (λ d, is_digit d = true) (bytes_of line) →
  trace = "" ∨ (∃ t, trace = String LF t) →
  runIn L ctx source keys argv e s =
    (s', VStr Error (msg +:+ " script: " +:+ scriptSHA1 source +:+ ", on @user_script:" +:+ line +:+ ".")) ∧
  (IsRetryableMessage msg = true → hasRetryableError (runIn L ctx source keys argv e s).2 = true).
Proof.
  intros Hi Hcmd Hne Hlf Hline Hdig Htrace.
  assert (runIn L ctx source keys argv e s =
    (s', VStr Error (msg +:+ " script: " +:+ scriptSHA1 source +:+ ", on @user_script:" +:+ line +:+ "."))) as E.
  { unfold runIn, Execute. rewrite (run_reaches _ _ _ _ _ _ _ _ _ Hi). cbn [run invoke].
    assert (redisCall L (MkCtx (ctx_proto ctx) true) (LString name :: args) ce1 e s1 = (s', msg, inr msg)) as ->.
    { unfold redisCall, executeRedisCommand. rewrite CheckString_string.
      case_bool_decide; [by destruct Hcmd as [-> ->]|]. by rewrite Hcmd. }
    cbn [run]. unfold scriptError.
    assert (first_line ("<string>:" +:+ line +:+ ": " +:+ msg +:+ trace) = "<string>:" +:+ line +:+ ": " +:+ msg) as ->.
    { rewrite <-(first_line_app ("<string>:" +:+ line +:+ ": " +:+ msg) trace); [|..|done].
      - f_equal. apply (inj bytes_of). by rewrite !bytes_of_app, <-!app_assoc.
      - rewrite !bytes_of_app, !elem_of_app. intros [H|[H|[H|H]]]; [|..|done]; revert H.
        + apply (bool_decide_unpack _). done.
        + rewrite Forall_forall in Hdig. intros H%Hdig. done.
        + apply (bool_decide_unpack _). done. }
    rewrite !bytes_of_app. change (bytes_of "<string>:") with line_mark.
    change (bytes_of ": " ++ ?x) with (":"%char :: " "%char :: x). rewrite luaErrLine_mark; [|by intros Hl; apply Hline, (inj bytes_of)|done].
    rewrite string_of_bytes_of. rewrite bool_decide_true by done.
    assert (Strings.HasSuffix ("<string>:" +:+ line +:+ ": " +:+ msg) msg = true) as ->; [|done].
    apply Strings.has_suffix_spec. eexists. by rewrite !bytes_of_app, !app_assoc. }
  split; [exact E|]. intros Hr. rewrite E. unfold hasRetryableError. rewrite bool_decide_true by done.
  by apply IsRetryableMessage_app.
Qed.

(** ** Examples *)

(** A library that knows two scripts,
    [return redis.call('set', KEYS[1], ARGV[1])] and one that first calls a
    command that fails, catches its error, and then calls
    [redis.call('publish', KEYS[1], ARGV[1])]. *)
Definition set_source : string := "return redis.call('set', KEYS[1], ARGV[1])".
Definition publish_source : string :=
  "pcall(redis.call, 'nosuch') return redis.call('publish', KEYS[1], ARGV[1])".
Definition traceback : string := String LF "stack traceback:".
Definition one_call (name : string) (keys argv : list string) : script :=
  Invoke call (LString name :: (LString <$> (take 1 keys ++ take 1 argv))) Return
    (λ m, Raise ("<string>:" +:+ "1" +:+ ": " +:+ m +:+ traceback)).
Definition sample_lua : lua_lib := {|
  interpret := λ source keys argv,
    if bool_decide (source = set_source) then one_call "set" keys argv
    else if bool_decide (source = publish_source)
    then Invoke call [LString "nosuch"] (λ _, one_call "publish" keys argv) (λ _, one_call "publish" keys argv)
    else Raise "syntax error";
  CheckString := λ v, match v with LString s => inl s | _ => inr "bad argument #1 to call (string expected)" end;
  array_entries := λ l, imap (λ i v, (LNumber (Float64.of_int (Z.of_nat i + 1)), v)) l;
  print_value := λ _, "table";
  FormatFloat := λ _, "0.5";
  int64_open := λ _, (- 2 ^ 63)%Z;
  nil_slice := λ v, vNull v
|}.
#[export] Instance sample_lua_ok : LuaOk sample_lua.
Proof. split; [reflexivity|intros; reflexivity|reflexivity]. Qed.

Lemma eval_atomic_witness :
  ∃ sc' s', @evalOp sample_lua sample_ops (MkCtx 2 false) (OnStore sample_env)
              (eval_request set_source ["x"] ["5"]) ∅ sample_st = (sc', s', Ok OK) ∧
            sc' = <[scriptSHA1 set_source := set_source]> ∅ ∧ kv_strings (db s') = {[ "x" := ("5", None) ]}.
Proof.
  set (r := @evalOp sample_lua sample_ops (MkCtx 2 false) (OnStore sample_env)
              (eval_request set_source ["x"] ["5"]) ∅ sample_st).
  assert (r.2 = Ok OK) as Hv by (vm_compute; reflexivity).
  assert (kv_strings (db r.1.2) = {[ "x" := ("5", None) ]}) as Hd by (vm_compute; reflexivity).
  destruct r as [[sc' s'] v] eqn:E. cbn [snd fst] in Hv, Hd. subst v. exists sc', s'. split; [reflexivity|].
  split; [|exact Hd].
  refine (proj1 (@eval_atomic sample_lua sample_ops (MkCtx 2 false) sample_env set_source ["x"] ["5"] ∅ sample_st
                   sc' s' (Ok OK) _ E)).
  cbn. lia.
Defined.

Definition loaded : ScriptCache := {[ scriptSHA1 set_source := set_source ]}.
Lemma set_loaded : rtc (@cache_step sample_lua sample_ops false) ∅ loaded.
Proof.
  apply rtc_once. exists (MkCtx 2 false), (OnTx (quiet 0 0)), "SCRIPT", [Bulk "load"; Bulk set_source], sample_st,
    sample_st, (Ok (Bulk (scriptSHA1 set_source))).
  split; [discriminate|]. vm_compute. reflexivity.
Qed.

Lemma evalsha_eval_witness :
  @evalshaOp sample_lua sample_ops (MkCtx 2 false) (OnStore sample_env)
    (Bulk (Strings.ToUpper (scriptSHA1 set_source)) :: drop 1 (eval_request "" ["x"] ["5"])) loaded sample_st =
  @evalOp sample_lua sample_ops (MkCtx 2 false) (OnStore sample_env) (eval_request set_source ["x"] ["5"]) loaded sample_st.
Proof.
  assert (Z.of_nat (length ["x"]) + Z.of_nat (length ["5"]) < 2 ^ 62)%Z as Hlen by (cbn; lia).
  pose proof (@evalsha_eval sample_lua sample_ops loaded loaded (MkCtx 2 false) (OnStore sample_env)
    (Strings.ToUpper (scriptSHA1 set_source)) ["x"] ["5"] sample_st Hlen set_loaded (rtc_refl _ _)) as H.
  cbv zeta in H. destruct H as [H _].
  assert (Get loaded (Strings.ToUpper (scriptSHA1 set_source)) = Some set_source) as E by (vm_compute; reflexivity).
  rewrite E in H. exact (proj2 H).
Defined.


Lemma script_call_error_witness :
  @runIn sample_lua sample_ops (MkCtx 2 false) publish_source ["ch"] ["hi"] (quiet 0 0) sample_st =
    (sample_st, VStr Error ("ERR This Redis command is not allowed from a script" +:+ " script: " +:+
       scriptSHA1 publish_source +:+ ", on @user_script:" +:+ "1" +:+ ".")).
Proof.
  refine (proj1 (@script_call_error sample_lua sample_ops _ (MkCtx 2 false) publish_source ["ch"] ["hi"] "publish"
    [LString "ch"; LString "hi"] Return "1" traceback "ERR This Redis command is not allowed from a script"
    (quiet 0 0) sample_st "ERR no" sample_st sample_st _ _ _ _ _ _ _)).
  - eapply reaches_raised; [vm_compute; reflexivity|]. apply reaches_here.
  - rewrite bool_decide_true by (apply (bool_decide_unpack _); vm_compute; exact I). split; reflexivity.
  - discriminate.
  - apply (bool_decide_unpack _). vm_compute. exact I.
  - discriminate.
  - repeat constructor.
  - right. by eexists.
Defined.

(** The number of keys overflows the check. *)
Example eval_overflow ops sc s :
  @evalOp sample_lua sample_ops (MkCtx 2 false) ops [Bulk "return 1"; Bulk "9223372036854775807"] sc s =
    (sc, s, Fail (panic "makeslice: len out of range")).
Proof. reflexivity. Qed.

End Lua.
