(* ===== verification/Server.v ===== *)
(** * The connection loop: internal/server/server.go

    [processCommand] is the body of the loop of [handleConnection] for one
    command: authentication, the pub/sub mode, MULTI/EXEC, RESET, CLIENT and
    the dispatch to the handler. [world] is what the connections share: the
    hub, the database and the notifications sent. Reading and writing the
    socket is resp.go's reader and writer (Resp.v). *)
From stdpp Require Import gmap strings list sorting.
From Stdlib Require Import ZArith Lia Ascii.
From S2P Require Import Prelude GoStd Resp Db StoreMeta Client PubSub Handler.
Import Resp Db Meta Client PubSub Handler.

Module Server.

(** [handler.password], and the hub unless pub/sub is disabled. *)
Record config := MkConfig { password : string; pubsub : bool }.

(** The local variables of [handleConnection]. *)
Record conn := MkConn { client : ClientState; authenticated : bool }.

Record world := MkWorld { hub : Hub; dbst : st; sent_notes : list string }.

(** A connection after [NewClientState]. *)
Definition newConn (cfg : config) (id : Z) (addr : string) (now : Z) : conn :=
  MkConn (NewClientState id addr now) (negb (RequiresAuth (password cfg))).

Definition extractBulkStrings (values : list Value) : list string := vBulk <$> values.

Definition noAuth : Value := VStr Error "NOAUTH Authentication required.".
Definition noPubSub : Value := Err "pub/sub is not enabled".
Definition pubsubOnly : Value :=
  Err "only (P)SUBSCRIBE / (P)UNSUBSCRIBE / PING / QUIT allowed in this context".

Section Loop.
Context `{!Operations} (cfg : config).

Definition handle (cmd : Value) (proto : Z) (e : nat → env) (w : world) : world * Value :=
  let '(s, v) := Handle (password cfg) (MkCtx proto false) cmd e (dbst w) in
  (MkWorld (hub w) s (sent_notes w), v).

(** A command of the hub that answers with several values. *)
Definition withHub (f : list string → ClientState → Hub → ClientState * Hub * list Value)
    (args : list Value) (c : conn) (w : world) : conn * world * list Value :=
  if pubsub cfg then
    let '(cl, h, vs) := f (extractBulkStrings args) (client c) (hub w) in
    (MkConn cl (authenticated c), MkWorld h (dbst w) (sent_notes w), vs)
  else (c, w, [noPubSub]).

Definition publish (e : env) (args : list Value) (w : world) : world * Value :=
  if pubsub cfg then
    match args with
    | channel :: message :: _ =>
        let n := sent (dbst w) in
        let landed := match fault e n with Some er => took_effect e n er | None => true end in
        match HandlePublish (fault e n) landed (vBulk channel) (vBulk message) (hub w) with
        | (v, Some note) => (MkWorld (hub w) (dbst w) (sent_notes w ++ [note]), v)
        | (v, None) => (w, v)
        end
    | _ => (w, ErrWrongArgs "publish")
    end
  else (w, noPubSub).

(** RESET. *)
Definition reset (c : conn) (w : world) : conn * world :=
  let cl := client c in
  let cl := if inTransaction cl then (DiscardTransaction cl).1 else cl in
  let h := if pubsub cfg then RemoveSubscriber (ID cl) (hub w) else hub w in
  let cl := SetName "" (SetProtocolVersion 2 cl) in
  (MkConn cl (if RequiresAuth (password cfg) then false else authenticated c),
   MkWorld h (dbst w) (sent_notes w)).

(** One command: the new state and the values written to the client. *)
Definition processCommand (age : Z) (e : nat → env) (cmd : Value) (c : conn) (w : world) :
    conn * world * list Value :=
  let one := λ (cw : conn * world) (v : Value), (cw.1, cw.2, [v]) in
  match parts cmd with
  | None => let '(w, v) := handle cmd (protocolVersion (client c)) e w in (c, w, [v])
  | Some (cmdName, args) =>
      let proto := protocolVersion (client c) in
      if bool_decide (cmdName = "AUTH") then
        let '(w, v) := handle cmd proto e w in
        let ok := bool_decide (vType v = SimpleString) && bool_decide (vStr v = "OK") in
        (MkConn (client c) (ok || authenticated c), w, [v])
      else if bool_decide (cmdName = "HELLO") then
        let '(hasAuth, authSuccess) := CheckHelloAuth (password cfg) cmd in
        let protoVersion := GetHelloProtocolVersion cmd in
        let cl := SetProtocolVersion protoVersion (client c) in
        let '(w, v) := handle cmd protoVersion e w in
        let ok := hasAuth && authSuccess && bool_decide (vType v ≠ Error) in
        (MkConn cl (ok || authenticated c), w, [v])
      else if negb (authenticated c) then
        if bool_decide (cmdName ∈ ["PING"; "QUIT"; "COMMAND"; "HELLO"]) then
          let '(w, v) := handle cmd proto e w in (c, w, [v])
        else (c, w, [noAuth])
      else if bool_decide (cmdName = "SUBSCRIBE") then withHub HandleSubscribe args c w
      else if bool_decide (cmdName = "UNSUBSCRIBE") then withHub HandleUnsubscribe args c w
      else if bool_decide (cmdName = "PSUBSCRIBE") then withHub HandlePSubscribe args c w
      else if bool_decide (cmdName = "PUNSUBSCRIBE") then withHub HandlePUnsubscribe args c w
      else if bool_decide (cmdName = "PUBLISH") then
        let '(w, v) := publish (e 0%nat) args w in (c, w, [v])
      else if inPubSubMode (client c) && negb (UseRESP3 (client c)) then
        if bool_decide (cmdName = "PING") then
          (c, w, [Arr [Bulk "pong"; Bulk (match args with a :: _ => vBulk a | [] => "" end)]])
        else if bool_decide (cmdName = "QUIT") then
          let '(w, v) := handle cmd proto e w in (c, w, [v])
        else (c, w, [pubsubOnly])
      else if bool_decide (cmdName = "RESET") then one (reset c w) (VStr SimpleString "RESET")
      else if bool_decide (cmdName = "MULTI") then
        let '(cl, v) := HandleMulti (client c) in (MkConn cl (authenticated c), w, [v])
      else if bool_decide (cmdName = "EXEC") then
        let '(cl, s, v) := HandleExec (MkCtx proto false) (client c) e (dbst w) in
        (MkConn cl (authenticated c), MkWorld (hub w) s (sent_notes w), [v])
      else if bool_decide (cmdName = "DISCARD") then
        let '(cl, v) := HandleDiscard (client c) in (MkConn cl (authenticated c), w, [v])
      else if inTransaction (client c) then
        (MkConn (QueueCommand cmd (client c)) (authenticated c), w, [VStr SimpleString "QUEUED"])
      else if bool_decide (cmdName = "CLIENT") then
        let '(cl, v) := HandleClient age cmd (client c) in (MkConn cl (authenticated c), w, [v])
      else let '(w, v) := handle cmd proto e w in (c, w, [v])
  end.

(** The commands of one connection, one after the other; [e n] is what the
    database answers during the n-th. *)
Fixpoint processAll (age : Z) (e : nat → nat → env) (n : nat) (cmds : list Value) (c : conn) (w : world) :
    conn * world * list (list Value) :=
  match cmds with
  | [] => (c, w, [])
  | cmd :: cmds =>
      let '(c, w, vs) := processCommand age (e n) cmd c w in
      let '(c, w, rest) := processAll age e (S n) cmds c w in
      (c, w, vs :: rest)
  end.

(** The deferred calls of [handleConnection]. *)
Definition closeConn (c : conn) (w : world) : world :=
  if pubsub cfg then MkWorld (RemoveSubscriber (ID (client c)) (hub w)) (dbst w) (sent_notes w) else w.

End Loop.

(** ** Authentication *)

(** The command carries the password as one of its arguments. *)
Definition carries (pw : string) (cmd : Value) : Prop :=
  ∃ a, a ∈ drop 1 (vArray cmd) ∧ vBulk a = pw.

Lemma parts_args cmd name args : parts cmd = Some (name, args) → args = drop 1 (vArray cmd).
Proof. unfold parts. case_bool_decide; [|done]. destruct (vArray cmd); [done|]. by intros [= _ <-]. Qed.

Lemma auth_ok pw args :
  vType (auth pw args) = SimpleString → vStr (auth pw args) = "OK" → ∃ a, a ∈ args ∧ vBulk a = pw.
Proof.
  unfold auth. destruct (RequiresAuth pw); cbn [negb]; [|by rewrite Err_type].
  unfold CheckAuth. destruct args as [|a [|b [|c args]]]; try done; case_bool_decide; try done; intros _ _.
  - exists a. split; [by left|done].
  - exists b. split; [right; by left|done].
Qed.

Lemma helloAuth_loop_ok fuel pw args :
  helloAuth_loop fuel pw args = (true, true) → ∃ a, a ∈ args ∧ vBulk a = pw.
Proof.
  revert args. induction fuel as [|fuel IH]; intros args; [by destruct args|].
  destruct args as [|opt rest]; [done|]. cbn [helloAuth_loop]. case_bool_decide.
  - destruct rest as [|u [|p rest]]; [done|done|]. unfold CheckAuth. case_bool_decide; [|done]. intros _.
    exists p. split; [|done]. right. right. by left.
  - case_bool_decide; [|done]. destruct rest as [|n rest]; [done|]. intros (a & ? & ?)%IH.
    exists a. split; [|done]. right. by right.
Qed.

Lemma CheckHelloAuth_ok pw cmd : CheckHelloAuth pw cmd = (true, true) → carries pw cmd.
Proof.
  unfold CheckHelloAuth, carries. destruct (short 2 cmd); [done|].
  destruct (drop 1 (vArray cmd)) as [|a rest]; [done|].
  destruct (Strconv.Atoi (vBulk a)); intros (x & ? & ?)%helloAuth_loop_ok; exists x; (split; [|done]); [by right|done].
Qed.

Section Safety.
Context `{!Operations} (cfg : config).

(** The commands that never reach the storage layer. *)
Lemma handle_stateless cmd name args proto e w :
  parts cmd = Some (name, args) → name ∈ ["PING"; "QUIT"; "COMMAND"; "HELLO"; "AUTH"] →
  (handle cfg cmd proto e w).1 = w.
Proof.
  intros Hp Hn. unfold handle, Handle, executeCommand. rewrite Hp. destruct w as [h s n].
  repeat (apply elem_of_cons in Hn as [->|Hn]; [done|]). by apply not_elem_of_nil in Hn.
Qed.

Lemma handle_auth cmd args proto e w :
  parts cmd = Some ("AUTH", args) → (handle cfg cmd proto e w).2 = auth (password cfg) args.
Proof. intros Hp. unfold handle, Handle. by rewrite Hp. Qed.

(** One command of a connection that is not authenticated. *)
Lemma process_unauthenticated age e cmd c w c' w' vs :
  authenticated c = false → processCommand cfg age e cmd c w = (c', w', vs) →
  w' = w ∧ (authenticated c' = true → carries (password cfg) cmd).
Proof.
  intros Ha. unfold processCommand. destruct (parts cmd) as [[name args]|] eqn:Hp.
  2: { unfold handle, Handle. rewrite Hp. destruct w. intros [= <- <- <-]. split; [done|]. by rewrite Ha. }
  case_bool_decide as H1.
  { subst name. pose proof (handle_stateless cmd "AUTH" args (protocolVersion (client c)) e w Hp) as Hw.
    pose proof (handle_auth cmd args (protocolVersion (client c)) e w Hp) as Hv.
    destruct (handle cfg cmd (protocolVersion (client c)) e w) as [w1 v]. cbn [fst snd] in *.
    intros [= <- <- <-]. split; [apply Hw; set_solver|]. cbn [authenticated]. rewrite Ha, orb_false_r.
    intros Hok. zify_bool. subst v. destruct (auth_ok (password cfg) args) as (a & ? & ?); [done..|].
    exists a. by rewrite <-(parts_args cmd _ _ Hp). }
  case_bool_decide as H2.
  { subst name. destruct (CheckHelloAuth (password cfg) cmd) as [ha au] eqn:Hc.
    pose proof (handle_stateless cmd "HELLO" args (GetHelloProtocolVersion cmd) e w Hp) as Hw.
    destruct (handle cfg cmd (GetHelloProtocolVersion cmd) e w) as [w1 v]. cbn [fst] in Hw.
    intros [= <- <- <-]. split; [apply Hw; set_solver|]. cbn [authenticated]. rewrite Ha, orb_false_r.
    intros Hok. zify_bool. subst ha au. by apply CheckHelloAuth_ok. }
  rewrite Ha. cbn [negb]. case_bool_decide as H3; [|intros [= <- <- <-]; split; [done|by rewrite Ha]].
  pose proof (handle_stateless cmd name args (protocolVersion (client c)) e w Hp) as Hw.
  destruct (handle cfg cmd (protocolVersion (client c)) e w) as [w1 v]. cbn [fst] in Hw.
  intros [= <- <- <-]. split; [apply Hw; set_solver|]. by rewrite Ha.
Qed.

Lemma processAll_unauthenticated age e n cmds c w c' w' vs :
  authenticated c = false → (∀ cmd, cmd ∈ cmds → ¬ carries (password cfg) cmd) →
  processAll cfg age e n cmds c w = (c', w', vs) → w' = w ∧ authenticated c' = false.
Proof.
  revert n c w vs. induction cmds as [|cmd cmds IH]; intros n c w vs Ha Hc; cbn [processAll];
    [by intros [= <- <- _]|].
  destruct (processCommand cfg age (e n) cmd c w) as [[c1 w1] v1] eqn:E.
  apply process_unauthenticated in E as [-> Ha1]; [|done].
  destruct (processAll cfg age e (S n) cmds c1 w) as [[c2 w2] v2] eqn:E2. intros [= <- <- _].
  eapply IH; [| |exact E2].
  - destruct (authenticated c1); [|done]. exfalso. apply (Hc cmd); [by left|by apply Ha1].
  - intros cmd' ?. apply Hc. by right.
Qed.

End Safety.

(** C2. The password protects everything. On a server with a password, a
    client may send any sequence of commands: as long as none of them carries
    the password as an argument, the connection is not authenticated and
    nothing it sends changes the database, the subscriptions or is published;
    and only a command that carries the password can authenticate it. *)
Theorem unauthenticated_is_powerless `{!Operations} cfg id addr now age e cmds w c' w' vs :
  RequiresAuth (password cfg) = true → (∀ cmd, cmd ∈ cmds → ¬ carries (password cfg) cmd) →
  processAll cfg age e 0 cmds (newConn cfg id addr now) w = (c', w', vs) →
  w' = w ∧ authenticated c' = false.
Proof.
  intros Hr Hc Hp. eapply processAll_unauthenticated; [|exact Hc|exact Hp]. cbn. by rewrite Hr.
Qed.

Definition sample_cfg : config := MkConfig "secret" true.
Definition sample_world : world := MkWorld NewHub sample_st [].

Lemma unauthenticated_is_powerless_witness :
  ∃ c' w' vs,
    @processAll sample_ops sample_cfg 0 (λ _, sample_env) 0
      [Arr [Bulk "auth"; Bulk "guess"]; Arr [Bulk "set"; Bulk "x"; Bulk "1"]; Arr [Bulk "subscribe"; Bulk "c"]]
      (newConn sample_cfg 1 "peer" 0) sample_world = (c', w', vs) ∧
    w' = sample_world ∧ authenticated c' = false.
Proof.
  destruct (@processAll sample_ops sample_cfg 0 (λ _, sample_env) 0
      [Arr [Bulk "auth"; Bulk "guess"]; Arr [Bulk "set"; Bulk "x"; Bulk "1"]; Arr [Bulk "subscribe"; Bulk "c"]]
      (newConn sample_cfg 1 "peer" 0) sample_world) as [[c' w'] vs] eqn:E.
  exists c', w', vs. split; [reflexivity|].
  refine (@unauthenticated_is_powerless sample_ops sample_cfg 1 "peer" 0 0 _ _ sample_world c' w' vs _ _ E);
    [reflexivity|].
  intros cmd Hin (a & Ha & Hb).
  repeat (apply elem_of_cons in Hin as [->|Hin];
          [cbn in Ha; repeat (apply elem_of_cons in Ha as [->|Ha]; [discriminate Hb|]);
           by apply not_elem_of_nil in Ha|]).
  by apply not_elem_of_nil in Hin.
Defined.

(** ** MULTI *)

Definition special : list string :=
  ["AUTH"; "HELLO"; "SUBSCRIBE"; "UNSUBSCRIBE"; "PSUBSCRIBE"; "PUNSUBSCRIBE"; "PUBLISH"; "RESET";
   "MULTI"; "EXEC"; "DISCARD"].
Definition queueable (cmd : Value) : Prop :=
  ∃ name args, parts cmd = Some (name, args) ∧ name ∉ special.

(** An authenticated connection outside the RESP2 pub/sub mode. *)
Definition normal (c : conn) : Prop :=
  authenticated c = true ∧ inPubSubMode (client c) && negb (UseRESP3 (client c)) = false.

Definition cMULTI : Value := Arr [Bulk "MULTI"].
Definition cEXEC : Value := Arr [Bulk "EXEC"].
Definition cDISCARD : Value := Arr [Bulk "DISCARD"].
Definition QUEUED : Value := VStr SimpleString "QUEUED".

(** Decide the comparisons of command names. *)
Ltac names :=
  repeat match goal with
  | |- context [bool_decide (?a = ?b)] =>
      let r := eval vm_compute in (bool_decide (a = b)) in change (bool_decide (a = b)) with r
  end; cbv iota beta; cbn [negb].

Section Queue.
Context `{!Operations} (cfg : config) (age : Z).

Lemma processAll_app e n cmds1 cmds2 c w :
  processAll cfg age e n (cmds1 ++ cmds2) c w =
    let '(c1, w1, vs1) := processAll cfg age e n cmds1 c w in
    let '(c2, w2, vs2) := processAll cfg age e (n + length cmds1) cmds2 c1 w1 in
    (c2, w2, vs1 ++ vs2).
Proof.
  revert n c w. induction cmds1 as [|cmd cmds1 IH]; intros n c w; cbn [processAll app length].
  { rewrite Nat.add_0_r. by destruct (processAll cfg age e n cmds2 c w) as [[? ?] ?]. }
  destruct (processCommand cfg age (e n) cmd c w) as [[c1 w1] v1]. rewrite IH.
  destruct (processAll cfg age e (S n) cmds1 c1 w1) as [[c2 w2] v2]. rewrite <-Nat.add_succ_comm.
  by destruct (processAll cfg age e (S n + length cmds1) cmds2 c2 w2) as [[? ?] ?].
Qed.

(** Which branch a name that is not special takes. *)
Lemma not_special name s : name ∉ special → s ∈ special → name ≠ s.
Proof. by intros ? ? ->. Qed.

Lemma queue_one e cmd c w :
  normal c → inTransaction (client c) = true → queueable cmd →
  processCommand cfg age e cmd c w = (MkConn (QueueCommand cmd (client c)) true, w, [QUEUED]).
Proof.
  intros [Ha Hm] Ht (name & args & Hp & Hn). unfold processCommand. rewrite Hp, Ha, Hm, Ht.
  cbn [negb]. rewrite !(bool_decide_false (name = _)) by (eapply not_special; [exact Hn|]; set_solver). done.
Qed.

Lemma queue_all e n cmds c w :
  normal c → inTransaction (client c) = true → Forall queueable cmds →
  processAll cfg age e n cmds c w =
    (MkConn (with_tx true (queuedCommands (client c) ++ cmds) (client c)) true, w,
     replicate (length cmds) [QUEUED]).
Proof.
  intros Hc Ht Hq. revert n c Hc Ht. induction Hq as [|cmd cmds Hcmd Hq IH]; intros n c Hc Ht; cbn [processAll].
  - rewrite app_nil_r. destruct c as [cl a]. destruct Hc as [Ha _]. cbn in *. subst a.
    destruct cl. cbn in *. by subst.
  - rewrite (queue_one (e n) cmd c w Hc Ht Hcmd). rewrite IH.
    + cbn [length replicate]. do 3 f_equal. unfold QueueCommand. cbn [client queuedCommands with_tx].
      by rewrite <-app_assoc.
    + destruct Hc as [_ Hm]. split; [done|exact Hm].
    + exact Ht.
Qed.

Lemma multi_one e c w :
  normal c → inTransaction (client c) = false →
  processCommand cfg age e cMULTI c w = (MkConn (with_tx true [] (client c)) true, w, [OK]).
Proof.
  intros [Ha Hm] Ht. unfold processCommand. change (parts cMULTI) with (Some ("MULTI", @nil Value)).
  cbv iota beta. rewrite Ha, Hm. cbn. unfold HandleMulti, StartTransaction. by rewrite Ht.
Qed.

End Queue.

(** C17. MULTI ... EXEC and MULTI ... DISCARD over a connection: the commands
    in between that the connection loop queues (all but AUTH, HELLO, RESET,
    PUBLISH, the subscription commands, and MULTI, EXEC and DISCARD
    themselves) are answered QUEUED and change nothing;
    EXEC hands exactly these commands, in order, to one transaction, and
    DISCARD drops them and leaves the connection and everything shared as
    they were. *)
Theorem multi_exec_discard `{!Operations} cfg age e cmds c w :
  normal c → inTransaction (client c) = false → Forall queueable cmds →
  (let '(cl, s, v) := HandleExec (MkCtx (protocolVersion (client c)) false)
                        (with_tx true cmds (client c)) (e (S (length cmds))) (dbst w) in
   processAll cfg age e 0 (cMULTI :: cmds ++ [cEXEC]) c w =
     (MkConn cl true, MkWorld (hub w) s (sent_notes w), [OK] :: replicate (length cmds) [QUEUED] ++ [[v]])) ∧
  processAll cfg age e 0 (cMULTI :: cmds ++ [cDISCARD]) c w =
    (MkConn (with_tx false [] (client c)) true, w, [OK] :: replicate (length cmds) [QUEUED] ++ [[OK]]).
Proof.
  intros Hc Ht Hq. set (c1 := MkConn (with_tx true [] (client c)) true).
  assert (normal c1) as Hc1 by (destruct Hc as [_ Hm]; split; [done|exact Hm]).
  assert (inPubSubMode (with_tx true cmds (client c)) && negb (UseRESP3 (with_tx true cmds (client c))) = false)
    as Hm1 by exact (proj2 Hc).
  assert (∀ last, processAll cfg age e 0 (cMULTI :: cmds ++ [last]) c w =
    let '(c2, w2, vs2) := processCommand cfg age (e (S (length cmds))) last
                            (MkConn (with_tx true cmds (client c)) true) w in
    (c2, w2, [OK] :: replicate (length cmds) [QUEUED] ++ [vs2])) as Hall.
  { intros last. cbn [processAll]. rewrite (multi_one cfg age (e 0) c w Hc Ht).
    fold c1. rewrite processAll_app, (queue_all cfg age e 1 cmds c1 w); [|done..].
    cbn [client c1 queuedCommands with_tx app processAll Nat.add].
    change (with_tx true cmds (with_tx true [] (client c))) with (with_tx true cmds (client c)).
    by destruct (processCommand cfg age (e (S (length cmds))) last _ w) as [[? ?] ?]. }
  split.
  - rewrite Hall. unfold processCommand. change (parts cEXEC) with (Some ("EXEC", @nil Value)).
    cbv iota beta zeta. cbn [client authenticated]. rewrite Hm1. names.
    change (protocolVersion (with_tx true cmds (client c))) with (protocolVersion (client c)).
    by destruct (HandleExec (MkCtx (protocolVersion (client c)) false) (with_tx true cmds (client c))
      (e (S (length cmds))) (dbst w)) as [[? ?] ?].
  - rewrite Hall. unfold processCommand. change (parts cDISCARD) with (Some ("DISCARD", @nil Value)).
    cbv iota beta zeta. cbn [client authenticated]. rewrite Hm1. names. done.
Qed.

(** PUBLISH is not queued: inside MULTI it is carried out at once, and DISCARD
    does not take it back. *)
Lemma publish_in_multi_runs_at_once `{!Operations} cfg age e cmd args c w :
  authenticated c = true → parts cmd = Some ("PUBLISH", args) →
  processCommand cfg age e cmd c w =
    let '(w', v) := publish cfg (e 0%nat) args w in (c, w', [v]).
Proof. intros Ha Hp. unfold processCommand. rewrite Hp, Ha. names. done. Qed.

Definition open_cfg : config := MkConfig "" true.
Definition open_conn : conn := newConn open_cfg 1 "peer" 0.

Lemma multi_exec_discard_witness :
  normal open_conn ∧ Forall queueable sample_queue ∧
  @processAll sample_ops open_cfg 0 (λ _, sample_env) 0 (cMULTI :: sample_queue ++ [cDISCARD]) open_conn sample_world =
    (MkConn (with_tx false [] (client open_conn)) true, sample_world,
     [OK] :: replicate (length sample_queue) [QUEUED] ++ [[OK]]).
Proof.
  assert (normal open_conn) as Hn by (split; reflexivity).
  assert (Forall queueable sample_queue) as Hq.
  { repeat constructor; (eexists _, _; split; [reflexivity|]);
      apply (bool_decide_unpack _); vm_compute; exact I. }
  split; [exact Hn|]. split; [exact Hq|].
  pose proof (@multi_exec_discard sample_ops open_cfg 0 (λ _, sample_env) sample_queue open_conn sample_world)
    as H.
  specialize (H Hn). specialize (H eq_refl). specialize (H Hq). destruct H as [_ H]. exact H.
Defined.

(** ** RESET *)

Lemma spec_remove_none id R : names_of id (spec_remove id R) = ∅.
Proof.
  apply set_eq. intros x. rewrite elem_of_names_of. unfold spec_remove. rewrite elem_of_filter. set_solver.
Qed.

(** RESET of a RESP3 connection that is subscribed leaves it stuck: all
    its subscriptions are gone and it speaks RESP2 again, but it is still in
    pub/sub mode, so every ordinary command is refused from then on and
    nothing is executed. *)
Theorem reset_leaves_pubsub_mode `{!Operations} cfg age e args c w Sb P :
  RequiresAuth (password cfg) = false → pubsub cfg = true →
  authenticated c = true → inPubSubMode (client c) = true → UseRESP3 (client c) = true →
  hub_rel (hub w) Sb P →
  ∃ c' w', processCommand cfg age e (Arr (Bulk "RESET" :: args)) c w = (c', w', [VStr SimpleString "RESET"]) ∧
    GetSubscriptionCount (ID (client c')) (hub w') = (0, 0) ∧ protocolVersion (client c') = 2%Z ∧
    ∀ e' cmd name args', parts cmd = Some (name, args') → (name ∉ special) → name ≠ "PING" → name ≠ "QUIT" →
      processCommand cfg age e' cmd c' w' = (c', w', [pubsubOnly]).
Proof.
  intros Hr Hp Ha Hm H3 HR.
  set (cl := if inTransaction (client c) then (DiscardTransaction (client c)).1 else client c).
  assert (inPubSubMode cl = true ∧ ID cl = ID (client c)) as [Hcl Hid].
  { unfold cl, DiscardTransaction. destruct (inTransaction (client c)); [|done]. by split. }
  set (c' := MkConn (SetName "" (SetProtocolVersion 2 cl)) true).
  set (w' := MkWorld (RemoveSubscriber (ID cl) (hub w)) (dbst w) (sent_notes w)).
  exists c', w'. split; [|split; [|split; [done|]]].
  - unfold processCommand. change (parts (Arr (Bulk "RESET" :: args))) with (Some ("RESET", args)).
    cbv iota beta zeta. rewrite Ha, H3, andb_false_r. names. unfold reset. rewrite Hr, Hp, Ha. done.
  - pose proof (hub_step (OpRemove (ID cl)) (hub w) Sb P HR) as [_ HR']. cbn [exec_hub spec_hub fst snd] in HR'.
    change (ID (client c')) with (ID cl). unfold w'. cbn [hub].
    by rewrite (hub_rel_counts _ _ _ (ID cl) HR'), !spec_remove_none.
  - intros e' cmd name args' Hn Hs Hping Hquit. unfold processCommand. rewrite Hn. cbv iota beta zeta.
    change (authenticated c') with true. change (inPubSubMode (client c')) with (inPubSubMode cl).
    change (UseRESP3 (client c')) with false. rewrite Hcl. cbn [negb andb].
    rewrite (bool_decide_false (name = "PING")), (bool_decide_false (name = "QUIT")) by done.
    rewrite !(bool_decide_false (name = _)) by (eapply not_special; [exact Hs|]; set_solver). done.
Qed.

(** A RESP3 connection that subscribed to one channel. *)
Definition subscribed_conn : conn :=
  MkConn (EnterPubSubMode (SetProtocolVersion 3 (NewClientState 1 "peer" 0))) true.
Definition subscribed_world : world := MkWorld (Subscribe 1 ["news"] NewHub).1 sample_st [].

Lemma reset_leaves_pubsub_mode_witness :
  ∃ c' w', @processCommand sample_ops open_cfg 0 sample_env (Arr [Bulk "RESET"]) subscribed_conn subscribed_world
           = (c', w', [VStr SimpleString "RESET"]) ∧
    GetSubscriptionCount (ID (client c')) (hub w') = (0, 0) ∧
    @processCommand sample_ops open_cfg 0 sample_env (Arr [Bulk "get"; Bulk "x"]) c' w' = (c', w', [pubsubOnly]).
Proof.
  assert (hub_rel NewHub ∅ ∅) as H0 by (split; split_and!; done).
  pose proof (hub_step (OpSubscribe 1 ["news"]) NewHub ∅ ∅ H0) as [_ HR].
  destruct (@reset_leaves_pubsub_mode sample_ops open_cfg 0 sample_env [] subscribed_conn subscribed_world _ _
              eq_refl eq_refl eq_refl eq_refl eq_refl HR) as (c' & w' & E & Hc & _ & Hcmd).
  exists c', w'. split; [exact E|]. split; [exact Hc|].
  refine (Hcmd sample_env (Arr [Bulk "get"; Bulk "x"]) "GET" [Bulk "x"] eq_refl _ _ _);
    [apply (bool_decide_unpack _); vm_compute; exact I|discriminate|discriminate].
Defined.

End Server.
