(* ===== verification/Trace.v ===== *)
(** * Trace logs: internal/server/server.go and internal/storage/tracing.go

    With TRACE set the server logs commands and replies, with credentials
    replaced; with SQLTRACE set the store logs its SQL statements. The log
    lines are modelled to the byte, so that what they give away can be stated:
    on every session that authenticates in the documented forms the log is the
    same whatever the password is. *)
From stdpp Require Import gmap strings list sorting.
From Stdlib Require Import ZArith Lia Ascii.
From S2P Require Import Prelude GoStd Resp Db StoreMeta Client PubSub Handler Server.
Import Resp Db Meta Client PubSub Handler Server.

Module Trace.

(** ** Printing values *)

(** [unicode.IsControl] on the runes of a valid string, except newline,
    carriage return and tab, and [utf8.RuneError], the rune U+FFFD. The bytes
    C2 and EF only start a rune. *)
Fixpoint has_odd_rune (l : bytes) : bool :=
  match l with
  | [] => false
  | c :: rest =>
      let n := b2z c in
      (((n <? 32) || (n =? 127)) && negb ((n =? 10) || (n =? 13) || (n =? 9)))%Z
      || match rest with
         | c1 :: rest1 =>
             ((n =? 194) && (128 <=? b2z c1) && (b2z c1 <=? 159))%Z
             || match rest1 with
                | c2 :: _ => ((n =? 239) && (b2z c1 =? 191) && (b2z c2 =? 189))%Z
                | [] => false
                end
         | [] => false
         end
      || has_odd_rune rest
  end.
Definition isBinaryString (s : string) : bool :=
  negb (Utf8.ValidString s) || has_odd_rune (bytes_of s).

(** [fmt.Sprintf] with the verb [%.1f] of [n / d], [d] a power of two: the
    quotient is exact and rounded to the nearest tenth, ties to even. *)
Definition tenths (n d : Z) : Z :=
  let q := (10 * n / d)%Z in
  let r := ((10 * n) mod d)%Z in
  if ((d <? 2 * r) || ((2 * r =? d) && Z.odd q))%Z then (q + 1)%Z else q.
Definition fixed1 (n d : Z) : string :=
  let t := tenths n d in Strconv.Itoa (t / 10) +:+ "." +:+ Strconv.Itoa (t mod 10).
Definition formatTraceSize (size : Z) : string :=
  if (size <? 1024)%Z then Strconv.Itoa size +:+ "B"
  else if (size <? 1024 * 1024)%Z then fixed1 size 1024 +:+ "KB"
  else fixed1 size (1024 * 1024) +:+ "MB".

Definition quote : string := String "034" "".
Definition formatTraceString (s : string) : string :=
  if isBinaryString s then "<binary:" +:+ formatTraceSize (slen s) +:+ ">"
  else if (100 <? slen s)%Z
  then quote +:+ string_of (take 100 (bytes_of s)) +:+ "..." +:+ quote +:+ " (" +:+ formatTraceSize (slen s) +:+ ")"
  else quote +:+ s +:+ quote.

Fixpoint formatRESPValue (v : Value) : string :=
  let 'MkValue ty str num bulk arr _ _ := v in
  if bool_decide (ty = Array) then "[" +:+ Strings.Join (formatRESPValue <$> arr) ", " +:+ "]"
  else if bool_decide (ty = BulkString) then formatTraceString bulk
  else if bool_decide (ty = SimpleString) then "+" +:+ str
  else if bool_decide (ty = Error) then "-" +:+ str
  else if bool_decide (ty = Integer) then ":" +:+ Strconv.FormatInt num
  else if bool_decide (ty = Null) then "(nil)"
  else formatTraceString bulk.

Example format_sizes :
  formatTraceSize 1023 = "1023B" ∧ formatTraceSize 1536 = "1.5KB" ∧ formatTraceSize 1075 = "1.0KB" ∧
  formatTraceSize 1076 = "1.1KB" ∧ formatTraceSize (5 * 1024 * 1024) = "5.0MB".
Proof. vm_compute. done. Qed.
Example format_reply : formatRESPValue (Arr [OK; Int (-3); Bulk "a"; Bulk (string_of ["000"%char])]) =
  "[+OK, :-3, " +:+ quote +:+ "a" +:+ quote +:+ ", <binary:1B>]".
Proof. vm_compute. done. Qed.

(** ** The RESP trace *)

Definition redacted : Value := Bulk "<redacted>".

(** The two values after the first argument that reads AUTH are replaced. *)
Fixpoint redactHello (args : list Value) : list Value :=
  match args with
  | [] => []
  | a :: rest =>
      if bool_decide (Strings.ToUpper (vBulk a) = "AUTH") then
        a :: ((λ _, redacted) <$> take 2 rest) ++ drop 2 rest
      else a :: redactHello rest
  end.

Definition redactSensitiveArgs (cmd : Value) : Value :=
  match parts cmd with
  | None => cmd
  | Some (cmdName, args) =>
      if bool_decide (cmdName = "AUTH") then
        match args with
        | [] => cmd
        | _ => VArr Array (take 1 (vArray cmd) ++ ((λ _, redacted) <$> args))
        end
      else if bool_decide (cmdName = "HELLO") then
        VArr Array (take 1 (vArray cmd) ++ redactHello args)
      else cmd
  end.

Definition getCommandLevel (cmdName : string) : Z :=
  if bool_decide (cmdName ∈ ["AUTH"; "FLUSHDB"; "FLUSHALL"; "SHUTDOWN"; "DEBUG"; "CONFIG"; "CLUSTER";
      "BGREWRITEAOF"; "BGSAVE"; "SAVE"; "SLAVEOF"; "REPLICAOF"; "FAILOVER";
      "ACL"; "SLOWLOG"; "MIGRATE"; "RESTORE"; "DUMP"]) then 1%Z
  else if bool_decide (cmdName ∈ ["GET"; "SET"; "MGET"; "MSET"; "SETEX"; "SETNX"; "GETSET";
      "HGET"; "HSET"; "HMGET"; "HMSET"; "HGETALL"; "HDEL"; "HEXISTS"; "HLEN"; "HKEYS"; "HVALS";
      "LPUSH"; "RPUSH"; "LPOP"; "RPOP"; "LRANGE"; "LLEN"; "LINDEX"; "LSET";
      "SADD"; "SREM"; "SMEMBERS"; "SISMEMBER"; "SCARD"; "SPOP"; "SRANDMEMBER";
      "ZADD"; "ZREM"; "ZRANGE"; "ZRANGEBYSCORE"; "ZRANK"; "ZSCORE"; "ZCARD"; "ZINCRBY";
      "INCR"; "DECR"; "INCRBY"; "DECRBY"; "INCRBYFLOAT";
      "EXPIRE"; "TTL"; "PTTL"; "EXPIREAT"; "PEXPIRE"; "PEXPIREAT"; "PERSIST";
      "EXISTS"; "DEL"; "TYPE"; "KEYS"; "SCAN"; "HSCAN"; "SSCAN"; "ZSCAN";
      "PING"; "ECHO"; "TIME"; "DBSIZE"; "PFADD"; "PFCOUNT"; "PFMERGE"]) then 3%Z
  else 2%Z.

(** The name by which the level of a line is found. *)
Definition traceName (cmd : Value) : string := match parts cmd with Some (n, _) => n | None => "" end.

(** The lines that [traceCommand] and [traceResponse] log. *)
Definition traceCommand (traceLevel : Z) (addr : string) (cmd : Value) : list string :=
  if (traceLevel <=? 0)%Z then []
  else if (getCommandLevel (traceName cmd) <=? traceLevel)%Z
  then ["[TRACE] " +:+ addr +:+ " <- " +:+ formatRESPValue (redactSensitiveArgs cmd)]
  else [].
Definition traceResponse (traceLevel : Z) (addr : string) (cmd response : Value) : list string :=
  if (traceLevel <=? 0)%Z then []
  else if bool_decide (vType response = Error) || (getCommandLevel (traceName cmd) <=? traceLevel)%Z
  then ["[TRACE] " +:+ addr +:+ " -> " +:+ formatRESPValue response]
  else [].

(** A password that traces to the log: the name given with SETNAME spells
    AUTH, so the two values after it are redacted and the real ones are not. *)
Lemma redact_leaks_password :
  let cmd := Arr [Bulk "HELLO"; Bulk "3"; Bulk "SETNAME"; Bulk "auth"; Bulk "AUTH"; Bulk "default"; Bulk "secret"] in
  hello "secret" (drop 1 (vArray cmd)) = helloReply 3 ∧
  CheckHelloAuth "secret" cmd = (true, true) ∧
  redactSensitiveArgs cmd =
    Arr [Bulk "HELLO"; Bulk "3"; Bulk "SETNAME"; Bulk "auth"; redacted; redacted; Bulk "secret"] ∧
  traceCommand 2 "peer" cmd =
    ["[TRACE] peer <- [" +:+ quote +:+ "HELLO" +:+ quote +:+ ", " +:+ quote +:+ "3" +:+ quote +:+ ", " +:+
     quote +:+ "SETNAME" +:+ quote +:+ ", " +:+ quote +:+ "auth" +:+ quote +:+ ", " +:+ quote +:+ "<redacted>" +:+
     quote +:+ ", " +:+ quote +:+ "<redacted>" +:+ quote +:+ ", " +:+ quote +:+ "secret" +:+ quote +:+ "]"].
Proof. split_and!; vm_compute; reflexivity. Qed.

(** The lines of a whole session: each command, then its replies. *)
Fixpoint traceSession (traceLevel : Z) (addr : string) (cmds : list Value) (replies : list (list Value)) :
    list string :=
  match cmds, replies with
  | cmd :: cmds, vs :: replies =>
      traceCommand traceLevel addr cmd ++ flat_map (traceResponse traceLevel addr cmd) vs ++
      traceSession traceLevel addr cmds replies
  | _, _ => []
  end.

(** ** Passwords stay out of the trace *)

Definition is_auth (a : Value) : bool := bool_decide (Strings.ToUpper (vBulk a) = "AUTH").

Lemma parts_Arr name args : parts (Arr (name :: args)) = Some (Strings.ToUpper (vBulk name), args).
Proof. reflexivity. Qed.

(** Two commands that differ only in credentials, given where AUTH [user]
    password and HELLO protover AUTH user password take them; the credentials
    are right for the one password when they are right for the other. *)
Section TwoPasswords.
Context (p1 p2 : string).

(** SETNAME options with names that do not read AUTH. *)
Definition setname (o : Value * Value) : Prop :=
  Strings.ToUpper (vBulk o.1) = "SETNAME" ∧ is_auth o.2 = false.
Definition options (names : list (Value * Value)) : list Value := flat_map (λ o, [o.1; o.2]) names.

Definition same_check (a b : Value) : Prop := CheckAuth p1 (vBulk a) = CheckAuth p2 (vBulk b).
Inductive same_but_password : Value → Value → Prop :=
| same_other cmd :
    traceName cmd ∉ ["AUTH"; "HELLO"] → same_but_password cmd cmd
| same_auth name args1 args2 :
    is_auth name → Forall2 same_check args1 args2 →
    same_but_password (Arr (name :: args1)) (Arr (name :: args2))
| same_hello name args :
    Strings.ToUpper (vBulk name) = "HELLO" → Forall (λ a, is_auth a = false) args →
    same_but_password (Arr (name :: args)) (Arr (name :: args))
| same_hello_auth name ver names auth user1 user2 pw1 pw2 more :
    Strings.ToUpper (vBulk name) = "HELLO" → is_Some (Strconv.Atoi (vBulk ver)) → is_auth ver = false →
    Forall setname names → is_auth auth → same_check pw1 pw2 → Forall (λ a, is_auth a = false) more →
    same_but_password (Arr (name :: ver :: options names ++ auth :: user1 :: pw1 :: more))
                      (Arr (name :: ver :: options names ++ auth :: user2 :: pw2 :: more)).

Hypothesis required : RequiresAuth p1 = RequiresAuth p2.

Lemma auth_same args1 args2 : Forall2 same_check args1 args2 → auth p1 args1 = auth p2 args2.
Proof.
  unfold auth. rewrite required. intros H.
  destruct H as [|a1 a2 l1 l2 Ha H]; [done|]. destruct H as [|b1 b2 l1 l2 Hb H]; [by rewrite Ha|].
  destruct H; [by rewrite Hb|done].
Qed.

Lemma hello_loop_same fuel args :
  Forall (λ a, is_auth a = false) args → hello_loop fuel p1 args = hello_loop fuel p2 args.
Proof.
  revert args. induction fuel as [|fuel IH]; intros args H; [by destruct args|].
  destruct H as [|a args Ha H]; [done|]. cbn [hello_loop]. unfold is_auth in Ha. rewrite Ha. clear Ha.
  case_bool_decide; [|done]. destruct H; [done|by apply IH].
Qed.

Lemma hello_loop_auth fuel p a user pw rest :
  Strings.ToUpper (vBulk a) = "AUTH" →
  hello_loop (S fuel) p (a :: user :: pw :: rest) =
    if RequiresAuth p && negb (CheckAuth p (vBulk pw)) then Some wrongPass else hello_loop fuel p rest.
Proof. intros Ha. cbn [hello_loop]. by rewrite bool_decide_true. Qed.

(** The loops pass over the SETNAME options. *)
Lemma loops_setname p names rest fuel :
  Forall setname names →
  hello_loop (length names + fuel) p (options names ++ rest) = hello_loop fuel p rest ∧
  helloAuth_loop (length names + fuel) p (options names ++ rest) = helloAuth_loop fuel p rest ∧
  redactHello (options names ++ rest) = options names ++ redactHello rest.
Proof.
  induction 1 as [|[o n] names [Ho Hn] _ (IH1 & IH2 & IH3)]; [done|].
  unfold is_auth in Hn. cbn [fst snd] in *.
  change (options ((o, n) :: names)) with ([o; n] ++ options names). rewrite <-app_assoc. cbn [app length Nat.add].
  cbn [hello_loop helloAuth_loop redactHello]. rewrite Hn, Ho.
  rewrite (bool_decide_false ("SETNAME" = "AUTH")), (bool_decide_true ("SETNAME" = "SETNAME")) by done.
  split_and!; [done..|]. by rewrite IH3.
Qed.
Lemma length_options names : length (options names) = length names + length names.
Proof. unfold options. induction names as [|o names IH]; cbn; lia. Qed.

Lemma helloAuth_loop_same fuel args :
  Forall (λ a, is_auth a = false) args → helloAuth_loop fuel p1 args = helloAuth_loop fuel p2 args.
Proof.
  revert args. induction fuel as [|fuel IH]; intros args H; [by destruct args|].
  destruct H as [|a args Ha H]; [done|]. cbn [helloAuth_loop]. unfold is_auth in Ha. rewrite Ha. clear Ha.
  case_bool_decide; [|done]. destruct H; [done|by apply IH].
Qed.

(** HELLO answers the same, and authenticates in the same cases. *)
Lemma hello_same name args1 args2 :
  Strings.ToUpper (vBulk name) = "HELLO" →
  same_but_password (Arr (name :: args1)) (Arr (name :: args2)) →
  hello p1 args1 = hello p2 args2 ∧
  CheckHelloAuth p1 (Arr (name :: args1)) = CheckHelloAuth p2 (Arr (name :: args2)) ∧
  GetHelloProtocolVersion (Arr (name :: args1)) = GetHelloProtocolVersion (Arr (name :: args2)) ∧
  redactSensitiveArgs (Arr (name :: args1)) = redactSensitiveArgs (Arr (name :: args2)).
Proof.
  intros Hn H. inversion H as [cmd Ho|n a1 a2 Ha|n args Hn' Hargs|n ver names auth u1 u2 q1 q2 more Hn' [v Hv] Hver Hs Ha Hc Hm];
    subst.
  - exfalso. apply Ho. unfold traceName. rewrite parts_Arr, Hn. right. by left.
  - unfold is_auth in Ha. by rewrite Hn in Ha.
  - split_and!; [| |done|done].
    + destruct Hargs as [|a args Ha Hargs]; [done|]. cbn [hello].
      destruct (Strconv.Atoi (vBulk a)); by rewrite (hello_loop_same _ _ Hargs).
    + unfold CheckHelloAuth. destruct (short 2 _); [done|]. cbn [Arr VArr vArray drop]. rewrite !drop_0.
      destruct Hargs as [|a args Ha Hargs]; [done|].
      destruct (Strconv.Atoi (vBulk a)); apply helloAuth_loop_same; [done|by constructor].
  - unfold is_auth in Ha. apply bool_decide_unpack in Ha. split_and!.
    + cbn [hello]. rewrite Hv, !length_app, length_options, <-!Nat.add_assoc.
      rewrite !(proj1 (loops_setname _ names _ _ Hs)). cbn [length].
      rewrite !(Nat.add_succ_r (length names)), !hello_loop_auth by done.
      unfold same_check in Hc. rewrite required, Hc. by rewrite (hello_loop_same _ more).
    + unfold CheckHelloAuth, short. cbn [Arr VArr vArray vType drop length Nat.ltb Nat.leb]. rewrite Hv.
      rewrite !length_app, length_options, <-!Nat.add_assoc.
      rewrite !(proj1 (proj2 (loops_setname _ names _ _ Hs))). cbn [length].
      rewrite !(Nat.add_succ_r (length names)). cbn [helloAuth_loop].
      rewrite !(bool_decide_true (Strings.ToUpper (vBulk auth) = _)) by done. unfold same_check in Hc. by rewrite Hc.
    + done.
    + unfold redactSensitiveArgs. rewrite !parts_Arr, Hn. cbn [redactHello]. unfold is_auth in Hver. rewrite Hver.
      rewrite !(proj2 (proj2 (loops_setname p1 names _ 0 Hs))). cbn [redactHello take app].
      rewrite (bool_decide_true (Strings.ToUpper (vBulk auth) = _)) by done. done.
Qed.

Lemma redacted_length (l1 l2 : list Value) :
  length l1 = length l2 → ((λ _, redacted) <$> l1) = ((λ _, redacted) <$> l2).
Proof. revert l2. induction l1 as [|a l1 IH]; intros [|b l2] H; try done. cbn. f_equal. apply IH. by injection H. Qed.

Lemma trace_same level addr c1 c2 :
  same_but_password c1 c2 → traceCommand level addr c1 = traceCommand level addr c2 ∧ traceName c1 = traceName c2.
Proof.
  intros H. assert (traceName c1 = traceName c2) as Hname by (by destruct H).
  split; [|done]. unfold traceCommand. rewrite Hname. case_if; [done|]. case_if; [|done].
  assert (redactSensitiveArgs c1 = redactSensitiveArgs c2) as ->; [|done].
  pose proof H as H'. destruct H as [| name args1 args2 Hn Hargs| |].
  - done.
  - unfold is_auth in Hn. apply bool_decide_unpack in Hn. unfold redactSensitiveArgs.
    rewrite !parts_Arr, Hn. rewrite bool_decide_true by done.
    destruct Hargs as [|a1 a2 l1 l2 _ Hargs]; [done|]. apply Forall2_length in Hargs.
    cbn [Arr VArr vArray take]. by rewrite (redacted_length (a1 :: l1) (a2 :: l2)) by (cbn; lia).
  - done.
  - by apply hello_same in H' as (_ & _ & _ & ?).
Qed.

Context {OPS : Operations} (pubsub_on : bool).
Let cfg1 := Server.MkConfig p1 pubsub_on.
Let cfg2 := Server.MkConfig p2 pubsub_on.

(** Only AUTH and HELLO look at the password. *)
Lemma handle_other cmd proto e w :
  traceName cmd ∉ ["AUTH"; "HELLO"] → handle cfg1 cmd proto e w = handle cfg2 cmd proto e w.
Proof.
  unfold handle, Handle, traceName. destruct (parts cmd) as [[name args]|]; [|done]. intros Hn.
  unfold executeCommand. rewrite !(bool_decide_false (name = "AUTH")), !(bool_decide_false (name = "HELLO"))
    by (intros ->; apply Hn; set_solver). done.
Qed.

Lemma handle_AUTH cfg name args proto e w :
  Strings.ToUpper (vBulk name) = "AUTH" → handle cfg (Arr (name :: args)) proto e w = (w, auth (password cfg) args).
Proof. intros Hn. unfold handle, Handle. rewrite parts_Arr, Hn. by destruct w. Qed.
Lemma handle_HELLO cfg name args proto e w :
  Strings.ToUpper (vBulk name) = "HELLO" → handle cfg (Arr (name :: args)) proto e w = (w, hello (password cfg) args).
Proof. intros Hn. unfold handle, Handle. rewrite parts_Arr, Hn. by destruct w. Qed.

Lemma process_hello age e name args1 args2 c w :
  Strings.ToUpper (vBulk name) = "HELLO" →
  same_but_password (Arr (name :: args1)) (Arr (name :: args2)) →
  processCommand cfg1 age e (Arr (name :: args1)) c w = processCommand cfg2 age e (Arr (name :: args2)) c w.
Proof.
  intros Hn H. destruct (hello_same name args1 args2 Hn H) as (Hh & Hc & Hv & _).
  unfold processCommand. rewrite !parts_Arr, Hn.
  rewrite !(bool_decide_false ("HELLO" = "AUTH")), !(bool_decide_true ("HELLO" = "HELLO")) by done.
  rewrite !handle_HELLO by done. unfold cfg1, cfg2. cbn [password]. by rewrite Hh, Hc, Hv.
Qed.

Lemma process_same age e c1 c2 c w :
  same_but_password c1 c2 → processCommand cfg1 age e c1 c w = processCommand cfg2 age e c2 c w.
Proof.
  intros H. pose proof H as H'. destruct H as [cmd Ho|name args1 args2 Hn Hargs|name args Hn _|
    name ver names auth u1 u2 q1 q2 more Hn _ _ _ _ _ _].
  - assert (∀ c w, reset cfg1 c w = reset cfg2 c w) as Hreset
      by (intros; unfold reset, cfg1, cfg2; cbn [password pubsub]; by rewrite required).
    unfold processCommand. unfold traceName in Ho. destruct (parts cmd) as [[name args]|] eqn:Hp.
    + rewrite !(bool_decide_false (name = "AUTH")), !(bool_decide_false (name = "HELLO"))
        by (intros ->; apply Ho; set_solver).
      rewrite !(λ pr e0 w0, handle_other cmd pr e0 w0), Hreset by (unfold traceName; by rewrite Hp). done.
    + rewrite handle_other; [done|]. unfold traceName. by rewrite Hp.
  - unfold is_auth in Hn. apply bool_decide_unpack in Hn. unfold processCommand. rewrite !parts_Arr, Hn.
    rewrite !(bool_decide_true ("AUTH" = "AUTH")) by done. rewrite !handle_AUTH by done.
    change (auth (password cfg1) args1) with (auth p1 args1). by rewrite (auth_same args1 args2).
  - by apply process_hello.
  - by apply process_hello.
Qed.

Lemma processAll_same age e n cmds1 cmds2 c w :
  Forall2 same_but_password cmds1 cmds2 →
  processAll cfg1 age e n cmds1 c w = processAll cfg2 age e n cmds2 c w.
Proof.
  intros H. revert n c w. induction H as [|c1 c2 l1 l2 Hc _ IH]; intros n c w; [done|]. cbn [processAll].
  rewrite (process_same _ _ _ _ _ _ Hc). destruct (processCommand cfg2 age (e n) c2 c w) as [[c' w'] vs].
  by rewrite IH.
Qed.

Lemma traceSession_same level addr cmds1 cmds2 replies :
  Forall2 same_but_password cmds1 cmds2 →
  traceSession level addr cmds1 replies = traceSession level addr cmds2 replies.
Proof.
  intros H. revert replies. induction H as [|c1 c2 l1 l2 Hc _ IH]; intros replies; [done|].
  destruct replies as [|vs replies]; [done|]. cbn [traceSession].
  destruct (trace_same level addr c1 c2 Hc) as [-> Hname]. rewrite IH. do 2 f_equal.
  unfold traceResponse. by rewrite Hname.
Qed.

End TwoPasswords.

(** C28. The trace log does not tell the password. Take two servers that
    differ only in their password, and two sessions of the same commands in
    which every AUTH, and every HELLO protover with SETNAME options, then AUTH
    user password, gives its own server's password, or a wrong one on both,
    and no other argument of a HELLO reads AUTH (a client that is named so is
    the case of [redact_leaks_password]). Then both servers do the same and
    answer the same, and the trace logs of commands and replies are equal line
    by line, at every trace level. *)
Theorem trace_hides_password `{!Operations} p1 p2 pubsub_on level addr age e cmds1 cmds2 c w :
  RequiresAuth p1 = RequiresAuth p2 → Forall2 (same_but_password p1 p2) cmds1 cmds2 →
  let '(c1, w1, replies1) := processAll (Server.MkConfig p1 pubsub_on) age e 0 cmds1 c w in
  let '(c2, w2, replies2) := processAll (Server.MkConfig p2 pubsub_on) age e 0 cmds2 c w in
  c1 = c2 ∧ w1 = w2 ∧ replies1 = replies2 ∧
  traceSession level addr cmds1 replies1 = traceSession level addr cmds2 replies2.
Proof.
  intros Hr Hs. rewrite (processAll_same p1 p2 Hr pubsub_on age e 0 cmds1 cmds2 c w Hs).
  destruct (processAll _ age e 0 cmds2 c w) as [[c2 w2] vs]. split_and!; [done..|].
  by apply (traceSession_same p1 p2 Hr).
Qed.

Definition sample_session (pw : string) : list Value :=
  [Arr [Bulk "HELLO"; Bulk "3"; Bulk "SetName"; Bulk "it"; Bulk "AUTH"; Bulk "default"; Bulk pw; Bulk "SETNAME"; Bulk "me"];
   Arr [Bulk "auth"; Bulk pw]; Arr [Bulk "set"; Bulk "k"; Bulk "v"]].

Lemma trace_hides_password_witness :
  let run := λ pw, (@processAll sample_ops (Server.MkConfig pw true) 0 (λ _ _, quiet 0 0) 0 (sample_session pw)
                      (newConn (Server.MkConfig pw true) 1 "peer" 0) (MkWorld NewHub sample_st [])).2 in
  run "secret" = run "letmein" ∧
  traceSession 3 "peer" (sample_session "secret") (run "secret") =
    traceSession 3 "peer" (sample_session "letmein") (run "letmein").
Proof.
  intros run.
  assert (Forall2 (same_but_password "secret" "letmein") (sample_session "secret") (sample_session "letmein")) as Hs.
  { constructor; [|constructor; [|constructor; [|constructor]]].
    - refine (same_hello_auth _ _ (Bulk "HELLO") (Bulk "3") [(Bulk "SetName", Bulk "it")] (Bulk "AUTH")
        (Bulk "default") (Bulk "default") _ _ [Bulk "SETNAME"; Bulk "me"] _ _ _ _ _ _ _);
        [done|by eexists|done|by repeat constructor|done|done|]. repeat constructor.
    - apply same_auth; [done|]. by repeat constructor.
    - apply same_other. apply (bool_decide_unpack _). vm_compute. exact I. }
  pose proof (@trace_hides_password sample_ops "secret" "letmein" true 3 "peer" 0 (λ _ _, quiet 0 0)
    (sample_session "secret") (sample_session "letmein") (newConn (Server.MkConfig "secret" true) 1 "peer" 0)
    (MkWorld NewHub sample_st []) eq_refl Hs) as H.
  unfold run. change (newConn (Server.MkConfig "letmein" true) 1 "peer" 0)
    with (newConn (Server.MkConfig "secret" true) 1 "peer" 0).
  destruct (processAll _ 0 _ 0 (sample_session "secret") _ _) as [[c1 w1] r1].
  destruct (processAll _ 0 _ 0 (sample_session "letmein") _ _) as [[c2 w2] r2].
  destruct H as (_ & _ & -> & Ht). split; [reflexivity|exact Ht].
Defined.

End Trace.

(** ** The SQL trace *)
Module SqlTrace.
Import Trace.

(** The arguments of a statement; numbers that are not integers, times and
    other values as [fmt] prints them. *)
Inductive arg :=
| AString (s : string)
| ABytes (b : bytes)
| AInt (n : Z)
| AFloat (text : string)
| ABool (b : bool)
| ATime (rfc3339 : string)
| ANil
| AOther (text : string).

(** The same code as [isBinaryString] and [formatTraceSize] of server.go. *)
Definition isBinary (s : string) : bool := isBinaryString s.
Definition isBinaryBytes (b : bytes) : bool := isBinary (string_of b).
Definition formatSize (size : Z) : string := formatTraceSize size.

Definition formatText (binary : bool) (s : string) : string :=
  if binary then "<binary:" +:+ formatSize (slen s) +:+ ">"
  else if (100 <? slen s)%Z
  then quote +:+ string_of (take 100 (bytes_of s)) +:+ "..." +:+ quote +:+ " (" +:+ formatSize (slen s) +:+ ")"
  else quote +:+ s +:+ quote.
Definition formatArg (a : arg) : string :=
  match a with
  | AString s => formatText (isBinary s) s
  | ABytes b => formatText (isBinaryBytes b) (string_of b)
  | AInt n => Strconv.FormatInt n
  | AFloat text => text
  | ABool b => if b then "true" else "false"
  | ATime rfc3339 => rfc3339
  | ANil => "NULL"
  | AOther text => text
  end.
Definition formatArgs (args : list arg) : string :=
  match args with
  | [] => ""
  | _ => " [" +:+ Strings.Join (imap (λ i a, "$" +:+ Strconv.Itoa (Z.of_nat i + 1) +:+ "=" +:+ formatArg a) args) ", "
         +:+ "]"
  end.

Definition getSQLLevel (sql : string) : Z :=
  let upper := Strings.ToUpper (Strings.TrimSpace sql) in
  if Strings.HasPrefix upper "TRUNCATE" || Strings.HasPrefix upper "DROP" || Strings.HasPrefix upper "ALTER"
     || Strings.Contains upper "pg_notify" then 1%Z
  else if Strings.HasPrefix upper "INSERT" || Strings.HasPrefix upper "UPDATE" || Strings.HasPrefix upper "DELETE"
          || Strings.HasPrefix upper "CREATE" || Strings.HasPrefix upper "UPSERT"
          || Strings.Contains upper "ON CONFLICT" then 2%Z
  else 3%Z.
Definition shouldLog (level : Z) (sql : string) (isError : bool) : bool :=
  if (level <=? 0)%Z then false else if isError then true else (getSQLLevel sql <=? level)%Z.

(** The interface [Querier] over a state [T]; rows are of some type [R]. *)
Record Querier (T R : Type) := MkQuerier {
  Exec : string → list arg → T → T * result string;
  Query : string → list arg → T → T * result R;
  QueryRow : string → list arg → T → T * R;
  SendBatch : list (string * list arg) → T → T * R
}.
Arguments MkQuerier {_ _}. Arguments Exec {_ _}. Arguments Query {_ _}.
Arguments QueryRow {_ _}. Arguments SendBatch {_ _}.

Section Tracing.
Context {T R : Type} (took : T → T → string) (level : Z).

Definition tag : string := "[SQLTRACE] ".
Definition failed {A} (r : result A) : bool := match r with Ok _ => false | Fail _ => true end.
Definition line {A} (sql : string) (args : list arg) (r : result A) (ok : A → string) (d : string) : string :=
  tag +:+ sql +:+ formatArgs args +:+ " -> " +:+
  match r with Ok a => ok a | Fail er => "ERROR: " +:+ err_text er end +:+ " (" +:+ d +:+ ")".

(** [TracingQuerier]: the state with the log appended to it. *)
Definition NewTracingQuerier (q : Querier T R) : Querier (T * list string) R := {|
  Exec := λ sql args '(s, log),
    let '(s', r) := Exec q sql args s in
    (s', if shouldLog level sql (failed r) then log ++ [line sql args r id (took s s')] else log, r);
  Query := λ sql args '(s, log),
    let '(s', r) := Query q sql args s in
    (s', if shouldLog level sql (failed r) then log ++ [line sql args r (λ _, "rows") (took s s')] else log, r);
  QueryRow := λ sql args '(s, log),
    let '(s', r) := QueryRow q sql args s in
    (s', if shouldLog level sql false
         then log ++ [tag +:+ sql +:+ formatArgs args +:+ " (" +:+ took s s' +:+ ")"] else log, r);
  SendBatch := λ batch '(s, log),
    let log := if (2 <=? level)%Z
               then log ++ [tag +:+ "SendBatch (" +:+ Strconv.Itoa (Z.of_nat (length batch)) +:+ " queries)"] else log in
    let '(s', r) := SendBatch q batch s in (s', log, r)
|}.

(** [Store.querier] and [Store.txQuerier]: the pool or the transaction, wrapped
    when tracing is on. *)
Definition untraced (q : Querier T R) : Querier (T * list string) R := {|
  Exec := λ sql args '(s, log), let '(s, r) := Exec q sql args s in (s, log, r);
  Query := λ sql args '(s, log), let '(s, r) := Query q sql args s in (s, log, r);
  QueryRow := λ sql args '(s, log), let '(s, r) := QueryRow q sql args s in (s, log, r);
  SendBatch := λ batch '(s, log), let '(s, r) := SendBatch q batch s in (s, log, r)
|}.
Definition querier (q : Querier T R) : Querier (T * list string) R :=
  if (0 <? level)%Z then NewTracingQuerier q else untraced q.

End Tracing.

(** *** Tracing changes nothing *)

(** One call of a querier and what it returns. *)
Inductive qcall :=
| CExec (sql : string) (args : list arg)
| CQuery (sql : string) (args : list arg)
| CQueryRow (sql : string) (args : list arg)
| CSendBatch (batch : list (string * list arg)).
Inductive answer (R : Type) := ATag (r : result string) | ARows (r : result R) | ARow (r : R).
Arguments ATag {_}. Arguments ARows {_}. Arguments ARow {_}.
Definition do_call {T R} (q : Querier T R) (c : qcall) (s : T) : T * answer R :=
  match c with
  | CExec sql args => let '(s, r) := Exec q sql args s in (s, ATag r)
  | CQuery sql args => let '(s, r) := Query q sql args s in (s, ARows r)
  | CQueryRow sql args => let '(s, r) := QueryRow q sql args s in (s, ARow r)
  | CSendBatch batch => let '(s, r) := SendBatch q batch s in (s, ARow r)
  end.
Fixpoint do_calls {T R} (q : Querier T R) (cs : list qcall) (s : T) : T * list (answer R) :=
  match cs with
  | [] => (s, [])
  | c :: cs => let '(s, a) := do_call q c s in let '(s, r) := do_calls q cs s in (s, a :: r)
  end.

(** The statements of the calls that failed. *)
Fixpoint failures {R} (cs : list qcall) (answers : list (answer R)) : list string :=
  match cs, answers with
  | CExec sql _ :: cs, ATag (Fail _) :: l => sql :: failures cs l
  | CQuery sql _ :: cs, ARows (Fail _) :: l => sql :: failures cs l
  | _ :: cs, _ :: l => failures cs l
  | _, _ => []
  end.

(** A statement with a pg_notify call is meant to be logged from level 1 on;
    the search is for lower-case letters in upper-case text, so no statement
    is logged for it. *)
Lemma to_upper_cons c d r :
  Strings.to_upper (c :: d :: r) =
    if ((b2z c =? 196) && (b2z d =? 177))%Z then "I"%char :: Strings.to_upper r
    else if ((b2z c =? 197) && (b2z d =? 191))%Z then "S"%char :: Strings.to_upper r
    else Strings.upper c :: Strings.to_upper (d :: r).
Proof. reflexivity. Qed.
Lemma to_upper_no_p l : ("p"%char : ascii) ∉ Strings.to_upper l.
Proof.
  assert (∀ c, Strings.upper c ≠ "p"%char) as Hup.
  { intros c. unfold Strings.upper. case_if; zify_bool.
    - intros E. apply (f_equal b2z) in E. rewrite b2z_z2b, Z.mod_small in E by lia.
      change (b2z "p") with 112%Z in E. lia.
    - intros ->. change (b2z "p") with 112%Z in Hb. done. }
  enough (∀ n l, length l < n → ("p"%char : ascii) ∉ Strings.to_upper l) by eauto.
  clear l. induction n as [|n IH]; intros l Hn; [lia|]. destruct l as [|c [|d r]].
  - apply not_elem_of_nil.
  - cbn. rewrite elem_of_cons. intros [E|[]%not_elem_of_nil]. by eapply Hup.
  - rewrite to_upper_cons. repeat case_if; rewrite elem_of_cons; intros [E|E];
      solve [discriminate E | exact (Hup c (eq_sym E)) | revert E; apply IH; cbn in *; lia].
Qed.
Lemma pg_notify_not_important sql :
  Strings.Contains (Strings.ToUpper (Strings.TrimSpace sql)) "pg_notify" = false.
Proof.
  destruct (Strings.Contains _ _) eqn:E; [|done]. exfalso. unfold Strings.Contains, Strings.ToUpper in E.
  rewrite bytes_of_string_of in E. apply Strings.contains_spec in E as (l & r & E).
  eapply to_upper_no_p. rewrite E. apply elem_of_app. right. apply elem_of_app. left. left.
Qed.
Example pg_notify_level : getSQLLevel "SELECT pg_notify($1, $2)" = 3%Z.
Proof. vm_compute. reflexivity. Qed.

Section Transparent.
Context {T R : Type} (took : T → T → string) (level : Z) (q : Querier T R).

Lemma do_call_traced c s log :
  ∃ lines, do_call (NewTracingQuerier took level q) c (s, log) =
             ((do_call q c s).1, log ++ lines, (do_call q c s).2) ∧
    ((level <= 0)%Z → lines = []) ∧
    ((1 <= level)%Z → ∀ sql, sql ∈ failures [c] [(do_call q c s).2] →
       ∃ args er d, lines = [tag +:+ sql +:+ formatArgs args +:+ " -> " +:+ ("ERROR: " +:+ err_text er) +:+
                              " (" +:+ d +:+ ")"]).
Proof.
  assert (∀ A (r : result A) sql args f d, ∃ lines,
    (if shouldLog level sql (failed r) then log ++ [line sql args r f d] else log) = log ++ lines ∧
    ((level <= 0)%Z → lines = []) ∧
    ((1 <= level)%Z → ∀ er, r = Fail er → lines = [line sql args r f d])) as Hlog.
  { intros A r sql args f d. unfold shouldLog. destruct (Z.leb_spec level 0).
    - exists []. rewrite app_nil_r. split_and!; [done..|lia].
    - destruct r; cbn [failed].
      + case_if; [eexists|exists []; rewrite app_nil_r]; (split_and!; [done|lia|done]).
      + eexists. split_and!; [done|lia|done]. }
  destruct c as [sql args|sql args|sql args|batch]; cbn [do_call NewTracingQuerier Exec Query QueryRow SendBatch].
  - destruct (Exec q sql args s) as [s' r].
    destruct (Hlog _ r sql args id (took s s')) as (lines & -> & H0 & H1). exists lines. split_and!; [done..|].
    intros Hl sql'. cbn. destruct r as [a|er]; [intros []%not_elem_of_nil|].
    intros ->%list_elem_of_singleton. exists args, er, (took s s'). by rewrite (H1 Hl er).
  - destruct (Query q sql args s) as [s' r].
    destruct (Hlog _ r sql args (λ _, "rows") (took s s')) as (lines & -> & H0 & H1). exists lines.
    split_and!; [done..|].
    intros Hl sql'. cbn. destruct r as [a|er]; [intros []%not_elem_of_nil|].
    intros ->%list_elem_of_singleton. exists args, er, (took s s'). by rewrite (H1 Hl er).
  - destruct (QueryRow q sql args s) as [s' r]. unfold shouldLog. destruct (Z.leb_spec level 0).
    + exists []. rewrite app_nil_r. split_and!; [done..|lia].
    + case_if; [eexists|exists []; rewrite app_nil_r];
        (split_and!; [done|lia|intros _ sql' []%not_elem_of_nil]).
  - destruct (SendBatch q batch s) as [s' r]. destruct (Z.leb_spec 2 level); [eexists|exists []; rewrite app_nil_r];
      (split_and!; [done|try lia; done|intros _ sql' []%not_elem_of_nil]).
Qed.

Lemma failures_cons c cs a (l : list (answer R)) : failures (c :: cs) (a :: l) = failures [c] [a] ++ failures cs l.
Proof. destruct c, a as [[]|[]|]; done. Qed.

Lemma do_calls_traced cs s log :
  ∃ lines, do_calls (NewTracingQuerier took level q) cs (s, log) =
             ((do_calls q cs s).1, log ++ lines, (do_calls q cs s).2) ∧
    ((level <= 0)%Z → lines = []) ∧
    ((1 <= level)%Z → Forall (λ sql, ∃ args er d,
       (tag +:+ sql +:+ formatArgs args +:+ " -> " +:+ ("ERROR: " +:+ err_text er) +:+ " (" +:+ d +:+ ")") ∈ lines)
       (failures cs (do_calls q cs s).2)).
Proof.
  revert s log. induction cs as [|c cs IH]; intros s log.
  { exists []. cbn. rewrite app_nil_r. split_and!; [done..|]. intros _. constructor. }
  cbn [do_calls]. destruct (do_call_traced c s log) as (l1 & -> & Z1 & F1).
  destruct (do_call q c s) as [s1 a]. cbn [fst snd] in *. destruct (IH s1 (log ++ l1)) as (l2 & -> & Z2 & F2).
  destruct (do_calls q cs s1) as [s2 r]. cbn [fst snd] in *. exists (l1 ++ l2). rewrite app_assoc.
  split_and!; [done|intros Hl; by rewrite Z1, Z2|]. intros Hl. rewrite failures_cons, Forall_app, !Forall_forall.
  split.
  - intros sql Hs. destruct (F1 Hl sql Hs) as (args & er & d & ->). exists args, er, d.
    apply elem_of_app. left. by left.
  - intros sql Hs. pose proof (F2 Hl) as F. rewrite Forall_forall in F. destruct (F sql Hs) as (args & er & d & Hin).
    exists args, er, d. apply elem_of_app. by right.
Qed.

End Transparent.

(** SQL tracing changes nothing but the log: for every sequence of calls
    the store below sees the same calls and the caller gets the same answers
    as without it. At level 0 nothing is logged, and from level 1 on the log
    has a line with the statement of every call that failed. *)
Theorem sql_tracing_transparent {T R} took level (q : Querier T R) cs s log s' log' answers :
  do_calls (NewTracingQuerier took level q) cs (s, log) = (s', log', answers) →
  do_calls q cs s = (s', answers) ∧ log `prefix_of` log' ∧
  ((level <= 0)%Z → log' = log) ∧
  ((1 <= level)%Z → Forall (λ sql, ∃ args er d,
     (tag +:+ sql +:+ formatArgs args +:+ " -> " +:+ ("ERROR: " +:+ err_text er) +:+ " (" +:+ d +:+ ")") ∈ log')
     (failures cs answers)).
Proof.
  destruct (do_calls_traced took level q cs s log) as (lines & -> & H0 & H1). intros [= <- <- <-].
  split_and!; [by destruct (do_calls q cs s)|by eexists|intros Hl; by rewrite H0, app_nil_r|].
  intros Hl. eapply Forall_impl; [exact (H1 Hl)|]. intros sql (args & er & d & Hin).
  exists args, er, d. apply elem_of_app. by right.
Qed.

(** A store on which everything fails. *)
Definition broken : Querier nat unit :=
  MkQuerier (λ _ _ n, (S n, Fail in_failed_tx)) (λ _ _ n, (S n, Fail in_failed_tx)) (λ _ _ n, (S n, tt)) (λ _ n, (S n, tt)).
Lemma sql_tracing_transparent_witness :
  ∃ log', do_calls (NewTracingQuerier (λ _ _, "1ms") 1 broken) [CQuery "SELECT 1" []; CQueryRow "SELECT 2" []] (0, []) =
            (2, log', [ARows (Fail in_failed_tx); ARow tt]) ∧ length log' = 1 ∧
          do_calls broken [CQuery "SELECT 1" []; CQueryRow "SELECT 2" []] 0 = (2, [ARows (Fail in_failed_tx); ARow tt]).
Proof.
  eexists. split; [vm_compute; reflexivity|]. split; [reflexivity|].
  eapply (proj1 (sql_tracing_transparent (λ _ _, "1ms") 1 broken [CQuery "SELECT 1" []; CQueryRow "SELECT 2" []] 0 [] 2
            _ [ARows (Fail in_failed_tx); ARow tt] _)).
  Unshelve. 2: vm_compute; reflexivity.
Defined.

End SqlTrace.
