(* ===== verification/Lifecycle.v ===== *)
(** * Life of the server: internal/server/server.go and the shutdown of main.go

    Accepting, tracking, draining and force-closing connections, as the steps
    of the goroutines involved: the accept loop, one handler per connection,
    the watcher of a blocking command, and the goroutine that shuts down. A
    step is what happens between two points where another goroutine can come
    in between; [act] performs it if it is possible. *)
From stdpp Require Import gmap strings list sorting.
From Stdlib Require Import ZArith Lia Ascii.
From S2P Require Import Prelude GoStd.

Module Lifecycle.

(** ** State *)

(** A socket: closed by this side or not, and its read deadline, [None] when
    there is none. *)
Record socket := MkSocket { closed : bool; readDeadline : option Z }.

(** Where the handler of a connection is with [watchDisconnect]: no watch, a
    watch, [stop] called and the reader woken, [drainDeadline] read and the
    lock released. *)
Inductive phase := Unwatched | Watching | Woken | Restoring (deadline : option Z).
#[export] Instance phase_eq_dec : EqDecision phase.
Proof. solve_decision. Defined.

(** [Server], and what belongs to its goroutines: the connection that [Accept]
    has returned and [acceptLoop] not yet handed over, the handlers that run
    (those in [wg]), the sockets and the phases of the handlers.
    [ActiveConnections] is the metric. *)
Record Server := MkServer {
  listener : option bool;      (** set, and still open *)
  quit : bool;                 (** the channel is closed *)
  conns : gset nat;
  drainDeadline : option Z;
  wg : nat;
  ActiveConnections : Z;
  accepted : option nat;
  handlers : gset nat;
  sockets : gmap nat socket;
  phases : gmap nat phase
}.

Definition New : Server := MkServer None false ∅ None 0 0 None ∅ ∅ ∅.

Definition set_listener (l : option bool) (s : Server) : Server :=
  MkServer l (quit s) (conns s) (drainDeadline s) (wg s) (ActiveConnections s) (accepted s) (handlers s) (sockets s) (phases s).
Definition set_conns (c : gset nat) (s : Server) : Server :=
  MkServer (listener s) (quit s) c (drainDeadline s) (wg s) (ActiveConnections s) (accepted s) (handlers s) (sockets s) (phases s).
Definition set_sockets (m : gmap nat socket) (s : Server) : Server :=
  MkServer (listener s) (quit s) (conns s) (drainDeadline s) (wg s) (ActiveConnections s) (accepted s) (handlers s) m (phases s).
Definition set_phase (c : nat) (p : phase) (s : Server) : Server :=
  MkServer (listener s) (quit s) (conns s) (drainDeadline s) (wg s) (ActiveConnections s) (accepted s) (handlers s)
    (sockets s) (<[c := p]> (phases s)).

(** [conn.SetReadDeadline] and [conn.Close]. *)
Definition SetReadDeadline (d : option Z) (k : socket) : socket := MkSocket (closed k) d.
Definition CloseConn (k : socket) : socket := MkSocket true (readDeadline k).

(** ** Operations *)

(** [setListener]: refused, and the listener closed, once [quit] is closed. *)
Definition setListener (s : Server) : Server * bool :=
  if quit s then (s, false) else (set_listener (Some true) s, true).
Definition CloseListener (s : Server) : Server :=
  match listener s with Some _ => set_listener (Some false) s | None => s end.
(** The first lines of [Stop]; closing a closed channel panics. *)
Definition close_quit (s : Server) : option Server :=
  if quit s then None
  else Some (MkServer (listener s) true (conns s) (drainDeadline s) (wg s) (ActiveConnections s) (accepted s) (handlers s)
               (sockets s) (phases s)).
(** The loop of [Stop] over the tracked connections. *)
Definition force_close (s : Server) : Server :=
  set_sockets (map_imap (λ c k, Some (if bool_decide (c ∈ conns s) then CloseConn k else k)) (sockets s)) s.
(** [DrainConnections], up to the wait. *)
Definition drain (deadline : Z) (s : Server) : Server :=
  MkServer (listener s) (quit s) (conns s) (Some deadline) (wg s) (ActiveConnections s) (accepted s) (handlers s)
    (map_imap (λ c k, Some (if bool_decide (c ∈ conns s) then SetReadDeadline (Some deadline) k else k)) (sockets s))
    (phases s).
(** [wg.Add(1)], the metric and [go s.handleConnection]. *)
Definition hand_over (c : nat) (s : Server) : Server :=
  MkServer (listener s) (quit s) (conns s) (drainDeadline s) (S (wg s)) (ActiveConnections s + 1) None
    ({[c]} ∪ handlers s) (sockets s) (<[c := Unwatched]> (phases s)).
(** The deferred calls of [handleConnection], last to first. *)
Definition finish (c : nat) (s : Server) : Server :=
  MkServer (listener s) (quit s) (conns s ∖ {[c]}) (drainDeadline s) (wg s - 1) (ActiveConnections s - 1) (accepted s)
    (handlers s ∖ {[c]}) (alter CloseConn c (sockets s)) (delete c (phases s)).

(** ** Steps *)

Inductive step :=
| Listen                          (** [Start] or [ServeWithListener] *)
| Accept (c : nat)                (** [listener.Accept] returns a new connection *)
| HandOver (c : nat)
| Register (c : nat)              (** [s.conns[conn] = struct{}{}] *)
| Watch (c : nat)                 (** [watchDisconnect] is called *)
| Wake (c : nat) (now : Z)        (** its [stop]: [SetReadDeadline(time.Now())] and the watcher ends *)
| ReadDrain (c : nat)             (** [deadline := s.drainDeadline] under the lock *)
| Restore (c : nat)               (** [SetReadDeadline(deadline)] *)
| Finish (c : nat)                (** the handler returns *)
| CloseTheListener                (** [CloseListener] *)
| Quit                            (** [Stop] up to [CloseListener] *)
| ForceClose                      (** the rest of [Stop], before it waits *)
| Drain (deadline : Z).           (** [DrainConnections], before it waits *)

Definition act (a : step) (s : Server) : option Server :=
  match a with
  | Listen => Some (setListener s).1
  | Accept c =>
      if bool_decide (listener s = Some true) && bool_decide (accepted s = None) && bool_decide (sockets s !! c = None)
      then Some (MkServer (listener s) (quit s) (conns s) (drainDeadline s) (wg s) (ActiveConnections s) (Some c)
                   (handlers s) (<[c := MkSocket false None]> (sockets s)) (phases s))
      else None
  | HandOver c => if bool_decide (accepted s = Some c) then Some (hand_over c s) else None
  | Register c =>
      if bool_decide (c ∈ handlers s) && bool_decide (c ∉ conns s) then Some (set_conns ({[c]} ∪ conns s) s) else None
  | Watch c =>
      if bool_decide (c ∈ conns s) && bool_decide (phases s !! c = Some Unwatched)
      then Some (set_phase c Watching s) else None
  | Wake c now =>
      if bool_decide (phases s !! c = Some Watching)
      then Some (set_phase c Woken (set_sockets (alter (SetReadDeadline (Some now)) c (sockets s)) s)) else None
  | ReadDrain c =>
      if bool_decide (phases s !! c = Some Woken) then Some (set_phase c (Restoring (drainDeadline s)) s) else None
  | Restore c =>
      match phases s !! c with
      | Some (Restoring d) =>
          Some (set_phase c Unwatched (set_sockets (alter (SetReadDeadline d) c (sockets s)) s))
      | _ => None
      end
  | Finish c =>
      if bool_decide (c ∈ conns s) && bool_decide (phases s !! c = Some Unwatched) then Some (finish c s) else None
  | CloseTheListener => Some (CloseListener s)
  | Quit => match close_quit s with Some s' => Some (CloseListener s') | None => None end
  | ForceClose => if quit s then Some (force_close s) else None
  | Drain d => Some (drain d s)
  end.

Inductive steps : Server → list step → Server → Prop :=
| steps_nil s : steps s [] s
| steps_cons s a s1 l s2 : act a s = Some s1 → steps s1 l s2 → steps s (a :: l) s2.

(** The condition of a step, and the state after it. *)
Ltac inv_act H :=
  unfold act in H; repeat case_match; zify_bool; try discriminate H; try (injection H as <-).

(** ** What is counted *)

Definition counted (s : Server) : Prop :=
  wg s = size (handlers s) ∧ ActiveConnections s = Z.of_nat (wg s) ∧ conns s ⊆ handlers s ∧
  handlers s ⊆ dom (sockets s) ∧ dom (phases s) = handlers s ∧
  (∀ c, accepted s = Some c → (c ∉ handlers s) ∧ c ∈ dom (sockets s)).

Lemma counted_listener l s : counted s → counted (set_listener l s).
Proof. done. Qed.
Lemma counted_CloseListener s : counted s → counted (CloseListener s).
Proof. unfold CloseListener. by destruct (listener s). Qed.
Lemma counted_sockets m s : dom m = dom (sockets s) → counted s → counted (set_sockets m s).
Proof. intros Hm (Hw & Ha & Hc & Hs & Hp & Hacc). split_and!; cbn; rewrite ?Hm; done. Qed.
Lemma counted_phase c p s : c ∈ handlers s → counted s → counted (set_phase c p s).
Proof.
  intros Hin (Hw & Ha & Hc & Hs & Hp & Hacc). split_and!; cbn; try done. rewrite dom_insert_L, Hp. set_solver.
Qed.
Lemma dom_imap_some (f : nat → socket → socket) (m : gmap nat socket) :
  dom (map_imap (λ c k, Some (f c k)) m) = dom m.
Proof.
  apply set_eq. intros c. rewrite !elem_of_dom, map_lookup_imap. by destruct (m !! c).
Qed.
Lemma phase_handler c p s : counted s → phases s !! c = Some p → c ∈ handlers s.
Proof. intros (_ & _ & _ & _ & Hp & _) H. rewrite <-Hp. by eapply elem_of_dom_2. Qed.

Lemma counted_hand_over c s : accepted s = Some c → counted s → counted (hand_over c s).
Proof.
  intros Hac (Hw & Ha & Hc & Hs & Hp & Hacc). destruct (Hacc c Hac) as [Hn Hd].
  split_and!; cbn; try done.
  - rewrite size_union, size_singleton by set_solver. lia.
  - lia.
  - set_solver.
  - set_solver.
  - rewrite dom_insert_L. set_solver.
Qed.

Lemma counted_finish c s : c ∈ conns s → counted s → counted (finish c s).
Proof.
  intros Hin (Hw & Ha & Hc & Hs & Hp & Hacc). assert (c ∈ handlers s) as Hh by set_solver.
  assert (size (handlers s) = S (size (handlers s ∖ {[c]}))) as Hsz.
  { rewrite (union_difference_singleton_L c (handlers s)) at 1 by done.
    rewrite size_union, size_singleton by set_solver. done. }
  split_and!; cbn; rewrite ?dom_alter_L, ?dom_delete_L; try lia; try set_solver.
Qed.

Lemma counted_act a s s' : act a s = Some s' → counted s → counted s'.
Proof.
  intros H Hs. destruct a; inv_act H; try done.
  - unfold setListener. by destruct (quit s).
  - destruct Hs as (Hw & Ha & Hc & Hd & Hp & Hacc). split_and!; cbn; try done; rewrite ?dom_insert_L; [set_solver|].
    intros c' [= <-]. split; [|set_solver]. intros Hin. assert (c ∈ dom (sockets s)) as Hx by set_solver.
    apply elem_of_dom in Hx as [k Hk]. congruence.
  - by apply counted_hand_over.
  - destruct Hs as (Hw & Ha & Hc & Hd & Hp & Hacc). split_and!; cbn; try done. set_solver.
  - apply counted_phase; [|done]. by eapply phase_handler.
  - apply counted_phase; [by eapply (phase_handler _ _ s)|]. apply counted_sockets; [by rewrite dom_alter_L|done].
  - apply counted_phase; [|done]. by eapply phase_handler.
  - apply counted_phase; [by eapply (phase_handler _ _ s)|]. apply counted_sockets; [by rewrite dom_alter_L|done].
  - by apply counted_finish.
  - by apply counted_CloseListener.
  - apply counted_CloseListener. unfold close_quit in *. destruct (quit s); [done|]. by simplify_eq.
  - apply counted_sockets; [apply dom_imap_some|done].
  - destruct Hs as (Hw & Ha & Hc & Hd & Hp & Hacc). split_and!; cbn; rewrite ?dom_imap_some; done.
Qed.

Lemma counted_steps s l s' : steps s l s' → counted s → counted s'.
Proof. induction 1; [done|]. intros. eauto using counted_act. Qed.

Lemma counted_New : counted New.
Proof. split_and!; cbn; try done; set_solver. Qed.

(** With the listener closed and nothing in the hands of the accept loop, no
    new handler starts. *)
Definition shut (s : Server) : Prop := listener s ≠ Some true ∧ accepted s = None.
Lemma shut_CloseListener s :
  accepted s = None → shut (CloseListener s) ∧ handlers (CloseListener s) ⊆ handlers s.
Proof. unfold shut, CloseListener. intros Ha. destruct (listener s) eqn:E; cbn; rewrite ?E; done. Qed.
Lemma shut_act a s s' : a ≠ Listen → act a s = Some s' → shut s → shut s' ∧ handlers s' ⊆ handlers s.
Proof.
  intros Ha H [Hl Hacc]. unfold shut. destruct a; inv_act H; try done; try (split; [done|cbn; set_solver]).
  - by apply shut_CloseListener.
  - unfold close_quit in *. destruct (quit s); [done|]. simplify_eq.
    match goal with |- context [CloseListener ?t] => by apply (shut_CloseListener t) end.
Qed.
Lemma shut_steps s l s' : steps s l s' → Listen ∉ l → shut s → shut s' ∧ handlers s' ⊆ handlers s.
Proof.
  induction 1 as [|s a s1 l s2 H _ IH]; [done|]. intros Hn Hs.
  apply not_elem_of_cons in Hn as [Hn1 Hn2]. destruct (shut_act a s s1 (not_eq_sym Hn1) H Hs) as [Hs1 H1].
  destruct (IH Hn2 Hs1). set_solver.
Qed.

(** ** Draining *)

(** A tracked connection, from the drain on: outside the last steps of a watch
    it has the deadline, and those steps give it back. *)
Definition drained (d : Z) (c : nat) (s : Server) : Prop :=
  c ∈ dom (sockets s) ∧ drainDeadline s = Some d ∧ accepted s ≠ Some c ∧
  match phases s !! c with
  | Some Unwatched | Some Watching => readDeadline <$> (sockets s !! c) = Some (Some d)
  | Some (Restoring x) => x = Some d
  | Some Woken | None => True
  end.

(** Steps of other connections leave it alone. *)
Lemma drained_other d c s s' :
  drained d c s → drainDeadline s' = drainDeadline s → accepted s' = accepted s →
  sockets s' !! c = sockets s !! c → phases s' !! c = phases s !! c → drained d c s'.
Proof.
  intros (Hd & Hdr & Hac & Hp) E1 E2 E3 E4. unfold drained. rewrite E1, E2, E3, E4. split_and!; try done.
  apply elem_of_dom. rewrite E3. by apply elem_of_dom.
Qed.

Lemma drained_act d c a s s' :
  (∀ d', a ≠ Drain d') → act a s = Some s' → drained d c s → drained d c s'.
Proof.
  intros Ha H Hdr.
  destruct a as [|c0|c0|c0|c0|c0 now|c0|c0|c0| | | |d']; inv_act H; try done;
    pose proof Hdr as (Hd & Hdd & Hac & Hp).
  - unfold setListener. by destruct (quit s).
  - (* Accept *) assert (c0 ≠ c) by (intros ->; apply elem_of_dom in Hd as [k Hk]; congruence).
    split_and!; cbn; [set_solver|done|congruence|]. by rewrite lookup_insert_ne.
  - (* HandOver *) assert (c0 ≠ c) by congruence.
    split_and!; cbn; [done..|]. by rewrite lookup_insert_ne.
  - (* Watch *) destruct (decide (c0 = c)) as [->|Hne].
    + split_and!; cbn; [done..|]. rewrite lookup_insert_eq.
      match goal with E : phases s !! c = _ |- _ => by rewrite E in Hp end.
    + eapply drained_other; cbn; try done. by rewrite lookup_insert_ne.
  - (* Wake *) destruct (decide (c0 = c)) as [->|Hne].
    + split_and!; cbn; [by rewrite dom_alter_L|done..|]. by rewrite lookup_insert_eq.
    + eapply drained_other; cbn; try done; [by rewrite lookup_alter_ne|by rewrite lookup_insert_ne].
  - (* ReadDrain *) destruct (decide (c0 = c)) as [->|Hne].
    + split_and!; cbn; [done..|]. by rewrite lookup_insert_eq.
    + eapply drained_other; cbn; try done. by rewrite lookup_insert_ne.
  - (* Restore *) destruct (decide (c0 = c)) as [->|Hne].
    + split_and!; cbn; [by rewrite dom_alter_L|done..|]. rewrite lookup_insert_eq, lookup_alter_eq.
      apply elem_of_dom in Hd as [k ->]. cbn.
      match goal with E : phases s !! c = _ |- _ => by rewrite E in Hp; subst end.
    + eapply drained_other; cbn; try done; [by rewrite lookup_alter_ne|by rewrite lookup_insert_ne].
  - (* Finish *) destruct (decide (c0 = c)) as [->|Hne].
    + split_and!; cbn; [by rewrite dom_alter_L|done..|]. by rewrite lookup_delete_eq.
    + eapply drained_other; cbn; try done; [by rewrite lookup_alter_ne|by rewrite lookup_delete_ne].
  - unfold CloseListener. by destruct (listener s).
  - unfold close_quit in *. destruct (quit s); [done|]. simplify_eq. unfold CloseListener. by destruct (listener s).
  - (* ForceClose *) split_and!; cbn; [by rewrite dom_imap_some|done..|].
    rewrite map_lookup_imap. destruct (sockets s !! c) as [k|]; [|done]. cbn in *. by destruct (bool_decide (c ∈ _)).
  - by destruct (Ha d').
Qed.

Definition is_drain (a : step) : Prop := ∃ d, a = Drain d.
Lemma drained_steps d c s l s' : steps s l s' → Forall (λ a, ¬ is_drain a) l → drained d c s → drained d c s'.
Proof.
  induction 1 as [|s a s1 l s2 H _ IH]; [done|]. intros [Ha Hl]%Forall_cons Hd. apply IH; [done|].
  eapply drained_act; [|exact H|exact Hd]. intros d' ->. apply Ha. by eexists.
Qed.

Lemma drain_drained d c s :
  counted s → c ∈ conns s → (∀ x, phases s !! c ≠ Some (Restoring x)) → drained d c (drain d s).
Proof.
  intros (_ & _ & Hc & Hs & Hp & Hacc) Hin Hr.
  assert (c ∈ dom (sockets s)) as Hd by set_solver.
  split_and!; cbn; [by rewrite dom_imap_some|done|intros E; destruct (Hacc c E); set_solver|].
  rewrite map_lookup_imap. apply elem_of_dom in Hd as [k ->]. cbn. rewrite bool_decide_true by done.
  destruct (phases s !! c) as [[]|] eqn:E; try done. by destruct (Hr deadline).
Qed.

(** ** Force-closing *)

Definition is_closed (c : nat) (s : Server) : Prop := closed <$> (sockets s !! c) = Some true.

Lemma closed_act c a s s' : act a s = Some s' → is_closed c s → is_closed c s'.
Proof.
  unfold is_closed. intros H Hc. destruct (sockets s !! c) as [k|] eqn:Ek; [|done]. cbn in Hc. injection Hc as Hc.
  destruct a as [|c0|c0|c0|c0|c0 now|c0|c0|c0| | | |d']; inv_act H; cbn; try (by rewrite Ek; cbn; rewrite Hc).
  - unfold setListener. destruct (quit s); cbn; rewrite Ek; cbn; by rewrite Hc.
  - rewrite lookup_insert_ne by congruence. rewrite Ek. cbn. by rewrite Hc.
  - destruct (decide (c0 = c)) as [->|]; rewrite ?lookup_alter_eq, ?lookup_alter_ne by done; rewrite Ek; cbn; by rewrite Hc.
  - destruct (decide (c0 = c)) as [->|]; rewrite ?lookup_alter_eq, ?lookup_alter_ne by done; rewrite Ek; cbn; by rewrite Hc.
  - destruct (decide (c0 = c)) as [->|]; rewrite ?lookup_alter_eq, ?lookup_alter_ne by done; rewrite Ek; cbn; by rewrite ?Hc.
  - unfold CloseListener. destruct (listener s); cbn; rewrite Ek; cbn; by rewrite Hc.
  - unfold close_quit in *. destruct (quit s); [done|]. simplify_eq. unfold CloseListener. cbn.
    destruct (listener s); cbn; rewrite Ek; cbn; by rewrite Hc.
  - rewrite map_lookup_imap, Ek. cbn. destruct (bool_decide _); cbn; by rewrite ?Hc.
  - rewrite map_lookup_imap, Ek. cbn. destruct (bool_decide _); cbn; by rewrite Hc.
Qed.
Lemma closed_steps c s l s' : steps s l s' → is_closed c s → is_closed c s'.
Proof. induction 1; [done|]. intros. eauto using closed_act. Qed.

(** C6. Draining and stopping reach the connections, however the goroutines
    interleave. [DrainConnections] gives every tracked connection its read
    deadline, and unless the handler was at that moment between reading and
    restoring the deadline of a blocking command, the connection has that
    deadline from then on whenever its handler reads the next command or waits
    in a blocking one. [Stop] closes every tracked connection for good. And
    [wg] and the metric count exactly the handlers that run, among them those of
    all tracked connections. *)
Theorem shutdown_reaches_connections l s :
  steps New l s →
  (wg s = size (handlers s) ∧ ActiveConnections s = Z.of_nat (wg s) ∧ conns s ⊆ handlers s) ∧
  (∀ d c l' s', c ∈ conns s → (∀ x, phases s !! c ≠ Some (Restoring x)) → steps (drain d s) l' s' →
     Forall (λ a, ¬ is_drain a) l' → phases s' !! c ∈ [Some Unwatched; Some Watching] →
     readDeadline <$> (sockets s' !! c) = Some (Some d)) ∧
  (∀ c l' s', c ∈ conns s → steps (force_close s) l' s' → is_closed c s').
Proof.
  intros Hs. assert (counted s) as Hc by (eapply counted_steps; [exact Hs|apply counted_New]). split_and!.
  - apply Hc.
  - apply Hc.
  - apply Hc.
  - intros d c l' s' Hin Hr Hl Hd Hp. pose proof (drain_drained d c s Hc Hin Hr) as Hdr.
    apply (drained_steps d c _ _ _ Hl Hd) in Hdr as (_ & _ & _ & Hm).
    apply elem_of_cons in Hp as [Hp|[Hp|[]%not_elem_of_nil]%elem_of_cons]; by rewrite Hp in Hm.
  - intros c l' s' Hin Hl. eapply closed_steps; [exact Hl|]. unfold is_closed. cbn. rewrite map_lookup_imap.
    assert (c ∈ dom (sockets s)) as [k ->]%elem_of_dom by (destruct Hc as (_ & _ & H1 & H2 & _); set_solver).
    cbn. by rewrite bool_decide_true.
Qed.

(** A server with two connections, the first in a blocking command. *)
Definition two_conns : list step :=
  [Listen; Accept 1; HandOver 1; Register 1; Accept 2; HandOver 2; Register 2; Watch 1].
Fixpoint run (l : list step) (s : Server) : option Server :=
  match l with [] => Some s | a :: l => match act a s with Some s => run l s | None => None end end.
Lemma run_steps l s s' : run l s = Some s' → steps s l s'.
Proof.
  revert s. induction l as [|a l IH]; intros s; cbn; [intros [= ->]; constructor|].
  destruct (act a s) as [s1|] eqn:E; [|done]. intros H. econstructor; [exact E|auto].
Qed.
Definition after (l : list step) : Server := default New (run l New).
Definition deadline_of (c : nat) (s : Server) : option (option Z) := readDeadline <$> (sockets s !! c).

Lemma shutdown_reaches_connections_witness :
  deadline_of 1 (default New (run [CloseTheListener; Wake 1 5; ReadDrain 1; Restore 1] (drain 10 (after two_conns)))) =
    Some (Some 10%Z).
Proof.
  assert (steps New two_conns (after two_conns)) as Hs by (apply run_steps; vm_compute; reflexivity).
  apply (proj1 (proj2 (shutdown_reaches_connections two_conns (after two_conns) Hs)) 10%Z 1
           [CloseTheListener; Wake 1 5; ReadDrain 1; Restore 1]).
  - apply (bool_decide_unpack _). vm_compute. exact I.
  - intros x. vm_compute. discriminate.
  - apply run_steps. vm_compute. reflexivity.
  - repeat (constructor; [intros [d Hd]; discriminate Hd|]). constructor.
  - apply (bool_decide_unpack _). vm_compute. exact I.
Defined.

(** The two ways a connection escapes the drain: its handler tracks it only
    after the drain, or restores the deadline it read before. [Stop] likewise
    misses a connection that is not tracked yet; and a second [Stop] panics. *)
Lemma drain_misses_late_connection :
  deadline_of 1 (after [Listen; Accept 1; HandOver 1; CloseTheListener; Drain 10; Register 1]) = Some None.
Proof. vm_compute. reflexivity. Qed.
Lemma drain_overwritten :
  deadline_of 1 (after (two_conns ++ [Wake 1 5; ReadDrain 1; Drain 10; Restore 1])) = Some None.
Proof. vm_compute. reflexivity. Qed.
Lemma stop_misses_late_connection :
  closed <$> (sockets (after [Listen; Accept 1; HandOver 1; Quit; ForceClose; Register 1]) !! 1) = Some false.
Proof. vm_compute. reflexivity. Qed.
Lemma second_stop_panics : act Quit (after [Listen; Quit]) = None.
Proof. vm_compute. reflexivity. Qed.

(** ** The shutdown of main.go *)

Inductive task :=
| MarkNotReady | CloseTheTcpListener | Sleep | ReleaseLeader | DrainAll | WaitForHandlers | CancelContext
| StopMetrics | StopInvalidator | CloseStore.
#[export] Instance task_eq_dec : EqDecision task.
Proof. solve_decision. Defined.
(** The goroutine of main, [DrainConnections] in its two halves. *)
Definition shutdownTasks (election cacheInvalidator : bool) : list task :=
  [MarkNotReady; CloseTheTcpListener; Sleep] ++ (if election then [ReleaseLeader] else []) ++
  [DrainAll; WaitForHandlers; CancelContext; StopMetrics] ++ (if cacheInvalidator then [StopInvalidator] else []) ++
  [CloseStore].

(** [leading] is what the election holds, [in_hand] the connection the accept
    loop held when the wait for the handlers ended. *)
Record program := MkProgram {
  srv : Server; ready : bool; leading : bool; ctx_live : bool; store_open : bool; todo : list task; in_hand : option nat
}.
(** A step of the server, of the election (which takes or loses the lock until
    its [Stop] has returned) or of the shutdown. *)
Inductive pstep := ServerStep (a : step) | Election (isLeader : bool) | Next (now : Z).
Definition with_srv (s : Server) (p : program) : program :=
  MkProgram s (ready p) (leading p) (ctx_live p) (store_open p) (todo p) (in_hand p).
Definition perform (t : task) (now : Z) (rest : list task) (p : program) : option program :=
  let p' := λ s r ld cx st h, MkProgram s r ld cx st rest h in
  match t with
  | MarkNotReady => Some (p' (srv p) false (leading p) (ctx_live p) (store_open p) (in_hand p))
  | CloseTheTcpListener => Some (p' (CloseListener (srv p)) (ready p) (leading p) (ctx_live p) (store_open p) (in_hand p))
  | ReleaseLeader => Some (p' (srv p) (ready p) false (ctx_live p) (store_open p) (in_hand p))
  | DrainAll => Some (p' (drain (now + 10 * 10 ^ 9) (srv p)) (ready p) (leading p) (ctx_live p) (store_open p) (in_hand p))
  | WaitForHandlers =>
      if bool_decide (wg (srv p) = 0)
      then Some (p' (srv p) (ready p) (leading p) (ctx_live p) (store_open p) (accepted (srv p))) else None
  | CancelContext => Some (p' (srv p) (ready p) (leading p) false (store_open p) (in_hand p))
  | CloseStore => Some (p' (srv p) (ready p) (leading p) (ctx_live p) false (in_hand p))
  | Sleep | StopMetrics | StopInvalidator =>
      Some (p' (srv p) (ready p) (leading p) (ctx_live p) (store_open p) (in_hand p))
  end.
(** The server was started before: no step listens again. *)
Definition pact (a : pstep) (p : program) : option program :=
  match a with
  | ServerStep Listen => None
  | ServerStep a => match act a (srv p) with Some s => Some (with_srv s p) | None => None end
  | Election b =>
      if bool_decide (ReleaseLeader ∈ todo p)
      then Some (MkProgram (srv p) (ready p) b (ctx_live p) (store_open p) (todo p) (in_hand p)) else None
  | Next now => match todo p with [] => None | t :: rest => perform t now rest p end
  end.
Inductive psteps : program → list pstep → program → Prop :=
| psteps_nil p : psteps p [] p
| psteps_cons p a p1 l p2 : pact a p = Some p1 → psteps p1 l p2 → psteps p (a :: l) p2.

(** What a task achieves for good. *)
Definition held (s : Server) : gset nat := match accepted s with Some c => {[c]} | None => ∅ end.
Definition hand_set (p : program) : gset nat := match in_hand p with Some c => {[c]} | None => ∅ end.
Definition achieved (p : program) (t : task) : Prop :=
  match t with
  | MarkNotReady => ready p = false
  | CloseTheTcpListener => listener (srv p) ≠ Some true
  | ReleaseLeader => leading p = false
  | WaitForHandlers => listener (srv p) ≠ Some true ∧ handlers (srv p) ∪ held (srv p) ⊆ hand_set p
  | CancelContext => ctx_live p = false
  | Sleep | DrainAll | StopMetrics | StopInvalidator | CloseStore => True
  end.
Definition on_course (election inv : bool) (p : program) : Prop :=
  counted (srv p) ∧ (store_open p = false → todo p = []) ∧
  ∃ dn, shutdownTasks election inv = dn ++ todo p ∧ Forall (achieved p) dn.

(** With the listener closed no step of the server opens it, and the only
    handler to start is that of the connection in hand. *)
Lemma CloseListener_keeps s :
  listener (CloseListener s) ≠ Some true ∧ handlers (CloseListener s) = handlers s ∧ accepted (CloseListener s) = accepted s.
Proof. unfold CloseListener. by destruct (listener s) eqn:E; cbn; rewrite ?E. Qed.
Lemma closed_listener_act a s s' :
  a ≠ Listen → act a s = Some s' → listener s ≠ Some true →
  listener s' ≠ Some true ∧ handlers s' ∪ held s' ⊆ handlers s ∪ held s.
Proof.
  intros Ha H Hl. destruct a; inv_act H; try done; unfold held; try (split; [done|cbn; set_solver]).
  - destruct (CloseListener_keeps s) as (H1 & -> & ->). done.
  - unfold close_quit in *. destruct (quit s); [done|]. simplify_eq.
    match goal with |- context [CloseListener ?t] => destruct (CloseListener_keeps t) as (H1 & -> & ->) end. done.
Qed.

Lemma achieved_server a s p t :
  a ≠ Listen → act a (srv p) = Some s → achieved p t → achieved (with_srv s p) t.
Proof.
  intros Ha H. destruct t; cbn; try done.
  - intros Hl. by eapply closed_listener_act.
  - intros [Hl Hh]. destruct (closed_listener_act _ _ _ Ha H Hl). split; [done|]. unfold hand_set in *. cbn. set_solver.
Qed.
Lemma pact_server a s p :
  a ≠ Listen → act a (srv p) = Some s → pact (ServerStep a) p = Some (with_srv s p).
Proof. intros Ha H. cbn. rewrite H. by destruct a. Qed.

(** The order of the tasks. *)
Lemma listener_before_wait election inv dn rest :
  shutdownTasks election inv = dn ++ WaitForHandlers :: rest → CloseTheTcpListener ∈ dn ∧ WaitForHandlers ∉ dn.
Proof.
  intros H. destruct election, inv; unfold shutdownTasks in H; cbn in H;
    repeat (destruct dn as [|? dn]; cbn in H; [discriminate H || (injection H as <-; split; by apply (bool_decide_unpack _))|injection H as <- H]);
    destruct dn; discriminate H.
Qed.
Lemma store_last election inv dn rest : shutdownTasks election inv = dn ++ CloseStore :: rest → rest = [].
Proof.
  intros H. destruct election, inv; unfold shutdownTasks in H; cbn in H;
    repeat (destruct dn as [|? dn]; cbn in H; [discriminate H || (by injection H)|injection H as <- H]);
    destruct dn; discriminate H.
Qed.

Lemma on_course_perform election inv t now rest p p' :
  todo p = t :: rest → perform t now rest p = Some p' → on_course election inv p → on_course election inv p'.
Proof.
  intros Ht H (Hc & Hst & dn & Hdn & Hf). rewrite Ht in Hdn, Hst.
  assert (∀ q, todo q = rest → counted (srv q) → (store_open q = false → rest = []) →
            (∀ u, u ∈ dn → achieved p u → achieved q u) → achieved q t → on_course election inv q) as Hq.
  { intros q Hq Hcq Hsq Hk Hn. split_and!; [done|by rewrite Hq|]. exists (dn ++ [t]). split.
    - rewrite Hq, <-app_assoc. exact Hdn.
    - apply Forall_app. split; [|by constructor]. rewrite Forall_forall in Hf |- *. eauto. }
  assert (store_open p = false → rest = []) as Hs0 by (intros Hx; by apply Hst in Hx).
  destruct t; cbn in H; try (injection H as <-); try (apply Hq; cbn; try done; intros [] _; done).
  - apply Hq; cbn; try done; [by apply counted_CloseListener| |apply CloseListener_keeps].
    destruct (CloseListener_keeps (srv p)) as (H1 & H2 & H3).
    intros [] _; cbn; unfold held; rewrite ?H2, ?H3; try done. by intros [_ ?].
  - apply Hq; cbn; try done. apply (counted_act (Drain (now + 10 * 10 ^ 9)) (srv p)); done.
  - case_bool_decide as Hw; [|discriminate H]. injection H as <-. destruct (listener_before_wait _ _ _ _ Hdn) as [Hl Hnw].
    rewrite Forall_forall in Hf. specialize (Hf _ Hl). cbn in Hf.
    apply Hq; cbn; try done; [intros [] Hu; cbn; try done; by destruct (Hnw Hu)|].
    split; [done|]. destruct Hc as (Hwg & _). rewrite Hw in Hwg. symmetry in Hwg. apply size_empty_inv in Hwg.
    unfold held, hand_set. cbn. set_solver.
  - apply Hq; cbn; try done. intros _. by eapply store_last.
Qed.

Lemma on_course_pact election inv a p p' :
  pact a p = Some p' → on_course election inv p → on_course election inv p'.
Proof.
  destruct a as [a|b|now]; intros H Hp.
  - assert (a ≠ Listen) as Ha by (intros ->; discriminate H).
    destruct (act a (srv p)) as [s|] eqn:E; [|cbn in H; rewrite E in H; by destruct a].
    rewrite (pact_server _ _ _ Ha E) in H. injection H as <-. destruct Hp as (Hc & Hst & dn & Hdn & Hf).
    split_and!; [by eapply counted_act|done|]. exists dn. split; [done|].
    eapply Forall_impl; [exact Hf|]. intros t. by eapply achieved_server.
  - cbn in H. case_bool_decide as Hin; [|discriminate H]. injection H as <-. destruct Hp as (Hc & Hst & dn & Hdn & Hf).
    split_and!; [done..|]. exists dn. split; [done|]. rewrite Forall_forall in Hf |- *. intros t Ht.
    specialize (Hf t Ht). destruct t; try done. exfalso. cbn in Hin. revert Hin Ht.
    assert (NoDup (shutdownTasks election inv)) as Hnd by (destruct election, inv; apply (bool_decide_unpack _); vm_compute; exact I).
    rewrite Hdn in Hnd. apply NoDup_app in Hnd as (_ & Hnd & _). intros Hin Ht. exact (Hnd _ Ht Hin).
  - cbn in H. destruct (todo p) as [|t rest] eqn:Ht; [discriminate H|]. by eapply on_course_perform.
Qed.
Lemma on_course_psteps election inv p l p' :
  psteps p l p' → on_course election inv p → on_course election inv p'.
Proof. induction 1; [done|]. intros. eauto using on_course_pact. Qed.

(** C3. The shutdown of main.go closes the store last: whenever the database
    connections have been closed, however the goroutines interleaved, the
    server is marked not ready, the listener is closed, the leader lock is
    released (when there is an election), the context of the background
    goroutines is cancelled, and no connection handler runs any more that could
    still use the store, except that of a connection the accept loop had
    accepted and not yet counted when the wait for the handlers ended. *)
Theorem graceful_shutdown election inv l s l' p' isLeader :
  steps New l s →
  psteps (MkProgram s true isLeader true true (shutdownTasks election inv) None) l' p' →
  store_open p' = false →
  ready p' = false ∧ listener (srv p') ≠ Some true ∧ (election = true → leading p' = false) ∧ ctx_live p' = false ∧
  handlers (srv p') ⊆ hand_set p'.
Proof.
  intros Hs Hp Hst. apply (on_course_psteps election inv) in Hp as (_ & Ht & dn & Hdn & Hf).
  - rewrite (Ht Hst), app_nil_r in Hdn. subst dn. rewrite Forall_forall in Hf.
    assert (∀ t, bool_decide (t ∈ shutdownTasks election inv) = true → achieved p' t) as Hx.
    { intros t Hin%bool_decide_eq_true. auto. }
    split_and!.
    + apply (Hx MarkNotReady). by destruct election, inv.
    + apply (Hx CloseTheTcpListener). by destruct election, inv.
    + intros ->. apply (Hx ReleaseLeader). by destruct inv.
    + apply (Hx CancelContext). by destruct election, inv.
    + assert (achieved p' WaitForHandlers) as [_ Hh] by (apply Hx; by destruct election, inv). set_solver.
  - split_and!; cbn; [by eapply counted_steps, counted_New|done|]. by exists [].
Qed.

Fixpoint prun (l : list pstep) (p : program) : option program :=
  match l with [] => Some p | a :: l => match pact a p with Some p => prun l p | None => None end end.
Lemma prun_psteps l p p' : prun l p = Some p' → psteps p l p'.
Proof.
  revert p. induction l as [|a l IH]; intros p; cbn; [intros [= ->]; constructor|].
  destruct (pact a p) as [p1|] eqn:E; [|done]. intros H. econstructor; [exact E|auto].
Qed.
Definition serving : program := MkProgram (after two_conns) true true true true (shutdownTasks true true) None.
Definition orderly : list pstep :=
  [Next 0; Next 0; Next 2; ServerStep (Finish 2); Next 3; Next 4; ServerStep (Wake 1 9); ServerStep (ReadDrain 1);
   ServerStep (Restore 1); ServerStep (Finish 1); Next 9; Next 9; Next 9; Next 9; Next 9].
Lemma graceful_shutdown_witness :
  let p' := default serving (prun orderly serving) in
  store_open p' = false ∧ handlers (srv p') ⊆ hand_set p' ∧ in_hand p' = None.
Proof.
  intros p'. split_and!; [reflexivity| |reflexivity].
  eapply (graceful_shutdown true true two_conns (after two_conns) orderly p' true).
  - apply run_steps. vm_compute. reflexivity.
  - apply prun_psteps. vm_compute. reflexivity.
  - vm_compute. reflexivity.
Defined.

(** The exception happens: a connection accepted just before the listener
    closed is handed over when the store is already closed. *)
Lemma accepted_connection_outlives_store :
  let p := MkProgram (after [Listen; Accept 1]) true false true true (shutdownTasks false false) None in
  (λ p', (store_open p', elements (handlers (srv p')))) <$>
    prun ([Next 0; Next 0; Next 2; Next 2; Next 2; Next 2; Next 2; Next 2; ServerStep (HandOver 1)]) p =
  Some (false, [1]).
Proof. vm_compute. reflexivity. Qed.

End Lifecycle.
