(* ===== verification/Metrics.v ===== *)
(** * Metrics and probes: internal/metrics/metrics.go

    What the process counts, which commands of a session are counted (the calls
    of [RecordCommand] in handler.go and handler_pubsub.go), and what the HTTP
    server of the metrics answers. *)
From stdpp Require Import gmap strings list sorting.
From Stdlib Require Import ZArith Lia Ascii.
From S2P Require Import Prelude GoStd Resp Db Client PubSub Handler Server.
Import Resp Db Client Handler.

(** ** internal/metrics *)

Module Metrics.
Local Open Scope Z_scope.

(** The counters and gauges; those with a label are maps, and a label that has
    no entry has not been used. Durations are nanoseconds. *)
Record Metrics := MkMetrics {
  CommandsTotal : gmap string Z;
  CommandDuration : gmap string (list Z);
  CommandErrors : gmap string Z;
  ActiveConnections : Z;
  ConnectionsTotal : Z;
  CacheHits : Z;
  CacheMisses : Z;
  CacheSkips : gmap string Z
}.
Definition zero : Metrics := MkMetrics ∅ ∅ ∅ 0 0 0 0 ∅.

Definition Inc (label : string) (m : gmap string Z) : gmap string Z := <[label := default 0 (m !! label) + 1]> m.
Definition Observe (label : string) (d : Z) (m : gmap string (list Z)) : gmap string (list Z) :=
  <[label := default [] (m !! label) ++ [d]]> m.

Definition RecordCommand (command : string) (duration : Z) (isError : bool) (m : Metrics) : Metrics :=
  MkMetrics (Inc command (CommandsTotal m)) (Observe command duration (CommandDuration m))
    (if isError then Inc command (CommandErrors m) else CommandErrors m)
    (ActiveConnections m) (ConnectionsTotal m) (CacheHits m) (CacheMisses m) (CacheSkips m).

(** The upper bounds of the histogram's buckets,
    [ExponentialBuckets(0.0001, 2, 16)], in nanoseconds. *)
Definition buckets : list Z := (λ i, 100000 * 2 ^ Z.of_nat i) <$> seq 0 16.

(** After any sequence of recorded commands, for every name: as many durations
    as commands, as many errors as commands that were errors. *)
Definition record (cs : list (string * Z * bool)) (m : Metrics) : Metrics :=
  foldl (λ m c, RecordCommand c.1.1 c.1.2 c.2 m) m cs.
Definition of_name (name : string) (cs : list (string * Z * bool)) : list (string * Z * bool) :=
  filter (λ c, c.1.1 = name) cs.

Lemma record_counts cs m name :
  default 0 (CommandsTotal (record cs m) !! name) =
    default 0 (CommandsTotal m !! name) + Z.of_nat (length (of_name name cs)) ∧
  default [] (CommandDuration (record cs m) !! name) =
    default [] (CommandDuration m !! name) ++ ((λ c, c.1.2) <$> of_name name cs) ∧
  default 0 (CommandErrors (record cs m) !! name) =
    default 0 (CommandErrors m !! name) + Z.of_nat (length (filter (λ c, c.2 = true) (of_name name cs))).
Proof.
  revert m. induction cs as [|[[cmd d] isError] cs IH]; intros m.
  { cbn. rewrite app_nil_r. split_and!; lia || done. }
  change (record ((cmd, d, isError) :: cs) m) with (record cs (RecordCommand cmd d isError m)).
  destruct (IH (RecordCommand cmd d isError m)) as (-> & -> & ->).
  unfold of_name. rewrite filter_cons. cbn [fst snd]. fold (of_name name cs).
  unfold RecordCommand, Inc, Observe. cbn [CommandsTotal CommandDuration CommandErrors].
  destruct (decide (cmd = name)) as [->|Hne].
  - rewrite !lookup_insert_eq. cbn [default fmap list_fmap length]. rewrite filter_cons. cbn [snd]. split_and!.
    + change (from_option id 0 (Some ?x)) with x. cbn. lia.
    + cbn. by rewrite <-app_assoc.
    + destruct isError; [rewrite lookup_insert_eq, decide_True by done|rewrite decide_False by done]; cbn; lia.
  - rewrite !lookup_insert_ne by done. split_and!; [done..|]. destruct isError; [by rewrite lookup_insert_ne|done].
Qed.

(** *** What a session records *)

(** [Handle], [HandleClient], [HandleExec], the subscription commands and
    [HandlePublish] record a name and whether the reply was an error. *)
Definition isError (v : Value) : bool := bool_decide (vType v = Error).
Definition handle_records (cmd v : Value) : list (string * bool) :=
  match parts cmd with None => [] | Some (cmdName, _) => [(cmdName, isError v)] end.
Definition client_records (cmd v : Value) : list (string * bool) := if short 2 cmd then [] else [("CLIENT", isError v)].
Definition exec_records (v : Value) : list (string * bool) :=
  if bool_decide (vType v = Array) then [("EXEC", false)] else [].

(** The records of one command of a connection, by the branches of
    [handleConnection]; [v] is its (first) reply. *)
Definition records (cfg : Server.config) (cmd : Value) (c : Server.conn) (v : Value) : list (string * bool) :=
  match parts cmd with
  | None => []
  | Some (cmdName, args) =>
      if bool_decide (cmdName ∈ ["AUTH"; "HELLO"]) then handle_records cmd v
      else if negb (Server.authenticated c) then
        if bool_decide (cmdName ∈ ["PING"; "QUIT"; "COMMAND"; "HELLO"]) then handle_records cmd v else []
      else if bool_decide (cmdName ∈ ["SUBSCRIBE"; "PSUBSCRIBE"]) then
        if Server.pubsub cfg then match args with [] => [] | _ => [(cmdName, false)] end else []
      else if bool_decide (cmdName ∈ ["UNSUBSCRIBE"; "PUNSUBSCRIBE"]) then
        if Server.pubsub cfg then [(cmdName, false)] else []
      else if bool_decide (cmdName = "PUBLISH") then
        if Server.pubsub cfg then match args with _ :: _ :: _ => [("PUBLISH", isError v)] | _ => [] end else []
      else if inPubSubMode (Server.client c) && negb (UseRESP3 (Server.client c)) then
        if bool_decide (cmdName = "QUIT") then handle_records cmd v else []
      else if bool_decide (cmdName ∈ ["RESET"; "MULTI"; "DISCARD"]) then []
      else if bool_decide (cmdName = "EXEC") then exec_records v
      else if inTransaction (Server.client c) then []
      else if bool_decide (cmdName = "CLIENT") then client_records cmd v
      else handle_records cmd v
  end.

(** A command is recorded at most once, and as an error only if its reply is
    one. *)
Lemma records_once cfg cmd c v :
  (length (records cfg cmd c v) ≤ 1)%nat ∧ ∀ name er, (name, er) ∈ records cfg cmd c v → er = true → vType v = Error.
Proof.
  unfold records, handle_records, client_records, exec_records, isError.
  destruct (parts cmd) as [[cmdName args]|]; [|split; [cbn; lia|intros ? ? []%not_elem_of_nil]].
  split; [repeat case_match; cbn; lia|].
  intros name er Hin ->. repeat case_match; apply list_elem_of_In in Hin; cbn in Hin;
    repeat (destruct Hin as [Hin|Hin]); try done; injection Hin as _ Hin; try done; by apply bool_decide_eq_true in Hin.
Qed.
(** The commands of a transaction, and an EXEC that fails, are not recorded. *)
Lemma queued_not_recorded cfg cmd c v :
  Server.normal c → inTransaction (Server.client c) = true → Server.queueable cmd → records cfg cmd c v = [].
Proof.
  intros [Ha Hps] Ht (name & args & Hp & Hn). unfold records. rewrite Hp, Ha, Hps, Ht. cbn [negb].
  assert (∀ l : list string, l ⊆ Server.special → bool_decide (name ∈ l) = false) as Hl
    by (intros l Hl; apply bool_decide_false; set_solver).
  assert (∀ x, x ∈ Server.special → bool_decide (name = x) = false) as Hx
    by (intros x Hx; apply bool_decide_false; by intros ->).
  rewrite !Hl, !Hx; [done|apply (bool_decide_unpack _); vm_compute; exact I..].
Qed.
Lemma failed_exec_not_recorded cfg c v :
  Server.normal c → vType v = Error → records cfg Server.cEXEC c v = [].
Proof.
  intros [Ha Hps] Hv. unfold records. change (parts Server.cEXEC) with (Some ("EXEC", @nil Value)).
  rewrite Ha, Hps. unfold exec_records. by rewrite Hv.
Qed.

(** The counters after the commands of a connection, each with the time it
    took. *)
Fixpoint session `{!Operations} (cfg : Server.config) (age : Z) (e : nat → nat → env) (took : nat → Z) (n : nat)
    (cmds : list Value) (c : Server.conn) (w : Server.world) (m : Metrics) : Metrics :=
  match cmds with
  | [] => m
  | cmd :: cmds =>
      let '(c', w', vs) := Server.processCommand cfg age (e n) cmd c w in
      let recs := records cfg cmd c (default NullBulk (head vs)) in
      session cfg age e took (S n) cmds c' w' (record ((λ r : string * bool, (r.1, took n, r.2)) <$> recs) m)
  end.

(** No command ever has more errors than runs. *)
Definition sound (m : Metrics) : Prop := ∀ name,
  0 <= default 0 (CommandErrors m !! name) <= default 0 (CommandsTotal m !! name) ∧
  Z.of_nat (length (default [] (CommandDuration m !! name))) = default 0 (CommandsTotal m !! name).
Lemma sound_record cs m : sound m → sound (record cs m).
Proof.
  intros Hm name. destruct (Hm name) as [He Hd]. destruct (record_counts cs m name) as (-> & -> & ->).
  pose proof (length_filter (λ c : string * Z * bool, c.2 = true) (of_name name cs)) as Hf.
  rewrite length_app, length_fmap. split; lia.
Qed.
Lemma sound_session `{!Operations} cfg age e took n cmds c w m : sound m → sound (session cfg age e took n cmds c w m).
Proof.
  revert n c w m. induction cmds as [|cmd cmds IH]; intros n c w m Hm; [done|]. cbn [session].
  destruct (Server.processCommand cfg age (e n) cmd c w) as [[c' w'] vs]. by apply IH, sound_record.
Qed.

(** *** The HTTP server *)

(** What answers a request: a fixed status and body, a handler of a library,
    a redirect, or nothing. *)
Inductive response := Reply (status : Z) (body : string) | Library (handler : string) | Redirect (url : string) | NotFound.
Definition StatusOK : Z := 200.
Definition StatusServiceUnavailable : Z := 503.

(** [NewServer] with its mux: patterns that end in a slash match the paths
    below them. [path] is clean, [readyFn] is what the callback returns. *)
Definition NewServer (enablePprof : bool) (readyFn : option bool) (path : string) : response :=
  if bool_decide (path = "/metrics") then Library "promhttp"
  else if bool_decide (path = "/health") then Reply StatusOK "OK"
  else if bool_decide (path = "/ready") then
    match readyFn with
    | Some false => Reply StatusServiceUnavailable "standby"
    | _ => Reply StatusOK "OK"
    end
  else if enablePprof then
    if bool_decide (path = "/debug/pprof/cmdline") then Library "pprof.Cmdline"
    else if bool_decide (path = "/debug/pprof/profile") then Library "pprof.Profile"
    else if bool_decide (path = "/debug/pprof/symbol") then Library "pprof.Symbol"
    else if bool_decide (path = "/debug/pprof/trace") then Library "pprof.Trace"
    else if Strings.HasPrefix path "/debug/pprof/" then Library "pprof.Index"
    else if bool_decide (path = "/debug/pprof") then Redirect "/debug/pprof/"
    else NotFound
  else NotFound.

(** Profiling is reachable only when it was asked for. *)
Lemma pprof_opt_in readyFn path handler :
  NewServer false readyFn path = Library handler → path = "/metrics" ∧ handler = "promhttp".
Proof. unfold NewServer. intros H. repeat case_match; zify_bool; simplify_eq; done. Qed.

(** The last bucket ends at 3.2768 s, not at the 6.5 s of the comment. *)
Lemma last_bucket : last buckets = Some 3276800000.
Proof. vm_compute. reflexivity. Qed.

End Metrics.

