(* ===== verification/Cleanup.v ===== *)
(** * The expiry sweep: internal/storage/storage.go [deleteExpiredKeys]

    One cycle of the background cleanup: it collects candidate keys, takes the
    locks that are free without waiting, re-checks and deletes. The theorems
    say which keys it may touch, what is gone afterwards, and that a key with
    one expired row loses its live rows with it. *)
From stdpp Require Import gmap strings list sorting.
From Stdlib Require Import ZArith Lia Ascii.
From S2P Require Import Prelude GoStd KeyCodec Db StoreMeta StoreStrings StoreKeys StoreHash.
Import Db KeyCodec Meta StringOps KeyOps HashOps.

Module Cleanup.

(** [expires_at IS NOT NULL AND expires_at <= $1] *)
Definition expired_at (now : Z) (x : expiry) : bool :=
  match x with Some x => (x <=? now)%Z | None => false end.

(** The keys with an expired row, in a table keyed by [key] alone and in one
    with a compound key; [exp] is the [expires_at] column. *)
Definition keys1 (now : Z) (m : gmap string (string * expiry)) : gset string :=
  dom (filter (λ p : string * (string * expiry), expired_at now p.2.2 = true) m).
Definition keys2 {B V} `{Countable B} (exp : V → expiry) (now : Z) (m : gmap (string * B) V) : gset string :=
  set_map fst (dom (filter (λ p : (string * B) * V, expired_at now (exp p.2) = true) m)).

(** [EXISTS (SELECT 1 FROM t WHERE t.key = k)] *)
Definition has2 {B V} `{Countable B} (k : string) (m : gmap (string * B) V) : bool :=
  bool_decide (k ∈ (set_map fst (dom m) : gset string)).
Definition has_data (kt k : string) (t : tables) : bool :=
  if bool_decide (kt = TypeString) then bool_decide (is_Some (kv_strings t !! k))
  else if bool_decide (kt = TypeList) then has2 k (kv_lists t)
  else if bool_decide (kt = TypeHash) then has2 k (kv_hashes t)
  else if bool_decide (kt = TypeSet) then has2 k (kv_sets t)
  else if bool_decide (kt = TypeZSet) then has2 k (kv_zsets t)
  else true.
Definition orphans (t : tables) : gset string :=
  dom (filter (λ p : string * (string * expiry), has_data p.2.1 p.1 t = false) (kv_meta t)).

(** The eight queries of the UNION. *)
Definition sources (now : Z) (t : tables) : list (gset string) :=
  [keys1 now (kv_meta t); keys1 now (kv_strings t); keys2 snd now (kv_hashes t);
   keys2 snd now (kv_lists t); keys2 (λ x, x) now (kv_sets t); keys2 snd now (kv_zsets t);
   keys1 now (kv_hyperloglog t); orphans t].

(** [DELETE FROM t WHERE key = ANY($3) OR key IN (SELECT key FROM t WHERE key = ANY($1) AND expired)] *)
Definition purge1 (keys expired : gset string) (now : Z) (m : gmap string (string * expiry)) :=
  filter (λ p : string * (string * expiry), (p.1 ∉ expired) ∧ p.1 ∉ keys ∩ keys1 now m) m.
Definition purge2 {B V} `{Countable B} (exp : V → expiry) (keys expired : gset string) (now : Z)
    (m : gmap (string * B) V) : gmap (string * B) V :=
  filter (λ p : (string * B) * V, (p.1.1 ∉ expired) ∧ p.1.1 ∉ keys ∩ keys2 exp now m) m.

(** The cycle inside its transaction. [acquired]: the answer of the cleanup's
    own lock; [limit]: what a LIMIT leaves of a query; [free]: the keys whose
    lock nobody holds. An early [return] of the source rolls back a
    transaction that has written nothing. *)
Definition sweep (acquired : bool) (limit : gset string → gset string) (free : string → bool) : M unit :=
  got ← query (λ _ _, acquired);
  if negb got then mret tt
  else
    now ← asks (λ e, timestamptz (go_now e));
    candidates ← query (λ _ t, ⋃ (limit <$> sources now t));
    if bool_decide (size candidates = 0) then mret tt
    else
      keys ← query (λ _ _, filter (λ k, free k = true) candidates);
      if bool_decide (size keys = 0) then mret tt
      else
        expired ← stmt (λ _ t,
          let hit := λ p : string * (string * expiry), (p.1 ∈ keys) ∧ expired_at now p.2.2 = true in
          Ok (upd_meta (filter (λ p, ¬ hit p)) t, dom (filter hit (kv_meta t)) : gset string));
        exec (λ _, upd_strings (purge1 keys expired now));;
        exec (λ _, upd_hashes (purge2 snd keys expired now));;
        exec (λ _, upd_lists (purge2 snd keys expired now));;
        exec (λ _, upd_sets (purge2 (λ x, x) keys expired now));;
        exec (λ _, upd_zsets (purge2 snd keys expired now));;
        exec (λ _, upd_hll (purge1 keys expired now));;
        exec (λ _ t, upd_meta (filter (λ p : string * (string * expiry),
                       ¬ ((p.1 ∈ keys) ∧ has_data p.2.1 p.1 t = false))) t).

(** Errors end the cycle silently and roll back. *)
Definition deleteExpiredKeys (acquired : bool) (limit : gset string → gset string) (free : string → bool)
    (e : env) (s : st) : st := (execTx (sweep acquired limit free) e s).1.

(** ** Lemmas *)

Lemma elem_of_keys1 now m k :
  k ∈ keys1 now m ↔ ∃ v x, m !! k = Some (v, x) ∧ expired_at now x = true.
Proof.
  unfold keys1. rewrite elem_of_dom. split.
  - intros [[v x] [? ?]%map_lookup_filter_Some]. by exists v, x.
  - intros (v & x & ? & ?). exists (v, x). by apply map_lookup_filter_Some.
Qed.

Lemma elem_of_keys2 {B V} `{Countable B} (exp : V → expiry) (now : Z) (m : gmap (string * B) V) (k : string) :
  k ∈ keys2 exp now m ↔ ∃ (b : B) (v : V), m !! (k, b) = Some v ∧ expired_at now (exp v) = true.
Proof.
  unfold keys2. rewrite elem_of_map. setoid_rewrite elem_of_dom. split.
  - intros ([k' b] & -> & [v [? ?]%map_lookup_filter_Some]). by exists b, v.
  - intros (b & v & ? & ?). exists (k, b). split; [done|]. exists v. by apply map_lookup_filter_Some.
Qed.

Lemma purge1_lookup keys expired now m k :
  purge1 keys expired now m !! k =
    if decide ((k ∈ expired) ∨ k ∈ keys ∩ keys1 now m) then None else m !! k.
Proof.
  unfold purge1. rewrite map_lookup_filter. destruct (m !! k) as [r|]; cbn; [|by case_decide].
  case_decide as Hd; [rewrite option_guard_False; [done|]|rewrite option_guard_True; [done|]]; cbn; tauto.
Qed.

Lemma purge2_lookup {B V} `{Countable B} (exp : V → expiry) (keys expired : gset string) (now : Z)
    (m : gmap (string * B) V) (k : string) (b : B) :
  purge2 exp keys expired now m !! (k, b) =
    if decide ((k ∈ expired) ∨ k ∈ keys ∩ keys2 exp now m) then None else m !! (k, b).
Proof.
  unfold purge2. rewrite map_lookup_filter. destruct (m !! (k, b)) as [r|]; cbn; [|by case_decide].
  case_decide as Hd; [rewrite option_guard_False; [done|]|rewrite option_guard_True; [done|]]; cbn; tauto.
Qed.

(** The keys whose meta row the cycle deletes as expired. *)
Definition dead_keys (keys : gset string) (now : Z) (m : gmap string (string * expiry)) : gset string :=
  dom (filter (λ p : string * (string * expiry), (p.1 ∈ keys) ∧ expired_at now p.2.2 = true) m).

Lemma elem_of_dead_keys keys now m k : k ∈ dead_keys keys now m ↔ k ∈ keys ∧ k ∈ keys1 now m.
Proof.
  rewrite elem_of_keys1. unfold dead_keys. rewrite elem_of_dom. split.
  - intros [[v x] [? [? ?]]%map_lookup_filter_Some]. split; [done|]. by exists v, x.
  - intros (? & v & x & ? & ?). exists (v, x). by apply map_lookup_filter_Some.
Qed.

(** The tables after the deletions in the data tables, and at the end. *)
Definition data_swept (keys : gset string) (now : Z) (t : tables) : tables :=
  let dead := dead_keys keys now (kv_meta t) in
  Tables (filter (λ p : string * (string * expiry), ¬ ((p.1 ∈ keys) ∧ expired_at now p.2.2 = true)) (kv_meta t))
    (purge1 keys dead now (kv_strings t)) (purge2 snd keys dead now (kv_hashes t))
    (purge2 snd keys dead now (kv_lists t)) (purge2 (λ x, x) keys dead now (kv_sets t))
    (purge2 snd keys dead now (kv_zsets t)) (purge1 keys dead now (kv_hyperloglog t)).
Definition swept (keys : gset string) (now : Z) (t : tables) : tables :=
  let t' := data_swept keys now t in
  upd_meta (filter (λ p : string * (string * expiry), ¬ ((p.1 ∈ keys) ∧ has_data p.2.1 p.1 t' = false))) t'.

Lemma swept_nothing now t : swept ∅ now t = t.
Proof.
  assert (dead_keys ∅ now (kv_meta t) = ∅) as Hd.
  { apply set_eq. intros k. rewrite elem_of_dead_keys. set_solver. }
  assert (∀ m : gmap string (string * expiry), purge1 ∅ ∅ now m = m) as H1.
  { intros m. apply map_eq. intros k. rewrite purge1_lookup, decide_False; [done|set_solver]. }
  unfold swept, data_swept. rewrite Hd, !H1. destruct t as [m st h l se z hl]. unfold upd_meta. cbn [kv_meta kv_strings kv_hashes kv_lists kv_sets kv_zsets kv_hyperloglog].
  f_equal; try (apply map_eq; intros [k b]; rewrite purge2_lookup, decide_False; [done|set_solver]).
  apply map_eq. intros k. rewrite !map_lookup_filter. destruct (m !! k) as [r|]; [|done]. cbn.
  rewrite !option_guard_True; [done|cbn; set_solver..].
Qed.

Lemma runs_sweep now gonow limit free t :
  let n := timestamptz gonow in
  runs now gonow (sweep true limit free) t
    (swept (filter (λ k, free k = true) (⋃ (limit <$> sources n t))) n t) (Ok tt).
Proof.
  intros n. unfold sweep. step. cbn [negb]. step. step. change (timestamptz (go_now (quiet now gonow))) with n.
  set (cands := ⋃ (limit <$> sources n t)). destruct (decide (size cands = 0)) as [Hz|Hz].
  { rewrite bool_decide_true by done. eapply runs_eq; [apply runs_ret| |done].
    apply size_empty_inv in Hz. assert (filter (λ k, free k = true) cands = ∅) as -> by set_solver.
    symmetry. apply swept_nothing. }
  rewrite bool_decide_false by done. step. set (keys := filter (λ k, free k = true) cands).
  destruct (decide (size keys = 0)) as [Hk|Hk].
  { rewrite bool_decide_true by done. eapply runs_eq; [apply runs_ret| |done].
    apply size_empty_inv in Hk. assert (keys = ∅) as -> by set_solver. symmetry. apply swept_nothing. }
  rewrite bool_decide_false by done. eapply runs_bind; [by apply runs_stmt|]. cbv beta. repeat step.
  eapply runs_eq; [apply runs_exec|reflexivity|done].
Qed.

(** What is left of the rows of a key in a table after a cycle that got hold
    of the key: all of them, or none when one of them is expired. *)
Definition kept_rows (k : string) (n : Z) (t t' : tables) : Prop :=
  kv_strings t' !! k = (if decide (k ∈ keys1 n (kv_strings t)) then None else kv_strings t !! k) ∧
  (∀ f, kv_hashes t' !! (k, f) =
          if decide (k ∈ keys2 snd n (kv_hashes t)) then None else kv_hashes t !! (k, f)) ∧
  (∀ i, kv_lists t' !! (k, i) =
          if decide (k ∈ keys2 snd n (kv_lists t)) then None else kv_lists t !! (k, i)) ∧
  (∀ m, kv_sets t' !! (k, m) =
          if decide (k ∈ keys2 (λ x, x) n (kv_sets t)) then None else kv_sets t !! (k, m)) ∧
  (∀ m, kv_zsets t' !! (k, m) =
          if decide (k ∈ keys2 snd n (kv_zsets t)) then None else kv_zsets t !! (k, m)) ∧
  kv_hyperloglog t' !! k =
    (if decide (k ∈ keys1 n (kv_hyperloglog t)) then None else kv_hyperloglog t !! k).

Lemma swept_meta keys n t k :
  kv_meta (swept keys n t) !! k =
    if decide (k ∈ keys) then
      match kv_meta t !! k with
      | Some (kt, x) => if expired_at n x then None
                        else if has_data kt k (swept keys n t) then Some (kt, x) else None
      | None => None
      end
    else kv_meta t !! k.
Proof.
  unfold swept. cbn [kv_meta upd_meta data_swept]. rewrite !map_lookup_filter.
  destruct (kv_meta t !! k) as [[kt x]|] eqn:E; cbn; [|by case_decide].
  change (has_data kt k (upd_meta _ ?a)) with (has_data kt k a).
  set (d := data_swept keys n t).
  case_decide as Hk.
  - destruct (expired_at n x) eqn:Hx; [rewrite option_guard_False by (cbn; tauto); done|].
    rewrite option_guard_True by (cbn; naive_solver). cbn.
    destruct (has_data kt k d) eqn:Hd; [rewrite option_guard_True by naive_solver; done|].
    rewrite option_guard_False by naive_solver. done.
  - rewrite option_guard_True by (cbn; tauto). cbn. by rewrite option_guard_True by (cbn; tauto).
Qed.

Lemma swept_out keys n t k : k ∉ keys → same_key k t (swept keys n t).
Proof.
  intros Hk. assert (k ∉ dead_keys keys n (kv_meta t)) as Hd by (rewrite elem_of_dead_keys; tauto).
  split_and!; [by rewrite swept_meta, decide_False|..]; intros; unfold swept, data_swept;
    cbn [kv_strings kv_hashes kv_lists kv_sets kv_zsets kv_hyperloglog upd_meta];
    rewrite ?purge1_lookup, ?purge2_lookup; rewrite decide_False by set_solver; done.
Qed.

Lemma swept_dead keys n t k : k ∈ keys → k ∈ keys1 n (kv_meta t) → absent k (swept keys n t).
Proof.
  intros Hk Hd. assert (k ∈ dead_keys keys n (kv_meta t)) as Hd' by by rewrite elem_of_dead_keys.
  apply elem_of_keys1 in Hd as (kt & x & Em & Hx).
  unfold absent, same_key. split_and!; [rewrite swept_meta, decide_True, Em, Hx by done; done|..];
    intros; unfold swept, data_swept;
    cbn [kv_strings kv_hashes kv_lists kv_sets kv_zsets kv_hyperloglog upd_meta];
    rewrite ?purge1_lookup, ?purge2_lookup; rewrite decide_True by tauto; done.
Qed.

Lemma swept_kept keys n t k :
  k ∈ keys → k ∉ keys1 n (kv_meta t) → kept_rows k n t (swept keys n t).
Proof.
  intros Hk Hd. assert (k ∉ dead_keys keys n (kv_meta t)) as Hd' by (rewrite elem_of_dead_keys; tauto).
  assert (∀ X : gset string, (k ∈ dead_keys keys n (kv_meta t)) ∨ k ∈ keys ∩ X ↔ k ∈ X) as HX by set_solver.
  unfold kept_rows, swept, data_swept.
  cbn [kv_strings kv_hashes kv_lists kv_sets kv_zsets kv_hyperloglog upd_meta].
  split_and!; intros; rewrite ?purge1_lookup, ?purge2_lookup; apply decide_ext, HX.
Qed.

(** C35. One cleanup cycle. It only touches keys that it picked (some row is
    expired, or the type's table holds no row) and whose lock was free: every
    other key keeps every row. A picked key whose meta row is expired is gone
    from every table. Any other picked key keeps, in each table, all its rows
    or none, depending on whether one of them is expired there; its meta row
    stays as long as data of its type is left. *)
Theorem sweep_correct now gonow limit free t :
  (∀ X, limit X ⊆ X) →
  let n := timestamptz gonow in
  let picked := filter (λ k, free k = true) (⋃ (limit <$> sources n t)) in
  ∃ t', run now gonow (sweep true limit free) t = (t', Ok tt) ∧
    (∀ k, (k ∉ picked) → same_key k t t') ∧
    (∀ k, (∀ X, X ∈ sources n t → k ∉ X) → same_key k t t') ∧
    (∀ k, k ∈ picked → k ∈ keys1 n (kv_meta t) → absent k t') ∧
    (∀ k, k ∈ picked → (k ∉ keys1 n (kv_meta t)) → kept_rows k n t t' ∧
       kv_meta t' !! k = match kv_meta t !! k with
                         | Some (kt, x) => if has_data kt k t' then Some (kt, x) else None
                         | None => None
                         end).
Proof.
  intros Hlim n picked. exists (swept picked n t).
  split; [apply runs_run, runs_sweep|]. split; [|split; [|split]].
  - intros k Hk. by apply swept_out.
  - intros k Hk. apply swept_out. unfold picked. rewrite elem_of_filter. intros [_ Hu].
    apply elem_of_union_list in Hu as (X & HX & Hin). apply list_elem_of_fmap in HX as (Y & -> & HY).
    by apply (Hk Y HY), Hlim.
  - intros k Hk Hd. by apply swept_dead.
  - intros k Hk Hd. split; [by apply swept_kept|]. rewrite swept_meta, decide_True by done.
    destruct (kv_meta t !! k) as [[kt x]|] eqn:Em; [|done].
    destruct (expired_at n x) eqn:Hx; [|done]. exfalso. apply Hd, elem_of_keys1. by exists kt, x.
Qed.

(** A hash with a live and an expired field, a key that expired, one that
    lives. *)
Definition db_sweep : tables :=
  Tables {[ "h" := ("hash", None); "old" := ("string", Some 50%Z); "new" := ("string", None) ]}
    {[ "old" := ("1", Some 50%Z); "new" := ("2", None) ]}
    {[ ("h", "f") := ("v", Some 50%Z); ("h", "g") := ("w", None) ]} ∅ ∅ ∅ ∅.

Lemma sweep_correct_witness :
  ∃ t', run 100 100000 (sweep true (λ X, X) (λ _, true)) db_sweep = (t', Ok tt) ∧
        absent "old" t' ∧ same_key "new" db_sweep t'.
Proof.
  destruct (sweep_correct 100 100000 (λ X, X) (λ _, true) db_sweep) as (t' & E & _ & Hlive & Hdead & _);
    [done|]. exists t'. split; [exact E|]. split.
  - apply Hdead; apply (bool_decide_unpack _); vm_compute; exact I.
  - apply Hlive. apply Forall_forall. apply (bool_decide_unpack _). vm_compute. exact I.
Defined.

(** Live data is lost: EXPIRE gives every field of the hash a deadline, HSET
    then adds a field without one (and removes the key's TTL, so TTL answers
    that there is none); when the deadline passes, HGET still reads the new
    field, until the next cycle deletes it with the old ones. *)
Lemma sweep_loses_live_field :
  let t0 := Tables {[ "h" := ("hash", None) ]} ∅ {[ ("h", "f") := ("v", None) ]} ∅ ∅ ∅ ∅ in
  let t1 := (run 0 0 (expire "h" 60000000 (MkExpireOptions false false false false)) t0).1 in
  let t2 := (run 10 10000 (hSet "h" [("g", "w")]) t1).1 in
  let t3 := (run 70000 70000000 (sweep true (λ X, X) (λ _, true)) t2).1 in
  (run 70000 70000000 (pttl "h") t2).2 = Ok (-1)%Z ∧
  (run 70000 70000000 (hGet "h" "g") t2).2 = Ok (Some "w") ∧
  (run 70000 70000000 (hGet "h" "g") t3).2 = Ok None.
Proof. split_and!; vm_compute; reflexivity. Qed.

End Cleanup.
