(* ===== verification/Leader.v ===== *)
(** * Leader election: internal/leader/election.go, k8s.go

    Every instance runs [tick] every two seconds against one Lease object of
    the Kubernetes API. The code is written here as a [prog]: the calls it
    makes to the API, the clock readings and the stores to the [Election]
    fields, in their order, with everything in between a plain function.
    [step] interleaves the programs of any number of pods, crashes and
    restarts included.

    The API server is not part of the repository. [api] states what its
    documentation promises: a GET answers the current object or fails, a
    write is accepted only when it carries the current resource version (or,
    for a POST, when there is no object), and a write that fails for the
    client may still take effect later ([step_late]). Resource versions are a
    parameter [rv], different for different versions.

    Times are nanoseconds since the epoch. *)
From stdpp Require Import gmap strings list relations.
From Stdlib Require Import ZArith Lia.
From S2P Require Import Prelude GoStd.

Module Leader.
Local Open Scope Z_scope.

Definition second : Z := 10 ^ 9.
Definition leaseName : string := "postkeys-leader".
Definition leaseDuration : Z := 15 * second.
Definition renewDeadline : Z := 10 * second.
Definition retryPeriod : Z := 2 * second.

(** A MicroTime string: one that [time.Parse] accepts, with the microseconds
    since the epoch it stands for, or another text. *)
Inductive timestamp := Stamp (us : Z) | Garbled (text : string).

(** [microTime] drops what is below a microsecond. *)
Definition microTime (t : Z) : timestamp := Stamp (t / 1000).
Definition parseTime (s : timestamp) : option Z :=
  match s with Stamp us => Some (us * 1000) | Garbled _ => None end.

Record leaseSpec := MkSpec {
  HolderIdentity : option string;
  LeaseDurationSeconds : option Z;
  AcquireTime : option timestamp;
  RenewTime : option timestamp;
  LeaseTransitions : option Z
}.

Record lease := MkLease {
  Kind : string;
  APIVersion : string;
  Name : string;
  Namespace : string;
  ResourceVersion : string;
  Spec : leaseSpec
}.

Definition with_spec (s : leaseSpec) (l : lease) : lease :=
  MkLease (Kind l) (APIVersion l) (Name l) (Namespace l) (ResourceVersion l) s.

(** ** The API client *)

Inductive request :=
| GET (name : string)
| POST (l : lease)
| PUT (l : lease)
| PATCH (leader : bool).

(** What [http.Client.Do] and reading the body give: the lease of a body
    that decodes to one, or none. *)
Inductive http :=
| NoResponse (e : goerror)
| Response (status : Z) (read_err : option goerror) (body : option lease).

Definition errStatus (status : Z) : goerror := Errorf ("kubernetes API returned " +:+ Strconv.Itoa status).

Definition doLease (r : http) : option lease * Z * option goerror :=
  match r with
  | NoResponse e => (None, 0, Some e)
  | Response status (Some e) _ => (None, status, Some e)
  | Response status None body =>
      if (200 <=? status) && (status <? 300) then
        match body with
        | Some l => (Some l, status, None)
        | None => (None, status, Some (Errorf "decode lease"))
        end
      else (None, status, Some (errStatus status))
  end.

Definition getLease (r : http) : option lease * Z * option goerror :=
  let '(l, status, err) := doLease r in
  if status =? 404 then (None, status, None) else (l, status, err).

Definition createLease (podName namespace name : string) (durationSeconds now : Z) : request :=
  POST (MkLease "Lease" "coordination.k8s.io/v1" name namespace ""
    (MkSpec (Some podName) (Some durationSeconds) (Some (microTime now)) (Some (microTime now)) (Some 0))).

Definition updateLease (l : lease) : request :=
  PUT (MkLease "Lease" "coordination.k8s.io/v1" (Name l) (Namespace l) (ResourceVersion l) (Spec l)).

Definition setLeaderLabel (r : http) : option goerror :=
  match r with
  | NoResponse e => Some e
  | Response status _ _ => if 300 <=? status then Some (errStatus status) else None
  end.

(** ** The election *)

Record Election := MkElection { isLeader : bool; lastRenew : Z }.

Inductive prog :=
| Done
| Now (k : Z → prog)
| Http (r : request) (k : http → prog)
| Store (e : Election) (k : prog).

Definition leaseExpired (l : lease) (now : Z) : bool :=
  match RenewTime (Spec l), LeaseDurationSeconds (Spec l) with
  | Some t, Some d =>
      match parseTime t with
      | Some rt => rt + d * second <? now
      | None => true
      end
  | _, _ => true
  end.

(** The end of [attempt] after a write: acquired, a conflict, or an error. *)
Definition written (k : bool → option goerror → prog) (r : http) : prog :=
  match doLease r with
  | (_, _, None) => k true None
  | (_, status, Some e) => if status =? 409 then k false None else k false (Some e)
  end.

Section Pod.
Context (podName namespace : string).

Definition create (k : bool → option goerror → prog) (now : Z) : prog :=
  Http (createLease podName namespace leaseName 15 now) (written k).

Definition renewed (l : lease) (now : Z) : lease :=
  with_spec (MkSpec (HolderIdentity (Spec l))
      (Some (default 15 (LeaseDurationSeconds (Spec l))))
      (AcquireTime (Spec l)) (Some (microTime now)) (LeaseTransitions (Spec l))) l.

Definition takenOver (l : lease) (now : Z) : lease :=
  with_spec (MkSpec (Some podName) (Some 15) (Some (microTime now)) (Some (microTime now))
      (Some (default 0 (LeaseTransitions (Spec l)) + 1))) l.

(** [attempt] once it has a lease and the time. *)
Definition contend (l : lease) (k : bool → option goerror → prog) (now : Z) : prog :=
  if bool_decide (default "" (HolderIdentity (Spec l)) = podName) then
    Http (updateLease (renewed l now)) (written k)
  else if negb (leaseExpired l now) then k false None
  else Http (updateLease (takenOver l now)) (written k).

Definition attempt (k : bool → option goerror → prog) : prog :=
  Http (GET leaseName) (λ r,
    match getLease r with
    | (_, _, Some e) => k false (Some e)
    | (l, status, None) =>
        match (if status =? 404 then None else l) with
        | None => Now (create k)
        | Some l => Now (contend l k)
        end
    end).

(** [tick] after the attempt. *)
Definition settle (e : Election) (acquired : bool) (err : option goerror) : prog :=
  Now (λ now,
    if acquired then
      Store (MkElection (isLeader e) now)
        (if negb (isLeader e) then
           Store (MkElection true now) (Http (PATCH true) (λ _, Done))
         else Done)
    else if negb (isLeader e) then Done
    else if bool_decide (err ≠ None) && (now - lastRenew e <? renewDeadline) then Done
    else Store (MkElection false (lastRenew e)) (Http (PATCH false) (λ _, Done))).

Definition tick (e : Election) : prog := attempt (settle e).

Definition surrendered (l : lease) : lease :=
  with_spec (MkSpec (Some "") (LeaseDurationSeconds (Spec l)) (AcquireTime (Spec l))
      (Some (microTime 0)) (LeaseTransitions (Spec l))) l.

Definition surrender (e : Election) : prog :=
  let finish := Http (PATCH false) (λ _, Store (MkElection false (lastRenew e)) Done) in
  Http (GET leaseName) (λ r,
    match getLease r with
    | (Some l, _, None) =>
        if bool_decide (HolderIdentity (Spec l) = Some podName) then
          Http (updateLease (surrendered l)) (λ _, finish)
        else finish
    | _ => finish
    end).

(** [Stop], once the loop has ended. *)
Definition Stop (e : Election) : prog := if isLeader e then surrender e else Done.

End Pod.

(** ** Pods and the API server together *)

(** A pod: its [Election], the time its current or next tick is due, whether
    that is the first one, the call it is in, whether it is shutting down. *)
Record pod := MkPod {
  el : Election; due : Z; first : bool; running : option prog; stopping : bool
}.

Record world := MkWorld {
  clock : Z;
  hist : list leaseSpec;   (** all versions of the Lease object, the newest last *)
  sent : list request;     (** writes that failed for their client *)
  pods : gmap string pod
}.

Section Cluster.
Context (rv : nat → string) (namespace : string) (overrun : Z).

Definition accepts (h : list leaseSpec) (r : request) : option leaseSpec :=
  match r with
  | POST l => match h with [] => Some (Spec l) | _ => None end
  | PUT l => if bool_decide (h ≠ [] ∧ ResourceVersion l = rv (length h)) then Some (Spec l) else None
  | _ => None
  end.

Definition failed (r : http) : Prop := ∃ e, (doLease r).2 = Some e.

Inductive api (h : list leaseSpec) : request → http → list leaseSpec → list request → Prop :=
| api_get name l s :
    last h = Some s → Spec l = s → ResourceVersion l = rv (length h) →
    api h (GET name) (Response 200 None (Some l)) h []
| api_get_none name e b : h = [] → api h (GET name) (Response 404 e b) h []
| api_get_fail name r : failed r → (getLease r).2 ≠ None → api h (GET name) r h []
| api_write r s status l : accepts h r = Some s → (200 <= status < 300) →
    api h r (Response status None (Some l)) (h ++ [s]) []
| api_write_fail r resp : (if r is POST _ then True else if r is PUT _ then True else False) → failed resp →
    api h r resp h [r]
| api_label b resp : api h (PATCH b) resp h [].

Definition with_running (g : option prog) (pd : pod) : pod :=
  MkPod (el pd) (due pd) (first pd) g (stopping pd).

(** The end of a tick: the ticker is created after the first one. *)
Definition finished (t : Z) (pd : pod) : pod :=
  MkPod (el pd) (if first pd then t + retryPeriod else due pd + retryPeriod) false None (stopping pd).

Inductive step : world → world → Prop :=
| step_time w t :
    clock w <= t →
    (∀ p pd, pods w !! p = Some pd → stopping pd = false → t <= due pd + retryPeriod + overrun) →
    step w (MkWorld t (hist w) (sent w) (pods w))
| step_join w p e :
    p ≠ "" → pods w !! p = None → isLeader e = false →
    step w (MkWorld (clock w) (hist w) (sent w) (<[p := MkPod e (clock w) true None false]> (pods w)))
| step_crash w p pd :
    pods w !! p = Some pd → step w (MkWorld (clock w) (hist w) (sent w) (delete p (pods w)))
| step_tick w p pd :
    pods w !! p = Some pd → running pd = None → stopping pd = false → due pd <= clock w →
    step w (MkWorld (clock w) (hist w) (sent w)
      (<[p := with_running (Some (tick p namespace (el pd))) pd]> (pods w)))
| step_stop w p pd :
    pods w !! p = Some pd → running pd = None → stopping pd = false →
    step w (MkWorld (clock w) (hist w) (sent w)
      (<[p := MkPod (el pd) (due pd) (first pd) (Some (Stop p (el pd))) true]> (pods w)))
| step_now w p pd k :
    pods w !! p = Some pd → running pd = Some (Now k) →
    step w (MkWorld (clock w) (hist w) (sent w) (<[p := with_running (Some (k (clock w))) pd]> (pods w)))
| step_store w p pd e k :
    pods w !! p = Some pd → running pd = Some (Store e k) →
    step w (MkWorld (clock w) (hist w) (sent w)
      (<[p := MkPod e (due pd) (first pd) (Some k) (stopping pd)]> (pods w)))
| step_http w p pd r k resp h' lost :
    pods w !! p = Some pd → running pd = Some (Http r k) → api (hist w) r resp h' lost →
    step w (MkWorld (clock w) h' (lost ++ sent w) (<[p := with_running (Some (k resp)) pd]> (pods w)))
| step_done w p pd :
    pods w !! p = Some pd → running pd = Some Done →
    step w (MkWorld (clock w) (hist w) (sent w) (<[p := finished (clock w) pd]> (pods w)))
| step_late w r s :
    r ∈ sent w → accepts (hist w) r = Some s →
    step w (MkWorld (clock w) (hist w ++ [s]) (sent w) (pods w)).

Definition initial (w : world) : Prop := 0 <= clock w ∧ hist w = [] ∧ sent w = [] ∧ pods w = ∅.
Definition reachable (w : world) : Prop := ∃ w0, initial w0 ∧ rtc step w0 w.

(** A pod that acts as the leader and is not being shut down. *)
Definition leads (w : world) (p : string) : Prop :=
  ∃ pd, pods w !! p = Some pd ∧ stopping pd = false ∧ isLeader (el pd) = true.

End Cluster.

(** ** The invariant *)

Section Invariant.
Context (rv : nat → string) `{!Inj (=) (=) rv} (namespace : string).

Definition spec_ok (t : Z) (s : leaseSpec) : Prop :=
  LeaseDurationSeconds s = Some 15 ∧ ∃ u, RenewTime s = Some (Stamp u) ∧ u * 1000 <= t.

(** How the new content of a PUT relates to the version it was made from. *)
Definition renews (s s' : leaseSpec) : Prop :=
  HolderIdentity s' = HolderIdentity s ∧
  ∃ u u', RenewTime s = Some (Stamp u) ∧ RenewTime s' = Some (Stamp u') ∧ u <= u'.
Definition outlived (t : Z) (s : leaseSpec) : Prop :=
  ∃ u, RenewTime s = Some (Stamp u) ∧ u * 1000 + leaseDuration < t.
Definition gives_up (s : leaseSpec) : Prop := HolderIdentity s = Some "".

Definition put_ok (t : Z) (h : list leaseSpec) (l : lease) : Prop :=
  ∃ n s, ResourceVersion l = rv (S n) ∧ h !! n = Some s ∧
    (renews s (Spec l) ∨ outlived t s ∨ gives_up (Spec l)).

Definition write_spec (r : request) : option leaseSpec :=
  match r with POST l | PUT l => Some (Spec l) | _ => None end.

Definition write_ok (t : Z) (h : list leaseSpec) (r : request) : Prop :=
  (∀ s, write_spec r = Some s → spec_ok t s) ∧ (∀ l, r = PUT l → put_ok t h l).

(** Pod [p] holds the newest version, renewed at [a] or later, and no old
    surrender of [p] can still be accepted. *)
Definition claim (w : world) (p : string) (a : Z) : Prop :=
  (∃ s u, last (hist w) = Some s ∧ HolderIdentity s = Some p ∧ RenewTime s = Some (Stamp u) ∧ a / 1000 <= u) ∧
  ∀ l n s, PUT l ∈ sent w → gives_up (Spec l) → ResourceVersion l = rv (S n) → hist w !! n = Some s →
    HolderIdentity s = Some p → (S n < length (hist w))%nat.

(** Acquired during the tick that is running. *)
Definition fresh (w : world) (p : string) (pd : pod) : Prop :=
  ∃ a, claim w p a ∧ due pd <= a ∧ lastRenew (el pd) <= clock w.

(** Acquired in an earlier tick, with at most five failed ones since. *)
Definition settled (w : world) (p : string) (pd : pod) : Prop :=
  first pd = false ∧ ∃ a c m, claim w p a ∧ lastRenew (el pd) <= c ∧ c <= a + retryPeriod ∧ 0 <= m <= 5 ∧ due pd = c + m * retryPeriod.

Inductive active_loc (w : world) (p : string) (pd : pod) : prog → Prop :=
| at_tick : active_loc w p pd (tick p namespace (el pd))
| at_create : active_loc w p pd (Now (create p namespace (settle (el pd))))
| at_contend l n s :
    Spec l = s → ResourceVersion l = rv (S n) → hist w !! n = Some s →
    active_loc w p pd (Now (contend p l (settle (el pd))))
| at_write r s a :
    write_ok (clock w) (hist w) r → write_spec r = Some s → HolderIdentity s = Some p →
    RenewTime s = Some (microTime a) → due pd <= a →
    active_loc w p pd (Http r (written (settle (el pd))))
| at_acquired a : claim w p a → due pd <= a → active_loc w p pd (settle (el pd) true None)
| at_refused err : active_loc w p pd (settle (el pd) false err)
| at_renewed a now :
    claim w p a → due pd <= a → now <= clock w →
    active_loc w p pd (Store (MkElection (isLeader (el pd)) now)
      (if negb (isLeader (el pd)) then Store (MkElection true now) (Http (PATCH true) (λ _, Done)) else Done))
| at_promote a now :
    claim w p a → due pd <= a → now <= clock w →
    active_loc w p pd (Store (MkElection true now) (Http (PATCH true) (λ _, Done)))
| at_demote lr b : active_loc w p pd (Store (MkElection false lr) (Http (PATCH b) (λ _, Done)))
| at_label b : (isLeader (el pd) = true → fresh w p pd) → active_loc w p pd (Http (PATCH b) (λ _, Done))
| at_done :
    (isLeader (el pd) = true → fresh w p pd ∨ due pd < lastRenew (el pd) + renewDeadline) →
    active_loc w p pd Done.

(** A program that writes nothing to the Lease. *)
Inductive harmless : prog → Prop :=
| harmless_done : harmless Done
| harmless_store e k : harmless k → harmless (Store e k)
| harmless_label b k : (∀ r, harmless (k r)) → harmless (Http (PATCH b) k).

Inductive stop_loc (w : world) (p : string) : prog → Prop :=
| at_surrender e : stop_loc w p (surrender p e)
| at_give_up l n s k :
    ResourceVersion l = rv (S n) → hist w !! n = Some s → HolderIdentity s = Some p → gives_up (Spec l) →
    write_ok (clock w) (hist w) (PUT l) → (∀ r, harmless (k r)) → stop_loc w p (Http (PUT l) k)
| at_harmless g : harmless g → stop_loc w p g.

Definition active_ok (w : world) (p : string) (pd : pod) : Prop :=
  clock w <= due pd + retryPeriod ∧
  (isLeader (el pd) = true → fresh w p pd ∨ settled w p pd) ∧
  match running pd with
  | None => isLeader (el pd) = true → settled w p pd
  | Some g => due pd <= clock w ∧ active_loc w p pd g
  end.

Definition pod_ok (w : world) (p : string) (pd : pod) : Prop :=
  p ≠ "" ∧
  if stopping pd then (∀ g, running pd = Some g → stop_loc w p g) else active_ok w p pd.

Record inv (w : world) : Prop := {
  inv_clock : 0 <= clock w;
  inv_hist : ∀ n s, hist w !! n = Some s → spec_ok (clock w) s;
  inv_sent : ∀ r, r ∈ sent w → write_ok (clock w) (hist w) r;
  inv_pods : ∀ p pd, pods w !! p = Some pd → pod_ok w p pd
}.

(** *** Time and history only grow *)

Lemma spec_ok_mono t t' s : t <= t' → spec_ok t s → spec_ok t' s.
Proof. intros ? (? & u & ? & ?). split; [done|]. exists u. split; [done|lia]. Qed.

Lemma put_ok_mono t t' h h' l : t <= t' → h `prefix_of` h' → put_ok t h l → put_ok t' h' l.
Proof.
  intros ? Hh (n & s & ? & ? & Hk). exists n, s. split_and!; [done|by eapply prefix_lookup_Some|].
  destruct Hk as [?|[(u & ? & ?)|?]]; [by left| |by right; right]. right; left. exists u. split; [done|lia].
Qed.

Lemma write_ok_mono t t' h h' r : t <= t' → h `prefix_of` h' → write_ok t h r → write_ok t' h' r.
Proof.
  intros ? ? [H1 H2]. split; [intros s ?; eapply spec_ok_mono; eauto|intros l ->; eapply put_ok_mono; eauto].
Qed.

(** The end of the lease of a claim is at least a second away. *)
Definition tenured (w : world) (p : string) (a : Z) : Prop := claim w p a ∧ clock w <= a + 14 * second.

Ltac times := unfold retryPeriod, renewDeadline, leaseDuration, second in *; lia.

Lemma fresh_tenured w p pd a : claim w p a → due pd <= a → clock w <= due pd + retryPeriod → tenured w p a.
Proof. intros ? ? ?. split; [done|times]. Qed.

Lemma leader_tenured w p pd :
  clock w <= due pd + retryPeriod → fresh w p pd ∨ settled w p pd → ∃ a, tenured w p a.
Proof.
  intros ? [(a & ? & ? & ?)|(_ & a & c & m & ? & ? & ? & ? & ?)]; exists a; (split; [done|times]).
Qed.

(** [w'] is later than [w], and what pod [p] claimed it still claims. *)
Definition later (p : string) (w w' : world) : Prop :=
  clock w <= clock w' ∧ hist w `prefix_of` hist w' ∧ ∀ a, tenured w p a → claim w' p a.

Lemma fresh_later w w' p pd : later p w w' → clock w <= due pd + retryPeriod → fresh w p pd → fresh w' p pd.
Proof.
  intros (? & _ & Hl) ? (a & ? & ? & ?). exists a. split_and!; [|done|lia]. by eapply Hl, fresh_tenured.
Qed.

Lemma settled_later w w' p pd : later p w w' → clock w <= due pd + retryPeriod → settled w p pd → settled w' p pd.
Proof.
  intros (_ & _ & Hl) ? (Hf & a & c & m & ? & ? & ? & ? & ?). split; [exact Hf|]. exists a, c, m. split_and!; try done; try lia.
  apply Hl. split; [done|times].
Qed.

Lemma active_loc_later w w' p pd g :
  later p w w' → clock w <= due pd + retryPeriod → active_loc w p pd g → active_loc w' p pd g.
Proof.
  intros HL Hc Hg. pose proof HL as (Ht & Hh & Hl).
  destruct Hg as [| |l n s ? ? ?|r s a Hw ? ? ? ?|a ? ?| |a now ? ? ?|a now ? ? ?| |b Hf|Hf].
  - apply at_tick.
  - apply at_create.
  - apply at_contend with n s; [done|done|by eapply prefix_lookup_Some].
  - apply at_write with s a; try done. by eapply write_ok_mono.
  - apply at_acquired with a; [|done]. by eapply Hl, fresh_tenured.
  - apply at_refused.
  - apply at_renewed with a; [|done|lia]. by eapply Hl, fresh_tenured.
  - apply at_promote with a; [|done|lia]. by eapply Hl, fresh_tenured.
  - apply at_demote.
  - apply at_label. intros ?. by eapply fresh_later, Hf.
  - apply at_done. intros Hi. destruct (Hf Hi) as [?|?]; [left; by eapply fresh_later|by right].
Qed.

Lemma active_loc_pod w p pd pd' g :
  el pd' = el pd → due pd' = due pd → active_loc w p pd g → active_loc w p pd' g.
Proof.
  intros He Hd Hg. assert (fresh w p pd → fresh w p pd') as Hf by (unfold fresh; by rewrite He, Hd).
  destruct Hg; rewrite <-?He; econstructor; rewrite ?He, ?Hd; eauto.
  intros Hi. destruct (H Hi); eauto.
Qed.

Lemma stop_loc_later w w' p g :
  clock w <= clock w' → hist w `prefix_of` hist w' → stop_loc w p g → stop_loc w' p g.
Proof.
  intros Ht Hh [e|l n s k ? ? ? ? ? ?|g' ?]; [apply at_surrender| |by apply at_harmless].
  apply at_give_up with n s; try done; [by eapply prefix_lookup_Some|by eapply write_ok_mono].
Qed.

Lemma pod_ok_later w w' p pd :
  later p w w' → (stopping pd = false → clock w' <= due pd + retryPeriod) → pod_ok w p pd → pod_ok w' p pd.
Proof.
  intros HL Hc' [Hp Hk]. split; [done|]. pose proof HL as (Ht & Hh & _). destruct (stopping pd).
  - intros g Hg. by eapply stop_loc_later, Hk.
  - destruct Hk as (Hc & Hi & Hr). split_and!; [by apply Hc'|..].
    + intros Hd. destruct (Hi Hd); [left; by eapply fresh_later|right; by eapply settled_later].
    + destruct (running pd) as [g|]; [|intros Hd; by eapply settled_later, Hr].
      destruct Hr. split; [lia|by eapply active_loc_later].
Qed.

(** *** Claims under the writes of the pods *)

Lemma accepts_spec h r s : accepts rv h r = Some s → write_spec r = Some s.
Proof. destruct r as [|l|l|]; cbn; [done|by destruct h|by case_bool_decide|done]. Qed.

(** A write that is accepted was made from the newest version. *)
Lemma accepted_put t h r s s0 :
  write_ok t h r → accepts rv h r = Some s → last h = Some s0 →
  renews s0 s ∨ outlived t s0 ∨ gives_up s.
Proof.
  intros [_ Hp] Ha Hl. destruct r as [|l|l|]; cbn in Ha; try done; [by destruct h|].
  case_bool_decide as Hv; [|done]. destruct Hv as [_ Hv]. injection Ha as <-.
  destruct (Hp l eq_refl) as (n & s' & Hrv & Hn & Hk).
  assert (length h = S n) as Hlen by (apply (inj rv); congruence).
  rewrite last_lookup, Hlen in Hl. cbn in Hl. by simplify_eq.
Qed.

Lemma sent_below w l n :
  inv w → PUT l ∈ sent w → ResourceVersion l = rv (S n) → (n < length (hist w))%nat.
Proof.
  intros Hi Hin Hrv. destruct (inv_sent w Hi _ Hin) as [_ Hp].
  destruct (Hp l eq_refl) as (n' & s & Hrv' & Hn & _).
  assert (S n = S n') as [= ->] by (apply (inj rv); congruence). by eapply lookup_lt_Some.
Qed.

Lemma append_guard w l n s s' p :
  inv w → PUT l ∈ sent w → gives_up (Spec l) → ResourceVersion l = rv (S n) → (hist w ++ [s]) !! n = Some s' →
  HolderIdentity s' = Some p → (S n < length (hist w ++ [s]))%nat.
Proof. intros Hi Hin _ Hrv _ _. rewrite length_app. cbn. pose proof (sent_below w l n Hi Hin Hrv). lia. Qed.

Lemma claim_append w t p a r s ps :
  inv w → tenured w p a → write_ok (clock w) (hist w) r → accepts rv (hist w) r = Some s →
  (gives_up s → ∀ s0, last (hist w) = Some s0 → HolderIdentity s0 ≠ Some p) →
  claim (MkWorld t (hist w ++ [s]) (sent w) ps) p a.
Proof.
  intros Hi [[(s0 & u & Hl & Hh & Hu & Hau) _] Hc] Hw Ha Hg. split; [|intros l n s' Hin; exact (append_guard w l n s s' p Hi Hin)].
  exists s. cbn. rewrite last_snoc.
  destruct (accepted_put _ _ _ _ _ Hw Ha Hl) as [(E & u1 & u2 & E1 & E2 & ?)|[(u1 & E1 & Ho)|Hs]].
  - exists u2. rewrite Hu in E1. injection E1 as <-. split_and!; [done|congruence|done|lia].
  - rewrite Hu in E1. injection E1 as <-. exfalso.
    pose proof (Z.div_mod a 1000). pose proof (Z.mod_pos_bound a 1000). unfold leaseDuration, second in *. lia.
  - by destruct (Hg Hs s0 Hl).
Qed.

Lemma claim_new w t p a s ps :
  inv w → HolderIdentity s = Some p → RenewTime s = Some (microTime a) →
  claim (MkWorld t (hist w ++ [s]) (sent w) ps) p a.
Proof.
  intros Hi Hh Hr. split; [|intros l n s' Hin; exact (append_guard w l n s s' p Hi Hin)].
  exists s, (a / 1000). cbn. rewrite last_snoc. split_and!; [done|done|done|lia].
Qed.

Lemma claim_lost w t p a r ps :
  claim w p a →
  (∀ l n s, r = PUT l → gives_up (Spec l) → ResourceVersion l = rv (S n) → hist w !! n = Some s →
     HolderIdentity s ≠ Some p) →
  claim (MkWorld t (hist w) (r :: sent w) ps) p a.
Proof.
  intros [H1 H2] Hr. split; [done|]. intros l n s [E|Hin]%elem_of_cons Hg Hrv Hn Hp; [|by eapply H2].
  by destruct (Hr l n s).
Qed.

(** *** One pod moves, the others see a later world *)

Lemma other_pods w w' p pd :
  inv w → clock w' = clock w → pods w' = <[p := pd]> (pods w) → pod_ok w' p pd →
  (∀ q, q ≠ p → later q w w') → ∀ q qd, pods w' !! q = Some qd → pod_ok w' q qd.
Proof.
  intros Hi Ht -> Hp Hl q qd [[<- <-]|[Hne Hq]]%lookup_insert_Some; [done|].
  eapply pod_ok_later; [by apply Hl| |by eapply inv_pods].
  rewrite Ht. intros Hs. pose proof (inv_pods w Hi _ _ Hq) as [_ Hk]. rewrite Hs in Hk. by destruct Hk.
Qed.

Lemma later_same p w ps : later p w (MkWorld (clock w) (hist w) (sent w) ps).
Proof. split_and!; [done|done|]. by intros a [? _]. Qed.

(** A step that touches neither the lease nor the clock. *)
Lemma inv_local w p pd ps :
  inv w → ps = <[p := pd]> (pods w) →
  pod_ok (MkWorld (clock w) (hist w) (sent w) ps) p pd → inv (MkWorld (clock w) (hist w) (sent w) ps).
Proof.
  intros Hi -> Hp. split; try apply Hi.
  by eapply other_pods; [exact Hi|done|done|done|intros q _; apply later_same].
Qed.

(** A step that appends a version. *)
Lemma inv_append w p pd r s ps :
  inv w → ps = <[p := pd]> (pods w) → write_ok (clock w) (hist w) r → accepts rv (hist w) r = Some s →
  (gives_up s → ∀ s0, last (hist w) = Some s0 → HolderIdentity s0 = Some p) →
  pod_ok (MkWorld (clock w) (hist w ++ [s]) (sent w) ps) p pd →
  inv (MkWorld (clock w) (hist w ++ [s]) (sent w) ps).
Proof.
  intros Hi -> Hw Ha Hg Hp. split; [apply Hi|..].
  - intros n s' [Hn|[_ Hn]]%lookup_app_Some; [exact (inv_hist w Hi _ _ Hn)|].
    apply list_lookup_singleton_Some in Hn as [_ <-]. by apply (proj1 Hw), (accepts_spec (hist w)).
  - intros r' Hr. eapply write_ok_mono; [reflexivity| |exact (inv_sent w Hi _ Hr)]. by apply prefix_app_r.
  - eapply other_pods; [exact Hi|done|done|done|]. intros q Hq. split_and!; [reflexivity|by apply prefix_app_r|].
    intros a Ht. eapply claim_append; [done|done|done|done|]. intros Hs s0 Hl E.
    specialize (Hg Hs s0 Hl). congruence.
Qed.

(** A step that loses a write. *)
Lemma inv_lost w p pd r ps :
  inv w → ps = <[p := pd]> (pods w) → write_ok (clock w) (hist w) r →
  (∀ l n s, r = PUT l → gives_up (Spec l) → ResourceVersion l = rv (S n) → hist w !! n = Some s →
     HolderIdentity s = Some p) →
  pod_ok (MkWorld (clock w) (hist w) (r :: sent w) ps) p pd →
  inv (MkWorld (clock w) (hist w) (r :: sent w) ps).
Proof.
  intros Hi -> Hw Hg Hp. split; try apply Hi.
  - intros r' [->|Hr]%elem_of_cons; [done|exact (inv_sent w Hi _ Hr)].
  - eapply other_pods; [exact Hi|done|done|done|]. intros q Hq. split_and!; [reflexivity|done|].
    intros a [Hc _]. eapply claim_lost; [done|]. intros l n s E1 E2 E3 E4 E5.
    specialize (Hg l n s E1 E2 E3 E4). congruence.
Qed.

(** *** The steps of a pod *)

Lemma pod_active w p pd :
  inv w → pods w !! p = Some pd → stopping pd = false → p ≠ "" ∧ active_ok w p pd.
Proof. intros Hi Hp Hs. pose proof (inv_pods w Hi _ _ Hp) as [? Hk]. by rewrite Hs in Hk. Qed.

Lemma pod_stopping w p pd g :
  inv w → pods w !! p = Some pd → stopping pd = true → running pd = Some g → p ≠ "" ∧ stop_loc w p g.
Proof. intros Hi Hp Hs Hg. pose proof (inv_pods w Hi _ _ Hp) as [? Hk]. rewrite Hs in Hk. auto. Qed.

Lemma harmless_now k : ¬ harmless (Now k).
Proof. by inversion 1. Qed.

Lemma contend_loc w p pd l n s :
  inv w → p ≠ "" → due pd <= clock w → Spec l = s → ResourceVersion l = rv (S n) → hist w !! n = Some s →
  active_loc w p pd (contend p l (settle (el pd)) (clock w)).
Proof.
  intros Hi Hp Hd Hs Hrv Hn. pose proof (inv_hist w Hi _ _ Hn) as (Hdur & u & Hu & Hut).
  assert (clock w / 1000 * 1000 <= clock w) by (pose proof (Z.mul_div_le (clock w) 1000); lia).
  unfold contend, leaseExpired. rewrite Hs, Hu, Hdur. cbn [parseTime]. case_bool_decide as Hh.
  - eapply (at_write _ _ _ _ _ (clock w)); [|done| |done|done].
    + split.
      * intros s' [= <-]. cbn. rewrite Hs, Hdur. split; [done|]. eexists. split; [done|done].
      * intros l' [= <-]. exists n, s. cbn. split_and!; [done|done|]. left. split; [by rewrite <-Hs|].
        exists u, (clock w / 1000). split_and!; [done|done|]. apply Z.div_le_lower_bound; lia.
    + cbn. rewrite Hs. destruct (HolderIdentity s) as [h|]; cbn in Hh; congruence.
  - destruct (u * 1000 + 15 * second <? clock w) eqn:He; cbn; [|apply at_refused].
    eapply (at_write _ _ _ _ _ (clock w)); [|done|done|done|done]. split.
    + intros s' [= <-]. split; [done|]. by eexists.
    + intros l' [= <-]. exists n, s. cbn. split_and!; [done|done|]. right. left. exists u. split; [done|].
      apply Z.ltb_lt in He. done.
Qed.

Lemma create_loc w p pd :
  due pd <= clock w → active_loc w p pd (create p namespace (settle (el pd)) (clock w)).
Proof.
  intros Hd. eapply (at_write _ _ _ _ _ (clock w)); [|done|done|done|done]. split.
  - intros s [= <-]. split; [done|]. eexists. split; [done|]. pose proof (Z.mul_div_le (clock w) 1000). lia.
  - by intros l [=].
Qed.

(** After the attempt: what [tick] does with the time of its end. *)
Lemma settle_loc w p pd acquired err :
  due pd <= clock w → clock w <= due pd + retryPeriod →
  (acquired = true → ∃ a, claim w p a ∧ due pd <= a) →
  ∀ k, settle (el pd) acquired err = Now k → active_loc w p pd (k (clock w)).
Proof.
  intros Hd Hc Ha k [= <-]. destruct acquired.
  { destruct (Ha eq_refl) as (a & ? & ?). by apply at_renewed with a. }
  destruct (isLeader (el pd)) eqn:Hl; cbn [negb].
  - destruct (bool_decide _ && _) eqn:E; [|apply at_demote]. apply andb_true_iff in E as [_ E%Z.ltb_lt].
    apply at_done. intros _. right. lia.
  - apply at_done. congruence.
Qed.

Lemma now_loc w p pd k :
  inv w → p ≠ "" → due pd <= clock w → clock w <= due pd + retryPeriod →
  active_loc w p pd (Now k) → active_loc w p pd (k (clock w)).
Proof.
  intros Hi Hp Hd Hc Hg. inversion Hg as [| |l n s Hs Hrv Hn| |a Hcl Ha E|err E| | | | |]; subst.
  - by apply create_loc.
  - by eapply contend_loc.
  - refine (settle_loc w p pd true None Hd Hc _ _ eq_refl). intros _. by exists a.
  - by refine (settle_loc w p pd false err Hd Hc _ _ eq_refl).
Qed.

Lemma inv_now w p pd k :
  inv w → pods w !! p = Some pd → running pd = Some (Now k) →
  inv (MkWorld (clock w) (hist w) (sent w) (<[p := with_running (Some (k (clock w))) pd]> (pods w))).
Proof.
  intros Hi Hp Hr. eapply inv_local; [done|done|]. destruct (stopping pd) eqn:Hs.
  - destruct (pod_stopping _ _ _ _ Hi Hp Hs Hr) as [_ Hg].
    inversion Hg as [| |g Hh]; subst. by apply harmless_now in Hh.
  - destruct (pod_active _ _ _ Hi Hp Hs) as (Hne & Hc & Hl & Hg). rewrite Hr in Hg. destruct Hg as [Hd Hg].
    split; [done|]. cbn. rewrite Hs. split_and!; [done|exact Hl|]. cbn. split; [done|].
    eapply active_loc_later; [apply later_same|exact Hc|].
    apply (active_loc_pod _ _ pd); [done|done|]. by eapply now_loc.
Qed.

Lemma inv_store w p pd e k :
  inv w → pods w !! p = Some pd → running pd = Some (Store e k) →
  inv (MkWorld (clock w) (hist w) (sent w) (<[p := MkPod e (due pd) (first pd) (Some k) (stopping pd)]> (pods w))).
Proof.
  intros Hi Hp Hr. eapply inv_local; [done|done|]. destruct (stopping pd) eqn:Hs.
  - destruct (pod_stopping _ _ _ _ Hi Hp Hs Hr) as [Hne Hg]. split; [done|]. cbn. intros g [= <-].
    inversion Hg as [| |g' Hh]; subst. inversion Hh; subst. by apply at_harmless.
  - destruct (pod_active _ _ _ Hi Hp Hs) as (Hne & Hc & Hl & Hg). rewrite Hr in Hg. destruct Hg as [Hd Hg].
    split; [done|]. cbn.
    inversion Hg as [| | | | | |a now Hcl Ha Hn|a now Hcl Ha Hn|lr b| |]; subst.
    + assert (fresh (MkWorld (clock w) (hist w) (sent w) ∅) p (MkPod (MkElection true now) (due pd) (first pd) None false))
        as Hf by (exists a; split_and!; done).
      split_and!; cbn; [done|by left|]. split; [done|]. destruct (isLeader (el pd)) eqn:El; cbn.
      * apply at_done. cbn. by left.
      * apply at_promote with a; done.
    + split_and!; cbn; [done|left; by exists a|]. split; [done|]. apply at_label. intros _. by exists a.
    + split_and!; cbn; [done|done|]. split; [done|]. by apply at_label.
Qed.

Lemma inv_done w p pd :
  inv w → pods w !! p = Some pd → running pd = Some Done →
  inv (MkWorld (clock w) (hist w) (sent w) (<[p := finished (clock w) pd]> (pods w))).
Proof.
  intros Hi Hp Hr. eapply inv_local; [done|done|]. destruct (stopping pd) eqn:Hs.
  - pose proof (inv_pods w Hi _ _ Hp) as [Hne _]. split; [done|]. cbn. by rewrite Hs.
  - destruct (pod_active _ _ _ Hi Hp Hs) as (Hne & Hc & Hl & Hg). rewrite Hr in Hg. destruct Hg as [Hd Hg].
    assert (isLeader (el pd) = true → fresh w p pd ∨ due pd < lastRenew (el pd) + renewDeadline) as Hf
      by (by inversion Hg).
    split; [done|]. cbn. rewrite Hs. unfold finished.
    assert (isLeader (el pd) = true → settled (MkWorld (clock w) (hist w) (sent w) ∅) p (finished (clock w) pd)) as Hset.
    2: { split_and!; cbn; [destruct (first pd); times|by right; apply Hset|exact Hset]. }
    intros Hle.
    assert (fresh w p pd → settled (MkWorld (clock w) (hist w) (sent w) ∅) p (finished (clock w) pd)) as Hfs.
    { intros (a & Hcl & Ha & Hlr). split; [done|]. unfold finished. destruct (first pd); cbn.
      - exists a, (clock w), 1. split_and!; [exact Hcl|times..].
      - exists a, (due pd + retryPeriod), 0. split_and!; [exact Hcl|times..]. }
    destruct (Hf Hle) as [?|Hgr]; [by apply Hfs|].
    destruct (Hl Hle) as [?|(Hfi & a & c & m & Hcl & Hlr & Hca & Hm & Hdue)]; [by apply Hfs|].
    split; [done|]. unfold finished. rewrite Hfi. exists a, c, (m + 1). cbn.
    split_and!; [exact Hcl|times..].
Qed.

(** *** The calls to the API *)

(** A GET changes nothing; it answers the newest version, that there is none,
    or an error. *)
Lemma api_get_cases h name resp h' lost :
  api rv h (GET name) resp h' lost →
  h' = h ∧ lost = [] ∧
  ((∃ l n s status, getLease resp = (Some l, status, None) ∧ (status =? 404) = false ∧
      Spec l = s ∧ ResourceVersion l = rv (S n) ∧ h !! n = Some s) ∨
   (∃ status, getLease resp = (None, status, None)) ∨
   (∃ l status e, getLease resp = (l, status, Some e))).
Proof.
  inversion 1 as [? l s Hl Hs Hrv|? e b Hh|? r [e He] Hg|r s status l Ha| |]; subst; try done.
  - split_and!; [done|done|]. left. rewrite last_lookup in Hl. exists l, (pred (length h')), (Spec l), 200.
    split_and!; try done. rewrite Hrv. destruct h'; [done|]. done.
  - split_and!; [done|done|]. right; left. exists 404. unfold getLease. cbn. by destruct e.
  - split_and!; [done|done|]. right; right. destruct (getLease resp) as [[l status] [e'|]]; [by eexists _, _, _|done].
Qed.

Lemma get_loc w p pd name resp h' lost :
  api rv (hist w) (GET name) resp h' lost →
  active_loc w p pd (match getLease resp with
    | (_, _, Some e) => settle (el pd) false (Some e)
    | (l, status, None) =>
        match (if status =? 404 then None else l) with
        | None => Now (create p namespace (settle (el pd)))
        | Some l => Now (contend p l (settle (el pd)))
        end
    end).
Proof.
  intros (_ & _ & [(l & n & s & status & -> & -> & ? & ? & ?)|[[status ->]|(l & status & e & ->)]])%api_get_cases.
  - by apply at_contend with n s.
  - destruct (status =? 404); apply at_create.
  - apply at_refused.
Qed.

(** A write is accepted, and answered so, or lost. *)
Lemma api_write_cases h r s resp h' lost :
  api rv h r resp h' lost → write_spec r = Some s →
  (h' = h ++ [s] ∧ lost = [] ∧ accepts rv h r = Some s ∧ ∀ k, written k resp = k true None) ∨
  (h' = h ∧ lost = [r] ∧ ∀ k, ∃ err, written k resp = k false err).
Proof.
  intros Ha Hs. destruct Ha as [| | |r s' status l Hacc Hst|r resp _ [e He]|]; try done.
  - left. assert (s' = s) as -> by (apply accepts_spec in Hacc; congruence). split_and!; [done..|].
    intros k. unfold written, doLease. rewrite (proj2 (Z.leb_le _ _)), (proj2 (Z.ltb_lt _ _)) by lia. done.
  - right. split_and!; [done..|]. intros k. unfold written. destruct (doLease resp) as [[l status] err].
    cbn in He. subst err. destruct (status =? 409); by eexists.
Qed.

Lemma not_gives_up p s : p ≠ "" → HolderIdentity s = Some p → ¬ gives_up s.
Proof. unfold gives_up. congruence. Qed.

(** The same pod in a world that only differs in the other pods. *)
Lemma active_http w p pd g t h sn ps :
  p ≠ "" → stopping pd = false → t = clock w → active_ok w p pd → due pd <= clock w →
  later p w (MkWorld t h sn ps) → active_loc (MkWorld t h sn ps) p pd g →
  pod_ok (MkWorld t h sn ps) p (with_running (Some g) pd).
Proof.
  intros Hp Hs -> (Hc & Hl & _) Hd HL Hg. split; [done|]. cbn. rewrite Hs. split_and!; cbn; [done| |].
  - intros Hi. destruct (Hl Hi); [left; by eapply fresh_later in HL|right; by eapply settled_later in HL].
  - split; [done|]. by apply (active_loc_pod _ _ pd).
Qed.

Lemma inv_http_active w p pd r k resp h' lost :
  inv w → pods w !! p = Some pd → stopping pd = false → running pd = Some (Http r k) →
  api rv (hist w) r resp h' lost →
  inv (MkWorld (clock w) h' (lost ++ sent w) (<[p := with_running (Some (k resp)) pd]> (pods w))).
Proof.
  intros Hi Hp Hs Hr Ha. destruct (pod_active _ _ _ Hi Hp Hs) as (Hne & Hok). pose proof Hok as (Hc & Hl & Hg).
  rewrite Hr in Hg. destruct Hg as [Hd Hg].
  inversion Hg as [| | |r' s a Hw Hws Hh Hre Hda| | | | | |b Hf|]; subst.
  - (* GET *) destruct (api_get_cases _ _ _ _ _ Ha) as (-> & -> & _). cbn [app].
    eapply inv_local; [done|done|]. eapply active_http; try done; [apply later_same|].
    eapply active_loc_later; [apply later_same|done|]. by eapply get_loc.
  - (* a write *) destruct (api_write_cases _ _ _ _ _ _ Ha Hws) as [(-> & -> & Hacc & Hk)|(-> & -> & Hk)]; cbn [app].
    + rewrite Hk. eapply inv_append; [done|done|done|done|by intros ?%(not_gives_up p)|].
      eapply active_http; try done.
      * split_and!; [reflexivity|by apply prefix_app_r|]. intros a' Ht. eapply claim_append; [done|done|done|done|].
        by intros ?%(not_gives_up p).
      * eapply at_acquired; [|exact Hda]. by apply claim_new.
    + destruct (Hk (settle (el pd))) as [err ->].
      assert (∀ l n s0, r = PUT l → gives_up (Spec l) → ResourceVersion l = rv (S n) → hist w !! n = Some s0 → False)
        as Hno by (intros l n s0 -> Hgu _ _; injection Hws as Hws; subst s; by eapply not_gives_up).
      eapply inv_lost; [done|done|done|by intros l n s0 E1 E2 E3 E4; destruct (Hno l n s0)|].
      eapply active_http; try done; [|apply at_refused].
      split_and!; [reflexivity|done|]. intros a' [? _]. eapply claim_lost; [done|].
      by intros l n s0 E1 E2 E3 E4; destruct (Hno l n s0).
  - (* the label *) inversion Ha; subst; try done. cbn [app]. eapply inv_local; [done|done|].
    eapply active_http; try done; [apply later_same|]. eapply active_loc_later; [apply later_same|done|].
    apply at_done. intros ?. left. auto.
Qed.

Lemma harmless_finish e :
  harmless (Http (PATCH false) (λ _, Store (MkElection false (lastRenew e)) Done)).
Proof. repeat constructor. Qed.

Lemma surrender_loc w p e resp h' lost k :
  inv w → api rv (hist w) (GET leaseName) resp h' lost → surrender p e = Http (GET leaseName) k →
  stop_loc w p (k resp).
Proof.
  intros Hi Ha [= <-].
  apply api_get_cases in Ha as (_ & _ & [(l & n & s & status & -> & _ & Hs & Hrv & Hn)|[[status ->]|(l & status & er & ->)]]).
  2: { apply at_harmless, harmless_finish. }
  2: { destruct l; apply at_harmless, harmless_finish. }
  case_bool_decide as Hh; [|apply at_harmless, harmless_finish].
  pose proof (inv_hist w Hi _ _ Hn) as (Hdur & u & Hu & Hut).
  apply at_give_up with n s; cbn; [done|done|congruence|done| |intros r; apply harmless_finish]. split.
  - intros s' [= <-]. cbn. rewrite Hs. split; [done|]. exists 0. split; [done|]. apply Hi.
  - intros l' [= <-]. exists n, s. cbn. split_and!; [done|done|by right; right].
Qed.

Lemma stopping_http w p pd g h sn ps :
  p ≠ "" → stopping pd = true → hist w `prefix_of` h → stop_loc w p g →
  pod_ok (MkWorld (clock w) h sn ps) p (with_running (Some g) pd).
Proof.
  intros Hp Hs Hh Hg. split; [done|]. cbn. rewrite Hs. intros g' [= <-]. by eapply stop_loc_later in Hg.
Qed.

Lemma inv_http_stopping w p pd r k resp h' lost :
  inv w → pods w !! p = Some pd → stopping pd = true → running pd = Some (Http r k) →
  api rv (hist w) r resp h' lost →
  inv (MkWorld (clock w) h' (lost ++ sent w) (<[p := with_running (Some (k resp)) pd]> (pods w))).
Proof.
  intros Hi Hp Hs Hr Ha. destruct (pod_stopping _ _ _ _ Hi Hp Hs Hr) as [Hne Hg].
  inversion Hg as [e E|l n s k' Hrv Hn Hh Hgu Hw Hk|g Hh E]; subst.
  - destruct (api_get_cases _ _ _ _ _ Ha) as (-> & -> & _). cbn [app].
    eapply inv_local; [done|done|]. eapply stopping_http; try done.
    exact (surrender_loc w p e resp _ _ _ Hi Ha eq_refl).
  - assert (∀ m s', ResourceVersion l = rv (S m) → hist w !! m = Some s' → HolderIdentity s' = Some p) as Hown.
    { intros m s' Hm Hm'. assert (S m = S n) as [= ->] by (apply (inj rv); congruence). congruence. }
    destruct (api_write_cases _ _ _ _ _ _ Ha eq_refl) as [(-> & -> & Hacc & _)|(-> & -> & _)]; cbn [app].
    + eapply inv_append; [done|done|done|done| |].
      * intros _ s0 Hl. cbn in Hacc. case_bool_decide as Hv; [|done]. destruct Hv as [Hnil Hv].
        rewrite last_lookup in Hl. destruct (hist w) as [|s1 h]; [done|]. by eapply Hown.
      * eapply stopping_http; try done; [by apply prefix_app_r|by apply at_harmless].
    + eapply inv_lost; [done|done|done| |eapply stopping_http; try done; by apply at_harmless].
      intros l' m s' [= <-] _ Hm Hm'. by eapply Hown.
  - inversion Hh as [| |b k' Hk]; subst. inversion Ha; subst; try done. cbn [app].
    eapply inv_local; [done|done|]. eapply stopping_http; try done. by apply at_harmless.
Qed.

Lemma inv_late w r s :
  inv w → r ∈ sent w → accepts rv (hist w) r = Some s →
  inv (MkWorld (clock w) (hist w ++ [s]) (sent w) (pods w)).
Proof.
  intros Hi Hin Ha. pose proof (inv_sent w Hi _ Hin) as Hw.
  split; [apply Hi|..].
  - intros n s' [Hn|[_ Hn]]%lookup_app_Some; [exact (inv_hist w Hi _ _ Hn)|].
    apply list_lookup_singleton_Some in Hn as [_ <-]. by apply (proj1 Hw), (accepts_spec (hist w)).
  - intros r' Hr. eapply write_ok_mono; [reflexivity| |exact (inv_sent w Hi _ Hr)]. by apply prefix_app_r.
  - intros q qd Hq. eapply pod_ok_later; [|intros Hs|by eapply inv_pods].
    2: { by destruct (pod_active _ _ _ Hi Hq Hs) as (_ & ? & _). }
    split_and!; [reflexivity|by apply prefix_app_r|]. intros a Ht. eapply claim_append; [done|done|done|done|].
    intros Hg s0 Hl E. destruct Ht as [[_ Hsafe] _].
    destruct r as [|l|l|]; cbn in Ha; [done|by destruct (hist w)| |done].
    case_bool_decide as Hv; [|done]. destruct Hv as [_ Hv]. injection Ha as <-.
    rewrite last_lookup in Hl. destruct (hist w) as [|s1 h] eqn:Eh; [done|].
    specialize (Hsafe l (length h) s0 Hin Hg). cbn in *. specialize (Hsafe Hv Hl E). lia.
Qed.

Lemma step_inv w w' : inv w → step rv namespace 0 w w' → inv w'.
Proof.
  intros Hi Hst.
  destruct Hst as [w t Ht Hc|w p e Hp Hn He|w p pd Hp|w p pd Hp Hr Hs Hd|w p pd Hp Hr Hs|w p pd k Hp Hr
    |w p pd e k Hp Hr|w p pd r k resp h' lost Hp Hr Ha|w p pd Hp Hr|w r s Hin Ha].
  - split; cbn; [pose proof (inv_clock w Hi); lia|..].
    + intros n s Hn. eapply spec_ok_mono; [exact Ht|by eapply inv_hist].
    + intros r Hr. eapply write_ok_mono; [exact Ht|done|by eapply inv_sent].
    + intros p pd Hp. eapply pod_ok_later; [|intros Ha; specialize (Hc p pd Hp Ha); cbn; lia|by eapply inv_pods].
      split_and!; [done|done|]. by intros a [? _].
  - eapply inv_local; [done|done|]. split; [done|]. cbn. split_and!; cbn; [times|congruence|congruence].
  - split; try apply Hi. cbn. intros q qd [Hne Hq]%lookup_delete_Some.
    eapply pod_ok_later; [apply later_same| |by eapply inv_pods]. intros Hs.
    by destruct (pod_active _ _ _ Hi Hq Hs) as (_ & ? & _).
  - destruct (pod_active _ _ _ Hi Hp Hs) as (Hne & Hc & Hl & Hg). rewrite Hr in Hg.
    eapply inv_local; [done|done|]. split; [done|]. cbn. rewrite Hs. split_and!; cbn; [done|exact Hl|].
    split; [done|]. apply (active_loc_pod _ _ pd); [done|done|]. apply at_tick.
  - pose proof (inv_pods w Hi _ _ Hp) as [Hne _]. eapply inv_local; [done|done|]. split; [done|]. cbn.
    intros g [= <-]. unfold Stop. destruct (isLeader (el pd)); [apply at_surrender|apply at_harmless; constructor].
  - by eapply inv_now.
  - by eapply inv_store.
  - destruct (stopping pd) eqn:Hs; [by eapply inv_http_stopping|by eapply inv_http_active].
  - by eapply inv_done.
  - by eapply inv_late.
Qed.

Lemma reachable_inv w : reachable rv namespace 0 w → inv w.
Proof.
  intros (w0 & (Hc & Hh & Hs & Hp) & Hr).
  assert (inv w0) as Hi.
  { split; [done|..]; rewrite ?Hh, ?Hs, ?Hp; [done|intros r Hr'; by apply not_elem_of_nil in Hr'|].
    intros p pd Hl. by rewrite lookup_empty in Hl. }
  clear Hc Hh Hs Hp. induction Hr as [|w0 w1 w2 Hst Hr IH]; [done|]. by eapply IH, step_inv.
Qed.

Lemma leads_tenured w p : inv w → leads w p → ∃ a, tenured w p a.
Proof.
  intros Hi (pd & Hp & Hs & Hl). destruct (pod_active _ _ _ Hi Hp Hs) as (_ & Hc & Hk & _).
  by apply (leader_tenured w p pd), Hk.
Qed.

End Invariant.

(** C7. There is never more than one leader. In every state that any number of
    pods can reach together, with crashes, restarts, failing and delayed API
    calls, at most one pod that is not being shut down acts as the leader; that
    pod is the holder of the Lease, and its last renewal is at most fourteen
    seconds old, one second before another pod may take the lease over. The
    timing this rests on: a tick starts when it is due or later and ends within
    the two seconds until the next one is due, and the pods' clocks agree. *)
Theorem at_most_one_leader (rv : nat → string) namespace w p :
  Inj (=) (=) rv → reachable rv namespace 0 w → leads w p →
  (∀ q, leads w q → q = p) ∧
  ∃ s u, last (hist w) = Some s ∧ HolderIdentity s = Some p ∧ RenewTime s = Some (Stamp u) ∧
    clock w < u * 1000 + 1000 + 14 * second.
Proof.
  intros Hrv Hr Hp. apply reachable_inv in Hr; [|done].
  destruct (leads_tenured rv namespace w p Hr Hp) as (a & [(s & u & Hl & Hh & Hu & Ha) _] & Hc). split.
  - intros q Hq. destruct (leads_tenured rv namespace w q Hr Hq) as (a' & [(s' & u' & Hl' & Hh' & _) _] & _). congruence.
  - exists s, u. split_and!; [done|done|done|].
    pose proof (Z.div_mod a 1000). pose proof (Z.mod_pos_bound a 1000). lia.
Qed.

(** ** Runs *)

(** Resource versions for the runs below. *)
Fixpoint tally (n : nat) : string := match n with O => "" | S n => "1" +:+ tally n end.
#[local] Instance tally_inj : Inj (=) (=) tally.
Proof. intros n. induction n as [|n IH]; intros [|m] E; try done. injection E as E. f_equal. auto. Qed.

Definition start (t : Z) : world := MkWorld t [] [] ∅.
Definition spec_a (t : Z) : leaseSpec :=
  MkSpec (Some "a") (Some 15) (Some (microTime 0)) (Some (microTime t)) (Some 0).
Definition lease_of (n : nat) (s : leaseSpec) : lease :=
  MkLease "Lease" "coordination.k8s.io/v1" leaseName "ns" (tally n) s.
Definition unavailable : http := NoResponse (Errorf "connection refused").

(** One step of a run, by its rule; the side conditions are computed. *)
Tactic Notation "call_by" constr(p) uconstr(c) :=
  eapply rtc_l; [eapply (step_http tally "ns" _ _ p); [reflexivity|reflexivity|eapply c; first [reflexivity|done|lia|idtac]]|cbn].
Tactic Notation "rule" constr(p) uconstr(c) :=
  eapply rtc_l; [eapply (c tally "ns" _ _ p); first [reflexivity|done|vm_compute; congruence|idtac]|cbn].
Tactic Notation "wait_until" constr(t) :=
  eapply rtc_l; [eapply (step_time tally "ns" _ _ t);
    [vm_compute; congruence|
     intros q qd Hq _; cbn [pods] in Hq; repeat (apply lookup_insert_Some in Hq as [[E <-]|[? Hq]]; [first [by vm_compute; congruence|congruence]|]);
     by rewrite lookup_empty in Hq]|cbn].
(** A tick in which the API cannot be reached. *)
Ltac blind_tick p :=
  rule p step_tick; call_by p (api_get_fail tally _ _ unavailable); [by eexists|]; rule p step_now; rule p step_done.

Ltac join p :=
  eapply rtc_l; [eapply (step_join tally "ns" _ _ p (MkElection false 0)); done|cbn].
(** The tick in which the first pod creates the lease. *)
Ltac first_tick p :=
  rule p step_tick; call_by p (api_get_none tally _ _ None None); rule p step_now;
  call_by p (api_write tally _ _ _ 201 (lease_of 1 (spec_a 0)));
  rule p step_now; rule p step_store; rule p step_store; call_by p (api_label tally _ _ unavailable); rule p step_done.

Definition elected : pod := MkPod (MkElection true 0) 0 true (Some (Http (PATCH true) (λ _, Done))) false.

Lemma elected_reachable : ∃ ps, reachable tally "ns" 0 (MkWorld 0 [spec_a 0] [] (<["a" := elected]> ps)).
Proof.
  eexists. exists (start 0). split; [done|]. unfold start. join "a".
  rule "a" step_tick. call_by "a" (api_get_none tally _ _ None None). rule "a" step_now.
  call_by "a" (api_write tally _ _ _ 201 (lease_of 1 (spec_a 0))).
  rule "a" step_now. rule "a" step_store. rule "a" step_store. apply rtc_refl.
Qed.

Lemma at_most_one_leader_witness :
  ∃ w, reachable tally "ns" 0 w ∧ leads w "a" ∧ ¬ leads w "b" ∧
    ∃ s, last (hist w) = Some s ∧ HolderIdentity s = Some "a".
Proof.
  destruct elected_reachable as [ps Hr]. eexists. split; [exact Hr|].
  assert (leads (MkWorld 0 [spec_a 0] [] (<["a" := elected]> ps)) "a") as Hl
    by (exists elected; split_and!; [apply lookup_insert_eq|reflexivity|reflexivity]).
  destruct (at_most_one_leader tally "ns" _ "a" tally_inj Hr Hl) as [Hu (s & u & Hs & Hh & _)].
  split_and!; [exact Hl| |by exists s]. intros Hb. discriminate (Hu "b" Hb).
Defined.

(** Two seconds for every tick leave no room: a tick that ends one
    millisecond late is enough for two leaders. The renewal made at 2 s is
    confirmed at 4.001 s; the failing tick at 14 s is then still within the
    ten seconds of grace, the next one waits for its answer, and at 17 s
    another pod takes the lease over. *)
Lemma overrun_two_leaders : ∃ w, reachable tally "ns" (10 ^ 6) w ∧ leads w "a" ∧ leads w "b".
Proof.
  eexists. split; [exists (start 0); split; [done|]; unfold start|].
  - join "a".
    first_tick "a".
    wait_until (2 * 10 ^ 9). rule "a" step_tick.
    call_by "a" (api_get tally _ _ (lease_of 1 (spec_a 0)) (spec_a 0)). rule "a" step_now.
    call_by "a" (api_write tally _ _ _ 200 (lease_of 2 (spec_a (2 * 10 ^ 9)))).
    wait_until (4 * 10 ^ 9 + 10 ^ 6). rule "a" step_now. rule "a" step_store. rule "a" step_done.
    blind_tick "a".
    wait_until (6 * 10 ^ 9). blind_tick "a".
    wait_until (8 * 10 ^ 9). blind_tick "a".
    wait_until (10 * 10 ^ 9). blind_tick "a".
    wait_until (12 * 10 ^ 9). blind_tick "a".
    wait_until (14 * 10 ^ 9). blind_tick "a".
    wait_until (16 * 10 ^ 9). rule "a" step_tick.
    wait_until (17 * 10 ^ 9 + 1).
    join "b".
    rule "b" step_tick.
    call_by "b" (api_get tally _ _ (lease_of 2 (spec_a (2 * 10 ^ 9))) (spec_a (2 * 10 ^ 9))). rule "b" step_now.
    call_by "b" (api_write tally _ _ _ 200 (lease_of 3 (spec_a 0))).
    rule "b" step_now. rule "b" step_store. rule "b" step_store. apply rtc_refl.
  - split; eexists; (split; [reflexivity|done]).
Qed.

(** Shutting down, a pod gives the lease back before it stops being the
    leader and before its label is removed. *)
Lemma surrender_overlap :
  ∃ w pd, reachable tally "ns" 0 w ∧ pods w !! "a" = Some pd ∧ isLeader (el pd) = true ∧ leads w "b".
Proof.
  eexists _, _. split; [exists (start (100 * 10 ^ 9)); split; [done|]; unfold start|].
  - join "a". first_tick "a". rule "a" step_stop.
    call_by "a" (api_get tally _ _ (lease_of 1 (MkSpec (Some "a") (Some 15) (Some (microTime (100 * 10 ^ 9)))
      (Some (microTime (100 * 10 ^ 9))) (Some 0)))).
    call_by "a" (api_write tally _ _ _ 200 (lease_of 2 (spec_a 0))).
    join "b". rule "b" step_tick.
    call_by "b" (api_get tally _ _ (lease_of 2 (MkSpec (Some "") (Some 15) (Some (microTime (100 * 10 ^ 9)))
      (Some (microTime 0)) (Some 0)))). rule "b" step_now.
    call_by "b" (api_write tally _ _ _ 200 (lease_of 3 (spec_a 0))).
    rule "b" step_now. rule "b" step_store. rule "b" step_store. apply rtc_refl.
  - split; [reflexivity|]. split; [done|]. eexists. split; [reflexivity|done].
Qed.

End Leader.
