(* ===== verification/Footprint.v ===== *)
(** * What an operation may touch

    An effect discipline for the storage operations: [touches K m] says that
    [m], whatever the database answers and wherever it fails, changes only
    rows of the keys [K], requests only their locks, and neither opens, ends
    nor revives a transaction. Every operation of
    the storage layer modelled in the Store files has a footprint made of the
    (encoded) keys it is given; [reads] operations touch nothing. *)
From stdpp Require Import gmap strings list sorting.
From Stdlib Require Import ZArith Lia Ascii.
From S2P Require Import Prelude GoStd KeyCodec Db StoreMeta StoreStrings StoreBits StoreBitmaps StoreKeys StoreHash StoreLists StoreSets StoreHll StoreZSets StoreSampling.
Import Db KeyCodec Meta StringOps BitOps BitmapOps KeyOps HashOps ListOps SetOps HllOps ZSetOps Sampling.

Module Footprint.

Definition same_tx (s s' : st) : Prop := in_tx s' = in_tx s ∧ (aborted s = true → aborted s' = true).
#[export] Instance same_tx_preorder : PreOrder same_tx.
Proof. split; [done|]. intros s1 s2 s3 [E1 A1] [E2 A2]. split; [congruence|tauto]. Qed.

(** Locks are kept: what is requested comes after what was, and is of [K]. *)
Definition requests (K : list string) (s s' : st) : Prop :=
  ∃ l, locks s' = locks s ++ l ∧ ∀ k, k ∈ l → k ∈ K.

Definition touches {A} (K : list string) (m : M A) : Prop :=
  ∀ e s s' r, m e s = (s', r) → frame K (db s) (db s') ∧ same_tx s s' ∧ requests K s s'.

Lemma requests_same K s s' : locks s' = locks s → requests K s s'.
Proof. intros E. exists []. rewrite app_nil_r. split; [done|]. by intros k Hk%elem_of_nil. Qed.
Lemma requests_trans K s1 s2 s3 : requests K s1 s2 → requests K s2 s3 → requests K s1 s3.
Proof.
  intros (l1 & E1 & H1) (l2 & E2 & H2). exists (l1 ++ l2). rewrite E2, E1, app_assoc. split; [done|].
  intros k [?|?]%elem_of_app; auto.
Qed.
Lemma requests_mono K K' s s' : K ⊆ K' → requests K s s' → requests K' s s'.
Proof. intros HK (l & E & H). exists l. split; [done|]. auto. Qed.
Lemma requests_elem K s s' k : requests K s s' → k ∈ locks s' → k ∈ locks s ∨ k ∈ K.
Proof. intros (l & E & H). rewrite E, elem_of_app. intros [?|?]; auto. Qed.

(** ** The rules *)

Lemma frame_mono K K' t t' : K ⊆ K' → frame K t t' → frame K' t t'.
Proof. intros HK Hf k Hk. apply Hf. set_solver. Qed.

Lemma frame_key k K t t' : k ∈ K → frame [k] t t' → frame K t t'.
Proof. intros Hk. apply frame_mono. set_solver. Qed.

Lemma touches_mono {A} K K' (m : M A) : K ⊆ K' → touches K m → touches K' m.
Proof.
  intros HK Hm e s s' r E. destruct (Hm _ _ _ _ E) as (Hf & Hs & Hl). split_and!; [by eapply frame_mono|done|].
  by eapply requests_mono.
Qed.

Lemma touches_pure {A} K (m : M A) : (∀ e s, (m e s).1 = s) → touches K m.
Proof. intros H e s s' r E. specialize (H e s). rewrite E in H. cbn in H. subst. split_and!; try done. by apply requests_same. Qed.

Lemma touches_ret {A} K (a : A) : touches K (mret a : M A).
Proof. by apply touches_pure. Qed.
Lemma touches_throw {A} K er : touches K (throw er : M A).
Proof. by apply touches_pure. Qed.
Lemma touches_asks {A} K (f : env → A) : touches K (asks f).
Proof. by apply touches_pure. Qed.
Lemma touches_unwrap {A} K (r : result A) : touches K (unwrap r).
Proof. by apply touches_pure. Qed.

Lemma touches_bind {A B} K (m : M A) (f : A → M B) :
  touches K m → (∀ a, touches K (f a)) → touches K (m ≫= f).
Proof.
  intros Hm Hf e s s' r. unfold mbind, M_bind. destruct (m e s) as [s1 [a|er]] eqn:E.
  - intros E2. destruct (Hm _ _ _ _ E) as (F1 & T1 & L1), (Hf a _ _ _ _ E2) as (F2 & T2 & L2).
    split; [by etrans|]. split; [by etrans|by eapply requests_trans].
  - intros [= <- <-]. by eapply Hm.
Qed.

Lemma touches_catch {A} K (m : M A) h : touches K m → (∀ er, touches K (h er)) → touches K (catch m h).
Proof.
  intros Hm Hh e s s' r. unfold catch. destruct (m e s) as [s1 [a|er]] eqn:E.
  - intros [= <- <-]. by eapply Hm.
  - intros E2. destruct (Hm _ _ _ _ E) as (F1 & T1 & L1), (Hh er _ _ _ _ E2) as (F2 & T2 & L2).
    split; [by etrans|]. split; [by etrans|by eapply requests_trans].
Qed.

Lemma touches_attempt {A} K (m : M A) : touches K m → touches K (attempt m).
Proof.
  intros Hm e s s' r. unfold attempt. destruct (m e s) as [s1 r1] eqn:E. intros [= <- <-]. by eapply Hm.
Qed.

Lemma touches_stmt {A} K (f : Z → tables → result (tables * A)) :
  (∀ now t t' a, f now t = Ok (t', a) → frame K t t') → touches K (stmt f).
Proof.
  intros Hf e s s' r. unfold stmt.
  destruct (aborted s) eqn:Ha; [intros [= <- <-]; by split_and!; [| |apply requests_same]|].
  assert (∀ s1 : st, in_tx s1 = in_tx s → same_tx s s1) as Hs by (intros s1 ?; split; [done|congruence]).
  destruct (fault e (sent s)) as [er|].
  - intros [= <- <-]. split_and!; [|by apply Hs; repeat case_match|by apply requests_same; repeat case_match].
    destruct (negb (in_tx s) && _); [|done]. destruct (f (NOW e) (db s)) as [[t a]|er'] eqn:E; [|done].
    cbn. by eapply Hf.
  - destruct (f (NOW e) (db s)) as [[t a]|er] eqn:E; intros [= <- <-];
      (split_and!; [|by apply Hs|by apply requests_same]); [by eapply Hf|done].
Qed.

Lemma touches_query {A} K (f : Z → tables → A) : touches K (query f).
Proof. apply touches_stmt. by intros now t t' a [= <- _]. Qed.

Lemma touches_exec K f : (∀ now t, frame K t (f now t)) → touches K (exec f).
Proof. intros H. apply touches_stmt. intros now t t' a [= <- _]. apply H. Qed.

Lemma touches_lock K ks : ks ⊆ K → touches K (lock_stmt ks).
Proof.
  intros HK e s s' r. unfold lock_stmt. destruct (query (λ _ _, tt) e s) as [s1 [[]|er]] eqn:E;
    apply (touches_query K) in E as (F & T & L); intros [= <- <-]; cbn; (split; [done|]); (split; [exact T|]); [|done].
  eapply requests_trans; [exact L|]. exists ks. split; [done|]. set_solver.
Qed.

Create HintDb touches.
#[local] Hint Resolve touches_ret touches_throw touches_asks touches_unwrap touches_query touches_attempt : touches.

(** A statement that changes rows of one key of [K]. *)
Lemma touches_exec1 k K f : k ∈ K → (∀ now t, frame [k] t (f now t)) → touches K (exec f).
Proof. intros Hk H. apply touches_exec. intros. by apply (frame_key k). Qed.

Lemma touches_key {A} k K (m : M A) : k ∈ K → touches [k] m → touches K m.
Proof. intros Hk. apply touches_mono. set_solver. Qed.

Lemma touches_any {A} K (m : M A) : touches [] m → touches K m.
Proof. apply touches_mono. set_solver. Qed.

(** ** Table updates *)

Lemma frame_if (b : bool) K t t1 t2 : frame K t t1 → frame K t t2 → frame K t (if b then t1 else t2).
Proof. by destruct b. Qed.

Lemma frame_set_expires_meta k x t : frame [k] t (upd_meta (set_expires k x) t).
Proof. apply frame_upd_meta. intros. unfold set_expires. by apply lookup_alter_ne. Qed.
Lemma frame_set_expires_strings k x t : frame [k] t (upd_strings (set_expires k x) t).
Proof. apply frame_upd_strings. intros. unfold set_expires. by apply lookup_alter_ne. Qed.
Lemma frame_delete_meta k t : frame [k] t (upd_meta (delete k) t).
Proof. apply frame_upd_meta. intros. by apply lookup_delete_ne. Qed.
Lemma frame_delete_strings k t : frame [k] t (upd_strings (delete k) t).
Proof. apply frame_upd_strings. intros. by apply lookup_delete_ne. Qed.
Lemma frame_delete_hll k t : frame [k] t (upd_hll (delete k) t).
Proof. apply frame_upd_hll. intros. by apply lookup_delete_ne. Qed.
Lemma frame_drop_hashes k t : frame [k] t (upd_hashes (drop_key k) t).
Proof. apply frame_upd_hashes. intros. rewrite drop_key_lookup. by case_decide. Qed.
Lemma frame_drop_sets k t : frame [k] t (upd_sets (drop_key k) t).
Proof. apply frame_upd_sets. intros. rewrite drop_key_lookup. by case_decide. Qed.
Lemma frame_drop_zsets k t : frame [k] t (upd_zsets (drop_key k) t).
Proof. apply frame_upd_zsets. intros. rewrite drop_key_lookup. by case_decide. Qed.
Lemma frame_upsert_strings k v t : frame [k] t (upd_strings (upsert_value k v) t).
Proof. apply frame_upsert. Qed.
Lemma frame_upsert_field k fv t : frame [k] t (upd_hashes (λ m, upsert_field k m fv) t).
Proof. apply frame_upd_hashes. intros. unfold upsert_field. rewrite lookup_insert_ne; congruence. Qed.
Lemma frame_insert_hash k f r t : frame [k] t (upd_hashes <[(k, f) := r]> t).
Proof. apply frame_upd_hashes. intros. rewrite lookup_insert_ne; congruence. Qed.
Lemma frame_alter_list k i f t : frame [k] t (upd_lists (alter f (k, i)) t).
Proof. apply frame_upd_lists. intros. rewrite lookup_alter_ne; congruence. Qed.
Lemma frame_filter_hashes k (P : (string * string) * (string * expiry) → Prop) `{∀ x, Decision (P x)} t :
  (∀ p, ¬ P p → p.1.1 = k) → frame [k] t (upd_hashes (filter P) t).
Proof.
  intros HP. apply frame_upd_hashes. intros k' b Hk. rewrite map_lookup_filter.
  destruct (kv_hashes t !! (k', b)) as [v|]; [|done]. cbn. case_guard as Hg; [done|]. destruct Hk. by apply HP in Hg.
Qed.
Lemma frame_filter_sets k (P : (string * string) * expiry → Prop) `{∀ x, Decision (P x)} t :
  (∀ p, ¬ P p → p.1.1 = k) → frame [k] t (upd_sets (filter P) t).
Proof.
  intros HP. apply frame_upd_sets. intros k' b Hk. rewrite map_lookup_filter.
  destruct (kv_sets t !! (k', b)) as [v|]; [|done]. cbn. case_guard as Hg; [done|]. destruct Hk. by apply HP in Hg.
Qed.

#[local] Hint Resolve frame_insert_meta frame_insert_strings frame_upsert_strings frame_upsert
  frame_set_expires_meta frame_set_expires_strings frame_delete_meta frame_delete_strings frame_delete_hll
  frame_drop_hashes frame_drop_sets frame_drop_zsets frame_drop_lists frame_delete_rows
  frame_upsert_field frame_insert_hash frame_alter_list table_set_expires_frame : frame.

(** One step of a footprint proof: take the program apart along its binds and
    branches; what remains are the statements. *)
Ltac foot1 :=
  cbv zeta;
  lazymatch goal with
  | |- touches _ (_ ≫= _) => apply touches_bind; [|intros ?]
  | |- touches _ (catch _ _) => apply touches_catch; [|intros ?]
  | |- touches _ (attempt _) => apply touches_attempt
  | |- touches _ (query _) => apply touches_query
  | |- touches _ (match ?x with _ => _ end) => destruct x
  | |- touches _ (exec _) =>
      eapply touches_exec1; [|intros; first [solve [eauto with frame]|idtac]]; [set_solver|..]
  | |- touches _ _ => solve [eauto with touches]
  end.
Ltac foot := repeat foot1.

(** ** Shared helpers *)

Lemma touches_lockKey k K : k ∈ K → touches K (lockKey k).
Proof. intros. apply touches_lock. set_solver. Qed.

Lemma touches_lockKeys ks K : ks ⊆ K → touches K (lockKeys ks).
Proof.
  intros HK. destruct ks as [|k [|k' ks]]; [apply touches_ret|apply touches_lock; set_solver|].
  apply touches_lock. intros x Hx. apply HK. by rewrite Sort.elem_of_Compact, Sort.Strings_Permutation in Hx.
Qed.

(** An operation that first of all locks the keys it touches. *)
Definition locks_first {A} (ks : list string) (m : M A) : Prop :=
  ∃ f : unit → M A, m = (lockKeys ks ≫= f) ∧ ∀ u, touches ks (f u).
Lemma locks_first_touches {A} ks (m : M A) : locks_first ks m → touches ks m.
Proof. intros (f & -> & Hf). apply touches_bind; [by apply touches_lockKeys|exact Hf]. Qed.

Lemma touches_getKeyType k K : touches K (getKeyType k).
Proof. unfold getKeyType. foot. Qed.

Lemma touches_setMeta k kt x K : k ∈ K → touches K (setMeta k kt x).
Proof. intros Hk. unfold setMeta. apply touches_bind; [by apply touches_lockKey|intros _]. foot. Qed.

Lemma touches_setMetaBatch ks kt K : ks ⊆ K → touches K (setMetaBatch ks kt).
Proof.
  intros HK. unfold setMetaBatch. destruct ks as [|k0 ks0] eqn:Ek; [apply touches_ret|]. rewrite <-Ek in *.
  apply touches_bind; [by apply touches_lockKeys|intros _]. apply touches_stmt.
  intros now t t' a. case_bool_decide; [|done]. intros [= <- _]. eapply frame_mono; [exact HK|].
  intros k Hk. split_and!; try done. clear -Hk. cbn. revert t.
  enough (∀ m, foldl (upsert_type kt) m ks !! k = m !! k) by auto.
  induction ks as [|k' ks IH]; intros m; cbn; [done|]. rewrite IH by set_solver.
  unfold upsert_type. apply lookup_insert_ne. set_solver.
Qed.

Lemma touches_deleteKey k K : k ∈ K → touches K (deleteKeyFromAllTables k).
Proof.
  intros Hk. unfold deleteKeyFromAllTables. apply touches_bind; [by apply touches_lockKey|intros _]. foot.
Qed.

Lemma touches_deleteKeys ks K : ks ⊆ K → touches K (deleteKeysFromAllTables ks).
Proof.
  intros HK. unfold deleteKeysFromAllTables. destruct ks as [|k0 ks0] eqn:Ek; [apply touches_ret|]. rewrite <-Ek in *.
  apply touches_bind; [by apply touches_lockKeys|intros _].
  repeat (apply touches_bind; [|intros _]); apply touches_exec; intros _ t k Hk;
    (split_and!; try done); cbn; intros; rewrite ?del_any_lookup, ?drop_any_lookup; case_decide; set_solver.
Qed.

Lemma touches_readTypeCheck row kt K : touches K (readTypeCheck row kt).
Proof. unfold readTypeCheck. foot. Qed.
Lemma touches_queueTypeCheck k K : touches K (queueTypeCheck k).
Proof. apply touches_query. Qed.
Lemma touches_requireType kt k K : touches K (requireType kt k).
Proof. unfold requireType. apply touches_bind; [apply touches_getKeyType|intros ?]. foot. Qed.
Lemma touches_expiry_of d K : touches K (expiry_of d).
Proof. unfold expiry_of. foot. Qed.
Lemma touches_wrapErr {A} p (m : M A) K : touches K m → touches K (wrapErr p m).
Proof. intros. unfold wrapErr. apply touches_catch; [done|intros; apply touches_throw]. Qed.
Lemma touches_count_rows k K : touches K (count_rows_stmt k).
Proof. apply touches_query. Qed.
Lemma touches_or_panic {A} (o : option A) K : touches K (or_panic o).
Proof. unfold or_panic. foot. Qed.

#[local] Hint Resolve touches_getKeyType touches_readTypeCheck touches_queueTypeCheck touches_requireType
  touches_expiry_of touches_wrapErr touches_count_rows touches_or_panic : touches.
#[local] Hint Extern 1 (touches _ (lockKey _)) => apply touches_lockKey; set_solver : touches.
#[local] Hint Extern 1 (touches _ (lock_stmt _)) => apply touches_lock; set_solver : touches.
#[local] Hint Extern 1 (touches _ (lockKeys _)) => apply touches_lockKeys; set_solver : touches.
#[local] Hint Extern 1 (touches _ (setMeta _ _ _)) => apply touches_setMeta; set_solver : touches.
#[local] Hint Extern 1 (touches _ (deleteKeyFromAllTables _)) => apply touches_deleteKey; set_solver : touches.

(** ** Strings and bits *)

Abbreviation enc := encodeKey (only parsing).

Lemma touches_get k : touches [] (get k).
Proof. unfold get. foot. Qed.
Lemma touches_set k v d : touches [enc k] (set k v d).
Proof. unfold set. foot. Qed.
#[local] Hint Resolve touches_set : touches.
Lemma touches_setNX k v d : touches [enc k] (setNX k v d).
Proof. unfold setNX. foot. Qed.
Lemma touches_mGet ks : touches [] (mGet ks).
Proof. unfold mGet. foot. Qed.
Lemma touches_incr k d : touches [enc k] (incr k d).
Proof. unfold incr. foot. Qed.
Lemma touches_appendStr k v : touches [enc k] (appendStr k v).
Proof. unfold appendStr. foot. Qed.
Lemma touches_getRange k a b : touches [] (getRange k a b).
Proof. unfold getRange. foot. Qed.
Lemma touches_setRange k o v : touches [enc k] (setRange k o v).
Proof. unfold setRange. foot. Qed.
Lemma touches_strLen k : touches [] (strLen k).
Proof. unfold strLen. foot. Qed.
Lemma touches_getEx k d p : touches [enc k] (getEx k d p).
Proof. unfold getEx. foot. Qed.
Lemma touches_getDel k : touches [enc k] (getDel k).
Proof. unfold getDel. foot. Qed.
Lemma touches_getSet k v : touches [enc k] (getSet k v).
Proof. unfold getSet. foot. Qed.
Lemma touches_incrByFloat F k d : touches [enc k] (incrByFloat F k d).
Proof. unfold incrByFloat. foot. Qed.
Lemma touches_bitField k ops : touches [enc k] (bitField k ops).
Proof. unfold bitField. foot. Qed.
Lemma touches_setBit k o v : touches [enc k] (setBit k o v).
Proof. unfold setBit. foot. Qed.
Lemma touches_getBit k o : touches [] (getBit k o).
Proof. unfold getBit. foot. Qed.
Lemma touches_bitCount k a b u : touches [] (bitCount k a b u).
Proof. unfold bitCount. foot. Qed.
Lemma touches_bitPos k bit a b u : touches [] (bitPos k bit a b u).
Proof. unfold bitPos. foot. Qed.
Lemma touches_bitop_sources ks K : touches K (bitop_sources ks).
Proof. induction ks as [|k ks IH]; cbn [bitop_sources]; foot. Qed.
#[local] Hint Resolve touches_bitop_sources : touches.
Lemma touches_bitOp op dst ks : touches [enc dst] (bitOp op dst ks).
Proof. unfold bitOp. foot. Qed.

(** The keys of a map built from a list of pairs. *)
Lemma encoded_keys (pairs : list (string * string)) k :
  k ∈ (map_to_list (foldl (λ (m : gmap string string) kv, <[enc kv.1 := kv.2]> m) ∅ pairs)).*1 →
  k ∈ enc <$> pairs.*1.
Proof.
  rewrite list_elem_of_fmap. intros ([k' v] & -> & Hin%elem_of_map_to_list). cbn.
  assert (∀ m : gmap string string, foldl (λ (m : gmap string string) kv, <[enc kv.1 := kv.2]> m) m pairs !! k' = Some v →
    m !! k' = Some v ∨ k' ∈ enc <$> pairs.*1) as H.
  { clear. induction pairs as [|[k0 v0] pairs IH]; intros m; cbn; [by left|]. intros [Hm|?]%IH; [|set_solver].
    apply lookup_insert_Some in Hm as [[<- _]|[_ ?]]; [right; set_solver|by left]. }
  apply H in Hin as [Hin|]; [|done]. by rewrite lookup_empty in Hin.
Qed.

Lemma frame_upsert_all kvs t :
  frame kvs.*1 t (upd_strings (λ m, foldl (λ m kv, upsert_value kv.1 kv.2 m) m kvs) t).
Proof.
  intros k Hk. split_and!; try done. cbn. generalize (kv_strings t). induction kvs as [|[k0 v0] kvs IH]; intros m; cbn; [done|].
  cbn in Hk. rewrite IH by set_solver. unfold upsert_value, upsert_with.
  destruct (m !! k0) as [[? ?]|]; apply lookup_insert_ne; set_solver.
Qed.

Lemma touches_mSet pairs : touches (enc <$> pairs.*1) (mSet pairs).
Proof.
  unfold mSet. cbv zeta. set (encoded := foldl _ _ _).
  assert ((Sort.Strings (map_to_list encoded).*1) ⊆ enc <$> pairs.*1) as HK.
  { intros k. rewrite Sort.Strings_Permutation. apply encoded_keys. }
  destruct (Sort.Strings (map_to_list encoded).*1) as [|k0 ks0] eqn:Ek; [apply touches_ret|]. rewrite <-Ek in *.
  apply touches_bind; [by apply touches_deleteKeys|intros _].
  apply touches_bind; [by apply touches_setMetaBatch|intros _].
  apply touches_exec. intros _ t. eapply frame_mono; [exact HK|]. eapply frame_mono; [|apply frame_upsert_all].
  rewrite fst_zip by (by rewrite length_fmap). done.
Qed.

(** ** Keys *)

Lemma touches_del_loop ks n K : ks ⊆ K → touches K (del_loop ks n).
Proof.
  revert n. induction ks as [|k ks IH]; intros n HK; cbn [del_loop]; [apply touches_ret|].
  apply touches_bind; [apply touches_getKeyType|intros kt]. case_bool_decide; [apply IH; set_solver|].
  apply touches_bind; [apply touches_deleteKey; set_solver|intros _]. apply IH. set_solver.
Qed.
Lemma touches_del ks : touches (enc <$> ks) (del ks).
Proof.
  unfold del. apply touches_del_loop. intros k. by rewrite Sort.Strings_Permutation, encodeKeys_map.
Qed.
Lemma touches_exists ks : touches [] (exists_ ks).
Proof. unfold exists_. foot. Qed.
Lemma touches_update_meta_expiry o k x K : k ∈ K → touches K (update_meta_expiry o k x).
Proof.
  intros Hk. apply touches_stmt. intros now t t' a. destruct (kv_meta t !! k) as [[kt y]|]; [|by intros [= <- _]].
  case_match; intros [= <- _]; [|done]. apply (frame_key k); [done|apply frame_insert_meta].
Qed.
#[local] Hint Extern 1 (touches _ (update_meta_expiry _ _ _)) => apply touches_update_meta_expiry; set_solver : touches.
Lemma touches_expireAt k x o : touches [enc k] (expireAt k x o).
Proof. unfold expireAt. foot. Qed.
Lemma touches_expire k d o : touches [enc k] (expire k d o).
Proof. unfold expire. foot. Qed.
Lemma touches_until x K : touches K (until_ x).
Proof. apply touches_asks. Qed.
#[local] Hint Resolve touches_until : touches.
Lemma touches_ttl k : touches [] (ttl k).
Proof. unfold ttl. foot. Qed.
Lemma touches_pttl k : touches [] (pttl k).
Proof. unfold pttl. foot. Qed.
Lemma touches_persist_tables k ts K : k ∈ K → touches K (persist_tables k ts).
Proof. intros Hk. induction ts as [|t ts IH]; cbn [persist_tables]; foot. Qed.
#[local] Hint Extern 1 (touches _ (persist_tables _ _)) => apply touches_persist_tables; set_solver : touches.
Lemma touches_persist k : touches [enc k] (persist k).
Proof.
  unfold persist. foot. apply touches_stmt. intros now t t' n.
  destruct (kv_meta t !! enc k) as [[kt [x|]]|]; [|by intros [= <- _]..].
  case_match; intros [= <- _]; [apply frame_insert_meta|done].
Qed.
Lemma touches_randomKey p : touches [] (randomKey p).
Proof. unfold randomKey. foot. Qed.
Lemma touches_keyType k : touches [] (keyType k).
Proof. apply touches_getKeyType. Qed.
Lemma touches_dbSize : touches [] dbSize.
Proof. unfold dbSize. foot. Qed.
Lemma touches_keys p : touches [] (keys p).
Proof. unfold keys. foot. apply touches_stmt. intros now t t' n ?. by repeat case_match; simplify_eq. Qed.

Lemma rekey_lookup {V} old new (m m' : gmap string V) k :
  rekey old new m = Some m' → k ≠ old → k ≠ new → m' !! k = m !! k.
Proof.
  unfold rekey. destruct (m !! old) as [r|]; [|by intros [= <-]]. case_bool_decide; [done|]. intros [= <-] Ho Hn.
  by rewrite lookup_insert_ne, lookup_delete_ne.
Qed.
Lemma rekey2_lookup {B V} `{Countable B} (old new : string) (m m' : gmap (string * B) V) (k : string) (b : B) :
  rekey2 old new m = Some m' → k ≠ old → k ≠ new → m' !! (k, b) = m !! (k, b).
Proof.
  unfold rekey2. case_bool_decide; [done|]. intros [= <-] Ho Hn.
  transitivity (drop_key old m !! (k, b)); [|rewrite drop_key_lookup; by case_decide].
  apply (map_fold_weak_ind (λ acc _, acc !! (k, b) = drop_key old m !! (k, b))); [done|].
  intros p r m2 acc _ IH. rewrite lookup_insert_ne; [done|congruence].
Qed.
Lemma frame_rekey_meta old new t m :
  rekey old new (kv_meta t) = Some m → frame [old; new] t (upd_meta (λ _, m) t).
Proof. intros E k Hk. split_and!; try done. cbn. eapply rekey_lookup; [exact E|set_solver..]. Qed.
Lemma frame_table_rekey table old new t t' : table_rekey table old new t = Some t' → frame [old; new] t t'.
Proof.
  unfold table_rekey. intros E k Hk.
  repeat (case_bool_decide; [apply fmap_Some in E as (m & E & ->);
    split_and!; try done; cbn; intros; first [eapply rekey_lookup; [exact E|set_solver..]
      |eapply rekey2_lookup; [exact E|set_solver..]]|]). by injection E as <-.
Qed.

Lemma rename_locks_first a b : locks_first [enc a; enc b] (rename a b).
Proof.
  unfold rename. cbv zeta. eexists. split; [reflexivity|intros []; cbv beta]. foot; apply touches_stmt; intros now t t' u.
  - destruct (rekey _ _ _) eqn:E; [|done]. intros [= <- _]. by apply frame_rekey_meta.
  - destruct (table_rekey _ _ _ _) eqn:E; [|done]. intros [= <- _]. by eapply frame_table_rekey.
Qed.
Lemma touches_rename a b : touches [enc a; enc b] (rename a b).
Proof. apply locks_first_touches, rename_locks_first. Qed.

Lemma touches_copy_rows {R} (rows : list R) K : touches K (copy_rows rows).
Proof. unfold copy_rows. foot. Qed.
#[local] Hint Resolve touches_copy_rows : touches.
Lemma copyKey_locks_first a b rep : locks_first [enc a; enc b] (copyKey a b rep).
Proof.
  unfold copyKey. cbv zeta. eexists. split; [reflexivity|intros []; cbv beta]. foot. apply touches_stmt. intros now t t' u. case_bool_decide; [done|]. intros [= <- _].
  apply (frame_key (enc b)); [set_solver|apply frame_insert_strings].
Qed.
Lemma touches_copyKey a b rep : touches [enc a; enc b] (copyKey a b rep).
Proof. apply locks_first_touches, copyKey_locks_first. Qed.

(** ** Hashes *)

Lemma frame_upsert_fields k l t : frame [k] t (upd_hashes (λ m, foldl (upsert_field k) m l) t).
Proof.
  apply frame_upd_hashes. intros k' b Hk. generalize (kv_hashes t). induction l as [|fv l IH]; intros m; cbn; [done|].
  rewrite IH. unfold upsert_field. rewrite lookup_insert_ne; congruence.
Qed.

Lemma touches_hGet k f : touches [] (hGet k f).
Proof. unfold hGet. foot. Qed.
Lemma touches_hSet k fs : touches [enc k] (hSet k fs).
Proof.
  unfold hSet. destruct fs as [|fv fs]; [apply touches_ret|]. foot. apply touches_stmt. intros now t t' u.
  case_bool_decide; [|done]. intros [= <- _].
  exact (frame_upsert_fields (enc k) (zip (encodeField <$> (fv :: fs).*1) (fv :: fs).*2) t).
Qed.
Lemma touches_hDel k fs : touches [enc k] (hDel k fs).
Proof.
  unfold hDel. apply touches_stmt. intros now t t' u [= <- _]. apply frame_filter_hashes.
  intros p Hp. apply dec_stable in Hp. by destruct Hp.
Qed.
Lemma touches_hGetAll k : touches [] (hGetAll k).
Proof. unfold hGetAll. foot. Qed.
Lemma touches_hMGet k fs : touches [] (hMGet k fs).
Proof. unfold hMGet. foot. Qed.
Lemma touches_hExists k f : touches [] (hExists k f).
Proof. unfold hExists. foot. Qed.
Lemma touches_hKeys k : touches [] (hKeys k).
Proof. unfold hKeys. foot. Qed.
Lemma touches_hVals k : touches [] (hVals k).
Proof. unfold hVals. foot. Qed.
Lemma touches_hLen k : touches [] (hLen k).
Proof. unfold hLen. foot. Qed.
Lemma touches_hIncrBy k f n : touches [enc k] (hIncrBy k f n).
Proof. unfold hIncrBy. foot. Qed.
Lemma touches_hIncrByFloat F k f n : touches [enc k] (hIncrByFloat F k f n).
Proof. unfold hIncrByFloat. foot. Qed.
Lemma touches_hSetNX k f v : touches [enc k] (hSetNX k f v).
Proof.
  unfold hSetNX. foot. apply touches_stmt. intros now t t' n. case_match; intros [= <- _]; [done|].
  apply frame_insert_hash.
Qed.

(** ** Lists *)

Lemma insert_rows_lookup k l m m' k' i :
  insert_rows k l m = Some m' → k' ≠ k → m' !! (k', i) = m !! (k', i).
Proof.
  revert m. induction l as [|[j v] l IH]; intros m; cbn; [by intros [= <-]|].
  destruct (m !! (k, j)); [done|]. intros E Hk. rewrite (IH _ E Hk). apply lookup_insert_ne. congruence.
Qed.
Lemma frame_insert_rows k l t m : insert_rows k l (kv_lists t) = Some m → frame [k] t (upd_lists (λ _, m) t).
Proof. intros E. apply frame_upd_lists. intros. by eapply insert_rows_lookup. Qed.
Lemma touches_insert_stmt k l K : k ∈ K → touches K (insert_stmt k l).
Proof.
  intros Hk. apply touches_stmt. intros now t t' u. destruct (insert_rows _ _ _) eqn:E; [|done]. intros [= <- _].
  apply (frame_key k); [done|]. by eapply frame_insert_rows.
Qed.
#[local] Hint Extern 1 (touches _ (insert_stmt _ _)) => apply touches_insert_stmt; set_solver : touches.

Lemma touches_lPush k vs : touches [enc k] (lPush k vs).
Proof. unfold lPush. foot. Qed.
Lemma touches_rPush k vs : touches [enc k] (rPush k vs).
Proof. unfold rPush. foot. Qed.
Lemma touches_pop_first asc k : touches [k] (pop_first asc k).
Proof.
  apply touches_stmt. intros now t t' u. destruct (ordered _ _); intros [= <- _]; [done|apply frame_delete_rows].
Qed.
Lemma touches_lPop k : touches [enc k] (lPop k).
Proof. apply touches_pop_first. Qed.
Lemma touches_rPop k : touches [enc k] (rPop k).
Proof. apply touches_pop_first. Qed.
Lemma winner_in ks now t k : winner ks now t = Some k → k ∈ ks.
Proof.
  unfold winner. destruct (list_find _ ks) as [[i x]|] eqn:E; cbn; [|done]. intros [= <-].
  apply list_find_Some in E as (E & _). by eapply list_elem_of_lookup_2.
Qed.
Lemma touches_popMulti asc ks : touches (enc <$> ks) (popMulti asc ks).
Proof.
  unfold popMulti. destruct ks as [|k0 ks0] eqn:Ek; [apply touches_ret|]. rewrite <-Ek. foot.
  apply touches_stmt. intros now t t' u. destruct (winner _ _ _) as [k|] eqn:E; [|by intros [= <- _]].
  apply winner_in in E. rewrite encodeKeys_map in E.
  destruct (live_rows _ _ _ _); intros [= <- _]; [done|]. by apply (frame_key k); [|apply frame_delete_rows].
Qed.
Lemma touches_popMultiN asc ks n : touches (enc <$> ks) (popMultiN asc ks n).
Proof.
  unfold popMultiN. case_match; [apply touches_ret|]. foot.
  apply touches_stmt. intros now t t' u. destruct (winner _ _ _) as [k|] eqn:E; [|by intros [= <- _]].
  apply winner_in in E. rewrite encodeKeys_map in E. intros [= <- _].
  by apply (frame_key k); [|apply frame_delete_rows].
Qed.
Lemma touches_lLen k : touches [] (lLen k).
Proof. unfold lLen. foot. Qed.
Lemma touches_lRange k a b : touches [] (lRange k a b).
Proof. unfold lRange. foot. Qed.
Lemma touches_lIndex k i : touches [] (lIndex k i).
Proof. unfold lIndex. foot. Qed.
Lemma touches_lRem k n x : touches [enc k] (lRem k n x).
Proof.
  unfold lRem. foot; apply touches_stmt; intros now t t' u.
  - intros [= <- _]. apply frame_delete_rows.
  - case_match; [done|]. intros [= <- _]. apply frame_delete_rows.
Qed.
Lemma rPopLPush_locks_first a b : locks_first [enc a; enc b] (rPopLPush a b).
Proof.
  unfold rPopLPush. cbv zeta. eexists. split; [reflexivity|intros []; cbv beta]. foot.
  - apply (touches_exec1 (enc b)); [set_solver|]. intros _ t. apply frame_upd_meta. intros k Hk.
    destruct (kv_meta t !! enc b); [done|by apply lookup_insert_ne].
  - apply touches_stmt. intros now t t' u. destruct (insert_rows _ _ _) eqn:E; [|done]. intros [= <- _].
    apply (frame_key (enc b)); [set_solver|]. by eapply frame_insert_rows.
Qed.
Lemma touches_rPopLPush a b : touches [enc a; enc b] (rPopLPush a b).
Proof. apply locks_first_touches, rPopLPush_locks_first. Qed.
Lemma touches_lTrim k a b : touches [enc k] (lTrim k a b).
Proof. unfold lTrim. foot. Qed.
Lemma touches_lPos k x r n m : touches [] (lPos k x r n m).
Proof. unfold lPos. foot. Qed.
Lemma touches_lSet k i x : touches [enc k] (lSet k i x).
Proof. unfold lSet. foot. Qed.
Lemma shift_rows_lookup k l m m' k' i :
  shift_rows k l m = Some m' → k' ≠ k → m' !! (k', i) = m !! (k', i).
Proof.
  revert m. induction l as [|j l IH]; intros m; cbn; [by intros [= <-]|].
  destruct (m !! (k, j)) as [r|]; [|by apply IH]. destruct (m !! (k, (j + 1)%Z)); [done|].
  intros E Hk. rewrite (IH _ E Hk), lookup_insert_ne, lookup_delete_ne; congruence.
Qed.
Lemma touches_lInsert scan k p x b : touches [enc k] (lInsert scan k p x b).
Proof.
  unfold lInsert. foot. apply touches_stmt. intros now t t' u.
  destruct (shift_rows _ _ _) eqn:E; [|done]. intros [= <- _].
  apply frame_upd_lists. intros. by eapply shift_rows_lookup.
Qed.

(** ** Sets *)

Lemma insert_members_lookup k l m n k' x :
  k' ≠ k → (insert_members k l m n).1 !! (k', x) = m !! (k', x).
Proof.
  intros Hk. revert m n. induction l as [|y l IH]; intros m n; cbn; [done|].
  destruct (m !! (k, y)); rewrite IH; [done|]. apply lookup_insert_ne. congruence.
Qed.
Lemma touches_sAdd k l : touches [enc k] (sAdd k l).
Proof.
  unfold sAdd. foot; apply touches_stmt; intros now t t' u.
  all: destruct (insert_members _ _ _ _) as [m n] eqn:E; intros [= <- _]; apply frame_upd_sets; intros.
  all: change m with (m, n).1; rewrite <-E; by apply insert_members_lookup.
Qed.
Lemma touches_sRem k l : touches [enc k] (sRem k l).
Proof.
  unfold sRem. apply touches_stmt. intros now t t' u [= <- _]. apply frame_filter_sets.
  intros p Hp. apply dec_stable in Hp. by destruct Hp.
Qed.
Lemma touches_sMembers k K : touches K (sMembers k).
Proof. unfold sMembers. foot. Qed.
#[local] Hint Resolve touches_sMembers : touches.
Lemma touches_sIsMember k x : touches [] (sIsMember k x).
Proof. unfold sIsMember. foot. Qed.
Lemma touches_sCard k : touches [] (sCard k).
Proof. unfold sCard. foot. Qed.
Lemma touches_sMIsMember k l : touches [] (sMIsMember k l).
Proof. unfold sMIsMember. foot. Qed.
Lemma touches_sInter_loop R ks r K : touches K (sInter_loop R ks r).
Proof. revert r. induction ks as [|k ks IH]; intros r; cbn [sInter_loop]; foot. Qed.
Lemma touches_sUnion_loop R ks r K : touches K (sUnion_loop R ks r).
Proof. revert r. induction ks as [|k ks IH]; intros r; cbn [sUnion_loop]; foot. Qed.
Lemma touches_sDiff_loop R ks r K : touches K (sDiff_loop R ks r).
Proof. revert r. induction ks as [|k ks IH]; intros r; cbn [sDiff_loop]; foot. Qed.
#[local] Hint Resolve touches_sInter_loop touches_sUnion_loop touches_sDiff_loop : touches.
Lemma touches_sInter R ks K : touches K (sInter R ks).
Proof. unfold sInter. foot. Qed.
Lemma touches_sUnion R ks K : touches K (sUnion R ks).
Proof. unfold sUnion. foot. Qed.
Lemma touches_sDiff R ks K : touches K (sDiff R ks).
Proof. unfold sDiff. foot. Qed.
#[local] Hint Resolve touches_sInter touches_sUnion touches_sDiff : touches.
Lemma touches_storeMembers dst l : touches [enc dst] (storeMembers (enc dst) l).
Proof.
  unfold storeMembers. foot. pose proof (touches_sAdd (enc dst) l) as H. by rewrite encodeKey_idemp in H.
Qed.
#[local] Hint Resolve touches_storeMembers : touches.
Lemma touches_sInterStore R dst ks : touches [enc dst] (sInterStore R dst ks).
Proof. unfold sInterStore. foot. Qed.
Lemma touches_sUnionStore R dst ks : touches [enc dst] (sUnionStore R dst ks).
Proof. unfold sUnionStore. foot. Qed.
Lemma touches_sDiffStore R dst ks : touches [enc dst] (sDiffStore R dst ks).
Proof. unfold sDiffStore. foot. Qed.
Lemma touches_sInterCard R ks n : touches [] (sInterCard R ks n).
Proof. unfold sInterCard. foot. Qed.

(** ** HyperLogLogs *)

Lemma frame_upsert_hll k v t : frame [k] t (upd_hll (upsert_value k v) t).
Proof.
  apply frame_upd_hll. intros k' Hk. unfold upsert_value, upsert_with.
  destruct (kv_hyperloglog t !! k) as [[??]|]; by rewrite lookup_insert_ne.
Qed.
Lemma touches_save k h : touches [k] (save k h).
Proof. apply touches_exec. intros _ t. apply frame_upsert_hll. Qed.
#[local] Hint Resolve touches_save : touches.
Lemma touches_pfAdd k l : touches [enc k] (pfAdd k l).
Proof. unfold pfAdd. foot. Qed.
Lemma touches_merge_keys ks h K : touches K (merge_keys ks h).
Proof. revert h. induction ks as [|k ks IH]; intros h; cbn [merge_keys]; foot. Qed.
#[local] Hint Resolve touches_merge_keys : touches.
Lemma touches_pfCount F ks : touches [] (pfCount F ks).
Proof. unfold pfCount. foot. Qed.
(** PFMERGE changes its destination and locks the sources as well. *)
Lemma pfMerge_locks_first dst ks : locks_first (enc dst :: (enc <$> ks)) (pfMerge dst ks).
Proof.
  unfold pfMerge. cbv zeta. rewrite (encodeKeys_map ks). eexists. split; [reflexivity|intros []; cbv beta].
  foot. apply (touches_key (enc dst)); [by left|apply touches_save].
Qed.
Lemma touches_pfMerge dst ks : touches (enc dst :: (enc <$> ks)) (pfMerge dst ks).
Proof. apply locks_first_touches, pfMerge_locks_first. Qed.

(** ** Sorted sets *)

Lemma touches_select {A} K (f : Z → tables → result A) : touches K (select f).
Proof. apply touches_stmt. intros now t t' a. destruct (f now t); [by intros [= <- _]|done]. Qed.
#[local] Hint Resolve touches_select frame_zdelete : touches.
Lemma touches_zAdd_loop k l o a c : touches [k] (zAdd_loop k l o a c).
Proof.
  revert a c. induction l as [|[m s] l IH]; intros a c; cbn [zAdd_loop]; foot; try apply IH.
  - apply touches_exec. intros _ t. apply frame_upd_zsets. intros k' m' Hk. apply lookup_alter_ne. congruence.
  - apply touches_stmt. intros now t t' u. case_bool_decide; [done|]. intros [= <- _].
    apply frame_upd_zsets. intros k' m' Hk. apply lookup_insert_ne. congruence.
Qed.
#[local] Hint Resolve touches_zAdd_loop : touches.
Lemma touches_zAdd k l o : touches [enc k] (zAdd k l o).
Proof. unfold zAdd. foot. Qed.
Lemma touches_zrange asc k a b K : touches K (zrange asc k a b).
Proof. unfold zrange. foot. Qed.
Lemma touches_zrange_score asc k a b o c : touches [] (zrange_score asc k a b o c).
Proof. unfold zrange_score. foot. Qed.
Lemma touches_zrange_lex asc k a b o c : touches [] (zrange_lex asc k a b o c).
Proof. unfold zrange_lex. foot. Qed.
Lemma touches_zLexCount k a b : touches [] (zLexCount k a b).
Proof. unfold zLexCount. foot. Qed.
Lemma touches_zCount k a b : touches [] (zCount k a b).
Proof. unfold zCount. foot. Qed.
Lemma touches_zScore k m : touches [] (zScore k m).
Proof. unfold zScore. foot. Qed.
Lemma touches_zCard k : touches [] (zCard k).
Proof. unfold zCard. foot. Qed.
Lemma touches_zrank asc k m : touches [] (zrank asc k m).
Proof. unfold zrank. foot. Qed.
Lemma touches_zScan k c p n : touches [] (zScan k c p n).
Proof. unfold zScan. foot. Qed.
Lemma touches_zdelete k p : touches [k] (stmt (λ _ t, Ok (zdelete k p t))).
Proof. apply touches_stmt. intros now t t' u [= <- _]. apply frame_zdelete. Qed.
#[local] Hint Resolve touches_zdelete : touches.
Lemma touches_zRem k l : touches [enc k] (zRem k l).
Proof. unfold zRem. foot. Qed.
Lemma touches_zRemRangeByScore k a b : touches [enc k] (zRemRangeByScore k a b).
Proof. unfold zRemRangeByScore. foot. Qed.
Lemma touches_zRemRangeByRank k a b : touches [enc k] (zRemRangeByRank k a b).
Proof.
  unfold zRemRangeByRank. foot. apply touches_stmt. intros now t t' u [= <- _]. apply frame_zdelete.
Qed.
Lemma touches_zpop asc k n : touches [enc k] (zpop asc k n).
Proof. unfold zpop. foot. apply touches_exec. intros _ t. apply frame_zdelete. Qed.
Lemma zwinner_in ks now t k : zwinner ks now t = Some k → k ∈ ks.
Proof.
  unfold zwinner. destruct (list_find _ ks) as [[i x]|] eqn:E; cbn; [|done]. intros [= <-].
  apply list_find_Some in E as (E & _). by eapply list_elem_of_lookup_2.
Qed.
Lemma touches_zMPop asc ks n : touches (enc <$> ks) (zMPop asc ks n).
Proof.
  unfold zMPop. case_match; [apply touches_ret|]. foot.
  apply touches_stmt. intros now t t' u. destruct (zwinner _ _ _) as [k|] eqn:E; [|by intros [= <- _]].
  apply zwinner_in in E. rewrite encodeKeys_map in E. intros [= <- _].
  apply (frame_key k); [done|]. apply frame_zdelete.
Qed.
Lemma insert_zrows_lookup k l m m' k' x :
  insert_zrows k l m = Some m' → k' ≠ k → m' !! (k', x) = m !! (k', x).
Proof.
  revert m. induction l as [|[y s] l IH]; intros m; cbn; [by intros [= <-]|].
  destruct (m !! (k, y)); [done|]. intros E Hk. rewrite (IH _ E Hk). apply lookup_insert_ne. congruence.
Qed.
Lemma touches_zRangeStore dst src spec : touches [enc dst] (zRangeStore dst src spec).
Proof.
  unfold zRangeStore. foot. apply touches_stmt. intros now t t' u. destruct (store_source _ _ _ _); [|done].
  destruct (insert_zrows _ _ _) as [m|] eqn:E; [|done]. intros [= <- _].
  apply frame_upd_zsets. intros. by eapply insert_zrows_lookup.
Qed.
Lemma touches_zIncrBy F k d m : touches [enc k] (zIncrBy F k d m).
Proof.
  unfold zIncrBy. foot.
  - apply touches_exec. intros _ t. apply frame_upd_meta. intros k' Hk.
    destruct (kv_meta t !! enc k); [done|by apply lookup_insert_ne].
  - apply touches_stmt. intros now t t' u. destruct (kv_zsets t !! (enc k, m)) as [[s x]|].
    + destruct (pg_add F s d); [|done]. intros [= <- _]. apply frame_upd_zsets. intros. apply lookup_insert_ne. congruence.
    + intros [= <- _]. apply frame_upd_zsets. intros. apply lookup_insert_ne. congruence.
Qed.
#[local] Hint Resolve touches_zrange : touches.
Lemma touches_union_loop F ks ws sc K : touches K (union_loop F ks ws sc).
Proof. revert ws sc. induction ks as [|k ks IH]; intros ws sc; cbn [union_loop]; foot. Qed.
Lemma touches_inter_loop F ks ws sc K : touches K (inter_loop F ks ws sc).
Proof. revert ws sc. induction ks as [|k ks IH]; intros ws sc; cbn [inter_loop]; foot. Qed.
#[local] Hint Resolve touches_union_loop touches_inter_loop : touches.
Lemma touches_store_scores F dst agg sc : touches [enc dst] (store_scores F (enc dst) agg sc).
Proof.
  unfold store_scores. foot. rewrite <-(encodeKey_idemp dst) at 1. apply touches_zAdd.
Qed.
#[local] Hint Resolve touches_store_scores : touches.
Lemma touches_zUnionStore F dst ks ws agg : touches [enc dst] (zUnionStore F dst ks ws agg).
Proof. unfold zUnionStore. foot. Qed.
Lemma touches_zInterStore F dst ks ws agg : touches [enc dst] (zInterStore F dst ks ws agg).
Proof. unfold zInterStore. foot. Qed.

(** ** Random sampling *)

Lemma touches_make K n size : touches K (make n size).
Proof. unfold make. foot. Qed.
#[local] Hint Resolve touches_make : touches.
Lemma touches_hRandField R k n w : touches [] (hRandField R k n w).
Proof. unfold hRandField. foot. Qed.
Lemma touches_sRandMember R k n : touches [] (sRandMember R k n).
Proof. unfold sRandMember. foot. Qed.
Lemma touches_zRandMember R k n : touches [] (zRandMember R k n).
Proof. unfold zRandMember. foot. Qed.

End Footprint.
