(* ===== verification/Ops.v ===== *)
(** * The storage interface: internal/storage/interface.go, storage.go, transaction.go

    The interface [Operations] that the command handlers are written against,
    as a signature: one constructor per method, grouped as interface.go
    groups them, indexed by the type of what the method returns besides its
    error. Methods with a [found] result return an option. A handler is a
    [prog]: the calls it makes, each with its continuation.

    The signature has two implementations, [tx_op] for [TxStore] (every method
    runs inside the transaction that is open) and [store_op] for [Store]
    (reads go to the pool, writes through [withTx]). What both promise a
    handler is the class [OpsImpl]: a call changes the rows of the keys it is
    given and no others. *)
From stdpp Require Import gmap strings list sorting.
From Stdlib Require Import ZArith Lia Ascii.
From S2P Require Import Prelude GoStd KeyCodec Db StoreMeta StoreStrings StoreBits StoreBitmaps StoreKeys StoreHash StoreLists StoreSets StoreHll StoreZSets StoreSampling Footprint.
Import Db KeyCodec Meta StringOps BitOps BitmapOps KeyOps HashOps ListOps SetOps Hll HllOps ZSetOps Sampling Footprint.

Module Ops.

(** ** The signature *)

Inductive string_op : Set → Type :=
| Get (key : string) : string_op (option string)
| Set_ (key value : string) (ttl : Z) : string_op unit
| SetNX (key value : string) (ttl : Z) : string_op bool
| MGet (keys : list string) : string_op (list (option string))
| MSet (pairs : gmap string string) : string_op unit
| Incr (key : string) (delta : Z) : string_op Z
| IncrByFloat (key : string) (delta : Z) : string_op Z
| Append (key value : string) : string_op Z
| GetRange (key : string) (start end_ : Z) : string_op string
| SetRange (key : string) (offset : Z) (value : string) : string_op Z
| StrLen (key : string) : string_op Z
| GetEx (key : string) (ttl : Z) (persist : bool) : string_op (option string)
| GetDel (key : string) : string_op (option string)
| GetSet (key value : string) : string_op (option string)
| BitField (key : string) (ops : list BitFieldOp) : string_op (list (option Z)).

Inductive key_op : Set → Type :=
| Del (keys : list string) : key_op Z
| Exists_ (keys : list string) : key_op Z
| Expire (key : string) (ttl : Z) (opts : ExpireOptions) : key_op bool
| ExpireAt (key : string) (timestamp : Z) (opts : ExpireOptions) : key_op bool
| TTL (key : string) : key_op Z
| PTTL (key : string) : key_op Z
| Persist (key : string) : key_op bool
| Keys (pattern : string) : key_op (list string)
| Type_ (key : string) : key_op string
| Rename (oldKey newKey : string) : key_op unit
| Copy (source destination : string) (replace : bool) : key_op bool
| RandomKey : key_op (option string)
| DBSize : key_op Z.

Inductive bitmap_op : Set → Type :=
| SetBit (key : string) (offset value : Z) : bitmap_op Z
| GetBit (key : string) (offset : Z) : bitmap_op Z
| BitCount (key : string) (start end_ : Z) (useBit : bool) : bitmap_op Z
| BitOp (operation destKey : string) (keys : list string) : bitmap_op Z
| BitPos (key : string) (bit start end_ : Z) (useBit : bool) : bitmap_op Z.

Inductive hash_op : Set → Type :=
| HGet (key field : string) : hash_op (option string)
| HSet (key : string) (fields : gmap string string) : hash_op Z
| HDel (key : string) (fields : list string) : hash_op Z
| HGetAll (key : string) : hash_op (gmap string string)
| HMGet (key : string) (fields : list string) : hash_op (list (option string))
| HExists (key field : string) : hash_op bool
| HKeys (key : string) : hash_op (list string)
| HVals (key : string) : hash_op (list string)
| HLen (key : string) : hash_op Z
| HIncrBy (key field : string) (increment : Z) : hash_op Z
| HIncrByFloat (key field : string) (increment : Z) : hash_op Z
| HSetNX (key field value : string) : hash_op bool
| HRandField (key : string) (count : Z) (withValues : bool) : hash_op (list string).

Inductive list_op : Set → Type :=
| LPush (key : string) (values : list string) : list_op Z
| RPush (key : string) (values : list string) : list_op Z
| LPop (key : string) : list_op (option string)
| RPop (key : string) : list_op (option string)
| LPopMulti (keys : list string) : list_op (option (string * string))
| RPopMulti (keys : list string) : list_op (option (string * string))
| LMPop (keys : list string) (count : Z) : list_op (option (string * list string))
| RMPop (keys : list string) (count : Z) : list_op (option (string * list string))
| LLen (key : string) : list_op Z
| LRange (key : string) (start stop : Z) : list_op (list string)
| LIndex (key : string) (index : Z) : list_op (option string)
| LRem (key : string) (count : Z) (element : string) : list_op Z
| LTrim (key : string) (start stop : Z) : list_op unit
| RPopLPush (source destination : string) : list_op (option string)
| LPos (key element : string) (rank count maxlen : Z) : list_op (list Z)
| LSet (key : string) (index : Z) (element : string) : list_op unit
| LInsert (key pivot element : string) (before : bool) : list_op Z.

Inductive set_op : Set → Type :=
| SAdd (key : string) (members : list string) : set_op Z
| SRem (key : string) (members : list string) : set_op Z
| SMembers (key : string) : set_op (list string)
| SIsMember (key member : string) : set_op bool
| SCard (key : string) : set_op Z
| SMIsMember (key : string) (members : list string) : set_op (list bool)
| SInter (keys : list string) : set_op (list string)
| SInterStore (destination : string) (keys : list string) : set_op Z
| SUnion (keys : list string) : set_op (list string)
| SUnionStore (destination : string) (keys : list string) : set_op Z
| SDiff (keys : list string) : set_op (list string)
| SDiffStore (destination : string) (keys : list string) : set_op Z
| SInterCard (keys : list string) (limit : Z) : set_op Z
| SRandMember (key : string) (count : Z) : set_op (list string).

(** The flag [withScores] of the range methods is not used by any of them. *)
Inductive zset_op : Set → Type :=
| ZAdd (key : string) (members : list ZMember) (opts : ZAddOptions) : zset_op Z
| ZRange (key : string) (start stop : Z) : zset_op (list ZMember)
| ZRangeByScore_ (key : string) (min max offset count : Z) : zset_op (list ZMember)
| ZRevRange (key : string) (start stop : Z) : zset_op (list ZMember)
| ZRevRangeByScore (key : string) (min max offset count : Z) : zset_op (list ZMember)
| ZRangeByLex_ (key : string) (min max : LexBound) (offset count : Z) : zset_op (list string)
| ZRevRangeByLex (key : string) (min max : LexBound) (offset count : Z) : zset_op (list string)
| ZLexCount (key : string) (min max : LexBound) : zset_op Z
| ZRangeStore (dst src : string) (spec : ZRangeStoreSpec) : zset_op Z
| ZRandMember (key : string) (count : Z) : zset_op (list ZMember)
| ZMPopMin (keys : list string) (count : Z) : zset_op (option (string * list ZMember))
| ZMPopMax (keys : list string) (count : Z) : zset_op (option (string * list ZMember))
| ZScore (key member : string) : zset_op (option Z)
| ZRem (key : string) (members : list string) : zset_op Z
| ZRemRangeByScore (key : string) (min max : Z) : zset_op Z
| ZRemRangeByRank (key : string) (start stop : Z) : zset_op Z
| ZCard (key : string) : zset_op Z
| ZIncrBy (key : string) (increment : Z) (member : string) : zset_op Z
| ZPopMin (key : string) (count : Z) : zset_op (list ZMember)
| ZPopMax (key : string) (count : Z) : zset_op (list ZMember)
| ZRank (key member : string) : zset_op (option Z)
| ZRevRank (key member : string) : zset_op (option Z)
| ZCount (key : string) (min max : Z) : zset_op Z
| ZScan (key : string) (cursor : Z) (pattern : string) (count : Z) : zset_op (Z * list ZMember)
| ZUnionStore (destination : string) (keys : list string) (weights : list Z) (aggregate : string) : zset_op Z
| ZInterStore (destination : string) (keys : list string) (weights : list Z) (aggregate : string) : zset_op Z.

Inductive hll_op : Set → Type :=
| PFAdd (key : string) (elements : list string) : hll_op Z
| PFCount (keys : list string) : hll_op Z
| PFMerge (destKey : string) (sourceKeys : list string) : hll_op unit.

Inductive op (A : Set) : Type :=
| StringOp (o : string_op A) | KeyOp (o : key_op A) | BitmapOp (o : bitmap_op A)
| HashOp (o : hash_op A) | ListOp (o : list_op A) | SetOp (o : set_op A) | HllOp (o : hll_op A)
| ZSetOp (o : zset_op A).
Arguments StringOp {_}. Arguments KeyOp {_}. Arguments BitmapOp {_}.
Arguments HashOp {_}. Arguments ListOp {_}. Arguments SetOp {_}. Arguments HllOp {_}. Arguments ZSetOp {_}.

(** ** Handlers as programs *)

(** A run of a handler: it returns, panics, reads the clock, tells the list
    notifier about a push, or calls a storage operation and goes on with its
    result. *)
Inductive prog (A : Type) : Type :=
| Ret (a : A)
| Panic (what : string)
| Now (k : Z → prog A)
| NotifyPush (key : string) (k : prog A)
| Call {B : Set} (o : op B) (k : result B → prog A).
Arguments Ret {_}. Arguments Panic {_}. Arguments Now {_}. Arguments NotifyPush {_}. Arguments Call {_ _}.

Fixpoint prog_bind {A B} (f : A → prog B) (p : prog A) : prog B :=
  match p with
  | Ret a => f a
  | Panic what => Panic what
  | Now k => Now (λ now, prog_bind f (k now))
  | NotifyPush key k => NotifyPush key (prog_bind f k)
  | Call o k => Call o (λ r, prog_bind f (k r))
  end.
#[export] Instance prog_ret : MRet prog := λ _ a, Ret a.
#[export] Instance prog_mbind : MBind prog := λ _ _ f p, prog_bind f p.

Definition call {B : Set} (o : op B) : prog (result B) := Call o Ret.

(** All calls a program can make, whatever they return, satisfy [P]. *)
Fixpoint calls (P : ∀ B : Set, op B → Prop) {A} (p : prog A) : Prop :=
  match p with
  | Ret _ | Panic _ => True
  | Now k => ∀ now, calls P (k now)
  | NotifyPush _ k => calls P k
  | Call o k => P _ o ∧ ∀ r, calls P (k r)
  end.

Lemma calls_bind (P : ∀ B : Set, op B → Prop) {A B} (p : prog A) (f : A → prog B) :
  calls P p → (∀ a, calls P (f a)) → calls P (p ≫= f).
Proof.
  intros Hp Hf. unfold mbind, prog_mbind.
  induction p as [a|what|k IH|key k IH|B' o k IH]; cbn in *; auto.
  destruct Hp as [Ho Hk]. auto.
Qed.

Lemma calls_mono (P Q : ∀ B : Set, op B → Prop) {A} (p : prog A) :
  (∀ (B : Set) (o : op B), P B o → Q B o) → calls P p → calls Q p.
Proof.
  intros HPQ. induction p as [a|what|k IH|key k IH|B' o k IH]; cbn; auto. intros [Ho Hk]. auto.
Qed.

(** ** The keys an operation writes *)

Definition string_writes {A} (o : string_op A) : list string :=
  match o with
  | Set_ key _ _ | SetNX key _ _ | Incr key _ | IncrByFloat key _ | Append key _ | SetRange key _ _
  | GetEx key _ _ | GetDel key | GetSet key _ | BitField key _ => [key]
  | MSet pairs => (map_to_list pairs).*1
  | Get _ | MGet _ | GetRange _ _ _ | StrLen _ => []
  end.
Definition key_writes {A} (o : key_op A) : list string :=
  match o with
  | Del keys => keys
  | Expire key _ _ | ExpireAt key _ _ | Persist key => [key]
  | Rename a b | Copy a b _ => [a; b]
  | Exists_ _ | TTL _ | PTTL _ | Keys _ | Type_ _ | RandomKey | DBSize => []
  end.
Definition bitmap_writes {A} (o : bitmap_op A) : list string :=
  match o with
  | SetBit key _ _ => [key]
  | BitOp _ destKey _ => [destKey]
  | GetBit _ _ | BitCount _ _ _ _ | BitPos _ _ _ _ _ => []
  end.
Definition hash_writes {A} (o : hash_op A) : list string :=
  match o with
  | HSet key _ | HDel key _ | HIncrBy key _ _ | HIncrByFloat key _ _ | HSetNX key _ _ => [key]
  | HGet _ _ | HGetAll _ | HMGet _ _ | HExists _ _ | HKeys _ | HVals _ | HLen _
  | HRandField _ _ _ => []
  end.
Definition list_writes {A} (o : list_op A) : list string :=
  match o with
  | LPush key _ | RPush key _ | LPop key | RPop key | LRem key _ _ | LTrim key _ _ | LSet key _ _
  | LInsert key _ _ _ => [key]
  | LPopMulti keys | RPopMulti keys | LMPop keys _ | RMPop keys _ => keys
  | RPopLPush a b => [a; b]
  | LLen _ | LRange _ _ _ | LIndex _ _ | LPos _ _ _ _ _ => []
  end.
Definition set_writes {A} (o : set_op A) : list string :=
  match o with
  | SAdd key _ | SRem key _ | SInterStore key _ | SUnionStore key _ | SDiffStore key _ => [key]
  | SMembers _ | SIsMember _ _ | SCard _ | SMIsMember _ _ | SInter _ | SUnion _ | SDiff _
  | SInterCard _ _ | SRandMember _ _ => []
  end.
(** PFMERGE changes its destination only, but locks its sources as well. *)
Definition hll_writes {A} (o : hll_op A) : list string :=
  match o with
  | PFAdd key _ => [key]
  | PFMerge destKey sourceKeys => destKey :: sourceKeys
  | PFCount _ => []
  end.
Definition zset_writes {A} (o : zset_op A) : list string :=
  match o with
  | ZAdd key _ _ | ZRangeStore key _ _ | ZRem key _ | ZRemRangeByScore key _ _ | ZRemRangeByRank key _ _
  | ZIncrBy key _ _ | ZPopMin key _ | ZPopMax key _ | ZUnionStore key _ _ _ | ZInterStore key _ _ _ => [key]
  | ZMPopMin keys _ | ZMPopMax keys _ => keys
  | ZRange _ _ _ | ZRangeByScore_ _ _ _ _ _ | ZRevRange _ _ _ | ZRevRangeByScore _ _ _ _ _
  | ZRangeByLex_ _ _ _ _ _ | ZRevRangeByLex _ _ _ _ _ | ZLexCount _ _ _ | ZRandMember _ _ | ZScore _ _
  | ZCard _ | ZRank _ _ | ZRevRank _ _ | ZCount _ _ _ | ZScan _ _ _ _ => []
  end.
Definition writes {A : Set} (o : op A) : list string :=
  match o with
  | StringOp o => string_writes o | KeyOp o => key_writes o | BitmapOp o => bitmap_writes o
  | HashOp o => hash_writes o | ListOp o => list_writes o | SetOp o => set_writes o
  | HllOp o => hll_writes o | ZSetOp o => zset_writes o
  end.

(** ** TxStore *)

(** The process: when it started, where it runs, its poll interval, and the conversions between
    durations and doubles: [int(d.Seconds())], [int(d.Hours()/24)] and
    [time.Duration(t * float64(time.Second))]. *)
Record process := Process {
  startTime : Z;
  GOOS : string;
  GOARCH : string;
  whole_seconds : Z → Z;
  whole_days : Z → Z;
  float_seconds : Z → Z;
  blockingPollInterval : Z
}.

(** What Go and PostgreSQL leave open, and floating-point arithmetic: the row
    that [ORDER BY random()] puts first, the order in which an UPDATE visits
    rows, the iteration order of Go maps, random numbers. *)
Record runtime := MkRuntime {
  pick : list string → option string;
  scan : list Z → list Z;
  range_set : gset string → list string;
  range_map : gmap string string → list (string * string);
  floats : float64_ops;
  hllmath : hll_math;
  score_arith : score_ops;
  randoms : random_ops;
  proc : process
}.

(** A loop over a map visits every entry once. *)
Class RuntimeOk (R : runtime) : Prop := range_map_perm m : range_map R m ≡ₚ map_to_list m.

Section Implementations.
Context (R : runtime).

Definition tx_string {A} (o : string_op A) : M A :=
  match o with
  | Get key => get key
  | Set_ key value ttl => set key value ttl
  | SetNX key value ttl => setNX key value ttl
  | MGet keys => mGet keys
  | MSet pairs => mSet (range_map R pairs)
  | Incr key delta => incr key delta
  | IncrByFloat key delta => incrByFloat (floats R) key delta
  | Append key value => appendStr key value
  | GetRange key start end_ => getRange key start end_
  | SetRange key offset value => setRange key offset value
  | StrLen key => strLen key
  | GetEx key ttl persist => getEx key ttl persist
  | GetDel key => getDel key
  | GetSet key value => getSet key value
  | BitField key ops => bitField key ops
  end.
Definition tx_key {A} (o : key_op A) : M A :=
  match o with
  | Del ks => del ks
  | Exists_ ks => exists_ ks
  | Expire key ttl opts => expire key ttl opts
  | ExpireAt key timestamp opts => expireAt key timestamp opts
  | TTL key => ttl key
  | PTTL key => pttl key
  | Persist key => persist key
  | Keys pattern => keys pattern
  | Type_ key => keyType key
  | Rename a b => rename a b
  | Copy a b replace => copyKey a b replace
  | RandomKey => randomKey (pick R)
  | DBSize => dbSize
  end.
Definition tx_bitmap {A} (o : bitmap_op A) : M A :=
  match o with
  | SetBit key offset value => setBit key offset value
  | GetBit key offset => getBit key offset
  | BitCount key start end_ useBit => bitCount key start end_ useBit
  | BitOp operation destKey keys => bitOp operation destKey keys
  | BitPos key bit start end_ useBit => bitPos key bit start end_ useBit
  end.
Definition tx_hash {A} (o : hash_op A) : M A :=
  match o with
  | HGet key field => hGet key field
  | HSet key fields => hSet key (range_map R fields)
  | HDel key fields => hDel key fields
  | HGetAll key => hGetAll key
  | HMGet key fields => hMGet key fields
  | HExists key field => hExists key field
  | HKeys key => hKeys key
  | HVals key => hVals key
  | HLen key => hLen key
  | HIncrBy key field increment => hIncrBy key field increment
  | HIncrByFloat key field increment => hIncrByFloat (floats R) key field increment
  | HSetNX key field value => hSetNX key field value
  | HRandField key count withValues => hRandField (randoms R) key count withValues
  end.
Definition tx_list {A} (o : list_op A) : M A :=
  match o with
  | LPush key values => lPush key values
  | RPush key values => rPush key values
  | LPop key => lPop key
  | RPop key => rPop key
  | LPopMulti keys => popMulti true keys
  | RPopMulti keys => popMulti false keys
  | LMPop keys count => popMultiN true keys count
  | RMPop keys count => popMultiN false keys count
  | LLen key => lLen key
  | LRange key start stop => lRange key start stop
  | LIndex key index => lIndex key index
  | LRem key count element => lRem key count element
  | LTrim key start stop => lTrim key start stop
  | RPopLPush a b => rPopLPush a b
  | LPos key element rank count maxlen => lPos key element rank count maxlen
  | LSet key index element => lSet key index element
  | LInsert key pivot element before => lInsert (scan R) key pivot element before
  end.
Definition tx_set {A} (o : set_op A) : M A :=
  match o with
  | SAdd key members => sAdd key members
  | SRem key members => sRem key members
  | SMembers key => sMembers key
  | SIsMember key member => sIsMember key member
  | SCard key => sCard key
  | SMIsMember key members => sMIsMember key members
  | SInter keys => sInter (range_set R) keys
  | SInterStore dst keys => sInterStore (range_set R) dst keys
  | SUnion keys => sUnion (range_set R) keys
  | SUnionStore dst keys => sUnionStore (range_set R) dst keys
  | SDiff keys => sDiff (range_set R) keys
  | SDiffStore dst keys => sDiffStore (range_set R) dst keys
  | SInterCard keys limit => sInterCard (range_set R) keys limit
  | SRandMember key count => sRandMember (randoms R) key count
  end.
Definition tx_hll {A} (o : hll_op A) : M A :=
  match o with
  | PFAdd key elements => pfAdd key elements
  | PFCount keys => pfCount (hllmath R) keys
  | PFMerge destKey sourceKeys => pfMerge destKey sourceKeys
  end.
Definition tx_zset {A} (o : zset_op A) : M A :=
  match o with
  | ZAdd key members opts => zAdd key members opts
  | ZRange key start stop => zRange key start stop
  | ZRangeByScore_ key min max offset count => zRangeByScore key min max offset count
  | ZRevRange key start stop => zRevRange key start stop
  | ZRevRangeByScore key min max offset count => zRevRangeByScore key min max offset count
  | ZRangeByLex_ key min max offset count => zRangeByLex key min max offset count
  | ZRevRangeByLex key min max offset count => zRevRangeByLex key min max offset count
  | ZLexCount key min max => zLexCount key min max
  | ZRangeStore dst src spec => zRangeStore dst src spec
  | ZRandMember key count => zRandMember (randoms R) key count
  | ZMPopMin keys count => zMPopMin keys count
  | ZMPopMax keys count => zMPopMax keys count
  | ZScore key member => zScore key member
  | ZRem key members => zRem key members
  | ZRemRangeByScore key min max => zRemRangeByScore key min max
  | ZRemRangeByRank key start stop => zRemRangeByRank key start stop
  | ZCard key => zCard key
  | ZIncrBy key increment member => zIncrBy (score_arith R) key increment member
  | ZPopMin key count => zPopMin key count
  | ZPopMax key count => zPopMax key count
  | ZRank key member => zRank key member
  | ZRevRank key member => zRevRank key member
  | ZCount key min max => zCount key min max
  | ZScan key cursor pattern count => zScan key cursor pattern count
  | ZUnionStore dst keys weights aggregate => zUnionStore (score_arith R) dst keys weights aggregate
  | ZInterStore dst keys weights aggregate => zInterStore (score_arith R) dst keys weights aggregate
  end.
Definition tx_op {A : Set} (o : op A) : M A :=
  match o with
  | StringOp o => tx_string o | KeyOp o => tx_key o | BitmapOp o => tx_bitmap o
  | HashOp o => tx_hash o | ListOp o => tx_list o | SetOp o => tx_set o
  | HllOp o => tx_hll o | ZSetOp o => tx_zset o
  end.

(** ** Store *)

(** A method that sends its statements to the pool, outside a transaction. *)
Definition direct {A} (m : M A) (e : nat → env) (s : st) : st * result A := m (e 0%nat) s.

Definition store_string {A} (o : string_op A) : (nat → env) → st → st * result A :=
  match o with
  | Get _ | MGet _ | GetRange _ _ _ | StrLen _ => direct (tx_string o)
  | Set_ _ _ _ | SetNX _ _ _ | MSet _ | Incr _ _ | IncrByFloat _ _ | Append _ _ | SetRange _ _ _
  | GetEx _ _ _ | GetDel _ | GetSet _ _ | BitField _ _ => withTx (tx_string o)
  end.
Definition store_key {A} (o : key_op A) : (nat → env) → st → st * result A :=
  match o with
  | Exists_ _ | TTL _ | PTTL _ | Keys _ | Type_ _ | RandomKey | DBSize => direct (tx_key o)
  | Del _ | Expire _ _ _ | ExpireAt _ _ _ | Persist _ | Rename _ _ | Copy _ _ _ => withTx (tx_key o)
  end.
Definition store_bitmap {A} (o : bitmap_op A) : (nat → env) → st → st * result A :=
  match o with
  | GetBit _ _ | BitCount _ _ _ _ | BitPos _ _ _ _ _ => direct (tx_bitmap o)
  | SetBit _ _ _ | BitOp _ _ _ => withTx (tx_bitmap o)
  end.
Definition store_hash {A} (o : hash_op A) : (nat → env) → st → st * result A :=
  match o with
  | HGet _ _ | HDel _ _ | HGetAll _ | HMGet _ _ | HExists _ _ | HKeys _ | HVals _ | HLen _
  | HRandField _ _ _ => direct (tx_hash o)
  | HSet _ _ | HIncrBy _ _ _ | HIncrByFloat _ _ _ | HSetNX _ _ _ => withTx (tx_hash o)
  end.
Definition store_list {A} (o : list_op A) : (nat → env) → st → st * result A :=
  match o with
  | LLen _ | LRange _ _ _ | LIndex _ _ | LRem _ _ _ | LPos _ _ _ _ _ => direct (tx_list o)
  | LPush _ _ | RPush _ _ | LPop _ | RPop _ | LPopMulti _ | RPopMulti _ | LMPop _ _ | RMPop _ _
  | LTrim _ _ _ | RPopLPush _ _ | LSet _ _ _ | LInsert _ _ _ _ => withTx (tx_list o)
  end.
Definition store_set {A} (o : set_op A) : (nat → env) → st → st * result A :=
  match o with
  | SRem _ _ | SMembers _ | SIsMember _ _ | SCard _ | SMIsMember _ _ | SInter _ | SUnion _ | SDiff _
  | SInterCard _ _ | SRandMember _ _ => direct (tx_set o)
  | SAdd _ _ | SInterStore _ _ | SUnionStore _ _ | SDiffStore _ _ => withTx (tx_set o)
  end.
Definition store_hll {A} (o : hll_op A) : (nat → env) → st → st * result A :=
  match o with
  | PFCount _ => direct (tx_hll o)
  | PFAdd _ _ | PFMerge _ _ => withTx (tx_hll o)
  end.
Definition store_zset {A} (o : zset_op A) : (nat → env) → st → st * result A :=
  match o with
  | ZRange _ _ _ | ZRangeByScore_ _ _ _ _ _ | ZRevRange _ _ _ | ZRevRangeByScore _ _ _ _ _
  | ZRangeByLex_ _ _ _ _ _ | ZRevRangeByLex _ _ _ _ _ | ZLexCount _ _ _ | ZRandMember _ _ | ZScore _ _
  | ZRem _ _ | ZRemRangeByScore _ _ _ | ZCard _ | ZRank _ _ | ZRevRank _ _ | ZCount _ _ _ | ZScan _ _ _ _ =>
      direct (tx_zset o)
  | ZAdd _ _ _ | ZRangeStore _ _ _ | ZMPopMin _ _ | ZMPopMax _ _ | ZRemRangeByRank _ _ _ | ZIncrBy _ _ _
  | ZPopMin _ _ | ZPopMax _ _ | ZUnionStore _ _ _ _ | ZInterStore _ _ _ _ => withTx (tx_zset o)
  end.
Definition store_op {A : Set} (o : op A) : (nat → env) → st → st * result A :=
  match o with
  | StringOp o => store_string o | KeyOp o => store_key o | BitmapOp o => store_bitmap o
  | HashOp o => store_hash o | ListOp o => store_list o | SetOp o => store_set o
  | HllOp o => store_hll o | ZSetOp o => store_zset o
  end.

(** Both implementations are built from the same operations. *)
Lemma store_op_cases {A : Set} (o : op A) : store_op o = direct (tx_op o) ∨ store_op o = withTx (tx_op o).
Proof. destruct o as [o|o|o|o|o|o|o|o]; destruct o; (by left) || by right. Qed.

End Implementations.

(** ** Running a handler *)

(** A run-time panic that came up in a storage operation. *)
Definition panicked {A} (r : result A) : option goerror :=
  match r with
  | Fail er => if Strings.HasPrefix (err_text er) "runtime error: " then Some er else None
  | Ok _ => None
  end.

Section Run.
Context {T : Type} (perform : ∀ A : Set, op A → nat → T → T * result A) (clock : nat → Z).

(** The program from its [i]-th call on: the state, the keys the list
    notifier is told about, and the result; [Fail] is a panic. *)
Fixpoint run_prog {A} (p : prog A) (i : nat) (s : T) : T * list string * result A :=
  match p with
  | Ret a => (s, [], Ok a)
  | Panic what => (s, [], Fail (panic what))
  | Now k => run_prog (k (clock i)) (S i) s
  | NotifyPush key k => let '(s, ks, r) := run_prog k i s in (s, key :: ks, r)
  | Call o k =>
      let '(s, r) := perform _ o i s in
      match panicked r with
      | Some er => (s, [], Fail er)
      | None => run_prog (k r) (S i) s
      end
  end.

Lemma run_bind_assoc {A B C} (p : prog A) (f : A → prog B) (g : B → prog C) i s :
  run_prog ((p ≫= f) ≫= g) i s = run_prog (p ≫= λ a, f a ≫= g) i s.
Proof.
  unfold mbind, prog_mbind. revert i s.
  induction p as [a|what|k IH|key k IH|B' o k IH]; intros i s; cbn [prog_bind run_prog]; [done..| | |].
  - apply IH.
  - by rewrite IH.
  - destruct (perform B' o i s) as [s' r]. destruct (panicked r); [done|apply IH].
Qed.

End Run.

(** What an implementation promises: [rel K s s'] relates the states around a
    call that writes the (stored) keys [K]. *)
Class OpsImpl {T} (perform : ∀ A : Set, op A → nat → T → T * result A)
    (rel : list string → T → T → Prop) : Prop := {
  rel_refl K s : rel K s s;
  rel_trans K s1 s2 s3 : rel K s1 s2 → rel K s2 s3 → rel K s1 s3;
  rel_mono K K' s s' : K ⊆ K' → rel K s s' → rel K' s s';
  rel_perform (A : Set) (o : op A) i s : rel (encodeKey <$> writes o) s (perform A o i s).1
}.

(** A program that only writes keys in [K] stays within the relation, panics
    included. *)
Lemma run_prog_rel {T} perform clock (rel : list string → T → T → Prop) `{!OpsImpl perform rel} {A} K (p : prog A) i s :
  calls (λ _ o, writes o ⊆ K) p → rel (encodeKey <$> K) s (run_prog perform clock p i s).1.1.
Proof.
  revert i s. induction p as [a|what|k IH|key k IH|B o k IH]; intros i s Hp; cbn [run_prog].
  - apply rel_refl.
  - apply rel_refl.
  - apply IH, Hp.
  - specialize (IH i s Hp). by destruct (run_prog perform clock k i s) as [[s' ks] r].
  - destruct Hp as [Ho Hk]. pose proof (rel_perform B o i s) as Hr.
    destruct (perform B o i s) as [s1 r]. cbn in Hr.
    apply (rel_mono _ (encodeKey <$> K)) in Hr; [|intros x; rewrite !list_elem_of_fmap; set_solver].
    destruct (panicked r); [done|]. eapply rel_trans; [exact Hr|]. by apply IH.
Qed.

(** *** The two implementations *)

Definition tx_perform (R : runtime) (e : env) (A : Set) (o : op A) (_ : nat) (s : st) : st * result A :=
  tx_op R o e s.
(** A call of [Store] makes at most four attempts, each in an environment of
    its own. *)
Definition store_perform (R : runtime) (e : nat → env) (A : Set) (o : op A) (i : nat) (s : st) : st * result A :=
  store_op R o (λ n, e (4 * i + n)%nat) s.

Definition tx_rel (K : list string) (s s' : st) : Prop :=
  frame K (db s) (db s') ∧ requests K s s'.
Definition store_rel (K : list string) (s s' : st) : Prop := frame K (db s) (db s').

Lemma touches_tx_rel {A} K (m : M A) e s : touches K m → tx_rel K s (m e s).1.
Proof. intros H. destruct (m e s) as [s' r] eqn:E. by destruct (H _ _ _ _ E) as (? & _ & ?). Qed.

Lemma touches_tx_op R `{!RuntimeOk R} {A : Set} (o : op A) : touches (encodeKey <$> writes o) (tx_op R o).
Proof.
  destruct o as [o|o|o|o|o|o|o|o]; destruct o; cbn [tx_op tx_string tx_key tx_bitmap tx_hash tx_list tx_set tx_hll tx_zset
    writes string_writes key_writes bitmap_writes hash_writes list_writes set_writes hll_writes zset_writes fmap list_fmap];
    eauto using touches_get, touches_set, touches_setNX, touches_mGet, touches_incr, touches_appendStr,
      touches_getRange, touches_setRange, touches_strLen, touches_getEx, touches_getDel, touches_getSet,
      touches_incrByFloat, touches_bitField, touches_del, touches_exists, touches_expire, touches_expireAt,
      touches_ttl, touches_pttl, touches_persist, touches_keys, touches_keyType, touches_rename,
      touches_copyKey, touches_randomKey, touches_dbSize, touches_setBit, touches_getBit, touches_bitCount,
      touches_bitOp, touches_bitPos, touches_hGet, touches_hSet, touches_hDel, touches_hGetAll, touches_hMGet,
      touches_hExists, touches_hKeys, touches_hVals, touches_hLen, touches_hIncrBy, touches_hIncrByFloat,
      touches_hSetNX, touches_lPush, touches_rPush, touches_lPop, touches_rPop, touches_popMulti,
      touches_popMultiN, touches_lLen, touches_lRange, touches_lIndex, touches_lRem, touches_lTrim,
      touches_rPopLPush, touches_lPos, touches_lSet, touches_lInsert, touches_sAdd, touches_sRem,
      touches_sMembers, touches_sIsMember, touches_sCard, touches_sMIsMember, touches_sInter,
      touches_sInterStore, touches_sUnion, touches_sUnionStore, touches_sDiff, touches_sDiffStore,
      touches_sInterCard, touches_pfAdd, touches_pfCount, touches_pfMerge, touches_hRandField,
      touches_sRandMember, touches_zRandMember, touches_zAdd, touches_zrange, touches_zrange_score,
      touches_zrange_lex, touches_zLexCount, touches_zRangeStore, touches_zMPop, touches_zScore, touches_zRem,
      touches_zRemRangeByScore, touches_zRemRangeByRank, touches_zCard, touches_zIncrBy, touches_zpop,
      touches_zrank, touches_zCount, touches_zScan, touches_zUnionStore, touches_zInterStore.
  eapply touches_mono; [|apply touches_mSet]. intros k. rewrite !list_elem_of_fmap.
  intros (x & -> & Hx). exists x. split; [done|]. by rewrite <-(range_map_perm pairs).
Qed.

(** A call of [Store] that runs in a transaction and fails changes nothing or
    (the answer to its COMMIT lost) has gone through; when it succeeds its
    transaction changed only its keys. *)
Lemma touches_withTx {A} K (m : M A) e s : touches K m → store_rel K s (withTx m e s).1.
Proof.
  intros H. unfold store_rel. destruct (withTx m e s) as [s' r] eqn:E. apply withTx_from_outcome in E.
  destruct r as [a|er].
  - destruct E as (k & s1 & s2 & _ & E & <- & _ & _ & Hd). cbn. rewrite Hd. exact (proj1 (H _ _ _ _ E)).
  - cbn. destruct E as [->|(k & _ & a & s1 & s2 & E & <- & _ & _ & _ & _ & <-)]; [done|]. exact (proj1 (H _ _ _ _ E)).
Qed.

#[export] Instance tx_impl R `{!RuntimeOk R} e : OpsImpl (tx_perform R e) tx_rel.
Proof.
  split.
  - by split; [|apply requests_same].
  - intros K s1 s2 s3 [F1 L1] [F2 L2]. split; [by etrans|by eapply requests_trans].
  - intros K K' s s' HK [F L]. split; [by eapply frame_mono|by eapply requests_mono].
  - intros A o i s. apply (touches_tx_rel _ (tx_op R o)), touches_tx_op, _.
Qed.

#[export] Instance store_impl R `{!RuntimeOk R} e : OpsImpl (store_perform R e) store_rel.
Proof.
  split.
  - done.
  - intros K s1 s2 s3 F1 F2. unfold store_rel in *. by etrans.
  - intros K K' s s' HK F. by eapply frame_mono.
  - intros A o i s. unfold store_perform.
    destruct (store_op_cases R o) as [-> | ->]; [|apply touches_withTx, touches_tx_op, _].
    exact (proj1 (touches_tx_rel _ _ _ _ (touches_tx_op R o))).
Qed.

End Ops.
