(* ===== verification/CmdStrings.v ===== *)
(** * String and bitmap commands: internal/handler/handler_ops.go

    The handlers of the string and bitmap commands, one definition each: the
    checks on their arguments, the storage calls and the replies. A handler
    is a [prog] over the storage interface (file Ops), so the same
    definition runs on the store and inside a transaction. *)
From stdpp Require Import gmap strings list.
From Stdlib Require Import ZArith Lia Ascii.
From S2P Require Import Prelude GoStd Resp KeyCodec Db StoreMeta StoreStrings StoreBits Ops Client PubSub Handler.
Import Resp Ops StringOps BitOps.

(** ** Shared by all handlers *)

Module Cmd.
Local Open Scope Z_scope.

Definition notInteger : Value := Err "value is not an integer or out of range".
Definition ERRnotInteger : Value := Err "ERR value is not an integer or out of range".
Definition syntaxError : Value := Err "syntax error".
Definition ERRsyntaxError : Value := Err "ERR syntax error".

(** [resp.Err(err.Error())], and with the test for WRONGTYPE before it. *)
Definition errReply (er : goerror) : Value := Err (err_text er).
Definition typedReply (er : goerror) : Value :=
  if Strings.Contains (err_text er) "WRONGTYPE" then ErrWrongType else errReply er.

(** A call whose error is the reply. *)
Definition replying {B : Set} (onErr : goerror → Value) (o : op B) (f : B → Value) : prog Value :=
  r ← call o;
  match r with Ok a => mret (f a) | Fail er => mret (onErr er) end.
Definition reply {B : Set} (o : op B) (f : B → Value) : prog Value := replying errReply o f.
Definition replyT {B : Set} (o : op B) (f : B → Value) : prog Value := replying typedReply o f.

Definition ok {A} (_ : A) : Value := OK.
Definition boolInt (b : bool) : Value := if b then Int 1 else Int 0.
Definition optBulk (o : option string) : Value := match o with Some s => Bulk s | None => NullBulk end.
Definition bulks (l : list string) : Value := Arr (Bulk <$> l).

(** The values of the arguments, and the pairs of a field list as a Go map. *)
Definition strs (args : list Value) : list string := vBulk <$> args.
Fixpoint pairs_of (args : list Value) (m : gmap string string) : gmap string string :=
  match args with
  | k :: v :: args => pairs_of args (<[vBulk k := vBulk v]> m)
  | _ => m
  end.

(** ** time *)

(** [time.Duration(n) * unit], for [unit] in nanoseconds. *)
Definition Duration (n unit : Z) : Z := wrap64 (n * unit).
Definition Second : Z := 10 ^ 9.
Definition Millisecond : Z := 10 ^ 6.
(** [time.Unix(sec, 0)]: seconds are counted from the year 1, in 64 bits. *)
Definition Unix (sec : Z) : Z := (wrap64 (sec + 62135596800) - 62135596800) * Second.
Definition UnixMilli (ms : Z) : Z := ms * Millisecond.
(** [time.Until(t)]: durations saturate. *)
Definition Until (t now : Z) : Z := Z.max (- 2 ^ 63) (Z.min (2 ^ 63 - 1) (t - now)).

End Cmd.

Module StringCmds.
Import Cmd.
Local Open Scope Z_scope.

Section StringCmds.
Context (R : runtime).

Definition getOp (args : list Value) : prog Value :=
  match args with
  | [key] => reply (StringOp (Get (vBulk key))) optBulk
  | _ => mret (ErrWrongArgs "get")
  end.

(** *** SET *)

Record setOpts := MkSetOpts { so_ttl : Z; so_nx : bool; so_xx : bool; so_keepTTL : bool; so_get : bool }.
Definition setOpts0 : setOpts := MkSetOpts 0 false false false false.
Definition with_ttl (ttl : Z) (o : setOpts) : setOpts :=
  MkSetOpts ttl (so_nx o) (so_xx o) (so_keepTTL o) (so_get o).
Definition with_nx (o : setOpts) : setOpts := MkSetOpts (so_ttl o) true (so_xx o) (so_keepTTL o) (so_get o).
Definition with_xx (o : setOpts) : setOpts := MkSetOpts (so_ttl o) (so_nx o) true (so_keepTTL o) (so_get o).
Definition with_keepTTL (o : setOpts) : setOpts := MkSetOpts (so_ttl o) (so_nx o) (so_xx o) true (so_get o).
Definition with_get (o : setOpts) : setOpts := MkSetOpts (so_ttl o) (so_nx o) (so_xx o) (so_keepTTL o) true.

(** The time to live that EX, PX, EXAT or PXAT [n] stand for. *)
Definition expiryOption (opt : string) (n : Z) : prog Z :=
  if bool_decide (opt = "EX") then mret (Duration n Second)
  else if bool_decide (opt = "PX") then mret (Duration n Millisecond)
  else if bool_decide (opt = "EXAT") then Now (λ now, mret (Until (Unix n) now))
  else Now (λ now, mret (Until (UnixMilli n) now)).
Definition isExpiryOption (opt : string) : bool := bool_decide (opt ∈ ["EX"; "PX"; "EXAT"; "PXAT"]).

(** The option loop. *)
Fixpoint setOptions (args : list Value) (o : setOpts) : prog (Value + setOpts) :=
  match args with
  | [] => mret (inr o)
  | a :: rest =>
      let opt := Strings.ToUpper (vBulk a) in
      if isExpiryOption opt then
        match rest with
        | [] => mret (inl syntaxError)
        | n :: rest =>
            match Strconv.ParseInt (vBulk n) with
            | None => mret (inl notInteger)
            | Some n => ttl ← expiryOption opt n; setOptions rest (with_ttl ttl o)
            end
        end
      else if bool_decide (opt = "NX") then setOptions rest (with_nx o)
      else if bool_decide (opt = "XX") then setOptions rest (with_xx o)
      else if bool_decide (opt = "KEEPTTL") then setOptions rest (with_keepTTL o)
      else if bool_decide (opt = "GET") then setOptions rest (with_get o)
      else setOptions rest o
  end.

(** KEEPTTL: the time to live to set. *)
Definition keptTTL (key : string) (o : setOpts) : prog (Value + Z) :=
  if so_keepTTL o && (so_ttl o =? 0) then
    r ← call (KeyOp (TTL key));
    match r with
    | Fail er => mret (inl (errReply er))
    | Ok currentTTL => mret (inr (if 0 <? currentTTL then Duration currentTTL Second else so_ttl o))
    end
  else mret (inr (so_ttl o)).

(** GET: the value before the command. *)
Definition oldValue (key : string) (o : setOpts) : prog (Value + option string) :=
  if so_get o then
    r ← call (StringOp (Get key));
    match r with
    | Fail er => mret (inl (errReply er))
    | Ok old => mret (inr old)
    end
  else mret (inr None).

Definition setReply (o : setOpts) (old : option string) : Value := if so_get o then optBulk old else OK.
(** The reply when NX or XX does not hold. *)
Definition notSet (o : setOpts) (old : option string) : Value := if so_get o then optBulk old else NullBulk.

(** The rest of [setOp] once the options are known. *)
Definition setWith (key value : string) (o : setOpts) : prog Value :=
  t ← keptTTL key o;
  match t with
  | inl v => mret v
  | inr ttl =>
      old ← oldValue key o;
      match old with
      | inl v => mret v
      | inr old =>
          if so_nx o then
            reply (StringOp (SetNX key value ttl)) (λ done : bool, if done then setReply o old else notSet o old)
          else if so_xx o then
            exists_ ← (if so_get o then mret (inr (bool_decide (is_Some old)))
                       else r ← call (StringOp (Get key));
                            mret match r with
                                 | Fail er => inl (errReply er)
                                 | Ok found => inr (bool_decide (is_Some found))
                                 end);
            match exists_ with
            | inl v => mret v
            | inr false => mret (notSet o old)
            | inr true => reply (StringOp (Set_ key value ttl)) (λ _, setReply o old)
            end
          else reply (StringOp (Set_ key value ttl)) (λ _, setReply o old)
      end
  end.

Definition setOp (args : list Value) : prog Value :=
  match args with
  | key :: value :: opts =>
      o ← setOptions opts setOpts0;
      match o with
      | inl v => mret v
      | inr o => setWith (vBulk key) (vBulk value) o
      end
  | _ => mret (ErrWrongArgs "set")
  end.

Definition setnxOp (args : list Value) : prog Value :=
  match args with
  | [key; value] => reply (StringOp (SetNX (vBulk key) (vBulk value) 0)) boolInt
  | _ => mret (ErrWrongArgs "setnx")
  end.

Definition setexOp (args : list Value) : prog Value :=
  match args with
  | [key; secs; value] =>
      match Strconv.ParseInt (vBulk secs) with
      | None => mret notInteger
      | Some secs => reply (StringOp (Set_ (vBulk key) (vBulk value) (Duration secs Second))) ok
      end
  | _ => mret (ErrWrongArgs "setex")
  end.

Definition mgetOp (args : list Value) : prog Value :=
  match args with
  | [] => mret (ErrWrongArgs "mget")
  | _ => reply (StringOp (MGet (strs args))) (λ values, Arr (optBulk <$> values))
  end.

Definition msetOp (args : list Value) : prog Value :=
  if (length args <? 2)%nat || negb (Nat.even (length args)) then mret (ErrWrongArgs "mset")
  else reply (StringOp (MSet (pairs_of args ∅))) ok.

Definition incrOp (args : list Value) : prog Value :=
  match args with
  | [key] => reply (StringOp (Incr (vBulk key) 1)) Int
  | _ => mret (ErrWrongArgs "incr")
  end.
Definition decrOp (args : list Value) : prog Value :=
  match args with
  | [key] => reply (StringOp (Incr (vBulk key) (-1))) Int
  | _ => mret (ErrWrongArgs "decr")
  end.
Definition incrbyOp (args : list Value) : prog Value :=
  match args with
  | [key; delta] =>
      match Strconv.ParseInt (vBulk delta) with
      | None => mret notInteger
      | Some delta => reply (StringOp (Incr (vBulk key) delta)) Int
      end
  | _ => mret (ErrWrongArgs "incrby")
  end.
Definition decrbyOp (args : list Value) : prog Value :=
  match args with
  | [key; delta] =>
      match Strconv.ParseInt (vBulk delta) with
      | None => mret notInteger
      | Some delta => reply (StringOp (Incr (vBulk key) (wrap64 (- delta)))) Int
      end
  | _ => mret (ErrWrongArgs "decrby")
  end.
Definition appendCmdOp (args : list Value) : prog Value :=
  match args with
  | [key; value] => reply (StringOp (Append (vBulk key) (vBulk value))) Int
  | _ => mret (ErrWrongArgs "append")
  end.

Definition getrangeOp (args : list Value) : prog Value :=
  match args with
  | [key; start; end_] =>
      match Strconv.ParseInt (vBulk start) with
      | None => mret ERRnotInteger
      | Some start =>
          match Strconv.ParseInt (vBulk end_) with
          | None => mret ERRnotInteger
          | Some end_ => reply (StringOp (GetRange (vBulk key) start end_)) Bulk
          end
      end
  | _ => mret (ErrWrongArgs "getrange")
  end.

Definition setrangeOp (args : list Value) : prog Value :=
  match args with
  | [key; offset; value] =>
      match Strconv.ParseInt (vBulk offset) with
      | None => mret ERRnotInteger
      | Some offset =>
          if offset <? 0 then mret (Err "ERR offset is out of range")
          else reply (StringOp (SetRange (vBulk key) offset (vBulk value))) Int
      end
  | _ => mret (ErrWrongArgs "setrange")
  end.

(** *** BITFIELD *)

Definition offsetError : Value := Err "ERR bit offset is not an integer or out of range".

(** [None] stands for the error "bit offset is not an integer or out of range". *)
Definition parseBitfieldOffset (offsetStr encoding : string) : option Z :=
  match bytes_of offsetStr with
  | "#"%char :: rest =>
      match Strconv.ParseInt (string_of rest) with
      | None => None
      | Some multiplier =>
          let bitWidth := match bytes_of encoding with
                          | _ :: ((_ :: _) as digits) => default 8 (Strconv.ParseInt (string_of digits))
                          | _ => 8
                          end in
          Some (wrap64 (multiplier * bitWidth))
      end
  | _ => Strconv.ParseInt offsetStr
  end.

(** The loop over the sub-commands, with the overflow mode in force. *)
Fixpoint bitfieldArgs (overflow : string) (args : list Value) : Value + list BitFieldOp :=
  match args with
  | [] => inr []
  | a :: rest =>
      let opType := Strings.ToUpper (vBulk a) in
      if bool_decide (opType = "GET") then
        match rest with
        | encoding :: offset :: rest =>
            match parseBitfieldOffset (vBulk offset) (vBulk encoding) with
            | None => inl offsetError
            | Some offset =>
                match bitfieldArgs overflow rest with
                | inl e => inl e
                | inr ops => inr (MkBitFieldOp "GET" (vBulk encoding) offset 0 "" :: ops)
                end
            end
        | _ => inl ERRsyntaxError
        end
      else if bool_decide (opType ∈ ["SET"; "INCRBY"]) then
        match rest with
        | encoding :: offset :: value :: rest =>
            match parseBitfieldOffset (vBulk offset) (vBulk encoding) with
            | None => inl offsetError
            | Some offset =>
                match Strconv.ParseInt (vBulk value) with
                | None => inl ERRnotInteger
                | Some value =>
                    match bitfieldArgs overflow rest with
                    | inl e => inl e
                    | inr ops => inr (MkBitFieldOp opType (vBulk encoding) offset value overflow :: ops)
                    end
                end
            end
        | _ => inl ERRsyntaxError
        end
      else if bool_decide (opType = "OVERFLOW") then
        match rest with
        | mode :: rest =>
            let mode := Strings.ToUpper (vBulk mode) in
            if bool_decide (mode ∈ ["WRAP"; "SAT"; "FAIL"]) then bitfieldArgs mode rest
            else inl (Err "ERR Invalid OVERFLOW type specified")
        | [] => inl ERRsyntaxError
        end
      else inl ERRsyntaxError
  end.

Definition bitfieldOp (args : list Value) : prog Value :=
  match args with
  | [] => mret (ErrWrongArgs "bitfield")
  | key :: rest =>
      match bitfieldArgs "WRAP" rest with
      | inl e => mret e
      | inr ops =>
          reply (StringOp (BitField (vBulk key) ops))
            (λ results, Arr ((λ r, match r with None => NullBulk | Some z => Int z end) <$> results))
      end
  end.

Definition strlenOp (args : list Value) : prog Value :=
  match args with
  | [key] => replyT (StringOp (StrLen (vBulk key))) Int
  | _ => mret (ErrWrongArgs "strlen")
  end.

(** *** GETEX *)

Fixpoint getexOptions (args : list Value) (ttl : Z) (persist : bool) : prog (Value + (Z * bool)) :=
  match args with
  | [] => mret (inr (ttl, persist))
  | a :: rest =>
      let opt := Strings.ToUpper (vBulk a) in
      if isExpiryOption opt then
        match rest with
        | [] => mret (inl ERRsyntaxError)
        | n :: rest =>
            match Strconv.ParseInt (vBulk n) with
            | None => mret (inl ERRnotInteger)
            | Some n => ttl ← expiryOption opt n; getexOptions rest ttl persist
            end
        end
      else if bool_decide (opt = "PERSIST") then getexOptions rest ttl true
      else mret (inl ERRsyntaxError)
  end.

Definition getexOp (args : list Value) : prog Value :=
  match args with
  | [] => mret (ErrWrongArgs "getex")
  | key :: opts =>
      o ← getexOptions opts 0 false;
      match o with
      | inl e => mret e
      | inr (ttl, persist) => replyT (StringOp (GetEx (vBulk key) ttl persist)) optBulk
      end
  end.

Definition getdelOp (args : list Value) : prog Value :=
  match args with
  | [key] => replyT (StringOp (GetDel (vBulk key))) optBulk
  | _ => mret (ErrWrongArgs "getdel")
  end.
Definition getsetOp (args : list Value) : prog Value :=
  match args with
  | [key; value] => replyT (StringOp (GetSet (vBulk key) (vBulk value))) optBulk
  | _ => mret (ErrWrongArgs "getset")
  end.
Definition incrbyfloatOp (args : list Value) : prog Value :=
  match args with
  | [key; delta] =>
      match ParseFloat (floats R) (vBulk delta) with
      | None => mret (Err "ERR value is not a valid float")
      | Some delta =>
          replyT (StringOp (IncrByFloat (vBulk key) delta)) (λ x, Bulk (FormatFloat (floats R) x))
      end
  | _ => mret (ErrWrongArgs "incrbyfloat")
  end.

(** *** Bitmaps *)

Definition bitError : Value := Err "ERR bit is not an integer or out of range".
(** [strconv.ParseInt] with an extra condition on the number. *)
Definition parseIf (P : Z → bool) (s : string) : option Z :=
  match Strconv.ParseInt s with
  | Some n => if P n then Some n else None
  | None => None
  end.
Definition isBit (n : Z) : bool := (n =? 0) || (n =? 1).

Definition setbitOp (args : list Value) : prog Value :=
  match args with
  | [key; offset; value] =>
      match parseIf (λ n, 0 <=? n) (vBulk offset) with
      | None => mret offsetError
      | Some offset =>
          match parseIf isBit (vBulk value) with
          | None => mret bitError
          | Some value => replyT (BitmapOp (SetBit (vBulk key) offset value)) Int
          end
      end
  | _ => mret (ErrWrongArgs "setbit")
  end.

Definition getbitOp (args : list Value) : prog Value :=
  match args with
  | [key; offset] =>
      match parseIf (λ n, 0 <=? n) (vBulk offset) with
      | None => mret offsetError
      | Some offset => replyT (BitmapOp (GetBit (vBulk key) offset)) Int
      end
  | _ => mret (ErrWrongArgs "getbit")
  end.

(** The unit argument of BITCOUNT and BITPOS: BIT or BYTE. *)
Definition parseUnit (u : Value) : Value + bool :=
  let unit := Strings.ToUpper (vBulk u) in
  if bool_decide (unit ∈ ["BYTE"; "BIT"]) then inr (bool_decide (unit = "BIT")) else inl ERRsyntaxError.

(** An optional argument: its default when it is not there. *)
Definition optInt (dflt : Z) (a : option Value) : Value + Z :=
  match a with
  | None => inr dflt
  | Some a => match Strconv.ParseInt (vBulk a) with None => inl ERRnotInteger | Some n => inr n end
  end.
Definition optUnit (a : option Value) : Value + bool :=
  match a with None => inr false | Some u => parseUnit u end.

(** [BITCOUNT key start] without an end reads neither. *)
Definition bitcountOp (args : list Value) : prog Value :=
  match args with
  | [] => mret (ErrWrongArgs "bitcount")
  | key :: rest =>
      let range := if (length args <? 3)%nat then [] else rest in
      match optInt 0 (range !! 0%nat) with
      | inl e => mret e
      | inr start =>
          match optInt (-1) (range !! 1%nat) with
          | inl e => mret e
          | inr end_ =>
              match optUnit (range !! 2%nat) with
              | inl e => mret e
              | inr useBit => replyT (BitmapOp (BitCount (vBulk key) start end_ useBit)) Int
              end
          end
      end
  end.

Definition bitopOp (args : list Value) : prog Value :=
  match args with
  | operation :: destKey :: ((_ :: _) as keys) =>
      let operation := Strings.ToUpper (vBulk operation) in
      if negb (bool_decide (operation ∈ ["AND"; "OR"; "XOR"; "NOT"])) then mret ERRsyntaxError
      else if bool_decide (operation = "NOT") && negb (length keys =? 1)%nat
      then mret (Err "ERR BITOP NOT requires one and only one key")
      else replyT (BitmapOp (BitOp operation (vBulk destKey) (strs keys))) Int
  | _ => mret (ErrWrongArgs "bitop")
  end.

Definition bitposOp (args : list Value) : prog Value :=
  match args with
  | key :: bit :: rest =>
      match parseIf isBit (vBulk bit) with
      | None => mret bitError
      | Some bit =>
          match optInt 0 (rest !! 0%nat) with
          | inl e => mret e
          | inr start =>
              match optInt (-1) (rest !! 1%nat) with
              | inl e => mret e
              | inr end_ =>
                  match optUnit (rest !! 2%nat) with
                  | inl e => mret e
                  | inr useBit => replyT (BitmapOp (BitPos (vBulk key) bit start end_ useBit)) Int
                  end
              end
          end
      end
  | _ => mret (ErrWrongArgs "bitpos")
  end.

End StringCmds.
End StringCmds.
