(* ===== verification/CmdKeys.v ===== *)
(** * Key commands: internal/handler/handler_ops.go

    The handlers of the commands on keys, whatever their type: deletion,
    expiry, names and types, and the two ways of listing the keyspace, KEYS
    and SCAN. *)
From stdpp Require Import gmap strings list.
From Stdlib Require Import ZArith Lia Ascii.
From S2P Require Import Prelude GoStd Resp KeyCodec Db StoreMeta StoreKeys Ops CmdStrings.
Import Resp Ops Meta KeyOps Cmd.

Module KeyCmds.
Local Open Scope Z_scope.

Definition delOp (args : list Value) : prog Value :=
  match args with
  | [] => mret (ErrWrongArgs "del")
  | _ => reply (KeyOp (Del (strs args))) Int
  end.
Definition unlinkOp (args : list Value) : prog Value := delOp args.

Definition existsOp (args : list Value) : prog Value :=
  match args with
  | [] => mret (ErrWrongArgs "exists")
  | _ => reply (KeyOp (Exists_ (strs args))) Int
  end.

(** *** Expiry *)

Fixpoint expireFlags (args : list Value) (o : ExpireOptions) : Value + ExpireOptions :=
  match args with
  | [] => inr o
  | a :: args =>
      let flag := Strings.ToUpper (vBulk a) in
      if bool_decide (flag = "NX") then expireFlags args (MkExpireOptions true (XX o) (GT o) (LT o))
      else if bool_decide (flag = "XX") then expireFlags args (MkExpireOptions (NX o) true (GT o) (LT o))
      else if bool_decide (flag = "GT") then expireFlags args (MkExpireOptions (NX o) (XX o) true (LT o))
      else if bool_decide (flag = "LT") then expireFlags args (MkExpireOptions (NX o) (XX o) (GT o) true)
      else inl (Err ("ERR Unsupported option " +:+ vBulk a))
  end.
Definition parseExpireOptions (args : list Value) : Value + ExpireOptions :=
  match expireFlags args (MkExpireOptions false false false false) with
  | inl e => inl e
  | inr o =>
      if NX o && (XX o || GT o || LT o)
      then inl (Err "ERR NX and XX, GT or LT options at the same time are not compatible")
      else if GT o && LT o then inl (Err "ERR GT and LT options at the same time are not compatible")
      else inr o
  end.

(** The four commands differ in their error texts and in what the number
    means. *)
Definition expireWith (name : string) (notInt : Value) (o : string → Z → ExpireOptions → key_op bool)
    (args : list Value) : prog Value :=
  match args with
  | key :: n :: flags =>
      match Strconv.ParseInt (vBulk n) with
      | None => mret notInt
      | Some n =>
          match parseExpireOptions flags with
          | inl e => mret e
          | inr opts => reply (KeyOp (o (vBulk key) n opts)) boolInt
          end
      end
  | _ => mret (ErrWrongArgs name)
  end.
Definition expireOp : list Value → prog Value :=
  expireWith "expire" notInteger (λ key n opts, Expire key (Duration n Second) opts).
Definition pexpireOp : list Value → prog Value :=
  expireWith "pexpire" notInteger (λ key n opts, Expire key (Duration n Millisecond) opts).
Definition expireatOp : list Value → prog Value :=
  expireWith "expireat" ERRnotInteger (λ key n opts, ExpireAt key (Unix n) opts).
Definition pexpireatOp : list Value → prog Value :=
  expireWith "pexpireat" ERRnotInteger (λ key n opts, ExpireAt key (UnixMilli n) opts).

Definition ttlOp (args : list Value) : prog Value :=
  match args with [key] => reply (KeyOp (TTL (vBulk key))) Int | _ => mret (ErrWrongArgs "ttl") end.
Definition pttlOp (args : list Value) : prog Value :=
  match args with [key] => reply (KeyOp (PTTL (vBulk key))) Int | _ => mret (ErrWrongArgs "pttl") end.
Definition persistOp (args : list Value) : prog Value :=
  match args with [key] => reply (KeyOp (Persist (vBulk key))) boolInt | _ => mret (ErrWrongArgs "persist") end.

(** *** Names and types *)

Definition keysOp (args : list Value) : prog Value :=
  match args with [pattern] => reply (KeyOp (Keys (vBulk pattern))) bulks | _ => mret (ErrWrongArgs "keys") end.
Definition typeCmdOp (args : list Value) : prog Value :=
  match args with
  | [key] => reply (KeyOp (Type_ (vBulk key))) (VStr SimpleString)
  | _ => mret (ErrWrongArgs "type")
  end.
Definition renameOp (args : list Value) : prog Value :=
  match args with
  | [a; b] => reply (KeyOp (Rename (vBulk a) (vBulk b))) ok
  | _ => mret (ErrWrongArgs "rename")
  end.
Definition copyOp (args : list Value) : prog Value :=
  match args with
  | source :: destination :: opts =>
      let replace := existsb (λ a, bool_decide (Strings.ToUpper (vBulk a) = "REPLACE")) opts in
      reply (KeyOp (Copy (vBulk source) (vBulk destination) replace)) boolInt
  | _ => mret (ErrWrongArgs "copy")
  end.
Definition randomKeyOp (args : list Value) : prog Value :=
  match args with [] => reply (KeyOp RandomKey) optBulk | _ => mret (ErrWrongArgs "randomkey") end.
Definition dbsizeOp (args : list Value) : prog Value := reply (KeyOp DBSize) Int.

Definition objectHelp : Value :=
  Arr [Bulk "OBJECT <subcommand> [<arg> ...]. Subcommands are:"; Bulk "ENCODING <key>";
       Bulk "    Return the kind of internal representation used to store the value at <key>."].
Definition objectFreq : Value :=
  Err "ERR An LFU maxmemory policy is not selected, access frequency not tracked. Please note that when switching between maxmemory policies at runtime LFU and LRU data will take some time to adjust.".
Definition encodingOf (kt : string) : Value :=
  if bool_decide (kt = TypeNone) then Err "ERR no such key"
  else if bool_decide (kt = TypeString) then Bulk "raw"
  else if bool_decide (kt = TypeHash) then Bulk "listpack"
  else if bool_decide (kt = TypeList) then Bulk "quicklist"
  else if bool_decide (kt = TypeSet) then Bulk "listpack"
  else if bool_decide (kt = TypeZSet) then Bulk "skiplist"
  else Bulk "raw".
Definition objectOp (args : list Value) : prog Value :=
  match args with
  | [] => mret (ErrWrongArgs "object")
  | a :: rest =>
      let sub := Strings.ToUpper (vBulk a) in
      if bool_decide (sub = "ENCODING") then
        match rest with
        | [key] => reply (KeyOp (Type_ (vBulk key))) encodingOf
        | _ => mret (ErrWrongArgs "object encoding")
        end
      else if bool_decide (sub = "HELP") then mret objectHelp
      else if bool_decide (sub ∈ ["FREQ"; "IDLETIME"; "REFCOUNT"]) then mret objectFreq
      else mret (Err ("ERR Unknown subcommand or wrong number of arguments for '" +:+
                      Strings.ToLower (vBulk a) +:+ "'. Try OBJECT HELP."))
  end.

(** WATCH and UNWATCH do nothing. *)
Definition watchOp (args : list Value) : prog Value := mret OK.
Definition unwatchOp (args : list Value) : prog Value := mret OK.

(** *** SCAN *)

(** The page of [all] that starts at [start]: [count] elements at most, and
    the cursor of the next page, "0" after the last. A slice with bounds out
    of order panics. *)
Definition page (start count : Z) (all : list string) : prog Value :=
  let len := Z.of_nat (length all) in
  if len <=? start then mret (Arr [Bulk "0"; Arr []])
  else
    let end_ := wrap64 (start + count) in
    let end_ := if len <? end_ then len else end_ in
    if (start <? 0) || (end_ <? start) then Panic "slice bounds out of range"
    else mret (Arr [Bulk (if len <=? end_ then "0" else Strconv.Itoa end_);
                    bulks (take (Z.to_nat (end_ - start)) (drop (Z.to_nat start) all))]).

Record scanOpts := MkScanOpts { sc_pattern : string; sc_count : Z; sc_type : string }.
Fixpoint scanOptions (args : list Value) (o : scanOpts) : Value + scanOpts :=
  match args with
  | [] => inr o
  | a :: rest =>
      let opt := Strings.ToUpper (vBulk a) in
      if bool_decide (opt = "MATCH") then
        match rest with
        | [] => inl syntaxError
        | p :: rest => scanOptions rest (MkScanOpts (vBulk p) (sc_count o) (sc_type o))
        end
      else if bool_decide (opt = "COUNT") then
        match rest with
        | [] => inl syntaxError
        | n :: rest => match Strconv.ParseInt (vBulk n) with
                       | None => inl notInteger
                       | Some n => scanOptions rest (MkScanOpts (sc_pattern o) n (sc_type o))
                       end
        end
      else if bool_decide (opt = "TYPE") then
        match rest with
        | [] => inl syntaxError
        | t :: rest => scanOptions rest (MkScanOpts (sc_pattern o) (sc_count o) (Strings.ToLower (vBulk t)))
        end
      else scanOptions rest o
  end.

(** The keys of one type; a key whose type cannot be read is left out. *)
Fixpoint filterType (typeFilter : string) (keys : list string) : prog (list string) :=
  match keys with
  | [] => mret []
  | key :: keys =>
      r ← call (KeyOp (Type_ key));
      rest ← filterType typeFilter keys;
      match r with
      | Ok kt => mret (if bool_decide (kt = typeFilter) then key :: rest else rest)
      | Fail _ => mret rest
      end
  end.

Definition scanOp (args : list Value) : prog Value :=
  match args with
  | [] => mret (ErrWrongArgs "scan")
  | cursor :: opts =>
      match Strconv.ParseInt (vBulk cursor) with
      | None => mret (Err "invalid cursor")
      | Some cursor =>
          match scanOptions opts (MkScanOpts "*" 10 "") with
          | inl e => mret e
          | inr o =>
              r ← call (KeyOp (Keys (sc_pattern o)));
              match r with
              | Fail er => mret (errReply er)
              | Ok allKeys =>
                  filtered ← (if bool_decide (sc_type o = "") then mret allKeys
                              else filterType (sc_type o) allKeys);
                  page cursor (sc_count o) filtered
              end
          end
      end
  end.

End KeyCmds.
