(* ===== verification/CmdCollections.v ===== *)
(** * Hash, list, set and HyperLogLog commands: internal/handler/handler_ops.go

    The handlers of the commands on hashes, lists, sets and HyperLogLogs that
    do not block and do not sample at random. *)
From stdpp Require Import gmap strings list.
From Stdlib Require Import ZArith Lia Ascii.
From S2P Require Import Prelude GoStd Resp KeyCodec Db StoreMeta StoreStrings Glob Client PubSub Handler Ops CmdStrings CmdKeys.
Import Resp StringOps Ops Cmd Glob KeyCmds.

(** ** Hashes *)

Module HashCmds.
Local Open Scope Z_scope.

Section HashCmds.
Context (R : runtime).

Definition hgetOp (args : list Value) : prog Value :=
  match args with
  | [key; field] => reply (HashOp (HGet (vBulk key) (vBulk field))) optBulk
  | _ => mret (ErrWrongArgs "hget")
  end.

(** [len(args) < 3 || (len(args)-1)%2 != 0] *)
Definition oddFields (args : list Value) : bool :=
  (length args <? 3)%nat || negb (Nat.even (length args - 1)).
Definition hsetOp (args : list Value) : prog Value :=
  if oddFields args then mret (ErrWrongArgs "hset")
  else match args with
       | [] => mret (ErrWrongArgs "hset")
       | key :: fields => replyT (HashOp (HSet (vBulk key) (pairs_of fields ∅))) Int
       end.
Definition hmsetOp (args : list Value) : prog Value :=
  if oddFields args then mret (ErrWrongArgs "hmset")
  else match args with
       | [] => mret (ErrWrongArgs "hmset")
       | key :: fields => replyT (HashOp (HSet (vBulk key) (pairs_of fields ∅))) ok
       end.

Definition hdelOp (args : list Value) : prog Value :=
  match args with
  | key :: ((_ :: _) as fields) => reply (HashOp (HDel (vBulk key) (strs fields))) Int
  | _ => mret (ErrWrongArgs "hdel")
  end.

(** The fields one after the other, each followed by its value. *)
Definition flatten (fields : list (string * string)) : list Value :=
  flat_map (λ p, [Bulk p.1; Bulk p.2]) fields.
Definition hgetallOp (ctx : hctx) (args : list Value) : prog Value :=
  match args with
  | [key] =>
      reply (HashOp (HGetAll (vBulk key)))
        (λ fields, let fields := range_map R fields in
                   if 3 <=? ctx_proto ctx then MapVal fields else Arr (flatten fields))
  | _ => mret (ErrWrongArgs "hgetall")
  end.
Definition hmgetOp (args : list Value) : prog Value :=
  match args with
  | key :: ((_ :: _) as fields) =>
      reply (HashOp (HMGet (vBulk key) (strs fields))) (λ values, Arr (optBulk <$> values))
  | _ => mret (ErrWrongArgs "hmget")
  end.
Definition hexistsOp (args : list Value) : prog Value :=
  match args with
  | [key; field] => reply (HashOp (HExists (vBulk key) (vBulk field))) boolInt
  | _ => mret (ErrWrongArgs "hexists")
  end.
Definition hkeysOp (args : list Value) : prog Value :=
  match args with [key] => reply (HashOp (HKeys (vBulk key))) bulks | _ => mret (ErrWrongArgs "hkeys") end.
Definition hvalsOp (args : list Value) : prog Value :=
  match args with [key] => reply (HashOp (HVals (vBulk key))) bulks | _ => mret (ErrWrongArgs "hvals") end.
Definition hlenOp (args : list Value) : prog Value :=
  match args with [key] => reply (HashOp (HLen (vBulk key))) Int | _ => mret (ErrWrongArgs "hlen") end.
Definition hincrbyOp (args : list Value) : prog Value :=
  match args with
  | [key; field; increment] =>
      match Strconv.ParseInt (vBulk increment) with
      | None => mret ERRnotInteger
      | Some increment => replyT (HashOp (HIncrBy (vBulk key) (vBulk field) increment)) Int
      end
  | _ => mret (ErrWrongArgs "hincrby")
  end.
Definition hincrbyfloatOp (args : list Value) : prog Value :=
  match args with
  | [key; field; increment] =>
      match ParseFloat (floats R) (vBulk increment) with
      | None => mret (Err "ERR value is not a valid float")
      | Some increment => replyT (HashOp (HIncrByFloat (vBulk key) (vBulk field) increment))
                            (λ x, Bulk (FormatFloat (floats R) x))
      end
  | _ => mret (ErrWrongArgs "hincrbyfloat")
  end.
Definition hsetnxOp (args : list Value) : prog Value :=
  match args with
  | [key; field; value] => replyT (HashOp (HSetNX (vBulk key) (vBulk field) (vBulk value))) boolInt
  | _ => mret (ErrWrongArgs "hsetnx")
  end.

(** [matchGlob] of handler_ops.go is the loop of the hub's [globMatch]. *)
Definition matchGlob (pattern s : string) : bool := globMatch pattern s.

(** The pattern of the options; a last argument without a value is ignored. *)
Fixpoint hscanPattern (args : list Value) (pattern : string) : string :=
  match args with
  | opt :: v :: args =>
      hscanPattern args (if bool_decide (Strings.ToUpper (vBulk opt) = "MATCH") then vBulk v else pattern)
  | _ => pattern
  end.
Definition hscanOp (args : list Value) : prog Value :=
  match args with
  | key :: _ :: opts =>
      let pattern := hscanPattern opts "" in
      let wanted := λ f, bool_decide (pattern = "") || bool_decide (pattern = "*") || matchGlob pattern f in
      reply (HashOp (HGetAll (vBulk key)))
        (λ fields, Arr [Bulk "0"; Arr (flatten (filter (λ p, wanted p.1 = true) (range_map R fields)))])
  | _ => mret (ErrWrongArgs "hscan")
  end.

End HashCmds.
End HashCmds.

(** ** Lists *)

Module ListCmds.
Local Open Scope Z_scope.

(** Pushes; [notifying]: the handler has a list notifier. *)
Definition pushWith (name : string) (notifying : bool) (o : string → list string → list_op Z)
    (args : list Value) : prog Value :=
  match args with
  | key :: ((_ :: _) as values) =>
      r ← call (ListOp (o (vBulk key) (strs values)));
      match r with
      | Fail er => mret (typedReply er)
      | Ok length => if notifying then NotifyPush (vBulk key) (mret (Int length)) else mret (Int length)
      end
  | _ => mret (ErrWrongArgs name)
  end.
Definition lpushOp (notifying : bool) : list Value → prog Value := pushWith "lpush" notifying LPush.
Definition rpushOp (notifying : bool) : list Value → prog Value := pushWith "rpush" notifying RPush.

Definition lpopOp (args : list Value) : prog Value :=
  match args with [key] => reply (ListOp (LPop (vBulk key))) optBulk | _ => mret (ErrWrongArgs "lpop") end.
Definition rpopOp (args : list Value) : prog Value :=
  match args with [key] => reply (ListOp (RPop (vBulk key))) optBulk | _ => mret (ErrWrongArgs "rpop") end.
Definition llenOp (args : list Value) : prog Value :=
  match args with [key] => reply (ListOp (LLen (vBulk key))) Int | _ => mret (ErrWrongArgs "llen") end.
Definition lrangeOp (args : list Value) : prog Value :=
  match args with
  | [key; start; stop] =>
      match Strconv.ParseInt (vBulk start) with
      | None => mret notInteger
      | Some start =>
          match Strconv.ParseInt (vBulk stop) with
          | None => mret notInteger
          | Some stop => reply (ListOp (LRange (vBulk key) start stop)) bulks
          end
      end
  | _ => mret (ErrWrongArgs "lrange")
  end.
Definition lindexOp (args : list Value) : prog Value :=
  match args with
  | [key; index] =>
      match Strconv.ParseInt (vBulk index) with
      | None => mret notInteger
      | Some index => reply (ListOp (LIndex (vBulk key) index)) optBulk
      end
  | _ => mret (ErrWrongArgs "lindex")
  end.

(** *** LMPOP *)

(** [numkeys key [key ...] WHERE [COUNT count]]. The outer option is a panic:
    a slice of a length that int64 arithmetic made negative or too large. *)
Definition parseMPopHead (args : list Value) (allowedWhere : list string) :
    option (Value + (list string * string * Z)) :=
  match args with
  | n :: ((_ :: _) as rest) =>
      match Strconv.ParseInt (vBulk n) with
      | None => Some (inl (Err "ERR numkeys should be greater than 0"))
      | Some numkeys =>
          if numkeys <? 1 then Some (inl (Err "ERR numkeys should be greater than 0"))
          else if Z.of_nat (length args) <? wrap64 (1 + numkeys + 1) then Some (inl ERRsyntaxError)
          else if Z.of_nat (length args) <? 1 + numkeys + 1 then None
          else
            let keys := strs (take (Z.to_nat numkeys) rest) in
            match drop (Z.to_nat numkeys) rest with
            | [] => None
            | w :: rest =>
                let where_ := Strings.ToUpper (vBulk w) in
                if negb (bool_decide (where_ ∈ allowedWhere)) then Some (inl ERRsyntaxError)
                else match rest with
                     | [] => Some (inr (keys, where_, 1))
                     | [c; n] =>
                         if bool_decide (Strings.ToUpper (vBulk c) ≠ "COUNT") then Some (inl ERRsyntaxError)
                         else match Strconv.ParseInt (vBulk n) with
                              | Some count => if count <? 1 then Some (inl (Err "ERR count should be greater than 0"))
                                              else Some (inr (keys, where_, count))
                              | None => Some (inl (Err "ERR count should be greater than 0"))
                              end
                     | _ => Some (inl ERRsyntaxError)
                     end
            end
      end
  | _ => Some (inl ERRsyntaxError)
  end.

Definition doLMPop (keys : list string) (where_ : string) (count : Z) : prog Value :=
  reply (ListOp (if bool_decide (where_ = "LEFT") then LMPop keys count else RMPop keys count))
    (λ popped, match popped with
               | None => NullArray
               | Some (poppedKey, values) => Arr [Bulk poppedKey; bulks values]
               end).
Definition lmpopOp (args : list Value) : prog Value :=
  match parseMPopHead args ["LEFT"; "RIGHT"] with
  | None => Panic "makeslice: len out of range"
  | Some (inl e) => mret e
  | Some (inr (keys, where_, count)) => doLMPop keys where_ count
  end.

Definition lremOp (args : list Value) : prog Value :=
  match args with
  | [key; count; element] =>
      match Strconv.ParseInt (vBulk count) with
      | None => mret ERRnotInteger
      | Some count => replyT (ListOp (LRem (vBulk key) count (vBulk element))) Int
      end
  | _ => mret (ErrWrongArgs "lrem")
  end.
Definition ltrimOp (args : list Value) : prog Value :=
  match args with
  | [key; start; stop] =>
      match Strconv.ParseInt (vBulk start) with
      | None => mret ERRnotInteger
      | Some start =>
          match Strconv.ParseInt (vBulk stop) with
          | None => mret ERRnotInteger
          | Some stop => replyT (ListOp (LTrim (vBulk key) start stop)) ok
          end
      end
  | _ => mret (ErrWrongArgs "ltrim")
  end.
Definition rpoplpushOp (args : list Value) : prog Value :=
  match args with
  | [source; destination] => replyT (ListOp (RPopLPush (vBulk source) (vBulk destination))) optBulk
  | _ => mret (ErrWrongArgs "rpoplpush")
  end.

Record lposOpts := MkLposOpts { lp_rank : Z; lp_count : Z; lp_maxlen : Z }.
Definition with_lpos (opt : string) (n : Z) (o : lposOpts) : lposOpts :=
  if bool_decide (opt = "RANK") then MkLposOpts n (lp_count o) (lp_maxlen o)
  else if bool_decide (opt = "COUNT") then MkLposOpts (lp_rank o) n (lp_maxlen o)
  else MkLposOpts (lp_rank o) (lp_count o) n.
Fixpoint lposOptions (args : list Value) (o : lposOpts) : Value + lposOpts :=
  match args with
  | [] => inr o
  | a :: rest =>
      let opt := Strings.ToUpper (vBulk a) in
      if bool_decide (opt ∈ ["RANK"; "COUNT"; "MAXLEN"]) then
        match rest with
        | [] => inl ERRsyntaxError
        | n :: rest => match Strconv.ParseInt (vBulk n) with
                       | None => inl ERRnotInteger
                       | Some n => lposOptions rest (with_lpos opt n o)
                       end
        end
      else lposOptions rest o
  end.
Definition lposOp (args : list Value) : prog Value :=
  match args with
  | key :: element :: opts =>
      match lposOptions opts (MkLposOpts 1 1 0) with
      | inl e => mret e
      | inr o =>
          replyT (ListOp (LPos (vBulk key) (vBulk element) (lp_rank o) (lp_count o) (lp_maxlen o)))
            (λ positions, match positions with
                          | [] => NullBulk
                          | p :: _ => if lp_count o =? 1 then Int p else Arr (Int <$> positions)
                          end)
      end
  | _ => mret (ErrWrongArgs "lpos")
  end.
Definition lsetOp (args : list Value) : prog Value :=
  match args with
  | [key; index; element] =>
      match Strconv.ParseInt (vBulk index) with
      | None => mret ERRnotInteger
      | Some index => replyT (ListOp (LSet (vBulk key) index (vBulk element))) ok
      end
  | _ => mret (ErrWrongArgs "lset")
  end.
Definition linsertOp (args : list Value) : prog Value :=
  match args with
  | [key; position; pivot; element] =>
      let position := Strings.ToUpper (vBulk position) in
      if bool_decide (position ∈ ["BEFORE"; "AFTER"]) then
        replyT (ListOp (LInsert (vBulk key) (vBulk pivot) (vBulk element) (bool_decide (position = "BEFORE")))) Int
      else mret ERRsyntaxError
  | _ => mret (ErrWrongArgs "linsert")
  end.

End ListCmds.

(** ** Sets *)

Module SetCmds.
Import HashCmds.
Local Open Scope Z_scope.

Definition saddOp (args : list Value) : prog Value :=
  match args with
  | key :: ((_ :: _) as members) => replyT (SetOp (SAdd (vBulk key) (strs members))) Int
  | _ => mret (ErrWrongArgs "sadd")
  end.
Definition sremOp (args : list Value) : prog Value :=
  match args with
  | key :: ((_ :: _) as members) => reply (SetOp (SRem (vBulk key) (strs members))) Int
  | _ => mret (ErrWrongArgs "srem")
  end.
Definition smembersOp (args : list Value) : prog Value :=
  match args with [key] => reply (SetOp (SMembers (vBulk key))) bulks | _ => mret (ErrWrongArgs "smembers") end.
Definition sismemberOp (args : list Value) : prog Value :=
  match args with
  | [key; member] => reply (SetOp (SIsMember (vBulk key) (vBulk member))) boolInt
  | _ => mret (ErrWrongArgs "sismember")
  end.
Definition scardOp (args : list Value) : prog Value :=
  match args with [key] => reply (SetOp (SCard (vBulk key))) Int | _ => mret (ErrWrongArgs "scard") end.
Definition smismemberOp (args : list Value) : prog Value :=
  match args with
  | key :: ((_ :: _) as members) =>
      replyT (SetOp (SMIsMember (vBulk key) (strs members))) (λ l, Arr (boolInt <$> l))
  | _ => mret (ErrWrongArgs "smismember")
  end.

Definition combineWith (name : string) (o : list string → set_op (list string)) (args : list Value) : prog Value :=
  match args with
  | [] => mret (ErrWrongArgs name)
  | _ => replyT (SetOp (o (strs args))) bulks
  end.
Definition sinterOp : list Value → prog Value := combineWith "sinter" SInter.
Definition sunionOp : list Value → prog Value := combineWith "sunion" SUnion.
Definition sdiffOp : list Value → prog Value := combineWith "sdiff" SDiff.

Definition storeWith (name : string) (o : string → list string → set_op Z) (args : list Value) : prog Value :=
  match args with
  | destination :: ((_ :: _) as keys) => replyT (SetOp (o (vBulk destination) (strs keys))) Int
  | _ => mret (ErrWrongArgs name)
  end.
Definition sinterstoreOp : list Value → prog Value := storeWith "sinterstore" SInterStore.
Definition sunionstoreOp : list Value → prog Value := storeWith "sunionstore" SUnionStore.
Definition sdiffstoreOp : list Value → prog Value := storeWith "sdiffstore" SDiffStore.

(** A [numkeys] near 2^63 passes the length check, which overflows, and then
    [make] panics. *)
Definition sintercardOp (args : list Value) : prog Value :=
  match args with
  | n :: ((_ :: _) as rest) =>
      match Strconv.ParseInt (vBulk n) with
      | None => mret (Err "ERR numkeys should be greater than 0")
      | Some numkeys =>
          if numkeys <? 1 then mret (Err "ERR numkeys should be greater than 0")
          else if Z.of_nat (length args) <? wrap64 (1 + numkeys) then mret (ErrWrongArgs "sintercard")
          else if Z.of_nat (length args) <? 1 + numkeys then Panic "makeslice: len out of range"
          else
            let keys := strs (take (Z.to_nat numkeys) rest) in
            let card := λ limit, replyT (SetOp (SInterCard keys limit)) Int in
            match drop (Z.to_nat numkeys) rest with
            | [] => card 0
            | [l; n] =>
                if bool_decide (Strings.ToUpper (vBulk l) ≠ "LIMIT") then mret ERRsyntaxError
                else match Strconv.ParseInt (vBulk n) with
                     | Some limit => if limit <? 0 then mret (Err "ERR LIMIT can't be negative") else card limit
                     | None => mret (Err "ERR LIMIT can't be negative")
                     end
            | _ => mret ERRsyntaxError
            end
      end
  | _ => mret (ErrWrongArgs "sintercard")
  end.

(** *** SSCAN *)

Fixpoint sscanOptions (args : list Value) (pattern : string) (count : Z) : Value + (string * Z) :=
  match args with
  | [] => inr (pattern, count)
  | a :: rest =>
      let opt := Strings.ToUpper (vBulk a) in
      if bool_decide (opt = "MATCH") then
        match rest with
        | [] => inl (ErrWrongArgs "sscan")
        | p :: rest => sscanOptions rest (vBulk p) count
        end
      else if bool_decide (opt = "COUNT") then
        match rest with
        | [] => inl (ErrWrongArgs "sscan")
        | n :: rest => match Strconv.ParseInt (vBulk n) with
                       | None => inl ERRnotInteger
                       | Some n => sscanOptions rest pattern n
                       end
        end
      else sscanOptions rest pattern count
  end.
Definition sscanOp (args : list Value) : prog Value :=
  match args with
  | key :: cursor :: opts =>
      match Strconv.ParseUint (vBulk cursor) with
      | None => mret (Err "ERR invalid cursor")
      | Some cursor =>
          match sscanOptions opts "*" 10 with
          | inl e => mret e
          | inr (pattern, count) =>
              r ← call (SetOp (SMembers (vBulk key)));
              match r with
              | Fail er => mret (typedReply er)
              | Ok allMembers => page (wrap64 cursor) count (filter (λ m, matchGlob pattern m = true) allMembers)
              end
          end
      end
  | _ => mret (ErrWrongArgs "sscan")
  end.

End SetCmds.

(** ** HyperLogLogs *)

Module HllCmds.

Definition pfaddOp (args : list Value) : prog Value :=
  match args with
  | key :: elements => replyT (HllOp (PFAdd (vBulk key) (strs elements))) Int
  | [] => mret (ErrWrongArgs "pfadd")
  end.
Definition pfcountOp (args : list Value) : prog Value :=
  match args with
  | [] => mret (ErrWrongArgs "pfcount")
  | _ => replyT (HllOp (PFCount (strs args))) Int
  end.
Definition pfmergeOp (args : list Value) : prog Value :=
  match args with
  | destKey :: ((_ :: _) as sourceKeys) => replyT (HllOp (PFMerge (vBulk destKey) (strs sourceKeys))) ok
  | _ => mret (ErrWrongArgs "pfmerge")
  end.

End HllCmds.

