(* ===== verification/CmdZSets.v ===== *)
(** * Sorted set and random sampling commands: internal/handler/handler_ops.go

    The handlers of the commands on sorted sets that do not block, and of
    HRANDFIELD, SRANDMEMBER and ZRANDMEMBER. *)
From stdpp Require Import gmap strings list.
From Stdlib Require Import ZArith Lia Ascii.
From S2P Require Import Prelude GoStd Resp KeyCodec Db StoreMeta StoreStrings StoreZSets StoreSampling Client PubSub Handler Ops CmdStrings CmdKeys CmdCollections.
Import Resp StringOps Ops Cmd KeyCmds.
Import ZSetOps (MkZAdd, MkLex, MkSpec, zNX, zXX, zGT, zLT, zCH, ZRangeByIndex, ZRangeByScore, ZRangeByLex, ZRangeStoreBy, LexBound, ZAddOptions, ZAdd0).

Module ZSetCmds.
Local Open Scope Z_scope.

(** The doubles that the handlers name. *)
Definition posInf : Z := 0x7ff0000000000000.
Definition negInf : Z := 0xfff0000000000000.
Definition huge : Z := 0x7fe1ccf385ebc8a0. (* 1e308 *)
Definition minusHuge : Z := 0xffe1ccf385ebc8a0.
Definition tiny : Z := 0x3e112e0be826d695. (* 1e-9 *)
Definition minusTiny : Z := 0xbe112e0be826d695.

Section ZSetCmds.
Context (R : runtime).

(** ** Arguments *)

(** A bound that may start with a parenthesis; then [nudge] is added. *)
Definition boundWith (nudge : Z) (s : string) : option Z :=
  let exclusive := Strings.HasPrefix s "(" in
  match ParseFloat (floats R) (if exclusive then Strings.TrimPrefix s "(" else s) with
  | None => None
  | Some score => Some (if exclusive then fadd (floats R) score nudge else score)
  end.
Definition parseScoreBound (s : string) : option Z :=
  if bool_decide (s = "-inf") then Some negInf
  else if bool_decide (s = "+inf") || bool_decide (s = "inf") then Some posInf
  else boundWith tiny s.
(** The bounds of ZRANGEBYSCORE, ZREMRANGEBYSCORE and ZCOUNT. *)
Definition minBound (s : string) : option Z :=
  if bool_decide (s = "-inf") then Some minusHuge
  else if bool_decide (s = "+inf") || bool_decide (s = "inf") then Some huge
  else boundWith tiny s.
Definition maxBound (s : string) : option Z :=
  if bool_decide (s = "+inf") || bool_decide (s = "inf") then Some huge
  else if bool_decide (s = "-inf") then Some minusHuge
  else boundWith minusTiny s.
Definition notFloat : Value := Err "min or max is not a float".
Definition scoreBounds (minStr maxStr : Value) (k : Z → Z → prog Value) : prog Value :=
  match minBound (vBulk minStr) with
  | None => mret (Err "ERR min value is not a float")
  | Some min =>
      match maxBound (vBulk maxStr) with
      | None => mret (Err "ERR max value is not a float")
      | Some max => k min max
      end
  end.

Definition parseLexBound (s : string) : option LexBound :=
  if bool_decide (s = "-") then Some (MkLex "" false (-1))
  else if bool_decide (s = "+") then Some (MkLex "" false 1)
  else if Strings.HasPrefix s "[" then Some (MkLex (Strings.TrimPrefix s "[") true 0)
  else if Strings.HasPrefix s "(" then Some (MkLex (Strings.TrimPrefix s "(") false 0)
  else None.
Definition notLex : Value := Err "ERR min or max not valid string range item".
Definition lexBounds (a b : Value) (k : LexBound → LexBound → prog Value) : prog Value :=
  match parseLexBound (vBulk a) with
  | None => mret notLex
  | Some a => match parseLexBound (vBulk b) with None => mret notLex | Some b => k a b end
  end.
Definition parseLexLimit (args : list Value) : Value + (Z * Z) :=
  match args with
  | [] => inr (0, -1)
  | [l; o; c] =>
      if bool_decide (Strings.ToUpper (vBulk l) ≠ "LIMIT") then inl ERRsyntaxError
      else match Strconv.ParseInt (vBulk o), Strconv.ParseInt (vBulk c) with
           | Some o, Some c => inr (o, c)
           | _, _ => inl ERRnotInteger
           end
  | _ => inl ERRsyntaxError
  end.
(** Two integers, or the reply [e]. *)
Definition twoInts (e : Value) (a b : Value) (k : Z → Z → prog Value) : prog Value :=
  match Strconv.ParseInt (vBulk a) with
  | None => mret e
  | Some a => match Strconv.ParseInt (vBulk b) with None => mret e | Some b => k a b end
  end.

(** ** Replies *)

Definition score (s : Z) : Value := Bulk (FormatFloat (floats R) s).
Definition scored (members : list (string * Z)) : Value :=
  Arr (flat_map (λ m : string * Z, [Bulk m.1; score m.2]) members).
Definition membersReply (withScores : bool) (members : list (string * Z)) : Value :=
  if withScores then scored members else bulks members.*1.

(** ** ZADD *)

Fixpoint zaddFlags (args : list Value) (o : ZAddOptions) : ZAddOptions * list Value :=
  match args with
  | [] => (o, [])
  | a :: rest =>
      let flag := Strings.ToUpper (vBulk a) in
      if bool_decide (flag = "NX") then zaddFlags rest (MkZAdd true (zXX o) (zGT o) (zLT o) (zCH o))
      else if bool_decide (flag = "XX") then zaddFlags rest (MkZAdd (zNX o) true (zGT o) (zLT o) (zCH o))
      else if bool_decide (flag = "GT") then zaddFlags rest (MkZAdd (zNX o) (zXX o) true (zLT o) (zCH o))
      else if bool_decide (flag = "LT") then zaddFlags rest (MkZAdd (zNX o) (zXX o) (zGT o) true (zCH o))
      else if bool_decide (flag = "CH") then zaddFlags rest (MkZAdd (zNX o) (zXX o) (zGT o) (zLT o) true)
      else (o, args)
  end.
Fixpoint zaddMembers (args : list Value) : option (list (string * Z)) :=
  match args with
  | s :: m :: args =>
      match ParseFloat (floats R) (vBulk s) with
      | None => None
      | Some s => match zaddMembers args with Some l => Some ((vBulk m, s) :: l) | None => None end
      end
  | _ => Some []
  end.
Definition zaddOp (args : list Value) : prog Value :=
  match args with
  | key :: ((_ :: _ :: _) as rest) =>
      let '(o, rest) := zaddFlags rest ZAdd0 in
      if zNX o && zXX o then mret (Err "ERR XX and NX options at the same time are not compatible")
      else if zGT o && zLT o then mret (Err "ERR GT and LT options at the same time are not compatible")
      else if (zGT o || zLT o) && zNX o then mret (Err "ERR GT/LT and NX options at the same time are not compatible")
      else if (length rest =? 0)%nat || negb (Nat.even (length rest)) then mret (ErrWrongArgs "zadd")
      else match zaddMembers rest with
           | None => mret (Err "ERR value is not a valid float")
           | Some members => replyT (ZSetOp (ZAdd (vBulk key) members o)) Int
           end
  | _ => mret (ErrWrongArgs "zadd")
  end.

(** ** Ranges *)

Record zrangeOpts := MkZRange { withScores : bool; byScore : bool; byLex : bool; rev_ : bool; off : Z; cnt : Z }.
Definition zrange0 : zrangeOpts := MkZRange false false false false 0 (-1).
(** What a command does with an option: take it, refuse it, or skip it. *)
Inductive verdict := Take (o : zrangeOpts) | Refuse (e : Value) | Skip.
(** The loop over the options of a range command; [other] says what becomes
    of an option that is not LIMIT. *)
Fixpoint rangeOptions (cmd : string) (badInt : Value) (other : string → zrangeOpts → verdict) (args : list Value)
    (o : zrangeOpts) : Value + zrangeOpts :=
  match args with
  | [] => inr o
  | a :: rest =>
      let opt := Strings.ToUpper (vBulk a) in
      if bool_decide (opt = "LIMIT") then
        match rest with
        | offset :: count :: rest =>
            match Strconv.ParseInt (vBulk offset), Strconv.ParseInt (vBulk count) with
            | Some offset, Some count =>
                rangeOptions cmd badInt other rest (MkZRange (withScores o) (byScore o) (byLex o) (rev_ o) offset count)
            | _, _ => inl badInt
            end
        | _ => inl (ErrWrongArgs cmd)
        end
      else match other opt o with
           | Take o => rangeOptions cmd badInt other rest o
           | Refuse e => inl e
           | Skip => rangeOptions cmd badInt other rest o
           end
  end.
Definition set_withScores (o : zrangeOpts) : zrangeOpts := MkZRange true (byScore o) (byLex o) (rev_ o) (off o) (cnt o).
Definition set_byScore (o : zrangeOpts) : zrangeOpts := MkZRange (withScores o) true false (rev_ o) (off o) (cnt o).
Definition set_byLex (o : zrangeOpts) : zrangeOpts := MkZRange (withScores o) false true (rev_ o) (off o) (cnt o).
Definition set_rev (o : zrangeOpts) : zrangeOpts := MkZRange (withScores o) (byScore o) (byLex o) true (off o) (cnt o).

Definition zrangeOption (opt : string) (o : zrangeOpts) : verdict :=
  if bool_decide (opt = "WITHSCORES") then Take (set_withScores o)
  else if bool_decide (opt = "BYSCORE") then Take (set_byScore o)
  else if bool_decide (opt = "BYLEX") then Refuse (Err "ERR BYLEX not supported")
  else if bool_decide (opt = "REV") then Take (set_rev o)
  else Skip.
Definition zrangeOp (args : list Value) : prog Value :=
  match args with
  | key :: startArg :: stopArg :: opts =>
      match rangeOptions "zrange" notInteger zrangeOption opts zrange0 with
      | inl e => mret e
      | inr o =>
          let answer := λ members : list (string * Z), membersReply (withScores o) (if rev_ o then reverse members else members) in
          if byScore o then
            match parseScoreBound (vBulk startArg), parseScoreBound (vBulk stopArg) with
            | Some min, Some max =>
                let '(min, max) := if rev_ o then (max, min) else (min, max) in
                replyT (ZSetOp (ZRangeByScore_ (vBulk key) min max (off o) (cnt o))) answer
            | _, _ => mret notFloat
            end
          else twoInts notInteger startArg stopArg (λ start stop, replyT (ZSetOp (ZRange (vBulk key) start stop)) answer)
      end
  | _ => mret (ErrWrongArgs "zrange")
  end.

Fixpoint onlyWithScores (args : list Value) (withScores : bool) : option bool :=
  match args with
  | [] => Some withScores
  | a :: args => if bool_decide (Strings.ToUpper (vBulk a) = "WITHSCORES") then onlyWithScores args true else None
  end.
Definition zrevrangeOp (args : list Value) : prog Value :=
  match args with
  | key :: start :: stop :: opts =>
      twoInts notInteger start stop (λ start stop,
        match onlyWithScores opts false with
        | None => mret ERRsyntaxError
        | Some withScores => replyT (ZSetOp (ZRevRange (vBulk key) start stop)) (membersReply withScores)
        end)
  | _ => mret (ErrWrongArgs "zrevrange")
  end.

Definition revscoreOption (opt : string) (o : zrangeOpts) : verdict :=
  if bool_decide (opt = "WITHSCORES") then Take (set_withScores o) else Refuse ERRsyntaxError.
Definition zrevrangebyscoreOp (args : list Value) : prog Value :=
  match args with
  | key :: maxArg :: minArg :: opts =>
      match parseScoreBound (vBulk maxArg), parseScoreBound (vBulk minArg) with
      | Some max, Some min =>
          match rangeOptions "zrevrangebyscore" ERRnotInteger revscoreOption opts zrange0 with
          | inl e => mret e
          | inr o => replyT (ZSetOp (ZRevRangeByScore (vBulk key) min max (off o) (cnt o))) (membersReply (withScores o))
          end
      | _, _ => mret notFloat
      end
  | _ => mret (ErrWrongArgs "zrevrangebyscore")
  end.
Definition scoreOption (opt : string) (o : zrangeOpts) : verdict :=
  if bool_decide (opt = "WITHSCORES") then Take (set_withScores o) else Skip.
Definition zrangebyscoreOp (args : list Value) : prog Value :=
  match args with
  | key :: minStr :: maxStr :: opts =>
      scoreBounds minStr maxStr (λ min max,
        match rangeOptions "zrangebyscore" ERRnotInteger scoreOption opts zrange0 with
        | inl e => mret e
        | inr o => replyT (ZSetOp (ZRangeByScore_ (vBulk key) min max (off o) (cnt o))) (membersReply (withScores o))
        end)
  | _ => mret (ErrWrongArgs "zrangebyscore")
  end.

Definition zrangebylexOp (args : list Value) : prog Value :=
  match args with
  | key :: minArg :: maxArg :: opts =>
      lexBounds minArg maxArg (λ min max,
        match parseLexLimit opts with
        | inl e => mret e
        | inr (offset, count) => replyT (ZSetOp (ZRangeByLex_ (vBulk key) min max offset count)) bulks
        end)
  | _ => mret (ErrWrongArgs "zrangebylex")
  end.
Definition zrevrangebylexOp (args : list Value) : prog Value :=
  match args with
  | key :: maxArg :: minArg :: opts =>
      lexBounds maxArg minArg (λ max min,
        match parseLexLimit opts with
        | inl e => mret e
        | inr (offset, count) => replyT (ZSetOp (ZRevRangeByLex (vBulk key) min max offset count)) bulks
        end)
  | _ => mret (ErrWrongArgs "zrevrangebylex")
  end.
Definition zlexcountOp (args : list Value) : prog Value :=
  match args with
  | [key; minArg; maxArg] => lexBounds minArg maxArg (λ min max, replyT (ZSetOp (ZLexCount (vBulk key) min max)) Int)
  | _ => mret (ErrWrongArgs "zlexcount")
  end.

Definition storeOption (opt : string) (o : zrangeOpts) : verdict :=
  if bool_decide (opt = "BYSCORE") then Take (set_byScore o)
  else if bool_decide (opt = "BYLEX") then Take (set_byLex o)
  else if bool_decide (opt = "REV") then Take (set_rev o)
  else Refuse ERRsyntaxError.
Definition noLex : LexBound := MkLex "" false 0.
Definition zrangestoreOp (args : list Value) : prog Value :=
  match args with
  | dst :: src :: startArg :: stopArg :: opts =>
      match rangeOptions "zrangestore" ERRnotInteger storeOption opts zrange0 with
      | inl e => mret e
      | inr o =>
          let swap := λ {A} (a b : A), if rev_ o then (b, a) else (a, b) in
          let store := λ spec, replyT (ZSetOp (ZRangeStore (vBulk dst) (vBulk src) spec)) Int in
          if byScore o then
            match parseScoreBound (vBulk startArg), parseScoreBound (vBulk stopArg) with
            | Some a, Some b =>
                let '(min, max) := swap a b in
                store (MkSpec ZRangeByScore (rev_ o) 0 0 min max noLex noLex (off o) (cnt o))
            | _, _ => mret notFloat
            end
          else if byLex o then
            lexBounds startArg stopArg (λ a b,
              let '(min, max) := swap a b in
              store (MkSpec ZRangeByLex (rev_ o) 0 0 0 0 min max (off o) (cnt o)))
          else twoInts ERRnotInteger startArg stopArg (λ start stop,
            store (MkSpec ZRangeByIndex (rev_ o) start stop 0 0 noLex noLex (off o) (cnt o)))
      end
  | _ => mret (ErrWrongArgs "zrangestore")
  end.

(** ** Members *)

Definition zscoreOp (args : list Value) : prog Value :=
  match args with
  | [key; member] => replyT (ZSetOp (ZScore (vBulk key) (vBulk member)))
                       (λ r, match r with Some s => score s | None => NullBulk end)
  | _ => mret (ErrWrongArgs "zscore")
  end.
Definition zremOp (args : list Value) : prog Value :=
  match args with
  | key :: ((_ :: _) as members) => replyT (ZSetOp (ZRem (vBulk key) (strs members))) Int
  | _ => mret (ErrWrongArgs "zrem")
  end.
Definition zcardOp (args : list Value) : prog Value :=
  match args with [key] => replyT (ZSetOp (ZCard (vBulk key))) Int | _ => mret (ErrWrongArgs "zcard") end.
Definition zremrangebyscoreOp (args : list Value) : prog Value :=
  match args with
  | [key; minStr; maxStr] =>
      scoreBounds minStr maxStr (λ min max, replyT (ZSetOp (ZRemRangeByScore (vBulk key) min max)) Int)
  | _ => mret (ErrWrongArgs "zremrangebyscore")
  end.
Definition zremrangebyrankOp (args : list Value) : prog Value :=
  match args with
  | [key; start; stop] =>
      twoInts ERRnotInteger start stop (λ start stop, replyT (ZSetOp (ZRemRangeByRank (vBulk key) start stop)) Int)
  | _ => mret (ErrWrongArgs "zremrangebyrank")
  end.
Definition zincrbyOp (args : list Value) : prog Value :=
  match args with
  | [key; increment; member] =>
      match ParseFloat (floats R) (vBulk increment) with
      | None => mret (Err "ERR value is not a valid float")
      | Some increment => replyT (ZSetOp (ZIncrBy (vBulk key) increment (vBulk member))) score
      end
  | _ => mret (ErrWrongArgs "zincrby")
  end.
Definition popWith (cmd : string) (pop : string → Z → zset_op (list (string * Z))) (args : list Value) : prog Value :=
  match args with
  | [] => mret (ErrWrongArgs cmd)
  | [key] => replyT (ZSetOp (pop (vBulk key) 1)) scored
  | key :: count :: _ =>
      match Strconv.ParseInt (vBulk count) with
      | None => mret ERRnotInteger
      | Some count => if count <? 0 then mret ERRnotInteger else replyT (ZSetOp (pop (vBulk key) count)) scored
      end
  end.
Definition zpopminOp : list Value → prog Value := popWith "zpopmin" ZPopMin.
Definition zpopmaxOp : list Value → prog Value := popWith "zpopmax" ZPopMax.
Definition rankReply (r : option Z) : Value := match r with Some rank => Int rank | None => NullBulk end.
Definition zrankOp (args : list Value) : prog Value :=
  match args with
  | key :: member :: _ => replyT (ZSetOp (ZRank (vBulk key) (vBulk member))) rankReply
  | _ => mret (ErrWrongArgs "zrank")
  end.
Definition zrevrankOp (args : list Value) : prog Value :=
  match args with
  | key :: member :: _ => replyT (ZSetOp (ZRevRank (vBulk key) (vBulk member))) rankReply
  | _ => mret (ErrWrongArgs "zrevrank")
  end.
Definition zcountOp (args : list Value) : prog Value :=
  match args with
  | [key; minStr; maxStr] => scoreBounds minStr maxStr (λ min max, replyT (ZSetOp (ZCount (vBulk key) min max)) Int)
  | _ => mret (ErrWrongArgs "zcount")
  end.

Fixpoint zscanOptions (args : list Value) (pattern : string) (count : Z) : Value + (string * Z) :=
  match args with
  | [] => inr (pattern, count)
  | a :: rest =>
      let opt := Strings.ToUpper (vBulk a) in
      if bool_decide (opt = "MATCH") then
        match rest with [] => inl ERRsyntaxError | p :: rest => zscanOptions rest (vBulk p) count end
      else if bool_decide (opt = "COUNT") then
        match rest with
        | [] => inl ERRsyntaxError
        | n :: rest => match Strconv.ParseInt (vBulk n) with
                       | None => inl ERRnotInteger
                       | Some n => zscanOptions rest pattern n
                       end
        end
      else zscanOptions rest pattern count
  end.
Definition zscanOp (args : list Value) : prog Value :=
  match args with
  | key :: cursor :: opts =>
      match Strconv.ParseInt (vBulk cursor) with
      | None => mret ERRnotInteger
      | Some cursor =>
          match zscanOptions opts "*" 10 with
          | inl e => mret e
          | inr (pattern, count) =>
              replyT (ZSetOp (ZScan (vBulk key) cursor pattern count))
                (λ r : Z * list (string * Z), Arr [Bulk (Strconv.FormatInt r.1); scored r.2])
          end
      end
  | _ => mret (ErrWrongArgs "zscan")
  end.

(** ** ZMPOP *)

Definition doZMPop (keys : list string) (where_ : string) (count : Z) : prog Value :=
  reply (ZSetOp (if bool_decide (where_ = "MIN") then ZMPopMin keys count else ZMPopMax keys count))
    (λ popped, match popped with
               | None => NullArray
               | Some (poppedKey, members) =>
                   Arr [Bulk poppedKey; Arr ((λ m : string * Z, Arr [Bulk m.1; score m.2]) <$> members)]
               end).
Definition zmpopOp (args : list Value) : prog Value :=
  match ListCmds.parseMPopHead args ["MIN"; "MAX"] with
  | None => Panic "makeslice: len out of range"
  | Some (inl e) => mret e
  | Some (inr (keys, where_, count)) => doZMPop keys where_ count
  end.

(** ** ZUNIONSTORE and ZINTERSTORE *)

(** The options after the keys. [pending] weights are still to be read into
    [weights]; those that are not given stay zero. *)
Fixpoint weightOptions (numKeys : nat) (args : list Value) (pending : nat) (weights : option (list Z)) (aggregate : string) :
    Value + (option (list Z) * string) :=
  match args with
  | [] => inr (weights, aggregate)
  | a :: rest =>
      match pending with
      | S pending =>
          match ParseFloat (floats R) (vBulk a) with
          | None => inl (Err "ERR weight value is not a float")
          | Some w => weightOptions numKeys rest pending (Some (default [] weights ++ [w])) aggregate
          end
      | O =>
          let opt := Strings.ToUpper (vBulk a) in
          if bool_decide (opt = "WEIGHTS") then weightOptions numKeys rest numKeys (Some []) aggregate
          else if bool_decide (opt = "AGGREGATE") then
            match rest with
            | [] => inr (weights, aggregate)
            | v :: rest =>
                let aggregate := Strings.ToUpper (vBulk v) in
                if bool_decide (aggregate ∈ ["SUM"; "MIN"; "MAX"]) then weightOptions numKeys rest 0 weights aggregate
                else inl ERRsyntaxError
            end
          else weightOptions numKeys rest 0 weights aggregate
      end
  end.
Definition weightList (numKeys : nat) (weights : option (list Z)) : list Z :=
  match weights with
  | None => []
  | Some given => given ++ replicate (numKeys - length given) (fzero (floats R))
  end.
Definition zstoreWith (cmd : string) (store : string → list string → list Z → string → zset_op Z) (args : list Value) : prog Value :=
  match args with
  | destination :: n :: ((_ :: _) as rest) =>
      match Strconv.ParseInt (vBulk n) with
      | None => mret ERRnotInteger
      | Some numKeys =>
          if numKeys <=? 0 then mret ERRnotInteger
          else if Z.of_nat (length args) <? wrap64 (numKeys + 2) then mret (ErrWrongArgs cmd)
          else if Z.of_nat (length args) <? numKeys + 2 then Panic "makeslice: len out of range"
          else
            let keys := strs (take (Z.to_nat numKeys) rest) in
            match weightOptions (Z.to_nat numKeys) (drop (Z.to_nat numKeys) rest) 0 None "SUM" with
            | inl e => mret e
            | inr (weights, aggregate) =>
                replyT (ZSetOp (store (vBulk destination) keys (weightList (Z.to_nat numKeys) weights) aggregate)) Int
            end
      end
  | _ => mret (ErrWrongArgs cmd)
  end.
Definition zunionstoreOp : list Value → prog Value := zstoreWith "zunionstore" ZUnionStore.
Definition zinterstoreOp : list Value → prog Value := zstoreWith "zinterstore" ZInterStore.

(** ** Random sampling *)

Definition firstBulk (out : list string) : Value := match out with [] => NullBulk | x :: _ => Bulk x end.
Definition hrandfieldOp (args : list Value) : prog Value :=
  match args with
  | [key] => replyT (HashOp (HRandField (vBulk key) 1 false)) firstBulk
  | key :: n :: opts =>
      if (1 <? length opts)%nat then mret (ErrWrongArgs "hrandfield")
      else match Strconv.ParseInt (vBulk n) with
           | None => mret ERRnotInteger
           | Some count =>
               let draw := λ withValues, replyT (HashOp (HRandField (vBulk key) count withValues)) bulks in
               match opts with
               | [] => draw false
               | o :: _ => if bool_decide (Strings.ToUpper (vBulk o) ≠ "WITHVALUES") then mret ERRsyntaxError else draw true
               end
           end
  | [] => mret (ErrWrongArgs "hrandfield")
  end.
Definition srandmemberOp (args : list Value) : prog Value :=
  match args with
  | [key] => replyT (SetOp (SRandMember (vBulk key) 1)) firstBulk
  | [key; n] =>
      match Strconv.ParseInt (vBulk n) with
      | None => mret ERRnotInteger
      | Some count => replyT (SetOp (SRandMember (vBulk key) count)) bulks
      end
  | _ => mret (ErrWrongArgs "srandmember")
  end.
Definition zrandmemberOp (args : list Value) : prog Value :=
  match args with
  | [key] => replyT (ZSetOp (ZRandMember (vBulk key) 1)) (λ out, firstBulk out.*1)
  | key :: n :: opts =>
      if (1 <? length opts)%nat then mret (ErrWrongArgs "zrandmember")
      else match Strconv.ParseInt (vBulk n) with
           | None => mret ERRnotInteger
           | Some count =>
               let draw := λ withScores, replyT (ZSetOp (ZRandMember (vBulk key) count)) (membersReply withScores) in
               match opts with
               | [] => draw false
               | o :: _ => if bool_decide (Strings.ToUpper (vBulk o) ≠ "WITHSCORES") then mret ERRsyntaxError else draw true
               end
           end
  | [] => mret (ErrWrongArgs "zrandmember")
  end.

End ZSetCmds.

End ZSetCmds.
