(* ===== verification/CmdBlocking.v ===== *)
(** * Blocking pops and INFO: internal/handler/handler_ops.go

    BLPOP, BRPOP, BLMPOP and BZMPOP try to pop, and wait when there is
    nothing. [round] is one round of their loops, up to the wait; inside MULTI
    and in scripts ([ctx_noBlock]) there is only one. What a command does once
    it has to wait is the argument [onWait] here; file Blocking puts the
    rounds together. *)
From stdpp Require Import gmap strings list.
From Stdlib Require Import ZArith Lia Ascii.
From S2P Require Import Prelude GoStd Resp KeyCodec Db StoreMeta StoreStrings StoreZSets Client PubSub Handler Ops CmdStrings CmdKeys CmdCollections CmdZSets.
Import Resp StringOps Ops Cmd ListCmds ZSetCmds.

Module BlockingCmds.
Local Open Scope Z_scope.

Definition defaultBlockingPollInterval : Z := 100 * Millisecond.

Section BlockingCmds.
Context (R : runtime) (poll : Z) (ctx : hctx).

(** [timeout > 0], for a double. *)
Definition positive (timeout : Z) : bool := ZSetOps.go_lt (fzero (floats R)) timeout.
(** [deadline = time.Now().Add(time.Duration(timeout * float64(time.Second)))];
    without a timeout the deadline is not looked at. *)
Definition deadlineFor (timeout : Z) : prog Z :=
  if positive timeout then Now (λ now, mret (now + float_seconds (proc R) timeout)) else mret 0.

(** One round: go on with the reply, or with the time to wait for the next
    round. *)
Definition round {A} (timeout deadline : Z) (popOnce : prog (option Value)) (null : Value)
    (answer : Value → prog A) (wait : Z → prog A) : prog A :=
  r ← popOnce;
  match r with
  | Some v => answer v
  | None =>
      if ctx_noBlock ctx then answer null
      else if positive timeout then
        Now (λ now,
          if deadline <? now then answer null
          else Now (λ now, let remaining := Until deadline now in wait (if remaining <? poll then remaining else poll)))
      else wait poll
  end.

Definition blocking (onWait : prog Value) (timeout : Z) (popOnce : prog (option Value)) (null : Value) : prog Value :=
  deadline ← deadlineFor timeout;
  round timeout deadline popOnce null mret (λ _, onWait).

(** *** BLPOP and BRPOP *)

Definition popAny (o : list_op (option (string * string))) : prog (option Value) :=
  r ← call (ListOp o);
  mret match r with
       | Fail er => Some (errReply er)
       | Ok (Some (poppedKey, value)) => Some (Arr [Bulk poppedKey; Bulk value])
       | Ok None => None
       end.
Definition badTimeout : Value := Err "timeout is not a float or out of range".
Definition blockingPop (name : string) (pop : list string → list_op (option (string * string))) (onWait : prog Value)
    (args : list Value) : prog Value :=
  match last args with
  | Some t =>
      if (length args <? 2)%nat then mret (ErrWrongArgs name)
      else match ParseFloat (floats R) (vBulk t) with
           | None => mret badTimeout
           | Some timeout => blocking onWait timeout (popAny (pop (strs (take (length args - 1) args)))) NullBulk
           end
  | None => mret (ErrWrongArgs name)
  end.
Definition blpopOp : prog Value → list Value → prog Value := blockingPop "blpop" LPopMulti.
Definition brpopOp : prog Value → list Value → prog Value := blockingPop "brpop" RPopMulti.

(** *** BLMPOP and BZMPOP *)

(** What [blockingMPop] takes for an answer: an error or anything but a null
    array. *)
Definition answered (v : Value) : option Value :=
  if bool_decide (vType v = Error) then Some v
  else if bool_decide (vType v = Array) && vNull v then None else Some v.
Definition blockingMPop (name : string) (wheres : list string) (pop : list string → string → Z → prog Value)
    (onWait : prog Value) (args : list Value) : prog Value :=
  match args with
  | t :: ((_ :: _ :: _ :: _) as head) =>
      match ParseFloat (floats R) (vBulk t) with
      | None => mret badTimeout
      | Some timeout =>
          match parseMPopHead head wheres with
          | None => Panic "makeslice: len out of range"
          | Some (inl e) => mret e
          | Some (inr (keys, where_, count)) =>
              blocking onWait timeout (v ← pop keys where_ count; mret (answered v)) NullArray
          end
      end
  | _ => mret (ErrWrongArgs name)
  end.
Definition blmpopOp : prog Value → list Value → prog Value := blockingMPop "blmpop" ["LEFT"; "RIGHT"] doLMPop.
Definition bzmpopOp : prog Value → list Value → prog Value := blockingMPop "bzmpop" ["MIN"; "MAX"] (doZMPop R).

(** *** INFO *)

Definition line (s : string) : string := s +:+ string_of ["010"%char].
Definition infoText (seconds days dbSize : Z) : string :=
  line "# Server" +:+ line "redis_version:7.0.0-postkeys" +:+ line ("os:" +:+ GOOS (proc R)) +:+
  line ("arch:" +:+ GOARCH (proc R)) +:+ line "" +:+
  line "# Stats" +:+ line ("uptime_in_seconds:" +:+ Strconv.Itoa seconds) +:+
  line ("uptime_in_days:" +:+ Strconv.Itoa days) +:+ line "" +:+
  line "# Keyspace" +:+ line ("db0:keys=" +:+ Strconv.Itoa dbSize).
Definition infoOp (_ : list Value) : prog Value :=
  Now (λ now,
    let uptime := Until now (startTime (proc R)) in
    r ← call (KeyOp DBSize);
    let dbSize := match r with Ok n => n | Fail _ => 0 end in
    mret (Bulk (infoText (whole_seconds (proc R) uptime) (whole_days (proc R) uptime) dbSize))).

End BlockingCmds.

End BlockingCmds.
