(* ===== verification/CmdProps.v ===== *)
(** * What the option parsing and the cursors promise

    Theorems about handlers that hold for any implementation of the storage
    interface: the options of SET may come in any order, and SCAN started
    with cursor 0 and followed until cursor 0 ends, having listed every key
    once if the keys come in one order throughout. *)
From stdpp Require Import gmap strings list.
From Stdlib Require Import ZArith Lia Ascii.
From S2P Require Import Prelude GoStd Resp Db StoreStrings Ops CmdStrings CmdKeys CmdCollections.
Import Resp StringOps Ops Cmd StringCmds KeyCmds ListCmds.

Module CmdProps.
Local Open Scope Z_scope.

(** ** The options of SET *)

Section Order.
Context {T : Type} (perform : ∀ A : Set, op A → nat → T → T * result A) (clock : nat → Z).

Abbreviation running := (run_prog perform clock).
Definition word (a : Value) : string := Strings.ToUpper (vBulk a).

(** A complete option: a flag, or an expiry option with its number. Words
    that are no option at all count as flags, since SET ignores them. *)
Definition option_group (g : list Value) : Prop :=
  match g with
  | [a] => isExpiryOption (word a) = false
  | [a; n] => isExpiryOption (word a) = true ∧ is_Some (Strconv.ParseInt (vBulk n))
  | _ => False
  end.
Definition is_expiry (g : list Value) : bool := match g with [_; _] => true | _ => false end.

(** What an option does to the options, at the time [now]. *)
Definition flag (w : string) (o : setOpts) : setOpts :=
  if bool_decide (w = "NX") then with_nx o
  else if bool_decide (w = "XX") then with_xx o
  else if bool_decide (w = "KEEPTTL") then with_keepTTL o
  else if bool_decide (w = "GET") then with_get o
  else o.
Definition ttl_at (w : string) (n now : Z) : Z :=
  if bool_decide (w = "EX") then Duration n Second
  else if bool_decide (w = "PX") then Duration n Millisecond
  else if bool_decide (w = "EXAT") then Until (Unix n) now else Until (UnixMilli n) now.
Definition effect (now : Z) (g : list Value) (o : setOpts) : setOpts :=
  match g with
  | [a] => flag (word a) o
  | [a; n] => with_ttl (ttl_at (word a) (default 0 (Strconv.ParseInt (vBulk n))) now) o
  | _ => o
  end.
(** The number of clock readings. *)
Definition readings (g : list Value) : nat :=
  match g with [a; _] => if bool_decide (word a ∈ ["EX"; "PX"]) then 0 else 1 | _ => 0 end%nat.

Definition expiries (gs : list (list Value)) : nat := sum_list_with (λ g, Nat.b2n (is_expiry g)) gs.

Lemma setOptions_flag a rest o :
  isExpiryOption (word a) = false → setOptions (a :: rest) o = setOptions rest (flag (word a) o).
Proof.
  intros Ha. cbn [setOptions]. fold (word a). rewrite Ha. unfold flag. by repeat case_bool_decide.
Qed.

Lemma run_expiryOption {A} w n (f : Z → prog A) i s :
  isExpiryOption w = true →
  running (expiryOption w n ≫= f) i s =
  running (f (ttl_at w n (clock i))) (i + (if bool_decide (w ∈ ["EX"; "PX"]) then 0 else 1))%nat s.
Proof.
  unfold isExpiryOption, expiryOption, ttl_at. intros Hw%bool_decide_eq_true.
  repeat (apply elem_of_cons in Hw as [->|Hw]); [..|by apply not_elem_of_nil in Hw].
  all: unfold mbind, prog_mbind, mret, prog_ret; cbn; rewrite ?Nat.add_0_r, ?Nat.add_1_r; done.
Qed.

(** Without an expiry option the time does not matter. *)
Lemma effects_flags now now' gs o :
  expiries gs = 0%nat → foldl (λ o g, effect now g o) o gs = foldl (λ o g, effect now' g o) o gs.
Proof.
  revert o. induction gs as [|g gs IH]; intros o He; cbn [foldl]; [done|]. unfold expiries in He. cbn in He.
  assert (effect now g o = effect now' g o) as -> by (destruct g as [|a [|b [|c g]]]; cbn in *; [done..|lia|done]).
  apply IH. unfold expiries. lia.
Qed.

Lemma run_setOptions {A} gs (f : Value + setOpts → prog A) o i s :
  Forall option_group gs → (expiries gs ≤ 1)%nat →
  running (setOptions (concat gs) o ≫= f) i s =
  running (f (inr (foldl (λ o g, effect (clock i) g o) o gs))) (i + sum_list_with readings gs)%nat s.
Proof.
  intros Hg. revert o i. induction Hg as [|g gs Hg Hgs IH]; intros o i He.
  { cbn. by rewrite Nat.add_0_r. }
  destruct g as [|a [|n [|b g]]]; try by destruct Hg.
  - change (concat ([a] :: gs)) with (a :: concat gs). rewrite setOptions_flag by done. rewrite IH; [done|exact He].
  - destruct Hg as [Ha [z Hz]]. assert (expiries gs = 0)%nat as H0 by (unfold expiries in *; cbn in He; lia).
    change (concat ([a; n] :: gs)) with (a :: n :: concat gs). cbn [setOptions]. fold (word a). rewrite Ha, Hz.
    rewrite run_bind_assoc, run_expiryOption by done. rewrite IH by lia.
    cbn [foldl effect sum_list_with readings]. rewrite Hz, Nat.add_assoc. do 3 f_equal. by apply effects_flags.
Qed.

(** Options that are not both expiry options commute. *)
Lemma effect_comm now g g' o :
  (Nat.b2n (is_expiry g) + Nat.b2n (is_expiry g') ≤ 1)%nat →
  effect now g (effect now g' o) = effect now g' (effect now g o).
Proof.
  intros H. destruct g as [|a [|b [|c g]]], g' as [|a' [|b' [|c' g']]]; try done; cbn in H; try lia; cbn [effect];
    unfold flag; by repeat case_bool_decide.
Qed.

Lemma effects_perm now gs gs' o :
  gs ≡ₚ gs' → (expiries gs ≤ 1)%nat →
  foldl (λ o g, effect now g o) o gs = foldl (λ o g, effect now g o) o gs'.
Proof.
  intros Hp. revert o. induction Hp as [|g gs gs' Hp IH|g g' gs|gs1 gs2 gs3 H12 IH12 H23 IH23]; intros o He.
  - done.
  - cbn. apply IH. unfold expiries in *. cbn in He. lia.
  - cbn. unfold expiries in He. cbn in He. rewrite effect_comm by lia. done.
  - rewrite IH12 by done. apply IH23. unfold expiries in *. by rewrite <-H12.
Qed.

End Order.

(** The order of the options of SET does not matter: for any two orders
    of the same complete options, at most one of which sets an expiry, SET
    makes the same storage calls and gives the same reply, on any
    implementation of the storage interface. *)
Theorem set_options_order {T} (perform : ∀ A : Set, op A → nat → T → T * result A) clock key value gs gs' s :
  Forall option_group gs → (expiries gs ≤ 1)%nat → gs ≡ₚ gs' →
  run_prog perform clock (setOp (key :: value :: concat gs)) 0 s =
  run_prog perform clock (setOp (key :: value :: concat gs')) 0 s.
Proof.
  intros Hg He Hp. cbn [setOp]. rewrite run_setOptions by done.
  rewrite run_setOptions; [|by rewrite <-Hp|unfold expiries in *; by rewrite <-Hp].
  rewrite (effects_perm _ gs gs') by done. by rewrite Hp.
Qed.

(** The words of the two orders spelled out; the implementation answers every
    call with an error. *)
Definition no_store (A : Set) (o : op A) (_ : nat) (s : unit) : unit * result A := (s, Fail (Errorf "down")).
Lemma set_options_order_witness :
  run_prog no_store (λ _, 0) (setOp [Bulk "k"; Bulk "v"; Bulk "nx"; Bulk "EX"; Bulk "10"; Bulk "GET"]) 0 tt =
  run_prog no_store (λ _, 0) (setOp [Bulk "k"; Bulk "v"; Bulk "EX"; Bulk "10"; Bulk "GET"; Bulk "nx"]) 0 tt.
Proof.
  apply (set_options_order no_store (λ _, 0) (Bulk "k") (Bulk "v")
    [[Bulk "nx"]; [Bulk "EX"; Bulk "10"]; [Bulk "GET"]] [[Bulk "EX"; Bulk "10"]; [Bulk "GET"]; [Bulk "nx"]] tt).
  - repeat constructor. exists 10. reflexivity.
  - vm_compute. lia.
  - apply (Permutation_cons_append [[Bulk "EX"; Bulk "10"]; [Bulk "GET"]] [Bulk "nx"]).
Defined.

(** ** SCAN *)

(** A client that follows the cursors: it asks for the page at [cursor] and
    goes on until the reply's cursor is "0". [None] is a reply it cannot read,
    or no end within [fuel] requests. *)
Section ScanClient.
Context {T : Type} (perform : ∀ A : Set, op A → nat → T → T * result A) (clock : nat → Z).
Context (pattern : string) (count : Z).

Definition scan_request (cursor : string) : list Value :=
  [Bulk cursor; Bulk "MATCH"; Bulk pattern; Bulk "COUNT"; Bulk (Strconv.Itoa count)].
Definition read_page (v : Value) : option (string * list string) :=
  match vArray v with
  | [c; items] => Some (vBulk c, vBulk <$> vArray items)
  | _ => None
  end.
Fixpoint scan_client (fuel : nat) (cursor : string) (s : T) : option (list string) :=
  match fuel with
  | O => None
  | S fuel =>
      match run_prog perform clock (scanOp (scan_request cursor)) 0 s with
      | (s, _, Ok v) =>
          match read_page v with
          | Some (next, items) => if bool_decide (next = "0") then Some items
                                  else app items <$> scan_client fuel next s
          | None => None
          end
      | (_, _, Fail _) => None
      end
  end.

(** The keyspace does not change while the client iterates: every KEYS
    answers the same keys, in whatever order, since the query gives none. *)
Context (all : list string).
Definition unchanging : Prop :=
  ∀ i s, ∃ s' keys, perform _ (KeyOp (Keys pattern)) i s = (s', Ok keys) ∧ keys ≡ₚ all.
(** And they come in one order. *)
Definition one_order : Prop := ∀ i s, (perform _ (KeyOp (Keys pattern)) i s).2 = Ok all.

Lemma scanOptions_request :
  int64 count → scanOptions (drop 1 (scan_request "")) (MkScanOpts "*" 10 "") = inr (MkScanOpts pattern count "").
Proof.
  intros Hn. cbn [drop scan_request scanOptions]. change (Strings.ToUpper (vBulk (Bulk "MATCH"))) with "MATCH".
  change (Strings.ToUpper (vBulk (Bulk "COUNT"))) with "COUNT". rewrite !bool_decide_true, bool_decide_false by done.
  change (vBulk (Bulk ?x)) with x. by rewrite Strconv.ParseInt_FormatInt.
Qed.

Lemma run_scan cursor s s' keys :
  int64 count → int64 cursor → perform _ (KeyOp (Keys pattern)) 0%nat s = (s', Ok keys) →
  run_prog perform clock (scanOp (scan_request (Strconv.Itoa cursor))) 0 s =
  run_prog perform clock (page cursor count keys) 1 s'.
Proof.
  intros Hn Hc Hall. pose proof (scanOptions_request Hn) as Ho. unfold scanOp, scan_request.
  unfold scan_request in Ho. cbn [drop] in Ho. rewrite Ho. change (vBulk (Bulk ?x)) with x.
  unfold Strconv.Itoa. rewrite Strconv.ParseInt_FormatInt by done.
  change (sc_pattern _) with pattern. change (sc_type _) with "". change (sc_count _) with count.
  cbn [mbind prog_mbind call prog_bind run_prog]. by rewrite Hall.
Qed.

Lemma Itoa_zero n : int64 n → Strconv.Itoa n = "0" → n = 0.
Proof. intros Hn E. apply Strconv.ParseInt_FormatInt in Hn. unfold Strconv.Itoa in E. rewrite E in Hn. by injection Hn. Qed.

(** The page at [start] of [keys]: how many keys it has, which, and the
    cursor after it. *)
Lemma run_page start (keys : list string) i s :
  let len := Z.of_nat (length keys) in
  let n := Z.to_nat (Z.min count (len - start)) in
  0 < count → len + count < 2 ^ 63 → 0 <= start < len →
  ∃ v, run_prog perform clock (page start count keys) i s = (s, [], Ok v) ∧
    read_page v = Some (if len <=? start + count then "0" else Strconv.Itoa (start + count), take n (drop (Z.to_nat start) keys)).
Proof.
  intros len n Hn Hlen Hs. unfold page. fold len. cbn zeta. rewrite (proj2 (Z.leb_gt len start)) by lia.
  rewrite wrap64_id by (unfold int64; lia).
  set (end_ := if len <? start + count then len else start + count).
  assert (start < end_ <= len ∧ end_ - start = Z.min count (len - start)) as [He He']
    by (unfold end_; case_match; zify_bool; lia).
  assert ((start <? 0) || (end_ <? start) = false) as -> by (zify_bool; lia).
  eexists. split; [reflexivity|]. cbn [read_page Arr VArr vArray bulks]. change (vBulk (Bulk ?x)) with x.
  change (vArray (Arr ?l)) with l. unfold n. rewrite <-He', <-list_fmap_compose, list_fmap_id by done.
  do 2 f_equal. unfold end_. destruct (Z.ltb_spec len (start + count)), (Z.leb_spec len (start + count)); try lia;
    rewrite ?Z.leb_refl; done.
Qed.

Lemma scan_client_from fuel start s :
  let len := Z.of_nat (length all) in
  unchanging → 0 < count → len + count < 2 ^ 63 → 0 <= start < len → len - start <= Z.of_nat fuel →
  ∃ items, scan_client fuel (Strconv.Itoa start) s = Some items ∧
    Z.of_nat (length items) = len - start ∧ items ⊆ all ∧ (one_order → items = drop (Z.to_nat start) all).
Proof.
  intros len Hu Hn Hlen. revert start s. induction fuel as [|fuel IH]; intros start s Hs Hf; [lia|]. cbn [scan_client].
  destruct (Hu 0%nat s) as (s' & keys & Hk & Hp). apply Permutation_length in Hp as Hl.
  rewrite (run_scan start s s' keys) by (unfold int64; done || lia).
  destruct (run_page start keys 1 s') as (v & -> & ->); [rewrite ?Hl; lia..|]. rewrite Hl. fold len.
  set (n := Z.to_nat (Z.min count (len - start))). set (items := take n (drop (Z.to_nat start) keys)).
  assert (length items = n) as Hi by (unfold items; rewrite length_take, length_drop; lia).
  assert (items ⊆ all) as Hin.
  { intros x Hx. rewrite <-Hp. by apply subseteq_take, subseteq_drop in Hx. }
  assert (one_order → items = take n (drop (Z.to_nat start) all)) as Ho.
  { intros H. specialize (H 0%nat s). rewrite Hk in H. injection H as <-. done. }
  destruct (Z.leb_spec len (start + count)) as [Hle|Hle].
  - rewrite bool_decide_true by done. exists items. split_and!; [done|lia|done|]. intros H. rewrite (Ho H). apply take_ge.
    rewrite length_drop. lia.
  - rewrite bool_decide_false by (intros E%Itoa_zero; [lia|unfold int64; lia]).
    destruct (IH (start + count) s') as (rest & -> & Hr & Hrin & Hro); [lia..|]. exists (items ++ rest). cbn.
    split_and!; [done|rewrite length_app; lia|set_solver|]. intros H. rewrite (Ho H), (Hro H).
    replace (Z.to_nat (start + count)) with (Z.to_nat start + n)%nat by lia. by rewrite <-drop_drop, take_drop.
Qed.
Lemma scan_client_empty s : int64 count → unchanging → all = [] → scan_client 1 "0" s = Some [].
Proof.
  intros Hn Hu Ha. cbn [scan_client]. destruct (Hu 0%nat s) as (s' & keys & Hk & Hp). rewrite Ha in Hp. apply Permutation_nil_r in Hp as ->.
  change "0" with (Strconv.Itoa 0). by rewrite (run_scan 0 s s' []).
Qed.

End ScanClient.

(** C26. SCAN ends, and lists the keyspace when the keys come in one order.
    While the keys that match the pattern stay the same, a client that starts
    with cursor 0, asks for pages of any positive COUNT and follows the cursors
    until it gets 0 back ends after at most one request more than there are
    keys, with as many keys as there are, all of them matching keys, in whatever
    order each KEYS query has returned them. If every query has returned them
    in the same order, which PostgreSQL does not promise for a query without
    ORDER BY, the client has received exactly these keys, each once, in their
    order; otherwise it may have received some twice and missed others. *)
Theorem scan_complete {T} (perform : ∀ A : Set, op A → nat → T → T * result A) clock pattern count all s :
  0 < count → Z.of_nat (length all) + count < 2 ^ 63 → unchanging perform pattern all →
  ∃ items, scan_client perform clock pattern count (S (length all)) "0" s = Some items ∧
    length items = length all ∧ items ⊆ all ∧ (one_order perform pattern all → items = all).
Proof.
  intros Hn Hl Hu. destruct all as [|k all'] eqn:Ea.
  - exists []. rewrite (scan_client_empty perform clock pattern count []); [done|unfold int64; cbn in Hl; lia|done..].
  - rewrite <-Ea in *. assert (0 < Z.of_nat (length all)) by (subst all; cbn; lia).
    destruct (scan_client_from perform clock pattern count all (S (length all)) 0 s Hu Hn Hl) as (items & E & Hi & Hin & Ho); [lia..|].
    exists items. split_and!; [exact E|lia|done|exact Ho].
Qed.

Definition three_keys (A : Set) (o : op A) (_ : nat) (s : unit) : unit * result A :=
  match o with
  | KeyOp ko => match ko in key_op B return unit * result B with
                | Keys _ => (s, Ok ["a"; "b"; "c"])
                | _ => (s, Fail (Errorf "down"))
                end
  | _ => (s, Fail (Errorf "down"))
  end.
Lemma scan_complete_witness :
  (∃ items, scan_client three_keys (λ _, 0) "*" 2 4 "0" tt = Some items ∧ length items = 3%nat ∧ items ⊆ ["a"; "b"; "c"] ∧
    (one_order three_keys "*" ["a"; "b"; "c"] → items = ["a"; "b"; "c"])) ∧
  scan_client three_keys (λ _, 0) "*" 2 4 "0" tt = Some ["a"; "b"; "c"].
Proof.
  split; [|vm_compute; reflexivity].
  apply (scan_complete three_keys (λ _, 0) "*" 2 ["a"; "b"; "c"] tt); [lia|vm_compute; reflexivity|].
  intros i []. exists tt, ["a"; "b"; "c"]. split; reflexivity.
Defined.
(** The same keys, every second time in another order: b is listed twice and c
    is missed. *)
Definition reordering (A : Set) (o : op A) (_ : nat) (s : bool) : bool * result A :=
  match o with
  | KeyOp ko => match ko in key_op B return bool * result B with
                | Keys _ => (negb s, Ok (if s then ["c"; "a"; "b"] else ["a"; "b"; "c"]))
                | _ => (s, Fail (Errorf "down"))
                end
  | _ => (s, Fail (Errorf "down"))
  end.
Lemma scan_misses_reordered :
  unchanging reordering "*" ["a"; "b"; "c"] ∧ scan_client reordering (λ _, 0) "*" 2 4 "0" false = Some ["a"; "b"; "b"].
Proof.
  split; [|vm_compute; reflexivity]. intros i []; eexists _, _; (split; [reflexivity|]); [|done].
  apply (Permutation_app_comm ["c"] ["a"; "b"]).
Qed.

(** A negative COUNT, a COUNT near 2^63 after the first page, and a number of
    keys near 2^63 end the process with a panic. *)
Lemma scan_count_panics :
  let panics args := (run_prog three_keys (λ _, 0) (scanOp args) 0 tt).2 = Fail (panic "slice bounds out of range") in
  panics [Bulk "0"; Bulk "COUNT"; Bulk "-1"] ∧
  panics [Bulk "1"; Bulk "COUNT"; Bulk "9223372036854775807"] ∧
  panics [Bulk "-1"].
Proof. split_and!; vm_compute; reflexivity. Qed.
Lemma lmpop_numkeys_panics :
  lmpopOp [Bulk "9223372036854775807"; Bulk "k"; Bulk "LEFT"] = Panic "makeslice: len out of range".
Proof. vm_compute. reflexivity. Qed.

(** With COUNT 0 the cursor never advances. *)
Lemma scan_count_zero_stuck :
  (run_prog three_keys (λ _, 0) (scanOp [Bulk "1"; Bulk "COUNT"; Bulk "0"]) 0 tt).2 = Ok (Arr [Bulk "1"; Arr []]).
Proof. vm_compute. reflexivity. Qed.

End CmdProps.
