(* ===== verification/Commands.v ===== *)
(** * The command table: internal/handler/handler_ops.go, [ExecuteWithOps]

    The dispatch from command names to handlers, and what holds for all
    commands together: a command writes only keys that [commandKeys] (keys.go)
    announces, so the locks EXEC takes beforehand cover everything the queued
    commands change.

    The handlers of the scripting commands, and what a blocking command does
    once it has to wait (file Blocking), are the parameter [other]. *)
From stdpp Require Import gmap strings list sorting.
From Stdlib Require Import ZArith Lia Ascii.
From S2P Require Import Prelude GoStd Resp KeyCodec Db StoreMeta StoreStrings StoreBits StoreKeys StoreHll StoreZSets StoreSampling Footprint Ops Client PubSub Handler CmdStrings CmdKeys CmdCollections CmdZSets CmdBlocking.
Import Resp KeyCodec Db Meta StringOps Client Handler Footprint Ops Cmd StringCmds KeyCmds HashCmds ListCmds SetCmds HllCmds ZSetCmds BlockingCmds.

Module Commands.

Definition otherCommands : list string :=
  ["EVAL"; "EVALSHA"; "SCRIPT"].
Definition blockingCommands : list string := ["BLPOP"; "BRPOP"; "BLMPOP"; "BZMPOP"].
(** The commands whose handlers are modelled to the end. *)
Definition modelled (ctx : hctx) (name : string) : Prop :=
  (name ∉ otherCommands) ∧ (ctx_noBlock ctx = true ∨ name ∉ blockingCommands).

Section Commands.
Context (R : runtime) (notifying : bool) (other : hctx → string → list Value → prog Value).
Let poll : Z := blockingPollInterval (proc R).

Definition handlers (ctx : hctx) : list (string * (list Value → prog Value)) :=
  [("GET", getOp); ("SET", setOp); ("SETNX", setnxOp); ("SETEX", setexOp); ("MGET", mgetOp); ("MSET", msetOp);
   ("INCR", incrOp); ("DECR", decrOp); ("INCRBY", incrbyOp); ("DECRBY", decrbyOp);
   ("INCRBYFLOAT", incrbyfloatOp R); ("APPEND", appendCmdOp); ("GETRANGE", getrangeOp);
   ("SETRANGE", setrangeOp); ("STRLEN", strlenOp); ("GETEX", getexOp); ("GETDEL", getdelOp);
   ("GETSET", getsetOp); ("BITFIELD", bitfieldOp);
   ("DEL", delOp); ("EXISTS", existsOp); ("EXPIRE", expireOp); ("PEXPIRE", pexpireOp);
   ("EXPIREAT", expireatOp); ("PEXPIREAT", pexpireatOp); ("TTL", ttlOp); ("PTTL", pttlOp);
   ("PERSIST", persistOp); ("KEYS", keysOp); ("TYPE", typeCmdOp); ("RENAME", renameOp); ("COPY", copyOp);
   ("RANDOMKEY", randomKeyOp); ("OBJECT", objectOp);
   ("HGET", hgetOp); ("HSET", hsetOp); ("HDEL", hdelOp); ("HGETALL", hgetallOp R ctx); ("HMGET", hmgetOp);
   ("HMSET", hmsetOp); ("HEXISTS", hexistsOp); ("HKEYS", hkeysOp); ("HVALS", hvalsOp); ("HLEN", hlenOp);
   ("HINCRBY", hincrbyOp); ("HINCRBYFLOAT", hincrbyfloatOp R); ("HSETNX", hsetnxOp); ("HSCAN", hscanOp R);
   ("WATCH", watchOp); ("UNWATCH", unwatchOp);
   ("LPUSH", lpushOp notifying); ("RPUSH", rpushOp notifying); ("LPOP", lpopOp); ("RPOP", rpopOp);
   ("LMPOP", lmpopOp); ("LLEN", llenOp); ("LRANGE", lrangeOp); ("LINDEX", lindexOp); ("LREM", lremOp);
   ("LTRIM", ltrimOp); ("RPOPLPUSH", rpoplpushOp); ("LPOS", lposOp); ("LSET", lsetOp); ("LINSERT", linsertOp);
   ("SCAN", scanOp);
   ("SADD", saddOp); ("SREM", sremOp); ("SMEMBERS", smembersOp); ("SISMEMBER", sismemberOp);
   ("SCARD", scardOp); ("SMISMEMBER", smismemberOp); ("SINTER", sinterOp); ("SINTERSTORE", sinterstoreOp);
   ("SUNION", sunionOp); ("SUNIONSTORE", sunionstoreOp); ("SDIFF", sdiffOp); ("SDIFFSTORE", sdiffstoreOp);
   ("SINTERCARD", sintercardOp); ("SSCAN", sscanOp); ("UNLINK", unlinkOp);
   ("SETBIT", setbitOp); ("GETBIT", getbitOp); ("BITCOUNT", bitcountOp); ("BITOP", bitopOp);
   ("BITPOS", bitposOp); ("DBSIZE", dbsizeOp);
   ("HRANDFIELD", hrandfieldOp); ("SRANDMEMBER", srandmemberOp);
   ("ZADD", zaddOp R); ("ZRANGE", zrangeOp R); ("ZRANGEBYSCORE", zrangebyscoreOp R); ("ZREVRANGE", zrevrangeOp R);
   ("ZREVRANGEBYSCORE", zrevrangebyscoreOp R); ("ZRANGEBYLEX", zrangebylexOp); ("ZREVRANGEBYLEX", zrevrangebylexOp);
   ("ZLEXCOUNT", zlexcountOp); ("ZRANGESTORE", zrangestoreOp R); ("ZRANDMEMBER", zrandmemberOp R);
   ("ZMPOP", zmpopOp R); ("ZSCORE", zscoreOp R); ("ZREM", zremOp); ("ZREMRANGEBYSCORE", zremrangebyscoreOp R);
   ("ZREMRANGEBYRANK", zremrangebyrankOp); ("ZCARD", zcardOp); ("ZINCRBY", zincrbyOp R); ("ZPOPMIN", zpopminOp R);
   ("ZPOPMAX", zpopmaxOp R); ("ZRANK", zrankOp); ("ZREVRANK", zrevrankOp); ("ZCOUNT", zcountOp R);
   ("ZSCAN", zscanOp R); ("ZUNIONSTORE", zunionstoreOp R); ("ZINTERSTORE", zinterstoreOp R);
   ("PFADD", pfaddOp); ("PFCOUNT", pfcountOp); ("PFMERGE", pfmergeOp); ("INFO", infoOp R);
   ("BLPOP", λ args, blpopOp R poll ctx (other ctx "BLPOP" args) args);
   ("BRPOP", λ args, brpopOp R poll ctx (other ctx "BRPOP" args) args);
   ("BLMPOP", λ args, blmpopOp R poll ctx (other ctx "BLMPOP" args) args);
   ("BZMPOP", λ args, bzmpopOp R poll ctx (other ctx "BZMPOP" args) args)].

Fixpoint find_handler (cmdName : string) (l : list (string * (list Value → prog Value))) :
    option (list Value → prog Value) :=
  match l with
  | [] => None
  | (name, h) :: l => if bool_decide (cmdName = name) then Some h else find_handler cmdName l
  end.

Definition ExecuteWithOps (ctx : hctx) (cmdName : string) (args : list Value) : prog Value :=
  match find_handler cmdName (handlers ctx) with
  | Some h => h args
  | None => if bool_decide (cmdName ∈ otherCommands) then other ctx cmdName args
            else mret (Err ("unknown command '" +:+ cmdName +:+ "'"))
  end.

(** ** The handlers on the store and in a transaction *)

(** A panic ends the process; the transaction that was open is rolled back by
    the server. The reply stands for the lost connection. *)
Definition abandoned (s : st) : st := St (db s) (sent s) (in_tx s) true (locks s).

#[export] Instance cmd_ops : Operations := {|
  ExecuteOnStore := λ ctx name args e s,
    match run_prog (store_perform R e) (λ i, go_now (e (4 * i)%nat)) (ExecuteWithOps ctx name args) 0 s with
    | (s, _, Ok v) => (s, v)
    | (s, _, Fail er) => (s, Err (err_text er))
    end;
  ExecuteOnTx := λ ctx name args e s,
    match run_prog (tx_perform R e) (λ _, go_now e) (ExecuteWithOps ctx name args) 0 s with
    | (s, _, Ok v) => (s, v)
    | (s, _, Fail er) => (abandoned s, Err (err_text er))
    end
|}.

End Commands.

(** ** The keys a command writes *)

(** A call that writes keys [commandKeys] announces, if it announces any and
    does not panic. *)
Definition within (name : string) (args : list Value) (B : Set) (o : op B) : Prop :=
  ∀ ks, commandKeys name args = Some ks → writes o ⊆ ks.

Lemma within_eq name args (B : Set) (o : op B) ks :
  commandKeys name args = Some ks → writes o ⊆ ks → within name args B o.
Proof. intros E H ks' E'. rewrite E in E'. by injection E' as <-. Qed.
Lemma calls_replying (P : ∀ B : Set, op B → Prop) {B : Set} onErr (o : op B) (f : B → Value) :
  P B o → calls P (replying onErr o f).
Proof. intros Ho. cbn. split; [done|]. by intros [a|er]. Qed.

Lemma calls_call (P : ∀ B : Set, op B → Prop) {B : Set} (o : op B) : P B o → calls P (call o).
Proof. intros Ho. by split. Qed.

(** Commands without a rule of their own announce their first argument. *)
Lemma commandKeys_first name a args :
  name ∉ ["PING"; "ECHO"; "KEYS"; "SCAN"; "RANDOMKEY"; "INFO"; "DBSIZE"; "SCRIPT"; "WATCH"; "UNWATCH"; "OBJECT";
          "DEL"; "UNLINK"; "EXISTS"; "MGET"; "SINTER"; "SUNION"; "SDIFF"; "SINTERSTORE"; "SUNIONSTORE";
          "SDIFFSTORE"; "PFCOUNT"; "PFMERGE"; "MSET"; "RENAME"; "COPY"; "RPOPLPUSH"; "ZRANGESTORE"; "BLPOP";
          "BRPOP"; "LMPOP"; "ZMPOP"; "SINTERCARD"; "BLMPOP"; "BZMPOP"; "ZUNIONSTORE"; "ZINTERSTORE"; "BITOP";
          "EVAL"; "EVALSHA"] →
  commandKeys name (a :: args) = Some [vBulk a].
Proof. intros H. unfold commandKeys. rewrite !bool_decide_false; [done|set_solver..]. Qed.

(** One step through a handler: what remains are its storage calls. *)
Ltac calls1 :=
  cbv zeta;
  lazymatch goal with
  | |- calls _ (mret _) => exact I
  | |- calls _ (Panic _) => exact I
  | |- calls _ (Now _) => intros ?
  | |- calls ?P (NotifyPush _ ?k) => change (calls P k)
  | |- calls ?P (?p ≫= ?f) => apply (calls_bind P p f); [|intros ?]
  | |- calls _ (call _) => apply calls_call
  | |- calls _ (reply _ _) => apply calls_replying
  | |- calls _ (replyT _ _) => apply calls_replying
  | |- calls _ (match ?x with _ => _ end) => destruct x eqn:?
  | |- calls _ _ => solve [eauto with calls]
  end.
Ltac through := repeat calls1.
Create HintDb calls.

Lemma calls_page P start count all : calls P (page start count all).
Proof. unfold page. through. Qed.
Lemma calls_expiryOption P opt n : calls P (expiryOption opt n).
Proof. unfold expiryOption. through. Qed.
#[local] Hint Resolve calls_page calls_expiryOption : calls.

Lemma calls_setOptions P args o : calls P (setOptions args o).
Proof.
  revert o. induction args as [args IH] using (induction_ltof1 _ (@length Value)).
  unfold ltof in IH. destruct args as [|a rest]; [done|]. intros o. cbn [setOptions].
  repeat (calls1 || (apply IH; cbn; lia)). 
Qed.

Lemma calls_getexOptions P args ttl persist : calls P (getexOptions args ttl persist).
Proof.
  revert ttl persist. induction args as [args IH] using (induction_ltof1 _ (@length Value)).
  unfold ltof in IH. destruct args as [|a rest]; [done|]. intros ttl persist. cbn [getexOptions].
  repeat (calls1 || (apply IH; cbn; lia)).
Qed.
#[local] Hint Resolve calls_setOptions calls_getexOptions : calls.

Lemma calls_filterType (P : ∀ B : Set, op B → Prop) t keys :
  (∀ key, P _ (KeyOp (Type_ key))) → calls P (filterType t keys).
Proof. intros HP. induction keys as [|key keys IH]; cbn [filterType]; through; auto. Qed.

(** Writes of no key, or of the first argument. *)
Lemma within_nil name args (B : Set) (o : op B) : writes o = [] → within name args B o.
Proof. unfold within. intros -> ks _. set_solver. Qed.
#[local] Hint Extern 1 (within _ _ _ _) => apply within_nil; reflexivity : calls.
#[local] Hint Extern 2 (within _ (_ :: _) _ _) =>
  eapply within_eq; [apply commandKeys_first; refine (bool_decide_unpack _ _); reflexivity|reflexivity] : calls.
#[local] Hint Extern 3 (within _ _ _ _) => eapply within_eq; [reflexivity|]; reflexivity : calls.


(** The bodies of the handlers. *)
Create HintDb handlers.
#[export] Hint Unfold getOp setOp setWith keptTTL oldValue setnxOp setexOp mgetOp msetOp incrOp decrOp incrbyOp
  decrbyOp incrbyfloatOp appendCmdOp getrangeOp setrangeOp strlenOp getexOp getdelOp getsetOp bitfieldOp
  setbitOp getbitOp bitcountOp bitopOp bitposOp : handlers.
#[export] Hint Unfold delOp unlinkOp existsOp expireOp pexpireOp expireatOp pexpireatOp expireWith ttlOp pttlOp
  persistOp keysOp typeCmdOp renameOp copyOp randomKeyOp objectOp watchOp unwatchOp dbsizeOp scanOp : handlers.
#[export] Hint Unfold hgetOp hsetOp hdelOp hgetallOp hmgetOp hmsetOp hexistsOp hkeysOp hvalsOp hlenOp hincrbyOp
  hincrbyfloatOp hsetnxOp hscanOp lpushOp rpushOp pushWith lpopOp rpopOp lmpopOp doLMPop llenOp lrangeOp
  lindexOp lremOp ltrimOp rpoplpushOp lposOp lsetOp linsertOp : handlers.
#[export] Hint Unfold saddOp sremOp smembersOp sismemberOp scardOp smismemberOp sinterOp sunionOp sdiffOp combineWith
  sinterstoreOp sunionstoreOp sdiffstoreOp storeWith sintercardOp sscanOp pfaddOp pfcountOp pfmergeOp : handlers.
#[export] Hint Unfold hrandfieldOp srandmemberOp zaddOp zrangeOp zrangebyscoreOp scoreBounds twoInts lexBounds zrevrangeOp
  zrevrangebyscoreOp zrangebylexOp zrevrangebylexOp zlexcountOp zrangestoreOp zrandmemberOp zmpopOp doZMPop zscoreOp zremOp
  zremrangebyscoreOp zremrangebyrankOp zcardOp zincrbyOp zpopminOp zpopmaxOp popWith zrankOp zrevrankOp zcountOp zscanOp
  zunionstoreOp zinterstoreOp zstoreWith infoOp blpopOp brpopOp blmpopOp bzmpopOp blockingPop blockingMPop : handlers.

(** MSET: the keys of the map are those of the pairs. *)
Lemma pairs_of_keys args (m : gmap string string) k v :
  pairs_of args m !! k = Some v → k ∈ every_other args ∨ m !! k = Some v.
Proof.
  revert m. induction args as [args IH] using (induction_ltof1 _ (@length Value)). unfold ltof in IH. intros m.
  destruct args as [|a [|b args]]; cbn [pairs_of every_other]; [by right..|].
  intros [H|H]%IH; [left; set_solver| |cbn; lia]. apply lookup_insert_Some in H as [[<- _]|[_ H]]; [left; set_solver|by right].
Qed.
Lemma within_MSET args : within "MSET" args _ (StringOp (MSet (pairs_of args ∅))).
Proof.
  apply (within_eq _ _ _ _ (every_other args)); [done|]. intros k. cbn [writes string_writes]. rewrite list_elem_of_fmap.
  intros ([k' v] & -> & [H|H]%elem_of_map_to_list%pairs_of_keys); [done|by rewrite lookup_empty in H].
Qed.

(** LMPOP: [numkeysAt] and [parseMPopHead] read the same keys, also where they
    come after another argument (BLMPOP, BZMPOP). *)
Lemma parseMPopHead_keys pre args allowed keys w n :
  parseMPopHead args allowed = Some (inr (keys, w, n)) → numkeysAt (pre ++ args) (length pre) = Some keys.
Proof.
  intros H. assert (∃ a numkeys, args !! 0%nat = Some a ∧ Strconv.ParseInt (vBulk a) = Some numkeys ∧
    (1 <= numkeys)%Z ∧ (numkeys + 2 <= Z.of_nat (length args))%Z ∧ keys = strs (take (Z.to_nat numkeys) (drop 1 args)))
    as (a & numkeys & Ha & Hn & H1 & Hl & ->).
  { unfold parseMPopHead in H. destruct args as [|a [|b args]]; [done..|].
    destruct (Strconv.ParseInt (vBulk a)) as [numkeys|] eqn:E; [|done]. exists a, numkeys.
    split; [done|]. split; [done|]. repeat case_match; simplify_eq; zify_bool; (split_and!; [lia|lia|done]). }
  unfold numkeysAt. rewrite lookup_app_r, Nat.sub_diag, Ha by lia. unfold Strconv.Atoi. rewrite Hn, length_app.
  pose proof (wrap64_le (Z.of_nat (length pre) + 1 + numkeys) ltac:(lia)).
  rewrite (proj2 (Z.ltb_ge numkeys 0)), (proj2 (Z.ltb_ge _ (wrap64 _))), (proj2 (Z.ltb_ge _ _)) by lia.
  cbn [orb]. do 2 f_equal. rewrite <-drop_drop, drop_app_length. done.
Qed.
Lemma within_LMPOP args allowed keys w n (o : list_op (option (string * list string))) :
  parseMPopHead args allowed = Some (inr (keys, w, n)) → list_writes o = keys →
  within "LMPOP" args _ (ListOp o).
Proof.
  intros E Ho. apply (within_eq _ _ _ _ keys); [exact (parseMPopHead_keys [] _ _ _ _ _ E)|]. cbn [writes]. by rewrite Ho.
Qed.

Lemma within_ZMPOP args allowed keys w n (o : zset_op (option (string * list (string * Z)))) :
  parseMPopHead args allowed = Some (inr (keys, w, n)) → zset_writes o = keys →
  within "ZMPOP" args _ (ZSetOp o).
Proof.
  intros E Ho. apply (within_eq _ _ _ _ keys); [exact (parseMPopHead_keys [] _ _ _ _ _ E)|]. cbn [writes]. by rewrite Ho.
Qed.

(** BLMPOP and BZMPOP announce their keys one argument later. *)
Lemma within_BMPOP name a args allowed keys w n (B : Set) (o : op B) :
  name ∈ ["BLMPOP"; "BZMPOP"] → parseMPopHead args allowed = Some (inr (keys, w, n)) → writes o = keys →
  within name (a :: args) B o.
Proof.
  intros H E <-. eapply within_eq; [|reflexivity]. rewrite <-(parseMPopHead_keys [a] _ _ _ _ _ E).
  by repeat (apply elem_of_cons in H as [->|H]); [..|apply elem_of_nil in H].
Qed.
Lemma within_BPOP name args (B : Set) (o : op B) :
  name ∈ ["BLPOP"; "BRPOP"] → args ≠ [] → writes o = strs (take (length args - 1) args) → within name args B o.
Proof.
  intros H Ha Hw. destruct args as [|a args]; [done|]. eapply within_eq; [|by rewrite Hw].
  by repeat (apply elem_of_cons in H as [->|H]); [..|apply elem_of_nil in H].
Qed.
(** A blocking command that does not wait makes its one call. *)
Lemma calls_blocking (P : ∀ B : Set, op B → Prop) R poll ctx onWait timeout popOnce null :
  ctx_noBlock ctx = true → calls P popOnce → calls P (blocking R poll ctx onWait timeout popOnce null).
Proof.
  intros Hb Hp. unfold blocking, deadlineFor, round. apply (calls_bind P); [by through|intros deadline].
  apply (calls_bind P); [done|]. intros [v|]; [done|]. by rewrite Hb.
Qed.

Lemma within_all name a args (B : Set) (o : op B) :
  name ∈ ["SINTERSTORE"; "SUNIONSTORE"; "SDIFFSTORE"] → writes o = [vBulk a] → within name (a :: args) B o.
Proof.
  intros H Hw. apply (within_eq _ _ _ _ (bulk (a :: args))); [|rewrite Hw; cbn; set_solver].
  by repeat (apply elem_of_cons in H as [->|H]); [..|apply elem_of_nil in H].
Qed.
Lemma within_BITOP a b args (B : Set) (o : op B) : writes o = [vBulk b] → within "BITOP" (a :: b :: args) B o.
Proof. intros Hw. apply (within_eq _ _ _ _ (vBulk b :: bulk args)); [done|]. rewrite Hw. set_solver. Qed.
(** The commands that store under their first argument and announce others. *)
Lemma within_zstore name a args (B : Set) (o : op B) :
  name ∈ ["ZUNIONSTORE"; "ZINTERSTORE"] → writes o = [vBulk a] → within name (a :: args) B o.
Proof.
  intros H Hw ks. assert (commandKeys name (a :: args) = cons (vBulk a) <$> numkeysAt (a :: args) 1) as ->.
  { by repeat (apply elem_of_cons in H as [->|H]); [..|apply elem_of_nil in H]. }
  destruct (numkeysAt (a :: args) 1); [|done]. intros [= <-]. rewrite Hw. set_solver.
Qed.
Lemma within_ZRANGESTORE a b args (B : Set) (o : op B) : writes o = [vBulk a] → within "ZRANGESTORE" (a :: b :: args) B o.
Proof. intros Hw. apply (within_eq _ _ _ _ [vBulk a; vBulk b]); [done|]. rewrite Hw. set_solver. Qed.
#[local] Hint Resolve within_MSET : calls.
#[local] Hint Extern 1 (within _ _ _ (ZSetOp _)) => apply within_zstore; [set_solver|reflexivity] : calls.
#[local] Hint Extern 1 (within "ZRANGESTORE" _ _ _) => apply within_ZRANGESTORE; reflexivity : calls.
#[local] Hint Extern 1 (within _ _ _ (SetOp _)) => apply within_all; [set_solver|reflexivity] : calls.
#[local] Hint Extern 1 (within "BITOP" _ _ _) => apply within_BITOP; reflexivity : calls.
#[local] Hint Extern 1 (calls _ (filterType _ _)) => apply calls_filterType; intros ?; apply within_nil; reflexivity : calls.

Lemma calls_popAny name args (o : list_op (option (string * string))) :
  name ∈ ["BLPOP"; "BRPOP"] → args ≠ [] → list_writes o = strs (take (length args - 1) args) →
  calls (within name args) (popAny o).
Proof. intros. unfold popAny. through. by apply within_BPOP. Qed.

Lemma calls_handlers R notifying other ctx name h args :
  ctx_noBlock ctx = true ∨ name ∉ blockingCommands →
  (name, h) ∈ handlers R notifying other ctx → calls (within name args) (h args).
Proof.
  unfold handlers. intros Hb H.
  repeat (apply elem_of_cons in H as [[= -> ->]|H]); [..|by apply elem_of_nil in H].
  all: autounfold with handlers; through; eauto with calls.
  all: try (eapply within_LMPOP; [eassumption|]; by case_bool_decide).
  all: try (eapply within_ZMPOP; [eassumption|]; by case_bool_decide).
  all: destruct Hb as [Hb|Hb]; [|exfalso; apply Hb; unfold blockingCommands; set_solver].
  all: apply calls_blocking; [done|].
  1-2: apply calls_popAny; [set_solver|by destruct args|done].
  all: unfold doLMPop, doZMPop; through; eapply within_BMPOP; [set_solver|eassumption|by case_bool_decide].
Qed.

Lemma find_handler_elem name l h : find_handler name l = Some h → (name, h) ∈ l.
Proof.
  induction l as [|[n h'] l IH]; cbn; [done|]. case_bool_decide as Hn; [|intros ?; right; auto].
  intros [= ->]. subst. by left.
Qed.

Lemma calls_ExecuteWithOps R notifying other ctx name args :
  modelled ctx name → calls (within name args) (ExecuteWithOps R notifying other ctx name args).
Proof.
  intros [Hn Hb]. unfold ExecuteWithOps. destruct (find_handler name _) as [h|] eqn:E.
  - eapply calls_handlers; [done|]. by apply find_handler_elem.
  - by rewrite bool_decide_false.
Qed.

Lemma calls_announced R notifying other ctx name args ks :
  modelled ctx name → commandKeys name args = Some ks →
  calls (λ B o, writes o ⊆ ks) (ExecuteWithOps R notifying other ctx name args).
Proof.
  intros Hn Hk. eapply calls_mono; [|by apply calls_ExecuteWithOps]. intros B o Ho. by apply Ho.
Qed.

Lemma ExecuteOnTx_rel R `{!RuntimeOk R} notifying other ctx name args ks e s :
  modelled ctx name → commandKeys name args = Some ks →
  tx_rel (encodeKey <$> ks) s (@ExecuteOnTx (cmd_ops R notifying other) ctx name args e s).1.
Proof.
  intros Hn Hk. cbn [ExecuteOnTx cmd_ops].
  pose proof (run_prog_rel (tx_perform R e) (λ _, go_now e) tx_rel ks
    (ExecuteWithOps R notifying other ctx name args) 0 s (calls_announced _ _ _ _ _ _ _ Hn Hk)) as H.
  by destruct (run_prog _ _ _ 0 s) as [[s' pushed] [v|er]].
Qed.

(** What a command may touch. Any command but the scripting ones
    (and the blocking ones only where they must not wait), with any arguments, whatever the storage answers and whichever statement
    fails, changes only rows of the keys that [commandKeys] announces for it
    (where that does not panic); inside a transaction it also requests no
    other lock. *)
Theorem command_footprint R `{!RuntimeOk R} notifying other ctx name args ks :
  modelled ctx name → commandKeys name args = Some ks →
  let ops := cmd_ops R notifying other in
  let K := encodeKey <$> ks in
  (∀ e s, let s' := (ExecuteOnTx ctx name args e s).1 in
          frame K (db s) (db s') ∧ ∀ k, k ∈ locks s' → k ∈ locks s ∨ k ∈ K) ∧
  (∀ e s, frame K (db s) (db (ExecuteOnStore ctx name args e s).1)).
Proof.
  intros Hn Hk ops K. split; intros e s.
  { destruct (ExecuteOnTx_rel R notifying other ctx name args ks e s Hn Hk) as [Hf Hl]. split; [done|].
    intros k. by apply requests_elem. } cbn [ExecuteOnStore ops cmd_ops].
  pose proof (run_prog_rel (store_perform R e) (λ i, go_now (e (4 * i)%nat)) store_rel ks
    (ExecuteWithOps R notifying other ctx name args) 0 s (calls_announced _ _ _ _ _ _ _ Hn Hk)) as H.
  by destruct (run_prog _ _ _ 0 s) as [[s' pushed] [v|er]].
Qed.

(** A queue of commands whose handlers are modelled. *)
Definition covered (commands : list Value) : Prop :=
  ∀ cmd name args, cmd ∈ commands → parts cmd = Some (name, args) → name ∉ otherCommands.

Lemma execQueued_rel R `{!RuntimeOk R} notifying other ctx commands keys e s s' vs :
  covered commands → queuedKeys commands = Some keys → ctx_noBlock ctx = true →
  @execQueued (cmd_ops R notifying other) ctx commands e s = (s', vs) →
  tx_rel (encodeKey <$> keys) s s'.
Proof.
  revert keys s vs. induction commands as [|cmd commands IH]; intros keys s vs Hc Hk Hb; cbn [execQueued].
  { intros [= <- _]. apply (rel_refl (perform := tx_perform R e)). }
  cbn [queuedKeys] in Hk. apply bind_Some in Hk as (ks & Hks & Hk). apply bind_Some in Hk as (rest & Hrest & Hk). injection Hk as <-.
  destruct (match parts cmd with None => (s, _) | _ => _ end) as [s1 v1] eqn:E1.
  destruct (execQueued ctx commands e s1) as [s2 vs2] eqn:E2. intros [= <- _].
  apply (rel_trans (perform := tx_perform R e)) with s1.
  - destruct (parts cmd) as [[name args]|] eqn:Ep; [|injection E1 as <- _; apply (rel_refl (perform := tx_perform R e))].
    assert (modelled ctx name) as Hn by (split; [eapply Hc; [by left|done]|by left]).
    apply (ExecuteOnTx_rel R notifying other ctx name args ks e s) in Hn; [|done]. rewrite E1 in Hn.
    eapply (rel_mono (perform := tx_perform R e)); [|exact Hn]. rewrite fmap_app. set_solver.
  - eapply IH in E2; [|intros c' n a Hin; apply Hc; by right|done|done].
    eapply (rel_mono (perform := tx_perform R e)); [|exact E2]. rewrite fmap_app. set_solver.
Qed.

(** C8. The locks of EXEC cover what it changes. For a queue of commands without
    EVAL, EVALSHA and SCRIPT (a script may write keys it does not declare),
    whatever happens, EXEC changes only rows of the keys of its commands; and
    in any run of the queue that starts with the locks of these keys held, as
    EXEC starts it, the commands request no further lock: all locks of the
    transaction are taken at its start, in one order. When the keys cannot be
    collected, because the position of a last key overflows, EXEC crashes and
    changes nothing. *)
Theorem exec_covered_by_locks R `{!RuntimeOk R} notifying other ctx c e s c' s' v :
  let ops := cmd_ops R notifying other in
  covered (queuedCommands c) → HandleExec ctx c e s = (c', s', v) →
  match queuedKeys (queuedCommands c) with
  | None => s' = s
  | Some keys =>
      let K := encodeKey <$> keys in
      frame K (db s) (db s') ∧
      ∀ ctx e s1 s2 vs, ctx_noBlock ctx = true → (∀ k, k ∈ locks s1 ↔ k ∈ K) →
        execQueued ctx (queuedCommands c) e s1 = (s2, vs) → ∀ k, k ∈ locks s2 → k ∈ locks s1
  end.
Proof.
  intros ops Hc HE. unfold HandleExec in HE.
  destruct (queuedKeys (queuedCommands c)) as [keys|] eqn:Hk.
  2:{ destruct (inTransaction c); [|by injection HE]. cbn [GetQueuedCommands] in HE. rewrite Hk in HE. by injection HE. }
  split.
  - destruct (inTransaction c); [|by injection HE as <- <- <-].
    cbn [GetQueuedCommands] in HE. rewrite Hk in HE. destruct (runTx _ _ e s) as [s0 v0] eqn:E. injection HE as <- <- <-.
    assert (∀ k s1 s2 v, (let '(s, results) := execQueued (MkCtx (ctx_proto ctx) true) (queuedCommands c) (e k) s1 in
      (s, VArr Array results)) = (s2, v) → frame (encodeKey <$> keys) (db s1) (db s2)) as Hran.
    { intros k s1 s2 w Hfn. destruct (execQueued _ _ (e k) s1) as [s3 results] eqn:Eq. injection Hfn as <- _.
      by eapply execQueued_rel in Eq as [Hf _]. }
    apply runTx_from_outcome in E as [(k & s1 & s2 & _ & Hfn & <- & _ & _ & _ & _ & _ & ->)
      |[(_ & k & s1 & s2 & w & er & _ & Hfn & <- & _ & _ & _ & _ & ->)|[-> _]]]; [by eapply Hran..|done].
  - intros ctx' e' s1 s2 vs Hb Hl E k Hin. eapply execQueued_rel in E as [_ H]; [|done..].
    destruct (requests_elem _ _ _ _ H Hin) as [|Hin']; [done|]. by apply Hl.
Qed.

(** ** Examples *)

(** A runtime that keeps every order and counts in integers. *)
Definition sample_runtime : runtime :=
  MkRuntime head (λ l, l) elements map_to_list (Float64Ops Strconv.ParseInt Strconv.FormatInt Z.add 0%Z) HllOps.sample_math
    ZSetOps.sample_scores Sampling.backwards
    (Process 0 "linux" "amd64" (λ d, d / 10 ^ 9)%Z (λ d, d / (86400 * 10 ^ 9))%Z (λ s, s * 10 ^ 9)%Z
      defaultBlockingPollInterval).
#[export] Instance sample_runtime_ok : RuntimeOk sample_runtime.
Proof. by intros m. Qed.
Definition no_other (_ : hctx) (_ : string) (_ : list Value) : prog Value := mret (Err "not modelled").
Definition sample_cmds : Operations := cmd_ops sample_runtime true no_other.
Definition open_tx : st := St empty_tables 0 true false [].

Lemma command_footprint_witness :
  let s' := (@ExecuteOnTx sample_cmds (MkCtx 2 true) "SET" [Bulk "x"; Bulk "1"] (quiet 0 0) open_tx).1 in
  kv_strings (db s') !! "x" = Some ("1", None) ∧ frame ["x"] empty_tables (db s').
Proof.
  split; [vm_compute; reflexivity|].
  refine (proj1 (proj1 (command_footprint sample_runtime true no_other (MkCtx 2 true) "SET" [Bulk "x"; Bulk "1"] ["x"] _ eq_refl)
    (quiet 0 0) open_tx)).
  refine (bool_decide_unpack _ _). vm_compute. reflexivity.
Defined.

Lemma sample_covered : covered sample_queue.
Proof.
  intros cmd name args Hin. unfold sample_queue in Hin.
  repeat (apply elem_of_cons in Hin as [->|Hin]); [..|by apply elem_of_nil in Hin];
    intros [= <- _]; refine (bool_decide_unpack _ _); vm_compute; reflexivity.
Qed.
Lemma exec_covered_by_locks_witness :
  let r := @HandleExec sample_cmds (MkCtx 2 false) sample_client sample_env sample_st in
  r.2 = Arr [OK; Int 6] ∧ frame ["x"; "x"] empty_tables (db r.1.2).
Proof.
  split; [vm_compute; reflexivity|].
  destruct (@HandleExec sample_cmds (MkCtx 2 false) sample_client sample_env sample_st) as [[c' s'] v] eqn:E.
  exact (proj1 (exec_covered_by_locks sample_runtime true no_other (MkCtx 2 false) sample_client sample_env sample_st
    c' s' v sample_covered E)).
Defined.

End Commands.
