(* ===== verification/Locks.v ===== *)
(** * Advisory locks between sessions: internal/storage/querier.go, transaction.go

    Every write transaction takes PostgreSQL advisory locks on its keys
    ([lockKey], [lockKeys], [TxStore.LockKeys]) and keeps them until it ends.
    This file puts several sessions together: a step relation in which
    transactions arrive with the locks they are going to request, take one
    when no other session holds it, and release all at their end. What a
    transaction requests is the lock trace of a run of the code ([asked]): of
    any storage operation in a transaction of its own, or of EXEC. The lock of
    a key is its [hashtext], a function of PostgreSQL and here a parameter.

    The order in which the code requests locks ([lockKeys], DEL's loop over its
    sorted keys, and later requests for keys already locked) rules out circular
    waiting as long as no two keys in use share a hash value; with a collision
    it does not. *)
From stdpp Require Import gmap strings list sorting relations.
From Stdlib Require Import ZArith Lia Ascii.
From S2P Require Import Prelude GoStd Resp KeyCodec Db StoreMeta StoreStrings StoreBits StoreBitmaps StoreKeys StoreHash StoreLists StoreSets StoreHll StoreZSets StoreSampling Client Handler Footprint Ops Commands.
Import Resp KeyCodec Db Meta StringOps BitOps BitmapOps KeyOps HashOps ListOps SetOps HllOps ZSetOps Sampling Handler Footprint Ops Commands.

Module Locks.

Record session := MkSession { held : list string; todo : list string }.
#[export] Instance session_eq_dec : EqDecision session.
Proof. solve_decision. Defined.
Abbreviation sessions := (gmap nat session).

(** Each request is for a key asked for before, or for one after all of those. *)
Fixpoint orderly (seen todo : list string) : Prop :=
  match todo with
  | [] => True
  | k :: todo => (k ∈ seen ∨ ∀ x, x ∈ seen → Sort.slt x k) ∧ orderly (k :: seen) todo
  end.

Section Sessions.
Context (hashtext : string → Z) (inUse : gset string).
(** The lock requests of the transactions that may arrive. *)
Context (asks : list string → Prop).

(** The lock of key [k] is held by another session than [i]. *)
Definition taken (st : sessions) (i : nat) (k : string) : Prop :=
  ∃ j s, j ≠ i ∧ st !! j = Some s ∧ ∃ k', k' ∈ held s ∧ hashtext k' = hashtext k.

Inductive lstep : sessions → sessions → Prop :=
| lock_arrive st i todo :
    st !! i = None → asks todo → (∀ k, k ∈ todo → k ∈ inUse) →
    lstep st (<[i := MkSession [] todo]> st)
| lock_acquire st i s k rest :
    st !! i = Some s → todo s = k :: rest → ¬ taken st i k →
    lstep st (<[i := MkSession (k :: held s) rest]> st)
| lock_finish st i s :
    st !! i = Some s → lstep st (delete i st).

Definition reachable (st : sessions) : Prop := rtc lstep ∅ st.

(** [i] waits for [j]: the lock it requests next is held by [j]. *)
Definition waits_for (st : sessions) (i j : nat) : Prop :=
  i ≠ j ∧ ∃ si sj k rest, st !! i = Some si ∧ todo si = k :: rest ∧ st !! j = Some sj ∧
    ∃ k', k' ∈ held sj ∧ hashtext k' = hashtext k.

Definition lock_inv (st : sessions) : Prop :=
  (∀ i s, st !! i = Some s → orderly (held s) (todo s) ∧ ∀ k, k ∈ held s ++ todo s → k ∈ inUse) ∧
  (∀ i j si sj k k', i ≠ j → st !! i = Some si → st !! j = Some sj → k ∈ held si → k' ∈ held sj →
     hashtext k ≠ hashtext k').

Context (asks_orderly : ∀ todo, asks todo → orderly [] todo).

Lemma lock_inv_step st st' : lock_inv st → lstep st st' → lock_inv st'.
Proof.
  intros [Ho Hx] Hstep. destruct Hstep as [st i td Hi Htd Huse|st i s k rest Hi Htd Hfree|st i s Hi].
  - split.
    + intros j s. rewrite lookup_insert_Some. intros [[_ <-]|[_ Hj]]; [split; [by apply asks_orderly|done]|by eapply Ho].
    + intros a b sa sb ka kb Hab. rewrite !lookup_insert_Some.
      intros [[_ <-]|[_ Ha]] [[_ <-]|[_ Hb]] Hka Hkb; cbn in *;
        [by apply not_elem_of_nil in Hka..|by apply not_elem_of_nil in Hkb|by eapply (Hx a b)].
  - destruct (Ho i s Hi) as [Hord Huse]. rewrite Htd in Hord, Huse. destruct Hord as [Hk Hord]. split.
    + intros j s'. rewrite lookup_insert_Some. intros [[_ <-]|[_ Hj]]; [|by eapply Ho].
      split; [exact Hord|]. cbn. intros x Hx'. apply Huse. set_solver.
    + intros a b sa sb ka kb Hab. rewrite !lookup_insert_Some.
      intros [[<- <-]|[Hia Ha]] [[<- <-]|[Hib Hb]] Hka Hkb; cbn in *; [done|..|by eapply (Hx a b)].
      * apply elem_of_cons in Hka as [->|Hka]; [|by eapply (Hx i b)].
        intros E. apply Hfree. exists b, sb. split; [done|]. split; [done|]. by exists kb.
      * apply elem_of_cons in Hkb as [->|Hkb]; [|by eapply (Hx a i)].
        intros E. apply Hfree. exists a, sa. split; [done|]. split; [done|]. by exists ka.
  - split.
    + intros j s'. rewrite lookup_delete_Some. intros [_ Hj]. by eapply Ho.
    + intros a b sa sb ka kb Hab. rewrite !lookup_delete_Some. intros [_ Ha] [_ Hb]. by eapply (Hx a b).
Qed.

Lemma lock_inv_reachable st : reachable st → lock_inv st.
Proof.
  intros H. assert (lock_inv ∅) as H0 by (split; intros *; rewrite lookup_empty; done).
  revert H0. induction H as [|st1 st2 st3 Hs _ IH]; [done|]. intros H0. by eapply IH, lock_inv_step.
Qed.

(** The key a session requests next. *)
Definition next (st : sessions) (i : nat) : option string := s ← st !! i; head (todo s).

Context (hash_inj : ∀ k k', k ∈ inUse → k' ∈ inUse → hashtext k = hashtext k' → k = k').

(** Along a chain of waiting sessions the requested keys increase. *)
Lemma waits_increase st i j l :
  lock_inv st → waits_for st i j → waits_for st j l →
  ∃ ki kj, next st i = Some ki ∧ next st j = Some kj ∧ Sort.slt ki kj.
Proof.
  intros [Ho Hx] (Hij & si & sj & ki & ri & Hi & Hti & Hj & ki' & Hki' & Ei)
    (Hjl & sj' & sl & kj & rj & Hj' & Htj & Hl & kl & Hkl & El).
  rewrite Hj in Hj'. injection Hj' as <-.
  destruct (Ho i si Hi) as [_ Hui]. destruct (Ho j sj Hj) as [Hoj Huj]. rewrite Hti in Hui. rewrite Htj in Hoj, Huj.
  assert (ki' = ki) as -> by (apply hash_inj; [apply Huj|apply Hui|done]; set_solver).
  exists ki, kj. split; [by unfold next; rewrite Hi; cbn; rewrite Hti|].
  split; [by unfold next; rewrite Hj; cbn; rewrite Htj|].
  destruct Hoj as [[Hown|Hgt] _]; [|by apply Hgt].
  exfalso. exact (Hx j l sj sl kj kl Hjl Hj Hl Hown Hkl (eq_sym El)).
Qed.

Lemma slt_irrefl k : ¬ Sort.slt k k.
Proof. by intros [_ ?]. Qed.
Lemma slt_trans a b c : Sort.slt a b → Sort.slt b c → Sort.slt a c.
Proof.
  intros [H1 N1] [H2 N2]. split; [by etrans|]. intros ->. apply N2. by apply (anti_symm String.le).
Qed.

Lemma tc_first {A} (R : A → A → Prop) x y : tc R x y → ∃ z, R x z.
Proof. intros H. by inversion H; eexists. Qed.

Lemma waits_chain st i j :
  lock_inv st → tc (waits_for st) i j → ∀ l, waits_for st j l →
  ∃ ki kj, next st i = Some ki ∧ next st j = Some kj ∧ Sort.slt ki kj.
Proof.
  intros Hinv H. induction H as [i j H|i j m H Hjm IH]; intros l Hl; [by eapply waits_increase|].
  destruct (IH l Hl) as (kj & km & Ej & Em & Hlt). destruct (tc_first _ _ _ Hjm) as [x Hx].
  destruct (waits_increase st i j x Hinv H Hx) as (ki & kj' & Ei & Ej' & Hlt').
  rewrite Ej in Ej'. injection Ej' as <-. exists ki, km. split_and!; [done|done|by eapply slt_trans].
Qed.

Lemma no_cycle st i : reachable st → ¬ tc (waits_for st) i i.
Proof.
  intros Hr%lock_inv_reachable Hc. destruct (tc_first _ _ _ Hc) as [x Hx].
  destruct (waits_chain st i i Hr Hc x Hx) as (k & k' & E & E' & Hlt).
  rewrite E in E'. injection E' as <-. by apply slt_irrefl in Hlt.
Qed.

End Sessions.

(** ** What the code requests *)

Lemma orderly_app seen l1 l2 : orderly seen l1 → orderly (rev l1 ++ seen) l2 → orderly seen (l1 ++ l2).
Proof.
  revert seen. induction l1 as [|k l1 IH]; intros seen H1 H2; [done|].
  destruct H1 as [Hk H1]. split; [done|]. apply IH; [done|]. cbn in H2. by rewrite <-app_assoc in H2.
Qed.

Lemma orderly_sorted seen l :
  StronglySorted Sort.slt l → (∀ x k, x ∈ seen → k ∈ l → Sort.slt x k) → orderly seen l.
Proof.
  intros Hs. revert seen. induction Hs as [|k l Hs IH Hk]; intros seen Hlt; [done|].
  split; [right; intros x Hx; apply Hlt; [done|by left]|]. apply IH.
  intros x k' [->|Hx]%elem_of_cons Hk'; [rewrite Forall_forall in Hk; by apply Hk|apply Hlt; [done|by right]].
Qed.

Lemma orderly_seen seen l : (∀ k, k ∈ l → k ∈ seen) → orderly seen l.
Proof.
  revert seen. induction l as [|k l IH]; intros seen H; [done|]. split; [left; apply H; by left|].
  apply IH. intros k' ?. right. apply H. by right.
Qed.

(** One key only. *)
Lemma orderly_const k l : (∀ x, x ∈ l → x = k) → orderly [] l.
Proof.
  destruct l as [|k0 l]; intros H; [done|]. split; [right; by intros x Hx%not_elem_of_nil|].
  apply orderly_seen. intros x Hx. rewrite (H x) by (by right). rewrite (H k0) by (by left). by left.
Qed.

(** Sorted keys, repeated ones included. *)
Lemma orderly_le l : StronglySorted String.le l → orderly [] l.
Proof.
  intros Hs. assert (∀ seen, (∀ x k, x ∈ seen → k ∈ l → String.le x k) → orderly seen l) as H.
  { induction Hs as [|k l Hs IH Hk]; intros seen Hle; [done|]. split.
    - destruct (decide (k ∈ seen)); [by left|right]. intros x Hx. split; [apply Hle; [done|by left]|].
      by intros ->.
    - apply IH. intros x k' [->|Hx]%elem_of_cons Hk'; [rewrite Forall_forall in Hk; by apply Hk|].
      apply Hle; [done|by right]. }
  apply H. by intros x k Hx%not_elem_of_nil.
Qed.
Lemma sublist_sorted (l1 l2 : list string) :
  l1 `sublist_of` l2 → StronglySorted String.le l2 → StronglySorted String.le l1.
Proof.
  induction 1 as [|x l1 l2 Hs IH|x l1 l2 Hs IH]; intros H2; [done|..]; apply StronglySorted_inv in H2 as [H2 Hx]; [|by apply IH].
  constructor; [by apply IH|]. rewrite Forall_forall in *. intros y Hy. apply Hx. by eapply elem_of_sublist.
Qed.

(** What [m] requests from a transaction that holds no lock is in order. *)
Definition in_order {A} (m : M A) : Prop :=
  ∀ e s s' r, locks s = [] → m e s = (s', r) → orderly [] (locks s').

Lemma in_order_one {A} k (m : M A) : touches [k] m → in_order m.
Proof.
  intros Ht e s s' r Hl E. destruct (Ht _ _ _ _ E) as (_ & _ & Hr). apply (orderly_const k). intros x Hx.
  apply (requests_elem _ _ _ _ Hr) in Hx as [Hx|Hx]; [by rewrite Hl in Hx; apply not_elem_of_nil in Hx|].
  by apply list_elem_of_singleton in Hx.
Qed.
Lemma in_order_none {A} (m : M A) : touches [] m → in_order m.
Proof. intros Ht. apply (in_order_one ""). by apply (touches_mono []); [set_solver|]. Qed.

(** *** The locks up front *)

(** The order in which [lockKeys] takes the locks. *)
Definition sorted_keys (ks : list string) : list string :=
  match ks with [] => [] | [k] => [k] | _ => Sort.Compact (Sort.Strings ks) end.
Lemma sorted_keys_sorted ks : StronglySorted Sort.slt (sorted_keys ks).
Proof.
  destruct ks as [|k [|k' l]]; [constructor|by repeat constructor|]. apply Sort.Compact_strict, Sort.Strings_sorted.
Qed.
Lemma elem_of_sorted_keys ks k : k ∈ sorted_keys ks ↔ k ∈ ks.
Proof.
  destruct ks as [|k1 [|k2 l]]; [done|done|]. unfold sorted_keys. by rewrite Sort.elem_of_Compact, Sort.Strings_Permutation.
Qed.

(** All locks first, then again only keys among them. *)
Definition upfront {A} (ks : list string) (m : M A) : Prop :=
  ∀ e s s' r, locks s = [] → m e s = (s', r) →
    (locks s' = [] ∧ ∃ er, r = Fail er) ∨
    ∃ later, locks s' = sorted_keys ks ++ later ∧ ∀ k, k ∈ later → k ∈ ks.

Lemma orderly_upfront ks later : (∀ k, k ∈ later → k ∈ ks) → orderly [] (sorted_keys ks ++ later).
Proof.
  intros H. apply orderly_app.
  - apply orderly_sorted; [apply sorted_keys_sorted|]. by intros x k Hx%not_elem_of_nil.
  - apply orderly_seen. intros k Hk. rewrite app_nil_r, list_elem_of_In, <-in_rev, <-list_elem_of_In.
    apply elem_of_sorted_keys. by apply H.
Qed.
Lemma upfront_in_order {A} ks (m : M A) : upfront ks m → in_order m.
Proof. intros H e s s' r Hl E. destruct (H _ _ _ _ Hl E) as [[-> _]|(later & -> & Hk)]; [done|by apply orderly_upfront]. Qed.

Lemma lock_stmt_locks ks e s s' r :
  lock_stmt ks e s = (s', r) → locks s' = match r with Ok _ => locks s ++ ks | Fail _ => locks s end.
Proof.
  unfold lock_stmt. destruct (query (λ _ _, tt) e s) as [s1 [u|er]] eqn:E;
    apply (touches_query []) in E as (_ & _ & l & Hl & Hn);
    (assert (l = []) as -> by (destruct l as [|x l]; [done|by destruct (not_elem_of_nil x); apply Hn; left]));
    rewrite app_nil_r in Hl; intros [= <- <-]; cbn; by rewrite Hl.
Qed.
Lemma upfront_lockKeys ks : upfront ks (lockKeys ks).
Proof.
  intros e s s' r Hl. assert (∀ l, lock_stmt l e s = (s', r) → l = sorted_keys ks →
    (locks s' = [] ∧ ∃ er, r = Fail er) ∨ ∃ later, locks s' = sorted_keys ks ++ later ∧ ∀ k, k ∈ later → k ∈ ks) as H.
  { intros l E ->. apply lock_stmt_locks in E. rewrite Hl in E. destruct r as [u|er]; [|left; split; [done|by eexists]].
    right. exists []. rewrite app_nil_r. split; [done|]. by intros k Hk%not_elem_of_nil. }
  destruct ks as [|k [|k' l]]; cbn [lockKeys]; [|intros E; by eapply H..].
  intros [= <- <-]. right. exists []. rewrite Hl. split; [done|]. by intros k Hk%not_elem_of_nil.
Qed.
Lemma upfront_bind {A B} ks (m : M A) (f : A → M B) :
  upfront ks m → (∀ a, touches ks (f a)) → upfront ks (m ≫= f).
Proof.
  intros Hm Hf e s s' r Hl. unfold mbind, M_bind. destruct (m e s) as [s1 [a|er]] eqn:E;
    destruct (Hm _ _ _ _ Hl E) as [[H1 [er' H2]]|(later & H1 & H2)]; try done.
  - intros E2. right. destruct (Hf a _ _ _ _ E2) as (_ & _ & l & Hl' & Hin). exists (later ++ l).
    rewrite Hl', H1, app_assoc. split; [done|]. intros k [?|?]%elem_of_app; auto.
  - intros [= <- <-]. left. split; [done|by eexists].
  - intros [= <- <-]. right. by exists later.
Qed.

(** *** The operations that lock several keys *)

(** DEL: a loop over the sorted keys, which locks those that exist. *)
Lemma deleteKey_locks key e s s' r :
  deleteKeyFromAllTables key e s = (s', r) → locks s' = locks s ∨ locks s' = locks s ++ [key].
Proof.
  unfold deleteKeyFromAllTables, mbind at 1, M_bind at 1. unfold lockKey.
  destruct (lock_stmt [key] e s) as [s1 [u|er]] eqn:E; apply lock_stmt_locks in E; [|intros [= <- <-]; by left].
  intros E2. assert (∀ f : Z → tables → tables, ∀ e s s' r, exec f e s = (s', r) → locks s' = locks s) as Hx.
  { intros f e0 s0 s0' r0. unfold exec, stmt. repeat case_match; intros [= <- <-]; done. }
  assert (∀ (m : M unit) f, (∀ e s s' r, m e s = (s', r) → locks s' = locks s) →
    ∀ e s s' r, (exec f ≫= λ _, m) e s = (s', r) → locks s' = locks s) as Hb.
  { intros m f Hm e0 s0 s0' r0. unfold mbind, M_bind. destruct (exec f e0 s0) as [s2 [u2|er2]] eqn:E3; apply Hx in E3.
    - intros E4%Hm. congruence.
    - intros [= <- <-]. done. }
  right. rewrite <-E. revert E2. repeat apply Hb. apply Hx.
Qed.
Lemma del_loop_locks ks n e s s' r :
  del_loop ks n e s = (s', r) → ∃ l, locks s' = locks s ++ l ∧ l `sublist_of` ks.
Proof.
  revert n s. induction ks as [|k ks IH]; intros n s; cbn [del_loop].
  { intros [= <- <-]. exists []. by rewrite app_nil_r. }
  assert (∀ s1, locks s1 = locks s → ∀ m : M Z, (∀ s, m e s = (s', r) → ∃ l, locks s' = locks s ++ l ∧ l `sublist_of` ks) →
    m e s1 = (s', r) → ∃ l, locks s' = locks s ++ l ∧ l `sublist_of` (k :: ks)) as Hskip.
  { intros s1 Hs1 m Hm E. destruct (Hm s1 E) as (l & Hl & Hsub). exists l. rewrite Hl, Hs1. split; [done|by constructor]. }
  unfold mbind, M_bind. destruct (getKeyType k e s) as [s1 [kt|er]] eqn:E1;
    destruct (touches_getKeyType k [] _ _ _ _ E1) as (_ & _ & l0 & Hl0 & Hn);
    (assert (l0 = []) as -> by (destruct l0 as [|x l0]; [done|by destruct (not_elem_of_nil x); apply Hn; left]));
    rewrite app_nil_r in Hl0.
  2:{ intros [= <- <-]. exists []. rewrite app_nil_r. split; [done|apply sublist_nil_l]. }
  case_bool_decide; [by apply (Hskip s1 Hl0 (del_loop ks n)), IH|].
  destruct (deleteKeyFromAllTables k e s1) as [s2 [u|er]] eqn:E2; apply deleteKey_locks in E2.
  - destruct E2 as [E2|E2]; [apply (Hskip s2 ltac:(congruence) (del_loop ks (n + 1)%Z)), IH|].
    intros (l & Hl & Hsub)%IH. exists (k :: l). rewrite Hl, E2, Hl0, <-app_assoc. split; [done|by constructor].
  - intros [= <- <-]. destruct E2 as [E2|E2].
    + exists []. rewrite app_nil_r, E2. split; [done|apply sublist_nil_l].
    + exists [k]. rewrite E2, Hl0. split; [done|]. constructor. apply sublist_nil_l.
Qed.
Lemma in_order_del keys : in_order (del keys).
Proof.
  intros e s s' r Hl (l & -> & Hs)%del_loop_locks. rewrite Hl. cbn [app]. apply orderly_le.
  eapply sublist_sorted; [exact Hs|]. apply Sort.Strings_sorted.
Qed.

Lemma in_order_mSet pairs : in_order (mSet pairs).
Proof.
  unfold mSet. cbv zeta. set (encoded := foldl _ _ _).
  remember (Sort.Strings (map_to_list encoded).*1) as ks eqn:Ek. clear Ek.
  destruct ks as [|k0 ks0]; [by apply in_order_none, touches_ret|]. set (ks := k0 :: ks0).
  apply (upfront_in_order ks).
  apply upfront_bind; [|intros []; apply touches_bind; [by apply touches_setMetaBatch|intros []]].
  - change (deleteKeysFromAllTables ks) with (lockKeys ks ≫= λ _,
      exec (λ _, upd_meta (del_any ks));; exec (λ _, upd_strings (del_any ks));; exec (λ _, upd_hashes (drop_any ks));;
      exec (λ _, upd_lists (drop_any ks));; exec (λ _, upd_sets (drop_any ks));; exec (λ _, upd_zsets (drop_any ks));;
      exec (λ _, upd_hll (del_any ks))).
    apply upfront_bind; [apply upfront_lockKeys|intros []].
    repeat (apply touches_bind; [|intros []]); apply touches_exec; intros _ t k Hk;
      (split_and!; try done); cbn; intros; rewrite ?del_any_lookup, ?drop_any_lookup; case_decide; set_solver.
  - apply touches_exec. intros _ t. eapply frame_mono; [|apply frame_upsert_all].
    rewrite fst_zip by (by rewrite length_fmap). done.
Qed.

(** RENAME, COPY, RPOPLPUSH, PFMERGE: [lockKeys] of all keys comes first. *)
Lemma in_order_first {A} ks (m : M A) : locks_first ks m → in_order m.
Proof. intros (f & -> & Hf). apply (upfront_in_order ks), upfront_bind; [apply upfront_lockKeys|exact Hf]. Qed.

(** The pops from several keys are one statement and lock nothing. *)
Lemma stmt_locks {A} (f : Z → tables → result (tables * A)) e s s' r : stmt f e s = (s', r) → locks s' = locks s.
Proof. unfold stmt. repeat case_match; intros [= <- <-]; done. Qed.
Lemma in_order_stmt {A B} (f : Z → tables → result (tables * A)) (g : A → B) :
  in_order (stmt f ≫= λ a, mret (g a)).
Proof.
  intros e s s' r Hl. unfold mbind, M_bind. destruct (stmt f e s) as [s1 [a|er]] eqn:E; apply stmt_locks in E;
    intros [= <- <-]; by rewrite E, Hl.
Qed.
Lemma in_order_pops asc ks n :
  in_order (popMulti asc ks) ∧ in_order (popMultiN asc ks n) ∧ in_order (zMPop asc ks n).
Proof.
  split_and!; [unfold popMulti|unfold popMultiN|unfold zMPop]; cbv zeta;
    case_match; first [by apply in_order_none, touches_ret|apply in_order_stmt].
Qed.

(** Every operation of the storage layer. *)
Lemma in_order_op R `{!RuntimeOk R} {A : Set} (o : op A) : in_order (tx_op R o).
Proof.
  pose proof (touches_tx_op R o) as Ht.
  destruct o as [o|o|o|o|o|o|o|o]; destruct o; cbn [tx_op tx_string tx_key tx_list tx_hll tx_zset];
    first [by apply in_order_none, Ht|by eapply in_order_one, Ht|apply in_order_mSet|apply in_order_del
          |by eapply in_order_first, rename_locks_first|by eapply in_order_first, copyKey_locks_first
          |by eapply in_order_first, rPopLPush_locks_first|by eapply in_order_first, pfMerge_locks_first
          |apply (in_order_pops _ _ 0)|apply in_order_pops].
Qed.

(** *** Transactions *)

(** The lock requests of a transaction of the program: any storage operation
    in a transaction of its own, or EXEC of a queue of commands without
    scripts, on any tables and whatever fails. *)
Inductive asked (R : runtime) (notifying : bool) (other : hctx → string → list Resp.Value → prog Resp.Value) :
    list string → Prop :=
| asked_op {A : Set} (o : op A) e s s' r :
    locks s = [] → tx_op R o e s = (s', r) → asked R notifying other (locks s')
| asked_exec ctx commands keys e s s1 s2 results :
    locks s = [] → aborted s = false → covered commands → queuedKeys commands = Some keys → ctx_noBlock ctx = true →
    LockKeys keys e s = (s1, Ok tt) → @execQueued (cmd_ops R notifying other) ctx commands e s1 = (s2, results) →
    asked R notifying other (locks s2).

Lemma asked_orderly R `{!RuntimeOk R} notifying other todo : asked R notifying other todo → orderly [] todo.
Proof.
  intros [A o e s s' r Hl E|ctx commands keys e s s1 s2 results Hl Ha Hc Hk Hb E1 E2].
  - by eapply in_order_op.
  - apply LockKeys_outcome in E1 as (_ & _ & _ & E1); [|done]. rewrite Hl in E1.
    eapply execQueued_rel in E2 as [_ (later & -> & Hin)]; [|done..]. rewrite E1.
    assert (lock_order keys = sorted_keys (encodeKey <$> keys)) as ->
      by (unfold lock_order; by destruct (encodeKey <$> keys) as [|k1 [|k2 l]]).
    by apply orderly_upfront.
Qed.

(** C20. Transactions cannot deadlock on their key locks, as long as no two
    keys in use have the same [hashtext]. Whatever storage operations, each in
    its transaction, and whatever EXECs of commands without scripts run at the
    same time, each requesting the locks that its code requests in the order
    in which it does, in every reachable state no session waits, directly or
    through others, for itself. *)
Theorem no_lock_deadlock R `{!RuntimeOk R} notifying other (hashtext : string → Z) (inUse : gset string) st i :
  (∀ k k', k ∈ inUse → k' ∈ inUse → hashtext k = hashtext k' → k = k') →
  reachable hashtext inUse (asked R notifying other) st →
  ¬ tc (waits_for hashtext st) i i.
Proof. intros Hinj Hr. eapply no_cycle; [by apply asked_orderly|done|done]. Qed.

(** DEL of "b" and "a", and RENAME of "b" to "a". *)
Definition first_byte (k : string) : Z := match bytes_of k with c :: _ => b2z c | [] => 0%Z end.
Definition ab_tables : tables := upd_meta (λ _, {[ "a" := (TypeString, None); "b" := (TypeString, None) ]}) empty_tables.
Local Abbreviation sample_asked := (asked sample_runtime true no_other).
Definition two_sessions : sessions :=
  {[ 0%nat := MkSession ["a"] ["b"]; 1%nat := MkSession [] ["a"; "b"] ]}.

Lemma op_asked {A : Set} (o : op A) t todo :
  locks (tx_op sample_runtime o (quiet 0 0) (St t 0 true false [])).1 = todo → sample_asked todo.
Proof. intros <-. eapply asked_op; [|apply surjective_pairing]. done. Qed.
Lemma del_asked : sample_asked ["a"; "b"].
Proof. apply (op_asked (KeyOp (Del ["b"; "a"])) ab_tables). vm_compute. reflexivity. Qed.
Lemma rename_asked a b todo :
  locks (rename a b (quiet 0 0) (St empty_tables 0 true false [])).1 = todo → sample_asked todo.
Proof. exact (op_asked (KeyOp (Rename a b)) empty_tables todo). Qed.

Lemma two_sessions_reachable : reachable first_byte {["a"; "b"]} sample_asked two_sessions.
Proof.
  assert (two_sessions = <[0%nat := MkSession ("a" :: held (MkSession [] ["a"; "b"])) ["b"]]>
    (<[0%nat := MkSession [] ["a"; "b"]]> (<[1%nat := MkSession [] ["a"; "b"]]> ∅))) as ->.
  { apply (bool_decide_unpack _). vm_compute. exact I. }
  eapply rtc_l; [apply (lock_arrive _ _ _ ∅ 1%nat ["a"; "b"])|].
  - apply lookup_empty.
  - apply (rename_asked "b" "a"); vm_compute; reflexivity.
  - set_solver.
  - eapply rtc_l; [apply (lock_arrive _ _ _ _ 0%nat ["a"; "b"])|].
    + reflexivity.
    + exact del_asked.
    + set_solver.
    + eapply rtc_l; [|apply rtc_refl].
      eapply (lock_acquire _ _ _ _ 0%nat (MkSession [] ["a"; "b"]) "a" ["b"]); [reflexivity|reflexivity|].
      intros (j & s & Hj & Hs & k & Hk & _). rewrite lookup_insert_ne in Hs by congruence.
      apply lookup_insert_Some in Hs as [[_ <-]|[_ Hs]]; [by apply not_elem_of_nil in Hk|].
      by rewrite lookup_empty in Hs.
Qed.

Lemma no_lock_deadlock_witness :
  reachable first_byte {["a"; "b"]} sample_asked two_sessions ∧ ¬ tc (waits_for first_byte two_sessions) 1%nat 1%nat.
Proof.
  split; [exact two_sessions_reachable|].
  refine (no_lock_deadlock sample_runtime true no_other first_byte {["a"; "b"]} two_sessions 1%nat _ two_sessions_reachable).
  intros k k' Hk Hk' E.
  apply elem_of_union in Hk as [Hk|Hk]; apply elem_of_singleton in Hk as ->;
    apply elem_of_union in Hk' as [Hk'|Hk']; apply elem_of_singleton in Hk' as ->;
    try reflexivity; discriminate E.
Defined.

(** With colliding hash values the sorted order is not enough: one transaction
    locks "a" and "b", the other "c" and "d"; "a" and "d" share a lock, "b"
    and "c" share the other, and each session holds what the other needs. *)
Definition colliding (k : string) : Z := if bool_decide (k ∈ ["a"; "d"]) then 0%Z else 1%Z.
Definition stuck : sessions := {[ 0%nat := MkSession ["a"] ["b"]; 1%nat := MkSession ["c"] ["d"] ]}.

Lemma collision_deadlocks :
  reachable colliding {["a"; "b"; "c"; "d"]} sample_asked stuck ∧ waits_for colliding stuck 0%nat 1%nat ∧ waits_for colliding stuck 1%nat 0%nat.
Proof.
  split; [|split].
  - assert (stuck = <[1%nat := MkSession ("c" :: held (MkSession [] ["c"; "d"])) ["d"]]>
      (<[1%nat := MkSession [] ["c"; "d"]]> (<[0%nat := MkSession ("a" :: held (MkSession [] ["a"; "b"])) ["b"]]>
        (<[0%nat := MkSession [] ["a"; "b"]]> ∅)))) as ->.
    { apply (bool_decide_unpack _). vm_compute. exact I. }
    eapply rtc_l; [apply (lock_arrive _ _ _ ∅ 0%nat ["a"; "b"])|].
    { apply lookup_empty. } { apply (rename_asked "a" "b"); vm_compute; reflexivity. } { set_solver. }
    eapply rtc_l; [eapply (lock_acquire _ _ _ _ 0%nat (MkSession [] ["a"; "b"]) "a" ["b"]); [reflexivity|reflexivity|]|].
    { intros (j & s & Hj & Hs & _). rewrite lookup_insert_ne in Hs by congruence. by rewrite lookup_empty in Hs. }
    eapply rtc_l; [apply (lock_arrive _ _ _ _ 1%nat ["c"; "d"])|].
    { reflexivity. } { apply (rename_asked "c" "d"); vm_compute; reflexivity. } { set_solver. }
    eapply rtc_l; [|apply rtc_refl].
    eapply (lock_acquire _ _ _ _ 1%nat (MkSession [] ["c"; "d"]) "c" ["d"]); [reflexivity|reflexivity|].
    intros (j & s & Hj & Hs & k & Hk & E). rewrite lookup_insert_ne in Hs by congruence.
    apply lookup_insert_Some in Hs as [[_ <-]|[Hne Hs]].
    + cbn in Hk. apply list_elem_of_singleton in Hk as ->. discriminate E.
    + rewrite lookup_insert_ne in Hs by congruence. by rewrite lookup_empty in Hs.
  - split; [done|]. eexists _, _, "b", []. split; [reflexivity|]. split; [reflexivity|]. split; [reflexivity|].
    exists "c". split; [by left|reflexivity].
  - split; [done|]. eexists _, _, "d", []. split; [reflexivity|]. split; [reflexivity|]. split; [reflexivity|].
    exists "a". split; [by left|reflexivity].
Qed.

End Locks.
