(* ===== verification/Types.v ===== *)
(** * Types of replies: what the commands answer and what the wire can carry

    A connection speaks RESP2 until HELLO asks for RESP3. [typed] are the
    values the writer of resp.go can put on the wire for each of the two, and
    the theorems here show that every command, script and subscription message
    answers with such a value, whatever the storage returns: the writer never
    fails on a reply and a RESP2 client never meets a RESP3 type. *)
From stdpp Require Import gmap strings list.
From Stdlib Require Import ZArith Lia Ascii.
From S2P Require Import Prelude GoStd Resp KeyCodec Db StoreMeta StoreStrings StoreBits StoreKeys StoreHll StoreZSets StoreSampling Ops Client PubSub Handler Lua Server CmdStrings CmdKeys CmdCollections CmdZSets CmdBlocking Commands.
Import Resp Db Meta StringOps Client PubSub Handler Ops Cmd StringCmds KeyCmds HashCmds ListCmds SetCmds HllCmds ZSetCmds BlockingCmds Commands.

Module Types.

(** ** Values of a protocol *)

(** [resp3]: the connection has switched to RESP3. *)
Fixpoint typed (resp3 : bool) (v : Value) : bool :=
  if bool_decide (vType v ∈ [SimpleString; Error; Integer; BulkString]) then true
  else if bool_decide (vType v = Array) then vNull v || forallb (typed resp3) (vArray v)
  else if bool_decide (vType v = Map) then resp3
  else if bool_decide (vType v = Push) then resp3 && forallb (typed resp3) (vArray v)
  else false.
Definition fits (resp3 : bool) (v : Value) : Prop := typed resp3 v = true.

Lemma fits_VStr b t s : t ∈ [SimpleString; Error] → fits b (VStr t s).
Proof. intros Ht. unfold fits. cbn [typed vType VStr]. rewrite bool_decide_true; [done|set_solver]. Qed.
Lemma fits_error b s : fits b (VStr Error s).
Proof. apply fits_VStr. set_solver. Qed.
Lemma fits_simple b s : fits b (VStr SimpleString s).
Proof. apply fits_VStr. set_solver. Qed.
Lemma fits_Err b s : fits b (Err s).
Proof. unfold Err. case_if; apply fits_error. Qed.
Lemma fits_Int b n : fits b (Int n).
Proof. done. Qed.
Lemma fits_VInt b n : fits b (VInt n).
Proof. done. Qed.
Lemma fits_Bulk b s : fits b (Bulk s).
Proof. done. Qed.
Lemma fits_VBulk b s : fits b (VBulk s).
Proof. done. Qed.
Lemma fits_NullBulk b : fits b NullBulk.
Proof. done. Qed.
Lemma fits_NullArray b : fits b NullArray.
Proof. done. Qed.
Lemma fits_Map m : fits true (MapVal m).
Proof. done. Qed.
Lemma fits_VArr b l : Forall (fits b) l → fits b (VArr Array l).
Proof.
  intros Hl. unfold fits. cbn [typed vType VArr vNull vArray orb]. change (forallb (typed b) l = true).
  apply forallb_forall. intros v Hv. rewrite Forall_forall in Hl. apply Hl. by apply list_elem_of_In.
Qed.
Lemma fits_Arr b l : Forall (fits b) l → fits b (Arr l).
Proof. apply fits_VArr. Qed.
Lemma fits_OK b : fits b OK.
Proof. apply fits_simple. Qed.
Lemma fits_ErrCustom b s : fits b (ErrCustom s).
Proof. apply fits_error. Qed.
Lemma fits_ErrWrongArgs b s : fits b (ErrWrongArgs s).
Proof. apply fits_error. Qed.
Lemma fits_ErrWrongType b : fits b ErrWrongType.
Proof. apply fits_error. Qed.
Lemma fits_errReply b er : fits b (errReply er).
Proof. apply fits_Err. Qed.
Lemma fits_typedReply b er : fits b (typedReply er).
Proof. unfold typedReply. case_if; [apply fits_ErrWrongType|apply fits_Err]. Qed.
Lemma fits_optBulk b o : fits b (optBulk o).
Proof. by destruct o. Qed.
Lemma fits_boolInt b x : fits b (boolInt x).
Proof. by destruct x. Qed.
Lemma fits_ok {A} b (a : A) : fits b (ok a).
Proof. apply fits_OK. Qed.

(** Lists of replies. *)
Lemma fits_fmap {A} b (f : A → Value) l : (∀ a, fits b (f a)) → Forall (fits b) (f <$> l).
Proof. intros Hf. apply Forall_fmap, Forall_true. exact Hf. Qed.
Lemma fits_flat_map {A} b (f : A → list Value) l : (∀ a, Forall (fits b) (f a)) → Forall (fits b) (flat_map f l).
Proof. intros Hf. induction l; cbn; [constructor|by apply Forall_app]. Qed.
Lemma fits_bulks b l : fits b (bulks l).
Proof. apply fits_Arr, fits_fmap. done. Qed.
Lemma fits_flatten b l : Forall (fits b) (flatten l).
Proof. apply fits_flat_map. intros p. by repeat constructor. Qed.

Create HintDb fits.
#[export] Hint Resolve fits_error fits_simple fits_Err fits_Int fits_VInt fits_Bulk fits_VBulk fits_NullBulk fits_NullArray
  fits_Map fits_OK fits_ErrCustom fits_ErrWrongArgs fits_ErrWrongType fits_errReply fits_typedReply fits_optBulk
  fits_boolInt fits_ok fits_bulks fits_flatten Forall_nil_2 Forall_cons_2 Forall_app_2 : fits.
#[export] Hint Resolve fits_Arr fits_VArr fits_fmap fits_flat_map : fits.

(** ** Postconditions of handlers *)

(** Whatever the storage and the clock answer, the program ends with a value
    in [P], or panics. *)
Fixpoint gives {A} (P : A → Prop) (p : prog A) : Prop :=
  match p with
  | Ret a => P a
  | Panic _ => True
  | Now k => ∀ now, gives P (k now)
  | NotifyPush _ k => gives P k
  | Call _ k => ∀ r, gives P (k r)
  end.

Lemma gives_bind {A B} (Q : A → Prop) (P : B → Prop) (p : prog A) (f : A → prog B) :
  gives Q p → (∀ a, Q a → gives P (f a)) → gives P (p ≫= f).
Proof. intros Hp Hf. unfold mbind, prog_mbind. induction p; cbn in *; auto. Qed.
Lemma gives_any {A} (p : prog A) : gives (λ _, True) p.
Proof. induction p; cbn; auto. Qed.
Lemma gives_call {B : Set} {A} (P : A → Prop) (o : op B) f : (∀ r, gives P (f r)) → gives P (call o ≫= f).
Proof. intros Hf r. apply Hf. Qed.
Lemma gives_replying {B : Set} (P : Value → Prop) onErr (o : op B) f :
  (∀ er, P (onErr er)) → (∀ a, P (f a)) → gives P (replying onErr o f).
Proof. intros He Hf r. destruct r; cbn; auto. Qed.

(** A run of the program gives what the program gives. *)
Lemma run_gives {T A} (perform : ∀ A : Set, op A → nat → T → T * result A) clock (P : A → Prop) p i s s' ks a :
  gives P p → run_prog perform clock p i s = (s', ks, Ok a) → P a.
Proof.
  revert i s ks. induction p as [x|what|k IH|key k IH|B o k IH]; intros i s ks Hp; cbn [run_prog].
  - by intros [= <- <- <-].
  - done.
  - apply IH, Hp.
  - destruct (run_prog perform clock k i s) as [[s1 ks1] r] eqn:E. intros [= -> <- ->]. by eapply IH.
  - destruct (perform B o i s) as [s1 r]. destruct (panicked r); [done|]. apply IH, Hp.
Qed.

(** What a step of a handler passes on: an early reply, or anything. *)
Definition early {A} (b : bool) (r : Value + A) : Prop := match r with inl v => fits b v | inr _ => True end.
Definition perhaps (b : bool) (r : option Value) : Prop := match r with Some v => fits b v | None => True end.

Create HintDb gives.
Ltac gives1 :=
  cbv zeta;
  lazymatch goal with
  | |- gives _ (mret _) => cbn [gives mret prog_ret early perhaps]
  | |- gives _ (Panic _) => exact I
  | |- gives _ (Now _) => intros ?
  | |- gives ?P (NotifyPush _ ?k) => change (gives P k)
  | |- gives _ (call _ ≫= _) => apply gives_call; intros ?
  | |- gives _ (reply _ _) => apply gives_replying; [auto with fits|intros ?]
  | |- gives _ (replyT _ _) => apply gives_replying; [auto with fits|intros ?]
  | |- gives _ (?p ≫= ?f) =>
      first [eapply gives_bind; [solve [eauto 2 with gives]|intros ? ?]
            |lazymatch goal with
             | |- @gives Value (fits ?b) (@mbind _ _ (Value + _) _ _ _) =>
                 apply (gives_bind (early b)); [|intros ? ?]
             end
            |apply (gives_bind (λ _, True)); [apply gives_any|intros ? _]]
  | |- gives _ (match ?x with _ => _ end) => destruct x eqn:?
  | |- fits _ (match ?x with _ => _ end) => destruct x eqn:?
  | |- Forall _ (match ?x with _ => _ end) => destruct x eqn:?
  | |- perhaps _ (match ?x with _ => _ end) => destruct x eqn:?
  | |- early _ (match ?x with _ => _ end) => destruct x eqn:?
  | |- early _ (inl _) => cbn [early]
  | |- early _ (inr _) => exact I
  | |- True => exact I
  | |- gives _ _ => solve [eauto with gives]
  | |- _ => progress eauto with fits
  end.
Ltac giving := repeat gives1.


(** ** The parsers of options *)

Lemma early_inl {A} b (x : Value + A) v : early b x → x = inl v → fits b v.
Proof. by intros H ->. Qed.
#[export] Hint Extern 3 (fits _ _) => eapply early_inl; [|eassumption]; solve [eauto with gives] : fits.

Ltac early1 IH :=
  cbv zeta;
  lazymatch goal with
  | |- early _ (inl _) => cbn [early]; eauto with fits
  | |- early _ (inr _) => exact I
  | |- early _ (match ?x with _ => _ end) => destruct x eqn:?
  | |- gives _ _ => gives1
  | |- fits _ _ => eauto with fits
  end || (apply IH; cbn [length]; lia).
Ltac args_induction args IH :=
  induction args as [args IH] using (induction_ltof1 _ (@length Value)); unfold ltof in IH;
  destruct args as [|a rest]; intros; [exact I|].

Lemma fits_notInteger b : fits b notInteger.
Proof. done. Qed.
Lemma fits_ERRnotInteger b : fits b ERRnotInteger.
Proof. done. Qed.
Lemma fits_syntaxError b : fits b syntaxError.
Proof. done. Qed.
Lemma fits_ERRsyntaxError b : fits b ERRsyntaxError.
Proof. done. Qed.
#[export] Hint Resolve fits_notInteger fits_ERRnotInteger fits_syntaxError fits_ERRsyntaxError : fits.

Lemma early_expireFlags b args o : early b (expireFlags args o).
Proof. revert o. args_induction args IH. cbn [expireFlags]. repeat early1 IH. Qed.
#[export] Hint Resolve early_expireFlags : gives.
Lemma early_parseExpireOptions b args : early b (parseExpireOptions args).
Proof. unfold parseExpireOptions. repeat early1 idtac. Qed.
Lemma early_scanOptions b args o : early b (scanOptions args o).
Proof. revert o. args_induction args IH. cbn [scanOptions]. repeat early1 IH. Qed.
Lemma early_lposOptions b args o : early b (lposOptions args o).
Proof. revert o. args_induction args IH. cbn [lposOptions]. repeat early1 IH. Qed.
Lemma early_sscanOptions b args pattern count : early b (sscanOptions args pattern count).
Proof. revert pattern count. args_induction args IH. cbn [sscanOptions]. repeat early1 IH. Qed.
Lemma early_zscanOptions b args pattern count : early b (zscanOptions args pattern count).
Proof. revert pattern count. args_induction args IH. cbn [zscanOptions]. repeat early1 IH. Qed.

Lemma early_bitfieldArgs b overflow args : early b (bitfieldArgs overflow args).
Proof.
  revert overflow. args_induction args IH. cbn [bitfieldArgs]. repeat early1 IH.
  all: eapply early_inl; [|eassumption]; apply IH; cbn [length]; lia.
Qed.
Lemma early_parseUnit b u : early b (parseUnit u).
Proof. unfold parseUnit. repeat early1 idtac. Qed.
Lemma early_optInt b d a : early b (optInt d a).
Proof. unfold optInt. repeat early1 idtac. Qed.
Lemma early_optUnit b a : early b (optUnit a).
Proof. unfold optUnit. destruct a; [apply early_parseUnit|exact I]. Qed.
Lemma early_parseLexLimit b args : early b (parseLexLimit args).
Proof. unfold parseLexLimit. repeat early1 idtac. Qed.
Lemma early_weightOptions R b n args pending weights aggregate : early b (weightOptions R n args pending weights aggregate).
Proof. revert pending weights aggregate. args_induction args IH. cbn [weightOptions]. repeat early1 IH. Qed.

(** The verdict on an option of a range command. *)
Definition refuses (b : bool) (w : verdict) : Prop := match w with Refuse e => fits b e | _ => True end.
Lemma early_rangeOptions b cmd badInt other args o :
  fits b badInt → (∀ opt o, refuses b (other opt o)) → early b (rangeOptions cmd badInt other args o).
Proof.
  intros Hb Ho. revert o. args_induction args IH. cbn [rangeOptions]. repeat early1 IH.
  match goal with E : other ?x ?y = _ |- _ => specialize (Ho x y); rewrite E in Ho; exact Ho end.
Qed.
Lemma parseMPopHead_fits b args allowed v : parseMPopHead args allowed = Some (inl v) → fits b v.
Proof. unfold parseMPopHead. intros H. repeat case_match; simplify_eq; eauto with fits. Qed.
#[export] Hint Resolve early_parseExpireOptions early_scanOptions early_lposOptions early_sscanOptions early_zscanOptions
  early_bitfieldArgs early_parseUnit early_optInt early_optUnit early_parseLexLimit early_weightOptions : gives.
#[export] Hint Resolve early_rangeOptions : gives.
#[export] Hint Extern 4 (fits _ _) => eapply parseMPopHead_fits; eassumption : fits.

Lemma gives_setOptions b args o : gives (early b) (setOptions args o).
Proof. revert o. args_induction args IH. cbn [setOptions]. repeat early1 IH. Qed.
Lemma gives_getexOptions b args ttl persist : gives (early b) (getexOptions args ttl persist).
Proof. revert ttl persist. args_induction args IH. cbn [getexOptions]. repeat early1 IH. Qed.
Lemma gives_keptTTL b key o : gives (early b) (keptTTL key o).
Proof. unfold keptTTL. giving. Qed.
Lemma gives_oldValue b key o : gives (early b) (oldValue key o).
Proof. unfold oldValue. giving. Qed.
#[export] Hint Resolve gives_setOptions gives_getexOptions gives_keptTTL gives_oldValue : gives.

(** ** All handlers *)

#[export] Hint Extern 1 (fits _ ?v) => match goal with H : early _ (inl v) |- _ => exact H end : fits.
#[export] Hint Extern 1 (refuses _ _) => exact I : gives.
Lemma refuses_options b opt o :
  refuses b (zrangeOption opt o) ∧ refuses b (revscoreOption opt o) ∧ refuses b (scoreOption opt o) ∧
  refuses b (storeOption opt o).
Proof.
  unfold zrangeOption, revscoreOption, scoreOption, storeOption.
  split_and!; repeat case_bool_decide; cbn [refuses]; auto with fits.
Qed.
#[export] Hint Extern 2 (refuses _ _) => apply refuses_options : gives.
#[export] Hint Extern 2 (fits _ ERRnotInteger) => reflexivity : gives.

Lemma fits_setReply b o old : fits b (setReply o old).
Proof. unfold setReply. case_if; auto with fits. Qed.
Lemma fits_notSet b o old : fits b (notSet o old).
Proof. unfold notSet. case_if; auto with fits. Qed.
Lemma fits_encodingOf b kt : fits b (encodingOf kt).
Proof. unfold encodingOf. repeat case_bool_decide; auto with fits. Qed.
Lemma fits_firstBulk b out : fits b (firstBulk out).
Proof. by destruct out. Qed.
Lemma fits_rankReply b r : fits b (rankReply r).
Proof. by destruct r. Qed.
Lemma fits_score R b s : fits b (score R s).
Proof. done. Qed.
Lemma fits_scored R b l : fits b (scored R l).
Proof. apply fits_Arr, fits_flat_map. intros m. by repeat constructor. Qed.
Lemma fits_membersReply R b w l : fits b (membersReply R w l).
Proof. unfold membersReply. case_if; [apply fits_scored|apply fits_bulks]. Qed.
#[export] Hint Resolve fits_setReply fits_notSet fits_encodingOf fits_firstBulk fits_rankReply fits_score fits_scored
  fits_membersReply : fits.
#[export] Hint Extern 2 (∀ _, fits _ _) => (let x := fresh in intros x; destruct x) : fits.

Lemma fits_page b start count all : gives (fits b) (page start count all).
Proof. unfold page. giving. Qed.
Lemma gives_popAny b o : gives (perhaps b) (popAny o).
Proof. unfold popAny. giving. all: cbn; eauto with fits. Qed.
Lemma perhaps_answered b v : fits b v → perhaps b (answered v).
Proof. unfold answered. intros Hv. by repeat case_match. Qed.
Lemma gives_answered b p : gives (fits b) p → gives (perhaps b) (v ← p; mret (answered v)).
Proof. intros Hp. eapply gives_bind; [exact Hp|]. intros v. apply perhaps_answered. Qed.
Lemma gives_doLMPop b keys where_ count : gives (fits b) (doLMPop keys where_ count).
Proof. unfold doLMPop. giving. Qed.
Lemma gives_doZMPop R b keys where_ count : gives (fits b) (doZMPop R keys where_ count).
Proof. unfold doZMPop. giving. all: eauto 10 with fits. Qed.

(** A blocking command answers with what it popped, with nil, or with what it
    answers after it waited. *)
Lemma gives_blocking b R poll ctx onWait timeout popOnce null :
  gives (fits b) onWait → gives (perhaps b) popOnce → fits b null →
  gives (fits b) (blocking R poll ctx onWait timeout popOnce null).
Proof.
  intros Hw Hp Hn. unfold blocking, round. apply (gives_bind (λ _, True)); [apply gives_any|intros deadline _].
  eapply gives_bind; [exact Hp|]. intros [v|] Hv; [exact Hv|]. giving.
Qed.
#[export] Hint Resolve fits_page gives_popAny gives_answered gives_doLMPop gives_doZMPop gives_blocking : gives.
#[export] Hint Extern 2 (fits _ _) => reflexivity : gives.

Lemma fits_handlers R notifying other ctx name h args :
  let b := (3 <=? ctx_proto ctx)%Z in
  (∀ name args, gives (fits b) (other ctx name args)) →
  (name, h) ∈ handlers R notifying other ctx → gives (fits b) (h args).
Proof.
  intros b Ho H. unfold handlers in H.
  repeat (apply elem_of_cons in H as [[= -> ->]|H]); [..|by apply elem_of_nil in H].
  all: autounfold with handlers; giving; eauto 10 with fits.
Qed.

Lemma fits_ExecuteWithOps R notifying other ctx name args :
  let b := (3 <=? ctx_proto ctx)%Z in
  (∀ name args, gives (fits b) (other ctx name args)) →
  gives (fits b) (ExecuteWithOps R notifying other ctx name args).
Proof.
  intros b Ho. unfold ExecuteWithOps. destruct (find_handler name _) as [h|] eqn:E.
  - eapply fits_handlers; [exact Ho|]. by apply find_handler_elem.
  - case_bool_decide; [apply Ho|apply fits_Err].
Qed.

(** ** The interface: implementations whose replies fit *)

Definition resp3 (proto : Z) : bool := (3 <=? proto)%Z.
Class TypedOps `{!Operations} : Prop := {
  fits_store ctx name args e s : fits (resp3 (ctx_proto ctx)) (ExecuteOnStore ctx name args e s).2;
  fits_tx ctx name args e s : fits (resp3 (ctx_proto ctx)) (ExecuteOnTx ctx name args e s).2
}.

#[export] Instance cmd_typed R notifying other
    (Ho : ∀ ctx name args, gives (fits (resp3 (ctx_proto ctx))) (other ctx name args)) :
  @TypedOps (cmd_ops R notifying other).
Proof.
  split; intros ctx name args e s; cbn [ExecuteOnStore ExecuteOnTx cmd_ops];
    destruct (run_prog _ _ _ 0 s) as [[s' ks] [v|er]] eqn:E; cbn [snd]; try apply fits_Err;
    refine (run_gives _ _ _ _ _ _ _ _ _ (fits_ExecuteWithOps _ _ _ _ _ _ _) E); apply Ho.
Qed.

(** ** The handler *)

Lemma fits_runTx b keys fn e s : (∀ e s, fits b (fn e s).2) → fits b (runTx keys fn e s).2.
Proof.
  intros Hfn. unfold runTx. generalize 0. generalize maxExecRetries. intros more. revert s.
  assert (∀ s n, fits b (tryTx keys fn (e n) s).1.2) as Ht.
  { intros s n. unfold tryTx. destruct (round_trip (e n) s) as [s' [[]|er]]; [|apply fits_Err].
    destruct (LockKeys keys (e n) (begin_tx s')) as [s1 [[]|er]]; [|apply fits_Err].
    pose proof (Hfn (e n) s1) as H. destruct (fn (e n) s1) as [s2 result]. cbn in H.
    destruct (hasRetryableError result); [done|]. destruct (Commit (db s) (e n) s2) as [s3 [[]|er]]; [done|].
    cbn. case_bool_decide; auto with fits. }
  induction more as [|more IH]; intros s n; cbn [runTx_from]; specialize (Ht s n);
    destruct (tryTx keys fn (e n) s) as [[s' v] []]; try done.
  destruct (ctx_err (e n)); [apply fits_Err|apply IH].
Qed.

Section Handling.
Context {OPS : Operations} {TO : TypedOps}.

Lemma fits_execQueued ctx commands e s : Forall (fits (resp3 (ctx_proto ctx))) (execQueued ctx commands e s).2.
Proof.
  revert s. induction commands as [|cmd commands IH]; intros s; cbn [execQueued]; [constructor|].
  destruct (parts cmd) as [[name args]|].
  - pose proof (fits_tx ctx name args e s) as H. destruct (ExecuteOnTx ctx name args e s) as [s1 v]. specialize (IH s1).
    destruct (execQueued ctx commands e s1) as [s2 vs]. by constructor.
  - specialize (IH s). destruct (execQueued ctx commands e s) as [s2 vs]. constructor; [apply fits_Err|done].
Qed.

Lemma fits_HandleExec ctx c e s : fits (resp3 (ctx_proto ctx)) (HandleExec ctx c e s).2.
Proof.
  unfold HandleExec. destruct (inTransaction c); [|apply fits_Err]. cbn [GetQueuedCommands].
  destruct (queuedKeys (queuedCommands c)) as [keys|]; [|apply fits_Err].
  set (fn := λ e s, _). pose proof (fits_runTx (resp3 (ctx_proto ctx)) keys fn e s) as H.
  destruct (runTx _ fn e s) as [s' v]. apply H. intros e' s1. unfold fn.
  pose proof (fits_execQueued (MkCtx (ctx_proto ctx) true) (queuedCommands c) e' s1) as Hq.
  destruct (execQueued _ _ e' s1) as [s2 vs]. by apply fits_VArr.
Qed.

(** The commands that never reach the storage answer alike in both protocols. *)
Lemma fits_hello b password args : fits b (hello password args).
Proof.
  assert (∀ fuel args, perhaps b (hello_loop fuel password args)) as Hl.
  { intros fuel. induction fuel as [|fuel IH]; intros [|a rest]; try exact I. cbn [hello_loop].
    unfold wrongPass. repeat case_match; first [apply IH|cbn [perhaps]; auto with fits]. }
  assert (∀ v, fits b (helloReply v)) as Hr by (intros v; done).
  unfold hello. destruct args as [|a rest]; [apply Hr|]. specialize (Hl (length rest) rest).
  repeat case_match; auto with fits; destruct (hello_loop _ _ _); cbn; auto.
Qed.
Lemma fits_auth b password args : fits b (auth password args).
Proof. unfold auth, wrongPass. repeat case_match; auto with fits. Qed.

Lemma fits_stateless b password :
  (∀ args, fits b (ping args)) ∧ (∀ args, fits b (echo args)) ∧ (∀ args, fits b (cluster args)) ∧
  (∀ args, fits b (config args)) ∧ (∀ args, fits b (selectDB args)) ∧ (∀ args, fits b (Handler.wait args)) ∧
  (∀ args, fits b (hello password args)) ∧ (∀ args, fits b (auth password args)).
Proof.
  split_and!; intros args; try apply fits_hello; try apply fits_auth;
    unfold ping, echo, cluster, config, selectDB, Handler.wait, unknownSub; repeat case_match; auto with fits.
Qed.

Lemma fits_Handle password ctx cmd e s : fits (resp3 (ctx_proto ctx)) (Handle password ctx cmd e s).2.
Proof.
  unfold Handle. destruct (parts cmd) as [[name args]|]; [|apply fits_Err]. unfold executeCommand.
  destruct (fits_stateless (resp3 (ctx_proto ctx)) password) as (H1 & H2 & H3 & H4 & H5 & H6 & H7 & H8).
  repeat (case_bool_decide; [cbn [snd]; first [apply H1|apply H2|apply H3|apply H4|apply H5|apply H6|apply H7|apply H8
                                              |apply fits_OK|apply fits_Err|apply fits_Arr, Forall_nil_2]|]).
  case_bool_decide; [|apply fits_store]. unfold flushdb. destruct (FlushDB (e 0) s) as [s' [[]|er]]; cbn; auto with fits.
Qed.
End Handling.

(** ** The connection *)

Section Connection.
Context {OPS : Operations} {TO : TypedOps} (cfg : Server.config).

Lemma fits_handle cmd proto e w : fits (resp3 proto) (Server.handle cfg cmd proto e w).2.
Proof.
  unfold Server.handle. pose proof (fits_Handle (Server.password cfg) (MkCtx proto false) cmd e (Server.dbst w)) as H.
  by destruct (Handle _ _ cmd e _).
Qed.
(** HELLO and AUTH, which answer before the protocol of the connection counts. *)
Lemma fits_handle_early b cmd args name proto e w :
  parts cmd = Some (name, args) → name ∈ ["AUTH"; "HELLO"] → fits b (Server.handle cfg cmd proto e w).2.
Proof.
  intros Hp Hn. unfold Server.handle, Handle. rewrite Hp.
  repeat (apply elem_of_cons in Hn as [->|Hn]; [apply fits_auth || apply fits_hello|]). by apply elem_of_nil in Hn.
Qed.

Lemma fits_HandleClient b age cmd c : fits b (HandleClient age cmd c).2.
Proof.
  unfold HandleClient, executeClientCommand, unknownSub. repeat case_match; cbn [snd]; auto with fits.
Qed.
Lemma fits_responses b kind names counts other : Forall (fits b) (responses (subResponse kind) names counts other).
Proof.
  unfold responses. revert counts. induction names as [|n names IH]; intros [|c counts]; cbn; constructor; auto.
  apply fits_VArr. by repeat constructor.
Qed.
Lemma fits_HandlePublish b fault landed channel message h : fits b (HandlePublish fault landed channel message h).1.
Proof. unfold HandlePublish. repeat case_match; cbn; auto with fits. Qed.
Lemma fits_publish b e args w : fits b (Server.publish cfg e args w).2.
Proof.
  unfold Server.publish. destruct (Server.pubsub cfg); [|apply fits_Err].
  destruct args as [|channel [|message args]]; [apply fits_ErrWrongArgs..|].
  cbv zeta. set (n := sent (Server.dbst w)). set (landed := match fault e n with Some er => _ | None => _ end).
  pose proof (fits_HandlePublish b (fault e n) landed (vBulk channel) (vBulk message) (Server.hub w)) as H.
  by destruct (HandlePublish _ _ _ _ _) as [v []].
Qed.
Lemma fits_subscriptions b names c h :
  Forall (fits b) (HandleSubscribe names c h).2 ∧ Forall (fits b) (HandleUnsubscribe names c h).2 ∧
  Forall (fits b) (HandlePSubscribe names c h).2 ∧ Forall (fits b) (HandlePUnsubscribe names c h).2.
Proof.
  unfold HandleSubscribe, HandleUnsubscribe, HandlePSubscribe, HandlePUnsubscribe.
  split_and!; repeat case_match; cbn [snd];
    first [apply fits_responses
          |constructor; [first [apply fits_ErrWrongArgs|apply fits_VArr; by repeat constructor]|constructor]].
Qed.
Lemma fits_withHub b f args c w :
  (∀ names c h, Forall (fits b) (f names c h).2) → Forall (fits b) (Server.withHub cfg f args c w).2.
Proof.
  intros Hf. unfold Server.withHub. case_match; [|repeat constructor; auto with fits].
  specialize (Hf (Server.extractBulkStrings args) (Server.client c) (Server.hub w)). by destruct (f _ _ _) as [[cl h] vs].
Qed.

(** One command: its replies fit the protocol of the connection, which only
    HELLO 3 raises to RESP3. *)
Definition hello3 (cmd : Value) : Prop := ∃ args, parts cmd = Some ("HELLO", args) ∧ GetHelloProtocolVersion cmd = 3%Z.
Definition suits (cmd : Value) (c : Server.conn) (r : Server.conn * Server.world * list Value) : Prop :=
  Forall (fits (UseRESP3 (Server.client c))) r.2 ∧
  (UseRESP3 (Server.client r.1.1) = true → UseRESP3 (Server.client c) = true ∨ hello3 cmd).

Lemma suits_one cmd c cl a w v :
  fits (UseRESP3 (Server.client c)) v → protocolVersion cl = protocolVersion (Server.client c) →
  suits cmd c (Server.MkConn cl a, w, [v]).
Proof. intros Hv Hp. split; [by repeat constructor|]. cbn. unfold UseRESP3. rewrite Hp. by left. Qed.
Lemma suits_same cmd c w v : fits (UseRESP3 (Server.client c)) v → suits cmd c (c, w, [v]).
Proof. intros Hv. destruct c. by apply suits_one. Qed.
Lemma suits_handle cmd c e w :
  suits cmd c (let '(w, v) := Server.handle cfg cmd (protocolVersion (Server.client c)) e w in (c, w, [v])).
Proof.
  pose proof (fits_handle cmd (protocolVersion (Server.client c)) e w) as Hh.
  destruct (Server.handle cfg cmd _ e w) as [w1 v]. by apply suits_same.
Qed.
Lemma suits_withHub cmd c w args f :
  (∀ names cl h, Forall (fits (UseRESP3 (Server.client c))) (f names cl h).2 ∧
                 protocolVersion (f names cl h).1.1 = protocolVersion cl) →
  suits cmd c (Server.withHub cfg f args c w).
Proof.
  intros Hf. unfold Server.withHub. case_match; [|apply suits_same, fits_Err].
  destruct (Hf (Server.extractBulkStrings args) (Server.client c) (Server.hub w)) as [H1 H2].
  destruct (f _ _ _) as [[cl h] vs]. split; [exact H1|]. cbn in *. unfold UseRESP3. rewrite H2. by left.
Qed.
Lemma subscriptions_protocol names c h :
  protocolVersion (HandleSubscribe names c h).1.1 = protocolVersion c ∧
  protocolVersion (HandleUnsubscribe names c h).1.1 = protocolVersion c ∧
  protocolVersion (HandlePSubscribe names c h).1.1 = protocolVersion c ∧
  protocolVersion (HandlePUnsubscribe names c h).1.1 = protocolVersion c.
Proof.
  unfold HandleSubscribe, HandleUnsubscribe, HandlePSubscribe, HandlePUnsubscribe, exitIfNone, EnterPubSubMode, ExitPubSubMode.
  split_and!; repeat case_match; done.
Qed.
Lemma client_protocol age cmd c : protocolVersion (HandleClient age cmd c).1 = protocolVersion c.
Proof. unfold HandleClient, executeClientCommand. repeat case_match; done. Qed.
Lemma exec_protocol ctx c e s : protocolVersion (HandleExec ctx c e s).1.1 = protocolVersion c.
Proof.
  unfold HandleExec. destruct (inTransaction c); [|done]. cbn [GetQueuedCommands].
  destruct (queuedKeys _); [|done]. by destruct (runTx _ _ e s).
Qed.

Lemma suits_hello cmd args c e w :
  parts cmd = Some ("HELLO", args) →
  suits cmd c
    (let '(hasAuth, authSuccess) := CheckHelloAuth (Server.password cfg) cmd in
     let protoVersion := GetHelloProtocolVersion cmd in
     let cl := SetProtocolVersion protoVersion (Server.client c) in
     let '(w, v) := Server.handle cfg cmd protoVersion e w in
     let ok := hasAuth && authSuccess && bool_decide (vType v ≠ Error) in
     (Server.MkConn cl (ok || Server.authenticated c), w, [v])).
Proof.
  intros Hp. destruct (CheckHelloAuth _ cmd) as [ha au]. cbv zeta.
  pose proof (fits_handle_early (UseRESP3 (Server.client c)) cmd args "HELLO" (GetHelloProtocolVersion cmd) e w Hp) as Hh.
  destruct (Server.handle cfg cmd _ e w) as [w1 v]. split; [repeat constructor; apply Hh; set_solver|].
  cbn. unfold SetProtocolVersion, UseRESP3. case_if; [|by left]. cbn. intros H3. right. exists args. split; [done|]. zify_bool. lia.
Qed.

Lemma suits_processCommand age e cmd c w : suits cmd c (Server.processCommand cfg age e cmd c w).
Proof.
  unfold Server.processCommand. destruct (parts cmd) as [[name args]|] eqn:Hp; [|apply suits_handle].
  cbv zeta. case_bool_decide as Ha.
  { pose proof (fits_handle cmd (protocolVersion (Server.client c)) e w) as Hh.
    destruct (Server.handle cfg cmd _ e w) as [w1 v]. by apply suits_one. }
  case_bool_decide as Hl; [subst name; by eapply suits_hello|]. clear Ha Hl.
  case_match; [case_bool_decide; [apply suits_handle|apply suits_same, fits_error]|].
  do 4 (case_bool_decide;
    [apply suits_withHub; intros names cl h; split; [apply fits_subscriptions|apply subscriptions_protocol]|]).
  case_bool_decide.
  { pose proof (fits_publish (UseRESP3 (Server.client c)) (e 0%nat) args w) as Hx.
    destruct (Server.publish cfg (e 0%nat) args w) as [w1 v]. by apply suits_same. }
  case_match.
  { case_bool_decide; [apply suits_same, fits_Arr; by repeat constructor|].
    case_bool_decide; [apply suits_handle|apply suits_same, fits_Err]. }
  case_bool_decide.
  { split; [repeat constructor; apply fits_simple|]. unfold Server.reset, SetProtocolVersion. cbn. unfold UseRESP3. cbn. done. }
  case_bool_decide.
  { unfold HandleMulti, StartTransaction. destruct (inTransaction (Server.client c)); apply suits_one; auto with fits. }
  case_bool_decide.
  { pose proof (fits_HandleExec (MkCtx (protocolVersion (Server.client c)) false) (Server.client c) e (Server.dbst w)) as Hx.
    pose proof (exec_protocol (MkCtx (protocolVersion (Server.client c)) false) (Server.client c) e (Server.dbst w)) as Hy.
    destruct (HandleExec _ _ e _) as [[cl s] v]. by apply suits_one. }
  case_bool_decide.
  { unfold HandleDiscard, DiscardTransaction. destruct (inTransaction (Server.client c)); apply suits_one; auto with fits. }
  case_match; [apply suits_one; [apply fits_simple|done]|].
  case_bool_decide; [|apply suits_handle].
  pose proof (fits_HandleClient (UseRESP3 (Server.client c)) age cmd (Server.client c)) as Hx.
  pose proof (client_protocol age cmd (Server.client c)) as Hy.
  destruct (HandleClient age cmd _) as [cl v]. by apply suits_one.
Qed.

End Connection.

(** ** The wire *)

(** [WriteResponses]: the bytes for the values, up to the first error. *)
Definition WriteResponses (values : list Value) : wr := wall (WriteValue <$> values).

Lemma wall_ok l : Forall (λ w : wr, w.2 = true) l → wall l = (concat (fst <$> l), true).
Proof.
  induction 1 as [|[bs ok] l Hw _ IH]; [done|]. cbn in Hw. subst ok. cbn [wall foldr]. fold (wall l). rewrite IH.
  unfold wseq. cbn. done.
Qed.
Lemma written_map m : (WriteMap m).2 = true.
Proof.
  unfold WriteMap. unfold wseq at 1. cbn [emit snd]. rewrite wall_ok; [done|]. by apply Forall_fmap, Forall_true.
Qed.
Lemma written_value b v : fits b v → (WriteValue v).2 = true.
Proof.
  unfold fits. induction v as [t s n bk l m u IH] using Value_list_ind. cbn [typed WriteValue vType vNull vArray vMapData].
  assert (forallb (typed b) l = true → ∀ ty, (WriteSeq ty WriteValue l).2 = true) as Hseq.
  { intros Hl ty. unfold WriteSeq, wseq. cbn [emit snd].
    change (map WriteValue l) with (WriteValue <$> l). rewrite wall_ok; [done|].
    apply Forall_fmap. rewrite Forall_forall in IH |- *. intros x Hx. cbn. apply IH; [done|].
    rewrite forallb_forall in Hl. by apply Hl, list_elem_of_In. }
  intros Hv. repeat case_bool_decide; try done.
  all: first [by destruct u|destruct u; [done|]; apply Hseq; exact Hv|apply written_map
             |apply andb_true_iff in Hv as [_ Hv]; by apply Hseq|exfalso; set_solver].
Qed.

Lemma written_responses b vs : Forall (fits b) vs → WriteResponses vs = (concat (map (λ v, (WriteValue v).1) vs), true).
Proof.
  intros Hvs. unfold WriteResponses. rewrite wall_ok; [by rewrite <-list_fmap_compose|].
  apply Forall_fmap. eapply Forall_impl; [exact Hvs|]. intros v. apply written_value.
Qed.

(** A RESP2 reply within the limits of the protocol is read back. *)
Lemma fits_wire v : fits false v → bounded v = true → wire v = true.
Proof.
  unfold fits. induction v as [t s n bk l m u IH] using Value_list_ind.
  cbn [typed bounded wire vType vNull vArray vNum vBulk]. rewrite !andb_true_iff. intros Hv [[[Hn Hb] Hl] Hall].
  destruct (decide (t = SimpleString)) as [->|E1]; [done|]. destruct (decide (t = Error)) as [->|E2]; [done|].
  destruct (decide (t = Integer)) as [->|E3]; [exact Hn|].
  destruct (decide (t = BulkString)) as [->|E4]; [by destruct u|].
  rewrite (bool_decide_false (t ∈ _)) in Hv by (rewrite !elem_of_cons, elem_of_nil; tauto).
  rewrite !(bool_decide_false _ E1), (bool_decide_false _ E2), (bool_decide_false _ E3), (bool_decide_false _ E4). cbn [orb].
  destruct (decide (t = Array)) as [->|E5]; [|rewrite (bool_decide_false _ E5) in Hv; by repeat case_bool_decide].
  rewrite (bool_decide_true (Array = Array)) in Hv |- * by done. destruct u; [done|]. cbn [orb] in *. apply andb_true_iff. split; [done|].
  rewrite forallb_forall in Hv, Hall |- *. rewrite Forall_forall in IH. intros x Hx.
  apply IH; [by apply list_elem_of_In|by apply Hv|by apply Hall].
Qed.
Lemma read_stream vs :
  Forall (fits false) vs → forallb bounded vs = true →
  readElems Read (length vs) (concat (map (λ v, (WriteValue v).1) vs)) = (ROk (map canon vs), []).
Proof.
  induction 1 as [|v vs Hv _ IH]; [done|]. cbn [forallb]. intros [Hb Hvs]%andb_true_iff.
  cbn [map concat length readElems]. unfold rbind at 1. rewrite Read_back by (by apply fits_wire).
  unfold rbind. by rewrite IH.
Qed.

(** ** Scripts and messages *)

Lemma fits_luaToResp L b v : fits b (Lua.luaToResp L v).
Proof.
  revert v. fix IH 1. intros [|[]|f|s|entries|what]; cbn [Lua.luaToResp]; auto with fits.
  - case_match; auto with fits.
  - destruct (Lua.RawGetString "err" entries); try apply fits_ErrCustom.
    destruct (Lua.RawGetString "ok" entries); try apply fits_simple.
    apply fits_Arr. induction entries as [|[k x] entries IHe]; [constructor|]. cbn [flat_map]. apply Forall_app.
    split; [|exact IHe]. destruct k; try constructor; [apply IH|constructor].
Qed.
Lemma fits_runScript {OPS : Operations} L b ctx ops source keys argv s :
  fits b (Lua.runScript L ctx ops source keys argv s).2.
Proof.
  assert (∀ e s, fits b (Lua.runIn L ctx source keys argv e s).2) as Hr.
  { intros e s1. unfold Lua.runIn, Lua.Execute. destruct (Lua.run _ _ _ _ _ _) as [[s2 callErr] [stack|err]]; cbn; [|auto with fits].
    destruct (last stack); [apply fits_luaToResp|done]. }
  unfold Lua.runScript. destruct ops as [e|e]; [by apply fits_runTx|].
  destruct (LockKeys keys e s) as [s1 [[]|er]]; [apply Hr|apply fits_Err].
Qed.
Lemma fits_scriptCommand {OPS : Operations} L b ctx ops name args sc s sc' s' v :
  Lua.scriptCommand L ctx ops name args sc s = Some (sc', s', Ok v) → fits b v.
Proof.
  unfold Lua.scriptCommand, Lua.evalOp, Lua.evalshaOp, Lua.scriptOp, Lua.numKeysOf.
  intros H. repeat case_match; simplify_eq; auto with fits.
  all: try match goal with E : Lua.runScript _ _ ?o ?so ?k ?a ?s = _ |- _ =>
         pose proof (fits_runScript L b ctx o so k a s) as Hx; by rewrite E in Hx end.
Qed.
Lemma fits_SendPubSubMessage c msgType channel payload v :
  SendPubSubMessage c msgType channel payload = Ok v → fits (UseRESP3 c) v.
Proof.
  unfold SendPubSubMessage. intros H. repeat case_match; simplify_eq; unfold UseRESP3; repeat case_match; done.
Qed.

(** ** Sessions *)

Lemma session_fits {OPS : Operations} {TO : TypedOps} cfg age e n cmds c w c' w' replies :
  Server.processAll cfg age e n cmds c w = (c', w', replies) →
  Forall (λ vs, ∃ b, Forall (fits b) vs) replies ∧
  (UseRESP3 (Server.client c) = false → (∀ cmd, cmd ∈ cmds → ¬ hello3 cmd) → Forall (Forall (fits false)) replies).
Proof.
  revert n c w c' w' replies. induction cmds as [|cmd cmds IH]; intros n c w c' w' replies; cbn [Server.processAll].
  { intros [= <- <- <-]. by split. }
  destruct (suits_processCommand cfg age (e n) cmd c w) as [Hf Hp].
  destruct (Server.processCommand cfg age (e n) cmd c w) as [[c1 w1] vs]. cbn [fst snd] in *.
  destruct (Server.processAll cfg age e (S n) cmds c1 w1) as [[c2 w2] rest] eqn:E.
  apply IH in E as [H1 H2]. intros [= <- <- <-]. split; [constructor; [by eexists|done]|].
  intros H3 Hn. constructor; [by rewrite H3 in Hf|]. apply H2; [|intros; apply Hn; by right].
  destruct (UseRESP3 (Server.client c1)); [|done]. destruct (Hp eq_refl) as [Hc|Hc]; [congruence|].
  exfalso. apply (Hn cmd); [by left|done].
Qed.

(** C11. Replies are well typed. Whatever commands a client sends, with any
    arguments, and whatever the storage answers or fails with: the writer never
    fails on a reply, so no reply ends the connection. As long as the client
    has not asked for RESP3, every reply, at any depth, is of a RESP2 type, and
    if the replies are within the limits of the protocol, what the client reads
    from the stream is exactly these replies in their order (with line breaks in
    errors and simple strings replaced). Scripts answer with RESP2 types only,
    and subscription messages have the type of the protocol of their
    connection. *)
Theorem replies_typed R notifying other cfg age e cmds c w c' w' replies :
  (∀ ctx name args, gives (fits (resp3 (ctx_proto ctx))) (other ctx name args)) →
  @Server.processAll (cmd_ops R notifying other) cfg age e 0 cmds c w = (c', w', replies) →
  Forall (λ vs, (WriteResponses vs).2 = true) replies ∧
  (UseRESP3 (Server.client c) = false → (∀ cmd, cmd ∈ cmds → ¬ hello3 cmd) →
   Forall (Forall (fits false)) replies ∧
   (forallb bounded (concat replies) = true →
    readElems Read (length (concat replies)) (concat ((λ vs, (WriteResponses vs).1) <$> replies)) =
      (ROk (map canon (concat replies)), []))) ∧
  (∀ L ctx ops name args sc s sc' s' v,
     @Lua.scriptCommand L (cmd_ops R notifying other) ctx ops name args sc s = Some (sc', s', Ok v) → fits false v) ∧
  (∀ cl msgType channel payload v, SendPubSubMessage cl msgType channel payload = Ok v → fits (UseRESP3 cl) v).
Proof.
  intros Ho Hs. pose proof (cmd_typed R notifying other Ho) as TO. apply session_fits in Hs as [H1 H2]. split_and!.
  - eapply Forall_impl; [exact H1|]. intros vs [b Hb]. by rewrite (written_responses b).
  - intros H3 Hn. specialize (H2 H3 Hn). split; [exact H2|]. intros Hb.
    replace (concat ((λ vs, (WriteResponses vs).1) <$> replies)) with (concat (map (λ v, (WriteValue v).1) (concat replies))).
    + apply read_stream; [by apply Forall_concat|done].
    + clear -H2. induction H2 as [|vs replies Hv _ IH]; [done|]. cbn. by rewrite map_app, concat_app, IH, (written_responses false).
  - intros. by eapply fits_scriptCommand.
  - intros. by eapply fits_SendPubSubMessage.
Qed.

Definition typed_session : list Value :=
  [Arr [Bulk "HELLO"; Bulk "2"]; Arr [Bulk "HSET"; Bulk "h"; Bulk "f"; Bulk "v"]; Arr [Bulk "HGETALL"; Bulk "h"];
   Arr [Bulk "GET"; Bulk "h"]].
Definition typed_run : Server.conn * Server.world * list (list Value) :=
  @Server.processAll sample_cmds Server.open_cfg 0 (λ _ _, quiet 0 0) 0 typed_session Server.open_conn Server.sample_world.
Lemma replies_typed_witness :
  Forall (Forall (fits false)) typed_run.2 ∧ length (concat typed_run.2) = 4%nat ∧
  nth 2 typed_run.2 [] = [Arr [Bulk "f"; Bulk "v"]].
Proof.
  split; [|vm_compute; done].
  refine (proj1 (proj1 (proj2 (replies_typed sample_runtime true no_other Server.open_cfg 0 (λ _ _, quiet 0 0) typed_session
    Server.open_conn Server.sample_world typed_run.1.1 typed_run.1.2 typed_run.2 _ _)) _ _)).
  - intros ctx name args. reflexivity.
  - vm_compute. reflexivity.
  - reflexivity.
  - intros cmd Hc [args [Hp Hg]]. repeat (apply elem_of_cons in Hc as [->|Hc]; [vm_compute in Hg, Hp; discriminate|]).
    by apply elem_of_nil in Hc.
Defined.

End Types.
