(* ===== verification/Blocking.v ===== *)
(** * Blocking pops: internal/handler/handler_ops.go, [blockingPop] and [blockingMPop]

    The loop of BLPOP, BRPOP, BLMPOP and BZMPOP: the rounds of CmdBlocking,
    each on the database as other clients have left it, with a wait in
    between that ends with a notification, when its time is over, or with the
    connection. The theorems: which pop the reply comes from, that no other
    pop removes anything, and when a command with a timeout ends. *)
From stdpp Require Import gmap strings list.
From Stdlib Require Import ZArith Lia Ascii.
From S2P Require Import Prelude GoStd Resp KeyCodec Db StoreMeta StoreStrings StoreLists StoreZSets Client PubSub Handler Ops CmdStrings CmdKeys CmdCollections CmdZSets CmdBlocking ListNotify Commands.
Import Resp Db Meta StringOps ListOps Ops Cmd ListCmds ZSetCmds BlockingCmds Commands.

Module Blocking.
Local Open Scope Z_scope.

(** How a wait ends: [WaitForKeys] returned a key, or nothing because its time
    is over; the context is done. *)
Inductive wakeup := Woken | Elapsed | Cancelled.
#[export] Instance wakeup_eq_dec : EqDecision wakeup.
Proof. solve_decision. Defined.

Section Blocking.
Context (R : runtime) (poll : Z) (ctx : hctx) {T : Type}.
(** Round by round: the database as the round sees it and the readings of the
    clock; what others do to it while the command waits; how the wait ends, if
    it does ([None]: it goes on forever). *)
Context (perform : nat → ∀ A : Set, op A → nat → T → T * result A) (clock : nat → nat → Z).
Context (meanwhile : nat → T → T) (wake : nat → Z → option wakeup).

Section Loop.
Context (timeout deadline : Z) (popOnce : prog (option Value)) (null : Value).

Definition one_round : prog (Value + Z) :=
  round R poll ctx timeout deadline popOnce null (λ v, mret (inl v)) (λ d, mret (inr d)).

(** The loop from round [i] on, followed for [n] rounds; [None]: it still
    waits. *)
Fixpoint loop (n i : nat) (t : T) : T * option (result Value) :=
  match n with
  | O => (t, None)
  | S n =>
      let '(t, _, r) := run_prog (perform i) (clock i) one_round 0 t in
      match r with
      | Fail er => (t, Some (Fail er))
      | Ok (inl v) => (t, Some (Ok v))
      | Ok (inr d) =>
          let t := meanwhile i t in
          match wake i d with
          | Some Cancelled => (t, Some (Ok null))
          | Some (Woken | Elapsed) => loop n (S i) t
          | None => (t, None)
          end
      end
  end.

(** ** One attempt *)

(** [popOnce] makes one call, the one that [attempt] describes. *)
Definition pops (attempt : nat → T → T * option Value) : Prop :=
  ∀ i A (f : option Value → prog A) t,
    run_prog (perform i) (clock i) (popOnce ≫= f) 0 t =
    run_prog (perform i) (clock i) (f (attempt i t).2) 1 (attempt i t).1.

Context (attempt : nat → T → T * option Value) (Hpops : pops attempt).

(** The state before round [i], as long as nothing is found. *)
Fixpoint before (i : nat) (t : T) : T :=
  match i with O => t | S i => meanwhile i (attempt i (before i t)).1 end.
Definition expired (i : nat) : bool := positive R timeout && (deadline <? clock i 1).
Definition asked (i : nat) : Z :=
  if positive R timeout then Z.min (Until deadline (clock i 2)) poll else poll.

Lemma run_round i t :
  run_prog (perform i) (clock i) one_round 0 t =
    ((attempt i t).1, [],
     Ok match (attempt i t).2 with
        | Some v => inl v
        | None => if ctx_noBlock ctx || expired i then inl null else inr (asked i)
        end).
Proof.
  unfold one_round, round. rewrite Hpops. destruct (attempt i t) as [t1 [v|]]; cbn [fst snd]; [done|].
  unfold expired, asked. destruct (ctx_noBlock ctx); [done|]. cbn [orb]. destruct (positive R timeout); [|done]. cbn [run_prog andb].
  destruct (deadline <? clock i 1); [done|]. cbn [run_prog].
  replace (Z.min (Until deadline (clock i 2)) poll)
    with (if Until deadline (clock i 2) <? poll then Until deadline (clock i 2) else poll); [done|].
  destruct (Z.ltb_spec (Until deadline (clock i 2)) poll); lia.
Qed.

(** Where the reply comes from. *)
Lemma loop_answer n i t t' r :
  loop n i (before i t) = (t', Some r) →
  ∃ j, (i <= j < i + n)%nat ∧ (∀ k, (i <= k < j)%nat → (attempt k (before k t)).2 = None) ∧
    match (attempt j (before j t)).2 with
    | Some v => r = Ok v ∧ t' = (attempt j (before j t)).1
    | None => r = Ok null ∧
              ((ctx_noBlock ctx || expired j = true ∧ t' = (attempt j (before j t)).1) ∨
               (wake j (asked j) = Some Cancelled ∧ t' = before (S j) t))
    end.
Proof.
  revert i. induction n as [|n IH]; intros i; cbn [loop]; [done|]. rewrite run_round.
  destruct (attempt i (before i t)) as [t1 [v|]] eqn:E; cbn [fst snd].
  { intros [= <- <-]. exists i. split; [lia|]. split; [lia|]. by rewrite E. }
  destruct (ctx_noBlock ctx || expired i) eqn:Ee.
  { intros [= <- <-]. exists i. split; [lia|]. split; [lia|]. rewrite E. cbn. split; [done|by left]. }
  assert (meanwhile i t1 = before (S i) t) as Eb by (cbn; by rewrite E). rewrite Eb.
  assert (∀ j, (S i <= j < S i + n)%nat → (∀ k, (S i <= k < j)%nat → (attempt k (before k t)).2 = None) →
            (i <= j < i + S n)%nat ∧ ∀ k, (i <= k < j)%nat → (attempt k (before k t)).2 = None) as Hgo.
  { intros j Hj Hk. split; [lia|]. intros k Hk'. destruct (decide (k = i)) as [->|]; [by rewrite E|apply Hk; lia]. }
  destruct (wake i (asked i)) as [[]|] eqn:Ew; [..|done].
  1-2: intros (j & Hj & Hk & Hr)%IH; destruct (Hgo j Hj Hk); by exists j.
  intros [= <- <-]. exists i. split; [lia|]. split; [lia|]. rewrite E. cbn. split; [done|]. right. by rewrite E.
Qed.

(** Time passes: a wait that is over has taken at least the time asked for,
    and a bit. *)
Definition time_passes : Prop :=
  ∀ i, clock i 1 <= clock i 2 ∧ clock i 2 <= clock (S i) 1 ∧
       (wake i (asked i) = Some Elapsed → clock i 2 + Z.max (asked i) 0 < clock (S i) 1).
(** A wait that has a timer ends, one way or the other. *)
Definition timers_fire : Prop := ∀ i, 0 < asked i → is_Some (wake i (asked i)).
(** The deadline falls between the two readings of the clock of a round: it has
    not passed at the first and leaves no time at the second. *)
Definition deadline_missed (i : nat) : Prop := clock i 1 <= deadline <= clock i 2.
(** How many of [n] waits from round [i] on end with a notification. *)
Fixpoint notified (i n : nat) : nat :=
  match n with
  | O => 0
  | S n => (if bool_decide (wake i (asked i) = Some Woken) then 1 else 0) + notified (S i) n
  end.

Lemma loop_ends N n w i t :
  0 < poll < 2 ^ 63 → positive R timeout = true → time_passes → timers_fire → (∀ k, ¬ deadline_missed k) →
  (n + w <= N)%nat → deadline - clock i 1 < poll * Z.of_nat n → (∀ m, notified i m <= w)%nat →
  is_Some (loop (S N) i t).2.
Proof.
  intros Hp Ht Hc Hf Hm. revert n w i t. induction N as [|N IH]; intros n w i t HN Hd Hw; cbn [loop]; rewrite run_round;
    destruct (attempt i t) as [t1 [v|]]; cbn [fst snd]; try by eexists.
  - assert (n = 0%nat) as -> by lia. unfold expired. rewrite Ht, (proj2 (Z.ltb_lt _ _)) by lia. rewrite orb_true_r. by eexists.
  - destruct (ctx_noBlock ctx || expired i) eqn:Ee; [by eexists|]. apply orb_false_iff in Ee as [_ Ee].
    unfold expired in Ee. rewrite Ht in Ee. apply Z.ltb_ge in Ee. specialize (Hm i) as Hmi. unfold deadline_missed in Hmi.
    destruct (Hc i) as (H1 & H2 & H3).
    assert (0 < asked i) as Hpos by (unfold asked, Until; rewrite Ht; lia).
    specialize (Hw 1%nat) as Hw1. cbn [notified] in Hw1. destruct (Hf i Hpos) as [k Hk]. rewrite Hk in *. destruct k.
    + rewrite bool_decide_true in Hw1 by done. apply (IH n (w - 1)%nat); [lia|lia|]. intros m. specialize (Hw (S m)).
      cbn [notified] in Hw. rewrite Hk, bool_decide_true in Hw by done. lia.
    + specialize (H3 eq_refl). unfold asked, Until in H3. rewrite Ht in H3.
      destruct n as [|n]; [lia|]. rewrite Nat2Z.inj_succ, Z.mul_succ_r in Hd.
      apply (IH n w); [lia|nia|]. intros m. specialize (Hw (S m)). cbn [notified] in Hw. lia.
    + by eexists.
Qed.

End Loop.

(** ** The pops of the commands *)

(** A storage call followed by a plain function makes one attempt. *)
Definition attempt_of {B : Set} (o : op B) (f : result B → option Value) (i : nat) (t : T) : T * option Value :=
  let '(t, r) := perform i B o 0%nat t in (t, f r).
Definition calm {B : Set} (o : op B) : Prop := ∀ i t, panicked (perform i B o 0%nat t).2 = None.

Lemma pops_call {B : Set} (o : op B) (popOnce : prog (option Value)) (f : result B → option Value) (k : result B → prog (option Value)) :
  popOnce = Call o k → (∀ r, k r = Ret (f r)) → calm o → pops popOnce (attempt_of o f).
Proof.
  intros -> Hk Hc i A g t. unfold mbind, prog_mbind, attempt_of. cbn [prog_bind run_prog]. specialize (Hc i t).
  destruct (perform i B o 0%nat t) as [t1 r]. cbn in Hc |- *. rewrite Hc, Hk. done.
Qed.

Definition list_reply (r : result (option (string * string))) : option Value :=
  match r with
  | Fail er => Some (errReply er)
  | Ok (Some (poppedKey, value)) => Some (Arr [Bulk poppedKey; Bulk value])
  | Ok None => None
  end.
Lemma pops_popAny o : calm (ListOp o) → pops (popAny o) (attempt_of (ListOp o) list_reply).
Proof. intros Hc. eapply pops_call; [reflexivity| |done]. intros [[[k v]|]|er]; reflexivity. Qed.

Definition mpop_reply (r : result (option (string * list string))) : option Value :=
  match r with
  | Fail er => Some (errReply er)
  | Ok (Some (poppedKey, values)) => Some (Arr [Bulk poppedKey; bulks values])
  | Ok None => None
  end.
Lemma answered_err er : answered (errReply er) = Some (errReply er).
Proof. unfold answered, errReply, Err. by destruct (Strings.HasPrefix _ _). Qed.
Lemma pops_doLMPop keys where_ count :
  let o := if bool_decide (where_ = "LEFT") then LMPop keys count else RMPop keys count in
  calm (ListOp o) → pops (v ← doLMPop keys where_ count; mret (answered v)) (attempt_of (ListOp o) mpop_reply).
Proof.
  intros o Hc. eapply pops_call; [reflexivity| |done]. intros [[[k v]|]|er]; cbn; [done..|]. by rewrite answered_err.
Qed.
Definition zmpop_reply (r : result (option (string * list (string * Z)))) : option Value :=
  match r with
  | Fail er => Some (errReply er)
  | Ok (Some (poppedKey, members)) =>
      Some (Arr [Bulk poppedKey; Arr ((λ m : string * Z, Arr [Bulk m.1; score R m.2]) <$> members)])
  | Ok None => None
  end.
Lemma pops_doZMPop keys where_ count :
  let o := if bool_decide (where_ = "MIN") then ZMPopMin keys count else ZMPopMax keys count in
  calm (ZSetOp o) → pops (v ← doZMPop R keys where_ count; mret (answered v)) (attempt_of (ZSetOp o) zmpop_reply).
Proof.
  intros o Hc. eapply pops_call; [reflexivity| |done]. intros [[[k v]|]|er]; cbn; [done..|]. by rewrite answered_err.
Qed.

End Blocking.

(** When the deadline falls between the two readings of the clock, the time
    left is not positive, and the notifier sets no timer for it: the client
    waits for the next push, however long it takes. *)
Lemma missed_deadline_waits R poll clock timeout deadline i elapsed key :
  positive R timeout = true → deadline_missed clock deadline i →
  expired R clock timeout deadline i = false ∧
  ¬ ListNotify.wait_result (asked R poll clock timeout deadline i) elapsed false None key.
Proof.
  intros Ht Hd. unfold deadline_missed in Hd. unfold expired. rewrite Ht, (proj2 (Z.ltb_ge _ _)) by lia. split; [done|].
  apply ListNotify.wait_without_timer. unfold asked, Until. rewrite Ht. lia.
Qed.

(** C24. The blocking pops. The reply is that of the first round in which the
    pop found something (or failed): the state is what that pop left, and all
    pops before it found nothing. Otherwise it is nil, because the command must
    not wait, its deadline has passed, or the client is gone; then no pop has
    found anything. Inside MULTI and scripts there is exactly one round. A
    command with a timeout of [span] whose waits are woken at most [w] times
    has its reply after at most [span / poll + w + 2] rounds, however slow the
    clock, if every wait that has a timer ends, with one exception: a round in
    which the deadline falls between the two readings of the clock. Such a
    round asks for a wait without a timer, which only a push or the end of the
    connection ends. *)
Theorem blocking_correct R poll ctx {T} (perform : nat → ∀ A : Set, op A → nat → T → T * result A) clock meanwhile wake
    timeout deadline popOnce null attempt (t : T) :
  pops perform clock popOnce attempt →
  let go := loop R poll ctx perform clock meanwhile wake timeout deadline popOnce null in
  let at_ := λ i, attempt i (before meanwhile attempt i t) in
  let waits := asked R poll clock timeout deadline in
  (∀ n t' r, go n 0%nat t = (t', Some r) →
     ∃ j, (j < n)%nat ∧ (∀ k, (k < j)%nat → (at_ k).2 = None) ∧
       match (at_ j).2 with
       | Some v => r = Ok v ∧ t' = (at_ j).1
       | None => r = Ok null ∧
                 ((ctx_noBlock ctx || expired R clock timeout deadline j = true ∧ t' = (at_ j).1) ∨
                  (wake j (waits j) = Some Cancelled ∧ t' = meanwhile j (at_ j).1))
       end) ∧
  (ctx_noBlock ctx = true → go 1%nat 0%nat t = ((at_ 0%nat).1, Some (Ok (default null (at_ 0%nat).2)))) ∧
  (∀ span w, 0 < poll < 2 ^ 63 → positive R timeout = true → 0 <= span → deadline <= clock 0%nat 1%nat + span →
     time_passes R poll clock wake timeout deadline → timers_fire R poll clock wake timeout deadline →
     (∀ m, notified R poll clock wake timeout deadline 0 m <= w)%nat →
     (∀ i, ¬ deadline_missed clock deadline i) →
     is_Some (go (Z.to_nat (span / poll) + w + 2)%nat 0%nat t).2) ∧
  (∀ i elapsed key, positive R timeout = true → deadline_missed clock deadline i →
     expired R clock timeout deadline i = false ∧ ¬ ListNotify.wait_result (waits i) elapsed false None key).
Proof.
  intros Hpops go at_ waits. split; [|split; [|split]].
  - intros n t' r (j & Hj & Hk & Hr)%(loop_answer R poll ctx perform clock meanwhile wake timeout deadline popOnce null attempt Hpops n 0 t).
    exists j. split; [lia|]. split; [intros k Hk'; apply Hk; lia|]. exact Hr.
  - intros Hb. unfold go. cbn [loop]. rewrite (run_round _ _ _ _ _ _ _ _ _ _ Hpops), Hb. cbn [orb]. unfold at_. cbn [before].
    by destruct (attempt 0%nat t) as [t1 [v|]].
  - intros span w Hp Ht Hspan Hd Hc Hf Hw Hm. pose proof (Z.div_pos span poll). pose proof (Z.mul_succ_div_gt span poll).
    replace (Z.to_nat (span / poll) + w + 2)%nat with (S (Z.to_nat (span / poll + 1) + w)) by lia.
    eapply (loop_ends R poll ctx perform clock meanwhile wake timeout deadline popOnce null attempt Hpops) with (w := w);
      try done; try reflexivity. rewrite Z2Nat.id; lia.
  - intros i elapsed key. apply missed_deadline_waits.
Qed.

(** Without a positive timeout, a negative one included, nothing but a pop or
    the end of the connection ends the command. *)
Lemma no_timeout_waits R poll ctx {T} (perform : nat → ∀ A : Set, op A → nat → T → T * result A) clock meanwhile wake
    timeout deadline popOnce null attempt n i (t : T) :
  pops perform clock popOnce attempt → ctx_noBlock ctx = false → positive R timeout = false →
  (∀ k s, (attempt k s).2 = None) → (∀ k d, wake k d ≠ Some Cancelled) →
  (loop R poll ctx perform clock meanwhile wake timeout deadline popOnce null n i t).2 = None.
Proof.
  intros Hpops Hb Ht Ha Hw. revert i t. induction n as [|n IH]; intros i t; cbn [loop]; [done|].
  rewrite (run_round _ _ _ _ _ _ _ _ _ _ Hpops), Ha, Hb. unfold expired. rewrite Ht. cbn [orb andb].
  destruct (wake i _) as [[]|] eqn:E; [apply IH..|by apply Hw in E|done].
Qed.
(** ** Examples *)

(** BLPOP a b with a timeout of one second; a push to another list wakes it
    once, and somebody pushes to b without a notification. *)
Definition on_tables (i : nat) (A : Set) (o : op A) (_ : nat) (t : tables) : tables * result A :=
  run 0 0 (tx_op sample_runtime o) t.
Definition ticks (i j : nat) : Z := Z.of_nat i * (2 * 10 ^ 8) + Z.of_nat j.
Definition push_once (i : nat) (t : tables) : tables :=
  if bool_decide (i = 0%nat) then (run 0 0 (rPush "b" ["x"; "y"]) t).1 else t.
Definition woken_once (i : nat) (d : Z) : option wakeup :=
  if 0 <? d then Some (if bool_decide (i = 0%nat) then Woken else Elapsed) else None.
Definition blpop_ab : prog (option Value) := popAny (LPopMulti ["a"; "b"]).
Lemma blpop_ab_pops :
  pops on_tables ticks blpop_ab (attempt_of on_tables (ListOp (LPopMulti ["a"; "b"])) list_reply).
Proof.
  apply pops_popAny. intros i t. unfold on_tables. cbn [tx_op tx_list].
  assert (∃ t' a, runs 0 0 (popMulti true ["a"; "b"]) t t' (Ok a)) as (t' & a & H).
  { unfold popMulti. cbv zeta. set (keys := KeyCodec.encodeKeys ["a"; "b"]).
    destruct (winner keys 0 t) as [k|] eqn:E; [destruct (live_rows true k 0 t) eqn:E2|]; eexists _, _;
      (eapply runs_bind; [apply runs_stmt; cbv beta; rewrite E, ?E2; reflexivity|apply runs_ret]). }
  by rewrite (runs_run _ _ _ _ _ _ H).
Qed.
Lemma blocking_correct_witness :
  let go := loop sample_runtime defaultBlockingPollInterval (MkCtx 2 false) on_tables ticks push_once woken_once 1 (10 ^ 9 + 3) blpop_ab NullBulk in
  is_Some (go 13%nat 0%nat empty_tables).2 ∧
  (go 13%nat 0%nat empty_tables).2 = Some (Ok (Arr [Bulk "b"; Bulk "x"])).
Proof.
  split; [|vm_compute; reflexivity].
  refine (proj1 (proj2 (proj2 (blocking_correct sample_runtime defaultBlockingPollInterval (MkCtx 2 false) on_tables ticks push_once
    woken_once 1 (10 ^ 9 + 3) blpop_ab NullBulk _ empty_tables blpop_ab_pops))) (10 ^ 9 + 3) 1%nat _ _ _ _ _ _ _ _).
  - unfold defaultBlockingPollInterval, Millisecond. lia.
  - vm_compute. reflexivity.
  - lia.
  - unfold ticks. lia.
  - intros i. unfold ticks, asked, Until, defaultBlockingPollInterval, Millisecond. split; [lia|]. split; [lia|]. intros _.
    destruct (positive sample_runtime 1); lia.
  - intros i Hi. unfold woken_once. rewrite (proj2 (Z.ltb_lt _ _) Hi). by eexists.
  - assert (∀ m i, (i <> 0)%nat → notified sample_runtime defaultBlockingPollInterval ticks woken_once 1 (10 ^ 9 + 3) i m = 0%nat) as H0.
    { induction m as [|m IH]; intros i Hi; cbn [notified]; [done|]. rewrite IH by lia. unfold woken_once.
      rewrite (bool_decide_false (i = 0%nat)) by done. by destruct (0 <? _). }
    intros [|m]; cbn [notified]; [lia|]. rewrite H0 by done. case_bool_decide; lia.
  - intros i. unfold deadline_missed, ticks. lia.
Defined.

End Blocking.
