(* ===== verification/Serve.v ===== *)
(** * Commands on the database

    The handlers together with the storage layer, when nothing fails:
    [yields p t t' v] says that the handler [p] turns the tables [t] into [t']
    and replies [v]. The store and an open transaction serve a handler alike
    ([serves]), so such statements hold for plain commands and for commands of
    a MULTI block. On top: SET with its options, and SET and GET through the
    whole server. *)
From stdpp Require Import gmap strings list sorting.
From Stdlib Require Import ZArith Lia Ascii.
From S2P Require Import Prelude GoStd Resp KeyCodec Db StoreMeta StoreStrings StoreBits StoreKeys Footprint Ops Client PubSub Handler Server CmdStrings CmdKeys CmdCollections Commands.
Import Resp KeyCodec Db Meta StringOps KeyOps Client Handler Server Ops Cmd StringCmds KeyCmds Commands.

Module Serve.

Section Yields.
Context (R : runtime) (now gonow : Z).

Inductive yields {A} : prog A → tables → tables → A → Prop :=
| yields_ret a t : yields (Ret a) t t a
| yields_now k t t' a : yields (k gonow) t t' a → yields (Now k) t t' a
| yields_notify key k t t' a : yields k t t' a → yields (NotifyPush key k) t t' a
| yields_call (B : Set) (o : op B) k t t1 t' b a :
    runs now gonow (tx_op R o) t t1 (Ok b) → yields (k (Ok b)) t1 t' a → yields (Call o k) t t' a.

Lemma yields_bind {A B} (p : prog A) (f : A → prog B) t t1 t' a b :
  yields p t t1 a → yields (f a) t1 t' b → yields (p ≫= f) t t' b.
Proof.
  induction 1; intros Hf; unfold mbind, prog_mbind in *; cbn [prog_bind]; [done|constructor; auto..|].
  econstructor; eauto.
Qed.

Lemma yields_reply {B : Set} (o : op B) onErr f t t' b :
  runs now gonow (tx_op R o) t t' (Ok b) → yields (replying onErr o f) t t' (f b).
Proof. intros H. econstructor; [exact H|]. constructor. Qed.

(** ** Both implementations serve a handler *)

Definition calm (s : st) (t : tables) : Prop := db s = t ∧ aborted s = false.

(** An implementation that, when nothing fails, does what the operations of
    the storage layer do. *)
Class Serves (perform : ∀ A : Set, op A → nat → st → st * result A) : Prop :=
  serves (B : Set) (o : op B) i s t t' b :
    runs now gonow (tx_op R o) t t' (Ok b) → calm s t → ∃ s', perform B o i s = (s', Ok b) ∧ calm s' t'.

#[export] Instance tx_serves : Serves (tx_perform R (quiet now gonow)).
Proof. intros B o i s t t' b Hr [Hd Ha]. destruct (Hr s Hd Ha) as (s' & E & ? & ? & ?). by exists s'. Qed.

Lemma withTx_runs {A} (m : M A) e s t t' a :
  runs now gonow m t t' (Ok a) → db s = t → e 0%nat = quiet now gonow →
  ∃ s', withTx m e s = (s', Ok a) ∧ db s' = t' ∧ aborted s' = false.
Proof.
  intros Hr Hd He. unfold withTx, maxDeadlockRetries. cbn [withTx_from]. rewrite He.
  unfold execTx, round_trip. cbn [fault quiet].
  destruct (Hr (begin_tx (tick s)) Hd eq_refl) as (s1 & E & Hd1 & _ & Ha). rewrite E.
  unfold Commit, round_trip. rewrite Ha. cbn [fault quiet]. eexists. by split; [reflexivity|].
Qed.

#[export] Instance store_serves : Serves (store_perform R (λ _, quiet now gonow)).
Proof.
  intros B o i s t t' b Hr [Hd Ha]. unfold store_perform. destruct (store_op_cases R o) as [-> | ->].
  - destruct (Hr s Hd Ha) as (s' & E & ? & ? & ?). by exists s'.
  - by eapply withTx_runs.
Qed.

Lemma run_yields perform `{!Serves perform} {A} (p : prog A) t t' a i s :
  yields p t t' a → calm s t →
  ∃ s' ks, run_prog perform (λ _, gonow) p i s = (s', ks, Ok a) ∧ calm s' t'.
Proof.
  intros Hy. revert i s.
  induction Hy as [a t|k t t' a _ IH|key k t t' a _ IH|B o k t t1 t' b a Ho _ IH]; intros i s Hs; cbn [run_prog].
  - by exists s, [].
  - by apply IH.
  - destruct (IH i s Hs) as (s' & ks & -> & ?). by exists s', (key :: ks).
  - destruct (serves B o i s t t1 b Ho Hs) as (s1 & -> & Hs1). by apply IH.
Qed.

End Yields.

Lemma ExecuteOnStore_yields R notifying other ctx name args now gonow t t' v s :
  yields R now gonow (ExecuteWithOps R notifying other ctx name args) t t' v → calm s t →
  ∃ s', @ExecuteOnStore (cmd_ops R notifying other) ctx name args (λ _, quiet now gonow) s = (s', v) ∧ calm s' t'.
Proof.
  intros Hy Hs. cbn [ExecuteOnStore cmd_ops quiet go_now].
  destruct (run_yields R now gonow (store_perform R (λ _, quiet now gonow)) _ t t' v 0 s Hy Hs) as (s' & ks & -> & ?).
  by exists s'.
Qed.

(** C31. A command does the same inside and outside MULTI: when its handler
    turns the tables [t] into [t'] with the reply [v] (no statement failing),
    then both the store, where each call is a transaction or a query of its
    own, and a transaction that is already open leave [t'] and reply [v]. *)
Theorem store_and_tx_agree R notifying other ctx name args now gonow t t' v :
  let ops := cmd_ops R notifying other in
  yields R now gonow (ExecuteWithOps R notifying other ctx name args) t t' v →
  ∀ s, calm s t →
    (∃ s', ExecuteOnStore ctx name args (λ _, quiet now gonow) s = (s', v) ∧ calm s' t') ∧
    (∃ s', ExecuteOnTx ctx name args (quiet now gonow) s = (s', v) ∧ calm s' t').
Proof.
  intros ops Hy s Hs. split; [by apply ExecuteOnStore_yields with t|]. cbn [ExecuteOnTx ops cmd_ops quiet go_now].
  destruct (run_yields R now gonow (tx_perform R (quiet now gonow)) _ t t' v 0 s Hy Hs) as (s' & ks & -> & ?).
  by exists s'.
Qed.

(** ** SET *)

(** What TTL answers. *)
Definition seconds_left (key : string) (now gonow : Z) (t : tables) : Z :=
  match sel_expiry (encodeKey key) now t with
  | None => -2
  | Some None => -1
  | Some (Some x) => let d := saturate (x * 1000 - gonow) in if d <? 0 then -2 else int64_Seconds d
  end%Z.
Lemma runs_ttl now gonow key t : runs now gonow (ttl key) t t (Ok (seconds_left key now gonow t)).
Proof.
  unfold ttl, seconds_left. step. destruct (sel_expiry (encodeKey key) now t) as [[x|]|]; [|finish..].
  unfold until_. eapply runs_bind; [apply runs_asks|]. cbn [go_now quiet]. cbv zeta. case_match; finish.
Qed.

(** The time to live SET uses. *)
Definition set_ttl (key : string) (o : setOpts) (now gonow : Z) (t : tables) : Z :=
  let left := seconds_left key now gonow t in
  if so_keepTTL o && (so_ttl o =? 0)%Z && (0 <? left)%Z then Duration left Second else so_ttl o.
(** Whether SET writes: NX asks that no live key of any type is there, XX that
    there is a live string; NX wins over XX. *)
Definition set_allowed (key : string) (o : setOpts) (now : Z) (t : tables) : bool :=
  if so_nx o then bool_decide (meta_type (encodeKey key) now t = None)
  else if so_xx o then bool_decide (is_Some (sel_value (encodeKey key) now t))
  else true.

Section SetCommand.
Context (R : runtime) (now gonow : Z).
Local Abbreviation yields := (yields R now gonow).

Lemma yields_keptTTL key o t : yields (keptTTL key o) t t (inr (set_ttl key o now gonow t)).
Proof.
  unfold keptTTL, set_ttl. destruct (so_keepTTL o && (so_ttl o =? 0)%Z); [|constructor].
  econstructor; [apply (runs_ttl now gonow key t)|]. cbn. case_match; constructor.
Qed.
Lemma yields_get {A} key (f : _ → prog A) t v :
  yields (f (Ok (sel_value (encodeKey key) now t))) t t v → yields (call (StringOp (Get key)) ≫= f) t t v.
Proof. intros H. econstructor; [apply (runs_get now gonow key t)|exact H]. Qed.
Lemma yields_oldValue key o t :
  yields (oldValue key o) t t (inr (if so_get o then sel_value (encodeKey key) now t else None)).
Proof. unfold oldValue. destruct (so_get o); [|constructor]. apply yields_get. constructor. Qed.

Lemma yields_setWith key value o t :
  let enc := encodeKey key in
  let old := sel_value enc now t in
  let allowed := set_allowed key o now t in
  yields (setWith key value o) t
    (if allowed then after_set enc value (set_expiry gonow (set_ttl key o now gonow t)) t else t)
    (if so_get o then optBulk old else if allowed then OK else NullBulk).
Proof.
  intros enc old allowed. unfold setWith.
  eapply yields_bind; [apply yields_keptTTL|]. eapply yields_bind; [apply yields_oldValue|]. cbn beta.
  unfold allowed, set_allowed. fold enc old. destruct (so_nx o).
  - pose proof (yields_reply R now gonow (StringOp (SetNX key value (set_ttl key o now gonow t))) errReply
      (λ done : bool, if done then setReply o (if so_get o then old else None)
                      else notSet o (if so_get o then old else None)) _ _ _
      (runs_setNX now gonow key value (set_ttl key o now gonow t) t)) as H.
    cbn zeta in H. fold enc in H. unfold setReply, notSet in *. by destruct (so_get o), (bool_decide _).
  - assert (∀ v, v = setReply o (if so_get o then old else None) →
      yields (reply (StringOp (Set_ key value (set_ttl key o now gonow t))) (λ _, setReply o (if so_get o then old else None)))
        t (after_set enc value (set_expiry gonow (set_ttl key o now gonow t)) t) v) as Hset.
    { intros v ->. apply (yields_reply R now gonow (StringOp (Set_ key value (set_ttl key o now gonow t))) errReply
        (λ _, setReply o (if so_get o then old else None)) _ _ tt). apply runs_set. }
    unfold setReply, notSet in *. destruct (so_xx o); [|by apply Hset; destruct (so_get o)].
    eapply yields_bind with (a := inr (bool_decide (is_Some old))).
    { destruct (so_get o); [constructor|]. apply yields_get. constructor. }
    destruct (bool_decide (is_Some old)); [apply Hset|]; destruct (so_get o); try done; constructor.
Qed.

End SetCommand.

(** *** What SET is to do *)

(** NX asks that there is no live key of any type, XX that there is a live
    string; with both, NX decides. *)
Definition may_set (key : string) (o : setOpts) (now : Z) (t : tables) : Prop :=
  if so_nx o then ∀ kt x, kv_meta t !! encodeKey key = Some (kt, x) → live now x = false
  else so_xx o = true → ∃ v x, kv_strings t !! encodeKey key = Some (v, x) ∧ live now x = true.
(** [d] nanoseconds as [s] seconds: the fraction is dropped, except that the
    last thousandth of a second may be rounded up. *)
Definition in_seconds (d s : Z) : Prop :=
  (s = d / 10 ^ 9 ∨ (s = d / 10 ^ 9 + 1 ∧ 1023 * 10 ^ 9 < 1024 * (d mod 10 ^ 9)))%Z.
(** The expiry that the value is stored with: the one given; with KEEPTTL and
    none given, the whole seconds that the key has left, counted from now, up
    to the longest duration Go has (292 years); none when there are none. *)
Definition expiry_asked (key : string) (o : setOpts) (now gonow : Z) (t : tables) (x : expiry) : Prop :=
  let after s := if (0 <? s)%Z then Some (timestamptz (gonow + s)) else None in
  if so_keepTTL o && (so_ttl o =? 0)%Z then
    match kv_meta t !! encodeKey key with
    | Some (_, Some c) =>
        let d := Z.min (2 ^ 63 - 1) (c * 1000 - gonow) in
        if ((now <? c) && (0 <=? d))%Z then ∃ s, in_seconds d s ∧ x = after (s * 10 ^ 9)%Z else x = None
    | _ => x = None
    end
  else x = after (so_ttl o).

Lemma set_allowed_may key o now t : set_allowed key o now t = true ↔ may_set key o now t.
Proof.
  unfold set_allowed, may_set, meta_type, sel_value, live_row. destruct (so_nx o); [|destruct (so_xx o); [|done]].
  - rewrite bool_decide_eq_true. destruct (kv_meta t !! _) as [[kt x]|]; [destruct (live now x) eqn:E|].
    + split; [done|]. intros H. by rewrite (H kt x eq_refl) in E.
    + split; [|done]. by intros _ kt' x' [= <- <-].
    + done.
  - rewrite bool_decide_eq_true. destruct (kv_strings t !! _) as [[v x]|]; [destruct (live now x) eqn:E|].
    + split; [|by eexists]. intros _ _. by exists v, x.
    + split; [by intros [? ?]|]. intros H. destruct (H eq_refl) as (v' & x' & [= <- <-] & E2). by rewrite E in E2.
    + split; [by intros [? ?]|]. intros H. by destruct (H eq_refl) as (v' & x' & ? & _).
Qed.

Lemma set_ttl_asked key o now gonow t :
  expiry_asked key o now gonow t (set_expiry gonow (set_ttl key o now gonow t)).
Proof.
  unfold expiry_asked, set_expiry, set_ttl, seconds_left, sel_expiry. cbv zeta.
  destruct (so_keepTTL o && (so_ttl o =? 0)%Z) eqn:Ek; cbn [andb]; [|done]. apply andb_true_iff in Ek as [_ Ek%Z.eqb_eq].
  rewrite Ek. destruct (kv_meta t !! encodeKey key) as [[kt [c|]]|]; [|done..]. cbn [live].
  destruct (now <? c)%Z; cbn [andb]; [|done].
  destruct (Z.leb_spec 0 (Z.min (2 ^ 63 - 1) (c * 1000 - gonow))) as [Hd|Hd].
  2:{ rewrite (proj2 (Z.ltb_lt (saturate _) 0)) by (unfold saturate; lia). done. }
  rewrite saturate_nonneg by lia. rewrite (proj2 (Z.ltb_ge _ 0)) by lia.
  set (d := Z.min (2 ^ 63 - 1) (c * 1000 - gonow)) in *.
  pose proof (int64_Seconds_spec d ltac:(lia)) as Hs. set (s := int64_Seconds d) in *. clearbody s.
  exists s. split; [exact Hs|]. pose proof (Z.div_mod d (10 ^ 9) ltac:(lia)). pose proof (Z.mod_pos_bound d (10 ^ 9) ltac:(lia)).
  destruct (Z.ltb_spec 0 s); [|rewrite (proj2 (Z.ltb_ge 0 (s * 10 ^ 9))) by lia; done].
  unfold Duration, Second. rewrite wrap64_id; [done|]. unfold int64. destruct Hs as [->|[-> ?]]; lia.
Qed.

(** C25. SET with its options, once they are parsed. Whatever is stored under
    the key, SET with NX, XX, GET, KEEPTTL and an expiry, in any combination,
    either writes the value as a plain string, replacing whatever the key held
    and touching no other key, or leaves the tables as they are: NX writes
    exactly when no live key of any type is there, XX exactly when a live
    string is there (a live key of another type is refused). The expiry is the
    one given, or with KEEPTTL the whole seconds the key had left (a part of a
    second is lost: see [keepttl_drops_subsecond_expiry]). With GET the reply
    is the live string from before, or nil; without, it is OK or, when nothing
    was written, nil. *)
Theorem set_command_correct R now gonow key value o t :
  let enc := encodeKey key in
  ∃ t' v (written : bool) x, yields R now gonow (setWith key value o) t t' v ∧
    (written = true ↔ may_set key o now t) ∧ expiry_asked key o now gonow t x ∧
    (if written then holds_string enc value x t' ∧ frame [enc] t t' else t' = t) ∧
    v = if so_get o then optBulk (sel_value enc now t) else if written then OK else NullBulk.
Proof.
  intros enc. eexists _, _, (set_allowed key o now t), _. split; [apply yields_setWith|].
  split; [apply set_allowed_may|]. split; [apply set_ttl_asked|]. fold enc. split; [|done].
  destruct (set_allowed key o now t); [|done]. split; [apply after_set_holds|apply after_set_frame].
Qed.

(** KEEPTTL counts whole seconds: a key with half a second to live is stored
    without expiry. *)
Lemma keepttl_drops_subsecond_expiry :
  let t := after_set "k" "v" (Some 500000%Z) empty_tables in
  let o := MkSetOpts 0 false false true false in
  sel_value "k" 0 t = Some "v" ∧ set_ttl "k" o 0 0 t = 0%Z.
Proof. split; vm_compute; reflexivity. Qed.
(** XX asks for a string: it refuses to replace a hash. *)
Lemma set_xx_refuses_other_types :
  let t := upd_meta <["k" := (TypeHash, None)]> empty_tables in
  meta_type "k" 0 t = Some TypeHash ∧ set_allowed "k" (MkSetOpts 0 false true false false) 0 t = false.
Proof. split; vm_compute; reflexivity. Qed.

(** ** SET and GET through the server *)

(** A connection that accepts storage commands. *)
Definition ready (c : conn) : Prop :=
  authenticated c = true ∧ inTransaction (client c) = false ∧ inPubSubMode (client c) = false.

(** The names the connection loop and the handler treat themselves. *)
Definition reserved : list string :=
  ["AUTH"; "HELLO"; "SUBSCRIBE"; "UNSUBSCRIBE"; "PSUBSCRIBE"; "PUNSUBSCRIBE"; "PUBLISH"; "RESET"; "MULTI"; "EXEC";
   "DISCARD"; "CLIENT"; "PING"; "ECHO"; "QUIT"; "COMMAND"; "CLUSTER"; "CONFIG"; "SELECT"; "WAIT"; "FLUSHDB";
   "FLUSHALL"].

(** Every other command goes to the store. *)
Lemma processCommand_store `{!Operations} cfg age e cmd name args c w s v :
  ready c → parts cmd = Some (name, args) → name ∉ reserved →
  ExecuteOnStore (MkCtx (protocolVersion (client c)) false) name args e (dbst w) = (s, v) →
  processCommand cfg age e cmd c w = (c, MkWorld (hub w) s (sent_notes w), [v]).
Proof.
  intros (Ha & Ht & Hm) Hp Hn E. unfold reserved in Hn.
  unfold processCommand, handle, Handle. rewrite !Hp, Ha, Ht, Hm. cbn [negb andb].
  unfold executeCommand. rewrite !bool_decide_false by set_solver. by rewrite E.
Qed.

Lemma parts_word word name args : Strings.ToUpper word = name → parts (Arr (Bulk word :: args)) = Some (name, args).
Proof. by intros <-. Qed.

Definition two_times (now gonow now' gonow' : Z) (n : nat) (_ : nat) : env :=
  match n with O => quiet now gonow | _ => quiet now' gonow' end.

Lemma setOptions_ex R now gonow ex secs t :
  Strings.ToUpper ex = "EX" → (0 < secs ∧ secs * 10 ^ 9 < 2 ^ 63)%Z →
  yields R now gonow (setOptions [Bulk ex; Bulk (Strconv.Itoa secs)] setOpts0) t t
    (inr (MkSetOpts (secs * 10 ^ 9) false false false false)).
Proof.
  intros Hex Hs. cbn [setOptions]. change (vBulk (Bulk ?y)) with y. rewrite Hex.
  unfold Strconv.Itoa. rewrite Strconv.ParseInt_FormatInt by (unfold int64; lia).
  unfold isExpiryOption. rewrite bool_decide_true by (by left). unfold expiryOption. rewrite bool_decide_true by done.
  unfold Duration, Second. rewrite wrap64_id by (unfold int64; lia). constructor.
Qed.

Lemma yields_set_ex R notifying other ctx now gonow ex key value secs t :
  Strings.ToUpper ex = "EX" → (0 < secs ∧ secs * 10 ^ 9 < 2 ^ 63)%Z →
  yields R now gonow
    (ExecuteWithOps R notifying other ctx "SET" [Bulk key; Bulk value; Bulk ex; Bulk (Strconv.Itoa secs)]) t
    (after_set (encodeKey key) value (Some (timestamptz (gonow + secs * 10 ^ 9))) t) OK.
Proof.
  intros Hex Hs. change (ExecuteWithOps R notifying other ctx "SET" ?args) with (setOp args). cbn [setOp].
  eapply yields_bind; [by apply setOptions_ex|]. cbn beta iota. change (vBulk (Bulk ?y)) with y.
  pose proof (yields_setWith R now gonow key value (MkSetOpts (secs * 10 ^ 9) false false false false) t) as H.
  cbn zeta in H. unfold set_allowed, set_ttl, set_expiry in H. cbn [so_nx so_xx so_get so_keepTTL so_ttl andb] in H.
  by rewrite (proj2 (Z.ltb_lt _ _)) in H by lia.
Qed.

Lemma yields_get_held R notifying other ctx now gonow key value x t :
  holds_string (encodeKey key) value x t →
  yields R now gonow (ExecuteWithOps R notifying other ctx "GET" [Bulk key]) t t
    (if live now x then Bulk value else NullBulk).
Proof.
  intros (_ & Hs & _). change (ExecuteWithOps R notifying other ctx "GET" ?args) with (getOp args). cbn [getOp].
  assert ((if live now x then Bulk value else NullBulk) = optBulk (sel_value (encodeKey key) now t)) as ->.
  { unfold sel_value. rewrite Hs. cbn. by destruct (live now x). }
  apply (yields_reply R now gonow (StringOp (Get key))). apply runs_get.
Qed.

(** C12. SET with an expiry, then GET, sent over a connection that is
    authenticated and neither in MULTI nor subscribed: the replies are OK and,
    until the expiry and whatever the client calls the commands (upper or
    lower case), the value; from then on nil. No other key changes, and
    neither do the connection and the subscriptions. *)
Theorem set_get_served R notifying other cfg age c w (set_ get_ ex key value : string) secs now gonow now' gonow' :
  let ops := cmd_ops R notifying other in
  Strings.ToUpper set_ = "SET" → Strings.ToUpper get_ = "GET" → Strings.ToUpper ex = "EX" →
  (0 < secs ∧ secs * 10 ^ 9 < 2 ^ 63)%Z → ready c → aborted (dbst w) = false →
  ∃ w', processAll cfg age (two_times now gonow now' gonow') 0
          [Arr [Bulk set_; Bulk key; Bulk value; Bulk ex; Bulk (Strconv.Itoa secs)]; Arr [Bulk get_; Bulk key]] c w =
        (c, w', [[OK]; [if live now' (Some (timestamptz (gonow + secs * 10 ^ 9))) then Bulk value else NullBulk]]) ∧
        hub w' = hub w ∧ sent_notes w' = sent_notes w ∧ frame [encodeKey key] (db (dbst w)) (db (dbst w')).
Proof.
  intros ops Hset Hget Hex Hsecs Hc Ha.
  set (x := Some (timestamptz (gonow + secs * 10 ^ 9))). set (ctx := MkCtx (protocolVersion (client c)) false).
  destruct (ExecuteOnStore_yields R notifying other ctx "SET" _ now gonow _ _ _ (dbst w)
    (yields_set_ex R notifying other ctx now gonow ex key value secs (db (dbst w)) Hex Hsecs)) as (s1 & E1 & Hd1 & Ha1); [done|].
  destruct (ExecuteOnStore_yields R notifying other ctx "GET" _ now' gonow' _ _ _ s1
    (yields_get_held R notifying other ctx now' gonow' key value x _ (after_set_holds _ _ _ (db (dbst w))))) as (s2 & E2 & Hd2 & _); [done|].
  exists (MkWorld (hub w) s2 (sent_notes w)). split; [|split_and!; [done..|]].
  - assert (∀ cmd, cmd ∈ ["SET"; "GET"] → cmd ∉ reserved) as Hr by (unfold reserved; set_solver).
    cbn [processAll].
    rewrite (processCommand_store cfg age (two_times now gonow now' gonow' 0) _ "SET" _ c w s1 OK Hc
      (parts_word _ _ _ Hset) (Hr _ ltac:(by left)) E1).
    rewrite (processCommand_store cfg age (two_times now gonow now' gonow' 1) _ "GET" _ c
      (MkWorld (hub w) s1 (sent_notes w)) s2 _ Hc
      (parts_word _ _ _ Hget) (Hr _ ltac:(by right; left)) E2).
    done.
  - cbn [dbst]. rewrite Hd2. apply after_set_frame.
Qed.

(** ** Examples *)

Lemma store_and_tx_agree_witness :
  ∃ s', @ExecuteOnStore sample_cmds (MkCtx 2 false) "GET" [Bulk "k"] (λ _, quiet 0 0)
          (St (after_set "k" "v" None empty_tables) 0 false false []) = (s', Bulk "v").
Proof.
  destruct (store_and_tx_agree sample_runtime true no_other (MkCtx 2 false) "GET" [Bulk "k"] 0 0
    (after_set "k" "v" None empty_tables) (after_set "k" "v" None empty_tables) (Bulk "v")
    (yields_get_held sample_runtime true no_other (MkCtx 2 false) 0 0 "k" "v" None _ (after_set_holds "k" "v" None empty_tables))
    (St (after_set "k" "v" None empty_tables) 0 false false [])) as [(s' & E & _) _]; [split; reflexivity|].
  exists s'. exact E.
Defined.

Definition sample_conn : conn := MkConn (NewClientState 1 "peer" 0) true.
Lemma set_get_served_witness :
  ∃ w', @processAll sample_cmds sample_cfg 0 (two_times 0 0 5000000 5000000000) 0
          [Arr [Bulk "set"; Bulk "k"; Bulk "v"; Bulk "ex"; Bulk "10"]; Arr [Bulk "Get"; Bulk "k"]] sample_conn sample_world =
        (sample_conn, w', [[OK]; [Bulk "v"]]).
Proof.
  destruct (set_get_served sample_runtime true no_other sample_cfg 0 sample_conn sample_world "set" "Get" "ex" "k" "v" 10
    0 0 5000000 5000000000) as (w' & E & _); [reflexivity|reflexivity|reflexivity|lia|split_and!; reflexivity|reflexivity|].
  exists w'. exact E.
Defined.

(** ZRANGE with REV takes the positions from the low end and then reverses
    them; ZREVRANGE takes them from the high end. *)
Lemma zrange_rev_counts_from_the_low_end :
  let exec := λ name args s, @ExecuteOnStore sample_cmds (MkCtx 2 false) name args (λ _, quiet 0 0) s in
  let s := (exec "ZADD" (Bulk <$> ["z"; "1"; "a"; "2"; "b"; "3"; "c"]) (St empty_tables 0 false false [])).1 in
  (exec "ZRANGE" (Bulk <$> ["z"; "0"; "0"; "REV"]) s).2 = Arr [Bulk "a"] ∧
  (exec "ZREVRANGE" (Bulk <$> ["z"; "0"; "0"]) s).2 = Arr [Bulk "c"].
Proof. split; vm_compute; reflexivity. Qed.
(** The number of keys is checked after an addition that overflows. *)
Lemma zunionstore_numkeys_panics :
  (run_prog (store_perform sample_runtime (λ _, quiet 0 0)) (λ _, 0%Z)
     (ExecuteWithOps sample_runtime true no_other (MkCtx 2 false) "ZUNIONSTORE" (Bulk <$> ["d"; "9223372036854775807"; "k"]))
     0 (St empty_tables 0 false false [])).2 = Fail (panic "makeslice: len out of range").
Proof. vm_compute. reflexivity. Qed.

End Serve.
