(* ===== verification/StringRows.v ===== *)
(** * The rows of kv_strings

    The cache holds strings only, so what matters to it is which operations
    can change a row of kv_strings, and for which keys: [spares K m] says that
    [m] leaves the string rows of all keys outside [K] as they are. *)
From stdpp Require Import gmap strings list sorting.
From Stdlib Require Import ZArith Lia Ascii.
From S2P Require Import Prelude GoStd KeyCodec Db StoreMeta StoreStrings StoreBits StoreBitmaps StoreKeys StoreHash StoreLists StoreSets StoreHll StoreZSets StoreSampling Footprint.
Import Db KeyCodec Meta StringOps BitOps BitmapOps KeyOps HashOps ListOps SetOps HllOps ZSetOps Sampling Footprint.

Module StringRows.

Definition same_strings (K : list string) (t t' : tables) : Prop :=
  ∀ k, k ∉ K → kv_strings t' !! k = kv_strings t !! k.
Definition spares {A} (K : list string) (m : M A) : Prop :=
  ∀ e s s' r, m e s = (s', r) → same_strings K (db s) (db s').

#[export] Instance same_strings_preorder K : PreOrder (same_strings K).
Proof. split; [done|]. intros t1 t2 t3 H1 H2 k Hk. by rewrite H2, H1. Qed.

Lemma touches_spares {A} K (m : M A) : touches K m → spares K m.
Proof. intros H e s s' r E k Hk. destruct (H _ _ _ _ E) as [Hf _]. by destruct (Hf k Hk) as (_ & ? & _). Qed.

Lemma spares_mono {A} K K' (m : M A) : K ⊆ K' → spares K m → spares K' m.
Proof. intros HK Hm e s s' r E k Hk. apply (Hm _ _ _ _ E). set_solver. Qed.

Lemma spares_bind {A B} K (m : M A) (f : A → M B) :
  spares K m → (∀ a, spares K (f a)) → spares K (m ≫= f).
Proof.
  intros Hm Hf e s s' r. unfold mbind, M_bind. destruct (m e s) as [s1 [a|er]] eqn:E.
  - intros E2. etrans; [by eapply Hm|by eapply Hf].
  - intros [= <- <-]. by eapply Hm.
Qed.
Lemma spares_catch {A} K (m : M A) h : spares K m → (∀ er, spares K (h er)) → spares K (catch m h).
Proof.
  intros Hm Hh e s s' r. unfold catch. destruct (m e s) as [s1 [a|er]] eqn:E.
  - intros [= <- <-]. by eapply Hm.
  - intros E2. etrans; [by eapply Hm|by eapply Hh].
Qed.
Lemma spares_attempt {A} K (m : M A) : spares K m → spares K (attempt m).
Proof. intros Hm e s s' r. unfold attempt. destruct (m e s) as [s1 r1] eqn:E. intros [= <- <-]. by eapply Hm. Qed.
Lemma spares_stmt {A} K (f : Z → tables → result (tables * A)) :
  (∀ now t t' a, f now t = Ok (t', a) → same_strings K t t') → spares K (stmt f).
Proof.
  intros Hf e s s' r. unfold stmt. destruct (aborted s); [by intros [= <- <-]|].
  destruct (fault e (sent s)) as [er|].
  - intros [= <- <-]. cbn. destruct (negb _ && _); [|done].
    destruct (f (NOW e) (db s)) as [[t a]|er'] eqn:E; cbn; [by eapply Hf|done].
  - destruct (f (NOW e) (db s)) as [[t a]|er] eqn:E; intros [= <- <-]; cbn; [by eapply Hf|done].
Qed.
(** A statement that does not mention kv_strings. *)
Lemma spares_exec K f : (∀ now t, kv_strings (f now t) = kv_strings t) → spares K (exec f).
Proof. intros H. apply spares_stmt. intros now t t' a [= <- _] k _. by rewrite H. Qed.
Lemma spares_read {A} K (m : M A) : touches [] m → spares K m.
Proof. intros H. apply (spares_mono []); [set_solver|by apply touches_spares]. Qed.
Create HintDb spares.
Ltac spare1 :=
  cbv zeta;
  lazymatch goal with
  | |- spares _ (_ ≫= _) => apply spares_bind; [|intros ?]
  | |- spares _ (catch _ _) => apply spares_catch; [|intros ?]
  | |- spares _ (attempt _) => apply spares_attempt
  | |- spares _ (match ?x with _ => _ end) => destruct x
  | |- spares _ (exec _) => apply spares_exec; reflexivity
  | |- spares _ (stmt _) =>
      apply spares_stmt; intros ? ? ? ? ?; repeat case_match; simplify_eq; intros ? ?; first [reflexivity|idtac]
  | |- spares _ _ => solve [eauto with spares]
  end.
Ltac spare := repeat spare1.

Lemma spares_lock K ks : spares K (lock_stmt ks).
Proof.
  intros e s s' r. unfold lock_stmt. destruct (query (λ _ _, tt) e s) as [s1 [[]|er]] eqn:E;
    apply (touches_query []) in E as [F _]; intros [= <- <-] k _; cbn; by destruct (F k ltac:(set_solver)) as (_ & ? & _).
Qed.
Lemma spares_lockKeys K ks : spares K (lockKeys ks).
Proof. unfold lockKeys. destruct ks as [|? [|? ?]]; [by apply spares_read, touches_ret|apply spares_lock..]. Qed.
Lemma spares_ret {A} K (a : A) : spares K (mret a : M A).
Proof. by apply spares_read, touches_ret. Qed.
Lemma spares_throw {A} K er : spares K (throw er : M A).
Proof. by apply spares_read, touches_throw. Qed.
Lemma spares_query {A} K (f : Z → tables → A) : spares K (query f).
Proof. by apply spares_read, touches_query. Qed.
Lemma spares_unwrap {A} K (r : result A) : spares K (unwrap r).
Proof. by apply spares_read, touches_unwrap. Qed.
Lemma spares_asks {A} K (f : env → A) : spares K (asks f).
Proof. by apply spares_read, touches_asks. Qed.
Lemma spares_lockKey K k : spares K (lockKey k).
Proof. apply spares_lock. Qed.
Lemma spares_getKeyType K k : spares K (getKeyType k).
Proof. by apply spares_read, touches_getKeyType. Qed.
Lemma spares_requireType K kt k : spares K (requireType kt k).
Proof. by apply spares_read, touches_requireType. Qed.
Lemma spares_wrapErr {A} K p (m : M A) : spares K m → spares K (wrapErr p m).
Proof. intros. unfold wrapErr. apply spares_catch; [done|intros; apply spares_throw]. Qed.
#[export] Hint Resolve spares_ret spares_throw spares_query spares_unwrap spares_asks spares_lock spares_lockKey
  spares_lockKeys spares_getKeyType spares_requireType spares_wrapErr : spares.
Lemma spares_setMeta K k kt x : spares K (setMeta k kt x).
Proof. unfold setMeta. spare. Qed.
#[export] Hint Resolve spares_setMeta : spares.

(** ** Operations on collections leave the strings alone *)

Lemma spares_hSet k fs : spares [] (hSet k fs).
Proof. unfold hSet. spare. Qed.
Lemma spares_hDel k fs : spares [] (hDel k fs).
Proof. unfold hDel. spare. Qed.
Lemma spares_hSetNX k f v : spares [] (hSetNX k f v).
Proof. unfold hSetNX. spare. Qed.
Lemma spares_insert_stmt K k l : spares K (insert_stmt k l).
Proof. unfold insert_stmt. spare. Qed.
#[export] Hint Resolve spares_insert_stmt : spares.
Lemma spares_lPush k vs : spares [] (lPush k vs).
Proof. unfold lPush. spare. Qed.
Lemma spares_rPush k vs : spares [] (rPush k vs).
Proof. unfold rPush. spare. Qed.
Lemma spares_pop_first asc k : spares [] (pop_first asc k).
Proof. unfold pop_first. spare. Qed.
Lemma spares_popMulti asc ks : spares [] (popMulti asc ks).
Proof. unfold popMulti. spare. Qed.
Lemma spares_popMultiN asc ks n : spares [] (popMultiN asc ks n).
Proof. unfold popMultiN. spare. Qed.
Lemma spares_lRem k n x : spares [] (lRem k n x).
Proof. unfold lRem. spare. Qed.
Lemma spares_sAdd k l : spares [] (sAdd k l).
Proof. unfold sAdd. spare. Qed.
Lemma spares_sRem k l : spares [] (sRem k l).
Proof. unfold sRem. spare. Qed.

Lemma spares_hIncrBy k f n : spares [] (hIncrBy k f n).
Proof. unfold hIncrBy. spare. Qed.
Lemma spares_hIncrByFloat F k f n : spares [] (hIncrByFloat F k f n).
Proof. unfold hIncrByFloat. spare. Qed.
Lemma spares_lTrim k a b : spares [] (lTrim k a b).
Proof. unfold lTrim. spare. Qed.
Lemma spares_lSet k i x : spares [] (lSet k i x).
Proof. unfold lSet. spare. Qed.
Lemma spares_lInsert sc k p x b : spares [] (lInsert sc k p x b).
Proof. unfold lInsert. spare. Qed.
Lemma spares_rPopLPush a b : spares [] (rPopLPush a b).
Proof. unfold rPopLPush. spare. Qed.
Lemma spares_save K k h : spares K (save k h).
Proof. unfold save. spare. Qed.
Lemma spares_merge_keys K ks h : spares K (merge_keys ks h).
Proof. apply spares_read, touches_merge_keys. Qed.
#[export] Hint Resolve spares_save spares_merge_keys : spares.
Lemma spares_pfAdd k l : spares [] (pfAdd k l).
Proof. unfold pfAdd. spare. Qed.
Lemma spares_pfMerge dst ks : spares [] (pfMerge dst ks).
Proof. unfold pfMerge. spare. Qed.

Lemma spares_zAdd_loop K k l o a c : spares K (zAdd_loop k l o a c).
Proof. revert a c. induction l as [|[m x] l IH]; intros a c; cbn [zAdd_loop]; spare; apply IH. Qed.
#[export] Hint Resolve spares_zAdd_loop : spares.
Lemma spares_zAdd k l o : spares [] (zAdd k l o).
Proof. unfold zAdd. spare. Qed.
Lemma spares_zRem k l : spares [] (zRem k l).
Proof. unfold zRem. spare. Qed.
Lemma spares_zRemRangeByScore k a b : spares [] (zRemRangeByScore k a b).
Proof. unfold zRemRangeByScore. spare. Qed.
Lemma spares_zRemRangeByRank k a b : spares [] (zRemRangeByRank k a b).
Proof. unfold zRemRangeByRank. spare. Qed.
Lemma spares_zIncrBy F k d m : spares [] (zIncrBy F k d m).
Proof. unfold zIncrBy. spare. Qed.
Lemma spares_select {A} K (f : Z → tables → result A) : spares K (select f).
Proof. apply spares_read, touches_select. Qed.
#[export] Hint Resolve spares_select : spares.
Lemma spares_zpop asc k n : spares [] (zpop asc k n).
Proof. unfold zpop. spare. Qed.
Lemma spares_zMPop asc ks n : spares [] (zMPop asc ks n).
Proof. unfold zMPop. spare. Qed.

(** ** Conditional writes that did not write *)

Lemma bind_Ok {A B} (m : M A) (f : A → M B) e s s' b :
  (m ≫= f) e s = (s', Ok b) → ∃ s1 a, m e s = (s1, Ok a) ∧ f a e s1 = (s', Ok b).
Proof. unfold mbind, M_bind. destruct (m e s) as [s1 [a|er]] eqn:E; [|done]. intros H. by exists s1, a. Qed.

(** [refused m]: whenever [m] answers false it has changed no string. *)
Definition refused (m : M bool) : Prop :=
  ∀ e s s', m e s = (s', Ok false) → same_strings [] (db s) (db s').
Lemma refused_spares m : spares [] m → refused m.
Proof. intros H e s s' E. by eapply H. Qed.
Lemma refused_bind {A} (m : M A) f : spares [] m → (∀ a, refused (f a)) → refused (m ≫= f).
Proof.
  intros Hm Hf e s s' (s1 & a & E1 & E2)%bind_Ok. etrans; [by eapply Hm|by eapply Hf].
Qed.
(** A branch that can only end with true. *)
Lemma refused_true {A} (m : M A) : refused (m;; mret true).
Proof. intros e s s' (s1 & a & _ & E)%bind_Ok. discriminate E. Qed.
Lemma refused_false : refused (mret false).
Proof. by apply refused_spares, spares_ret. Qed.
Lemma refused_yes : refused (mret true).
Proof. by apply refused_spares, spares_ret. Qed.
#[local] Hint Resolve refused_true refused_false refused_yes : spares.
Ltac refuse :=
  repeat (cbv zeta; match goal with
  | |- refused (_;; mret true) => apply refused_true
  | |- refused (_ ≫= _) => apply refused_bind; [solve [spare]|intros ?]
  | |- refused (match ?x with _ => _ end) => destruct x
  | |- refused _ => solve [eauto with spares]
  end).

Lemma refused_setNX k v d : refused (setNX k v d).
Proof. unfold setNX. refuse. Qed.
Lemma spares_update_meta_expiry K o k x : spares K (update_meta_expiry o k x).
Proof. unfold update_meta_expiry. spare. Qed.
#[local] Hint Resolve spares_update_meta_expiry : spares.
Lemma refused_expire k d o : refused (expire k d o).
Proof. unfold expire. refuse. Qed.
Lemma refused_expireAt k x o : refused (expireAt k x o).
Proof. unfold expireAt. refuse. Qed.
Lemma refused_copyKey a b rep : refused (copyKey a b rep).
Proof.
  unfold copyKey. refuse. intros e s s' (s1 & u & _ & (s2 & u2 & _ & E)%bind_Ok)%bind_Ok. discriminate E.
Qed.

(** COPY writes its destination only. *)
Lemma spares_deleteKey k : spares [k] (deleteKeyFromAllTables k).
Proof. apply touches_spares, touches_deleteKey. set_solver. Qed.
#[local] Hint Resolve spares_deleteKey : spares.
Lemma spares_copy_rows {R} (rows : list R) K : spares K (copy_rows rows).
Proof. unfold copy_rows. spare. Qed.
#[local] Hint Resolve spares_copy_rows : spares.
Lemma spares_copyKey a b rep : spares [encodeKey b] (copyKey a b rep).
Proof.
  unfold copyKey. spare. cbn. rewrite lookup_insert_ne; [done|]. set_solver.
Qed.

(** BITFIELD without SET and INCRBY. *)
Definition bitFieldHasWrites (ops : list BitFieldOp) : bool :=
  existsb (λ op, negb (bool_decide (OpType op = "GET")) && negb (bool_decide (OpType op = "OVERFLOW"))) ops.
Lemma bitField_step_reads op v rs m v' rs' m' :
  OpType op = "GET" ∨ OpType op = "OVERFLOW" → bitField_step op (v, rs, m) = Some (v', rs', m') → m' = m.
Proof.
  intros [H|H]; unfold bitField_step; rewrite H; cbv zeta; destruct (parseEncoding (Encoding op)) as [w sg].
  - rewrite bool_decide_true by done. destruct (getBitField _ _ _ _); [|done]. by intros [= _ _ ->].
  - rewrite !bool_decide_false by done. by intros [= _ _ ->].
Qed.
Lemma bitField_ops_reads ops v rs m v' rs' m' :
  bitFieldHasWrites ops = false → bitField_ops ops (v, rs, m) = Some (v', rs', m') → m' = m.
Proof.
  revert v rs m. induction ops as [|op ops IH]; intros v rs m Hw; cbn [bitField_ops]; [by intros [= _ _ ->]|].
  cbn in Hw. apply orb_false_iff in Hw as [Hop Hw].
  destruct (bitField_step op (v, rs, m)) as [[[v1 rs1] m1]|] eqn:E; [|done]. intros Hr%IH; [|done]. subst m'.
  eapply bitField_step_reads; [|exact E]. destruct (decide (OpType op = "GET")); [by left|right].
  apply andb_false_iff in Hop as [Hop|Hop]; by apply negb_false_iff, bool_decide_eq_true in Hop.
Qed.
Lemma spares_bitField_reads k ops : bitFieldHasWrites ops = false → spares [] (bitField k ops).
Proof.
  intros Hw. unfold bitField. cbv zeta. apply spares_bind; [apply spares_query|intros row].
  destruct (bitField_ops ops _) as [[[v rs] m]|] eqn:E; [|apply spares_throw].
  apply bitField_ops_reads in E as ->; [|done]. spare.
Qed.

(** ** Calls that fail inside a transaction *)

(** [strict m]: when [m] fails, the transaction it runs in is lost. [tidy m]:
    when [m] fails, the transaction is lost or no string has changed. *)
Definition fails_so {A} (P : st → st → Prop) (m : M A) : Prop :=
  ∀ e s s' r, in_tx s = true → m e s = (s', r) → in_tx s' = true ∧ ∀ er, r = Fail er → P s s'.
Definition lost (s s' : st) : Prop := aborted s' = true.
Definition lost_or_same (s s' : st) : Prop := aborted s' = true ∨ same_strings [] (db s) (db s').
Abbreviation strict := (fails_so lost).
Abbreviation tidy := (fails_so lost_or_same).

Lemma strict_tidy {A} (m : M A) : strict m → tidy m.
Proof. intros H e s s' r Ht E. destruct (H _ _ _ _ Ht E) as [? HF]. split; [done|]. intros er Er. left. by eapply HF. Qed.
Lemma tidy_spares {A} K (m : M A) : touches K m → spares [] m → tidy m.
Proof.
  intros Ht Hs e s s' r Hin E. destruct (Ht _ _ _ _ E) as (_ & [Hi _] & _). split; [by rewrite Hi|]. intros er _. right. by eapply Hs.
Qed.
Lemma strict_ret {A} (a : A) : strict (mret a).
Proof. intros e s s' r Ht [= <- <-]. by split. Qed.
Lemma strict_asks {A} (f : env → A) : strict (asks f).
Proof. intros e s s' r Ht [= <- <-]. by split. Qed.
Lemma strict_stmt {A} (f : Z → tables → result (tables * A)) : strict (stmt f).
Proof.
  intros e s s' r Ht. unfold stmt. destruct (aborted s) eqn:Ha; [intros [= <- <-]; by split|].
  destruct (fault e (sent s)); [rewrite Ht; intros [= <- <-]; by split|].
  destruct (f (NOW e) (db s)) as [[t a]|er]; intros [= <- <-]; by split.
Qed.
Lemma strict_lock ks : strict (lock_stmt ks).
Proof.
  intros e s s' r Ht. unfold lock_stmt. destruct (query (λ _ _, tt) e s) as [s1 [[]|er]] eqn:E;
    apply (strict_stmt _ _ _ _ _ Ht) in E as [? HF]; intros [= <- <-]; split; try done; intros er' _; by eapply HF.
Qed.
Lemma tidy_throw {A} er : tidy (throw er : M A).
Proof. intros e s s' r Ht [= <- <-]. split; [done|]. by right. Qed.

Lemma strict_bind {A B} (m : M A) (f : A → M B) : strict m → (∀ a, strict (f a)) → strict (m ≫= f).
Proof.
  intros Hm Hf e s s' r Ht. unfold mbind, M_bind. destruct (m e s) as [s1 [a|er]] eqn:E;
    destruct (Hm _ _ _ _ Ht E) as [Ht1 HF]; [exact (Hf a _ _ _ _ Ht1)|].
  intros [= <- <-]. split; [done|]. intros er' _. by eapply HF.
Qed.
(** Nothing fails by itself once a string has been written. *)
Lemma tidy_bind_strict {A B} (m : M A) (f : A → M B) : tidy m → (∀ a, strict (f a)) → tidy (m ≫= f).
Proof.
  intros Hm Hf e s s' r Ht. unfold mbind, M_bind. destruct (m e s) as [s1 [a|er]] eqn:E;
    destruct (Hm _ _ _ _ Ht E) as [Ht1 HF].
  - intros E2. destruct (Hf a _ _ _ _ Ht1 E2) as [? HF2]. split; [done|]. intros er Er. left. by eapply HF2.
  - intros [= <- <-]. split; [done|]. intros er' _. by eapply HF.
Qed.
Lemma tidy_bind {A B} (m : M A) (f : A → M B) : tidy m → spares [] m → (∀ a, tidy (f a)) → tidy (m ≫= f).
Proof.
  intros Hm Hs Hf e s s' r Ht. unfold mbind, M_bind. destruct (m e s) as [s1 [a|er]] eqn:E;
    destruct (Hm _ _ _ _ Ht E) as [Ht1 HF].
  - intros E2. destruct (Hf a _ _ _ _ Ht1 E2) as [Ht2 HF2]. split; [done|]. intros er Er.
    destruct (HF2 er Er) as [|Hd]; [by left|right]. etrans; [by eapply Hs|done].
  - intros [= <- <-]. split; [done|]. intros er' _. by eapply HF.
Qed.
Lemma strict_catch {A} (m : M A) h : strict m → (∀ er, strict (h er)) → strict (catch m h).
Proof.
  intros Hm Hh e s s' r Ht. unfold catch. destruct (m e s) as [s1 [a|er]] eqn:E;
    destruct (Hm _ _ _ _ Ht E) as [Ht1 HF]; [|exact (Hh er _ _ _ _ Ht1)].
  intros [= <- <-]. by split.
Qed.

Create HintDb tidy.
Lemma strict_query {A} (f : Z → tables → A) : strict (query f). Proof. apply strict_stmt. Qed.
Lemma strict_exec f : strict (exec f). Proof. apply strict_stmt. Qed.
Lemma strict_lockKey k : strict (lockKey k). Proof. apply strict_lock. Qed.
Lemma strict_lockKeys ks : strict (lockKeys ks).
Proof. unfold lockKeys. destruct ks as [|? [|? ?]]; [apply strict_ret|apply strict_lock..]. Qed.
#[export] Hint Resolve strict_ret strict_asks strict_stmt strict_lock strict_query strict_exec strict_lockKey
  strict_lockKeys : tidy.
Ltac strictly :=
  repeat (cbv zeta; lazymatch goal with
  | |- fails_so lost (_ ≫= _) => apply strict_bind; [|intros ?]
  | |- fails_so lost (catch _ _) => apply strict_catch; [|intros ?]
  | |- fails_so lost (match ?x with _ => _ end) => destruct x
  | |- fails_so lost _ => solve [eauto with tidy]
  end).

Ltac tidily :=
  cbv zeta; lazymatch goal with
  | |- fails_so lost_or_same (throw _) => apply tidy_throw
  | |- _ => first [solve [apply strict_tidy; strictly]
      | lazymatch goal with
        | |- fails_so lost_or_same (match ?x with _ => _ end) => destruct x; tidily
        | |- fails_so lost_or_same (_ ≫= _) => apply tidy_bind; [tidily|solve [spare]|intros ?; tidily]
        | |- fails_so lost_or_same _ => solve [eauto with tidy]
        end]
  end.

Lemma strict_getKeyType k : strict (getKeyType k).
Proof. unfold getKeyType. strictly. Qed.
Lemma strict_setMeta k kt x : strict (setMeta k kt x).
Proof. unfold setMeta. strictly. Qed.
Lemma strict_setMetaBatch ks kt : strict (setMetaBatch ks kt).
Proof. unfold setMetaBatch. strictly. Qed.
Lemma strict_deleteKey k : strict (deleteKeyFromAllTables k).
Proof. unfold deleteKeyFromAllTables. strictly. Qed.
Lemma strict_deleteKeys ks : strict (deleteKeysFromAllTables ks).
Proof. unfold deleteKeysFromAllTables. strictly. Qed.
Lemma strict_expiry_of d : strict (expiry_of d).
Proof. unfold expiry_of. strictly. Qed.
#[export] Hint Resolve strict_getKeyType strict_setMeta strict_setMetaBatch strict_deleteKey strict_deleteKeys
  strict_expiry_of : tidy.
Lemma strict_set k v d : strict (set k v d).
Proof. unfold set. strictly. Qed.
#[export] Hint Resolve strict_set : tidy.
Lemma tidy_set k v d : tidy (set k v d).
Proof. tidily. Qed.
Lemma tidy_setNX k v d : tidy (setNX k v d).
Proof. unfold setNX. tidily. Qed.
Lemma tidy_mSet l : tidy (mSet l).
Proof. unfold mSet. tidily. Qed.
Lemma tidy_incr k d : tidy (incr k d).
Proof. unfold incr. tidily. Qed.
Lemma tidy_incrByFloat F k d : tidy (incrByFloat F k d).
Proof. unfold incrByFloat. tidily. Qed.
Lemma tidy_setRange k o v : tidy (setRange k o v).
Proof. unfold setRange. tidily. Qed.
Lemma tidy_getEx k d p : tidy (getEx k d p).
Proof. unfold getEx. tidily. Qed.
Lemma tidy_getDel k : tidy (getDel k).
Proof. unfold getDel. tidily. Qed.
Lemma tidy_getSet k v : tidy (getSet k v).
Proof. unfold getSet. tidily. Qed.
Lemma tidy_bitField k l : tidy (bitField k l).
Proof. unfold bitField. tidily. Qed.
Lemma strict_del_loop ks n : strict (del_loop ks n).
Proof. revert n. induction ks as [|k ks IH]; intros n; cbn [del_loop]; strictly; apply IH. Qed.
Lemma tidy_del ks : tidy (del ks).
Proof. apply strict_tidy, strict_del_loop. Qed.
Lemma strict_update_meta_expiry o k x : strict (update_meta_expiry o k x).
Proof. apply strict_stmt. Qed.
#[export] Hint Resolve strict_update_meta_expiry : tidy.
Lemma tidy_expire k d o : tidy (expire k d o).
Proof. unfold expire. tidily. Qed.
Lemma tidy_expireAt k x o : tidy (expireAt k x o).
Proof. unfold expireAt. tidily. Qed.
Lemma strict_persist_tables k ts : strict (persist_tables k ts).
Proof. induction ts as [|t ts IH]; cbn [persist_tables]; strictly. Qed.
#[export] Hint Resolve strict_persist_tables : tidy.
Lemma tidy_persist k : tidy (persist k).
Proof. unfold persist. tidily. Qed.
Lemma tidy_setBit k o v : tidy (setBit k o v).
Proof. unfold setBit. tidily. Qed.
Lemma spares_bitop_sources K ks : spares K (bitop_sources ks).
Proof. apply spares_read, touches_bitop_sources. Qed.
Lemma strict_bitop_sources ks : strict (bitop_sources ks).
Proof. induction ks as [|k ks IH]; cbn [bitop_sources]; strictly. Qed.
#[export] Hint Resolve spares_bitop_sources strict_bitop_sources : tidy.
#[export] Hint Resolve spares_bitop_sources : spares.
Lemma tidy_bitOp op dst ks : tidy (bitOp op dst ks).
Proof. unfold bitOp. tidily. Qed.

(** What a statement that went through did. *)
Lemma stmt_Ok {A} (f : Z → tables → result (tables * A)) e s s' a :
  stmt f e s = (s', Ok a) → f (NOW e) (db s) = Ok (db s', a).
Proof.
  unfold stmt. destruct (aborted s); [done|]. destruct (fault e (sent s)); [done|].
  destruct (f (NOW e) (db s)) as [[t b]|er]; [|done]. by intros [= <- <-].
Qed.
Lemma exec_Ok f e s s' a : exec f e s = (s', Ok a) → db s' = f (NOW e) (db s).
Proof. by intros [= <-]%stmt_Ok. Qed.
Lemma query_Ok {A} (f : Z → tables → A) e s s' a : query f e s = (s', Ok a) → db s' = db s ∧ a = f (NOW e) (db s).
Proof. by intros [= <- <-]%stmt_Ok. Qed.
Lemma lock_Ok ks e s s' a : lock_stmt ks e s = (s', Ok a) → db s' = db s.
Proof.
  unfold lock_stmt. destruct (query (λ _ _, tt) e s) as [s1 [[]|er]] eqn:E; [|done]. apply query_Ok in E as [E _].
  by intros [= <- _].
Qed.

(** APPEND reads back the row it has just written. *)
Lemma tidy_appendStr k v : tidy (appendStr k v).
Proof.
  unfold appendStr. apply tidy_bind; [tidily|spare|intros _]. apply strict_tidy.
  intros e s s' r Ht. unfold mbind, M_bind. set (k' := encodeKey k).
  destruct (exec _ e s) as [s1 [u|er]] eqn:E1; destruct (strict_exec _ _ _ _ _ Ht E1) as [Ht1 HF1];
    [|intros [= <- <-]; split; [done|]; intros er' _; by eapply HF1].
  apply exec_Ok in E1. destruct (query _ e s1) as [s2 [b|er]] eqn:E2; destruct (strict_query _ _ _ _ _ Ht1 E2) as [Ht2 HF2];
    [|intros [= <- <-]; split; [done|]; intros er' _; by eapply HF2].
  apply query_Ok in E2 as [_ ->]. rewrite E1. cbn. unfold upsert_with.
  destruct (kv_strings (db s) !! k') as [[old x]|]; rewrite lookup_insert_eq; cbn; by intros [= <- <-].
Qed.

Lemma deleteKey_meta k e s s' a : deleteKeyFromAllTables k e s = (s', Ok a) → kv_meta (db s') !! k = None.
Proof.
  unfold deleteKeyFromAllTables.
  intros (? & ? & _ & (s1 & ? & E1%exec_Ok & H)%bind_Ok)%bind_Ok.
  repeat (apply bind_Ok in H as (? & ? & ?%exec_Ok & H)). apply exec_Ok in H.
  repeat match goal with E : db _ = _ |- _ => rewrite E; clear E; cbn end. by rewrite lookup_delete_eq.
Qed.
(** SADD to a key that is not there cannot meet another type. *)
Lemma sAdd_fresh k l e s s' r :
  in_tx s = true → kv_meta (db s) !! encodeKey k = None → sAdd k l e s = (s', r) →
  in_tx s' = true ∧ ∀ er, r = Fail er → aborted s' = true.
Proof.
  intros Ht Hk. unfold sAdd. destruct l as [|x l]; [by intros [= <- <-]|]. cbv zeta.
  unfold mbind at 1, M_bind at 1. unfold requireType, getKeyType, mbind at 1 2, M_bind at 1 2.
  destruct (query _ e s) as [s1 [b|er]] eqn:E2; destruct (strict_query _ _ _ _ _ Ht E2) as [Ht1 HF];
    [|intros [= <- <-]; split; [done|]; intros er' _; by eapply HF].
  apply query_Ok in E2 as [_ ->]. unfold meta_type. rewrite Hk. cbn [live_row mret M_ret].
  rewrite (bool_decide_false (TypeNone ≠ TypeNone)) by tauto. cbn [andb mret M_ret]. intros E. eapply (strict_bind (setMeta _ _ _)); [| |done|exact E]; [apply strict_setMeta|intros; apply strict_stmt].
Qed.
Lemma strict_storeMembers dst l : strict (storeMembers (encodeKey dst) l).
Proof.
  intros e s s' r Ht. unfold storeMembers, mbind, M_bind.
  destruct (deleteKeyFromAllTables _ e s) as [s1 [u|er]] eqn:E; destruct (strict_deleteKey _ _ _ _ _ Ht E) as [Ht1 HF];
    [|intros [= <- <-]; split; [done|]; intros er' _; by eapply HF].
  apply deleteKey_meta in E. case_bool_decide; [by intros [= <- <-]|].
  apply sAdd_fresh; [done|]. by rewrite encodeKey_idemp.
Qed.
#[export] Hint Resolve strict_storeMembers : tidy.
Lemma tidy_read {A} (m : M A) : touches [] m → tidy m.
Proof. intros H. by eapply tidy_spares, touches_spares. Qed.
Lemma tidy_sInterStore R dst ks : tidy (sInterStore R dst ks).
Proof. unfold sInterStore. cbv zeta. apply tidy_bind_strict; [apply tidy_read, touches_sInter|intros ?; strictly]. Qed.
Lemma tidy_sUnionStore R dst ks : tidy (sUnionStore R dst ks).
Proof. unfold sUnionStore. cbv zeta. apply tidy_bind_strict; [apply tidy_read, touches_sUnion|intros ?; strictly]. Qed.
Lemma tidy_sDiffStore R dst ks : tidy (sDiffStore R dst ks).
Proof. unfold sDiffStore. cbv zeta. apply tidy_bind_strict; [apply tidy_read, touches_sDiff|intros ?; strictly]. Qed.
(** ZADD without options to a key that is not there cannot meet another type
    either. *)
Lemma strict_zAdd_loop k l o a c : strict (zAdd_loop k l o a c).
Proof. revert a c. induction l as [|[m x] l IH]; intros a c; cbn [zAdd_loop]; strictly; apply IH. Qed.
Lemma zAdd_fresh k l e s s' r :
  in_tx s = true → kv_meta (db s) !! encodeKey k = None → zAdd k l ZAdd0 e s = (s', r) →
  in_tx s' = true ∧ ∀ er, r = Fail er → aborted s' = true.
Proof.
  intros Ht Hk. unfold zAdd. cbv zeta. unfold mbind at 1, M_bind at 1. unfold getKeyType, mbind at 1, M_bind at 1.
  destruct (query _ e s) as [s1 [b|er]] eqn:E2; destruct (strict_query _ _ _ _ _ Ht E2) as [Ht1 HF];
    [|intros [= <- <-]; split; [done|]; intros er' _; by eapply HF].
  apply query_Ok in E2 as [_ ->]. unfold meta_type. rewrite Hk. cbn [live_row mret M_ret].
  rewrite (bool_decide_false (TypeNone ≠ TypeNone)) by tauto. cbn [andb mret M_ret zXX ZAdd0 zCH]. rewrite andb_false_r.
  intros E. eapply (strict_bind (setMeta _ _ _)); [apply strict_setMeta| |done|exact E].
  intros []. apply strict_bind; [apply strict_zAdd_loop|]. intros [a c]. apply strict_ret.
Qed.
Lemma strict_store_scores F dst agg sc : strict (store_scores F (encodeKey dst) agg sc).
Proof.
  intros e s s' r Ht. unfold store_scores, mbind, M_bind.
  destruct (deleteKeyFromAllTables _ e s) as [s1 [u|er]] eqn:E; destruct (strict_deleteKey _ _ _ _ _ Ht E) as [Ht1 HF];
    [|intros [= <- <-]; split; [done|]; intros er' _; by eapply HF].
  apply deleteKey_meta in E. case_bool_decide; [by intros [= <- <-]|].
  apply zAdd_fresh; [done|]. by rewrite encodeKey_idemp.
Qed.
Lemma tidy_zUnionStore F dst ks ws agg : tidy (zUnionStore F dst ks ws agg).
Proof.
  unfold zUnionStore. cbv zeta. apply tidy_bind_strict; [apply tidy_read, touches_union_loop|intros ?; apply strict_store_scores].
Qed.
Lemma tidy_zInterStore F dst ks ws agg : tidy (zInterStore F dst ks ws agg).
Proof.
  unfold zInterStore. cbv zeta. destruct (encodeKeys ks) as [|k rest]; [apply strict_tidy, strict_ret|].
  apply tidy_bind; [apply tidy_read, touches_zrange|apply spares_read, touches_zrange|intros ms].
  destruct (weights_or_one _ _); [apply tidy_throw|].
  apply tidy_bind_strict; [apply tidy_read, touches_inter_loop|intros ?; apply strict_store_scores].
Qed.

End StringRows.
