(* ===== verification/Cache.v ===== *)
(** * The value cache: internal/cache/cache.go, cached_store.go, caching_tx.go, invalidator.go

    The in-memory cache of strings, [CachedStore] as a third implementation of
    the storage interface (it answers GET from the cache and drops the keys a
    call has written), [CachingTx], which collects the keys a transaction
    writes until it commits, and the messages that carry invalidations to
    other instances. The main theorem: whatever calls, transactions and
    cleanups came before, GET through the cache answers what the database
    would answer, up to keys that have expired since they were cached. *)
From stdpp Require Import gmap strings list sorting.
From Stdlib Require Import ZArith Lia Ascii.
From S2P Require Import Prelude GoStd KeyCodec Db StoreMeta StoreStrings StoreBits StoreBitmaps StoreKeys StoreHash StoreLists StoreSets StoreHll StoreZSets StoreSampling PubSub Client Handler Footprint Ops StringRows Commands.
Import Db KeyCodec Meta StringOps BitOps BitmapOps KeyOps HashOps ListOps SetOps HllOps ZSetOps Sampling Footprint Ops StringRows.
Import Handler (FlushDB, LockKeys).
Import Commands (sample_runtime, sample_runtime_ok).
Import PubSub (dquote, after, string_body, pg_notify, string_body_app, after_app, base64_no_quote).

Module Cache.

(** ** cache.go *)

(** [entry]: the value and [expiresAt]. Times are nanoseconds. *)
Record entry := MkEntry { value : string; expiresAt : Z }.
Abbreviation items := (gmap string entry).

Record Config := MkConfig {
  TTL : Z;
  MaxSize : Z;
  ExcludePatterns : list string;
  IncludePatterns : list string;
  distributed : bool              (** an invalidator is set *)
}.

(** [time.Now().After(e.expiresAt)] *)
Definition Get (key : string) (now : Z) (c : items) : option string :=
  e ← c !! key;
  if (expiresAt e <? now)%Z then None else Some (value e).

Definition Set_ (cfg : Config) (key v : string) (now : Z) (c : items) : items :=
  if (0 <? MaxSize cfg)%Z && (MaxSize cfg <=? Z.of_nat (size c))%Z && bool_decide (c !! key = None) then c
  else <[key := MkEntry v (now + TTL cfg)]> c.

Definition Delete (key : string) (c : items) : items := delete key c.
Definition DeleteMulti (keys : list string) (c : items) : items := foldl (λ c key, delete key c) c keys.
Definition Flush (c : items) : items := ∅.
Definition cleanup (now : Z) (c : items) : items :=
  filter (λ p : string * entry, (now <= expiresAt p.2)%Z) c.

Lemma DeleteMulti_lookup keys c k : DeleteMulti keys c !! k = if decide (k ∈ keys) then None else c !! k.
Proof.
  revert c. induction keys as [|key keys IH]; intros c; cbn [DeleteMulti foldl]; [by rewrite decide_False by set_solver|].
  fold (DeleteMulti keys (delete key c)). rewrite IH. destruct (decide (key = k)) as [->|].
  - rewrite lookup_delete_eq, (decide_True (P := k ∈ k :: keys)) by set_solver. by case_decide.
  - rewrite lookup_delete_ne by done. do 2 case_decide; set_solver.
Qed.

(** The size bound: a full cache does not grow. *)
Lemma Set_size cfg key v now c :
  (0 < MaxSize cfg → Z.of_nat (size c) <= MaxSize cfg → Z.of_nat (size (Set_ cfg key v now c)) <= MaxSize cfg)%Z.
Proof.
  intros H0 Hc. unfold Set_. rewrite (proj2 (Z.ltb_lt _ _) H0). cbn [andb].
  destruct (c !! key) eqn:E.
  - rewrite bool_decide_false, andb_false_r by done. rewrite map_size_insert_Some by done. done.
  - rewrite bool_decide_true, andb_true_r by done. destruct (_ <=? _)%Z eqn:El; [done|].
    rewrite map_size_insert_None by done. lia.
Qed.

(** ** The policy *)

(** [pattern[:idx]] and [pattern[idx+1:]] at the first star are [split2]. *)
Definition matchGlob (pattern str : string) : bool :=
  if bool_decide (pattern = str) then true
  else if Strings.HasSuffix pattern "*" then Strings.HasPrefix str (Strings.TrimSuffix pattern "*")
  else if Strings.HasPrefix pattern "*" then Strings.HasSuffix str (Strings.TrimPrefix pattern "*")
  else match Strings.split2 "*" (bytes_of pattern) with
       | Some (l, r) => Strings.HasPrefix str (string_of l) && Strings.HasSuffix str (string_of r)
       | None => false
       end.
Definition matchesAnyPattern (key : string) (patterns : list string) : bool :=
  existsb (λ pattern, matchGlob pattern key) patterns.
Definition shouldCache (cfg : Config) (key : string) : bool :=
  if negb (bool_decide (IncludePatterns cfg = [])) && matchesAnyPattern key (IncludePatterns cfg) then true
  else if negb (bool_decide (ExcludePatterns cfg = [])) && matchesAnyPattern key (ExcludePatterns cfg) then false
  else true.

(** ** The keys a call invalidates *)

(** What [CachedStore] invalidates after a call, from what the call returned. *)
Definition string_marks {A} (o : string_op A) : A → list string :=
  match o in string_op A return A → list string with
  | Ops.Set_ key _ _ | Incr key _ | IncrByFloat key _ | Append key _ | SetRange key _ _
  | GetEx key _ _ | GetDel key | GetSet key _ => λ _, [key]
  | SetNX key _ _ => λ ok, if ok then [key] else []
  | MSet pairs => λ _, (map_to_list pairs).*1
  | BitField key ops => λ _, if bitFieldHasWrites ops then [key] else []
  | Ops.Get _ | MGet _ | GetRange _ _ _ | StrLen _ => λ _, []
  end.
(** [del] encodes and sorts the slice of keys in place, so what is invalidated
    afterwards are the stored names. *)
Definition key_marks {A} (o : key_op A) : A → list string :=
  match o in key_op A return A → list string with
  | Del keys => λ _, Sort.Strings (encodeKeys keys)
  | Expire key _ _ | ExpireAt key _ _ => λ ok, if ok then [key] else []
  | Persist key => λ _, [key]
  | Rename oldKey newKey => λ _, [oldKey; newKey]
  | Copy _ destination _ => λ ok, if ok then [destination] else []
  | Exists_ _ | Ops.TTL _ | PTTL _ | Keys _ | Type_ _ | RandomKey | DBSize => λ _, []
  end.
Definition bitmap_marks {A} (o : bitmap_op A) : A → list string :=
  match o in bitmap_op A return A → list string with
  | SetBit key _ _ => λ _, [key]
  | BitOp _ destKey _ => λ _, [destKey]
  | GetBit _ _ | BitCount _ _ _ _ | BitPos _ _ _ _ _ => λ _, []
  end.
Definition hash_marks {A} (o : hash_op A) : A → list string :=
  match o in hash_op A return A → list string with
  | HIncrBy key _ _ | HIncrByFloat key _ _ => λ _, [key]
  | HSetNX key _ _ => λ ok, if ok then [key] else []
  | HGet _ _ | HSet _ _ | HDel _ _ | HGetAll _ | HMGet _ _ | HExists _ _ | HKeys _ | HVals _ | HLen _
  | HRandField _ _ _ => λ _, []
  end.
Definition list_marks {A} (o : list_op A) : A → list string :=
  match o in list_op A return A → list string with
  | LRem key _ _ | LTrim key _ _ | LSet key _ _ | LInsert key _ _ _ => λ _, [key]
  | RPopLPush source destination => λ _, [source; destination]
  | LPush _ _ | RPush _ _ | LPop _ | RPop _ | LPopMulti _ | RPopMulti _ | LMPop _ _ | RMPop _ _ | LLen _
  | LRange _ _ _ | LIndex _ _ | LPos _ _ _ _ _ => λ _, []
  end.
Definition set_marks {A} (o : set_op A) : A → list string :=
  match o in set_op A return A → list string with
  | SInterStore destination _ | SUnionStore destination _ | SDiffStore destination _ => λ _, [destination]
  | SAdd _ _ | SRem _ _ | SMembers _ | SIsMember _ _ | SCard _ | SMIsMember _ _ | SInter _ | SUnion _ | SDiff _
  | SInterCard _ _ | SRandMember _ _ => λ _, []
  end.
Definition hll_marks {A} (o : hll_op A) : A → list string :=
  match o in hll_op A return A → list string with
  | PFAdd key _ => λ _, [key]
  | PFMerge destKey _ => λ _, [destKey]
  | PFCount _ => λ _, []
  end.
Definition zset_marks {A} (o : zset_op A) : A → list string :=
  match o in zset_op A return A → list string with
  | ZRangeStore dst _ _ => λ _, [dst]
  | ZRemRangeByScore key _ _ | ZRemRangeByRank key _ _ | ZIncrBy key _ _ => λ _, [key]
  | ZPopMin key _ => λ _, [key]
  | ZPopMax key _ => λ members, if bool_decide (members = []) then [] else [key]
  | ZUnionStore destination _ _ _ | ZInterStore destination _ _ _ => λ _, [destination]
  | ZAdd _ _ _ | ZRange _ _ _ | ZRangeByScore_ _ _ _ _ _ | ZRevRange _ _ _ | ZRevRangeByScore _ _ _ _ _
  | ZRangeByLex_ _ _ _ _ _ | ZRevRangeByLex _ _ _ _ _ | ZLexCount _ _ _ | ZRandMember _ _ | ZMPopMin _ _ | ZMPopMax _ _
  | ZScore _ _ | ZRem _ _ | ZCard _ | ZRank _ _ | ZRevRank _ _ | ZCount _ _ _ | ZScan _ _ _ _ => λ _, []
  end.
Definition marks {A : Set} (o : op A) : A → list string :=
  match o with
  | StringOp o => string_marks o | KeyOp o => key_marks o | BitmapOp o => bitmap_marks o
  | HashOp o => hash_marks o | ListOp o => list_marks o | SetOp o => set_marks o
  | HllOp o => hll_marks o | ZSetOp o => zset_marks o
  end.

(** What [CachingTx] marks as dirty, written a second time in the source. *)
Definition dirty_string {A} (o : string_op A) : A → list string :=
  match o in string_op A return A → list string with
  | Ops.Set_ key _ _ => λ _, [key]
  | SetNX key _ _ => λ ok, if ok then [key] else []
  | MSet pairs => λ _, (map_to_list pairs).*1
  | Incr key _ | IncrByFloat key _ | Append key _ | SetRange key _ _ => λ _, [key]
  | BitField key ops => λ _, if bitFieldHasWrites ops then [key] else []
  | GetEx key _ _ | GetDel key | GetSet key _ => λ _, [key]
  | _ => λ _, []
  end.
Definition dirty_key {A} (o : key_op A) : A → list string :=
  match o in key_op A return A → list string with
  | Del keys => λ _, Sort.Strings (encodeKeys keys)
  | Expire key _ _ | ExpireAt key _ _ => λ ok, if ok then [key] else []
  | Persist key => λ _, [key]
  | Rename oldKey newKey => λ _, [oldKey; newKey]
  | Copy _ destination _ => λ ok, if ok then [destination] else []
  | _ => λ _, []
  end.
Definition dirty_bitmap {A} (o : bitmap_op A) : A → list string :=
  match o in bitmap_op A return A → list string with
  | SetBit key _ _ => λ _, [key]
  | BitOp _ destKey _ => λ _, [destKey]
  | _ => λ _, []
  end.
Definition dirty_hash {A} (o : hash_op A) : A → list string :=
  match o in hash_op A return A → list string with
  | HIncrBy key _ _ | HIncrByFloat key _ _ => λ _, [key]
  | HSetNX key _ _ => λ ok, if ok then [key] else []
  | _ => λ _, []
  end.
Definition dirty_list {A} (o : list_op A) : A → list string :=
  match o in list_op A return A → list string with
  | LRem key _ _ | LTrim key _ _ | LSet key _ _ | LInsert key _ _ _ => λ _, [key]
  | RPopLPush source destination => λ _, [source; destination]
  | _ => λ _, []
  end.
Definition dirty_set {A} (o : set_op A) : A → list string :=
  match o in set_op A return A → list string with
  | SInterStore destination _ | SUnionStore destination _ | SDiffStore destination _ => λ _, [destination]
  | _ => λ _, []
  end.
Definition dirty_hll {A} (o : hll_op A) : A → list string :=
  match o in hll_op A return A → list string with
  | PFAdd key _ => λ _, [key]
  | PFMerge destKey _ => λ _, [destKey]
  | _ => λ _, []
  end.
(** There is no ZRangeStore in caching_tx.go. *)
Definition dirty_zset {A} (o : zset_op A) : A → list string :=
  match o in zset_op A return A → list string with
  | ZRemRangeByScore key _ _ | ZRemRangeByRank key _ _ | ZIncrBy key _ _ => λ _, [key]
  | ZPopMin key _ | ZPopMax key _ => λ members, if bool_decide (members = []) then [] else [key]
  | ZUnionStore destination _ _ _ | ZInterStore destination _ _ _ => λ _, [destination]
  | _ => λ _, []
  end.
Definition dirties {A : Set} (o : op A) : A → list string :=
  match o with
  | StringOp o => dirty_string o | KeyOp o => dirty_key o | BitmapOp o => dirty_bitmap o
  | HashOp o => dirty_hash o | ListOp o => dirty_list o | SetOp o => dirty_set o
  | HllOp o => dirty_hll o | ZSetOp o => dirty_zset o
  end.
(** ** What a call does to the strings *)

(** The operations on collections. *)
Lemma spares_collection R {A} : (∀ o : hash_op A, spares [] (tx_hash R o)) ∧ (∀ o : list_op A, spares [] (tx_list R o)) ∧
  (∀ o : hll_op A, spares [] (tx_hll R o)).
Proof.
  split_and!; destruct o; cbn [tx_hash tx_list tx_hll];
    eauto using spares_hSet, spares_hDel, spares_hSetNX, spares_hIncrBy, spares_hIncrByFloat, spares_lPush, spares_rPush,
      spares_pop_first, spares_popMulti, spares_popMultiN, spares_lRem, spares_lTrim, spares_lSet, spares_lInsert,
      spares_rPopLPush, spares_pfAdd, spares_pfMerge, touches_pfCount, touches_spares, touches_hGet, touches_hGetAll, touches_hMGet, touches_hExists, touches_hKeys,
      touches_hVals, touches_hLen, touches_hRandField, touches_lLen, touches_lRange, touches_lIndex, touches_lPos.
Qed.
(** Those on sorted sets, the ones that replace a destination apart. *)
Definition replaces {A} (o : zset_op A) : bool :=
  match o with ZRangeStore _ _ _ | ZUnionStore _ _ _ _ | ZInterStore _ _ _ _ => true | _ => false end.
Lemma spares_zset R {A} (o : zset_op A) : replaces o = false → spares [] (tx_zset R o).
Proof.
  intros Ho. destruct o; try discriminate Ho; cbn [tx_zset];
    eauto using spares_zAdd, spares_zRem, spares_zRemRangeByScore, spares_zRemRangeByRank, spares_zIncrBy, spares_zpop,
      spares_zMPop, touches_spares, touches_zrange, touches_zrange_score, touches_zrange_lex, touches_zLexCount,
      touches_zRandMember, touches_zScore, touches_zCard, touches_zrank, touches_zCount, touches_zScan.
Qed.
Lemma same_strings_mono K K' t t' : K ⊆ K' → same_strings K t t' → same_strings K' t t'.
Proof. intros HK H k Hk. apply H. set_solver. Qed.

(** A call that succeeds changes at most the strings it marks. *)
Lemma tx_op_marks R `{!RuntimeOk R} {A : Set} (o : op A) e s s' (a : A) :
  tx_op R o e s = (s', Ok a) → same_strings (encodeKey <$> marks o a) (db s) (db s').
Proof.
  intros E. pose proof (touches_spares _ _ (touches_tx_op R o) _ _ _ _ E) as Ht. revert a E Ht.
  destruct o as [o|o|o|o|o|o|o|o];
    [| | |intros a E _; by eapply (same_strings_mono []); [set_solver|eapply (proj1 (spares_collection R))]
        |intros a E _; by eapply (same_strings_mono []); [set_solver|eapply (proj1 (proj2 (spares_collection R)))]|
        |intros a E _; by eapply (same_strings_mono []); [set_solver|eapply (proj2 (proj2 (spares_collection R)))]
        |destruct (replaces o) eqn:Ho; [destruct o; try discriminate Ho; intros r E Ht; exact Ht|intros a E _;
         by eapply (same_strings_mono []); [set_solver|eapply (spares_zset R o Ho)]]];
    destruct o; intros r E Ht; try exact Ht; cbn [marks string_marks key_marks set_marks tx_op tx_string tx_key tx_set] in *.
  - destruct r; [exact Ht|]. exact (refused_setNX _ _ _ _ _ _ E).
  - destruct (bitFieldHasWrites ops) eqn:Hw; [exact Ht|]. exact (spares_bitField_reads _ _ Hw _ _ _ _ E).
  - eapply same_strings_mono; [|exact Ht]. intros k Hk. apply list_elem_of_fmap in Hk as (x & -> & Hx).
    apply list_elem_of_fmap. exists (encodeKey x). split; [by rewrite encodeKey_idemp|].
    rewrite Sort.Strings_Permutation, encodeKeys_map. apply list_elem_of_fmap. by exists x.
  - destruct r; [exact Ht|]. exact (refused_expire _ _ _ _ _ _ E).
  - destruct r; [exact Ht|]. exact (refused_expireAt _ _ _ _ _ _ E).
  - destruct r; [exact (spares_copyKey _ _ _ _ _ _ _ E)|exact (refused_copyKey _ _ _ _ _ _ E)].
  - exact (spares_sAdd _ _ _ _ _ _ E).
  - exact (spares_sRem _ _ _ _ _ _ E).
Qed.

(** RENAME and COPY can fail after they have deleted the destination, and
    CachingTx does not see that ZRANGESTORE deletes it. *)
Definition settles {A : Set} (o : op A) : bool :=
  match o with KeyOp (Rename _ _) | KeyOp (Copy _ _ _) | ZSetOp (ZRangeStore _ _ _) => false | _ => true end.
(** For any other call CachingTx marks what CachedStore does, or the call
    changes no string. *)
Lemma dirties_marks R {A : Set} (o : op A) a :
  settles o = true → dirties o a = marks o a ∨ spares [] (tx_op R o).
Proof.
  intros Hs. destruct o as [o|o|o|o|o|o|o|o]; [by left; destruct o..|].
  destruct (replaces o) eqn:Ho; [destruct o; try discriminate Ho; [discriminate Hs|by left..]|].
  right. by apply spares_zset.
Qed.
(** Any other call that fails has changed no string, unless the transaction
    it runs in is lost. *)
Lemma tx_op_tidy R `{!RuntimeOk R} {A : Set} (o : op A) : settles o = true → tidy (tx_op R o).
Proof.
  intros Hs. destruct o as [o|o|o|o|o|o|o|o];
    [| | |exact (tidy_spares _ _ (touches_tx_op R (HashOp o)) (proj1 (spares_collection R) o))
        |exact (tidy_spares _ _ (touches_tx_op R (ListOp o)) (proj1 (proj2 (spares_collection R)) o))|
        |exact (tidy_spares _ _ (touches_tx_op R (HllOp o)) (proj2 (proj2 (spares_collection R)) o))
        |destruct (replaces o) eqn:Ho; [|exact (tidy_spares _ _ (touches_tx_op R (ZSetOp o)) (spares_zset R o Ho))]];
    destruct o; try discriminate Hs; try discriminate Ho; cbn [tx_op tx_string tx_key tx_bitmap tx_set tx_zset];
    eauto using tidy_set, tidy_setNX, tidy_mSet, tidy_incr, tidy_incrByFloat, tidy_appendStr, tidy_setRange, tidy_getEx,
      tidy_getDel, tidy_getSet, tidy_bitField, tidy_del, tidy_expire, tidy_expireAt, tidy_persist, tidy_setBit, tidy_bitOp,
      tidy_sInterStore, tidy_sUnionStore, tidy_sDiffStore, tidy_spares, touches_sAdd, spares_sAdd, touches_sRem, spares_sRem,
      tidy_read, touches_get, touches_mGet, touches_getRange, touches_strLen, touches_exists, touches_ttl, touches_pttl,
      touches_keys, touches_keyType, touches_randomKey, touches_dbSize, touches_getBit, touches_bitCount, touches_bitPos,
      touches_sMembers, touches_sIsMember, touches_sCard, touches_sMIsMember, touches_sInter, touches_sUnion, touches_sDiff,
      touches_sInterCard, touches_sRandMember, tidy_zUnionStore, tidy_zInterStore.
Qed.

(** ** Invalidation messages: invalidator.go *)

Record invalidationPayload := MkInv { Keys_ : list string; Flush_ : bool; Encoded : bool }.

(** [encoding/json] on the payload, every field with [omitempty]. [Marshal] is
    exact for keys that need no escaping, which base64 text does not;
    [Unmarshal] reads back the two kinds of text that are sent and refuses the
    rest. *)
Definition quoted (s : string) : bytes := dquote :: bytes_of s ++ [dquote].
Fixpoint join_comma (l : list bytes) : bytes :=
  match l with
  | [] => []
  | [x] => x
  | x :: l => x ++ ","%char :: join_comma l
  end.
Definition Marshal (m : invalidationPayload) : bytes :=
  let keys := match Keys_ m with
              | [] => []
              | ks => [quoted "keys" ++ bytes_of ":[" ++ join_comma (quoted <$> ks) ++ bytes_of "]"]
              end in
  let flush := if Flush_ m then [quoted "flush" ++ bytes_of ":true"] else [] in
  let enc := if Encoded m then [quoted "enc" ++ bytes_of ":true"] else [] in
  bytes_of "{" ++ join_comma (keys ++ flush ++ enc) ++ bytes_of "}".

Definition json_keys : bytes := bytes_of "{" ++ quoted "keys" ++ bytes_of ":[".
Definition json_enc : bytes := bytes_of "]," ++ quoted "enc" ++ bytes_of ":true}".
Definition json_flush : bytes := bytes_of "{" ++ quoted "flush" ++ bytes_of ":true}".
Fixpoint parse_keys (fuel : nat) (l : bytes) : option (list string) :=
  match fuel with
  | O => None
  | S fuel =>
      l ← after [dquote] l;
      let '(k, l) := string_body l in
      l ← after [dquote] l;
      match after (bytes_of ",") l with
      | Some l => cons (string_of k) <$> parse_keys fuel l
      | None => if bool_decide (l = json_enc) then Some [string_of k] else None
      end
  end.
Definition Unmarshal (l : bytes) : option invalidationPayload :=
  if bool_decide (l = json_flush) then Some (MkInv [] true false)
  else
    l ← after json_keys l;
    keys ← parse_keys (length l) l;
    Some (MkInv keys false true).

(** What is sent for some keys, if anything: nothing for no keys, and a
    failing NOTIFY is ignored by the caller. *)
Definition InvalidateKeys (keys : list string) : option string :=
  match keys with
  | [] => None
  | _ =>
      match pg_notify (string_of (Marshal (MkInv ((λ k, Base64.EncodeToString (bytes_of k)) <$> keys) false true))) with
      | Ok payload => Some payload
      | Fail _ => None
      end
  end.
Definition InvalidateFlush : option string :=
  match pg_notify (string_of (Marshal (MkInv [] true false))) with
  | Ok payload => Some payload
  | Fail _ => None
  end.

Definition processNotification (payload : string) (c : items) : items :=
  match Unmarshal (bytes_of payload) with
  | None => c
  | Some msg =>
      if Flush_ msg then Flush c
      else foldl (λ c key, Delete (if Encoded msg
                                   then match Base64.DecodeString key with Some b => string_of b | None => key end
                                   else key) c) c (Keys_ msg)
  end.

Lemma parse_keys_quoted (ks : list string) fuel :
  ks ≠ [] → Forall (λ k, dquote ∉ bytes_of k) ks → (length ks <= fuel)%nat →
  parse_keys fuel (join_comma (quoted <$> ks) ++ json_enc) = Some ks.
Proof.
  revert fuel. induction ks as [|k ks IH]; intros fuel Hn Hq Hf; [done|]. destruct fuel as [|fuel]; [cbn in Hf; lia|].
  apply Forall_cons in Hq as [Hk Hq]. cbn [parse_keys].
  assert (∃ r, join_comma (quoted <$> k :: ks) ++ json_enc = [dquote] ++ bytes_of k ++ [dquote] ++ r ∧
    r = match ks with [] => json_enc | _ => bytes_of "," ++ join_comma (quoted <$> ks) ++ json_enc end) as (r & -> & Hr).
  { eexists. split; [|reflexivity]. destruct ks as [|k' ks]; cbn [fmap list_fmap join_comma]; unfold quoted; cbn [app];
      by rewrite <-!app_assoc. }
  rewrite after_app. cbn [mbind option_bind]. change ([dquote] ++ r) with (dquote :: r). rewrite string_body_app by done.
  change (dquote :: r) with ([dquote] ++ r). rewrite after_app. cbn [mbind option_bind]. subst r. rewrite string_of_bytes_of.
  destruct ks as [|k' ks].
  - replace (after (bytes_of ",") json_enc) with (@None bytes) by (vm_compute; reflexivity). by rewrite bool_decide_true.
  - rewrite after_app, IH; [done..|cbn in *; lia].
Qed.
Lemma length_join_quoted (ks : list string) : (length ks <= length (join_comma (quoted <$> ks)))%nat.
Proof.
  induction ks as [|k ks IH]; [done|]. destruct ks as [|k' ks]; cbn [fmap list_fmap join_comma] in *.
  - unfold quoted. cbn [length]. lia.
  - rewrite length_app. unfold quoted at 1. cbn [length] in *. lia.
Qed.
Lemma Marshal_keys ks :
  ks ≠ [] → Marshal (MkInv ks false true) = json_keys ++ join_comma (quoted <$> ks) ++ json_enc.
Proof.
  intros Hn. unfold Marshal. cbn [Keys_ Flush_ Encoded]. destruct ks as [|k ks]; [done|].
  generalize (join_comma (quoted <$> k :: ks)). intros l. cbn [app join_comma]. unfold json_keys, json_enc.
  rewrite <-!app_assoc. cbn [app]. rewrite <-!app_assoc. reflexivity.
Qed.
Lemma Unmarshal_Marshal_keys ks :
  ks ≠ [] → Forall (λ k, dquote ∉ bytes_of k) ks → Unmarshal (Marshal (MkInv ks false true)) = Some (MkInv ks false true).
Proof.
  intros Hn Hq. rewrite Marshal_keys by done.
  unfold Unmarshal. rewrite bool_decide_false by (destruct ks; discriminate). rewrite after_app. cbn [mbind option_bind].
  rewrite parse_keys_quoted; [done..|]. rewrite length_app. pose proof (length_join_quoted ks). lia.
Qed.

(** Three times the size of the message, against the keys. *)
Lemma payload_length keys :
  keys ≠ [] → (17 * Z.of_nat (length keys) + 4 * foldr Z.add 0 (slen <$> keys) <= 23900)%Z →
  (slen (string_of (Marshal (MkInv ((λ k, Base64.EncodeToString (bytes_of k)) <$> keys) false true))) < 8000)%Z.
Proof.
  intros Hn Hl. rewrite Marshal_keys by by destruct keys. unfold slen. rewrite bytes_of_string_of.
  set (b := λ k, Base64.EncodeToString (bytes_of k)).
  assert (3 * Z.of_nat (length (join_comma (quoted <$> (b <$> keys)))) <=
          17 * Z.of_nat (length keys) + 4 * foldr Z.add 0 (slen <$> keys))%Z as Hj.
  { clear Hn Hl. induction keys as [|k keys IH]; [done|].
    pose proof (Base64.encode_length (bytes_of k)) as Hk. unfold blen in Hk.
    assert (length (quoted (b k)) = length (Base64.encode (bytes_of k)) + 2)%nat as Hq.
    { unfold quoted, b, Base64.EncodeToString. cbn [length]. rewrite length_app, bytes_of_string_of. cbn [length]. lia. }
    destruct keys as [|k' keys]; cbn [fmap list_fmap join_comma] in *; [cbn [foldr length]; unfold slen; lia|].
    rewrite length_app. cbn [length foldr] in *. unfold slen in *. lia. }
  rewrite !length_app. change (length json_keys) with 9%nat. change (length json_enc) with 13%nat. lia.
Qed.

Lemma processNotification_keys keys payload c :
  InvalidateKeys keys = Some payload → processNotification payload c = DeleteMulti keys c.
Proof.
  unfold InvalidateKeys. destruct keys as [|k0 ks0] eqn:Ek; [done|]. rewrite <-Ek.
  unfold pg_notify. destruct (8000 <=? _)%Z; [done|]. intros <-%(inj Some). unfold processNotification.
  rewrite bytes_of_string_of, Unmarshal_Marshal_keys; [|by subst|].
  - cbn [Flush_ Encoded Keys_]. unfold DeleteMulti. clear. revert c.
    induction keys as [|k keys IH]; intros c; cbn [foldl fmap list_fmap]; [done|].
    rewrite Base64.DecodeString_EncodeToString, string_of_bytes_of. apply IH.
  - apply Forall_fmap, Forall_true. intros k. apply base64_no_quote.
Qed.

(** A broadcast invalidation. Another instance that receives the message
    for some keys drops exactly those keys from its cache, whatever bytes they
    are made of, as the sending instance does; and a flush empties it. A
    message is sent unless it reaches the 8000 bytes that NOTIFY refuses. *)
Theorem invalidation_roundtrip keys c :
  (∀ payload, InvalidateKeys keys = Some payload → processNotification payload c = DeleteMulti keys c) ∧
  (∃ payload, InvalidateFlush = Some payload ∧ processNotification payload c = ∅) ∧
  (keys ≠ [] → (17 * Z.of_nat (length keys) + 4 * foldr Z.add 0 (slen <$> keys) <= 23900)%Z →
   is_Some (InvalidateKeys keys)).
Proof.
  split_and!.
  - intros payload. apply processNotification_keys.
  - eexists. split; reflexivity.
  - intros Hn Hl. unfold InvalidateKeys. destruct keys as [|k0 ks0] eqn:Ek; [done|]. rewrite <-Ek in *.
    unfold pg_notify. rewrite (proj2 (Z.leb_gt _ _)); [done|]. apply payload_length; by subst.
Qed.

(** ** CachedStore *)

Record cstate := MkCached { cached : items; store : st; notes : list string }.
Definition with_store (s : st) (cs : cstate) : cstate := MkCached (cached cs) s (notes cs).
Definition with_cache (c : items) (cs : cstate) : cstate := MkCached c (store cs) (notes cs).

Section CachedStore.
Context (cfg : Config) (R : runtime).

(** [invalidate] is the case of one key. *)
Definition invalidateMulti (keys : list string) (cs : cstate) : cstate :=
  MkCached (DeleteMulti keys (cached cs)) (store cs)
    (notes cs ++ if distributed cfg then option_list (InvalidateKeys keys) else []).
Definition flush (cs : cstate) : cstate :=
  MkCached (Flush (cached cs)) (store cs) (notes cs ++ if distributed cfg then option_list InvalidateFlush else []).

Definition cached_get (key : string) (e : nat → env) (cs : cstate) : cstate * result (option string) :=
  let now := go_now (e 0%nat) in
  match (if shouldCache cfg key then Get key now (cached cs) else None) with
  | Some v => (cs, Ok (Some v))
  | None =>
      match store_op R (StringOp (Ops.Get key)) e (store cs) with
      | (s, Fail er) => (with_store s cs, Fail er)
      | (s, Ok (Some v)) =>
          let cs := with_store s cs in
          (if shouldCache cfg key then with_cache (Set_ cfg key v now (cached cs)) cs else cs, Ok (Some v))
      | (s, Ok None) => (with_store s cs, Ok None)
      end
  end.

(** The other methods: ask the backend, then invalidate what was written. *)
Definition backed {A : Set} (o : op A) (e : nat → env) (cs : cstate) : cstate * result A :=
  match store_op R o e (store cs) with
  | (s, Fail er) => (with_store s cs, Fail er)
  | (s, Ok a) => (invalidateMulti (marks o a) (with_store s cs), Ok a)
  end.

Definition cached_string {A : Set} (o : string_op A) : (nat → env) → cstate → cstate * result A :=
  match o in string_op A return (nat → env) → cstate → cstate * result A with
  | Ops.Get key => cached_get key
  | o => backed (StringOp o)
  end.
Definition cached_op {A : Set} (o : op A) : (nat → env) → cstate → cstate * result A :=
  match o with
  | StringOp o => cached_string o
  | o => backed o
  end.

Definition cached_FlushDB (e : env) (cs : cstate) : cstate * result unit :=
  match FlushDB e (store cs) with
  | (s, Fail er) => (with_store s cs, Fail er)
  | (s, Ok _) => (flush (with_store s cs), Ok tt)
  end.

(** ** CachingTx *)

(** A transaction with the keys marked so far. *)
Definition CachingTx : Type := gset string * st.
Definition mark (keys : list string) (dirty : gset string) : gset string := list_to_set keys ∪ dirty.
Definition caching_op (e : env) (A : Set) (o : op A) (_ : nat) (t : CachingTx) : CachingTx * result A :=
  match tx_op R o e t.2 with
  | (s, Fail er) => ((t.1, s), Fail er)
  | (s, Ok a) => ((mark (dirties o a) t.1, s), Ok a)
  end.
Definition caching_Commit (t0 : tables) (e : env) (t : CachingTx) (cs : cstate) : cstate * result unit :=
  match Commit t0 e t.2 with
  | (s, Ok _) => (let cs := with_store s cs in
                  if bool_decide (t.1 = ∅) then cs else invalidateMulti (elements t.1) cs, Ok tt)
  | (s, Fail er) => (with_store s cs, Fail er)
  end.
Definition caching_Rollback (t0 : tables) (t : CachingTx) (cs : cstate) : cstate := with_store (end_tx t0 t.2) cs.

(** One transaction as the handler runs it: begin, lock the keys, run the
    commands, then commit, or roll back when [decide_commit] says so. *)
Definition caching_tx {A} (keys : list string) (p : prog A) (decide_commit : result A → bool) (e : env) (cs : cstate) : cstate :=
  match round_trip e (store cs) with
  | (s, Fail _) => with_store s cs
  | (s, Ok _) =>
      match LockKeys keys e (begin_tx s) with
      | (s, Fail _) => caching_Rollback (db (store cs)) (∅, s) cs
      | (s, Ok _) =>
          let '(t, _, r) := run_prog (caching_op e) (λ _, go_now e) p 0 (∅, s) in
          if decide_commit r then (caching_Commit (db (store cs)) e t cs).1
          else caching_Rollback (db (store cs)) t cs
      end
  end.

End CachedStore.

(** ** Coherence *)

(** The keys of the call are text, which is stored as it is. *)
Definition text_call {A : Set} (o : op A) : Prop :=
  match o with StringOp (Ops.Get key) => text_ok key | _ => Forall text_ok (writes o) end.

Lemma marks_text {A : Set} (o : op A) a : text_call o → Forall text_ok (marks o a).
Proof.
  destruct o as [o|o|o|o|o|o|o|o]; destruct o; cbn; intros H; rewrite ?Forall_cons, ?Forall_nil in *; try tauto;
    try (case_match; rewrite ?Forall_cons, ?Forall_nil in *; tauto).
  rewrite Forall_forall. intros k. rewrite Sort.Strings_Permutation, encodeKeys_map, list_elem_of_fmap.
  intros (x & -> & _). apply encodeKey_text_ok.
Qed.
Lemma text_fmap ks : Forall text_ok ks → encodeKey <$> ks = ks.
Proof. induction 1 as [|k ks Hk _ IH]; cbn; [done|]. by rewrite encodeKey_plain, IH. Qed.

Section Coherence.
Context (cfg : Config) (R : runtime) `{!RuntimeOk R}.
(** How far the server's clock may be ahead of the database's when it fills
    the cache, the time its query takes included. *)
Context (skew : Z).

(** An entry of the cache is the row of the database, which was live when the
    entry was made. *)
Definition backs (t : tables) (k : string) (en : entry) : Prop :=
  text_ok k ∧ ∃ x, kv_strings t !! k = Some (value en, x) ∧ live (timestamptz (expiresAt en - TTL cfg - skew)) x = true.
Definition coherent (cs : cstate) : Prop := map_Forall (backs (db (store cs))) (cached cs).

Lemma backs_same K t t' k en : same_strings K t t' → k ∉ K → backs t k en → backs t' k en.
Proof. intros H Hk (? & x & ? & ?). split; [done|]. exists x. by rewrite H. Qed.

(** The rows outside [keys] are as before, and [keys] are dropped. *)
Lemma coherent_drop keys s cs ns :
  same_strings keys (db (store cs)) (db s) → coherent cs → coherent (MkCached (DeleteMulti keys (cached cs)) s ns).
Proof.
  intros Hs Hc k en. cbn. rewrite DeleteMulti_lookup. case_decide; [done|]. intros Hk. eapply backs_same; [done..|by apply Hc].
Qed.
Lemma coherent_store s cs : same_strings [] (db (store cs)) (db s) → coherent cs → coherent (with_store s cs).
Proof. intros Hs. exact (coherent_drop [] s cs (notes cs) Hs). Qed.
Lemma coherent_shrink c cs : c ⊆ cached cs → coherent cs → coherent (with_cache c cs).
Proof. intros Hc H k en Hk. apply H. by eapply lookup_weaken. Qed.

(** *** Calls *)

Lemma direct_or_tx {A : Set} (o : op A) :
  store_op R o = withTx (tx_op R o) ∨ (store_op R o = direct (tx_op R o) ∧ spares [] (tx_op R o)).
Proof.
  assert (spares (encodeKey <$> writes o) (tx_op R o)) as Ht by apply touches_spares, touches_tx_op, _.
  destruct o as [o|o|o|o|o|o|o|o];
    [| | |pose proof (proj1 (spares_collection R) o) as Hs|pose proof (proj1 (proj2 (spares_collection R)) o) as Hs|
    |pose proof (proj2 (proj2 (spares_collection R)) o) as Hs|pose proof (spares_zset R o) as Hs];
    destruct o; first [left; reflexivity|right; split; [reflexivity|]; first [exact Ht|exact Hs|exact (Hs eq_refl)|apply spares_sRem]].
Qed.
Lemma store_op_marks {A : Set} (o : op A) e s s' a :
  store_op R o e s = (s', Ok a) → same_strings (encodeKey <$> marks o a) (db s) (db s').
Proof.
  destruct (direct_or_tx o) as [-> |[-> _]]; [|by apply tx_op_marks].
  intros (k & s1 & s2 & _ & E & <- & _ & _ & ->)%withTx_from_outcome. by eapply tx_op_marks.
Qed.
Lemma store_op_fails {A : Set} (o : op A) e s s' er :
  (∀ k, heard (e k)) → store_op R o e s = (s', Fail er) → same_strings [] (db s) (db s').
Proof.
  intros He. destruct (direct_or_tx o) as [-> |[-> Hs]]; [|apply Hs]. by intros ->%(withTx_heard _ _ _ _ _ He).
Qed.

Lemma coherent_backed {A : Set} (o : op A) e cs :
  text_call o → (∀ k, heard (e k)) → coherent cs → coherent (backed cfg R o e cs).1.
Proof.
  intros Ht He Hc. unfold backed. destruct (store_op R o e (store cs)) as [s [a|er]] eqn:E; cbn [fst].
  - apply store_op_marks in E. rewrite text_fmap in E by by apply marks_text. exact (coherent_drop _ _ _ _ E Hc).
  - apply coherent_store; [by eapply store_op_fails|done].
Qed.

Lemma live_before now now' x : (now' <= now)%Z → live now x = true → live now' x = true.
Proof. destruct x as [x|]; [|done]. unfold live. intros ? ?%Z.ltb_lt. apply Z.ltb_lt. lia. Qed.

Definition in_step (e : env) : Prop := (timestamptz (go_now e - skew) <= NOW e)%Z.

Lemma coherent_get key e cs :
  text_ok key → (∀ k, heard (e k)) → in_step (e 0%nat) → coherent cs → coherent (cached_get cfg R key e cs).1.
Proof.
  intros Hk Hh He Hc. unfold cached_get. case_match; [done|].
  destruct (store_op R (StringOp (Ops.Get key)) e (store cs)) as [s [r|er]] eqn:E; cbn [fst].
  2:{ apply coherent_store; [by eapply store_op_fails|done]. }
  assert (db s = db (store cs) ∧ r = sel_value key (NOW (e 0%nat)) (db (store cs))) as [Hd ->].
  { cbn in E. unfold direct, get in E. rewrite encodeKey_plain in E by done. by apply query_Ok in E as [-> ->]. }
  assert (coherent (with_store s cs)) as Hc' by (apply coherent_store; [rewrite Hd; reflexivity|done]).
  destruct (sel_value key _ _) as [v|] eqn:Ev; [|done]. cbn [fst]. case_match; [|done].
  unfold Set_. case_match; [by apply coherent_shrink|]. intros k en. cbn [cached with_cache with_store store].
  intros [[<- <-]|[_ Hk']]%lookup_insert_Some; [|by apply Hc']. split; [done|]. rewrite Hd. cbn [value expiresAt].
  unfold sel_value, live_row in Ev. destruct (kv_strings _ !! key) as [[v' x]|] eqn:Er; [|done].
  destruct (live (NOW (e 0%nat)) x) eqn:El; [|done]. injection Ev as ->. exists x. split; [done|].
  replace (go_now (e 0%nat) + TTL cfg - TTL cfg - skew)%Z with (go_now (e 0%nat) - skew)%Z by lia. by eapply live_before.
Qed.
Lemma coherent_call {A : Set} (o : op A) e cs :
  text_call o → (∀ k, heard (e k)) → in_step (e 0%nat) → coherent cs → coherent (cached_op cfg R o e cs).1.
Proof.
  intros Ht Hh He Hc. destruct o as [o|o|o|o|o|o|o|o]; [destruct o; [by apply coherent_get|..]|..]; by apply coherent_backed.
Qed.

(** *** Transactions *)

(** The strings a transaction has changed are marked, unless it is lost. *)
Definition tracks (t0 : tables) (t : CachingTx) : Prop :=
  in_tx t.2 = true ∧ (aborted t.2 = true ∨ same_strings (elements t.1) t0 (db t.2)).
Definition plain_call (A : Set) (o : op A) : Prop := text_call o ∧ settles o = true.

Lemma tracks_op t0 e (A : Set) (o : op A) i t :
  plain_call A o → tracks t0 t → tracks t0 (caching_op R e A o i t).1.
Proof.
  intros [Ht Hs] [Hin Hd]. unfold caching_op. destruct t as [d s]. cbn [fst snd] in *.
  destruct (tx_op R o e s) as [s' r] eqn:E.
  destruct (touches_tx_op R o _ _ _ _ E) as (_ & [Hi Ha] & _).
  destruct (tx_op_tidy R o Hs _ _ _ _ Hin E) as [_ HF].
  destruct r as [a|er]; (split; [by cbn; rewrite Hi|]); cbn [fst snd].
  - destruct Hd as [Hd|Hd]; [by left; apply Ha|right]. intros k Hk. unfold mark in Hk.
    destruct (dirties_marks R o a Hs) as [Em|Hsp].
    + apply tx_op_marks in E; [|done]. rewrite text_fmap in E by by apply marks_text. rewrite Em in Hk.
      rewrite E by set_solver. apply Hd. set_solver.
    + rewrite (Hsp _ _ _ _ E) by set_solver. apply Hd. set_solver.
  - destruct Hd as [Hd|Hd]; [by left; apply Ha|]. destruct (HF er eq_refl) as [|Hsame]; [by left|right].
    intros k Hk. rewrite Hsame by set_solver. by apply Hd.
Qed.
Lemma tracks_run t0 e {A} (p : prog A) i t :
  calls plain_call p → tracks t0 t → tracks t0 (run_prog (caching_op R e) (λ _, go_now e) p i t).1.1.
Proof.
  revert i t. induction p as [a|what|k IH|key k IH|B o k IH]; intros i t Hp Ht; cbn [run_prog].
  - done.
  - done.
  - by apply IH.
  - specialize (IH i t Hp Ht). by destruct (run_prog _ _ k i t) as [[t' ks] r].
  - destruct Hp as [Ho Hk]. pose proof (tracks_op t0 e B o i t Ho Ht) as Ht'.
    destruct (caching_op R e B o i t) as [t1 r]. cbn in Ht'. destruct (panicked r); [done|]. by apply IH.
Qed.

Lemma coherent_commit e t cs :
  heard e → tracks (db (store cs)) t → coherent cs → coherent (caching_Commit cfg (db (store cs)) e t cs).1.
Proof.
  destruct t as [d s]. intros Hh [Hin Hd] Hc. cbn [fst snd] in *. unfold caching_Commit. cbn [fst snd].
  destruct (Commit _ e s) as [s' [u|er]] eqn:E; apply Handler.Commit_outcome in E; cbn [fst].
  - destruct E as [Ha Hdb]. destruct Hd as [Hd|Hd]; [congruence|]. rewrite <-Hdb in Hd.
    case_bool_decide as He; [|exact (coherent_drop _ _ _ _ Hd Hc)]. apply coherent_store; [|done].
    by rewrite He, elements_empty in Hd.
  - destruct E as [E|(_ & []%heard_answer & _)]; [|done]. apply coherent_store; [rewrite E; reflexivity|done].
Qed.
Lemma coherent_tx {A} keys (p : prog A) dc e cs :
  calls plain_call p → heard e → coherent cs → coherent (caching_tx cfg R keys p dc e cs).
Proof.
  intros Hp Hh Hc. unfold caching_tx.
  assert (∀ t, coherent (caching_Rollback (db (store cs)) t cs)) as Hrb
    by (intros t; apply coherent_store; [reflexivity|done]).
  destruct (round_trip e (store cs)) as [s [u|er]] eqn:E.
  2:{ apply coherent_store; [|done]. rewrite (Handler.round_trip_db _ _ _ _ E). reflexivity. }
  apply Handler.round_trip_db in E as Hs.
  destruct (LockKeys keys e (begin_tx s)) as [s1 [u1|er]] eqn:El; [|apply Hrb].
  pose proof (spares_lockKeys [] _ _ _ _ _ El) as Hl.
  destruct (touches_lockKeys (encodeKey <$> keys) _ (reflexivity _) _ _ _ _ El) as (_ & [Hi _] & _).
  pose proof (tracks_run (db (store cs)) e p 0 (∅, s1) Hp) as Ht.
  destruct (run_prog _ _ p 0 _) as [[t ks] r]. destruct (dc r); [|apply Hrb].
  apply coherent_commit; [done| |done]. apply Ht. split; [by cbn; rewrite Hi|right]. cbn in *. by rewrite elements_empty, <-Hs.
Qed.

(** *** Reachable states *)

(** What one instance and its database go through, one thing after another:
    calls, transactions (committed or not), FLUSHDB that succeeds, the cleanup
    of the cache, and calls of another instance that shares the database and
    whose notification arrives before the next step. A call or a transaction
    may fail anywhere, but nothing takes effect whose answer is lost. *)
Inductive step : cstate → cstate → Prop :=
| step_call {A : Set} (o : op A) e cs :
    text_call o → (∀ k, heard (e k)) → in_step (e 0%nat) → step cs (cached_op cfg R o e cs).1
| step_tx {A} keys (p : prog A) decide_commit e cs :
    calls plain_call p → heard e → step cs (caching_tx cfg R keys p decide_commit e cs)
| step_flush e cs cs' : cached_FlushDB cfg e cs = (cs', Ok tt) → step cs cs'
| step_cleanup now cs : step cs (with_cache (cleanup now (cached cs)) cs)
| step_remote {A : Set} (o : op A) (a : A) e s cs :
    text_call o → store_op R o e (store cs) = (s, Ok a) →
    marks o a = [] ∨ is_Some (InvalidateKeys (marks o a)) →
    step cs (MkCached (foldl (λ c payload, processNotification payload c) (cached cs)
                         (option_list (InvalidateKeys (marks o a)))) s (notes cs)).

Lemma coherent_step cs cs' : step cs cs' → coherent cs → coherent cs'.
Proof.
  intros [A o e cs1 Ht Hh He|A keys p dc e cs1 Hp Hh|e cs1 cs2 E|now cs1|A o a e s cs1 Ht E Hn] Hc.
  - by apply coherent_call.
  - by apply coherent_tx.
  - unfold cached_FlushDB in E. destruct (FlushDB e (store cs1)) as [s [u|er]]; [|done]. injection E as <-.
    apply map_Forall_empty.
  - apply coherent_shrink; [|done]. apply map_filter_subseteq.
  - apply store_op_marks in E. rewrite text_fmap in E by by apply marks_text.
    replace (foldl _ _ _) with (DeleteMulti (marks o a) (cached cs1)); [by apply coherent_drop|].
    destruct Hn as [-> |[payload Hn]]; [done|]. rewrite Hn. cbn. by erewrite processNotification_keys.
Qed.
Lemma coherent_steps cs cs' : rtc step cs cs' → coherent cs → coherent cs'.
Proof. induction 1; [done|]. eauto using coherent_step. Qed.

(** C10. The cache is coherent while what it relies on holds. From an empty
    cache, after any sequence of steps, taken one after another, of these
    kinds: calls on text keys, committed, rolled back or failed transactions of
    such calls other than RENAME, COPY and ZRANGESTORE, FLUSHDBs that succeed,
    cleanups, and calls of other instances whose notification has arrived, GET
    through the cache answers what the database answers, except that a key may
    still be answered with the value of its row for less than the cache's TTL
    and the skew of the clocks after the row has expired. No COMMIT takes
    effect whose answer is lost. What is left out is where the cache goes
    stale, see the lemmas below: binary keys, those three commands inside
    transactions, FLUSHDB that fails half-way, a fill that overlaps a write,
    lost answers of COMMIT, and notifications that do not arrive. *)
Theorem cache_coherent cs cs' key now gonow :
  cached cs = ∅ → rtc step cs cs' → aborted (store cs') = false → text_ok key →
  ∃ cs2 r, cached_op cfg R (StringOp (Ops.Get key)) (λ _, quiet now gonow) cs' = (cs2, Ok r) ∧
    (r = sel_value key now (db (store cs')) ∨
     ∃ v x, r = Some v ∧ kv_strings (db (store cs')) !! key = Some (v, x) ∧ live now x = false ∧
            live (timestamptz (gonow - TTL cfg - skew)) x = true).
Proof.
  intros H0 Hs Ha Hk. assert (coherent cs') as Hc.
  { apply (coherent_steps cs); [done|]. unfold coherent. rewrite H0. apply map_Forall_empty. }
  cbn [cached_op cached_string]. unfold cached_get. cbn [go_now quiet].
  destruct (if shouldCache cfg key then _ else None) as [v|] eqn:Eg.
  - exists cs', (Some v). split; [done|]. destruct (shouldCache cfg key); [|done]. unfold Get in Eg.
    destruct (cached cs' !! key) as [en|] eqn:Ek; [|done]. cbn in Eg. case_match eqn:Et; [done|]. injection Eg as <-.
    destruct (Hc _ _ Ek) as (_ & x & Hx & Hl). apply Z.ltb_ge in Et.
    unfold sel_value. rewrite Hx. cbn. destruct (live now x) eqn:El; [by left|right]. exists (value en), x.
    split_and!; try done. eapply live_before; [|done]. unfold timestamptz. apply Z.div_le_mono; lia.
  - destruct (runs_get now gonow key (db (store cs')) (store cs') eq_refl Ha) as (s & E & Hd & _).
    cbn [store_op store_string tx_string direct]. unfold direct. cbn [tx_string]. rewrite E, encodeKey_plain by done.
    destruct (sel_value key now (db (store cs'))) as [v|]; eexists _, _; (split; [reflexivity|by left]).
Qed.

End Coherence.

(** ** Examples *)

#[local] Existing Instance sample_runtime_ok.
Definition sample_config : Config := MkConfig 1000000000 100 [] [] true.
Definition fresh_state : cstate := MkCached ∅ (St empty_tables 0 false false []) [].
Definition at_ (now : Z) (_ : nat) : env := quiet (timestamptz now) now.
Definition do_ {A : Set} (o : op A) (now : Z) (cs : cstate) : cstate := (cached_op sample_config sample_runtime o (at_ now) cs).1.
Definition ask (key : string) (now : Z) (cs : cstate) : result (option string) :=
  (cached_op sample_config sample_runtime (StringOp (Ops.Get key)) (at_ now) cs).2.
Definition ask_db (key : string) (now : Z) (cs : cstate) : option string :=
  sel_value (encodeKey key) (timestamptz now) (db (store cs)).

Lemma text_plain k : needs_encoding k = false → text_ok k.
Proof. apply needs_encoding_false. Qed.

(** SET k v PX 500, GET k, and GET again after the key has expired. *)
Definition filled : cstate :=
  do_ (StringOp (Ops.Get "k")) 0 (do_ (StringOp (Ops.Set_ "k" "v" 500000000)) 0 fresh_state).
Lemma sample_steps : rtc (step sample_config sample_runtime 0) fresh_state filled.
Proof.
  assert (text_ok "k") as Hk by by apply text_plain.
  eapply rtc_l; [apply (step_call sample_config sample_runtime 0 (StringOp (Ops.Set_ "k" "v" 500000000)) (at_ 0))|].
  - by apply Forall_singleton.
  - done.
  - by vm_compute.
  - apply rtc_once, (step_call sample_config sample_runtime 0 (StringOp (Ops.Get "k")) (at_ 0)); [done|done|by vm_compute].
Qed.
Lemma cache_coherent_witness :
  (∃ cs2 r, cached_op sample_config sample_runtime (StringOp (Ops.Get "k")) (λ _, quiet 600000 600000000) filled = (cs2, Ok r) ∧
     (r = sel_value "k" 600000 (db (store filled)) ∨
      ∃ v x, r = Some v ∧ kv_strings (db (store filled)) !! "k" = Some (v, x) ∧ live 600000 x = false ∧
             live (timestamptz (600000000 - TTL sample_config - 0)) x = true)) ∧
  ask "k" 600000000 filled = Ok (Some "v") ∧ ask_db "k" 600000000 filled = None ∧ ask "k" 1600000000 filled = Ok None.
Proof.
  split; [|split_and!; vm_compute; reflexivity].
  apply (cache_coherent sample_config sample_runtime 0 fresh_state filled "k" 600000 600000000);
    [reflexivity|apply sample_steps|vm_compute; reflexivity|by apply text_plain].
Defined.

Lemma invalidation_roundtrip_witness :
  is_Some (InvalidateKeys ["k"; string_of ["000"%char]]) ∧
  processNotification (default "" (InvalidateKeys ["k"])) {[ "k" := MkEntry "v" 0; "l" := MkEntry "w" 0 ]} =
    {[ "l" := MkEntry "w" 0 ]}.
Proof.
  split.
  - apply (proj2 (proj2 (invalidation_roundtrip ["k"; string_of ["000"%char]] ∅))); [done|]. vm_compute. discriminate.
  - rewrite (proj1 (invalidation_roundtrip ["k"] _) _ eq_refl). vm_compute. reflexivity.
Defined.

(** *** Where the cache goes stale *)

(** A reply that the cache gives and the database would not, with nothing
    expired. *)
Definition stale (key : string) (now : Z) (cs : cstate) (v : string) (w : option string) : Prop :=
  ask key now cs = Ok (Some v) ∧ ask_db key now cs = w ∧ w ≠ Some v.

(** DEL drops the stored names from the cache, which is filled under the
    names the client uses: a key with a zero byte survives its deletion. *)
Definition nul : string := string_of ["000"%char].
Lemma del_binary_key_stale :
  let cs := do_ (StringOp (Ops.Get nul)) 0 (do_ (StringOp (Ops.Set_ nul "v" 0)) 0 fresh_state) in
  stale nul 1 (do_ (KeyOp (Del [nul])) 0 cs) "v" None.
Proof. split_and!; [vm_compute; reflexivity..|discriminate]. Qed.

(** In MULTI, COPY with REPLACE deletes its destination and then fails on a
    hash; EXEC commits the deletion, and the cache keeps the string. *)
Lemma failed_copy_in_tx_stale :
  let cs := do_ (HashOp (HSet "h" {[ "f" := "x" ]})) 0 filled in
  stale "k" 1 (caching_tx sample_config sample_runtime ["h"; "k"] (call (KeyOp (Copy "h" "k" true))) (λ _, true) (at_ 0 0) cs)
    "v" None.
Proof. split_and!; [vm_compute; reflexivity..|discriminate]. Qed.

(** In MULTI, ZRANGESTORE replaces a string and the cache keeps it. *)
Lemma zrangestore_in_tx_stale :
  let cs := do_ (ZSetOp (ZAdd "z" [("m", 1%Z)] ZAdd0)) 0 filled in
  let spec := MkSpec ZRangeByIndex false 0 (-1) 0 0 (MkLex "" true 0) (MkLex "" true 0) 0 0 in
  stale "k" 1 (caching_tx sample_config sample_runtime ["k"; "z"] (call (ZSetOp (ZRangeStore "k" "z" spec))) (λ _, true) (at_ 0 0) cs)
    "v" None.
Proof. split_and!; [vm_compute; reflexivity..|discriminate]. Qed.

(** FLUSHDB that fails after its first statement has emptied the strings. *)
Lemma failed_flush_stale :
  let n := sent (store filled) in
  let e := Env 0 0 (λ i, if (i =? S n)%nat then Some (Errorf "timeout") else None) None (λ _, false) in
  stale "k" 1 (cached_FlushDB sample_config e filled).1 "v" None.
Proof. split_and!; [vm_compute; reflexivity..|discriminate]. Qed.

(** A GET that has read the database fills the cache after another client's
    SET has come and gone: the old value is served until the entry expires. *)
Lemma late_fill_stale :
  let cs := do_ (StringOp (Ops.Set_ "k" "old" 0)) 0 fresh_state in
  let cs' := do_ (StringOp (Ops.Set_ "k" "new" 0)) 0 cs in
  ask_db "k" 0 cs = Some "old" ∧
  stale "k" 1 (with_cache (Set_ sample_config "k" "old" 0 (cached cs')) cs') "old" (Some "new").
Proof. unfold stale. split_and!; [vm_compute; reflexivity..|discriminate]. Qed.

(** A SET whose COMMIT took effect although its answer was lost: the call
    fails, so nothing is invalidated. *)
Lemma lost_commit_stale :
  let e n := Env 0 0 (λ i, if (i =? 12 + n)%nat then Some (Errorf "unexpected EOF") else None) None (λ _, true) in
  stale "k" 1 (cached_op sample_config sample_runtime (StringOp (Ops.Set_ "k" "new" 0))
                 (λ _, e (sent (store filled))) filled).1 "v" (Some "new").
Proof. split_and!; [vm_compute; reflexivity..|discriminate]. Qed.

(** Invalidations that do not fit into a notification are not sent. *)
Lemma large_invalidation_lost :
  InvalidateKeys [string_of (replicate (Z.to_nat 6000) "a"%char)] = None.
Proof. vm_compute. reflexivity. Qed.

(** Patterns with a star at both ends, and parts that overlap. *)
Lemma matchGlob_is_not_glob : matchGlob "*:tmp:*" "a:tmp:b" = false ∧ matchGlob "ab*ba" "aba" = true.
Proof. split; vm_compute; reflexivity. Qed.

End Cache.
