(* ===== verification/Startup.v ===== *)
(** * Startup and shutdown: cmd/server/main.go

    The parts that [main] starts, in which order and after which retries, what
    the probes of the metrics server tell meanwhile, and which task of the
    shutdown (file Lifecycle) ends which part. *)
From stdpp Require Import gmap strings list sorting.
From Stdlib Require Import ZArith Lia Ascii.
From S2P Require Import Prelude GoStd Config Resp Db Listener Lifecycle Metrics CmdBlocking Cache.
Import Lifecycle.

(** ** cmd/server/main.go *)

Module Startup.
Import Metrics Listener.
Local Open Scope Z_scope.

(** What runs in the process, each with a goroutine or a connection pool of its
    own. *)
Inductive part :=
| StorePool | ExpiryCleanup | CacheCleanup | InvalidatorLoop | ElectionLoop | MetricsServer | NotifierLoop | HubLoop | AcceptLoop.
#[export] Instance part_eq_dec : EqDecision part.
Proof. solve_decision. Defined.

(** A step of the startup extends the list of what runs; it yields a value, is
    still retrying, or the process has exited. *)
Inductive stopped := StillRetrying | ExitCode (code : Z).
Definition boot (A : Type) : Type := list part → list part * (A + stopped).
#[export] Instance boot_ret : MRet boot := λ _ a ps, (ps, inl a).
#[export] Instance boot_bind : MBind boot := λ _ _ f m ps,
  match m ps with (ps, inl a) => f a ps | (ps, inr why) => (ps, inr why) end.
Definition starts (l : list part) : boot unit := λ ps, (ps ++ l, inl tt).

(** [retryStartup] around a step, with the exit when it returns an error. *)
Definition retrying (attempts : list attempt) (l : list part) : boot unit := λ ps,
  match (retryStartup attempts).2 with
  | None => (ps, inr StillRetrying)
  | Some (Ok _) => (ps ++ l, inl tt)
  | Some (Fail _) => (ps, inr (ExitCode 1))
  end.

(** What the world answers: the attempts of the retried steps, whether the
    Kubernetes client can be made, and whether the port can be listened on. *)
Record inputs := MkInputs {
  connects : list attempt; invalidators : list attempt; newK8sClient : result unit;
  notifiers : list attempt; hubs : list attempt; Listen_err : option goerror
}.

(** [leader.New] *)
Definition leader_New (podName namespace : string) (newK8sClient : result unit) : result unit :=
  if bool_decide (podName = "") || bool_decide (namespace = "") then Fail (Errorf "podName and namespace are required")
  else newK8sClient.
(** [cache.New], with no interval configured. *)
Definition CleanupInterval (ttl : Z) : Z :=
  if Z.quot ttl 2 <? 10 * Millisecond then 10 * Millisecond else Z.quot ttl 2.
(** [Handler.SetBlockingPollInterval] *)
Definition SetBlockingPollInterval (d poll : Z) : Z := if 0 <? d then d else poll.
Definition cacheCfg (cfg : Config.Config) : Cache.Config :=
  Cache.MkConfig (Config.CacheTTL cfg) (Config.CacheMaxSize cfg) (Config.parsePatterns (Config.CacheExcludePatterns cfg))
    (Config.parsePatterns (Config.CacheIncludePatterns cfg)) (Config.CacheDistributedInvalidation cfg).

(** What [main] has built: the cache in front of the store if there is one, the
    election and the invalidator if there are any, the settings of the
    handler. *)
Record app := MkApp {
  app_cache : option Cache.Config; app_election : bool; app_invalidator : bool; app_password : string; app_poll : Z
}.

Definition startCache (cfg : Config.Config) (inp : inputs) : boot (option Cache.Config * bool) :=
  if Config.CacheEnabled cfg then
    starts [CacheCleanup];;
    (if Config.CacheDistributedInvalidation cfg then retrying (invalidators inp) [InvalidatorLoop] else mret tt);;
    mret (Some (cacheCfg cfg), Config.CacheDistributedInvalidation cfg)
  else mret (None, false).
Definition startElection (cfg : Config.Config) (inp : inputs) : boot bool :=
  if Config.LeaderElectionEnabled cfg then
    match leader_New (Config.PodName cfg) (Config.PodNamespace cfg) (newK8sClient inp) with
    | Fail _ => mret false
    | Ok _ => starts [ElectionLoop];; mret true
    end
  else mret false.
Definition startServer (inp : inputs) : boot unit :=
  match Listen_err inp with None => starts [AcceptLoop] | Some _ => λ ps, (ps, inr (ExitCode 1)) end.

Definition main (cfg : Config.Config) (inp : inputs) : boot app :=
  retrying (connects inp) [StorePool; ExpiryCleanup];;
  cache_inv ← startCache cfg inp;
  election ← startElection cfg inp;
  starts [MetricsServer];;
  let poll := SetBlockingPollInterval (Config.BlockingPollInterval cfg) BlockingCmds.defaultBlockingPollInterval in
  retrying (notifiers inp) [NotifierLoop];;
  retrying (hubs inp) [HubLoop];;
  startServer inp;;
  mret (MkApp cache_inv.1 election cache_inv.2 (Config.RedisPassword cfg) poll).

(** The order of the startup, when the election can or cannot be made. *)
Definition elects (cfg : Config.Config) (inp : inputs) : bool :=
  Config.LeaderElectionEnabled cfg &&
  match leader_New (Config.PodName cfg) (Config.PodNamespace cfg) (newK8sClient inp) with Ok _ => true | Fail _ => false end.
Definition plan (cache invalidator election : bool) : list part :=
  [StorePool; ExpiryCleanup] ++ (if cache then [CacheCleanup] else []) ++ (if invalidator then [InvalidatorLoop] else []) ++
  (if election then [ElectionLoop] else []) ++ [MetricsServer; NotifierLoop; HubLoop; AcceptLoop].

(** *** Each step extends the list *)

(** The step adds [l] and yields [a], or stops after some of [l]. *)
Definition adds {A} (l : list part) (a : A) (m : boot A) : Prop := ∀ ps,
  match m ps with
  | (ps', inl a') => ps' = ps ++ l ∧ a' = a
  | (ps', inr _) => ∃ l1 l2, l = l1 ++ l2 ∧ l2 ≠ [] ∧ ps' = ps ++ l1
  end.
Lemma adds_ret {A} (a : A) : adds [] a (mret a).
Proof. intros ps. cbn. by rewrite app_nil_r. Qed.
Lemma adds_starts l : adds l tt (starts l).
Proof. done. Qed.
Lemma adds_retrying attempts p l : adds (p :: l) tt (retrying attempts (p :: l)).
Proof.
  intros ps. unfold retrying. destruct (retryStartup attempts).2 as [[[]|er]|]; [done|..];
    exists [], (p :: l); (split_and!; [done..|by rewrite app_nil_r]).
Qed.
Lemma adds_bind {A B} l1 l2 a b (m : boot A) (f : A → boot B) :
  adds l1 a m → adds l2 b (f a) → adds (l1 ++ l2) b (m ≫= f).
Proof.
  intros Hm Hf ps. specialize (Hm ps). unfold mbind, boot_bind. destruct (m ps) as [ps1 [a'|why]].
  - destruct Hm as [-> ->]. specialize (Hf (ps ++ l1)). destruct (f a (ps ++ l1)) as [ps2 [b'|why]].
    + destruct Hf as [-> ->]. by rewrite app_assoc.
    + destruct Hf as (x & y & -> & Hy & ->). exists (l1 ++ x), y. by rewrite !app_assoc.
  - destruct Hm as (x & y & -> & Hy & ->). exists x, (y ++ l2). rewrite <-app_assoc. split_and!; [done| |done].
    by destruct y.
Qed.
Create HintDb boot.
#[local] Hint Resolve adds_ret adds_starts adds_retrying adds_bind : boot.

Lemma adds_startCache cfg inp :
  adds (if Config.CacheEnabled cfg then CacheCleanup :: (if Config.CacheDistributedInvalidation cfg then [InvalidatorLoop] else [])
        else [])
       (if Config.CacheEnabled cfg then (Some (cacheCfg cfg), Config.CacheDistributedInvalidation cfg) else (None, false))
       (startCache cfg inp).
Proof.
  unfold startCache. destruct (Config.CacheEnabled cfg); [|apply adds_ret].
  apply (adds_bind [CacheCleanup] _ tt); [apply adds_starts|].
  rewrite <-(app_nil_r (if Config.CacheDistributedInvalidation cfg then [InvalidatorLoop] else [])). apply (adds_bind _ [] tt); [|apply adds_ret].
  destruct (Config.CacheDistributedInvalidation cfg); eauto with boot.
Qed.
Lemma adds_startElection cfg inp :
  adds (if elects cfg inp then [ElectionLoop] else []) (elects cfg inp) (startElection cfg inp).
Proof.
  unfold startElection, elects. destruct (Config.LeaderElectionEnabled cfg); [|apply adds_ret].
  destruct (leader_New _ _ _); [|apply adds_ret]. cbn. apply (adds_bind [ElectionLoop] [] tt); eauto with boot.
Qed.
Lemma adds_startServer inp : adds [AcceptLoop] tt (startServer inp).
Proof.
  unfold startServer. destruct (Listen_err inp); [|apply adds_starts].
  intros ps. exists [], [AcceptLoop]. split_and!; [done..|by rewrite app_nil_r].
Qed.

Definition invalidates (cfg : Config.Config) : bool :=
  Config.CacheEnabled cfg && Config.CacheDistributedInvalidation cfg.
Definition built (cfg : Config.Config) (inp : inputs) : app :=
  MkApp (if Config.CacheEnabled cfg then Some (cacheCfg cfg) else None) (elects cfg inp) (invalidates cfg)
    (Config.RedisPassword cfg) (SetBlockingPollInterval (Config.BlockingPollInterval cfg) BlockingCmds.defaultBlockingPollInterval).
Lemma adds_main cfg inp :
  adds (plan (Config.CacheEnabled cfg) (invalidates cfg) (elects cfg inp)) (built cfg inp) (main cfg inp).
Proof.
  unfold plan, main. apply (adds_bind [StorePool; ExpiryCleanup] _ tt); [apply adds_retrying|].
  rewrite app_assoc.
  apply (adds_bind _ _ (if Config.CacheEnabled cfg then (Some (cacheCfg cfg), Config.CacheDistributedInvalidation cfg)
                        else (None, false))).
  { pose proof (adds_startCache cfg inp) as H. unfold invalidates. destruct (Config.CacheEnabled cfg); exact H. }
  eapply adds_bind; [apply adds_startElection|].
  apply (adds_bind [MetricsServer] _ tt); [apply adds_starts|].
  apply (adds_bind [NotifierLoop] _ tt); [apply adds_retrying|].
  apply (adds_bind [HubLoop] _ tt); [apply adds_retrying|].
  apply (adds_bind [AcceptLoop] [] tt); [apply adds_startServer|].
  unfold built, invalidates. destruct (Config.CacheEnabled cfg); apply adds_ret.
Qed.

(** A step that fails for a while and then succeeds. *)
Definition recovers (attempts : list attempt) : Prop :=
  ∃ fails a rest, attempts = fails ++ a :: rest ∧ Forall failing fails ∧ fn_err a = None.
Definition completes {A} (m : boot A) : Prop := ∀ ps, ∃ ps' a, m ps = (ps', inl a).
Lemma completes_ret {A} (a : A) : completes (mret a).
Proof. intros ps. by eexists _, _. Qed.
Lemma completes_starts l : completes (starts l).
Proof. intros ps. by eexists _, _. Qed.
Lemma completes_bind {A B} (m : boot A) (f : A → boot B) : completes m → (∀ a, completes (f a)) → completes (m ≫= f).
Proof. intros Hm Hf ps. unfold mbind, boot_bind. destruct (Hm ps) as (ps1 & a & ->). apply Hf. Qed.
Lemma completes_retrying attempts l : recovers attempts → completes (retrying attempts l).
Proof.
  intros (fails & a & rest & -> & Hf & Ha) ps. unfold retrying, retryStartup.
  destruct (retry_failing (1 * Second) fails (a :: rest)) as [b ->]; [unfold startupRetryMaxBackoff, Second; lia|done|].
  cbn. rewrite Ha. by eexists _, _.
Qed.
#[local] Hint Resolve completes_ret completes_starts completes_bind completes_retrying : boot.

Lemma completes_main cfg inp :
  recovers (connects inp) → (invalidates cfg = true → recovers (invalidators inp)) → recovers (notifiers inp) →
  recovers (hubs inp) → Listen_err inp = None → completes (main cfg inp).
Proof.
  intros Hc Hi Hn Hh Hl. unfold main, startCache, startElection, startServer. rewrite Hl.
  unfold invalidates in Hi. apply completes_bind; [auto with boot|intros _].
  apply completes_bind; [|intros ci; apply completes_bind; [repeat case_match; auto with boot|auto 10 with boot]].
  destruct (Config.CacheEnabled cfg); [|auto with boot]. destruct (Config.CacheDistributedInvalidation cfg); auto 10 with boot.
Qed.

(** C4. The startup of main.go. Whatever fails while the process starts, its
    parts are started in one order, the listener last: connections are accepted
    only when the store, the invalidator of a distributed cache, the list
    notifier and the hub run, with the cache exactly if it is enabled and the
    election exactly if it is enabled and possible; a process that exits or is
    still retrying has not accepted any. And an outage of the database of any
    length only delays the startup: when every retried step succeeds in the end
    and the port is free, the server runs. *)
Theorem startup_order cfg inp :
  let parts := plan (Config.CacheEnabled cfg) (invalidates cfg) (elects cfg inp) in
  let '(ps, r) := main cfg inp [] in
  (∃ rest, parts = ps ++ rest) ∧
  match r with inl a => ps = parts ∧ a = built cfg inp | inr _ => AcceptLoop ∉ ps end ∧
  (recovers (connects inp) → (invalidates cfg = true → recovers (invalidators inp)) → recovers (notifiers inp) →
   recovers (hubs inp) → Listen_err inp = None → r = inl (built cfg inp)).
Proof.
  intros parts. pose proof (adds_main cfg inp []) as H. fold parts in H.
  destruct (main cfg inp []) as [ps r] eqn:E. split_and!.
  - destruct r; [destruct H as [-> _]; exists []; by rewrite app_nil_r|]. destruct H as (l1 & l2 & -> & _ & ->). by exists l2.
  - destruct r as [a|why]; [done|]. destruct H as (l1 & l2 & Hp & Hne & ->). intros Hin.
    assert (NoDup parts) as Hnd
      by (unfold parts; destruct (Config.CacheEnabled cfg), (invalidates cfg), (elects cfg inp); apply (bool_decide_unpack _); vm_compute; exact I).
    rewrite Hp in Hnd. apply NoDup_app in Hnd as (_ & Hnd & _). apply (Hnd _ Hin). cbn in Hin.
    assert (last parts = Some AcceptLoop) as Hl
      by (unfold parts; by destruct (Config.CacheEnabled cfg), (invalidates cfg), (elects cfg inp)).
    rewrite Hp in Hl. rewrite last_app in Hl. destruct (last l2) as [x|] eqn:Ex; [|by apply last_None in Ex].
    injection Hl as ->. by apply last_Some_elem_of.
  - intros Hc Hi Hn Hh Hl. destruct (completes_main cfg inp Hc Hi Hn Hh Hl []) as (ps' & a & E'). rewrite E in E'.
    injection E' as <- ->. by destruct H as [_ ->].
Qed.

(** A cached, distributed instance with election that comes up after two
    failures of the database. *)
Definition refused : attempt := Attempt (Some (Errorf "connection refused")) None None.
Definition up : attempt := Attempt None None None.
Definition sample_config : Config.Config :=
  Config.Load (λ key, if bool_decide (key ∈ ["CACHE_ENABLED"; "CACHE_DISTRIBUTED_INVALIDATION"; "LEADER_ELECTION_ENABLED"])
                      then "true" else if bool_decide (key ∈ ["POD_NAME"; "POD_NAMESPACE"]) then "p" else "") Time.no_fraction.
Definition sample_inputs : inputs := MkInputs [refused; refused; up] [up] (Ok tt) [refused; up] [up] None.

Lemma startup_order_witness :
  (main sample_config sample_inputs []).2 = inl (built sample_config sample_inputs) ∧
  (main sample_config sample_inputs []).1 =
    [StorePool; ExpiryCleanup; CacheCleanup; InvalidatorLoop; ElectionLoop; MetricsServer; NotifierLoop; HubLoop; AcceptLoop].
Proof.
  split; [|vm_compute; reflexivity]. pose proof (startup_order sample_config sample_inputs) as H.
  destruct (main sample_config sample_inputs []) as [ps r]. destruct H as (_ & _ & H). cbn [snd].
  assert (failing refused) as Hf by (split_and!; [by eexists|done..]).
  apply H; [exists [refused; refused], up, []|intros _; exists [], up, []|exists [refused], up, []|exists [], up, []|reflexivity];
    (split_and!; [reflexivity|repeat (apply Forall_cons_2; [exact Hf|]); apply Forall_nil_2|reflexivity]).
Defined.

(** ** Startup and shutdown *)

(** The parts a task of the shutdown ends. [DrainConnections] stops the hub
    first. The expiry cleanup runs on a child of main's context, so cancelling
    that ends it; [Close] of the backend cancels it once more, waits for it and
    closes the pool, and ends the cache's cleanup if there is a cache. The list
    notifier, like the hub and the invalidator, runs on a context of its own,
    made from [context.Background], which only its [Stop] cancels; [main] does
    not call that. *)
Definition stops (cached : bool) (t : task) : list part :=
  match t with
  | CloseTheTcpListener => [AcceptLoop]
  | ReleaseLeader => [ElectionLoop]
  | DrainAll => [HubLoop]
  | CancelContext => [ExpiryCleanup]
  | StopMetrics => [MetricsServer]
  | StopInvalidator => [InvalidatorLoop]
  | CloseStore => (if cached then [CacheCleanup] else []) ++ [ExpiryCleanup; StorePool]
  | MarkNotReady | Sleep | WaitForHandlers => []
  end.
(** What still runs when the tasks are done. *)
Definition running (cached : bool) (done : list task) (ps : list part) : list part :=
  foldl (λ ps t, filter (λ q, q ∉ stops cached t) ps) ps done.



Lemma running_keeps cached done ps q :
  (∀ t, t ∈ done → q ∉ stops cached t) → q ∈ ps → q ∈ running cached done ps.
Proof.
  unfold running. revert ps. induction done as [|t done IH]; intros ps Ht H; cbn [foldl]; [done|].
  apply IH; [set_solver|]. apply list_elem_of_filter. split; [apply Ht; set_solver|done].
Qed.
(** The notifier is not among the parts that the shutdown ends, although a
    comment of main.go says that the context ends it. *)
Lemma notifier_outlives_shutdown cached done ps : NotifierLoop ∈ ps → NotifierLoop ∈ running cached done ps.
Proof. intros H. apply running_keeps; [|done]. intros t _. destruct t, cached; cbn; set_solver. Qed.




(** A startup that is given up after the election has begun exits without
    giving the lease back. *)
Lemma abandoned_startup_keeps_lease :
  let given_up := Attempt (Some (Errorf "connection refused")) (Some (Errorf "context canceled")) None in
  main sample_config (MkInputs [up] [up] (Ok tt) [given_up] [] None) [] =
    ([StorePool; ExpiryCleanup; CacheCleanup; InvalidatorLoop; ElectionLoop; MetricsServer], inr (ExitCode 1)).
Proof. vm_compute. reflexivity. Qed.

(** The interval of the cache's cleanup is never one a ticker panics on. *)
Lemma CleanupInterval_positive ttl : 10 * Millisecond <= CleanupInterval ttl.
Proof. unfold CleanupInterval. destruct (Z.ltb_spec (Z.quot ttl 2) (10 * Millisecond)); lia. Qed.

End Startup.
